(* ===== verification/_CoqProject ===== *)
-Q . S2P
Prelude.v
Fs.v
Command.v
Json.v
KvsEngine.v
LogTheory.v
Conc.v
KvStore.v
KvStoreSpec.v
KvCli.v
KvTheorems.v
ConcStore.v
ConcStoreSpec.v
P5Store.v
ConcTheorems.v
Net.v
Codec.v
NetSpec.v
Net5.v
Sled.v
Programs.v
ThreadPool.v
ServiceTheorems.v
Versions.v
Bitset.v
Popcount.v
Lin.v
LinHeap.v
LinSearch.v
LinSpec.v
LinOps.v
LinCheck.v
KvModel.v
KvLocal.v
KvLog.v
KvLogSpec.v
KvLogParts.v
ConcHist.v
ConcRuns.v
ConcInv.v
ConcWriter.v
ConcThread.v
ConcLin.v
P5Clients.v
LinTheorems.v
KvLogTheorems.v
ClientTheorems.v
ConcWindow.v
P5ClientTheorems.v
ConcServer.v
ConcServerSpec.v
ConcServerTheorems.v
Rpc.v
RpcSpec.v
RpcTheorems.v
LabTests.v
LabTestsSpec.v
LabPools.v
LabPoolTests.v
LabTestsTheorems.v
Persister.v
Harness.v
RaftConfig.v
RaftConfigSpec.v
RaftChecks.v
HarnessTheorems.v
KvConfig.v
KvConfigSpec.v
KvHarnessTheorems.v
