(* ===== verification/Prelude.v ===== *)
(** * Verification of the talent-plan courses (Rust)

    ** The programs

    The repository holds two courses. [courses/rust/projects] builds a key-value store
    in five steps: a map in memory (project-1), a log-structured store with a command
    line (project-2), a server and a client with a choice of engines (project-3),
    threads (project-4), and futures (project-5). [courses/dss] is about distributed
    systems: a checker of linearizability, a simulated network for RPCs, and exercises
    (Raft, Percolator) whose code is left to the student.

    The store keeps its data in append-only logs [N.log], with an index from keys to
    byte ranges in memory. When more than a threshold of bytes is stale, the live
    commands are copied to a new log and the old logs are deleted. From project-4 on
    the index is shared by readers that take no lock, with one writer behind a mutex. The
    index is a [SkipMap], whose [insert] removes the entry of a key before it inserts the
    new one: a reader that looks in between finds none.

    ** The files

    - [Prelude]: outcomes ([Ok], error, panic, fuel), the state and error monad [M],
      machine integers, bytes, decimal numerals. [Conc]: programs as trees of atomic
      actions, run alone ([run]) or interleaved ([step], [exec]).
    - The disk and the log. [Fs]: files, handles, buffered readers and writers (the
      [BufReaderWithPos], [BufWriterWithPos], [log_path], [sorted_gen_list] of
      [engines/kvs.rs], and the part of [std::fs] they use). [Command]: [Command],
      [CommandPos], what a log means. [Json]: a codec that satisfies what the engines
      ask of [serde_json]. [LogTheory]: the logs of a directory as a whole.
    - [KvsEngine]: the error enums ([error.rs]), the [KvsEngine] trait
      ([engines/mod.rs]), and its contract: a class that says an engine is a map.
    - The store of project-2 and project-3. [KvStore] (model of [kv.rs] and
      [engines/kvs.rs]), [KvStoreSpec] (invariant and refinement), [KvCli]
      ([bin/kvs.rs]), [KvTheorems].
    - The store of project-4 and project-5. [ConcStore] (model), [ConcStoreSpec],
      [P5Store] (its jobs and the pool of readers of project-5), [ConcTheorems].
      Threads that share it: [ConcHist] (clients, and the history of a run, for any
      programs that they run themselves or hand to a pool of threads), [ConcRuns] (runs
      end), [ConcInv] (the invariant and the rules for programs that hold the lock),
      [ConcWriter] (the writer keeps to them), [ConcThread] (so does each operation),
      [ConcLin] (all clients together, the readers they own, and the order that the
      operations take effect in). Its two instances: [ClientTheorems] for project-4,
      whose clients have a reader each, with [ConcWindow] (what a [get] misses while [insert]
      replaces an entry); [P5Clients] and [P5ClientTheorems] for project-5,
      whose jobs take readers from a queue.
    - Servers, clients and programs. [Net], [Net5] ([server.rs], [client.rs],
      [common.rs]), [Codec] (a codec for any countable type), [NetSpec], [Sled]
      ([engines/sled.rs]), [Programs] ([bin/*.rs]), [ThreadPool] ([thread_pool/]),
      [ServiceTheorems]. The server of project-4 over the store that its connections
      share: [ConcServer] (a run accepts connections, and the threads of the pool run
      their jobs), [ConcServerSpec] (its runs are runs of clients of [ConcHist]),
      [ConcServerTheorems].
    - [Versions]: the code of project-1, and what project-4 and project-5 copy from
      the earlier projects.
    - The linearizability checker. [Bitset] and [Popcount] ([bitset.rs]), [Lin] (model
      of [lib.rs] and [model.rs]: entries, the linked list, the search, the threads),
      [LinHeap] (the list on its heap), [LinSearch] (the search), [LinSpec] (what
      linearizability is), [LinOps] (operations and events as entries), [LinCheck]
      (the threads), [KvModel] and [KvLocal] ([models.rs], and that the store is
      linearizable when each key is), [LinTheorems]. The logs it is tested on: [KvLog]
      ([parse_kv_log] and [check_kv] of [models.rs], and what is asked of [regex]),
      [KvLogSpec] (what a log says), [KvLogParts] (typing, and the events of each key),
      [KvLogTheorems].
    - The simulated network. [Rpc] (model of [labrpc]), [RpcSpec], [RpcTheorems]. Its
      tests: [LabTests] (the module [tests] of [labrpc/src/lib.rs], as programs of
      threads over the network), [LabTestsSpec] (one thread at a time, and the runs end),
      [LabPools] (what clients that call at the same time keep true), [LabPoolTests]
      (the tests with a pool of threads), [LabTestsTheorems].
    - The test configurations of the Raft labs, over that network. [Harness] (what they
      share), [Persister] ([raft/persister.rs]), [RaftConfig] and [RaftConfigSpec]
      ([raft/config.rs]), [RaftChecks] (its checks and waits), [HarnessTheorems];
      [KvConfig] and [KvConfigSpec] ([kvraft/config.rs]), [KvHarnessTheorems].

    A definition has the name of the function it models. A method that changes its object is a computation of [M]
    on its state; shared mutable objects (inodes, list nodes, [Arc]s) are names into a
    heap that is part of that state. An early return keeps the state reached so far,
    and [Panic] is a result like any other.

    ** What is proved

    - The stores refine a map: any sequence of opens, operations and drops answers as
      one map that is kept on disk
      ([sessions_refine], [clones_refine], [jobs_refine], [cli_runs_refine]);
      compaction keeps it and frees the stale bytes exactly; opening a directory
      always ends, whatever bytes are there; the space the logs take is bounded; a
      crash inside a compaction of project-4 is harmless, one in project-2 is not.
    - Threads that share a store of project-4 make linearizable histories, never panic or
      block each other for good, and end; a read fails only once a compaction has begun; an
      answer that there is no such key is left open ([known] of [ConcHist]) when an operation
      that may replace its entry was in progress at the same time, and only then can it be
      wrong; every other reply is exact; the checker below accepts what they did
      ([clients_linearizable], [clients_finish], [checker_accepts_store]). Left as they are,
      the histories need not be linearizable, in any store ([get_misses_key]). So do the jobs
      of project-5 on as many threads as there are readers; a [get] that fails to read
      costs a reader, and no job panics before that ([jobs_linearizable], [readers_kept], [jobs_finish]).
    - The servers and clients converse as with the map ([conversation],
      [server_refines], [server5_refines], [client_prints], [engine_is_sticky]). On the
      store of project-4, with connections served at the same time, what passes over all
      connections is a linearizable history of the map, and the server is never stuck
      ([server4_linearizable], [server4_finishes]).
    - The pools run each job once and lose no thread to a panic.
    - The checker is right: [check_operations] ends in every interleaving of its
      threads and answers true exactly for the linearizable histories; the kill flag
      makes it err on one side only; checking by key is checking the whole. Logs are
      read as they were written, whatever is read is well typed, and [check_kv] passes
      the right ones ([parse_kv_log_print], [parse_kv_log_types], [check_kv_correct]).
    - The network: a call answers what the method answers; a reply is never older than
      the death of its server; no call is lost; when requests are lost and how. Its tests
      pass in every interleaving of their threads and of the tasks of the network, and
      their runs end ([concurrent_many_passes], [concurrent_one_passes], [tests_pass],
      [runs_of_tests_end]). The loop of [server_dead] has no end of its own; its bound cuts
      nothing off ([server_dead_enough]).
    - The test configurations: after any starts, crashes, partitions and connections the
      network is the one that the test asked for, and requests go where they should
      ([raft_connectivity], [kv_config_refines], [kv_requests]); the checks of agreement
      and of leaders find what they look for ([one_agreement], [storage_agreement],
      [check_one_leader_finds], [check_terms_finds], [make_partition_minority]).
    - What is wrong in the code, as theorems: stale bytes that [remove] does not
      count, a removed key that comes back, a read that misses a key that is being set
      ([get_misses_key]), a read that fails during a compaction and
      a pool of readers that it drains ([failed_read_stops_reads]), a server that one connection stops, a timeout that does not
      bound the time, a check that never returns, one wrong name that breaks the network
      for good, a check of leaders that an election confuses, a torn copy of a persister, a
      pending read that is taken for one that found nothing.

    ** Bounds and fuel

    The loops that are not structural take fuel, and a run that used it up is
    [Diverge]. The theorems that say a computation gives [Ok] are therefore also about
    its termination: the fuel of [load] is the length of the file, since each turn
    reads at least one byte ([open_settles]); that of the search of the checker is
    bounded by the number of its configurations ([check_single_correct]). The loops of
    the Raft tests that wait for a time to pass take as fuel the number of turns that fit
    in that time: [one] tries for 10 s in turns of at least 50 ms (201), and waits up to
    2 s for an agreement in turns of 20 ms (101), which is enough ([one_agreement]). [u64] sums
    of generations panic on overflow as in a debug build, and a theorem that needs a sum
    to stay below 2^64 says so; the positions in a log and the count of stale bytes are not
    bounded, as they stay below what a disk holds; [fetch_add] wraps around.

    ** Not modelled

    - [serde_json], [sled], [prost], [rand], [rayon], [regex], [tokio], the executors of
      [futures] and the file system are parameters or are described by what the
      standard library documents.
    - The exercises of Raft, kvraft and Percolator, which are [unimplemented!()]; the node
      and the server that a student writes are parameters of the test configurations
      ([RaftNode], [KvNode]). [labcodec] only wraps [prost].
    - Of the tests of [labrpc], [test_unreliable], [test_regression1] and [test_killed]:
      whether they pass depends on chance or on how long things take. The other test
      suites, which run the stores and the labs on examples.
    - Argument parsing ([structopt]), logging, [Display] of errors, and the rayon pool,
      which only wraps its library.
    - Time: a delay is a point where other threads run. *)

From Stdlib Require Export Strings.Byte Strings.Ascii Strings.String.
From stdpp Require Export sorting numbers prelude gmap strings list.
From Stdlib Require Import Numbers.DecimalString Numbers.DecimalN.

#[global] Set Default Goal Selector "!".

(** ** Effects

    Rust code that returns [Result<T, E>] and may panic is an [outcome].
    [Diverge] is what a loop run with too little fuel returns: a theorem that
    an operation gives [Ok] therefore also says that its loops terminate. *)

Inductive outcome (E A : Type) : Type :=
| Ok (a : A)
| Err (e : E)
| Panic
| Diverge.
Arguments Ok {E A} a.
Arguments Err {E A} e.
Arguments Panic {E A}.
Arguments Diverge {E A}.

(** Stateful fallible code: explicit state passing. The state reached so far is
    kept on every early return, as in the source. *)
Definition M (E S A : Type) : Type := S → outcome E A * S.

#[export] Instance M_ret {E S} : MRet (M E S) := λ A a s, (Ok a, s).
#[export] Instance M_bind {E S} : MBind (M E S) := λ A B f m s,
  match m s with
  | (Ok a, s') => f a s'
  | (Err e, s') => (Err e, s')
  | (Panic, s') => (Panic, s')
  | (Diverge, s') => (Diverge, s')
  end.

Section effects.
Context {E S : Type}.

Definition throw {A} (e : E) : M E S A := λ s, (Err e, s).
Definition panic {A} : M E S A := λ s, (Panic, s).
Definition diverge {A} : M E S A := λ s, (Diverge, s).
Definition gets {A} (f : S → A) : M E S A := λ s, (Ok (f s), s).
Definition modify (f : S → S) : M E S unit := λ s, (Ok tt, f s).

(** [Option::expect], [Option::unwrap]. *)
Definition expect {A} (o : option A) : M E S A :=
  match o with Some a => mret a | None => panic end.
End effects.

(** Code that only touches one component of the state. *)
Definition on_fst {E S T A} (m : M E S A) : M E (S * T) A :=
  λ st, match m st.1 with (o, s') => (o, (s', st.2)) end.
Definition on_snd {E S T A} (m : M E T A) : M E (S * T) A :=
  λ st, match m st.2 with (o, t') => (o, (st.1, t')) end.

(** The [From] conversions that the [?] operator applies to an error. *)
Class From (E' E : Type) := from : E' → E.

Definition question {E' E S A} `{!From E' E} (m : M E' S A) : M E S A := λ s,
  match m s with
  | (Ok a, s') => (Ok a, s')
  | (Err e, s') => (Err (from e), s')
  | (Panic, s') => (Panic, s')
  | (Diverge, s') => (Diverge, s')
  end.

Section effect_lemmas.
Context {E S : Type}.

Lemma bind_ok {A B} (m : M E S A) (f : A → M E S B) s a s' :
  m s = (Ok a, s') → (m ≫= f) s = f a s'.
Proof. intros H. unfold mbind, M_bind. by rewrite H. Qed.

Lemma bind_assoc {A B D} (m : M E S A) (f : A → M E S B) (g : B → M E S D) s :
  ((m ≫= f) ≫= g) s = (m ≫= λ a, f a ≫= g) s.
Proof. unfold mbind, M_bind. by destruct (m s) as [[] ?]. Qed.

Lemma bind_err {A B} (m : M E S A) (f : A → M E S B) s e s' :
  m s = (Err e, s') → (m ≫= f) s = (Err e, s').
Proof. intros H. unfold mbind, M_bind. by rewrite H. Qed.

Lemma on_snd_ok {T A} (m : M E T A) (s : S) t o t' :
  m t = (o, t') → on_snd m (s, t) = (o, (s, t')).
Proof. intros H. unfold on_snd; simpl. by rewrite H. Qed.

Lemma on_fst_ok {T A} (m : M E S A) s (t : T) o s' :
  m s = (o, s') → on_fst m (s, t) = (o, (s', t)).
Proof. intros H. unfold on_fst; simpl. by rewrite H. Qed.
End effect_lemmas.

Lemma question_ok {E' E S A} `{!From E' E} (m : M E' S A) s a s' :
  m s = (Ok a, s') → question (E:=E) m s = (Ok a, s').
Proof. intros H. unfold question. by rewrite H. Qed.

(** A loop over a list. *)
Fixpoint for_each {E S A} (f : A → M E S unit) (l : list A) : M E S unit :=
  match l with
  | [] => mret tt
  | a :: l' => f a;; for_each f l'
  end.

Lemma for_each_fmap {E S A B} (f : B → M E S unit) (g : A → B) (l : list A) s : for_each f (g <$> l) s = for_each (λ a, f (g a)) l s.
Proof.
  revert s. induction l as [|a l IH]; intros s; [done|]. simpl. unfold mbind, M_bind.
  by destruct (f (g a) s) as [[[]| | |] s']; rewrite ?IH.
Qed.

Lemma for_each_inv {E S A} (P : S → Prop) (f : A → M E S unit) (l : list A) s s' :
  (∀ a s s', P s → f a s = (Ok tt, s') → P s') → P s → for_each f l s = (Ok tt, s') → P s'.
Proof.
  intros Hf. revert s. induction l as [|a l IH]; intros s Hs; simpl; [by intros [= <-]|].
  unfold mbind, M_bind. destruct (f a s) as [[[]| | |] s1] eqn:Ha; try done. by eapply IH, Hf.
Qed.

(** A computation that returns, with a value or an error: no panic, no loop. *)
Definition settled {E A} (o : outcome E A) : bool :=
  match o with Ok _ | Err _ => true | Panic | Diverge => false end.

Lemma settled_bind {E S A B} (m : M E S A) (f : A → M E S B) s :
  settled (m s).1 = true → (∀ a s', m s = (Ok a, s') → settled (f a s').1 = true) →
  settled ((m ≫= f) s).1 = true.
Proof. unfold mbind, M_bind. destruct (m s) as [[] ?]; simpl; naive_solver. Qed.

Lemma settled_question {E' E S A} `{!From E' E} (m : M E' S A) s :
  settled (m s).1 = true → settled (question (E:=E) m s).1 = true.
Proof. unfold question. by destruct (m s) as [[] ?]. Qed.

(** [mstep] runs the first action of a monadic program whose result is given by
    a hypothesis or a lemma; [mpure] runs the actions that cannot fail. *)
Tactic Notation "mstep" uconstr(H) := erewrite bind_ok; [|eapply H].
Ltac mpure :=
  repeat first [rewrite bind_assoc | erewrite bind_ok; [|reflexivity]]; cbn beta iota zeta; cbn [fst snd].

(** ** Machine integers *)

Definition U64_MAX : N := 2 ^ 64 - 1.

(** [a + b] on [u64] with the overflow check of a debug build. *)
Definition u64_add {E S} (a b : N) : M E S N :=
  if (a + b <=? U64_MAX)%N then mret (a + b)%N else panic.

Lemma u64_add_ok {E S} a b (s : S) :
  (a + b <= U64_MAX)%N → u64_add (E:=E) a b s = (Ok (a + b)%N, s).
Proof. intros H. unfold u64_add. by rewrite (proj2 (N.leb_le _ _) H). Qed.

(** ** Bytes *)

Abbreviation bytes := (list byte).

#[export] Instance byte_eq_dec : EqDecision byte := Byte.byte_eq_dec.
#[export] Instance byte_countable : Countable byte := inj_countable Byte.to_N Byte.of_N Byte.of_to_N.

(** The number of bytes of a buffer, at the width the source uses ([u64]). *)
Definition blen (b : bytes) : N := N.of_nat (length b).

(** The bytes [pos .. pos + len] of a buffer, shorter at the end of it. *)
Definition slice (b : bytes) (pos len : N) : bytes :=
  take (N.to_nat len) (drop (N.to_nat pos) b).

Lemma blen_app a b : blen (a ++ b) = (blen a + blen b)%N.
Proof. unfold blen. rewrite length_app. lia. Qed.

Lemma blen_nil : blen [] = 0%N.
Proof. done. Qed.

Lemma slice_app_here a b c : slice (a ++ b ++ c) (blen a) (blen b) = b.
Proof.
  unfold slice, blen. rewrite !Nat2N.id, drop_app_length, take_app_length.
  done.
Qed.

Lemma slice_app_l a b pos len :
  (pos + len <= blen a)%N → slice (a ++ b) pos len = slice a pos len.
Proof.
  unfold slice, blen. intros H.
  rewrite drop_app_le by lia. rewrite take_app_le; [done|].
  rewrite length_drop. lia.
Qed.

Lemma blen_slice a pos len :
  (pos + len <= blen a)%N → blen (slice a pos len) = len.
Proof.
  unfold slice, blen. intros H. rewrite length_take, length_drop. lia.
Qed.

(** ** Sums *)

Definition Nsum {A} (f : A → N) (l : list A) : N := foldr (λ x acc, (f x + acc)%N) 0%N l.

#[export] Instance Nsum_Permutation {A} (f : A → N) : Proper ((≡ₚ) ==> (=)) (Nsum f).
Proof. intros l l' H. induction H; simpl; try lia; congruence. Qed.

Lemma Nsum_ext {A} (f g : A → N) l : (∀ x, x ∈ l → f x = g x) → Nsum f l = Nsum g l.
Proof.
  induction l as [|x l IH]; intros H; simpl; [done|].
  rewrite (H x), IH; [done| |]; [intros y Hy; apply H|]; by constructor.
Qed.

Lemma Nsum_fmap {A B} (f : B → N) (g : A → B) l : Nsum f (g <$> l) = Nsum (λ x, f (g x)) l.
Proof. induction l as [|x l IH]; [done|]; cbn; f_equal; exact IH. Qed.

Lemma Nsum_app {A} (f : A → N) l l' : Nsum f (l ++ l') = (Nsum f l + Nsum f l')%N.
Proof. induction l as [|x l IH]; simpl; [done|]. rewrite IH. lia. Qed.

Lemma filter_all {A} (P : A → Prop) `{!∀ x, Decision (P x)} (l : list A) : (∀ x, x ∈ l → P x) → filter P l = l.
Proof.
  induction l as [|x l IH]; intros Hl; [done|]. rewrite filter_cons_True, IH; [done|..].
  - intros y Hy. apply Hl. by constructor.
  - apply Hl. by constructor.
Qed.

Lemma size_ids (l : list nat) : size (list_to_set l : gset nat) ≤ length l.
Proof.
  induction l as [|x l IH]; [rewrite list_to_set_nil, size_empty; cbn; lia|].
  rewrite list_to_set_cons, size_union_alt, size_singleton. cbn [length].
  assert (size (list_to_set l ∖ {[x]} : gset nat) ≤ size (list_to_set l : gset nat)); [|lia].
  apply subseteq_size. set_solver.
Qed.

Lemma elem_of_map_keys `{Countable K} {A} (m : gmap K A) k :
  k ∈ (map_to_list m).*1 ↔ is_Some (m !! k).
Proof.
  rewrite list_elem_of_fmap. split.
  - intros ([k' x] & -> & Hx%elem_of_map_to_list). eauto.
  - intros [x Hx]. exists (k, x). by rewrite elem_of_map_to_list.
Qed.

(** ** Lists of which one element changes *)

(** One element of a list gets smaller. *)
Definition one_less {A} (R : A → A → Prop) (l' l : list A) : Prop := ∃ i x x', l !! i = Some x ∧ R x' x ∧ l' = <[i := x']> l.

Lemma one_less_cons {A} (R : A → A → Prop) x l : Acc R x → Acc (one_less R) l → Acc (one_less R) (x :: l).
Proof.
  intros Hx. revert l. induction Hx as [x _ IHx]. intros l Hl. induction Hl as [l Hl IHl].
  constructor. intros l' ([|i] & y & y' & Hi & Hr & ->); simplify_eq/=; [by apply IHx; [|constructor]|].
  apply IHl. by exists i, y, y'.
Qed.

Lemma one_less_wf {A} (R : A → A → Prop) : (∀ x, Acc R x) → ∀ l, Acc (one_less R) l.
Proof.
  intros HR l. induction l as [|x l IH]; [|by apply one_less_cons].
  constructor. by intros l' (i & x & x' & Hi & _).
Qed.

Section insert.
Context {A B C : Type}.

Lemma length_filter_insert (P : A → Prop) `{!∀ x, Decision (P x)} (l : list A) i x y : l !! i = Some x →
  length (filter P (<[i := y]> l)) + (if decide (P x) then 1 else 0) = length (filter P l) + (if decide (P y) then 1 else 0).
Proof.
  intros Hi. rewrite <-(take_drop_middle l i x Hi) at 2. rewrite insert_take_drop by (by eapply lookup_lt_Some).
  rewrite !filter_app, !filter_cons, !length_app. repeat case_decide; cbn; lia.
Qed.

Lemma omap_insert_Permutation (f : A → option B) (l : list A) i x : l !! i = Some x →
  ∃ rest, omap f l ≡ₚ option_list (f x) ++ rest ∧ ∀ y, omap f (<[i := y]> l) ≡ₚ option_list (f y) ++ rest.
Proof.
  intros Hi. exists (omap f (take i l) ++ omap f (drop (S i) l)).
  assert (∀ y, omap f (take i l ++ y :: drop (S i) l) ≡ₚ option_list (f y) ++ omap f (take i l) ++ omap f (drop (S i) l)) as H.
  { intros y. rewrite omap_app. cbn. destruct (f y); cbn; [|done]. by rewrite Permutation_middle. }
  split; [rewrite <-(take_drop_middle l i x Hi) at 1; apply H|].
  intros y. rewrite insert_take_drop by (by eapply lookup_lt_Some). apply H.
Qed.

(** Two elements do not map to one. *)
Lemma omap_NoDup_ne (f : A → option B) (l : list A) i j x y b : NoDup (omap f l) → l !! i = Some x → l !! j = Some y → i ≠ j →
  f x = Some b → f y ≠ Some b.
Proof.
  revert i j. induction l as [|z l IH]; intros i j Hd Hi Hj Hne Hx Hy; [done|]. cbn in Hd.
  assert (∀ k w, l !! k = Some w → f w = Some b → b ∈ omap f l) as Hin.
  { intros k w Hk Hw. apply list_elem_of_omap. exists w. split; [by eapply list_elem_of_lookup_2|done]. }
  destruct i as [|i], j as [|j]; simplify_eq/=.
  - rewrite Hx in Hd. apply NoDup_cons in Hd as [Hn _]. by apply Hn, (Hin j y).
  - rewrite Hy in Hd. apply NoDup_cons in Hd as [Hn _]. by apply Hn, (Hin i x).
  - apply (IH i j); try done; [|congruence]. destruct (f z); [by apply NoDup_cons in Hd as [_ ?]|done].
Qed.

(** If each element of [l] that maps to something stands over one of [l'] that has [P]. *)
Lemma omap_filter_length (f : A → option B) (P : C → Prop) `{!∀ x, Decision (P x)} (l : list A) (l' : list C) :
  length l = length l' → (∀ j x y, l !! j = Some x → l' !! j = Some y → is_Some (f x) → P y) →
  length (omap f l) ≤ length (filter P l') ∧
  ∀ i x y, l !! i = Some x → l' !! i = Some y → f x = None → P y → length (omap f l) < length (filter P l').
Proof.
  revert l'. induction l as [|x l IH]; intros [|y l'] Hl Hall; try done.
  destruct (IH l') as [Hle Hlt]; [by injection Hl|intros j; by apply (Hall (S j))|].
  pose proof (Hall 0 x y eq_refl eq_refl) as H0. rewrite filter_cons. cbn [omap list_omap]. split.
  - destruct (f x); [rewrite decide_True by eauto; cbn; lia|]. case_decide; cbn; lia.
  - intros [|i] x' y' Hx Hy Hf HP; simplify_eq/=.
    + rewrite Hf, decide_True by done. cbn. lia.
    + specialize (Hlt i x' y' Hx Hy Hf HP). destruct (f x); [rewrite decide_True by eauto; cbn; lia|]. case_decide; cbn; lia.
Qed.
End insert.

(** ** Texts *)

Lemma string_app_cons c s t : String c s +:+ t = String c (s +:+ t).
Proof. done. Qed.

(** ** Decimal numerals in file names *)

Definition fmt_u64 (n : N) : string := NilZero.string_of_uint (N.to_uint n).

(** [str::parse::<u64>]: an optional [+], at least one digit, no overflow. *)
Definition parse_u64 (s : string) : option N :=
  let digits := match s with
                | String "+"%char rest => rest
                | _ => s
                end in
  match NilZero.uint_of_string digits with
  | Some d => let n := N.of_uint d in if (n <=? U64_MAX)%N then Some n else None
  | None => None
  end.

Definition is_digit (c : Ascii.ascii) : bool :=
  (48 <=? nat_of_ascii c)%nat && (nat_of_ascii c <=? 57)%nat.

Fixpoint all_digits (s : string) : bool :=
  match s with
  | EmptyString => true
  | String c s' => is_digit c && all_digits s'
  end.

Lemma all_digits_uint d : all_digits (NilEmpty.string_of_uint d) = true.
Proof. induction d; simpl; by rewrite ?IHd. Qed.

Lemma N_to_uint_nonnil n : N.to_uint n ≠ Decimal.Nil.
Proof.
  intros H. pose proof (Unsigned.to_of (N.to_uint n)) as Hu.
  rewrite Unsigned.of_to, H in Hu. done.
Qed.

Lemma fmt_u64_digits n : all_digits (fmt_u64 n) = true.
Proof.
  unfold fmt_u64, NilZero.string_of_uint.
  destruct (N.to_uint n) eqn:E; try (rewrite <-E; apply all_digits_uint).
  done.
Qed.

Lemma fmt_u64_nonempty n : fmt_u64 n ≠ "".
Proof.
  unfold fmt_u64, NilZero.string_of_uint. by destruct (N.to_uint n).
Qed.

Lemma parse_fmt_u64 n : (n <= U64_MAX)%N → parse_u64 (fmt_u64 n) = Some n.
Proof.
  intros Hn. unfold parse_u64.
  assert (match fmt_u64 n with
          | String "+"%char rest => rest
          | _ => fmt_u64 n
          end = fmt_u64 n) as ->.
  { pose proof (fmt_u64_digits n) as Hd.
    destruct (fmt_u64 n) as [|c s]; [done|].
    by destruct c as [[] [] [] [] [] [] [] []]. }
  unfold fmt_u64. rewrite NilZero.usu by apply N_to_uint_nonnil.
  rewrite Unsigned.of_to. by rewrite (proj2 (N.leb_le _ _) Hn).
Qed.

Lemma fmt_u64_inj n m : fmt_u64 n = fmt_u64 m → n = m.
Proof.
  unfold fmt_u64. intros H. apply (f_equal NilZero.uint_of_string) in H.
  rewrite !NilZero.usu in H by apply N_to_uint_nonnil.
  simplify_eq. rewrite <-(Unsigned.of_to n), <-(Unsigned.of_to m). by f_equal.
Qed.

Lemma parse_u64_bound s n : parse_u64 s = Some n → (n <= U64_MAX)%N.
Proof.
  unfold parse_u64. destruct (NilZero.uint_of_string _) as [u|]; [|done].
  destruct (N.leb_spec (N.of_uint u) U64_MAX); intros ?; by simplify_eq.
Qed.

(** ** Sums *)

Lemma sum_list_le m (ks : list nat) : Forall (λ k, k ≤ m) ks → sum_list ks ≤ length ks * m.
Proof. induction 1; simpl; lia. Qed.

Lemma sum_list_insert (ks : list nat) i k k' : ks !! i = Some k → sum_list (<[i := k']> ks) + k = sum_list ks + k'.
Proof.
  revert i. induction ks as [|x ks IH]; intros [|i] Hi; simplify_eq/=; [lia|]. specialize (IH _ Hi). lia.
Qed.
