(* ===== verification/Fs.v ===== *)
(** * The directory of a store

    The part of the standard library the log engines use to reach the disk
    ([std::fs], [BufReader], [BufWriter]) and the helpers the engines define on
    top of it: [BufReaderWithPos], [BufWriterWithPos], [log_path],
    [sorted_gen_list].

    A store keeps all its files in one directory, so a path is a file name.
    Names refer to inodes: a handle that was opened keeps reading its inode
    after the name was removed, as on Unix. *)

From S2P Require Import Prelude.

(** ** Inodes and directory entries *)

Inductive Dirent := FileEnt (ino : nat) | DirEnt.

Record Disk := mkDisk {
  dir : gmap string Dirent;
  inodes : gmap nat bytes;
  next_ino : nat;
}.

Inductive IoError := NotFound | IsADirectory | BrokenPipe.

Definition empty_disk : Disk := mkDisk ∅ ∅ 0.

(** [File::open]. *)
Definition File_open (name : string) : M IoError Disk nat := λ d,
  match dir d !! name with
  | Some (FileEnt ino) => (Ok ino, d)
  | Some DirEnt => (Err IsADirectory, d)
  | None => (Err NotFound, d)
  end.

(** [OpenOptions::new().create(true).write(true).append(true).open]. *)
Definition open_append (name : string) : M IoError Disk nat := λ d,
  match dir d !! name with
  | Some (FileEnt ino) => (Ok ino, d)
  | Some DirEnt => (Err IsADirectory, d)
  | None =>
      let ino := next_ino d in
      (Ok ino, mkDisk (<[name := FileEnt ino]> (dir d)) (<[ino := []]> (inodes d)) (S ino))
  end.

(** [fs::remove_file]: the name goes, the inode stays for open handles. *)
Definition remove_file (name : string) : M IoError Disk unit := λ d,
  match dir d !! name with
  | Some (FileEnt _) => (Ok tt, mkDisk (delete name (dir d)) (inodes d) (next_ino d))
  | Some DirEnt => (Err IsADirectory, d)
  | None => (Err NotFound, d)
  end.

(** A write on a handle opened for appending. *)
Definition append (ino : nat) (data : bytes) (d : Disk) : Disk :=
  mkDisk (dir d) (alter (λ c, c ++ data) ino (inodes d)) (next_ino d).

Definition content (d : Disk) (ino : nat) : bytes := default [] (inodes d !! ino).

(** ** Names of log files *)

Definition log_path (gen : N) : string := fmt_u64 gen +:+ ".log".

(** [Path::extension]: the part after the last dot of a file name, unless the
    name starts with that dot. *)
Fixpoint rsplit_dot (s : string) : option (string * string) :=
  match s with
  | EmptyString => None
  | String c s' =>
      match rsplit_dot s' with
      | Some (before, after) => Some (String c before, after)
      | None => if Ascii.eqb c "."%char then Some (EmptyString, s') else None
      end
  end.

Definition extension (name : string) : option string :=
  match rsplit_dot name with
  | Some (EmptyString, _) => None
  | Some (_, after) => Some after
  | None => None
  end.

Fixpoint strip_suffix (suf s : string) : option string :=
  if String.eqb s suf then Some EmptyString
  else match s with
       | EmptyString => None
       | String c s' => String c <$> strip_suffix suf s'
       end.

(** [str::trim_end_matches]: the suffix is removed as often as it is there. *)
Fixpoint trim_end_fuel (n : nat) (suf s : string) : string :=
  match n with
  | O => s
  | S n' => match strip_suffix suf s with
            | Some s' => trim_end_fuel n' suf s'
            | None => s
            end
  end.

Definition trim_end_matches (suf s : string) : string :=
  trim_end_fuel (String.length s) suf s.

(** The generation number a directory entry stands for, if any: the [filter]
    and [flat_map] of [sorted_gen_list]. *)
Definition gen_of_entry (e : string * Dirent) : option N :=
  match e with
  | (name, FileEnt _) =>
      if decide (extension name = Some "log")
      then parse_u64 (trim_end_matches ".log" name)
      else None
  | (_, DirEnt) => None
  end.

Arguments gen_of_entry : simpl never.

Definition sorted_gen_list (d : Disk) : list N :=
  merge_sort N.le (omap gen_of_entry (map_to_list (dir d))).

(** ** Readers and writers that know their position *)

Record BufReaderWithPos := mkReader { rd_ino : nat; rd_pos : N }.

(** [BufReaderWithPos::new] on a file just opened: the position is 0. *)
Definition BufReaderWithPos_new (ino : nat) : BufReaderWithPos := mkReader ino 0.

(** [seek(SeekFrom::Start(pos))]. *)
Definition reader_seek (r : BufReaderWithPos) (pos : N) : BufReaderWithPos :=
  mkReader (rd_ino r) pos.

(** Reads to the end of [reader.take(len)]. [BufReader] is transparent: log files
    only grow, so what it has buffered is what the file holds. *)
Definition reader_take (r : BufReaderWithPos) (len : N) (d : Disk) :
    bytes * BufReaderWithPos :=
  let data := slice (content d (rd_ino r)) (rd_pos r) len in
  (data, mkReader (rd_ino r) (rd_pos r + blen data)).

Record BufWriterWithPos := mkWriter { wr_ino : nat; wr_buf : bytes; wr_pos : N }.

(** [BufWriterWithPos::new] on a file just opened for appending: the position a
    fresh handle reports is 0, whatever the file holds. *)
Definition BufWriterWithPos_new (ino : nat) : BufWriterWithPos := mkWriter ino [] 0.

Definition writer_write (w : BufWriterWithPos) (data : bytes) : BufWriterWithPos :=
  mkWriter (wr_ino w) (wr_buf w ++ data) (wr_pos w + blen data).

(** [BufWriter] keeps what it is given until its buffer is full, and then writes part of
    it through: how many of the bytes it holds is its own business. *)
Class BufWriterPolicy := spilled : bytes → nat.

Definition writer_spill `{!BufWriterPolicy} (w : BufWriterWithPos) (d : Disk) : BufWriterWithPos * Disk :=
  let n := spilled (wr_buf w) in
  (mkWriter (wr_ino w) (drop n (wr_buf w)) (wr_pos w), append (wr_ino w) (take n (wr_buf w)) d).

Definition writer_flush (w : BufWriterWithPos) (d : Disk) : BufWriterWithPos * Disk :=
  (mkWriter (wr_ino w) [] (wr_pos w), append (wr_ino w) (wr_buf w) d).

(** ** Log names and generation numbers *)

Lemma rsplit_dot_log s :
  rsplit_dot (s +:+ ".log") = Some (s, "log").
Proof. induction s as [|c s IH]; [done|]. rewrite string_app_cons. simpl. by rewrite IH. Qed.

Lemma extension_log_path g : extension (log_path g) = Some "log".
Proof.
  unfold extension, log_path. rewrite rsplit_dot_log.
  pose proof (fmt_u64_nonempty g). by destruct (fmt_u64 g).
Qed.

Lemma string_length_app a b :
  String.length (a +:+ b) = (String.length a + String.length b)%nat.
Proof. induction a as [|c a IH]; [done|]. rewrite string_app_cons. simpl. by rewrite IH. Qed.

Lemma strip_suffix_app suf s : strip_suffix suf (s +:+ suf) = Some s.
Proof.
  induction s as [|c s IH]; rewrite ?string_app_cons.
  - destruct suf; simpl; by rewrite ?Ascii.eqb_refl, ?String.eqb_refl.
  - cbn [strip_suffix]. destruct (String.eqb_spec (String c (s +:+ suf)) suf) as [E|_].
    { apply (f_equal String.length) in E. simpl in E.
      rewrite string_length_app in E. lia. }
    by rewrite IH.
Qed.

Lemma strip_suffix_digits s : all_digits s = true → strip_suffix ".log" s = None.
Proof.
  induction s as [|c s IH]; [done|]. cbn [all_digits strip_suffix].
  intros [Hc Hs]%andb_prop.
  destruct (String.eqb_spec (String c s) ".log") as [E|_]; [by simplify_eq|].
  by rewrite IH.
Qed.

Lemma trim_log_path g : trim_end_matches ".log" (log_path g) = fmt_u64 g.
Proof.
  unfold trim_end_matches, log_path. rewrite string_length_app.
  destruct (String.length (fmt_u64 g) + String.length ".log")%nat as [|[|n]] eqn:E;
    [simpl in E; lia..|].
  cbn [trim_end_fuel]. rewrite strip_suffix_app.
  by rewrite strip_suffix_digits by apply fmt_u64_digits.
Qed.

Lemma gen_of_log_path g i :
  (g <= U64_MAX)%N → gen_of_entry (log_path g, FileEnt i) = Some g.
Proof.
  intros Hg. unfold gen_of_entry. rewrite extension_log_path, trim_log_path, parse_fmt_u64 by done.
  done.
Qed.

Lemma string_app_inj_r a b c : a +:+ c = b +:+ c → a = b.
Proof.
  intros H. pose proof (strip_suffix_app c a) as Ha.
  rewrite H, strip_suffix_app in Ha. by simplify_eq.
Qed.

Lemma log_path_inj g g' : log_path g = log_path g' → g = g'.
Proof. intros H. by apply fmt_u64_inj, (string_app_inj_r _ _ ".log"). Qed.

(** ** Well-formed directories and the log files they hold *)

Record fs_wf (d : Disk) : Prop := {
  (* a file entry names an allocated inode *)
  wf_inode : ∀ name i, dir d !! name = Some (FileEnt i) → is_Some (inodes d !! i);
  (* inodes at or above [next_ino] are free *)
  wf_next : ∀ i, is_Some (inodes d !! i) → i < next_ino d;
  (* there are no hard links *)
  wf_inj : ∀ n1 n2 i, dir d !! n1 = Some (FileEnt i) →
    dir d !! n2 = Some (FileEnt i) → n1 = n2;
  (* a file that counts as a log has the canonical name of its generation *)
  wf_canonical : ∀ name i g, dir d !! name = Some (FileEnt i) →
    gen_of_entry (name, FileEnt i) = Some g → name = log_path g;
  (* no directory has the name of a log *)
  wf_nodir : ∀ g, dir d !! log_path g ≠ Some DirEnt;
}.

(** The content of the log file of a generation. *)
Definition file (d : Disk) (g : N) : option bytes :=
  match dir d !! log_path g with
  | Some (FileEnt i) => inodes d !! i
  | _ => None
  end.

(** [L] is the map from generation numbers to the contents of the log files. *)
Record log_view (d : Disk) (L : gmap N bytes) : Prop := {
  lv_file : ∀ g, (g <= U64_MAX)%N → file d g = L !! g;
  lv_bound : ∀ g, is_Some (L !! g) → (g <= U64_MAX)%N;
}.

(** The generations of [L] in ascending order. *)
Definition gens {A} (L : gmap N A) : list N := merge_sort N.le (elements (dom L)).

Lemma elem_of_gens {A} (L : gmap N A) g : g ∈ gens L ↔ is_Some (L !! g).
Proof. unfold gens. by rewrite merge_sort_Permutation, elem_of_elements, elem_of_dom. Qed.

Lemma NoDup_gens {A} (L : gmap N A) : NoDup (gens L).
Proof. unfold gens. rewrite merge_sort_Permutation. apply NoDup_elements. Qed.

Lemma sorted_gens {A} (L : gmap N A) : StronglySorted N.le (gens L).
Proof. apply StronglySorted_merge_sort; [apply _|]. intros x y. lia. Qed.

(** An ascending list without duplicates with the elements of [L] is [gens L]. *)
Lemma gens_unique {A} (L : gmap N A) l :
  NoDup l → StronglySorted N.le l → (∀ g, g ∈ l ↔ is_Some (L !! g)) → l = gens L.
Proof.
  intros Hnd Hs Hin. apply (StronglySorted_unique N.le); [done|apply sorted_gens|].
  apply NoDup_Permutation; [done|apply NoDup_gens|].
  intros g. by rewrite Hin, elem_of_gens.
Qed.

Section view.
Context (d : Disk) (L : gmap N bytes) (Hwf : fs_wf d) (Hlv : log_view d L).

Lemma lv_lookup g c : L !! g = Some c →
  ∃ i, dir d !! log_path g = Some (FileEnt i) ∧ inodes d !! i = Some c.
Proof.
  intros Hg. pose proof (lv_file _ _ Hlv g (lv_bound _ _ Hlv g (mk_is_Some _ _ Hg))) as Hf.
  rewrite Hg in Hf. unfold file in Hf.
  destruct (dir d !! log_path g) as [[i|]|]; simplify_eq; eauto.
Qed.

Lemma lv_absent g : (g <= U64_MAX)%N → L !! g = None → dir d !! log_path g = None.
Proof.
  intros Hb Hg. pose proof (lv_file _ _ Hlv g Hb) as Hf. rewrite Hg in Hf.
  unfold file in Hf. destruct (dir d !! log_path g) as [[i|]|] eqn:E; [|by apply wf_nodir in E|done].
  by destruct (wf_inode _ Hwf _ _ E) as [c Hc]; simplify_eq.
Qed.

Lemma elem_of_gen_entries g :
  g ∈ omap gen_of_entry (map_to_list (dir d)) ↔ is_Some (L !! g).
Proof.
  rewrite list_elem_of_omap. split.
  - intros ([name [i|]] & Hin & Hg); [|done]. apply elem_of_map_to_list in Hin.
    pose proof (wf_canonical _ Hwf _ _ _ Hin Hg) as ->.
    assert (g <= U64_MAX)%N as Hb.
    { unfold gen_of_entry in Hg. rewrite extension_log_path, decide_True in Hg by done.
      by eapply parse_u64_bound. }
    rewrite <-(lv_file _ _ Hlv g Hb). unfold file. rewrite Hin. by eapply wf_inode.
  - intros [c Hc]. destruct (lv_lookup _ _ Hc) as (i & Hi & _).
    exists (log_path g, FileEnt i). split; [by apply elem_of_map_to_list|].
    apply gen_of_log_path, (lv_bound _ _ Hlv). eauto.
Qed.

Lemma NoDup_gen_entries : NoDup (omap gen_of_entry (map_to_list (dir d))).
Proof.
  assert (∀ e, e ∈ map_to_list (dir d) → dir d !! e.1 = Some e.2) as Hin.
  { intros [n e] H. by apply elem_of_map_to_list. }
  pose proof (NoDup_map_to_list (dir d)) as Hnd. revert Hin Hnd.
  induction (map_to_list (dir d)) as [|[n e] l IH]; intros Hin Hnd; [constructor|].
  simpl.
  apply NoDup_cons in Hnd as [Hn Hnd].
  assert (NoDup (omap gen_of_entry l)) as IH' by (apply IH; [|done]; intros ??; apply Hin; by constructor).
  destruct (gen_of_entry (n, e)) as [g|] eqn:Hg; [|done].
  apply NoDup_cons. split; [|done]. intros ([n' e'] & Hl & Hg')%list_elem_of_omap.
  destruct e as [i|], e' as [i'|]; try done. apply Hn.
  pose proof (Hin (n, FileEnt i) ltac:(set_solver)) as Hd1.
  pose proof (Hin (n', FileEnt i') ltac:(set_solver)) as Hd2. simpl in Hd1, Hd2.
  assert (n = n') as <-.
  { by rewrite (wf_canonical _ Hwf _ _ _ Hd1 Hg), (wf_canonical _ Hwf _ _ _ Hd2 Hg'). }
  by simplify_eq.
Qed.

(** [sorted_gen_list] lists the generations of the log files, ascending. *)
Lemma sorted_gen_list_view : sorted_gen_list d = gens L.
Proof.
  apply gens_unique; unfold sorted_gen_list.
  - rewrite merge_sort_Permutation. apply NoDup_gen_entries.
  - apply StronglySorted_merge_sort; [apply _|]. intros x y. lia.
  - intros g. rewrite merge_sort_Permutation. apply elem_of_gen_entries.
Qed.
End view.

(** ** What the primitives do to the log files *)

(** [h] is the inode of the log file of generation [g]. *)
Abbreviation names d g h := (dir d !! log_path g = Some (FileEnt h)).

Section primitives.
Context (d : Disk) (L : gmap N bytes) (Hwf : fs_wf d) (Hlv : log_view d L).

Lemma content_names g h c : names d g h → L !! g = Some c → content d h = c.
Proof.
  intros Hh Hg. destruct (lv_lookup d L Hlv g c Hg) as (i & Hi & Hc).
  simplify_eq. unfold content. by rewrite Hc.
Qed.

Lemma File_open_log g c : L !! g = Some c →
  ∃ h, File_open (log_path g) d = (Ok h, d) ∧ names d g h.
Proof.
  intros Hg. destruct (lv_lookup d L Hlv g c Hg) as (i & Hi & Hc).
  exists i. unfold File_open. by rewrite Hi.
Qed.

(** Creating the log of a new generation. *)
Lemma open_append_new g : (g <= U64_MAX)%N → L !! g = None →
  ∃ d', open_append (log_path g) d = (Ok (next_ino d), d')
    ∧ fs_wf d' ∧ log_view d' (<[g := []]> L) ∧ names d' g (next_ino d)
    ∧ (∀ g' h, names d g' h → names d' g' h)
    ∧ (∀ h, is_Some (inodes d !! h) → content d' h = content d h).
Proof.
  intros Hb Hg. pose proof (lv_absent d L Hwf Hlv g Hb Hg) as Hn.
  assert (inodes d !! next_ino d = None) as Hfree.
  { destruct (inodes d !! next_ino d) eqn:E; [|done].
    pose proof (wf_next _ Hwf (next_ino d) ltac:(eauto)). lia. }
  unfold open_append. rewrite Hn. eexists. split; [done|].
  assert (∀ h, is_Some (inodes d !! h) → h ≠ next_ino d) as Hne.
  { intros h [? ?] ->. congruence. }
  split_and!.
  - split; simpl.
    + intros name i. rewrite lookup_insert. case_decide; intros.
      { simplify_eq. rewrite lookup_insert_eq. eauto. }
      rewrite lookup_insert_ne by (intros <-; eapply Hne; [by eapply wf_inode|done]).
      by eapply wf_inode.
    + intros i. rewrite lookup_insert. case_decide; intros Hi; [lia|].
      pose proof (wf_next _ Hwf i Hi). lia.
    + intros n1 n2 i. rewrite !lookup_insert.
      repeat case_decide; intros; simplify_eq; try done;
        [by destruct (Hne (next_ino d)); [eapply wf_inode|]..|by eapply wf_inj].
    + intros name i g'. rewrite lookup_insert. case_decide; intros Hi Hg'.
      { simplify_eq. f_equal. rewrite gen_of_log_path in Hg' by done. by simplify_eq. }
      by eapply wf_canonical.
    + intros g'. rewrite lookup_insert. case_decide; [done|]. by apply wf_nodir.
  - split.
    + intros g' Hb'. unfold file; simpl. destruct (decide (g = g')) as [->|Hgg].
      { by rewrite !lookup_insert_eq. }
      rewrite lookup_insert_ne by (intros ?%log_path_inj; done).
      rewrite (lookup_insert_ne L) by done. rewrite <-(lv_file _ _ Hlv g' Hb').
      unfold file. destruct (dir d !! log_path g') as [[i|]|] eqn:E; [|done..].
      rewrite lookup_insert_ne; [done|].
      intros <-. eapply Hne; [by eapply wf_inode|done].
    + intros g'. rewrite lookup_insert. case_decide; intros; [by subst|].
      by apply (lv_bound _ _ Hlv).
  - simpl. by rewrite lookup_insert_eq.
  - intros g' h Hh. simpl. rewrite lookup_insert_ne; [done|].
    intros ?%log_path_inj; congruence.
  - intros h Hh. unfold content; simpl. rewrite lookup_insert_ne; [done|].
    intros <-. by eapply Hne.
Qed.

(** Appending to the log of a generation. *)
Lemma append_log g h c data : names d g h → L !! g = Some c →
  fs_wf (append h data d) ∧ log_view (append h data d) (<[g := c ++ data]> L).
Proof.
  intros Hh Hg. destruct (lv_lookup d L Hlv g c Hg) as (i & Hi & Hc). simplify_eq.
  split; [split|split]; unfold append; simpl.
  - intros name i' Hi'. rewrite lookup_alter. case_decide.
    + subst. rewrite Hc. by eexists.
    + by eapply wf_inode.
  - intros i'. rewrite lookup_alter. case_decide; intros Hi'.
    + subst. apply (wf_next _ Hwf). eauto.
    + by apply (wf_next _ Hwf).
  - apply (wf_inj _ Hwf).
  - apply (wf_canonical _ Hwf).
  - apply (wf_nodir _ Hwf).
  - intros g' Hb'. unfold file; simpl. rewrite lookup_insert. case_decide.
    + subst. rewrite Hh, lookup_alter_eq, Hc. done.
    + rewrite <-(lv_file _ _ Hlv g' Hb'). unfold file.
      destruct (dir d !! log_path g') as [[i'|]|] eqn:E; [|done..].
      rewrite lookup_alter_ne; [done|]. intros <-.
      by eapply H, log_path_inj, (wf_inj _ Hwf).
  - intros g'. rewrite lookup_insert. case_decide; intros.
    + subst. apply (lv_bound _ _ Hlv). eauto.
    + by apply (lv_bound _ _ Hlv).
Qed.

Lemma append_nil h : append h [] d = d.
Proof.
  unfold append. destruct d as [dr ins n]; simpl. f_equal.
  apply map_eq. intros i. rewrite lookup_alter. case_decide; [|done]. subst.
  destruct (ins !! i) eqn:E; simpl; by rewrite ?app_nil_r.
Qed.

(** Removing the log of a generation. *)
Lemma remove_file_log g c : L !! g = Some c →
  ∃ d', remove_file (log_path g) d = (Ok tt, d')
    ∧ fs_wf d' ∧ log_view d' (delete g L)
    ∧ (∀ g' h, g ≠ g' → names d g' h → names d' g' h)
    ∧ inodes d' = inodes d.
Proof.
  intros Hg. destruct (lv_lookup d L Hlv g c Hg) as (i & Hi & Hc).
  unfold remove_file. rewrite Hi. eexists. split; [done|]. split_and!.
  - split; simpl.
    + intros name i' [_ Hn]%lookup_delete_Some. by eapply wf_inode.
    + apply (wf_next _ Hwf).
    + intros n1 n2 i' [_ H1]%lookup_delete_Some [_ H2]%lookup_delete_Some.
      by eapply wf_inj.
    + intros name i' g' [_ Hn]%lookup_delete_Some. by eapply wf_canonical.
    + intros g' [_ Hn]%lookup_delete_Some. by eapply wf_nodir.
  - split.
    + intros g' Hb. unfold file; simpl. destruct (decide (g = g')) as [->|Hne].
      { by rewrite !lookup_delete_eq. }
      rewrite lookup_delete_ne by (intros ?%log_path_inj; done).
      rewrite (lookup_delete_ne L) by done. by apply lv_file.
    + intros g' [? [_ Hg']%lookup_delete_Some]. apply (lv_bound _ _ Hlv). eauto.
  - intros g' h Hne Hh. simpl. rewrite lookup_delete_ne; [done|].
    intros ?%log_path_inj; done.
  - done.
Qed.
End primitives.

Lemma names_append d g h i data : names (append i data d) g h ↔ names d g h.
Proof. done. Qed.

Lemma empty_disk_wf : fs_wf empty_disk.
Proof.
  split; unfold empty_disk; simpl; intros *; rewrite ?lookup_empty; try done; by intros [? ?].
Qed.

Lemma empty_disk_view : log_view empty_disk ∅.
Proof.
  split; intros g; rewrite lookup_empty; [done|]. by intros [? ?].
Qed.
