(* ===== verification/Command.v ===== *)
(** * Commands, their positions in the log, and the meaning of a log

    The [Command] and [CommandPos] types every log engine shares, the interface
    of [serde_json] the engines rely on, and the specification of a log: the map
    it stands for when it is replayed. *)

From S2P Require Import Prelude.

(** ** Data *)

Inductive Command :=
| Command_Set (key value : string)
| Command_Remove (key : string).

Definition Command_set (key value : string) : Command := Command_Set key value.
Definition Command_remove (key : string) : Command := Command_Remove key.

Record CommandPos := mkPos { gen : N; pos : N; len : N }.

(** [From<(u64, Range<u64>)> for CommandPos]. *)
Definition CommandPos_from (gen : N) (start end_ : N) : CommandPos :=
  mkPos gen start (end_ - start).

(** ** The serialization library

    [serde_json] is a dependency, not code of the repository: the engines take
    it as a parameter. [stream_next] is one [next] of the stream deserializer
    on the bytes that are left, with the number of bytes it consumed. *)

Definition SerdeError := string.

Class SerdeJson (A : Type) := {
  to_writer : A → bytes;
  from_reader : bytes → A + SerdeError;
  stream_next : bytes → option (A * N + SerdeError);
}.

(** What the engines rely on: a value that was written is read back, a stream of
    values is read one value at a time, and a value read consumes bytes. *)
Class SerdeLaws (A : Type) `{!SerdeJson A} : Prop := {
  from_to : ∀ a, from_reader (to_writer a) = inl a;
  next_nil : stream_next [] = None;
  next_app : ∀ a rest,
    stream_next (to_writer a ++ rest) = Some (inl (a, blen (to_writer a)));
  next_progress : ∀ b a n, stream_next b = Some (inl (a, n)) → (0 < n <= blen b)%N;
}.

(** A value cut short is an error of the stream, not its end. *)
Class SerdeTorn (A : Type) `{!SerdeJson A} : Prop := {
  next_torn : ∀ a b b', to_writer a = b ++ b' → b ≠ [] → b' ≠ [] →
    ∃ e, stream_next b = Some (inr e);
}.

(** A value cut short cannot be read. *)
Class SerdeCut (A : Type) `{!SerdeJson A} : Prop := {
  from_cut : ∀ a b b', to_writer a = b ++ b' → b' ≠ [] → ∃ e, from_reader b = inr e;
}.

(** ** The meaning of a log *)

Abbreviation kvmap := (gmap string string).

Definition apply_cmd (m : kvmap) (c : Command) : kvmap :=
  match c with
  | Command_Set k v => <[k := v]> m
  | Command_Remove k => delete k m
  end.

Definition replay (m : kvmap) (cs : list Command) : kvmap := foldl apply_cmd m cs.

Definition cmd_key (c : Command) : string :=
  match c with Command_Set k _ | Command_Remove k => k end.

Section log.
Context `{!SerdeJson Command}.

Definition encode_log (cs : list Command) : bytes := mjoin (to_writer <$> cs).

Lemma encode_log_app cs cs' : encode_log (cs ++ cs') = encode_log cs ++ encode_log cs'.
Proof. unfold encode_log. by rewrite fmap_app, join_app. Qed.

Lemma encode_log_one c : encode_log [c] = to_writer c.
Proof. unfold encode_log. simpl. by rewrite app_nil_r. Qed.

(** The index entry [p] locates the command that set [k] to [v]. *)
Definition entry_ok (L : gmap N bytes) (k : string) (p : CommandPos) (v : string) : Prop :=
  ∃ c, L !! gen p = Some c ∧ (pos p + len p <= blen c)%N
       ∧ slice c (pos p) (len p) = to_writer (Command_Set k v).

(** The index holds exactly the keys of the map, each at a valid position. *)
Definition index_ok (L : gmap N bytes) (idx : gmap string CommandPos) (m : kvmap) : Prop :=
  map_Forall2 (entry_ok L) idx m.

Lemma index_ok_lookup L idx m k p :
  index_ok L idx m → idx !! k = Some p → ∃ v, m !! k = Some v ∧ entry_ok L k p v.
Proof.
  intros H Hk. specialize (H k). rewrite Hk in H.
  inversion H; subst; eauto.
Qed.

Lemma index_ok_None L idx m k : index_ok L idx m → (idx !! k = None ↔ m !! k = None).
Proof.
  intros H. specialize (H k). split; intros E; rewrite E in H; by inversion H.
Qed.

Lemma index_ok_dom L idx m k : index_ok L idx m → (is_Some (idx !! k) ↔ is_Some (m !! k)).
Proof. intros H. rewrite <-!not_eq_None_Some. by rewrite (index_ok_None _ _ _ _ H). Qed.

Lemma index_ok_insert L idx m k p v :
  index_ok L idx m → entry_ok L k p v → index_ok L (<[k := p]> idx) (<[k := v]> m).
Proof.
  intros H He k'. rewrite !lookup_insert. case_decide; [|apply H].
  subst. by constructor.
Qed.

Lemma index_ok_delete L idx m k :
  index_ok L idx m → index_ok L (delete k idx) (delete k m).
Proof.
  intros H k'. rewrite !lookup_delete. case_decide; [constructor|apply H].
Qed.

(** An index stays valid when the files it points into keep their prefix. *)
Lemma index_ok_mono L L' idx m :
  index_ok L idx m →
  (∀ k p c, idx !! k = Some p → L !! gen p = Some c → ∃ c', L' !! gen p = Some (c ++ c')) →
  index_ok L' idx m.
Proof.
  intros H Hext k. specialize (H k). destruct (idx !! k) as [p|] eqn:E; [|by inversion H; constructor].
  inversion H as [? v Hv|]; subst. constructor.
  destruct Hv as (c & Hc & Hb & Hs). destruct (Hext _ _ _ E Hc) as [c' Hc'].
  exists (c ++ c'). rewrite blen_app. split_and!; [done|lia|].
  by rewrite slice_app_l.
Qed.

(** The bytes an index keeps alive. *)
Definition live (idx : gmap string CommandPos) : N :=
  map_fold (λ _ p acc, (len p + acc)%N) 0%N idx.

Lemma live_empty : live ∅ = 0%N.
Proof. apply map_fold_empty. Qed.

Lemma live_insert idx k p :
  live (<[k := p]> idx) = (len p + live (delete k idx))%N.
Proof.
  unfold live. rewrite <-insert_delete_eq, map_fold_insert_L; [done|lia|].
  apply lookup_delete_eq.
Qed.

Lemma live_delete idx k p : idx !! k = Some p →
  live idx = (len p + live (delete k idx))%N.
Proof. intros H. by rewrite <-live_insert, insert_id. Qed.

Lemma live_delete_None idx k : idx !! k = None → live (delete k idx) = live idx.
Proof. intros H. by rewrite delete_id. Qed.
End log.
