(* ===== verification/Json.v ===== *)
(** * A concrete codec for commands

    [serde_json] is a parameter of the engines. This instance writes a command
    the way [serde_json] lays out the [Command] enum (externally tagged, no
    white space, quotes and backslashes escaped) and shows that what the engines
    rely on can hold: the witnesses of the development run on it. *)

From S2P Require Import Prelude Command.

Definition lit (s : string) : bytes := list_byte_of_string s.

Definition quote : byte := x22.
Definition backslash : byte := x5c.

Definition esc_byte (b : byte) : bytes :=
  if decide (b = quote ∨ b = backslash) then [backslash; b] else [b].

Definition esc (s : bytes) : bytes := s ≫= esc_byte.

(** Reads an escaped string up to its closing quote. *)
Fixpoint unesc (b : bytes) : option (bytes * bytes) :=
  match b with
  | [] => None
  | c :: rest =>
      if decide (c = quote) then Some ([], rest)
      else if decide (c = backslash)
           then match rest with
                | [] => None
                | c' :: rest' => prod_map (cons c') id <$> unesc rest'
                end
           else prod_map (cons c) id <$> unesc rest
  end.

(** Strips the literal [l] from the front of [b]. *)
Fixpoint strip (l b : bytes) : option bytes :=
  match l, b with
  | [], _ => Some b
  | x :: l', y :: b' => if decide (x = y) then strip l' b' else None
  | _, [] => None
  end.

Definition set_open : bytes := [x7b; x22; x53; x65; x74; x22; x3a; x7b; x22; x6b; x65; x79; x22; x3a; x22].
Definition rm_open : bytes :=
  [x7b; x22; x52; x65; x6d; x6f; x76; x65; x22; x3a; x7b; x22; x6b; x65; x79; x22; x3a; x22].
Definition value_sep : bytes := [x2c; x22; x76; x61; x6c; x75; x65; x22; x3a; x22].
Definition close : bytes := [x7d; x7d].

Definition json_write (c : Command) : bytes :=
  match c with
  | Command_Set k v =>
      set_open ++ esc (lit k) ++ quote :: value_sep ++ esc (lit v) ++ quote :: close
  | Command_Remove k => rm_open ++ esc (lit k) ++ quote :: close
  end.

Definition json_parse (b : bytes) : option (Command * bytes) :=
  match strip set_open b with
  | Some b1 =>
      '(k, b2) ← unesc b1; b3 ← strip value_sep b2; '(v, b4) ← unesc b3;
      b5 ← strip close b4;
      Some (Command_Set (string_of_list_byte k) (string_of_list_byte v), b5)
  | None =>
      b1 ← strip rm_open b; '(k, b2) ← unesc b1; b3 ← strip close b2;
      Some (Command_Remove (string_of_list_byte k), b3)
  end.

#[export] Instance json_command : SerdeJson Command := {
  to_writer := json_write;
  from_reader b := match json_parse b with
                   | Some (c, []) => inl c
                   | _ => inr "invalid command"
                   end;
  stream_next b := match b with
                   | [] => None
                   | _ => match json_parse b with
                          | Some (c, rest) => Some (inl (c, blen b - blen rest)%N)
                          | None => Some (inr "invalid command")
                          end
                   end;
}.

(** ** It satisfies what the engines rely on *)

Lemma strip_app l b : strip l (l ++ b) = Some b.
Proof. induction l as [|x l IH]; [by destruct b|]. simpl. by rewrite decide_True. Qed.

Lemma strip_length l b b' : strip l b = Some b' → length b = (length l + length b')%nat.
Proof.
  revert b. induction l as [|x l IH]; intros b H; [by simplify_eq/=|].
  destruct b as [|y b]; [done|]. simpl in *. case_decide; [|done]. by rewrite (IH b).
Qed.

Lemma strip_mono l b b' q : strip l b = Some b' → strip l (b ++ q) = Some (b' ++ q).
Proof.
  revert b. induction l as [|x l IH]; intros b H; [simpl in *; by simplify_eq|].
  destruct b as [|y b]; [done|]. simpl in *. case_decide; [|done]. by apply IH.
Qed.

Lemma esc_cons b s : esc (b :: s) = esc_byte b ++ esc s.
Proof. done. Qed.

Lemma unesc_esc s rest : unesc (esc s ++ quote :: rest) = Some (s, rest).
Proof.
  induction s as [|b s IH]; [done|]. rewrite esc_cons, <-app_assoc.
  unfold esc_byte. case_decide as Hb; cbn [app unesc].
  - rewrite decide_False, decide_True by done. by rewrite IH.
  - rewrite !decide_False by naive_solver. by rewrite IH.
Qed.

(** Well-founded on the length: an escape takes two bytes. *)
Lemma unesc_ind (P : bytes → Prop) :
  P [] → (∀ c rest, P rest → (∀ c' rest', rest = c' :: rest' → P rest') → P (c :: rest)) →
  ∀ b, P b.
Proof.
  intros H0 HS b. enough (P b ∧ ∀ c' b', b = c' :: b' → P b') as [? _] by done.
  induction b as [|c b [IH IH']]; [done|]. split; [by apply HS|].
  intros c' b' ?. by simplify_eq.
Qed.

Lemma unesc_length b s rest : unesc b = Some (s, rest) → length rest < length b.
Proof.
  revert s. induction b as [|c b IH IH'] using unesc_ind; intros s; simpl; [done|].
  repeat case_decide; intros Hu.
  - simplify_eq. lia.
  - destruct b as [|c' b]; [done|]. apply fmap_Some in Hu as ([s' r] & Hu & ?). simplify_eq/=.
    pose proof (IH' c' b eq_refl _ Hu). lia.
  - apply fmap_Some in Hu as ([s' r] & Hu & ?). simplify_eq/=. apply IH in Hu. lia.
Qed.

Lemma unesc_mono b s rest q : unesc b = Some (s, rest) → unesc (b ++ q) = Some (s, rest ++ q).
Proof.
  revert s. induction b as [|c b IH IH'] using unesc_ind; intros s; simpl; [done|].
  repeat case_decide; intros Hu.
  - by simplify_eq.
  - destruct b as [|c' b]; [done|]. apply fmap_Some in Hu as ([s' r] & Hu & ?). simplify_eq/=.
    by rewrite (IH' c' b eq_refl _ Hu).
  - apply fmap_Some in Hu as ([s' r] & Hu & ?). simplify_eq/=. by rewrite (IH _ Hu).
Qed.

Lemma lit_string s : string_of_list_byte (lit s) = s.
Proof. apply string_of_list_byte_of_string. Qed.

Lemma json_parse_write c rest : json_parse (json_write c ++ rest) = Some (c, rest).
Proof.
  unfold json_parse. destruct c as [k v|k]; cbn [json_write].
  - rewrite <-!app_assoc, strip_app. rewrite <-app_comm_cons, unesc_esc. cbn [mbind option_bind].
    rewrite <-!app_assoc, strip_app. cbn [mbind option_bind].
    rewrite <-app_comm_cons, unesc_esc. cbn [mbind option_bind].
    rewrite strip_app. simpl. by rewrite !lit_string.
  - rewrite <-!app_assoc. assert (∀ b, strip set_open (rm_open ++ b) = None) as -> by done.
    rewrite strip_app. cbn [mbind option_bind]. rewrite <-app_comm_cons, unesc_esc.
    cbn [mbind option_bind]. rewrite strip_app. simpl. by rewrite lit_string.
Qed.

#[local] Ltac obind := cbn [mbind option_bind].

(** Parsing consumes bytes. *)
Lemma json_parse_length b c rest : json_parse b = Some (c, rest) → length rest < length b.
Proof.
  unfold json_parse. destruct (strip set_open b) as [b1|] eqn:E1.
  - apply strip_length in E1.
    destruct (unesc b1) as [[k b2]|] eqn:E2; obind; [|done]. apply unesc_length in E2. obind.
    destruct (strip value_sep b2) as [b3|] eqn:E3; obind; [|done]. apply strip_length in E3. obind.
    destruct (unesc b3) as [[v b4]|] eqn:E4; obind; [|done]. apply unesc_length in E4. obind.
    destruct (strip close b4) as [b5|] eqn:E5; obind; [|done]. apply strip_length in E5. obind.
    intros. simplify_eq/=. lia.
  - destruct (strip rm_open b) as [b1|] eqn:E1'; obind; [|done]. apply strip_length in E1'. obind.
    destruct (unesc b1) as [[k b2]|] eqn:E2; obind; [|done]. apply unesc_length in E2. obind.
    destruct (strip close b2) as [b3|] eqn:E3; obind; [|done]. apply strip_length in E3. obind.
    intros. simplify_eq/=. lia.
Qed.

Lemma strip_inv l b b' : strip l b = Some b' → b = l ++ b'.
Proof.
  revert b. induction l as [|x l IH]; intros b H; [simpl in *; by simplify_eq|].
  destruct b as [|y b]; [done|]. simpl in *. case_decide; [|done]. subst. f_equal. by apply IH.
Qed.

(** What was parsed stays parsed when more bytes follow. *)
Lemma json_parse_mono b c rest q :
  json_parse b = Some (c, rest) → json_parse (b ++ q) = Some (c, rest ++ q).
Proof.
  unfold json_parse. destruct (strip set_open b) as [b1|] eqn:E1.
  - rewrite (strip_mono _ _ _ q E1).
    destruct (unesc b1) as [[k b2]|] eqn:E2; obind; [|done]. rewrite (unesc_mono _ _ _ q E2). obind.
    destruct (strip value_sep b2) as [b3|] eqn:E3; obind; [|done]. rewrite (strip_mono _ _ _ q E3). obind.
    destruct (unesc b3) as [[v b4]|] eqn:E4; obind; [|done]. rewrite (unesc_mono _ _ _ q E4). obind.
    destruct (strip close b4) as [b5|] eqn:E5; obind; [|done]. rewrite (strip_mono _ _ _ q E5). obind.
    intros. by simplify_eq.
  - destruct (strip rm_open b) as [b1|] eqn:E1'; obind; [|done].
    rewrite (strip_mono _ _ _ q E1'). apply strip_inv in E1' as ->.
    rewrite <-app_assoc. assert (∀ b, strip set_open (rm_open ++ b) = None) as -> by done. obind.
    destruct (unesc b1) as [[k b2]|] eqn:E2; obind; [|done]. rewrite (unesc_mono _ _ _ q E2). obind.
    destruct (strip close b2) as [b3|] eqn:E3; obind; [|done]. rewrite (strip_mono _ _ _ q E3). obind.
    intros. by simplify_eq.
Qed.

Lemma json_write_nonnil c : json_write c ≠ [].
Proof. by destruct c. Qed.

Lemma json_stream_next b : b ≠ [] →
  stream_next b = match json_parse b with
                  | Some (c, rest) => Some (inl (c, blen b - blen rest)%N)
                  | None => Some (inr "invalid command")
                  end.
Proof. by destruct b. Qed.

#[export] Instance json_command_laws : SerdeLaws Command.
Proof.
  split.
  - intros c. simpl. rewrite <-(app_nil_r (json_write c)), json_parse_write. done.
  - done.
  - intros c rest. rewrite json_stream_next.
    + cbn [to_writer json_command]. rewrite json_parse_write, blen_app. do 4 f_equal. lia.
    + intros [H _]%app_nil. by apply (json_write_nonnil c).
  - intros b c n H. destruct (decide (b = [])) as [->|Hb]; [done|].
    rewrite json_stream_next in H by done.
    destruct (json_parse b) as [[c' rest]|] eqn:Hp; [|done]. simplify_eq.
    apply json_parse_length in Hp. unfold blen. lia.
Qed.

#[export] Instance json_command_torn : SerdeTorn Command.
Proof.
  split. intros c b b' Hw Hb Hb'. exists "invalid command". rewrite json_stream_next by done.
  destruct (json_parse b) as [[c' rest]|] eqn:Hp; [|done].
  apply (json_parse_mono _ _ _ b') in Hp. cbn [to_writer json_command] in Hw.
  pose proof (json_parse_write c []) as Hc. rewrite app_nil_r, Hw, Hp in Hc.
  injection Hc as _ [_ ?]%app_nil. done.
Qed.

#[export] Instance json_command_cut : SerdeCut Command.
Proof.
  split. intros c b b' Hw Hb'. exists "invalid command". cbn [from_reader json_command].
  destruct (json_parse b) as [[c' [|x rest]]|] eqn:Hp; try done.
  apply (json_parse_mono _ _ _ b') in Hp. cbn [to_writer json_command] in Hw.
  pose proof (json_parse_write c []) as Hc. rewrite app_nil_r, Hw, Hp in Hc.
  injection Hc as _ ?. done.
Qed.
