(* ===== verification/KvsEngine.v ===== *)
(** * Errors, the [KvsEngine] trait and its contract

    The error enums of the projects, the trait every storage engine implements,
    and the abstract specification an engine promises to its clients: it behaves
    as a map from strings to strings. *)

From S2P Require Import Prelude Fs Command.

(** ** Errors *)

(** [failure::Fail] messages carry the message of their cause; the causes that
    come from other crates are kept as the text they display. *)
Module Project2.
Inductive KvsError :=
| Io (e : IoError)
| Serde (e : SerdeError)
| KeyNotFound
| UnexpectedCommandType.

#[global] Instance KvsError_from_io : From IoError KvsError := Io.
#[global] Instance KvsError_from_serde : From SerdeError KvsError := Serde.
End Project2.

Inductive KvsError :=
| Io (e : IoError)
| Serde (e : SerdeError)
| KeyNotFound
| UnexpectedCommandType
| Utf8 (e : string)
| Sled (e : string)
| StringError (msg : string).

#[export] Instance KvsError_from_io : From IoError KvsError := Io.
#[export] Instance KvsError_from_serde : From SerdeError KvsError := Serde.

(** What the log engine needs of an error type. The code of project-2 and of
    project-3 is the same up to the error enum in scope. *)
Class StoreError (E : Type) := {
  store_from_io :: From IoError E;
  store_from_serde :: From SerdeError E;
  key_not_found : E;
  unexpected_command_type : E;
}.

#[export] Instance Project2_store_error : StoreError Project2.KvsError := {
  key_not_found := Project2.KeyNotFound;
  unexpected_command_type := Project2.UnexpectedCommandType;
}.
#[export] Instance KvsError_store_error : StoreError KvsError := {
  key_not_found := KeyNotFound;
  unexpected_command_type := UnexpectedCommandType;
}.

(** ** The trait *)

Class KvsEngine (E S : Type) := {
  set : string → string → M E S unit;
  get : string → M E S (option string);
  remove : string → M E S unit;
}.

(** ** Its contract

    [engine_rep n s m]: the engine state [s] stands for the map [m], and [n] more
    writes fit before the engine runs out of generation numbers. *)
Class KvsEngineSpec (E S : Type) `{!KvsEngine E S} := {
  engine_rep : nat → S → kvmap → Prop;
  engine_key_not_found : E;
  engine_rep_weaken : ∀ n s m, engine_rep (Datatypes.S n) s m → engine_rep n s m;
  engine_set : ∀ n s m k v, engine_rep (Datatypes.S n) s m →
    ∃ s', set k v s = (Ok tt, s') ∧ engine_rep n s' (<[k := v]> m);
  engine_get : ∀ n s m k, engine_rep n s m →
    ∃ s', get k s = (Ok (m !! k), s') ∧ engine_rep n s' m;
  engine_remove : ∀ n s m k v, engine_rep (Datatypes.S n) s m → m !! k = Some v →
    ∃ s', remove k s = (Ok tt, s') ∧ engine_rep n s' (delete k m);
  engine_remove_missing : ∀ n s m k, engine_rep n s m → m !! k = None →
    ∃ s', remove k s = (Err engine_key_not_found, s') ∧ engine_rep n s' m;
}.

(** ** Runs of an engine *)

Inductive Op :=
| OpSet (key value : string)
| OpGet (key : string)
| OpRemove (key : string).

Inductive Reply (E : Type) :=
| RDone
| RValue (v : option string)
| RError (e : E).
Arguments RDone {E}.
Arguments RValue {E} v.
Arguments RError {E} e.

(** The map and the reply the contract asks for. *)
Definition spec_op {E} (knf : E) (m : kvmap) (o : Op) : Reply E * kvmap :=
  match o with
  | OpSet k v => (RDone, <[k := v]> m)
  | OpGet k => (RValue (m !! k), m)
  | OpRemove k => match m !! k with
                  | Some _ => (RDone, delete k m)
                  | None => (RError knf, m)
                  end
  end.

Fixpoint spec_run {E} (knf : E) (m : kvmap) (os : list Op) : list (Reply E) * kvmap :=
  match os with
  | [] => ([], m)
  | o :: os' => let '(r, m') := spec_op knf m o in
                let '(rs, m'') := spec_run knf m' os' in (r :: rs, m'')
  end.

Section runs.
Context {E S : Type} `{!KvsEngine E S}.

Definition engine_op (o : Op) : M E S (Reply E) := λ s,
  let reply {A} (f : A → Reply E) (r : outcome E A * S) : outcome E (Reply E) * S :=
    match r with
    | (Ok a, s') => (Ok (f a), s')
    | (Err e, s') => (Ok (RError e), s')
    | (Panic, s') => (Panic, s')
    | (Diverge, s') => (Diverge, s')
    end in
  match o with
  | OpSet k v => reply (λ _, RDone) (set k v s)
  | OpGet k => reply RValue (get k s)
  | OpRemove k => reply (λ _, RDone) (remove k s)
  end.

Fixpoint engine_run (os : list Op) : M E S (list (Reply E)) :=
  match os with
  | [] => mret []
  | o :: os' => r ← engine_op o; rs ← engine_run os'; mret (r :: rs)
  end.

Context `{!KvsEngineSpec E S}.

Lemma engine_op_refines n s m o : engine_rep (Datatypes.S n) s m →
  ∃ s', engine_op o s = (Ok (spec_op engine_key_not_found m o).1, s')
        ∧ engine_rep n s' (spec_op engine_key_not_found m o).2.
Proof.
  intros Hr. destruct o as [k v|k|k]; unfold engine_op; simpl.
  - destruct (engine_set n s m k v Hr) as (s' & -> & Hr'). eauto.
  - destruct (engine_get _ s m k (engine_rep_weaken _ _ _ Hr)) as (s' & -> & Hr'). eauto.
  - destruct (m !! k) as [v|] eqn:Hk.
    + destruct (engine_remove n s m k v Hr Hk) as (s' & -> & Hr'). eauto.
    + destruct (engine_remove_missing _ s m k (engine_rep_weaken _ _ _ Hr) Hk)
        as (s' & -> & Hr'). eauto.
Qed.

Lemma engine_run_refines os n s m : engine_rep (length os + n) s m →
  ∃ s', engine_run os s = (Ok (spec_run engine_key_not_found m os).1, s')
        ∧ engine_rep n s' (spec_run engine_key_not_found m os).2.
Proof.
  revert s m. induction os as [|o os IH]; intros s m Hr; simpl; [eauto|].
  destruct (engine_op_refines _ _ _ o Hr) as (s1 & H1 & Hr1).
  destruct (spec_op engine_key_not_found m o) as [r m1] eqn:E1.
  destruct (IH _ _ Hr1) as (s2 & H2 & Hr2).
  rewrite (bind_ok _ _ _ _ _ H1), (bind_ok _ _ _ _ _ H2). simpl in *.
  destruct (spec_run engine_key_not_found m1 os) as [rs m2]. eauto.
Qed.
End runs.
