(* ===== verification/LogTheory.v ===== *)
(** * The logs of a directory as a whole

    [C] maps each generation to the commands of its log file. What the directory
    means is the replay of all commands, generation by generation. *)

From S2P Require Import Prelude Fs Command.

(** ** Generations *)

Section gens.
Context {A : Type}.
Implicit Types C : gmap N A.

Lemma gens_dom {B} C (C' : gmap N B) : dom C = dom C' → gens C = gens C'.
Proof. unfold gens. by intros ->. Qed.

Lemma gens_fmap {B} (f : A → B) C : gens (f <$> C) = gens C.
Proof. symmetry. apply gens_dom. by rewrite dom_fmap_L. Qed.

Lemma gens_insert_same C g x : is_Some (C !! g) → gens (<[g := x]> C) = gens C.
Proof.
  intros H. apply gens_dom. rewrite dom_insert_L. apply elem_of_dom in H. set_solver.
Qed.

Lemma StronglySorted_filter {B} (R : relation B) (P : B → Prop) `{!∀ x, Decision (P x)} l :
  StronglySorted R l → StronglySorted R (filter P l).
Proof.
  induction 1 as [|x l Hs IH Hall]; [constructor|]. rewrite filter_cons. case_decide; [|done].
  constructor; [done|]. rewrite Forall_forall in Hall |- *. intros y [_ Hy]%list_elem_of_filter. auto.
Qed.

Lemma StronglySorted_snoc (l : list N) g :
  StronglySorted N.le l → (∀ g', g' ∈ l → (g' < g)%N) → StronglySorted N.le (l ++ [g]).
Proof.
  intros Hs Hlt. induction Hs as [|x l Hs IH Hx]; simpl.
  - repeat constructor.
  - constructor; [apply IH; set_solver|].
    apply Forall_app. split; [done|]. constructor; [|done].
    assert (x < g)%N by (apply Hlt; set_solver). lia.
Qed.

(** A new generation above all others comes last. *)
Lemma gens_snoc C g x : (∀ g', is_Some (C !! g') → (g' < g)%N) →
  gens (<[g := x]> C) = gens C ++ [g].
Proof.
  intros Hlt. symmetry. apply gens_unique.
  - apply NoDup_app. split_and!; [apply NoDup_gens| |apply NoDup_singleton].
    intros g' Hg' ->%list_elem_of_singleton. apply elem_of_gens, Hlt in Hg'. lia.
  - apply StronglySorted_snoc; [apply sorted_gens|]. intros g' Hg'.
    by apply Hlt, elem_of_gens.
  - intros g'. rewrite elem_of_app, elem_of_gens, list_elem_of_singleton, lookup_insert.
    case_decide; naive_solver.
Qed.

Lemma gens_max C g x : C !! g = Some x → (∀ g', is_Some (C !! g') → (g' <= g)%N) →
  gens C = gens (delete g C) ++ [g].
Proof.
  intros Hg Hle. rewrite <-(insert_id C g x) at 1 by done.
  rewrite <-insert_delete_eq. apply gens_snoc.
  intros g' [? [Hne Hg']%lookup_delete_Some].
  pose proof (Hle g' (mk_is_Some _ _ Hg')). lia.
Qed.

(** The last generation of the list is above all others. *)
Lemma gens_last_max C g : last (gens C) = Some g →
  is_Some (C !! g) ∧ ∀ g', is_Some (C !! g') → (g' <= g)%N.
Proof.
  intros Hl. split; [by apply elem_of_gens, last_Some_elem_of|].
  intros g' Hg'%elem_of_gens. pose proof (sorted_gens C) as Hs.
  apply last_Some in Hl as [l El]. rewrite El in Hs, Hg'. clear El.
  apply elem_of_app in Hg' as [Hg'| ->%list_elem_of_singleton]; [|lia].
  induction l as [|x l IH]; [by apply elem_of_nil in Hg'|].
  simpl in Hs. apply StronglySorted_cons in Hs as [Hx Hs].
  apply elem_of_cons in Hg' as [->|Hg']; [|by apply IH].
  rewrite Forall_forall in Hx. apply Hx. set_solver.
Qed.

(** Induction from the oldest generation to the newest. *)
Lemma gens_ind (P : gmap N A → Prop) :
  P ∅ →
  (∀ C g x, C !! g = Some x → (∀ g', is_Some (C !! g') → (g' <= g)%N) →
    P (delete g C) → P C) →
  ∀ C, P C.
Proof.
  intros H0 HS C. remember (size C) as n eqn:En. revert C En.
  induction n as [|n IH]; intros C En.
  { by rewrite (map_size_empty_inv C) by done. }
  destruct (last (gens C)) as [g|] eqn:El.
  - destruct (gens_last_max C g El) as [[x Hx] Hmax]. apply (HS C g x Hx Hmax).
    apply IH. rewrite map_size_delete, Hx. lia.
  - apply last_None in El. assert (C = ∅) as ->.
    { apply map_empty. intros g. apply eq_None_not_Some. rewrite <-elem_of_gens, El.
      apply not_elem_of_nil. }
    by rewrite map_size_empty in En.
Qed.

Lemma gens_empty : gens (∅ : gmap N A) = [].
Proof. unfold gens. by rewrite dom_empty_L, elements_empty. Qed.
End gens.

(** ** All commands of a directory *)

Definition log_of (C : gmap N (list Command)) (g : N) : list Command := default [] (C !! g).
Definition all_cmds (C : gmap N (list Command)) : list Command := gens C ≫= log_of C.

(** The map a directory stands for. *)
Definition meaning (C : gmap N (list Command)) : kvmap := replay ∅ (all_cmds C).

Lemma replay_app m cs cs' : replay m (cs ++ cs') = replay (replay m cs) cs'.
Proof. apply foldl_app. Qed.

Section all_cmds.
Implicit Types C : gmap N (list Command).

Lemma log_of_bind_ext C C' l : (∀ g, g ∈ l → C !! g = C' !! g) →
  l ≫= log_of C = l ≫= log_of C'.
Proof.
  induction l as [|g l IH]; intros H; [done|]. simpl. unfold log_of at 1 3.
  rewrite H by set_solver. f_equal. apply IH. set_solver.
Qed.

(** Everything but the newest generation is a prefix of the commands. *)
Lemma all_cmds_last C g cs : C !! g = Some cs →
  (∀ g', is_Some (C !! g') → (g' <= g)%N) →
  all_cmds C = all_cmds (delete g C) ++ cs.
Proof.
  intros Hg Hle. unfold all_cmds. rewrite (gens_max C g cs) by done.
  rewrite bind_app. simpl. unfold log_of at 2. rewrite Hg, app_nil_r. f_equal.
  apply log_of_bind_ext. intros g' Hg'%elem_of_gens.
  destruct (decide (g = g')) as [->|Hne]; [|by rewrite lookup_delete_ne].
  rewrite lookup_delete_eq in Hg'. by destruct Hg'.
Qed.

Lemma all_cmds_append C g cs cs' : C !! g = Some cs →
  (∀ g', is_Some (C !! g') → (g' <= g)%N) →
  all_cmds (<[g := cs ++ cs']> C) = all_cmds C ++ cs'.
Proof.
  intros Hg Hle. rewrite (all_cmds_last _ g (cs ++ cs')).
  - rewrite (all_cmds_last C g cs) by done.
    by rewrite delete_insert_eq, app_assoc.
  - by rewrite lookup_insert_eq.
  - intros g'. rewrite lookup_insert. case_decide; [lia|apply Hle].
Qed.

Lemma all_cmds_new C g cs : (∀ g', is_Some (C !! g') → (g' < g)%N) →
  all_cmds (<[g := cs]> C) = all_cmds C ++ cs.
Proof.
  intros Hlt. rewrite (all_cmds_last _ g cs).
  - rewrite delete_insert_id; [done|].
    destruct (C !! g) eqn:E; [|done]. pose proof (Hlt g ltac:(eauto)). lia.
  - by rewrite lookup_insert_eq.
  - intros g'. rewrite lookup_insert. case_decide; [lia|]. intros Hx%Hlt. lia.
Qed.
End all_cmds.

(** ** Bytes of a directory *)

Section bytes.
Context `{!SerdeJson Command}.

Abbreviation enc C := (encode_log <$> C).

(** The bytes of all log files. *)
Definition total (L : gmap N bytes) : N := map_fold (λ _ c acc, (blen c + acc)%N) 0%N L.

Lemma total_insert L g c : L !! g = None → total (<[g := c]> L) = (blen c + total L)%N.
Proof. intros H. unfold total. rewrite map_fold_insert_L; [done|lia|done]. Qed.

Lemma total_delete L g c : L !! g = Some c → total L = (blen c + total (delete g L))%N.
Proof.
  intros H. rewrite <-(total_insert (delete g L) g c) by apply lookup_delete_eq.
  by rewrite insert_delete_id.
Qed.

Lemma total_append L g c c' : L !! g = Some c →
  total (<[g := c ++ c']> L) = (total L + blen c')%N.
Proof.
  intros H. rewrite (total_delete _ g (c ++ c')) by apply lookup_insert_eq.
  rewrite (total_delete L g c) by done. rewrite delete_insert_eq, blen_app. lia.
Qed.

Lemma total_empty : total ∅ = 0%N.
Proof. apply map_fold_empty. Qed.

Lemma total_all_cmds C : total (enc C) = blen (encode_log (all_cmds C)).
Proof.
  induction C as [|C g cs Hg Hmax IH] using gens_ind.
  { rewrite fmap_empty, total_empty. unfold all_cmds. by rewrite gens_empty. }
  rewrite (total_delete _ g (encode_log cs)) by (by rewrite lookup_fmap, Hg).
  rewrite <-fmap_delete, IH, (all_cmds_last C g cs), encode_log_app, blen_app by done.
  lia.
Qed.
End bytes.

(** ** Reading a log

    [scan] is what loading the commands of one log does to the index and to the
    count of stale bytes, the reference for the loading loops of the engines. *)

Section scan.
Context `{!SerdeJson Command}.

Definition old_len (idx : gmap string CommandPos) (k : string) : N :=
  match idx !! k with Some p => len p | None => 0%N end.

Fixpoint scan (g pos : N) (cs : list Command) (idx : gmap string CommandPos) (unc : N) :
    gmap string CommandPos * N :=
  match cs with
  | [] => (idx, unc)
  | c :: cs' =>
      let n := blen (to_writer c) in
      match c with
      | Command_Set k _ =>
          scan g (pos + n) cs' (<[k := CommandPos_from g pos (pos + n)]> idx)
            (unc + old_len idx k)
      | Command_Remove k =>
          scan g (pos + n) cs' (delete k idx) (unc + old_len idx k + n)
      end
  end.

Lemma CommandPos_from_len g p n : len (CommandPos_from g p (p + n)) = n.
Proof. simpl. lia. Qed.

Lemma CommandPos_from_here g (L : gmap N bytes) k v pre post :
  L !! g = Some (pre ++ to_writer (Command_Set k v) ++ post) →
  entry_ok L k
    (CommandPos_from g (blen pre) (blen pre + blen (to_writer (Command_Set k v)))) v.
Proof.
  intros HL. eexists. split; [exact HL|]. cbn [gen pos len CommandPos_from].
  replace (blen pre + _ - blen pre)%N with (blen (to_writer (Command_Set k v))) by lia.
  rewrite !blen_app, slice_app_here. split; [lia|done].
Qed.

(** Scanning the rest [cs] of a log keeps the index in step with the map. *)
Lemma scan_index_ok L g cs pre idx m unc :
  L !! g = Some (encode_log (pre ++ cs)) → index_ok L idx m →
  index_ok L (scan g (blen (encode_log pre)) cs idx unc).1 (replay m cs).
Proof.
  revert pre idx m unc. induction cs as [|c cs IH]; intros pre idx m unc HL Hok; [done|].
  assert (L !! g = Some (encode_log ((pre ++ [c]) ++ cs))) as HL'.
  { by rewrite <-app_assoc. }
  assert (blen (encode_log pre) + blen (to_writer c) = blen (encode_log (pre ++ [c])))%N as Hn.
  { by rewrite encode_log_app, encode_log_one, blen_app. }
  destruct c as [k v|k]; cbn [scan]; rewrite Hn; apply IH; try done.
  - rewrite <-Hn. apply index_ok_insert; [done|].
    eapply (CommandPos_from_here g L k v _ (encode_log cs)).
    by rewrite HL', !encode_log_app, encode_log_one, <-app_assoc.
  - by apply index_ok_delete.
Qed.

(** Every byte scanned is either kept alive by the index or counted as stale. *)
Lemma scan_account g p cs idx unc :
  let '(idx', unc') := scan g p cs idx unc in
  (unc' + live idx' = unc + live idx + blen (encode_log cs))%N.
Proof.
  revert p idx unc. induction cs as [|c cs IH]; intros p idx unc; cbn [scan].
  { change (encode_log []) with (@nil byte). rewrite blen_nil. lia. }
  change (c :: cs) with ([c] ++ cs). rewrite encode_log_app, encode_log_one, blen_app.
  assert (∀ k, live idx = old_len idx k + live (delete k idx))%N as Hold.
  { intros k. unfold old_len. destruct (idx !! k) as [q|] eqn:E.
    - by apply live_delete.
    - by rewrite live_delete_None. }
  destruct c as [k v|k]; specialize (Hold k).
  - specialize (IH (p + blen (to_writer (Command_Set k v)))%N
      (<[k := CommandPos_from g p (p + blen (to_writer (Command_Set k v)))]> idx)
      (unc + old_len idx k)%N).
    destruct (scan _ _ cs _ _) as [idx' unc'].
    rewrite live_insert, CommandPos_from_len in IH. lia.
  - specialize (IH (p + blen (to_writer (Command_Remove k)))%N (delete k idx)
      (unc + old_len idx k + blen (to_writer (Command_Remove k)))%N).
    destruct (scan _ _ cs _ _) as [idx' unc']. lia.
Qed.
End scan.

(** ** A compacted log

    One [Set] command for each key of the map, in some order of the keys. *)

Definition set_cmds (m : kvmap) (ks : list string) : list Command :=
  (λ k, Command_Set k (default "" (m !! k))) <$> ks.

Lemma replay_set_cmds m m0 ks k :
  replay m0 (set_cmds m ks) !! k
  = if decide (k ∈ ks) then Some (default "" (m !! k)) else m0 !! k.
Proof.
  revert m0. induction ks as [|k' ks IH]; intros m0; [done|].
  simpl. unfold replay in *. simpl. rewrite IH. simpl.
  rewrite lookup_insert.
  repeat case_decide; subst; set_solver.
Qed.

(** Replaying a compacted log gives the map back. *)
Lemma replay_compacted m ks : (∀ k, k ∈ ks ↔ is_Some (m !! k)) → replay ∅ (set_cmds m ks) = m.
Proof.
  intros Hks. apply map_eq. intros k. rewrite replay_set_cmds. case_decide as Hk.
  - apply Hks in Hk as [v Hv]. by rewrite Hv.
  - rewrite lookup_empty. symmetry. apply eq_None_not_Some. by rewrite <-Hks.
Qed.

Section compacted.
Context `{!SerdeJson Command}.

Lemma blen_encode_log cs : blen (encode_log cs) = Nsum (λ c, blen (to_writer c)) cs.
Proof.
  induction cs as [|c cs IH]; [done|]. change (c :: cs) with ([c] ++ cs).
  rewrite encode_log_app, encode_log_one, blen_app, IH. done.
Qed.

(** An index keeps exactly the bytes of the compacted log alive. *)
Lemma live_compacted L idx m ks : index_ok L idx m → ks ≡ₚ (map_to_list idx).*1 →
  live idx = blen (encode_log (set_cmds m ks)).
Proof.
  intros Hok Hks. rewrite blen_encode_log. unfold set_cmds, live.
  rewrite Nsum_fmap, Hks, Nsum_fmap, map_fold_foldr.
  change (foldr _ _ _) with (foldr (uncurry (λ _ p acc, (len p + acc)%N)) 0%N (map_to_list idx)).
  assert (∀ kp, kp ∈ map_to_list idx →
    blen (to_writer (Command_Set kp.1 (default "" (m !! kp.1)))) = len kp.2) as Hlen.
  { intros [k p] Hkp%elem_of_map_to_list. simpl.
    destruct (index_ok_lookup _ _ _ _ _ Hok Hkp) as (v & -> & c & _ & Hb & Hsl). simpl. rewrite <-Hsl.
    by apply blen_slice. }
  rewrite (Nsum_ext _ _ _ Hlen).
  clear. induction (map_to_list idx) as [|[k p] l IH]; simpl; [done|]. by rewrite IH.
Qed.

(** How many bytes are live is a matter of the map alone. *)
Lemma live_index_unique L L' idx idx' m m' : index_ok L idx m → index_ok L' idx' m' → m = m' →
  live idx = live idx'.
Proof.
  intros H H' <-. rewrite (live_compacted _ _ _ _ H (reflexivity _)).
  symmetry. apply (live_compacted _ _ _ _ H'). apply NoDup_Permutation.
  - apply NoDup_fst_map_to_list.
  - apply NoDup_fst_map_to_list.
  - intros k. rewrite !elem_of_map_keys. by rewrite (index_ok_dom _ _ _ _ H), (index_ok_dom _ _ _ _ H').
Qed.
End compacted.

(** ** Removing generations *)

Definition remove_gens {A} (gs : list N) (C : gmap N A) : gmap N A := foldl (λ C g, delete g C) C gs.

Lemma lookup_remove_gens {A} gs (C : gmap N A) g :
  remove_gens gs C !! g = if decide (g ∈ gs) then None else C !! g.
Proof.
  revert C. induction gs as [|g' gs IH]; intros C; [done|].
  cbn [remove_gens foldl]. unfold remove_gens in IH. rewrite IH, lookup_delete.
  repeat case_decide; subst; set_solver.
Qed.

Lemma fmap_remove_gens {A B} (f : A → B) gs (C : gmap N A) :
  f <$> remove_gens gs C = remove_gens gs (f <$> C).
Proof.
  apply map_eq. intros g. rewrite lookup_fmap, !lookup_remove_gens, lookup_fmap.
  by case_decide.
Qed.

Lemma dom_remove_gens {A} gs (C : gmap N A) : dom (remove_gens gs C) = dom C ∖ list_to_set gs.
Proof.
  apply set_eq. intros g. rewrite elem_of_difference, elem_of_list_to_set, !elem_of_dom.
  rewrite lookup_remove_gens. case_decide; [|naive_solver]. split; [by intros [? ?]|naive_solver].
Qed.

(** ** Crashes during a compaction *)

(** What a replay says of a key depends on the start map only if no command is
    about the key. *)
Lemma replay_None_any m0 cs k : replay m0 cs !! k = None → replay ∅ cs !! k = None.
Proof.
  assert (∀ m1 m2 : kvmap, (m1 !! k = None → m2 !! k = None) →
    replay m1 cs !! k = None → replay m2 cs !! k = None) as H.
  { induction cs as [|c cs IH]; intros m1 m2 Hm; [done|]. simpl. apply IH.
    destruct c as [k' v|k']; simpl; rewrite ?lookup_insert, ?lookup_delete;
      by case_decide. }
  apply H. by rewrite lookup_empty.
Qed.

(** The newest commands followed by the compacted log mean what all commands
    meant: a compaction may forget the oldest logs first. *)
Lemma replay_suffix_compacted old new ks :
  (∀ k, k ∈ ks ↔ is_Some (replay ∅ (old ++ new) !! k)) →
  replay ∅ (new ++ set_cmds (replay ∅ (old ++ new)) ks) = replay ∅ (old ++ new).
Proof.
  intros Hks. apply map_eq. intros k. rewrite (replay_app ∅ new), replay_set_cmds.
  case_decide as Hk.
  - apply Hks in Hk as [v Hv]. by rewrite Hv.
  - assert (replay ∅ (old ++ new) !! k = None) as Hn.
    { apply eq_None_not_Some. by rewrite <-Hks. }
    rewrite Hn. rewrite replay_app in Hn. by eapply replay_None_any.
Qed.

(** A part of the compacted log behind all commands changes nothing. *)
Lemma replay_partial_compacted cs ks :
  (∀ k, k ∈ ks → is_Some (replay ∅ cs !! k)) →
  replay ∅ (cs ++ set_cmds (replay ∅ cs) ks) = replay ∅ cs.
Proof.
  intros Hks. apply map_eq. intros k. rewrite replay_app, replay_set_cmds.
  case_decide as Hk; [|done]. by destruct (Hks k Hk) as [v ->].
Qed.
