(* ===== verification/Conc.v ===== *)
(** * Threads that share memory

    Concurrent code is a [prog]: a tree of atomic actions on the shared state, one
    for each access the source makes to state that other threads can see. [run]
    executes a program alone; [step] and [exec] interleave the programs of several
    threads. The same definition of an operation serves both. *)

From S2P Require Import Prelude.

(** An action that is not enabled ([None]) blocks its thread, as a lock does. *)
#[local] Unset Elimination Schemes.
Inductive prog (E S A : Type) : Type :=
| Done (o : outcome E A)
| Act (f : S → option (S * prog E S A)).
Arguments Done {E S A} o.
Arguments Act {E S A} f.
#[local] Set Elimination Schemes.

Lemma prog_ind {E S A} (P : prog E S A → Prop) :
  (∀ o, P (Done o)) → (∀ f, (∀ s s' p, f s = Some (s', p) → P p) → P (Act f)) → ∀ p, P p.
Proof.
  intros HD HA. fix go 1. intros [o|f]; [apply HD|]. apply HA. intros s.
  destruct (f s) as [[s1 p1]|]; intros s' p' Heq; [|discriminate].
  injection Heq as _ <-. apply go.
Qed.

Section prog.
Context {E S : Type}.

(** One atomic action. *)
Definition atomic {A} (m : M E S A) : prog E S A :=
  Act (λ s, let '(o, s') := m s in Some (s', Done o)).

(** The rest of a program after its result is known. *)
Definition cont {A B} (k : A → prog E S B) (o : outcome E A) : prog E S B :=
  match o with
  | Ok a => k a
  | Err e => Done (Err e)
  | Panic => Done Panic
  | Diverge => Done Diverge
  end.

#[global] Instance prog_ret : MRet (prog E S) := λ A a, Done (Ok a).
#[global] Instance prog_bind : MBind (prog E S) := λ A B k,
  fix go p := match p with
              | Done o => cont k o
              | Act f => Act (λ s, match f s with
                                   | Some (s', p') => Some (s', go p')
                                   | None => None
                                   end)
              end.

(** Runs [fin] on the state when the program ends, however it ends. *)
Fixpoint finally {A} (fin : outcome E A → S → S) (p : prog E S A) : prog E S A :=
  match p with
  | Done o => Act (λ s, Some (fin o s, Done o))
  | Act f => Act (λ s, match f s with
                       | Some (s', p') => Some (s', finally fin p')
                       | None => None
                       end)
  end.

(** A [Result] as a value, for code that does not return early on it. *)
Fixpoint result {A} (p : prog E S A) : prog E S (E + A) :=
  match p with
  | Done (Ok a) => Done (Ok (inr a))
  | Done (Err e) => Done (Ok (inl e))
  | Done Panic => Done Panic
  | Done Diverge => Done Diverge
  | Act f => Act (λ s, match f s with
                       | Some (s', p') => Some (s', result p')
                       | None => None
                       end)
  end.

(** ** Running alone *)

Fixpoint run {A} (p : prog E S A) (s : S) : option (outcome E A * S) :=
  match p with
  | Done o => Some (o, s)
  | Act f => match f s with
             | Some (s', p') => run p' s'
             | None => None
             end
  end.

Lemma run_atomic {A} (m : M E S A) s : run (atomic m) s = Some (m s).
Proof. simpl. by destruct (m s). Qed.

Lemma run_bind {A B} (p : prog E S A) (k : A → prog E S B) s o s' :
  run p s = Some (o, s') → run (p ≫= k) s = run (cont k o) s'.
Proof.
  revert s. induction p as [o'|f IH] using prog_ind; intros s; simpl; [naive_solver|].
  destruct (f s) as [[s1 p1]|] eqn:Hf; [|done]. by eapply IH.
Qed.

Lemma run_bind_ok {A B} (p : prog E S A) (k : A → prog E S B) s a s' :
  run p s = Some (Ok a, s') → run (p ≫= k) s = run (k a) s'.
Proof. intros H. by rewrite (run_bind _ _ _ _ _ H). Qed.

Lemma run_atomic_ok {A B} (m : M E S A) (k : A → prog E S B) s a s' :
  m s = (Ok a, s') → run (atomic m ≫= k) s = run (k a) s'.
Proof. intros H. apply run_bind_ok. by rewrite run_atomic, H. Qed.

Lemma run_assoc {A B D} (p : prog E S A) (f : A → prog E S B) (g : B → prog E S D) s :
  run ((p ≫= f) ≫= g) s = run (p ≫= λ a, f a ≫= g) s.
Proof.
  revert s. induction p as [o|h IH] using prog_ind; intros s; [by destruct o|]. simpl.
  destruct (h s) as [[s1 p1]|] eqn:Hh; [|done]. by eapply IH.
Qed.

Lemma run_finally {A} fin (p : prog E S A) s o s' :
  run p s = Some (o, s') → run (finally fin p) s = Some (o, fin o s').
Proof.
  revert s. induction p as [o'|f IH] using prog_ind; intros s; simpl; [naive_solver|].
  destruct (f s) as [[s1 p1]|] eqn:Hf; [|done]. by eapply IH.
Qed.

(** ** Running together *)

(** The threads and the state they share. *)
Definition config (A : Type) : Type := list (prog E S A) * S.

Inductive step {A} : config A → config A → Prop :=
| step_thread i f ts s s' p' :
    ts !! i = Some (Act f) → f s = Some (s', p') → step (ts, s) (<[i := p']> ts, s').

(** The threads take their steps in the order of a schedule. *)
Fixpoint exec {A} (sched : list nat) (c : config A) : option (config A) :=
  match sched with
  | [] => Some c
  | i :: sched' =>
      match c.1 !! i with
      | Some (Act f) => match f c.2 with
                        | Some (s', p') => exec sched' (<[i := p']> c.1, s')
                        | None => None
                        end
      | _ => None
      end
  end.

Lemma exec_steps {A} sched (c c' : config A) : exec sched c = Some c' → rtc step c c'.
Proof.
  revert c. induction sched as [|i sched IH]; intros [ts s] H; simpl in H; [by simplify_eq; apply rtc_refl|].
  destruct (ts !! i) as [[|f]|] eqn:Hi; try done.
  destruct (f s) as [[s1 p1]|] eqn:Hf; [|done].
  eapply rtc_l; [by econstructor|]. by apply IH.
Qed.

(** A thread that runs alone among others. *)
Lemma run_steps {A} (p : prog E S A) ts i s o s' : ts !! i = Some p → run p s = Some (o, s') →
  rtc step (ts, s) (<[i := Done o]> ts, s').
Proof.
  revert ts s. induction p as [o'|f IH] using prog_ind; intros ts s Hi; simpl.
  { intros [= -> ->]. by rewrite list_insert_id. }
  destruct (f s) as [[s1 p1]|] eqn:Hf; [|done]. intros Hrun.
  eapply rtc_l; [by econstructor|].
  rewrite <-(list_insert_insert_eq ts i (Done o) p1). eapply IH; [done| |done].
  apply list_lookup_insert_eq. by apply lookup_lt_Some in Hi.
Qed.
End prog.

(** Runs the actions that cannot fail. *)
Ltac rpure :=
  repeat first [rewrite run_assoc | erewrite run_atomic_ok; [|reflexivity]]; cbn beta iota zeta.
