(* ===== verification/KvStore.v ===== *)
(** * The single-threaded log engine (project-2 and project-3)

    [KvStore] of [project-2/src/kv.rs]; [project-3/src/engines/kvs.rs] holds the
    same code as an implementation of the [KvsEngine] trait. The methods run on
    the store and the directory it lives in. *)

From S2P Require Import Prelude Fs Command KvsEngine.

Definition COMPACTION_THRESHOLD : N := 1024 * 1024.

Record KvStore := mkStore {
  readers : gmap N BufReaderWithPos;
  writer : BufWriterWithPos;
  current_gen : N;
  index : gmap string CommandPos;
  uncompacted : N;
}.

Definition with_readers (f : gmap N BufReaderWithPos → gmap N BufReaderWithPos) (s : KvStore) :=
  mkStore (f (readers s)) (writer s) (current_gen s) (index s) (uncompacted s).
Definition with_writer (w : BufWriterWithPos) (s : KvStore) :=
  mkStore (readers s) w (current_gen s) (index s) (uncompacted s).
Definition with_gen (g : N) (s : KvStore) :=
  mkStore (readers s) (writer s) g (index s) (uncompacted s).
Definition with_index (f : gmap string CommandPos → gmap string CommandPos) (s : KvStore) :=
  mkStore (readers s) (writer s) (current_gen s) (f (index s)) (uncompacted s).
Definition with_uncompacted (f : N → N) (s : KvStore) :=
  mkStore (readers s) (writer s) (current_gen s) (index s) (f (uncompacted s)).

(** The keys of a [BTreeMap<String, _>] in iteration order: ascending. *)
Definition str_le (a b : string) : Prop := String.leb a b = true.
#[export] Instance str_le_dec a b : Decision (str_le a b) := bool_eq_dec _ _.

Definition btree_keys {A} (m : gmap string A) : list string :=
  merge_sort str_le (map_to_list m).*1.

Section code.
Context {E : Type} `{!StoreError E} `{!SerdeJson Command}.

(** The order in which a [HashMap] lists its keys is unspecified. *)
Context (hash_order : list N → list N).

(** ** Opening a store *)

(** The loop of [load], on the bytes of the log that are left. *)
Fixpoint load_loop (fuel : nat) (g pos : N) (rest : bytes)
    (idx : gmap string CommandPos) (unc : N) : outcome E (gmap string CommandPos * N) :=
  match fuel with
  | O => Diverge
  | S fuel' =>
      match stream_next rest with
      | None => Ok (idx, unc)
      | Some (inr e) => Err (from e)
      | Some (inl (cmd, n)) =>
          let new_pos := (pos + n)%N in
          let rest' := drop (N.to_nat n) rest in
          match cmd with
          | Command_Set key _ =>
              let unc' := match idx !! key with
                          | Some old_cmd => (unc + len old_cmd)%N
                          | None => unc
                          end in
              load_loop fuel' g new_pos rest'
                (<[key := CommandPos_from g pos new_pos]> idx) unc'
          | Command_Remove key =>
              let unc' := match idx !! key with
                          | Some old_cmd => (unc + len old_cmd)%N
                          | None => unc
                          end in
              load_loop fuel' g new_pos rest' (delete key idx) (unc' + (new_pos - pos))%N
          end
      end
  end.

(** [load]: the reader is at the end of the file afterwards. One more step than
    the file has bytes is enough fuel: every command consumes at least one. *)
Definition load (g : N) (r : BufReaderWithPos) (idx : gmap string CommandPos) :
    M E Disk (gmap string CommandPos * N * BufReaderWithPos) := λ d,
  let data := content d (rd_ino r) in
  match load_loop (S (length data)) g 0 data idx 0 with
  | Ok (idx', unc) => (Ok (idx', unc, reader_seek r (blen data)), d)
  | Err e => (Err e, d)
  | Panic => (Panic, d)
  | Diverge => (Diverge, d)
  end.

(** [new_log_file]: the writer of a new log; its reader joins the readers. *)
Definition new_log_file (g : N) (rds : gmap N BufReaderWithPos) :
    M E Disk (BufWriterWithPos * gmap N BufReaderWithPos) :=
  ino ← question (open_append (log_path g));
  rino ← question (File_open (log_path g));
  mret (BufWriterWithPos_new ino, <[g := BufReaderWithPos_new rino]> rds).

Fixpoint open_loop (gs : list N) (rds : gmap N BufReaderWithPos)
    (idx : gmap string CommandPos) (unc : N) :
    M E Disk (gmap N BufReaderWithPos * gmap string CommandPos * N) :=
  match gs with
  | [] => mret (rds, idx, unc)
  | g :: gs' =>
      ino ← question (File_open (log_path g));
      '(idx', n, reader) ← load g (BufReaderWithPos_new ino) idx;
      open_loop gs' (<[g := reader]> rds) idx' (unc + n)%N
  end.

(** [KvStore::open] on the directory. *)
Definition KvStore_open : M E Disk KvStore :=
  gen_list ← gets sorted_gen_list;
  '(rds, idx, unc) ← open_loop gen_list ∅ ∅ 0%N;
  cur ← u64_add (default 0%N (last gen_list)) 1;
  '(w, rds') ← new_log_file cur rds;
  mret (mkStore rds' w cur idx unc).

(** ** Operations *)

Abbreviation SM := (M E (KvStore * Disk)).

Definition self {A} (f : KvStore → A) : SM A := gets (λ s, f s.1).
Definition update (f : KvStore → KvStore) : SM unit := on_fst (modify f).

(** [serde_json::to_writer(&mut self.writer, &cmd)?; self.writer.flush()?]. *)
Definition write_command (cmd : Command) : SM unit :=
  w ← self writer;
  let w' := writer_write w (to_writer cmd) in
  d ← gets snd;
  let '(w'', d') := writer_flush w' d in
  update (with_writer w'');;
  on_snd (modify (λ _, d')).

(** [self.new_log_file(gen)]. *)
Definition self_new_log_file (g : N) : SM BufWriterWithPos :=
  rds ← self readers;
  '(w, rds') ← on_snd (new_log_file g rds);
  update (with_readers (λ _, rds'));;
  mret w.

(** The copying loop of [compact], one index entry at a time. *)
Fixpoint compact_loop (keys : list string) (compaction_gen : N)
    (compaction_writer : BufWriterWithPos) (new_pos : N) : SM BufWriterWithPos :=
  match keys with
  | [] => mret compaction_writer
  | key :: keys' =>
      cmd_pos ← self (λ s, index s !! key) ≫= expect;
      reader ← self (λ s, readers s !! gen cmd_pos) ≫= expect;
      let reader := if decide (rd_pos reader = pos cmd_pos) then reader
                    else reader_seek reader (pos cmd_pos) in
      d ← gets snd;
      let '(data, reader') := reader_take reader (len cmd_pos) d in
      update (with_readers <[gen cmd_pos := reader']>);;
      let n := blen data in
      update (with_index <[key := CommandPos_from compaction_gen new_pos (new_pos + n)]>);;
      compact_loop keys' compaction_gen (writer_write compaction_writer data) (new_pos + n)
  end.

(** The loop that removes the stale log files. *)
Fixpoint remove_stale (stale_gens : list N) : SM unit :=
  match stale_gens with
  | [] => mret tt
  | g :: gs =>
      update (with_readers (delete g));;
      on_snd (question (remove_file (log_path g)));;
      remove_stale gs
  end.

(** [compact] up to the removal of the stale logs, which it returns. *)
Definition compact_copy : SM (list N) :=
  cur ← self current_gen;
  compaction_gen ← u64_add cur 1;
  cur' ← u64_add cur 2;
  update (with_gen cur');;
  w ← self_new_log_file cur';
  update (with_writer w);;
  compaction_writer ← self_new_log_file compaction_gen;
  keys ← self (λ s, btree_keys (index s));
  compaction_writer ← compact_loop keys compaction_gen compaction_writer 0;
  d ← gets snd;
  on_snd (modify (λ _, (writer_flush compaction_writer d).2));;
  rds ← self readers;
  mret (filter (λ g, (g < compaction_gen)%N) (hash_order (map_to_list rds).*1)).

Definition compact : SM unit :=
  stale_gens ← compact_copy;
  remove_stale stale_gens;;
  update (with_uncompacted (λ _, 0%N)).

Definition KvStore_set (key value : string) : SM unit :=
  let cmd := Command_set key value in
  p ← self (λ s, wr_pos (writer s));
  write_command cmd;;
  (match cmd with
   | Command_Set key _ =>
       old ← self (λ s, index s !! key);
       update (λ s, with_index <[key := CommandPos_from (current_gen s) p (wr_pos (writer s))]> s);;
       (match old with
        | Some old_cmd => update (with_uncompacted (λ u, u + len old_cmd)%N)
        | None => mret tt
        end)
   | Command_Remove _ => mret tt
   end);;
  u ← self uncompacted;
  if (COMPACTION_THRESHOLD <? u)%N then compact else mret tt.

Definition KvStore_get (key : string) : SM (option string) :=
  o ← self (λ s, index s !! key);
  match o with
  | Some cmd_pos =>
      reader ← self (λ s, readers s !! gen cmd_pos) ≫= expect;
      let reader := reader_seek reader (pos cmd_pos) in
      d ← gets snd;
      let '(data, reader') := reader_take reader (len cmd_pos) d in
      update (with_readers <[gen cmd_pos := reader']>);;
      match from_reader data with
      | inl (Command_Set _ value) => mret (Some value)
      | inl (Command_Remove _) => throw unexpected_command_type
      | inr e => throw (from e)
      end
  | None => mret None
  end.

Definition KvStore_remove (key : string) : SM unit :=
  o ← self (λ s, index s !! key);
  match o with
  | Some _ =>
      let cmd := Command_remove key in
      write_command cmd;;
      match cmd with
      | Command_Remove key =>
          old_cmd ← self (λ s, index s !! key) ≫= expect;
          update (with_index (delete key));;
          update (with_uncompacted (λ u, u + len old_cmd)%N)
      | Command_Set _ _ => mret tt
      end
  | None => throw key_not_found
  end.
End code.
