(* ===== verification/KvStoreSpec.v ===== *)
(** * Correctness of the single-threaded log engine

    The representation invariant of [KvStore], that every operation keeps it and
    computes what the map it stands for says, that opening a directory recovers
    the map, and the accounting of stale bytes. *)

From S2P Require Import Prelude Fs Command KvsEngine LogTheory KvStore.

(** ** Fuel of the loading loop *)

Section loading.
Context {E : Type} `{!StoreError E} `{!SerdeJson Command} `{!SerdeLaws Command}.

Lemma to_writer_pos (c : Command) : (0 < blen (to_writer c))%N.
Proof.
  pose proof (next_app c []) as H. rewrite app_nil_r in H.
  by destruct (next_progress _ _ _ H).
Qed.

(** [load_loop] on the encoding of commands is [scan]. *)
Lemma load_loop_scan fuel g p cs idx unc : length (encode_log cs) < fuel →
  load_loop (E:=E) fuel g p (encode_log cs) idx unc = Ok (scan g p cs idx unc).
Proof.
  revert fuel p idx unc. induction cs as [|c cs IH]; intros fuel p idx unc Hf.
  { destruct fuel; [lia|]. simpl. by rewrite next_nil. }
  change (c :: cs) with ([c] ++ cs) in *.
  rewrite encode_log_app, encode_log_one in *. rewrite length_app in Hf.
  pose proof (to_writer_pos c) as Hpos. unfold blen in Hpos.
  destruct fuel as [|fuel]; [lia|]. cbn [load_loop app].
  rewrite next_app. replace (N.to_nat (blen (to_writer c))) with (length (to_writer c))
    by (unfold blen; lia). rewrite drop_app_length.
  destruct c as [k v|k]; rewrite IH by lia; cbn [scan]; unfold old_len;
    destruct (idx !! k); rewrite ?N.add_0_r; repeat f_equal; lia.
Qed.

(** A log whose last command is cut short cannot be loaded. *)
Lemma load_loop_torn `{!SerdeTorn Command} fuel g p cs c b b' idx unc :
  to_writer c = b ++ b' → b ≠ [] → b' ≠ [] → length (encode_log cs ++ b) < fuel →
  ∃ e, load_loop (E:=E) fuel g p (encode_log cs ++ b) idx unc = Err (from (E':=SerdeError) e).
Proof.
  intros Hw Hb Hb'. destruct (next_torn c b b' Hw Hb Hb') as [e He].
  intros Hf. exists e. revert fuel p idx unc Hf.
  induction cs as [|c' cs IH]; intros fuel p idx unc Hf; (destruct fuel as [|fuel]; [lia|]).
  { cbn [encode_log mjoin list_join fmap list_fmap app load_loop]. by rewrite He. }
  change (c' :: cs) with ([c'] ++ cs) in *.
  rewrite encode_log_app, encode_log_one, <-app_assoc in *. rewrite length_app in Hf.
  pose proof (to_writer_pos c') as Hpos. unfold blen in Hpos.
  cbn [load_loop]. rewrite next_app.
  replace (N.to_nat (blen (to_writer c'))) with (length (to_writer c')) by (unfold blen; lia).
  rewrite drop_app_length. destruct c' as [k v|k]; apply IH; lia.
Qed.

(** Whatever the log holds, loading it terminates, and it does not panic. *)
Lemma load_loop_no_panic fuel g p rest idx unc :
  load_loop (E:=E) fuel g p rest idx unc ≠ Panic.
Proof.
  revert p rest idx unc. induction fuel as [|fuel IH]; intros p rest idx unc; [done|].
  cbn [load_loop]. destruct (stream_next rest) as [[[[] n]|e]|] eqn:Hn; by try apply IH.
Qed.

Lemma load_loop_terminates fuel g p rest idx unc : length rest < fuel →
  load_loop (E:=E) fuel g p rest idx unc ≠ Diverge.
Proof.
  revert p rest idx unc. induction fuel as [|fuel IH]; intros p rest idx unc Hf; [lia|].
  cbn [load_loop]. destruct (stream_next rest) as [[[c n]|e]|] eqn:Hn; try done.
  apply next_progress in Hn. unfold blen in Hn.
  destruct c; apply IH; rewrite length_drop; lia.
Qed.
End loading.

(** ** The representation invariant *)

Section spec.
Context {E : Type} `{!StoreError E} `{!SerdeJson Command} `{!SerdeLaws Command}.

Abbreviation enc C := (encode_log <$> C).

(** The store [s] over the directory [d], whose logs hold the commands [C]. *)
Record rep (s : KvStore) (d : Disk) (C : gmap N (list Command)) : Prop := {
  rep_wf : fs_wf d;
  rep_view : log_view d (enc C);
  (* the index is the map the logs stand for *)
  rep_index : index_ok (enc C) (index s) (meaning C);
  (* every log has a reader, and every reader reads its log *)
  rep_readers : dom (readers s) = dom C;
  rep_handles : ∀ g r, readers s !! g = Some r → names d g (rd_ino r);
  (* the writer is at the end of the newest log *)
  rep_writer : names d (current_gen s) (wr_ino (writer s));
  rep_flushed : wr_buf (writer s) = [];
  rep_pos : ∃ cs, C !! current_gen s = Some cs ∧ wr_pos (writer s) = blen (encode_log cs);
  rep_newest : ∀ g, is_Some (C !! g) → (g <= current_gen s)%N;
  (* stale and live bytes are bytes of the logs *)
  rep_account : (uncompacted s + live (index s) <= total (enc C))%N;
}.

(** The directory alone: what [open] needs. *)
Record disk_ok (d : Disk) (C : gmap N (list Command)) : Prop := {
  ok_wf : fs_wf d;
  ok_view : log_view d (enc C);
}.

Lemma rep_disk_ok s d C : rep s d C → disk_ok d C.
Proof. intros H. split; apply H. Qed.

(** *** Opening *)

Lemma load_log d C g h cs idx : disk_ok d C → C !! g = Some cs → names d g h →
  ∃ r, load (E:=E) g (BufReaderWithPos_new h) idx d = (Ok (scan g 0 cs idx 0, r), d)
       ∧ rd_ino r = h.
Proof.
  intros Hd Hg Hh. exists (mkReader h (blen (encode_log cs))). split; [|done]. unfold load. cbn [rd_ino BufReaderWithPos_new].
  rewrite (content_names d (enc C) (ok_view _ _ Hd) g h (encode_log cs)) by
    (try rewrite lookup_fmap, Hg; done).
  rewrite load_loop_scan by lia. by destruct (scan g 0 cs idx 0).
Qed.

Lemma open_loop_ok d C gs rds idx unc m : disk_ok d C →
  (∀ g, g ∈ gs → is_Some (C !! g)) → index_ok (enc C) idx m →
  (∀ g r, rds !! g = Some r → names d g (rd_ino r)) →
  ∃ rds' idx' unc', open_loop (E:=E) gs rds idx unc d = (Ok (rds', idx', unc'), d)
    ∧ index_ok (enc C) idx' (replay m (gs ≫= log_of C))
    ∧ (unc' + live idx' = unc + live idx + blen (encode_log (gs ≫= log_of C)))%N
    ∧ dom rds' = dom rds ∪ list_to_set gs
    ∧ (∀ g r, rds' !! g = Some r → names d g (rd_ino r)).
Proof.
  intros Hd. revert rds idx unc m.
  induction gs as [|g gs IH]; intros rds idx unc m Hin Hok Hr.
  { exists rds, idx, unc. split_and!; try done; [|set_solver].
    change (encode_log _) with (@nil byte). rewrite blen_nil. lia. }
  destruct (Hin g ltac:(set_solver)) as [cs Hg].
  assert (enc C !! g = Some (encode_log cs)) as Hge by (by rewrite lookup_fmap, Hg).
  destruct (File_open_log d (enc C) (ok_view _ _ Hd) g _ Hge) as (h & Hopen & Hh).
  destruct (load_log d C g h cs idx Hd Hg Hh) as (r & Hload & Hri).
  pose proof (scan_account g 0 cs idx 0) as Hacc.
  pose proof (scan_index_ok (enc C) g cs [] idx m 0 Hge Hok) as Hok'.
  change (blen (encode_log [])) with 0%N in Hok'.
  cbn [open_loop mbind]. rewrite (bind_ok _ _ _ _ _ (question_ok _ _ _ _ Hopen)).
  rewrite (bind_ok _ _ _ _ _ Hload).
  destruct (scan g 0 cs idx 0) as [idx1 n].
  destruct (IH (<[g := r]> rds) idx1 (unc + n)%N (replay m cs))
    as (rds' & idx' & unc' & Hrun & Hok'' & Hacc' & Hdom & Hr'); [|done| |].
  { intros g' Hg'. apply Hin. set_solver. }
  { intros g' r'. rewrite lookup_insert. case_decide; [|apply Hr]. intros. by simplify_eq. }
  exists rds', idx', unc'. cbn beta iota. rewrite bind_cons, Hrun.
  assert (log_of C g = cs) as -> by (unfold log_of; by rewrite Hg).
  rewrite replay_app, encode_log_app, blen_app. split_and!; try done.
  - lia.
  - rewrite Hdom, dom_insert_L. simpl. set_solver.
Qed.

Lemma new_log_file_ok d C g rds : disk_ok d C → (g <= U64_MAX)%N → C !! g = None →
  ∃ d' h, new_log_file (E:=E) g rds d
      = (Ok (BufWriterWithPos_new h, <[g := BufReaderWithPos_new h]> rds), d')
    ∧ disk_ok d' (<[g := []]> C) ∧ names d' g h
    ∧ (∀ g' h', names d g' h' → names d' g' h').
Proof.
  intros [Hwf Hlv] Hb Hg.
  destruct (open_append_new d (enc C) Hwf Hlv g Hb) as (d' & Happ & Hwf' & Hlv' & Hn & Hnames & _).
  { by rewrite lookup_fmap, Hg. }
  exists d', (next_ino d). unfold new_log_file.
  rewrite (bind_ok _ _ _ _ _ (question_ok _ _ _ _ Happ)).
  assert (File_open (log_path g) d' = (Ok (next_ino d), d')) as Hopen.
  { unfold File_open. by rewrite Hn. }
  rewrite (bind_ok _ _ _ _ _ (question_ok _ _ _ _ Hopen)).
  split_and!; try done. split; [done|].
  by rewrite fmap_insert.
Qed.

(** The generation [open] and [compact] pick is above every log. *)
Lemma next_gen_above (C : gmap N (list Command)) g :
  is_Some (C !! g) → (g < default 0 (last (gens C)) + 1)%N.
Proof.
  intros Hg. destruct (last (gens C)) as [g'|] eqn:El; simpl.
  - apply gens_last_max in El as [_ Hmax]. specialize (Hmax _ Hg). lia.
  - apply last_None in El. apply elem_of_gens in Hg. rewrite El in Hg.
    by apply not_elem_of_nil in Hg.
Qed.

(** Opening a directory succeeds, gives a store of the same meaning, and leaves
    the logs as they were but for a new empty one. *)
Lemma KvStore_open_ok d C : disk_ok d C →
  (default 0 (last (gens C)) < U64_MAX)%N →
  ∃ s d', KvStore_open (E:=E) d = (Ok s, d')
    ∧ rep s d' (<[current_gen s := []]> C)
    ∧ current_gen s = (default 0 (last (gens C)) + 1)%N
    ∧ (uncompacted s + live (index s) = total (enc (<[current_gen s := []]> C)))%N.
Proof.
  intros Hd Hb. set (cur := (default 0 (last (gens C)) + 1)%N).
  assert (∀ g, is_Some (C !! g) → (g < cur)%N) as Habove by apply next_gen_above.
  assert (C !! cur = None) as Hnew.
  { apply eq_None_not_Some. intros H%Habove. lia. }
  destruct (open_loop_ok d C (gens C) ∅ ∅ 0 ∅ Hd)
    as (rds & idx & unc & Hloop & Hok & Hacc & Hdom & Hr).
  { intros g. apply elem_of_gens. }
  { intros k. rewrite !lookup_empty. constructor. }
  { intros g r. by rewrite lookup_empty. }
  destruct (new_log_file_ok d C cur rds Hd) as (d' & h & Hnf & Hd' & Hh & Hnames); [lia|done|].
  exists (mkStore (<[cur := BufReaderWithPos_new h]> rds) (BufWriterWithPos_new h) cur idx unc), d'.
  assert (unc + live idx = total (enc (<[cur := []]> C)))%N as Htotal.
  { rewrite fmap_insert, total_insert by (by rewrite lookup_fmap, Hnew).
    rewrite total_all_cmds. rewrite live_empty in Hacc.
    change (encode_log []) with (@nil byte). rewrite blen_nil. unfold all_cmds. lia. }
  split_and!; [|split|done|done]; simpl.
  - unfold KvStore_open. mpure.
    rewrite (sorted_gen_list_view d (enc C) (ok_wf _ _ Hd) (ok_view _ _ Hd)), gens_fmap.
    rewrite (bind_ok _ _ _ _ _ Hloop). erewrite bind_ok by (apply u64_add_ok; lia).
    by rewrite (bind_ok _ _ _ _ _ Hnf).
  - apply Hd'.
  - apply Hd'.
  - unfold meaning. rewrite all_cmds_new, app_nil_r by done.
    eapply index_ok_mono; [exact Hok|]. intros k p c _ Hc. exists [].
    rewrite app_nil_r, fmap_insert, lookup_insert_ne; [done|].
    intros ->. rewrite lookup_fmap, Hnew in Hc. done.
  - rewrite !dom_insert_L, Hdom, dom_empty_L. f_equal.
    apply set_eq. intros g. rewrite elem_of_union, elem_of_list_to_set, elem_of_gens, elem_of_dom.
    set_solver.
  - intros g r. rewrite lookup_insert. case_decide.
    + intros. by simplify_eq.
    + intros Hg. by apply Hnames, Hr.
  - done.
  - done.
  - exists []. by rewrite lookup_insert_eq.
  - intros g. rewrite lookup_insert. case_decide; [lia|]. intros Hg%Habove. lia.
  - lia.
Qed.

(** The directory of a store, opened again. *)
Lemma reopen_ok s d C : rep s d C → (current_gen s < U64_MAX)%N →
  ∃ s' d', KvStore_open (E:=E) d = (Ok s', d')
    ∧ rep s' d' (<[current_gen s' := []]> C)
    ∧ meaning (<[current_gen s' := []]> C) = meaning C
    ∧ total (enc (<[current_gen s' := []]> C)) = total (enc C)
    ∧ (uncompacted s' + live (index s') = total (enc (<[current_gen s' := []]> C)))%N.
Proof.
  intros Hr Hb. pose proof (rep_disk_ok _ _ _ Hr) as Hd.
  assert (default 0 (last (gens C)) <= current_gen s)%N as Hle.
  { destruct (last (gens C)) as [g|] eqn:El; simpl; [|lia].
    apply gens_last_max in El as [Hg _]. by apply (rep_newest _ _ _ Hr). }
  destruct (KvStore_open_ok d C Hd) as (s' & d' & Hopen & Hr' & Hc & Hacc); [lia|].
  assert (∀ g, is_Some (C !! g) → (g < current_gen s')%N) as Habove.
  { rewrite Hc. apply next_gen_above. }
  exists s', d'. split_and!; [done|done|..|done].
  - unfold meaning. by rewrite all_cmds_new, app_nil_r.
  - rewrite fmap_insert, total_insert; [by change (encode_log []) with (@nil byte)|].
    rewrite lookup_fmap, fmap_None. apply eq_None_not_Some. intros H%Habove. lia.
Qed.

(** *** Writing a command *)

(** The store once [cmd] is in the newest log, before the index knows of it. *)
Definition wrote (cmd : Command) (s : KvStore) : KvStore :=
  with_writer (mkWriter (wr_ino (writer s)) [] (wr_pos (writer s) + blen (to_writer cmd))) s.

Lemma write_command_ok s d C cmd : rep s d C →
  write_command (E:=E) cmd (s, d)
    = (Ok tt, (wrote cmd s, append (wr_ino (writer s)) (to_writer cmd) d)).
Proof.
  intros Hr. unfold write_command, wrote. mpure. unfold writer_flush, writer_write; simpl.
  by rewrite (rep_flushed _ _ _ Hr).
Qed.

(** What a write does to the logs; the new command is applied to the meaning. *)
Lemma rep_wrote s d C cs cmd idx unc :
  rep s d C → C !! current_gen s = Some cs →
  let C' := <[current_gen s := cs ++ [cmd]]> C in
  index_ok (enc C') idx (apply_cmd (meaning C) cmd) →
  (unc + live idx <= total (enc C) + blen (to_writer cmd))%N →
  rep (with_uncompacted (λ _, unc) (with_index (λ _, idx) (wrote cmd s)))
      (append (wr_ino (writer s)) (to_writer cmd) d) C'.
Proof.
  intros Hr Hcs C' Hidx Hacc.
  assert (enc C !! current_gen s = Some (encode_log cs)) as Hce by (by rewrite lookup_fmap, Hcs).
  destruct (append_log d (enc C) (rep_wf _ _ _ Hr) (rep_view _ _ _ Hr) _ _ _ (to_writer cmd)
    (rep_writer _ _ _ Hr) Hce) as [Hwf Hlv].
  assert (enc C' = <[current_gen s := encode_log cs ++ to_writer cmd]> (enc C)) as HC'.
  { unfold C'. by rewrite fmap_insert, encode_log_app, encode_log_one. }
  destruct Hr as [_ _ _ Hrd Hh Hw Hf (cs' & Hcs' & Hpos) Hnew _].
  rewrite Hcs in Hcs'. injection Hcs' as <-.
  split; simpl.
  - done.
  - by rewrite HC'.
  - unfold meaning, C'. rewrite all_cmds_append, replay_app by done. exact Hidx.
  - rewrite Hrd. unfold C'. rewrite dom_insert_L. apply elem_of_dom_2 in Hcs. set_solver.
  - exact Hh.
  - exact Hw.
  - done.
  - exists (cs ++ [cmd]). unfold C'. rewrite lookup_insert_eq. split; [done|].
    by rewrite Hpos, encode_log_app, encode_log_one, blen_app.
  - intros g. unfold C'. rewrite lookup_insert. case_decide; [lia|apply Hnew].
  - by rewrite HC', (total_append _ _ _ _ Hce).
Qed.

(** The index entries survive a write to the newest log. *)
Lemma index_ok_wrote s C cs cmd idx m : C !! current_gen s = Some cs →
  index_ok (enc C) idx m →
  index_ok (enc (<[current_gen s := cs ++ [cmd]]> C)) idx m.
Proof.
  intros Hcs Hok. eapply index_ok_mono; [exact Hok|]. intros k p c _.
  rewrite fmap_insert, lookup_insert, !lookup_fmap. case_decide as Hg.
  - rewrite <-Hg, Hcs. simpl. intros ?; simplify_eq.
    exists (to_writer cmd). by rewrite encode_log_app, encode_log_one.
  - intros ->. exists []. by rewrite app_nil_r.
Qed.

(** *** get *)

Lemma KvStore_get_ok s d C k : rep s d C →
  ∃ s', KvStore_get (E:=E) k (s, d) = (Ok (meaning C !! k), (s', d)) ∧ rep s' d C
        ∧ current_gen s' = current_gen s.
Proof.
  intros Hr. unfold KvStore_get. mpure.
  destruct (index s !! k) as [p|] eqn:Hk.
  2:{ exists s. apply (index_ok_None _ _ _ _ (rep_index _ _ _ Hr)) in Hk. by rewrite Hk. }
  destruct (index_ok_lookup _ _ _ _ _ (rep_index _ _ _ Hr) Hk) as (v & Hv & c & Hc & Hb & Hsl).
  assert (is_Some (readers s !! gen p)) as [r Hrd].
  { apply elem_of_dom. rewrite (rep_readers _ _ _ Hr). apply elem_of_dom.
    rewrite lookup_fmap in Hc. by destruct (C !! gen p). }
  pose proof (rep_handles _ _ _ Hr _ _ Hrd) as Hh.
  pose proof (content_names d (enc C) (rep_view _ _ _ Hr) _ _ _ Hh Hc) as Hcont.
  rewrite (bind_ok _ _ _ r (s, d)).
  2:{ unfold self, gets, mbind, M_bind; simpl. by rewrite Hrd. }
  mpure. unfold reader_take; simpl. rewrite Hcont, Hsl, from_to, Hv.
  eexists. split; [reflexivity|]. split; [|done].
  destruct Hr. split; simpl; try done.
  - rewrite dom_insert_L. apply elem_of_dom_2 in Hrd. set_solver.
  - intros g r'. rewrite lookup_insert. case_decide; [|naive_solver].
    intros. by simplify_eq.
Qed.

(** *** compact *)

(** The fields [compact_loop] leaves alone. *)
Definition same_rest (s s' : KvStore) : Prop :=
  writer s' = writer s ∧ current_gen s' = current_gen s.

Definition readers_ok (s : KvStore) (d : Disk) (C : gmap N (list Command)) : Prop :=
  dom (readers s) = dom C ∧ ∀ g r, readers s !! g = Some r → names d g (rd_ino r).

Lemma readers_ok_update s d C g r r' : readers_ok s d C → readers s !! g = Some r →
  rd_ino r' = rd_ino r → readers_ok (with_readers <[g := r']> s) d C.
Proof.
  intros [Hdom Hh] Hg Hi. split; simpl.
  - rewrite dom_insert_L, Hdom. apply elem_of_dom_2 in Hg. set_solver.
  - intros g' r''. rewrite lookup_insert. case_decide; [|apply Hh].
    intros; simplify_eq. rewrite Hi. by apply Hh.
Qed.

(** Copying the entries of [keys] behind what [w] has buffered: the copied
    entries move to the compaction log [cg], the others stay where they are. *)
Lemma compact_loop_ok d C cg m keys s w :
  disk_ok d C → NoDup keys →
  index_ok (<[cg := wr_buf w]> (enc C)) (index s) m →
  (∀ k, k ∈ keys → ∃ p, index s !! k = Some p ∧ gen p ≠ cg) →
  readers_ok s d C →
  ∃ s' w', compact_loop (E:=E) keys cg w (blen (wr_buf w)) (s, d) = (Ok w', (s', d))
    ∧ wr_ino w' = wr_ino w
    ∧ wr_buf w' = wr_buf w ++ encode_log (set_cmds m keys)
    ∧ index_ok (<[cg := wr_buf w']> (enc C)) (index s') m
    ∧ (∀ k p, index s' !! k = Some p →
         (k ∈ keys ∧ gen p = cg) ∨ ((k ∉ keys) ∧ index s !! k = Some p))
    ∧ readers_ok s' d C ∧ same_rest s s'.
Proof.
  intros Hd. revert s w. induction keys as [|k keys IH]; intros s w Hnd Hok Hkeys Hrd.
  { exists s, w. split_and!; try done.
    - change (encode_log _) with (@nil byte). by rewrite app_nil_r.
    - right. split; [apply not_elem_of_nil|done]. }
  apply NoDup_cons in Hnd as [Hk Hnd].
  destruct (Hkeys k ltac:(set_solver)) as (p & Hp & Hgen).
  destruct (index_ok_lookup _ _ _ _ _ Hok Hp) as (v & Hv & c & Hc & Hb & Hsl).
  rewrite lookup_insert_ne in Hc by done.
  assert (is_Some (readers s !! gen p)) as [r Hr].
  { apply elem_of_dom. rewrite (proj1 Hrd). apply elem_of_dom.
    rewrite lookup_fmap in Hc. by destruct (C !! gen p). }
  assert (content d (rd_ino r) = c) as Hcont.
  { by eapply content_names; [apply Hd|apply Hrd|]. }
  set (cmd := Command_Set k v) in *.
  set (w1 := writer_write w (to_writer cmd)).
  set (p1 := CommandPos_from cg (blen (wr_buf w)) (blen (wr_buf w) + blen (to_writer cmd))).
  set (r1 := mkReader (rd_ino r) (pos p + blen (to_writer cmd))).
  set (s1 := with_index <[k := p1]> (with_readers <[gen p := r1]> s)).
  assert (wr_buf w1 = wr_buf w ++ to_writer cmd) as Hw1 by done.
  destruct (IH s1 w1) as (s' & w' & Hrun & Hino & Hbuf & Hok' & Hfrom & Hrd' & Hrest).
  { done. }
  { rewrite <-(insert_id m k v) by done. apply index_ok_insert.
    - eapply index_ok_mono; [exact Hok|]. intros k' p' c' _.
      rewrite !lookup_insert, Hw1. case_decide; intros; simplify_eq; [eauto|].
      exists []. by rewrite app_nil_r.
    - apply (CommandPos_from_here cg _ k v (wr_buf w) []).
      by rewrite lookup_insert_eq, app_nil_r. }
  { intros k' Hk'. destruct (Hkeys k' ltac:(set_solver)) as (p' & Hp' & Hg').
    exists p'. split; [|done]. simpl. rewrite lookup_insert_ne; [done|]. by intros <-. }
  { by eapply (readers_ok_update s d C _ r). }
  exists s', w'. split_and!; try done.
  - cbn [compact_loop]. erewrite bind_ok.
    2:{ unfold self, gets, mbind, M_bind; simpl. by rewrite Hp. }
    erewrite bind_ok.
    2:{ unfold self, gets, mbind, M_bind; simpl. by rewrite Hr. }
    assert (reader_take (if decide (rd_pos r = pos p) then r else reader_seek r (pos p))
              (len p) d = (to_writer cmd, r1)) as Htake.
    { unfold reader_take, r1. rewrite <-Hsl, <-Hcont.
      case_decide as Hpos; simpl; rewrite ?Hpos; done. }
    mpure. rewrite Htake. mpure. rewrite <-Hrun, Hw1, blen_app. done.
  - rewrite Hbuf, Hw1, <-app_assoc. f_equal. simpl. rewrite Hv.
    change (?x :: ?l) with ([x] ++ l). by rewrite encode_log_app, encode_log_one.
  - intros k' p' [[Hin Hg]|[Hnin Hs1]]%Hfrom; [left; set_solver|].
    simpl in Hs1. rewrite lookup_insert in Hs1. case_decide.
    + simplify_eq. left. split; [set_solver|done].
    + right. set_solver.
Qed.

Lemma remove_stale_ok gs s d C : disk_ok d C → NoDup gs →
  (∀ g, g ∈ gs → is_Some (C !! g)) →
  ∃ d', remove_stale (E:=E) gs (s, d) = (Ok tt, (with_readers (remove_gens gs) s, d'))
    ∧ disk_ok d' (remove_gens gs C)
    ∧ (∀ g h, g ∉ gs → names d g h → names d' g h).
Proof.
  revert s d C. induction gs as [|g gs IH]; intros s d C Hd Hnd Hin.
  { exists d. split_and!; try done. by destruct s. }
  apply NoDup_cons in Hnd as [Hg Hnd]. destruct (Hin g ltac:(set_solver)) as [cs Hcs].
  destruct (remove_file_log d (enc C) (ok_wf _ _ Hd) (ok_view _ _ Hd) g (encode_log cs))
    as (d1 & Hrm & Hwf & Hlv & Hn & _); [by rewrite lookup_fmap, Hcs|].
  destruct (IH (with_readers (delete g) s) d1 (delete g C)) as (d' & Hrun & Hd' & Hn').
  { split; [done|]. by rewrite fmap_delete. }
  { done. }
  { intros g' Hg'. rewrite lookup_delete_ne by (by intros <-). apply Hin. set_solver. }
  exists d'. split_and!; try done.
  - cbn [remove_stale]. erewrite bind_ok by reflexivity.
    erewrite bind_ok; [|apply on_snd_ok, question_ok, Hrm]. exact Hrun.
  - intros g' h Hg' Hh. apply Hn'; [set_solver|]. apply Hn; [set_solver|done].
Qed.

(** [self.new_log_file] on a store whose readers match its logs. *)
Lemma self_new_log_file_ok s d C g : disk_ok d C → readers_ok s d C →
  (g <= U64_MAX)%N → C !! g = None →
  ∃ d' h, self_new_log_file (E:=E) g (s, d)
      = (Ok (BufWriterWithPos_new h), (with_readers <[g := BufReaderWithPos_new h]> s, d'))
    ∧ disk_ok d' (<[g := []]> C)
    ∧ readers_ok (with_readers <[g := BufReaderWithPos_new h]> s) d' (<[g := []]> C)
    ∧ names d' g h ∧ (∀ g' h', names d g' h' → names d' g' h').
Proof.
  intros Hd [Hdom Hh] Hb Hg.
  destruct (new_log_file_ok d C g (readers s) Hd Hb Hg) as (d' & h & Hnf & Hd' & Hn & Hnames).
  exists d', h. split_and!; try done.
  - unfold self_new_log_file. mpure. by erewrite bind_ok by (apply on_snd_ok, Hnf).
  - split; simpl; [by rewrite !dom_insert_L, Hdom|].
    intros g' r. rewrite lookup_insert. case_decide.
    + intros. by simplify_eq.
    + intros Hr. by apply Hnames, Hh.
Qed.

Lemma elem_of_btree_keys {A} (m : gmap string A) k : k ∈ btree_keys m ↔ is_Some (m !! k).
Proof. unfold btree_keys. rewrite merge_sort_Permutation. apply elem_of_map_keys. Qed.

Lemma NoDup_btree_keys {A} (m : gmap string A) : NoDup (btree_keys m).
Proof. unfold btree_keys. rewrite merge_sort_Permutation. apply NoDup_fst_map_to_list. Qed.

Lemma btree_keys_perm {A B} (m : gmap string A) (m' : gmap string B) :
  (∀ k, k ∈ btree_keys m ↔ is_Some (m' !! k)) → btree_keys m ≡ₚ (map_to_list m').*1.
Proof.
  intros Hk. apply NoDup_Permutation; [apply NoDup_btree_keys|apply NoDup_fst_map_to_list|].
  intros k. by rewrite Hk, elem_of_map_keys.
Qed.

(** The logs a compaction leaves: the compacted one and a new empty one. *)
Definition compacted (C : gmap N (list Command)) (cur : N) (keys : list string) :
    gmap N (list Command) :=
  <[(cur + 2)%N := []]> {[ (cur + 1)%N := set_cmds (meaning C) keys ]}.

Lemma meaning_compacted C cur keys : (∀ k, k ∈ keys ↔ is_Some (meaning C !! k)) →
  meaning (compacted C cur keys) = meaning C.
Proof.
  intros Hk. unfold compacted. unfold meaning at 1.
  rewrite all_cmds_new, app_nil_r; last first.
  { intros g [? [<- _]%lookup_singleton_Some]. lia. }
  rewrite <-insert_empty, all_cmds_new by (intros g; rewrite lookup_empty; by intros [? ?]).
  unfold all_cmds at 1. rewrite gens_empty. simpl. by apply replay_compacted.
Qed.

Lemma gens_compacted C cur keys : gens (compacted C cur keys) = [(cur + 1)%N; (cur + 2)%N].
Proof.
  symmetry. apply gens_unique.
  - repeat constructor; rewrite ?list_elem_of_singleton; [lia|set_solver].
  - repeat constructor. lia.
  - intros g. unfold compacted. rewrite <-insert_empty, !lookup_insert, lookup_empty.
    rewrite !elem_of_cons, elem_of_nil.
    repeat case_decide; subst; split; (by eauto) || (intros; naive_solver lia).
Qed.

Lemma total_compacted C cur keys :
  total (enc (compacted C cur keys)) = blen (encode_log (set_cmds (meaning C) keys)).
Proof.
  unfold compacted. rewrite fmap_insert, map_fmap_singleton.
  rewrite total_insert by (by rewrite lookup_singleton_ne by lia).
  rewrite <-insert_empty, total_insert, total_empty by apply lookup_empty.
  change (encode_log []) with (@nil byte). rewrite blen_nil. lia.
Qed.

Context (hash_order : list N → list N) (Hhash : ∀ l, hash_order l ≡ₚ l).

(** The state before the stale logs are removed: everything is copied. *)
Lemma compact_copy_ok s d C : rep s d C → (current_gen s + 2 <= U64_MAX)%N →
  let cur := current_gen s in
  let keys := btree_keys (index s) in
  let C3 := <[(cur + 1)%N := set_cmds (meaning C) keys]> (<[(cur + 2)%N := []]> C) in
  ∃ s3 d3, compact_copy (E:=E) hash_order (s, d)
      = (Ok (filter (λ g, (g < cur + 1)%N) (hash_order (map_to_list (readers s3)).*1)), (s3, d3))
    ∧ disk_ok d3 C3 ∧ readers_ok s3 d3 C3
    ∧ index_ok (enc C3) (index s3) (meaning C)
    ∧ (∀ k p, index s3 !! k = Some p → gen p = (cur + 1)%N)
    ∧ current_gen s3 = (cur + 2)%N
    ∧ ∃ h, writer s3 = BufWriterWithPos_new h ∧ names d3 (cur + 2)%N h.
Proof.
  intros Hr Hb cur keys C3.
  assert (∀ g, (cur < g)%N → C !! g = None) as Hnew.
  { intros g Hg. apply eq_None_not_Some. intros H%(rep_newest _ _ _ Hr). lia. }
  set (s0 := with_gen (cur + 2) s).
  destruct (self_new_log_file_ok s0 d C (cur + 2) (rep_disk_ok _ _ _ Hr))
    as (d1 & h1 & Hnf1 & Hd1 & Hr1 & Hn1 & Hnames1); [by split; apply Hr|done|by apply Hnew; lia|].
  set (C1 := <[(cur + 2)%N := []]> C) in *.
  set (s1 := with_writer (BufWriterWithPos_new h1)
               (with_readers <[(cur + 2)%N := BufReaderWithPos_new h1]> s0)).
  destruct (self_new_log_file_ok s1 d1 C1 (cur + 1) Hd1 Hr1)
    as (d2 & h2 & Hnf2 & Hd2 & Hr2 & Hn2 & Hnames2); [lia| |].
  { unfold C1. rewrite lookup_insert_ne by lia. apply Hnew. lia. }
  set (C2 := <[(cur + 1)%N := []]> C1) in *.
  set (s2 := with_readers <[(cur + 1)%N := BufReaderWithPos_new h2]> s1) in *.
  assert (∀ k p, index s !! k = Some p → ∃ cs, C !! gen p = Some cs) as Hgens.
  { intros k p Hp. destruct (index_ok_lookup _ _ _ _ _ (rep_index _ _ _ Hr) Hp)
      as (v & _ & c & Hc & _). rewrite lookup_fmap in Hc. destruct (C !! gen p); eauto. done. }
  destruct (compact_loop_ok d2 C2 (cur + 1) (meaning C) keys s2 (BufWriterWithPos_new h2) Hd2)
    as (s3 & w3 & Hrun & Hino & Hbuf & Hok3 & Hfrom & Hr3 & Hw3 & Hc3).
  { apply NoDup_btree_keys. }
  { simpl. eapply index_ok_mono; [apply Hr|]. intros k p c Hp Hc. exists [].
    destruct (Hgens k p Hp) as [cs Hcs].
    assert (gen p <= cur)%N by (apply (rep_newest _ _ _ Hr); eauto).
    unfold C2, C1. rewrite app_nil_r, !fmap_insert, !lookup_insert_ne by lia. done. }
  { intros k Hk%elem_of_btree_keys. destruct Hk as [p Hp]. exists p. split; [done|].
    destruct (Hgens k p Hp) as [cs Hcs].
    assert (gen p <= cur)%N by (apply (rep_newest _ _ _ Hr); eauto). lia. }
  { done. }
  simpl in Hbuf.
  destruct (append_log d2 (enc C2) (ok_wf _ _ Hd2) (ok_view _ _ Hd2) (cur + 1) h2 [] (wr_buf w3))
    as [Hwf3 Hlv3]; [done|by unfold C2; rewrite lookup_fmap, lookup_insert_eq|].
  assert (enc C3 = <[(cur + 1)%N := wr_buf w3]> (enc C2)) as HC3.
  { unfold C3, C2. rewrite !fmap_insert, insert_insert_eq, Hbuf. done. }
  assert (dom C3 = dom C2) as Hdom by (unfold C3, C2; by rewrite !dom_insert_L).
  exists s3, (append h2 (wr_buf w3) d2). split_and!.
  - unfold compact_copy. mpure.
    erewrite bind_ok by (apply u64_add_ok; lia). erewrite bind_ok by (apply u64_add_ok; lia).
    mpure. erewrite bind_ok by exact Hnf1. mpure. erewrite bind_ok by exact Hnf2. mpure.
    erewrite bind_ok by exact Hrun. mpure. unfold writer_flush. rewrite Hino. done.
  - split; [done|]. by rewrite HC3.
  - destruct Hr3 as [Hrd Hh]. split; [by rewrite Hdom|]. exact Hh.
  - by rewrite HC3.
  - intros k p Hp. destruct (Hfrom k p Hp) as [[_ Hg]|[Hk Hp']]; [done|].
    destruct Hk. apply elem_of_btree_keys. eauto.
  - by rewrite Hc3.
  - exists h1. rewrite Hw3. split; [done|]. by apply Hnames2.
Qed.

(** The stale generations are exactly the logs there were before. *)
Lemma stale_gens_ok s3 d3 C C3 cur cmds :
  C3 = <[(cur + 1)%N := cmds]> (<[(cur + 2)%N := []]> C) →
  (∀ g, is_Some (C !! g) → (g <= cur)%N) → readers_ok s3 d3 C3 →
  let stale := filter (λ g, (g < cur + 1)%N) (hash_order (map_to_list (readers s3)).*1) in
  NoDup stale ∧ (∀ g, g ∈ stale → is_Some (C3 !! g))
  ∧ remove_gens stale C3 = <[(cur + 2)%N := []]> {[ (cur + 1)%N := cmds ]}.
Proof.
  intros -> Hnew [Hdom _] stale.
  assert (∀ g, g ∈ stale ↔ is_Some (C !! g)) as Hin.
  { intros g. unfold stale. rewrite list_elem_of_filter, Hhash.
    rewrite elem_of_map_keys, <-elem_of_dom, Hdom, elem_of_dom, !lookup_insert. split.
    - intros [Hlt Hg]. repeat case_decide; [lia|lia|done].
    - intros Hg. pose proof (Hnew g Hg). split; [lia|].
      by rewrite !decide_False by lia. }
  split_and!.
  - apply NoDup_filter. rewrite Hhash. apply NoDup_fst_map_to_list.
  - intros g Hg%Hin. pose proof (Hnew g Hg). by rewrite !lookup_insert_ne by lia.
  - apply map_eq. intros g. rewrite lookup_remove_gens. case_decide as Hg.
    + apply Hin in Hg. pose proof (Hnew g Hg).
      by rewrite lookup_insert_ne, lookup_singleton_ne by lia.
    + rewrite <-insert_empty, !lookup_insert, lookup_empty.
      repeat case_decide; try lia; try done.
      apply eq_None_not_Some. by rewrite <-Hin.
Qed.

(** Compaction keeps the meaning and leaves no stale byte behind. *)
Lemma compact_ok s d C : rep s d C → (current_gen s + 2 <= U64_MAX)%N →
  ∃ s' d', compact (E:=E) hash_order (s, d) = (Ok tt, (s', d'))
    ∧ rep s' d' (compacted C (current_gen s) (btree_keys (index s)))
    ∧ current_gen s' = (current_gen s + 2)%N
    ∧ uncompacted s' = 0%N.
Proof.
  intros Hr Hb.
  destruct (compact_copy_ok s d C Hr Hb)
    as (s3 & d3 & Hrun & Hd3 & Hr3 & Hok3 & Hcg & Hc3 & h & Hw3 & Hn3).
  set (cur := current_gen s) in *. set (keys := btree_keys (index s)) in *.
  set (cmds := set_cmds (meaning C) keys) in *.
  destruct (stale_gens_ok s3 d3 C _ cur cmds eq_refl (rep_newest _ _ _ Hr) Hr3)
    as (Hnd & Hin & HC4).
  set (stale := filter _ _) in *.
  destruct (remove_stale_ok stale s3 d3 _ Hd3 Hnd Hin) as (d4 & Hrm & Hd4 & Hn4).
  assert (∀ g, g ∈ stale → (g <= cur)%N) as Hstale.
  { intros g [Hg _]%list_elem_of_filter. lia. }
  assert (∀ k, k ∈ keys ↔ is_Some (meaning C !! k)) as Hkeys.
  { intros k. unfold keys. rewrite elem_of_btree_keys. by eapply index_ok_dom, Hr. }
  fold cmds in HC4. rewrite HC4 in Hd4. fold (compacted C cur keys) in Hd4.
  eexists _, d4. split_and!.
  - unfold compact. erewrite bind_ok by exact Hrun.
    erewrite bind_ok by exact Hrm. reflexivity.
  - split; simpl; try done; try apply Hd4.
    + rewrite meaning_compacted by done. eapply index_ok_mono; [exact Hok3|].
      intros k p c Hp Hc. exists []. rewrite app_nil_r. rewrite <-Hc, (Hcg _ _ Hp).
      unfold compacted. rewrite !fmap_insert, lookup_insert_ne by lia.
      by rewrite map_fmap_singleton, lookup_singleton_eq, lookup_insert_eq.
    + unfold compacted. fold cmds. rewrite <-HC4, !dom_remove_gens. by rewrite (proj1 Hr3).
    + intros g r. rewrite lookup_remove_gens. case_decide as Hg; [done|].
      intros Hgr. apply Hn4; [done|]. by apply Hr3.
    + rewrite Hc3, Hw3. apply Hn4; [|done]. intros H%Hstale. lia.
    + by rewrite Hw3.
    + exists []. rewrite Hc3, Hw3. unfold compacted. by rewrite lookup_insert_eq.
    + intros g. rewrite Hc3. unfold compacted. rewrite lookup_insert. case_decide; [lia|].
      intros [? [<- _]%lookup_singleton_Some]. lia.
    + rewrite total_compacted, (live_compacted _ _ _ keys Hok3); [lia|].
      apply btree_keys_perm. intros k. fold keys. rewrite Hkeys. symmetry. by eapply index_ok_dom.
  - done.
  - done.
Qed.

(** *** set and remove *)

(** The store after [set] has written and indexed the command. *)
Definition after_set (k v : string) (s : KvStore) : KvStore :=
  let cmd := Command_Set k v in
  let p := wr_pos (writer s) in
  with_uncompacted (λ _, uncompacted s + old_len (index s) k)%N
    (with_index (λ _, <[k := CommandPos_from (current_gen s) p (p + blen (to_writer cmd))]> (index s))
      (wrote cmd s)).

Lemma after_set_rep s d C cs k v : rep s d C → C !! current_gen s = Some cs →
  rep (after_set k v s) (append (wr_ino (writer s)) (to_writer (Command_Set k v)) d)
    (<[current_gen s := cs ++ [Command_Set k v]]> C).
Proof.
  intros Hr Hcs. apply rep_wrote; [done|done| |].
  - apply index_ok_insert; [by apply index_ok_wrote, Hr|].
    destruct (rep_pos _ _ _ Hr) as (cs' & Hcs' & ->). rewrite Hcs in Hcs'. injection Hcs' as <-.
    apply (CommandPos_from_here _ _ k v (encode_log cs) []).
    by rewrite lookup_fmap, lookup_insert_eq, app_nil_r; simpl; rewrite encode_log_app, encode_log_one.
  - pose proof (rep_account _ _ _ Hr) as Hacc.
    rewrite live_insert, CommandPos_from_len.
    unfold old_len. destruct (index s !! k) as [p|] eqn:Hk.
    + rewrite (live_delete _ _ _ Hk) in Hacc. lia.
    + rewrite live_delete_None by done. lia.
Qed.

Lemma meaning_append C g cs c : C !! g = Some cs → (∀ g', is_Some (C !! g') → (g' <= g)%N) →
  meaning (<[g := cs ++ [c]]> C) = apply_cmd (meaning C) c.
Proof. intros H1 H2. unfold meaning. by rewrite all_cmds_append, replay_app. Qed.

Lemma KvStore_set_run s d C k v : rep s d C →
  KvStore_set (E:=E) hash_order k v (s, d)
  = (if (COMPACTION_THRESHOLD <? uncompacted s + old_len (index s) k)%N
     then compact hash_order else mret tt)
    (after_set k v s, append (wr_ino (writer s)) (to_writer (Command_Set k v)) d).
Proof.
  intros Hr. unfold KvStore_set, Command_set. mpure.
  rewrite (bind_ok _ _ _ _ _ (write_command_ok _ _ _ _ Hr)). mpure.
  unfold after_set, old_len. cbn [index wrote with_writer].
  destruct (index s !! k) as [p|] eqn:Hk; mpure; [done|].
  by rewrite N.add_0_r.
Qed.

Lemma KvStore_set_ok s d C k v : rep s d C → (current_gen s + 2 <= U64_MAX)%N →
  ∃ s' d' C', KvStore_set (E:=E) hash_order k v (s, d) = (Ok tt, (s', d'))
    ∧ rep s' d' C' ∧ meaning C' = <[k := v]> (meaning C)
    ∧ (current_gen s' <= current_gen s + 2)%N.
Proof.
  intros Hr Hb. rewrite (KvStore_set_run _ _ _ _ _ Hr).
  destruct (rep_pos _ _ _ Hr) as (cs & Hcs & _).
  pose proof (after_set_rep s d C cs k v Hr Hcs) as Hr1.
  pose proof (meaning_append C _ cs (Command_Set k v) Hcs (rep_newest _ _ _ Hr)) as Hm.
  destruct (COMPACTION_THRESHOLD <? _)%N.
  - destruct (compact_ok _ _ _ Hr1) as (s' & d' & Hrun & Hr' & Hc & _); [done|].
    eexists s', d', _. rewrite meaning_compacted, Hm; [split_and!; [done..|by rewrite Hc]|].
    intros key. rewrite elem_of_btree_keys. by eapply index_ok_dom, Hr1.
  - eexists _, _, _. split_and!; [reflexivity|exact Hr1|done|simpl; lia].
Qed.

(** The store after [remove] of a key at [p]. *)
Definition after_remove (k : string) (p : CommandPos) (s : KvStore) : KvStore :=
  with_uncompacted (λ _, uncompacted s + len p)%N
    (with_index (λ _, delete k (index s)) (wrote (Command_Remove k) s)).

Lemma KvStore_remove_run s d C cs k v : rep s d C → meaning C !! k = Some v →
  C !! current_gen s = Some cs →
  ∃ p, index s !! k = Some p
    ∧ KvStore_remove (E:=E) k (s, d)
      = (Ok tt, (after_remove k p s, append (wr_ino (writer s)) (to_writer (Command_Remove k)) d))
    ∧ rep (after_remove k p s) (append (wr_ino (writer s)) (to_writer (Command_Remove k)) d)
        (<[current_gen s := cs ++ [Command_Remove k]]> C).
Proof.
  intros Hr Hk Hcs. assert (is_Some (index s !! k)) as [p Hp].
  { eapply index_ok_dom; [apply Hr|]. eauto. }
  exists p. split_and!; [done|..].
  - unfold KvStore_remove, Command_remove. mpure. rewrite Hp.
    rewrite (bind_ok _ _ _ _ _ (write_command_ok _ _ _ _ Hr)).
    erewrite bind_ok.
    2:{ unfold self, gets, mbind, M_bind; simpl. by rewrite Hp. }
    mpure. reflexivity.
  - apply (rep_wrote s d C cs (Command_Remove k) (delete k (index s))
      (uncompacted s + len p)%N Hr Hcs).
    + by apply index_ok_delete, index_ok_wrote, Hr.
    + pose proof (rep_account _ _ _ Hr) as Hacc. rewrite (live_delete _ _ _ Hp) in Hacc. lia.
Qed.

Lemma KvStore_remove_ok s d C k v : rep s d C → meaning C !! k = Some v →
  ∃ s' d' C', KvStore_remove (E:=E) k (s, d) = (Ok tt, (s', d'))
    ∧ rep s' d' C' ∧ meaning C' = delete k (meaning C)
    ∧ current_gen s' = current_gen s.
Proof.
  intros Hr Hk. destruct (rep_pos _ _ _ Hr) as (cs & Hcs & _).
  destruct (KvStore_remove_run s d C cs k v Hr Hk Hcs) as (p & _ & Hrun & Hr').
  eexists _, _, _. split_and!; [exact Hrun|exact Hr'|by rewrite (meaning_append C _ cs) by (done || apply Hr)|done].
Qed.

Lemma KvStore_remove_missing s d C k : rep s d C → meaning C !! k = None →
  KvStore_remove (E:=E) k (s, d) = (Err key_not_found, (s, d)).
Proof.
  intros Hr Hk. apply (index_ok_None _ _ _ _ (rep_index _ _ _ Hr)) in Hk.
  unfold KvStore_remove. mpure. by rewrite Hk.
Qed.

(** ** The store as an engine *)

#[local] Instance KvStore_engine : KvsEngine E (KvStore * Disk) := {
  set := KvStore_set hash_order;
  get := KvStore_get;
  remove := KvStore_remove;
}.

Definition KvStore_engine_rep (n : nat) (sd : KvStore * Disk) (m : kvmap) : Prop :=
  ∃ C, rep sd.1 sd.2 C ∧ meaning C = m ∧ (current_gen sd.1 + 2 * N.of_nat n <= U64_MAX)%N.

#[local] Program Instance KvStore_engine_spec : KvsEngineSpec E (KvStore * Disk) := {
  engine_rep := KvStore_engine_rep;
  engine_key_not_found := key_not_found;
}.
Next Obligation.
  intros n [s d] m (C & Hr & Hm & Hb). exists C. split_and!; [done..|]. simpl in *. lia.
Qed.
Next Obligation.
  intros n [s d] m k v (C & Hr & <- & Hb). simpl in *.
  destruct (KvStore_set_ok s d C k v Hr) as (s' & d' & C' & Hrun & Hr' & Hm & Hc); [lia|].
  exists (s', d'). split; [done|]. exists C'. split_and!; [done..|]. simpl. lia.
Qed.
Next Obligation.
  intros n [s d] m k (C & Hr & <- & Hb). simpl in *.
  destruct (KvStore_get_ok s d C k Hr) as (s' & Hrun & Hr' & Hc).
  exists (s', d). split; [done|]. exists C. split_and!; [done..|]. simpl. lia.
Qed.
Next Obligation.
  intros n [s d] m k v (C & Hr & <- & Hb) Hk. simpl in *.
  destruct (KvStore_remove_ok s d C k v Hr Hk) as (s' & d' & C' & Hrun & Hr' & Hm & Hc).
  exists (s', d'). split; [done|]. exists C'. split_and!; [done..|]. simpl. lia.
Qed.
Next Obligation.
  intros n [s d] m k (C & Hr & <- & Hb) Hk. simpl in *.
  exists (s, d). split; [by eapply KvStore_remove_missing|]. by exists C.
Qed.

(** ** Sessions: open the directory, run operations, drop the store *)

Definition run_session (os : list Op) : M E Disk (list (Reply E)) :=
  s ← KvStore_open;
  (λ d, let '(r, (_, d')) := engine_run os (s, d) in (r, d')) : M E Disk _.

Fixpoint run_sessions (ss : list (list Op)) : M E Disk (list (list (Reply E))) :=
  match ss with
  | [] => mret []
  | os :: ss' => rs ← run_session os; rss ← run_sessions ss'; mret (rs :: rss)
  end.

(** What the sessions answer when the map is kept from one to the next. *)
Fixpoint spec_sessions (m : kvmap) (ss : list (list Op)) : list (list (Reply E)) * kvmap :=
  match ss with
  | [] => ([], m)
  | os :: ss' => let '(rs, m') := spec_run key_not_found m os in
                 let '(rss, m'') := spec_sessions m' ss' in (rs :: rss, m'')
  end.

(** A directory with room for [n] opens or writes. *)
Definition disk_rep (n : nat) (d : Disk) (m : kvmap) : Prop :=
  ∃ C, disk_ok d C ∧ meaning C = m ∧ (default 0 (last (gens C)) + 2 * N.of_nat n <= U64_MAX)%N.

(** Opens and operations of the sessions. *)
Definition sessions_cost (ss : list (list Op)) : nat := sum_list_with (λ os, S (length os)) ss.

Lemma rep_disk_rep n s d m : KvStore_engine_rep n (s, d) m → disk_rep n d m.
Proof.
  intros (C & Hr & Hm & Hb). exists C. split_and!; [by eapply rep_disk_ok|done|].
  simpl in *. destruct (last (gens C)) as [g|] eqn:El; simpl; [|lia].
  apply gens_last_max in El as [Hg _]. pose proof (rep_newest _ _ _ Hr g Hg). lia.
Qed.

Lemma open_engine_rep n d m : disk_rep (S n) d m →
  ∃ s d', KvStore_open (E:=E) d = (Ok s, d') ∧ KvStore_engine_rep n (s, d') m.
Proof.
  intros (C & Hd & <- & Hb).
  destruct (KvStore_open_ok d C Hd) as (s & d' & Hopen & Hr & Hc & _); [lia|].
  exists s, d'. split; [done|]. eexists. split_and!; [exact Hr| |simpl; lia].
  unfold meaning. rewrite all_cmds_new, app_nil_r; [done|].
  rewrite Hc. apply next_gen_above.
Qed.

Lemma run_session_ok os n d m : disk_rep (S (length os) + n) d m →
  ∃ d', run_session os d = (Ok (spec_run key_not_found m os).1, d')
        ∧ disk_rep n d' (spec_run (key_not_found (E:=E)) m os).2.
Proof.
  intros Hd. destruct (open_engine_rep _ d m Hd) as (s & d1 & Hopen & Hr).
  destruct (engine_run_refines os n (s, d1) m) as ([s2 d2] & Hrun & Hr2); [exact Hr|].
  exists d2. split; [|by eapply rep_disk_rep].
  unfold run_session. rewrite (bind_ok _ _ _ _ _ Hopen), Hrun. done.
Qed.

Lemma run_sessions_ok ss n d m : disk_rep (sessions_cost ss + n) d m →
  ∃ d', run_sessions ss d = (Ok (spec_sessions m ss).1, d')
        ∧ disk_rep n d' (spec_sessions m ss).2.
Proof.
  revert d m. induction ss as [|os ss IH]; intros d m Hd; [eauto|].
  cbn [sessions_cost sum_list_with] in Hd.
  destruct (run_session_ok os (sessions_cost ss + n) d m) as (d1 & Hrun & Hd1).
  { by rewrite Nat.add_assoc. }
  cbn [run_sessions spec_sessions]. rewrite (bind_ok _ _ _ _ _ Hrun).
  destruct (spec_run key_not_found m os) as [rs m1]. simpl in Hd1.
  destruct (IH d1 m1 Hd1) as (d2 & Hrun2 & Hd2). rewrite (bind_ok _ _ _ _ _ Hrun2).
  destruct (spec_sessions m1 ss) as [rss m2]. eauto.
Qed.
End spec.
