(* ===== verification/KvCli.v ===== *)
(** * project-2: the store at its error type, and the [kvs] command line

    [P2] gives the functions of [project-2/src/kv.rs] their own error enum, and
    models [project-2/src/bin/kvs.rs]: every run of the program opens the
    directory, performs one operation and exits. *)

From S2P Require Import Prelude Fs Command KvsEngine LogTheory KvStore KvStoreSpec.

Module P2.
Section code.
Context `{!SerdeJson Command} (hash_order : list N → list N).

Abbreviation E := Project2.KvsError.

Definition open : M E Disk KvStore := KvStore_open.
Definition load : N → BufReaderWithPos → gmap string CommandPos → _ := KvStore.load (E:=E).
Definition new_log_file : N → gmap N BufReaderWithPos → _ := KvStore.new_log_file (E:=E).
Definition set : string → string → M E (KvStore * Disk) unit := KvStore_set hash_order.
Definition get : string → M E (KvStore * Disk) (option string) := KvStore_get.
Definition remove : string → M E (KvStore * Disk) unit := KvStore_remove.
Definition compact : M E (KvStore * Disk) unit := KvStore.compact hash_order.

(** The subcommands of the program. *)
Inductive Cli := CliSet (key value : string) | CliGet (key : string) | CliRm (key : string).

(** What a run prints to standard output and its exit status. A run whose
    [main] returns an error is an [Err]. *)
Record Run := mkRun { stdout : list string; status : N }.

(** Runs a method on a store just opened; the store is dropped at the end. *)
Definition with_store {A} (m : M E (KvStore * Disk) A) (s : KvStore) : M E Disk (outcome E A) :=
  λ d, let '(r, (_, d')) := m (s, d) in (Ok r, d').

Definition main (c : Cli) : M E Disk Run :=
  match c with
  | CliSet key value =>
      store ← open;
      r ← with_store (set key value) store;
      match r with
      | Ok _ => mret (mkRun [] 0)
      | Err e => throw e
      | Panic => panic
      | Diverge => diverge
      end
  | CliGet key =>
      store ← open;
      r ← with_store (get key) store;
      match r with
      | Ok (Some value) => mret (mkRun [value] 0)
      | Ok None => mret (mkRun ["Key not found"] 0)
      | Err e => throw e
      | Panic => panic
      | Diverge => diverge
      end
  | CliRm key =>
      store ← open;
      r ← with_store (remove key) store;
      match r with
      | Ok _ => mret (mkRun [] 0)
      | Err Project2.KeyNotFound => mret (mkRun ["Key not found"] 1)
      | Err e => throw e
      | Panic => panic
      | Diverge => diverge
      end
  end.

(** Runs of the program one after the other. *)
Fixpoint runs (cs : list Cli) : M E Disk (list Run) :=
  match cs with
  | [] => mret []
  | c :: cs' => r ← main c; rs ← runs cs'; mret (r :: rs)
  end.
End code.

(** ** What the program promises *)

Definition spec_main (m : kvmap) (c : Cli) : Run * kvmap :=
  match c with
  | CliSet key value => (mkRun [] 0, <[key := value]> m)
  | CliGet key => (mkRun [default "Key not found" (m !! key)] 0, m)
  | CliRm key => match m !! key with
                 | Some _ => (mkRun [] 0, delete key m)
                 | None => (mkRun ["Key not found"] 1, m)
                 end
  end.

Fixpoint spec_runs (m : kvmap) (cs : list Cli) : list Run * kvmap :=
  match cs with
  | [] => ([], m)
  | c :: cs' => let '(r, m') := spec_main m c in
                let '(rs, m'') := spec_runs m' cs' in (r :: rs, m'')
  end.

Section spec.
Context `{!SerdeJson Command} `{!SerdeLaws Command}.
Context (hash_order : list N → list N) (Hhash : ∀ l, hash_order l ≡ₚ l).

#[local] Definition spec2 := KvStore_engine_spec (E:=Project2.KvsError) hash_order Hhash.

(** One run costs two generation-number steps: one for [open], one for the
    compaction a [set] may start. *)
Lemma main_ok n d m c : disk_rep (2 + n) d m →
  ∃ d', main hash_order c d = (Ok (spec_main m c).1, d') ∧ disk_rep n d' (spec_main m c).2.
Proof.
  intros Hd. destruct (open_engine_rep (E:=Project2.KvsError) _ d m Hd) as (s & d1 & Hopen & Hr).
  assert (KvStore_engine_rep n (s, d1) m) as Hr0.
  { by apply (engine_rep_weaken (KvsEngineSpec:=spec2)). }
  destruct c as [k v|k|k]; cbn [main]; unfold open; rewrite (bind_ok _ _ _ _ _ Hopen).
  - destruct (engine_set (KvsEngineSpec:=spec2) n _ _ k v Hr)
      as ([s2 d2] & Hrun & Hr2).
    exists d2. split; [|exact (rep_disk_rep _ _ _ _ Hr2)].
    rewrite (bind_ok _ _ _ (Ok tt) d2); [done|]. unfold with_store, set.
    cbv [KvsEngine.set KvStore_engine] in Hrun. by rewrite Hrun.
  - destruct (engine_get (KvsEngineSpec:=spec2) n _ _ k Hr0)
      as ([s2 d2] & Hrun & Hr2).
    exists d2. split; [|exact (rep_disk_rep _ _ _ _ Hr2)].
    rewrite (bind_ok _ _ _ (Ok (m !! k)) d2); [simpl; by destruct (m !! k)|].
    unfold with_store, get.
    cbv [KvsEngine.get KvStore_engine] in Hrun. by rewrite Hrun.
  - simpl. destruct (m !! k) as [v|] eqn:Hk.
    + destruct (engine_remove (KvsEngineSpec:=spec2) n _ _ k v Hr Hk)
        as ([s2 d2] & Hrun & Hr2).
      exists d2. split; [|exact (rep_disk_rep _ _ _ _ Hr2)].
      rewrite (bind_ok _ _ _ (Ok tt) d2); [done|]. unfold with_store, remove.
    cbv [KvsEngine.remove KvStore_engine] in Hrun. by rewrite Hrun.
    + destruct (engine_remove_missing (KvsEngineSpec:=spec2)
        n _ _ k Hr0 Hk) as ([s2 d2] & Hrun & Hr2).
      exists d2. split; [|exact (rep_disk_rep _ _ _ _ Hr2)].
      rewrite (bind_ok _ _ _ (Err Project2.KeyNotFound) d2); [done|].
      unfold with_store, remove.
    cbv [KvsEngine.remove KvStore_engine] in Hrun. by rewrite Hrun.
Qed.

Lemma runs_ok cs n d m : disk_rep (2 * length cs + n) d m →
  ∃ d', runs hash_order cs d = (Ok (spec_runs m cs).1, d') ∧ disk_rep n d' (spec_runs m cs).2.
Proof.
  revert d m. induction cs as [|c cs IH]; intros d m Hd; [eauto|].
  destruct (main_ok (2 * length cs + n) d m c) as (d1 & Hrun & Hd1).
  { by replace (2 + (2 * length cs + n)) with (2 * length (c :: cs) + n) by (simpl; lia). }
  cbn [runs spec_runs]. rewrite (bind_ok _ _ _ _ _ Hrun).
  destruct (spec_main m c) as [r m1]. destruct (IH d1 m1 Hd1) as (d2 & Hrun2 & Hd2).
  rewrite (bind_ok _ _ _ _ _ Hrun2). destruct (spec_runs m1 cs). eauto.
Qed.
End spec.
End P2.
