(* ===== verification/KvTheorems.v ===== *)
(** * Theorems about the single-threaded log engine (project-2, project-3)

    What the store and its command line promise, with runs on concrete inputs
    that show the hypotheses can hold, and two places where the code does not do
    what it means to. *)

From S2P Require Import Prelude Fs Command Json KvsEngine LogTheory KvStore KvStoreSpec KvCli.

Lemma empty_disk_ok `{!SerdeJson Command} : disk_ok empty_disk ∅.
Proof. split; [apply empty_disk_wf|]. rewrite fmap_empty. apply empty_disk_view. Qed.

Lemma empty_disk_rep `{!SerdeJson Command} n :
  (2 * N.of_nat n <= U64_MAX)%N → disk_rep n empty_disk ∅.
Proof.
  intros Hn. exists ∅. split_and!; [apply empty_disk_ok|..].
  - unfold meaning, all_cmds. by rewrite gens_empty.
  - rewrite gens_empty. simpl. lia.
Qed.

(** ** Opening any directory *)

Section any_directory.
Context {E : Type} `{!StoreError E} `{!SerdeJson Command} `{!SerdeLaws Command}.

Lemma load_settled g r idx d : settled (load (E:=E) g r idx d).1 = true.
Proof.
  unfold load. pose proof (load_loop_terminates (E:=E) (S (length (content d (rd_ino r)))) g 0
    (content d (rd_ino r)) idx 0 ltac:(lia)) as Ht.
  pose proof (load_loop_no_panic (E:=E) (S (length (content d (rd_ino r)))) g 0
    (content d (rd_ino r)) idx 0) as Hp.
  by destruct (load_loop _ _ _ _ _ _) as [[]| | |].
Qed.

Lemma File_open_settled name d : settled (File_open name d).1 = true.
Proof. unfold File_open. by repeat case_match. Qed.

Lemma open_append_settled name d : settled (open_append name d).1 = true.
Proof. unfold open_append. by repeat case_match. Qed.

Lemma open_loop_settled gs rds idx unc d : settled (open_loop (E:=E) gs rds idx unc d).1 = true.
Proof.
  revert rds idx unc d. induction gs as [|g gs IH]; intros rds idx unc d; [done|].
  cbn [open_loop]. apply settled_bind; [apply settled_question, File_open_settled|].
  intros ino d1 _. apply settled_bind; [apply load_settled|]. intros [[]] ??. apply IH.
Qed.

(** A log that stops inside a command, as a crash during a write leaves it. *)
Definition torn (c : bytes) : Prop :=
  ∃ cs cmd b b', c = encode_log cs ++ b ∧ to_writer cmd = b ++ b' ∧ b ≠ [] ∧ b' ≠ [].

Definition whole (c : bytes) : Prop := ∃ cs, c = encode_log cs.

Lemma load_torn `{!SerdeTorn Command} g r idx d : torn (content d (rd_ino r)) →
  ∃ e, load (E:=E) g r idx d = (Err (from (E':=SerdeError) e), d).
Proof.
  intros (cs & cmd & b & b' & Hc & Hw & Hb & Hb'). unfold load. rewrite Hc.
  destruct (load_loop_torn (E:=E) (S (length (encode_log cs ++ b))) g 0 cs cmd b b' idx 0
    Hw Hb Hb' ltac:(lia)) as [e ->]. eauto.
Qed.

Lemma open_loop_torn `{!SerdeTorn Command} d L gs rds idx unc : log_view d L →
  (∀ g, g ∈ gs → ∃ c, L !! g = Some c ∧ (whole c ∨ torn c)) →
  (∃ g c, g ∈ gs ∧ L !! g = Some c ∧ torn c) →
  ∃ e, open_loop (E:=E) gs rds idx unc d = (Err (from (E':=SerdeError) e), d).
Proof.
  intros Hlv. revert rds idx unc.
  induction gs as [|g gs IH]; intros rds idx unc Hall (g0 & c0 & Hin & Hc0 & Ht0); [set_solver|].
  destruct (Hall g ltac:(set_solver)) as (c & Hc & Hk).
  destruct (File_open_log d L Hlv g c Hc) as (h & Hopen & Hh).
  pose proof (content_names d L Hlv g h c Hh Hc) as Hcont.
  cbn [open_loop]. rewrite (bind_ok _ _ _ _ _ (question_ok _ _ _ _ Hopen)).
  assert (torn c → ∃ e, (('(idx', n, reader) ← load (E:=E) g (BufReaderWithPos_new h) idx;
     open_loop gs (<[g:=reader]> rds) idx' (unc + n)) d) = (Err (from (E':=SerdeError) e), d)) as Htorn.
  { intros Ht. destruct (load_torn g (BufReaderWithPos_new h) idx d) as [e He]; [by simpl; rewrite Hcont|].
    exists e. by apply bind_err. }
  destruct Hk as [[cs ->]|Ht]; [|by apply Htorn].
  apply elem_of_cons in Hin as [->|Hin]; [rewrite Hc in Hc0; simplify_eq; by apply Htorn|].
  unfold load at 1. cbn [rd_ino BufReaderWithPos_new] in *. unfold mbind, M_bind.
  rewrite Hcont, load_loop_scan by lia. destruct (scan g 0 cs idx 0).
  apply IH; [intros; apply Hall; set_solver|eauto].
Qed.

(** C39: opening a directory always returns, whatever bytes its files hold: a
    store or an error, never a panic and never an endless loop, as long as there
    is a generation number left. *)
Theorem open_settles d : (default 0 (last (sorted_gen_list d)) < U64_MAX)%N →
  settled (KvStore_open (E:=E) d).1 = true.
Proof.
  intros Hb. unfold KvStore_open. mpure.
  apply settled_bind; [apply open_loop_settled|]. intros [[rds idx] unc] d1 _.
  erewrite bind_ok by (apply u64_add_ok; lia).
  apply settled_bind; [|by intros []].
  unfold new_log_file. apply settled_bind; [apply settled_question, open_append_settled|].
  intros ino d2 _. apply settled_bind; [apply settled_question, File_open_settled|done].
Qed.

(** One log that stops inside a command is enough to make [open] fail with
    a deserialization error, and the directory is left as it was: the engine
    has no recovery from a torn write. *)
Theorem open_torn_fails `{!SerdeTorn Command} d L : fs_wf d → log_view d L →
  (∀ g c, L !! g = Some c → whole c ∨ torn c) → (∃ g c, L !! g = Some c ∧ torn c) →
  ∃ e, KvStore_open (E:=E) d = (Err (from (E':=SerdeError) e), d).
Proof.
  intros Hwf Hlv Hall (g & c & Hg & Ht).
  destruct (open_loop_torn d L (gens L) ∅ ∅ 0 Hlv) as [e He].
  - intros g' [c' Hc']%elem_of_gens. eauto.
  - exists g, c. rewrite elem_of_gens. eauto.
  - exists e. unfold KvStore_open. mpure. rewrite (sorted_gen_list_view d L Hwf Hlv).
    by apply bind_err.
Qed.
End any_directory.

Section theorems.
Context {E : Type} `{!StoreError E} `{!SerdeJson Command} `{!SerdeLaws Command}.
Context (hash_order : list N → list N) (Hhash : ∀ l, hash_order l ≡ₚ l).

(** C1: sessions on a directory behave as one map. However often the store is
    opened, used and dropped, and whatever compactions happen on the way, every
    operation succeeds with the answer of a map from keys to values that lives
    across the sessions; [remove] of a missing key is the only error. The
    hypothesis bounds opens and operations by the generation numbers left. *)
Theorem sessions_refine ss d m : disk_rep (sessions_cost ss) d m →
  ∃ d', run_sessions (E:=E) hash_order ss d = (Ok (spec_sessions m ss).1, d')
        ∧ disk_rep 0 d' (spec_sessions (E:=E) m ss).2.
Proof using All.
  intros Hd. apply (run_sessions_ok hash_order Hhash). by rewrite Nat.add_0_r.
Qed.

(** C28: dropping a store and opening its directory gives the store back. The
    new store stands for the same map, its index is valid, and its count of
    stale bytes is exactly the bytes of the logs that no index entry keeps
    alive. *)
Theorem reopen_recovers s d C : rep s d C → (current_gen s < U64_MAX)%N →
  ∃ s' d' C', KvStore_open (E:=E) d = (Ok s', d') ∧ rep s' d' C'
    ∧ meaning C' = meaning C
    ∧ (uncompacted s' + live (index s') = total (encode_log <$> C'))%N.
Proof using All.
  intros Hr Hb. destruct (reopen_ok _ _ _ Hr Hb) as (s' & d' & Hopen & Hr' & Hm & _ & Hacc).
  eexists s', d', _. split_and!; [done|exact Hr'|done|done].
Qed.

(** C13: a compaction keeps the map and drops every stale byte. Afterwards the
    directory holds two logs, the compacted one and an empty one for new
    writes; their bytes are exactly the live ones, and the count of stale bytes
    is 0. *)
Theorem compact_preserves s d C : rep s d C → (current_gen s + 2 <= U64_MAX)%N →
  ∃ s' d' C', compact (E:=E) hash_order (s, d) = (Ok tt, (s', d')) ∧ rep s' d' C'
    ∧ meaning C' = meaning C ∧ uncompacted s' = 0%N
    ∧ gens C' = [(current_gen s + 1)%N; (current_gen s + 2)%N]
    ∧ total (encode_log <$> C') = live (index s').
Proof using All.
  intros Hr Hb. destruct (compact_ok hash_order Hhash s d C Hr Hb) as (s' & d' & Hrun & Hr' & Hc & Hu).
  assert (∀ k, k ∈ btree_keys (index s) ↔ is_Some (meaning C !! k)) as Hk.
  { intros k. rewrite elem_of_btree_keys. by eapply index_ok_dom, Hr. }
  exists s', d', (compacted C (current_gen s) (btree_keys (index s))). split_and!; [done|exact Hr'|by apply meaning_compacted|done|..].
  - by apply gens_compacted.
  - apply N.le_antisymm; [|pose proof (rep_account _ _ _ Hr'); lia].
    rewrite (live_compacted _ _ _ (btree_keys (index s)) (rep_index _ _ _ Hr')).
    + rewrite meaning_compacted, total_compacted by done. done.
    + apply btree_keys_perm. intros k. rewrite Hk.
      rewrite <-(meaning_compacted C (current_gen s) _ Hk). symmetry. by eapply index_ok_dom, Hr'.
Qed.

(** a [set] leaves at most [COMPACTION_THRESHOLD] stale bytes on the books:
    it either stayed below, or it compacted and the count is 0. *)
Theorem set_bounds_stale s d C k v : rep s d C → (current_gen s + 2 <= U64_MAX)%N →
  ∃ s' d' C', KvStore_set (E:=E) hash_order k v (s, d) = (Ok tt, (s', d'))
    ∧ rep s' d' C' ∧ meaning C' = <[k := v]> (meaning C)
    ∧ (uncompacted s' <= COMPACTION_THRESHOLD)%N.
Proof using All.
  intros Hr Hb. destruct (rep_pos _ _ _ Hr) as (cs & Hcs & _).
  destruct (KvStore_set_ok hash_order Hhash s d C k v Hr Hb) as (s' & d' & C' & Hrun & Hr' & Hm & _).
  exists s', d', C'. split_and!; [done..|].
  rewrite (KvStore_set_run hash_order _ _ _ _ _ Hr) in Hrun.
  destruct (N.ltb_spec COMPACTION_THRESHOLD (uncompacted s + old_len (index s) k)) as [Hlt|Hle].
  - pose proof (after_set_rep s d C cs k v Hr Hcs) as Hr1.
    destruct (compact_ok hash_order Hhash _ _ _ Hr1 Hb) as (s2 & d2 & Hrun2 & _ & _ & Hu).
    rewrite Hrun in Hrun2. simplify_eq. lia.
  - unfold mret, M_ret in Hrun. simplify_eq. exact Hle.
Qed.

(** Removing a missing key is the error [KeyNotFound] and touches neither
    the store nor the directory. *)
Theorem remove_missing_no_effect s d C k : rep s d C → meaning C !! k = None →
  KvStore_remove (E:=E) k (s, d) = (Err key_not_found, (s, d)).
Proof using All. apply KvStore_remove_missing. Qed.

(** [remove] does not count the bytes of the command it writes. It makes a
    log grow by them, yet the stale and live bytes on the books together stay
    as they were. *)
Theorem remove_unaccounted s d C k v : rep s d C → meaning C !! k = Some v →
  ∃ s' d' C', KvStore_remove (E:=E) k (s, d) = (Ok tt, (s', d')) ∧ rep s' d' C'
    ∧ (uncompacted s' + live (index s') = uncompacted s + live (index s))%N
    ∧ (total (encode_log <$> C') = total (encode_log <$> C) + blen (to_writer (Command_Remove k)))%N.
Proof using All.
  intros Hr Hk. destruct (rep_pos _ _ _ Hr) as (cs & Hcs & _).
  destruct (KvStore_remove_run s d C cs k v Hr Hk Hcs) as (p & Hp & Hrun & Hr').
  eexists _, _, _. split_and!; [exact Hrun|exact Hr'|..].
  - simpl. rewrite (live_delete _ _ _ Hp). lia.
  - by rewrite fmap_insert, encode_log_app, encode_log_one, (total_append _ _ (encode_log cs))
      by (by rewrite lookup_fmap, Hcs).
Qed.

(** the books a session keeps and those the next [open] makes differ by the
    [remove] commands. From a store with exact books, one [remove] and a reopen
    give a store with more stale bytes on its books than the running one had. *)
Theorem remove_reopen_disagree s d C k v : rep s d C → meaning C !! k = Some v →
  (current_gen s < U64_MAX)%N →
  (uncompacted s + live (index s) = total (encode_log <$> C))%N →
  ∃ s1 d1 s2 d2, KvStore_remove (E:=E) k (s, d) = (Ok tt, (s1, d1))
    ∧ KvStore_open (E:=E) d1 = (Ok s2, d2)
    ∧ (uncompacted s2 = uncompacted s1 + blen (to_writer (Command_Remove k)))%N.
Proof using All.
  intros Hr Hk Hb Hexact. destruct (rep_pos _ _ _ Hr) as (cs & Hcs & _).
  destruct (KvStore_remove_run s d C cs k v Hr Hk Hcs) as (p & Hp & Hrun & Hr').
  set (C1 := <[current_gen s := cs ++ [Command_Remove k]]> C) in *.
  destruct (reopen_ok _ _ _ Hr' Hb) as (s2 & d2 & Hopen & Hr2 & Hm & Ht & Hacc).
  eexists _, _, s2, d2. split_and!; [exact Hrun|exact Hopen|].
  rewrite Ht in Hacc. unfold C1 in Hacc.
  rewrite fmap_insert, encode_log_app, encode_log_one in Hacc.
  rewrite (total_append _ _ (encode_log cs)) in Hacc by (by rewrite lookup_fmap, Hcs).
  rewrite (live_index_unique _ _ _ _ _ _ (rep_index _ _ _ Hr2) (rep_index _ _ _ Hr') Hm) in Hacc.
  simpl in Hacc |- *. rewrite (live_delete _ _ _ Hp) in Hexact. lia.
Qed.
End theorems.

(** C31: runs of the project-2 program one after the other print and exit as one
    map that lives across the runs says: [get] prints the value or that the key
    is missing, [rm] of a missing key prints so and exits with 1. *)
Theorem cli_runs_refine `{!SerdeJson Command} `{!SerdeLaws Command}
    (hash_order : list N → list N) (Hhash : ∀ l, hash_order l ≡ₚ l) cs d m :
  disk_rep (2 * length cs) d m →
  ∃ d', P2.runs hash_order cs d = (Ok (P2.spec_runs m cs).1, d')
        ∧ disk_rep 0 d' (P2.spec_runs m cs).2.
Proof. intros Hd. apply (P2.runs_ok hash_order Hhash). by rewrite Nat.add_0_r. Qed.

(** ** A crash during a compaction *)

(** The directory a compaction leaves when the process dies after removing the
    first [n] stale logs. *)
Definition crash_in_compact `{!SerdeJson Command} (hash_order : list N → list N) (n : nat) :
    M KvsError (KvStore * Disk) unit :=
  stale_gens ← compact_copy hash_order;
  remove_stale (take n stale_gens).

(** Runs a method on a store and drops the store. *)
Definition within {A} (m : M KvsError (KvStore * Disk) A) (s : KvStore) : M KvsError Disk A :=
  λ d, let '(r, (_, d')) := m (s, d) in (r, d').

(** A store over two logs: the first sets a key, the second removes it. *)
Definition crash_ops : list (list Op) := [[OpSet "a" "1"]; [OpRemove "a"]].

(** Opens the directory left by a crash and reads a key. *)
Definition crash_then_get (hash_order : list N → list N) (n : nat) (k : string) :
    M KvsError Disk (option string) :=
  run_sessions (E:=KvsError) hash_order crash_ops;;
  s ← KvStore_open;
  within (crash_in_compact hash_order n) s;;
  s' ← KvStore_open;
  within (KvStore_get k) s'.

(** C40: a removed key can come back. The stale logs are removed in the order of
    a [HashMap]; when it lists the log with the [remove] before the log with the
    [set] and the process dies between the two, the next [open] finds the [set]
    alone: [get] answers the removed value. In the other order it does not. *)
Theorem compact_crash_resurrects :
  (∃ hash_order, (∀ l : list N, hash_order l ≡ₚ l)
     ∧ (crash_then_get hash_order 2 "a" empty_disk).1 = Ok (Some "1"))
  ∧ ∃ hash_order, (∀ l : list N, hash_order l ≡ₚ l)
     ∧ (crash_then_get hash_order 2 "a" empty_disk).1 = Ok None.
Proof.
  split.
  - exists (λ l, rev (merge_sort N.le l)). split.
    + intros l. by rewrite <-Permutation_rev, merge_sort_Permutation.
    + vm_compute. reflexivity.
  - exists (merge_sort N.le). split.
    + intros l. by rewrite merge_sort_Permutation.
    + vm_compute. reflexivity.
Qed.

(** ** Runs on concrete inputs *)

Abbreviation sort_gens := (merge_sort N.le).

Lemma sort_gens_perm (l : list N) : sort_gens l ≡ₚ l.
Proof. apply merge_sort_Permutation. Qed.

(** The store of an empty directory, and after one [set]. *)
Definition opened (r : outcome KvsError KvStore * Disk) : KvStore * Disk :=
  match r with
  | (Ok s, d) => (s, d)
  | (_, d) => (mkStore ∅ (BufWriterWithPos_new 0) 0 ∅ 0, d)
  end.

Definition ex0 : KvStore * Disk := opened (KvStore_open empty_disk).
Definition ex1 : KvStore * Disk :=
  (after_set "a" "1" ex0.1, append (wr_ino (writer ex0.1)) (to_writer (Command_Set "a" "1")) ex0.2).
Definition ex1_cmds : gmap N (list Command) := {[ 1%N := [Command_Set "a" "1"] ]}.

Lemma ex0_rep : rep ex0.1 ex0.2 {[ 1%N := [] ]}.
Proof.
  destruct (KvStore_open_ok (E:=KvsError) empty_disk ∅ empty_disk_ok)
    as (s & d' & Hopen & Hr & Hc & _); [by rewrite gens_empty|].
  unfold ex0. rewrite Hopen. simpl. by rewrite Hc, gens_empty in Hr.
Qed.

Lemma ex1_rep : rep ex1.1 ex1.2 ex1_cmds.
Proof.
  pose proof (after_set_rep _ _ _ [] "a" "1" ex0_rep eq_refl) as H.
  assert (<[current_gen ex0.1 := [] ++ [Command_Set "a" "1"]]> {[ 1%N := [] ]} = ex1_cmds) as <-
    by (vm_compute; reflexivity). exact H.
Qed.

Definition ex_sessions : list (list Op) :=
  [[OpSet "a" "1"; OpSet "b" "2"]; [OpRemove "a"; OpRemove "a"]; [OpGet "a"; OpGet "b"]].

Lemma sessions_refine_witness :
  ∃ d', run_sessions (E:=KvsError) sort_gens ex_sessions empty_disk
        = (Ok [[RDone; RDone]; [RDone; RError KeyNotFound]; [RValue None; RValue (Some "2")]], d')
        ∧ disk_rep 0 d' {[ "b" := "2" ]}.
Proof.
  assert (spec_sessions (E:=KvsError) ∅ ex_sessions
    = ([[RDone; RDone]; [RDone; RError KeyNotFound]; [RValue None; RValue (Some "2")]], {[ "b" := "2" ]}))
    as Hs by (vm_compute; reflexivity).
  pose proof (sessions_refine (E:=KvsError) sort_gens sort_gens_perm ex_sessions empty_disk ∅) as H.
  rewrite Hs in H. apply H, empty_disk_rep. vm_compute. discriminate.
Defined.

Lemma reopen_recovers_witness :
  ∃ s' d' C', KvStore_open (E:=KvsError) ex1.2 = (Ok s', d') ∧ rep s' d' C'
      ∧ meaning C' = meaning ex1_cmds
      ∧ (uncompacted s' + live (index s') = total (encode_log <$> C'))%N.
Proof. apply (reopen_recovers (E:=KvsError) sort_gens sort_gens_perm ex1.1 _ _ ex1_rep). vm_compute. reflexivity. Defined.

Lemma compact_preserves_witness :
  ∃ s' d' C', compact (E:=KvsError) sort_gens ex1 = (Ok tt, (s', d')) ∧ rep s' d' C'
      ∧ meaning C' = meaning ex1_cmds ∧ uncompacted s' = 0%N
      ∧ gens C' = [2%N; 3%N]
      ∧ total (encode_log <$> C') = live (index s').
Proof. apply (compact_preserves (E:=KvsError) sort_gens sort_gens_perm ex1.1 ex1.2 _ ex1_rep). vm_compute. discriminate. Defined.

Lemma set_bounds_stale_witness :
  ∃ s' d' C', KvStore_set (E:=KvsError) sort_gens "a" "2" ex1 = (Ok tt, (s', d'))
      ∧ rep s' d' C' ∧ meaning C' = <["a" := "2"]> (meaning ex1_cmds)
      ∧ (uncompacted s' <= COMPACTION_THRESHOLD)%N.
Proof. apply (set_bounds_stale (E:=KvsError) sort_gens sort_gens_perm ex1.1 ex1.2 _ _ _ ex1_rep). vm_compute. discriminate. Defined.

Lemma remove_missing_no_effect_witness :
  KvStore_remove (E:=KvsError) "b" ex1 = (Err KeyNotFound, ex1).
Proof.
  pose proof (remove_missing_no_effect (E:=KvsError) sort_gens sort_gens_perm ex1.1 ex1.2 _ "b" ex1_rep) as H.
  apply H. vm_compute. reflexivity.
Defined.

Lemma remove_unaccounted_witness :
  ∃ s' d' C', KvStore_remove (E:=KvsError) "a" ex1 = (Ok tt, (s', d')) ∧ rep s' d' C'
      ∧ (uncompacted s' + live (index s') = uncompacted ex1.1 + live (index ex1.1))%N
      ∧ (total (encode_log <$> C') = total (encode_log <$> ex1_cmds) + 22)%N.
Proof. apply (remove_unaccounted (E:=KvsError) sort_gens sort_gens_perm ex1.1 ex1.2 _ "a" "1" ex1_rep). vm_compute. reflexivity. Defined.

Lemma remove_reopen_disagree_witness :
  ∃ s1 d1 s2 d2, KvStore_remove (E:=KvsError) "a" ex1 = (Ok tt, (s1, d1))
      ∧ KvStore_open (E:=KvsError) d1 = (Ok s2, d2)
      ∧ (uncompacted s2 = uncompacted s1 + 22)%N.
Proof.
  apply (remove_reopen_disagree (E:=KvsError) sort_gens sort_gens_perm ex1.1 ex1.2 _ "a" "1" ex1_rep);
    vm_compute; reflexivity.
Defined.

Lemma open_settles_witness :
  let d := mkDisk {[ "1.log" := FileEnt 0 ]} {[ 0 := [x7b; x00] ]} 1 in
  settled (KvStore_open (E:=KvsError) d).1 = true.
Proof. apply open_settles. vm_compute. reflexivity. Defined.

Lemma open_torn_fails_witness :
  ∃ e, KvStore_open (E:=KvsError) (append 0 (take 5 (json_write (Command_Set "b" "2"))) ex1.2)
       = (Err (Serde e), append 0 (take 5 (json_write (Command_Set "b" "2"))) ex1.2).
Proof.
  set (c := encode_log [Command_Set "a" "1"] ++ take 5 (json_write (Command_Set "b" "2"))).
  assert (torn c) as Ht.
  { exists [Command_Set "a" "1"], (Command_Set "b" "2"), (take 5 (json_write (Command_Set "b" "2"))),
      (drop 5 (json_write (Command_Set "b" "2"))). split_and!; done. }
  destruct (append_log ex1.2 (encode_log <$> ex1_cmds) (rep_wf _ _ _ ex1_rep) (rep_view _ _ _ ex1_rep)
    1 0 (encode_log [Command_Set "a" "1"]) (take 5 (json_write (Command_Set "b" "2"))))
    as [Hwf Hlv]; [done|done|].
  pose proof (open_torn_fails (E:=KvsError) _ _ Hwf Hlv) as H. apply H.
  - intros g c'. unfold ex1_cmds. rewrite map_fmap_singleton, lookup_insert. case_decide.
    + intros ?. simplify_eq. by right.
    + rewrite lookup_singleton_ne by done. done.
  - exists 1%N, c. split; [|done]. unfold ex1_cmds. by rewrite lookup_insert_eq.
Defined.

Definition ex_runs : list P2.Cli :=
  [P2.CliSet "a" "1"; P2.CliGet "a"; P2.CliRm "a"; P2.CliRm "a"; P2.CliGet "a"].

Lemma cli_runs_refine_witness :
  ∃ d', P2.runs sort_gens ex_runs empty_disk
        = (Ok [P2.mkRun [] 0; P2.mkRun ["1"] 0; P2.mkRun [] 0; P2.mkRun ["Key not found"] 1;
               P2.mkRun ["Key not found"] 0], d')
        ∧ disk_rep 0 d' ∅.
Proof.
  assert (P2.spec_runs ∅ ex_runs
    = ([P2.mkRun [] 0; P2.mkRun ["1"] 0; P2.mkRun [] 0; P2.mkRun ["Key not found"] 1;
        P2.mkRun ["Key not found"] 0], ∅)) as Hs by (vm_compute; reflexivity).
  pose proof (cli_runs_refine sort_gens sort_gens_perm ex_runs empty_disk ∅) as H.
  rewrite Hs in H. apply H, empty_disk_rep. vm_compute. discriminate.
Defined.
