(* ===== verification/ConcStore.v ===== *)
(** * The concurrent log engine (project-4 and project-5)

    [KvStore] of [project-4/src/engines/kvs.rs]: readers that share an index with
    one writer behind a mutex. [project-5/src/engines/kvs.rs] has the same
    [KvStoreReader] and [KvStoreWriter] behind a pool of readers. Every access to
    what threads share (the index, the safe point, the lock, the disk) is one
    atomic action. *)

From S2P Require Import Prelude Fs Command KvsEngine KvStore Conc.

(** ** State *)

(** [KvStoreWriter], inside the mutex. Its [reader] is a [KvStoreReader] of its own. *)
Record KvStoreWriter := mkKvWriter {
  kw_readers : gmap N BufReaderWithPos;
  kw_writer : BufWriterWithPos;
  kw_gen : N;
  kw_uncompacted : N;
}.

(** A [std::sync::Mutex]: a panic while it is held poisons it. *)
Inductive Lock := Unlocked | Locked | Poisoned.

(** What the clones of a store share, and the readers each of them owns. *)
Record World := mkWorld {
  w_index : gmap string CommandPos;                 (* Arc<SkipMap<String, CommandPos>> *)
  w_safe_point : N;                                 (* Arc<AtomicU64> *)
  w_lock : Lock;                                    (* Arc<Mutex<KvStoreWriter>> *)
  w_writer : KvStoreWriter;
  w_readers : gmap nat (gmap N BufReaderWithPos);   (* KvStoreReader::readers, by reader *)
  w_pool : list nat;                                (* Arc<ArrayQueue<KvStoreReader>>, project-5 *)
  w_disk : Disk;
}.

Definition set_index (f : gmap string CommandPos → gmap string CommandPos) (w : World) : World :=
  mkWorld (f (w_index w)) (w_safe_point w) (w_lock w) (w_writer w) (w_readers w) (w_pool w) (w_disk w).
Definition set_safe_point (n : N) (w : World) : World :=
  mkWorld (w_index w) n (w_lock w) (w_writer w) (w_readers w) (w_pool w) (w_disk w).
Definition set_lock (l : Lock) (w : World) : World :=
  mkWorld (w_index w) (w_safe_point w) l (w_writer w) (w_readers w) (w_pool w) (w_disk w).
Definition set_writer (f : KvStoreWriter → KvStoreWriter) (w : World) : World :=
  mkWorld (w_index w) (w_safe_point w) (w_lock w) (f (w_writer w)) (w_readers w) (w_pool w) (w_disk w).
Definition set_readers (f : gmap nat (gmap N BufReaderWithPos) → gmap nat (gmap N BufReaderWithPos))
    (w : World) : World :=
  mkWorld (w_index w) (w_safe_point w) (w_lock w) (w_writer w) (f (w_readers w)) (w_pool w) (w_disk w).
Definition set_pool (f : list nat → list nat) (w : World) : World :=
  mkWorld (w_index w) (w_safe_point w) (w_lock w) (w_writer w) (w_readers w) (f (w_pool w)) (w_disk w).
Definition set_disk (d : Disk) (w : World) : World :=
  mkWorld (w_index w) (w_safe_point w) (w_lock w) (w_writer w) (w_readers w) (w_pool w) d.

(** A [KvStoreReader]: one of a store, or the one inside the writer. *)
Inductive reader_id := Reader (i : nat) | WriterReader.
#[export] Instance reader_id_eq_dec : EqDecision reader_id.
Proof. solve_decision. Defined.

Definition handles (h : reader_id) (w : World) : gmap N BufReaderWithPos :=
  match h with
  | Reader i => default ∅ (w_readers w !! i)
  | WriterReader => kw_readers (w_writer w)
  end.

Definition set_handles (h : reader_id) (f : gmap N BufReaderWithPos → gmap N BufReaderWithPos)
    (w : World) : World :=
  match h with
  | Reader i => set_readers <[i := f (handles h w)]> w
  | WriterReader => set_writer (λ kw, mkKvWriter (f (kw_readers kw)) (kw_writer kw) (kw_gen kw)
                                        (kw_uncompacted kw)) w
  end.

Definition set_kw_writer (bw : BufWriterWithPos) (kw : KvStoreWriter) : KvStoreWriter :=
  mkKvWriter (kw_readers kw) bw (kw_gen kw) (kw_uncompacted kw).
Definition set_kw_gen (g : N) (kw : KvStoreWriter) : KvStoreWriter :=
  mkKvWriter (kw_readers kw) (kw_writer kw) g (kw_uncompacted kw).
Definition set_kw_uncompacted (f : N → N) (kw : KvStoreWriter) : KvStoreWriter :=
  mkKvWriter (kw_readers kw) (kw_writer kw) (kw_gen kw) (f (kw_uncompacted kw)).

(** Code that only touches the disk. *)
Definition on_disk {E A} (m : M E Disk A) : M E World A := λ w,
  let '(o, d') := m (w_disk w) in (o, set_disk d' w).

Abbreviation WM := (M KvsError World).
Abbreviation WP := (prog KvsError World).

Section code.
Context `{!SerdeJson Command} {policy : BufWriterPolicy}.

(** ** KvStoreReader *)

(** One round of the loop per handle that is closed, and a last one: one more than
    there are handles is enough fuel. *)
Fixpoint close_loop (fuel : nat) (h : reader_id) : WP unit :=
  match fuel with
  | O => Done Diverge
  | S fuel' =>
      stop ← atomic (λ w,
        match head (gens (handles h w)) with
        | None => (Ok true, w)
        | Some first_gen =>
            if (w_safe_point w <=? first_gen)%N then (Ok true, w)
            else (Ok false, set_handles h (delete first_gen) w)
        end);
      if (stop : bool) then mret tt else close_loop fuel' h
  end.

Definition close_stale_handles (h : reader_id) : WP unit :=
  n ← atomic (gets (λ w, S (size (handles h w))));
  close_loop n h.

(** Opens the file of a generation if the reader has no handle on it. *)
Definition ensure_handle (h : reader_id) (g : N) : WM unit :=
  hs ← gets (handles h);
  match hs !! g with
  | Some _ => mret tt
  | None => ino ← question (on_disk (File_open (log_path g)));
            modify (set_handles h <[g := BufReaderWithPos_new ino]>)
  end.

(** Seeks to a command and reads it; what the closure of [read_and] is given. *)
Definition read_at (h : reader_id) (cmd_pos : CommandPos) : WM bytes :=
  reader ← gets (λ w, handles h w !! gen cmd_pos) ≫= expect;
  d ← gets w_disk;
  let '(data, reader') := reader_take (reader_seek reader (pos cmd_pos)) (len cmd_pos) d in
  modify (set_handles h <[gen cmd_pos := reader']>);;
  mret data.

Definition read_and {R} (h : reader_id) (cmd_pos : CommandPos) (f : bytes → WP R) : WP R :=
  close_stale_handles h;;
  atomic (ensure_handle h (gen cmd_pos));;
  data ← atomic (read_at h cmd_pos);
  f data.

Definition read_command (h : reader_id) (cmd_pos : CommandPos) : WP Command :=
  read_and h cmd_pos (λ data,
    match from_reader data with
    | inl cmd => mret cmd
    | inr e => Done (Err (from e))
    end).

(** [Clone for KvStoreReader]: the new reader [i] has no handles. *)
Definition clone_reader (i : nat) : WM unit := modify (set_readers <[i := ∅]>).

(** [SkipMap::insert]: the entry of the key, if there is one, is removed before the new
    one is inserted, and a thread that looks into the index in between finds none. *)
Definition index_insert (key : string) (cmd_pos : World → CommandPos) : WP unit :=
  atomic (modify (set_index (delete key)));;
  atomic (modify (λ w, set_index <[key := cmd_pos w]> w)).

(** ** KvStoreWriter *)

(** [new_log_file] of project-4 opens the writer only. *)
Definition new_log_writer (g : N) : WM BufWriterWithPos :=
  ino ← question (on_disk (open_append (log_path g)));
  mret (BufWriterWithPos_new ino).

(** [serde_json::to_writer(&mut self.writer, &cmd)?; self.writer.flush()?]. *)
Definition write_cmd (cmd : Command) : WM unit :=
  bw ← gets (λ w, kw_writer (w_writer w));
  d ← gets w_disk;
  let '(bw', d') := writer_flush (writer_write bw (to_writer cmd)) d in
  modify (λ w, set_disk d' (set_writer (set_kw_writer bw') w)).

(** [io::copy] to the [compaction_writer]. *)
Definition copy_data (compaction_writer : BufWriterWithPos) (data : bytes) : WM BufWriterWithPos := λ w,
  let '(bw, d') := writer_spill (writer_write compaction_writer data) (w_disk w) in (Ok bw, set_disk d' w).

(** The loop of [compact] over the index entries. Some of the copied bytes stay in the
    buffer of [compaction_writer], while the index already points at them. *)
Fixpoint copy_loop (keys : list string) (compaction_gen : N)
    (compaction_writer : BufWriterWithPos) (new_pos : N) : WP BufWriterWithPos :=
  match keys with
  | [] => mret compaction_writer
  | key :: keys' =>
      cmd_pos ← atomic (gets (λ w, w_index w !! key) ≫= expect);
      '(compaction_writer, len) ← read_and WriterReader cmd_pos (λ data,
        bw ← atomic (copy_data compaction_writer data); mret (bw, blen data));
      index_insert key (λ _, CommandPos_from compaction_gen new_pos (new_pos + len));;
      copy_loop keys' compaction_gen compaction_writer (new_pos + len)
  end.

(** The loop that deletes the stale files; an error is only logged. *)
Fixpoint delete_loop (stale_gens : list N) : WP unit :=
  match stale_gens with
  | [] => mret tt
  | g :: gs =>
      atomic (λ w, let '(_, d') := remove_file (log_path g) (w_disk w) in (Ok tt, set_disk d' w));;
      delete_loop gs
  end.

(** [compact] up to the flush of the compacted log. *)
Definition compact_copy : WP N :=
  compaction_gen ← atomic (cur ← gets (λ w, kw_gen (w_writer w));
                           cg ← u64_add cur 1;
                           cur' ← u64_add cur 2;
                           modify (set_writer (set_kw_gen cur'));;
                           mret cg);
  atomic (cur ← gets (λ w, kw_gen (w_writer w));
          bw ← new_log_writer cur;
          modify (set_writer (set_kw_writer bw)));;
  compaction_writer ← atomic (new_log_writer compaction_gen);
  keys ← atomic (gets (λ w, btree_keys (w_index w)));
  compaction_writer ← copy_loop keys compaction_gen compaction_writer 0;
  atomic (modify (λ w, set_disk (writer_flush compaction_writer (w_disk w)).2 w));;
  mret compaction_gen.

Definition compact : WP unit :=
  compaction_gen ← compact_copy;
  atomic (modify (set_safe_point compaction_gen));;
  close_stale_handles WriterReader;;
  gen_list ← atomic (gets (λ w, sorted_gen_list (w_disk w)));
  delete_loop (filter (λ g, (g < compaction_gen)%N) gen_list);;
  atomic (modify (set_writer (set_kw_uncompacted (λ _, 0%N)))).

Definition maybe_compact : WP unit :=
  u ← atomic (gets (λ w, kw_uncompacted (w_writer w)));
  if (COMPACTION_THRESHOLD <? u)%N then compact else mret tt.

Definition Writer_set (key value : string) : WP unit :=
  let cmd := Command_set key value in
  p ← atomic (gets (λ w, wr_pos (kw_writer (w_writer w))));
  atomic (write_cmd cmd);;
  (match cmd with
   | Command_Set key _ =>
       old ← atomic (gets (λ w, w_index w !! key));
       (match old with
        | Some old_cmd => atomic (modify (set_writer (set_kw_uncompacted (λ u, u + len old_cmd)%N)))
        | None => mret tt
        end);;
       index_insert key (λ w, CommandPos_from (kw_gen (w_writer w)) p (wr_pos (kw_writer (w_writer w))))
   | Command_Remove _ => mret tt
   end);;
  maybe_compact.

Definition Writer_remove (key : string) : WP unit :=
  o ← atomic (gets (λ w, w_index w !! key));
  match o with
  | Some _ =>
      let cmd := Command_remove key in
      p ← atomic (gets (λ w, wr_pos (kw_writer (w_writer w))));
      atomic (write_cmd cmd);;
      (match cmd with
       | Command_Remove key =>
           old_cmd ← atomic (o ← gets (λ w, w_index w !! key);
                             old_cmd ← expect o;
                             modify (set_index (delete key));;
                             mret old_cmd);
           atomic (modify (set_writer (set_kw_uncompacted (λ u, u + len old_cmd)%N)));;
           atomic (modify (λ w, set_writer (set_kw_uncompacted
             (λ u, u + (wr_pos (kw_writer (w_writer w)) - p))%N) w))
       | Command_Set _ _ => mret tt
       end);;
      maybe_compact
  | None => Done (Err KeyNotFound)
  end.

(** [self.writer.lock().unwrap()] around a method of the writer. *)
Definition with_lock {A} (body : WP A) : WP A :=
  Act (λ w, match w_lock w with
            | Unlocked =>
                Some (set_lock Locked w,
                      finally (λ o, set_lock (match o with Panic => Poisoned | _ => Unlocked end)) body)
            | Locked => None
            | Poisoned => Some (w, Done Panic)
            end).

(** ** KvStore of project-4

    A clone of the store is its reader [i]; everything else is shared. *)

Definition set (key value : string) : WP unit := with_lock (Writer_set key value).

Definition remove (key : string) : WP unit := with_lock (Writer_remove key).

Definition get (i : nat) (key : string) : WP (option string) :=
  o ← atomic (gets (λ w, w_index w !! key));
  match o with
  | Some cmd_pos =>
      cmd ← read_command (Reader i) cmd_pos;
      match cmd with
      | Command_Set _ value => mret (Some value)
      | Command_Remove _ => Done (Err UnexpectedCommandType)
      end
  | None => mret None
  end.

(** [KvStore::open]: the handles opened to load the logs stay with reader 0. *)
Definition open : M KvsError Disk World :=
  gen_list ← gets sorted_gen_list;
  '(rds, idx, unc) ← open_loop gen_list ∅ ∅ 0%N;
  cur ← u64_add (default 0%N (last gen_list)) 1;
  ino ← question (open_append (log_path cur));
  d ← gets id;
  mret (mkWorld idx 0 Unlocked (mkKvWriter ∅ (BufWriterWithPos_new ino) cur unc)
          {[ 0 := rds ]} [] d).
End code.
