(* ===== verification/ConcStoreSpec.v ===== *)
(** * Sequential correctness of the concurrent log engine

    The representation invariant of the shared state, and what each operation does
    when it runs alone: [get], [set] and [remove] compute on the map the logs stand
    for, a compaction keeps it, and the count of stale bytes is exact throughout. *)

From S2P Require Import Prelude Fs Command KvsEngine LogTheory KvStore KvStoreSpec Conc ConcStore.

Section spec.
Context `{!SerdeJson Command} `{!SerdeLaws Command} {policy : BufWriterPolicy}.

Abbreviation enc C := (encode_log <$> C).

(** A handle at or above the safe point reads the log of its generation. Handles
    below it are closed before they are used. *)
Definition handles_ok (w : World) : Prop :=
  ∀ h g r, handles h w !! g = Some r → (w_safe_point w <= g)%N → names (w_disk w) g (rd_ino r).

(** The shared state over a directory whose logs hold the commands [C]. *)
Record crep (w : World) (C : gmap N (list Command)) : Prop := {
  crep_disk : disk_ok (w_disk w) C;
  crep_index : index_ok (enc C) (w_index w) (meaning C);
  crep_handles : handles_ok w;
  (* no entry of the index is below the safe point *)
  crep_safe : ∀ k p, w_index w !! k = Some p → (w_safe_point w <= gen p)%N;
  crep_safe_gen : (w_safe_point w <= kw_gen (w_writer w))%N;
  (* the writer is at the end of the newest log *)
  crep_writer : names (w_disk w) (kw_gen (w_writer w)) (wr_ino (kw_writer (w_writer w)));
  crep_flushed : wr_buf (kw_writer (w_writer w)) = [];
  crep_pos : ∃ cs, C !! kw_gen (w_writer w) = Some cs
                   ∧ wr_pos (kw_writer (w_writer w)) = blen (encode_log cs);
  crep_newest : ∀ g, is_Some (C !! g) → (g <= kw_gen (w_writer w))%N;
  (* every byte of the logs is stale or live *)
  crep_account : (kw_uncompacted (w_writer w) + live (w_index w) = total (enc C))%N;
}.

(** ** Readers *)

Lemma handles_set_same h f w : handles h (set_handles h f w) = f (handles h w).
Proof. destruct h; simpl; [by rewrite lookup_insert_eq|done]. Qed.

Lemma handles_set_other h h' f w : h ≠ h' → handles h' (set_handles h f w) = handles h' w.
Proof. destruct h, h'; simpl; try done. intros H. rewrite lookup_insert_ne; [done|]. congruence. Qed.

Lemma set_handles_twice h f g w : set_handles h f (set_handles h g w) = set_handles h (λ m, f (g m)) w.
Proof.
  destruct h; [|done]. unfold set_handles. simpl. rewrite lookup_insert_eq. simpl.
  unfold set_readers. simpl. by rewrite insert_insert_eq.
Qed.

(** The loop closes exactly the handles below the safe point. *)
Definition keep (sp : N) (hs : gmap N BufReaderWithPos) : gmap N BufReaderWithPos :=
  filter (λ gr, (sp <= gr.1)%N) hs.

Lemma lookup_keep sp hs g r : keep sp hs !! g = Some r ↔ hs !! g = Some r ∧ (sp <= g)%N.
Proof. unfold keep. by rewrite map_lookup_filter_Some. Qed.

Lemma head_gens_min {A} (m : gmap N A) g : head (gens m) = Some g →
  is_Some (m !! g) ∧ ∀ g', is_Some (m !! g') → (g <= g')%N.
Proof.
  intros Hh. pose proof (sorted_gens m) as Hs. pose proof (elem_of_gens m) as Hin.
  destruct (gens m) as [|g0 gs]; [done|]. simplify_eq/=. split.
  - apply Hin. set_solver.
  - intros g' Hg'%Hin. apply StronglySorted_inv in Hs as [_ Hall].
    apply elem_of_cons in Hg' as [->|Hg']; [lia|]. rewrite Forall_forall in Hall. by apply Hall.
Qed.

Lemma keep_id sp hs : (∀ g, is_Some (hs !! g) → (sp <= g)%N) → keep sp hs = hs.
Proof.
  intros H. apply map_eq. intros g. destruct (hs !! g) as [r|] eqn:Hg.
  - apply lookup_keep. eauto.
  - destruct (keep sp hs !! g) eqn:Hk; [|done]. apply lookup_keep in Hk as []. congruence.
Qed.

Lemma keep_delete sp hs g : (g < sp)%N → keep sp (delete g hs) = keep sp hs.
Proof.
  intros H. apply map_eq. intros g'. apply option_eq. intros r.
  rewrite !lookup_keep, lookup_delete_Some. naive_solver lia.
Qed.

(** [w'] is [w] but for the handles of the reader [h]. *)
Record only_handles (h : reader_id) (w w' : World) : Prop := {
  oh_index : w_index w' = w_index w;
  oh_safe_point : w_safe_point w' = w_safe_point w;
  oh_lock : w_lock w' = w_lock w;
  oh_writer : kw_writer (w_writer w') = kw_writer (w_writer w);
  oh_gen : kw_gen (w_writer w') = kw_gen (w_writer w);
  oh_uncompacted : kw_uncompacted (w_writer w') = kw_uncompacted (w_writer w);
  oh_pool : w_pool w' = w_pool w;
  oh_disk : w_disk w' = w_disk w;
  oh_other : ∀ h', h' ≠ h → handles h' w' = handles h' w;
}.

#[global] Instance only_handles_preorder h : PreOrder (only_handles h).
Proof.
  split; [done|]. intros w1 w2 w3 [] []. split; try congruence.
  intros h' Hh. by rewrite oh_other1, oh_other0.
Qed.

Lemma set_handles_only h f w : only_handles h w (set_handles h f w).
Proof. split; try by destruct h. intros h' Hh. by apply handles_set_other. Qed.

Lemma close_loop_run n h w : size (handles h w) < n →
  ∃ w', run (close_loop n h) w = Some (Ok tt, w') ∧ only_handles h w w'
        ∧ handles h w' = keep (w_safe_point w) (handles h w).
Proof.
  revert w. induction n as [|n IH]; intros w Hn; [lia|]. cbn [close_loop].
  destruct (head (gens (handles h w))) as [g|] eqn:Hh.
  - destruct (head_gens_min _ _ Hh) as [[r Hr] Hmin].
    destruct (N.leb_spec (w_safe_point w) g) as [Hle|Hlt].
    + exists w. split_and!; [|done|symmetry; apply keep_id; intros g' Hg'%Hmin; lia].
      erewrite run_atomic_ok; [|rewrite Hh; destruct (N.leb_spec (w_safe_point w) g); [done|lia]]. done.
    + set (w1 := set_handles h (delete g) w).
      assert (handles h w1 = delete g (handles h w)) as H1 by apply handles_set_same.
      destruct (IH w1) as (w' & Hrun & Ho & Hk).
      { rewrite H1, map_size_delete_Some by eauto. destruct (size (handles h w)) eqn:E; [|lia].
        apply map_size_empty_inv in E. rewrite E, lookup_empty in Hr. done. }
      exists w'. split_and!.
      * erewrite run_atomic_ok; [|rewrite Hh; destruct (N.leb_spec (w_safe_point w) g); [lia|done]]. done.
      * etrans; [apply set_handles_only|exact Ho].
      * rewrite Hk, H1, (oh_safe_point h w w1 (set_handles_only h (delete g) w)). by apply keep_delete.
  - exists w. assert (handles h w = ∅) as He.
    { apply map_eq. intros g. rewrite lookup_empty. apply eq_None_not_Some.
      rewrite <-elem_of_gens. destruct (gens (handles h w)); [set_solver|done]. }
    split_and!; [erewrite run_atomic_ok; [|by rewrite Hh]; done|done|].
    rewrite He. symmetry. apply keep_id. intros g. rewrite lookup_empty. by intros [].
Qed.

Lemma close_stale_handles_run h w :
  ∃ w', run (close_stale_handles h) w = Some (Ok tt, w') ∧ only_handles h w w'
        ∧ handles h w' = keep (w_safe_point w) (handles h w).
Proof. unfold close_stale_handles. rpure. apply close_loop_run. lia. Qed.

Lemma handles_ok_only h w w' : only_handles h w w' → handles_ok w →
  (∀ g r, handles h w' !! g = Some r → (w_safe_point w <= g)%N → names (w_disk w) g (rd_ino r)) →
  handles_ok w'.
Proof.
  intros Ho Hok Hh h' g r. rewrite (oh_safe_point _ _ _ Ho), (oh_disk _ _ _ Ho).
  destruct (decide (h' = h)) as [->|Hne]; [apply Hh|]. rewrite (oh_other _ _ _ Ho) by done. apply Hok.
Qed.

(** Reading at a position at or above the safe point gives the bytes of the log. *)
Lemma read_and_run {R} h w L p c (f : bytes → WP R) :
  log_view (w_disk w) L → handles_ok w → (w_safe_point w <= gen p)%N →
  L !! gen p = Some c →
  ∃ w', run (read_and h p f) w = run (f (slice c (pos p) (len p))) w'
        ∧ only_handles h w w' ∧ handles_ok w'.
Proof.
  intros Hlv Hok Hsp Hc.
  destruct (close_stale_handles_run h w) as (w1 & Hrun1 & Ho1 & Hk1).
  assert (handles_ok w1) as Hok1.
  { apply (handles_ok_only h w); [done|done|]. intros g r. rewrite Hk1.
    intros [Hg _]%lookup_keep. by apply (Hok h). }
  destruct (File_open_log (w_disk w1) L ltac:(by rewrite (oh_disk _ _ _ Ho1)) _ _ Hc)
    as (ino & Hopen & Hn).
  (* a handle on the file is there after [ensure_handle] *)
  assert (∃ w2 r, ensure_handle h (gen p) w1 = (Ok tt, w2) ∧ only_handles h w1 w2
    ∧ handles h w2 !! gen p = Some r ∧ handles_ok w2) as (w2 & r & Hens & Ho2 & Hr & Hok2).
  { unfold ensure_handle. mpure. destruct (handles h w1 !! gen p) as [r|] eqn:Hr; [by exists w1, r|].
    exists (set_handles h <[gen p := BufReaderWithPos_new ino]> w1), (BufReaderWithPos_new ino).
    split_and!.
    - assert (on_disk (File_open (log_path (gen p))) w1 = (Ok ino, w1)) as Hd.
      { unfold on_disk. rewrite Hopen. by destruct w1. }
      by rewrite (bind_ok _ _ _ _ _ (question_ok _ _ _ _ Hd)).
    - apply set_handles_only.
    - by rewrite handles_set_same, lookup_insert_eq.
    - apply (handles_ok_only h w1); [apply set_handles_only|done|].
      intros g r'. rewrite handles_set_same, lookup_insert. case_decide; [|apply Hok1].
      intros; by simplify_eq. }
  assert (content (w_disk w2) (rd_ino r) = c) as Hcont.
  { eapply content_names; [|apply (Hok2 h); [exact Hr|]|exact Hc].
    - by rewrite (oh_disk _ _ _ Ho2), (oh_disk _ _ _ Ho1).
    - by rewrite (oh_safe_point _ _ _ Ho2), (oh_safe_point _ _ _ Ho1). }
  set (r' := mkReader (rd_ino r) (pos p + blen (slice c (pos p) (len p)))).
  exists (set_handles h <[gen p := r']> w2). split_and!.
  - unfold read_and. rewrite (run_bind_ok _ _ _ _ _ Hrun1), (run_atomic_ok _ _ _ _ _ Hens).
    erewrite run_atomic_ok; [reflexivity|]. unfold read_at.
    rewrite (bind_ok _ _ _ r w2).
    2:{ unfold gets, mbind, M_bind. by rewrite Hr. }
    mpure. unfold reader_take, r'. simpl. rewrite Hcont. reflexivity.
  - etrans; [exact Ho1|]. etrans; [exact Ho2|]. apply set_handles_only.
  - apply (handles_ok_only h w2); [apply set_handles_only|done|].
    intros g r2. rewrite handles_set_same, lookup_insert. case_decide; [|apply Hok2].
    intros ? Hg; simplify_eq. by apply (Hok2 h _ r).
Qed.

Lemma crep_only h w w' C : crep w C → only_handles h w w' → handles_ok w' → crep w' C.
Proof.
  intros [] [] Hok. split; rewrite ?oh_index0, ?oh_safe_point0, ?oh_writer0, ?oh_gen0,
    ?oh_uncompacted0, ?oh_disk0; done.
Qed.

(** ** get *)

Lemma get_ok i w C k : crep w C →
  ∃ w', run (get i k) w = Some (Ok (meaning C !! k), w') ∧ crep w' C ∧ only_handles (Reader i) w w'.
Proof.
  intros Hr. unfold get. rpure. destruct (w_index w !! k) as [p|] eqn:Hk.
  2:{ exists w. apply (index_ok_None _ _ _ _ (crep_index _ _ Hr)) in Hk. by rewrite Hk. }
  destruct (index_ok_lookup _ _ _ _ _ (crep_index _ _ Hr) Hk) as (v & Hv & c & Hc & Hb & Hsl).
  unfold read_command.
  destruct (read_and_run (Reader i) w (enc C) p c
    (λ data, match from_reader data with inl cmd => mret cmd | inr e => Done (Err (from e)) end)
    (ok_view _ _ (crep_disk _ _ Hr)) (crep_handles _ _ Hr) (crep_safe _ _ Hr _ _ Hk) Hc)
    as (w' & Hrun & Ho & Hok).
  rewrite Hsl, from_to in Hrun. exists w'. rewrite (run_bind_ok _ _ _ _ _ Hrun), Hv.
  split_and!; [done|by eapply crep_only|done].
Qed.

(** ** Writing a command *)

Definition wrote4 (cmd : Command) (w : World) : World :=
  let bw := kw_writer (w_writer w) in
  set_disk (append (wr_ino bw) (to_writer cmd) (w_disk w))
    (set_writer (set_kw_writer (mkWriter (wr_ino bw) [] (wr_pos bw + blen (to_writer cmd)))) w).

Lemma write_cmd_ok w C cmd : crep w C → write_cmd cmd w = (Ok tt, wrote4 cmd w).
Proof.
  intros Hr. unfold write_cmd. mpure. unfold writer_flush, writer_write. simpl.
  by rewrite (crep_flushed _ _ Hr).
Qed.

(** The state once a command is in the log and [idx], [unc] account for it. *)
Definition logged (cmd : Command) (idx : gmap string CommandPos) (unc : N) (w : World) : World :=
  set_index (λ _, idx) (set_writer (set_kw_uncompacted (λ _, unc)) (wrote4 cmd w)).

Lemma crep_logged w C cs cmd idx unc : crep w C → C !! kw_gen (w_writer w) = Some cs →
  let C' := <[kw_gen (w_writer w) := cs ++ [cmd]]> C in
  index_ok (enc C') idx (apply_cmd (meaning C) cmd) →
  (∀ k p, idx !! k = Some p → (w_safe_point w <= gen p)%N) →
  (unc + live idx = total (enc C) + blen (to_writer cmd))%N →
  crep (logged cmd idx unc w) C'.
Proof.
  intros Hr Hcs C' Hidx Hsafe Hacc.
  assert (enc C !! kw_gen (w_writer w) = Some (encode_log cs)) as Hce by (by rewrite lookup_fmap, Hcs).
  destruct Hr as [[Hwf Hlv] _ Hh _ Hsg Hw Hf (cs' & Hcs' & Hpos) Hnew _].
  rewrite Hcs in Hcs'. injection Hcs' as <-.
  destruct (append_log (w_disk w) (enc C) Hwf Hlv _ _ _ (to_writer cmd) Hw Hce) as [Hwf' Hlv'].
  assert (enc C' = <[kw_gen (w_writer w) := encode_log cs ++ to_writer cmd]> (enc C)) as HC'.
  { unfold C'. by rewrite fmap_insert, encode_log_app, encode_log_one. }
  split; simpl.
  - split; [done|]. by rewrite HC'.
  - unfold meaning, C'. by rewrite all_cmds_append, replay_app.
  - intros h g r Hg. apply (Hh h g r). by destruct h.
  - exact Hsafe.
  - exact Hsg.
  - exact Hw.
  - done.
  - exists (cs ++ [cmd]). unfold C'. rewrite lookup_insert_eq. split; [done|].
    by rewrite Hpos, encode_log_app, encode_log_one, blen_app.
  - intros g. unfold C'. rewrite lookup_insert. case_decide; [lia|apply Hnew].
  - by rewrite HC', (total_append _ _ _ _ Hce).
Qed.

Lemma index_ok_logged C g cs cmd idx m : C !! g = Some cs →
  index_ok (enc C) idx m → index_ok (enc (<[g := cs ++ [cmd]]> C)) idx m.
Proof.
  intros Hcs Hok. eapply index_ok_mono; [exact Hok|]. intros k p c _.
  rewrite fmap_insert, lookup_insert, !lookup_fmap. case_decide as Hg.
  - rewrite <-Hg, Hcs. simpl. intros ?; simplify_eq.
    exists (to_writer cmd). by rewrite encode_log_app, encode_log_one.
  - intros ->. exists []. by rewrite app_nil_r.
Qed.

(** The state [set] reaches before it may compact. *)
Definition after_set4 (k v : string) (w : World) : World :=
  let cmd := Command_Set k v in
  let p := wr_pos (kw_writer (w_writer w)) in
  logged cmd (<[k := CommandPos_from (kw_gen (w_writer w)) p (p + blen (to_writer cmd))]> (w_index w))
    (kw_uncompacted (w_writer w) + old_len (w_index w) k) w.

Lemma old_len_live idx k : live idx = (old_len idx k + live (delete k idx))%N.
Proof.
  unfold old_len. destruct (idx !! k) as [q|] eqn:E; [by apply live_delete|].
  by rewrite live_delete_None.
Qed.

Lemma crep_after_set w C cs k v : crep w C → C !! kw_gen (w_writer w) = Some cs →
  crep (after_set4 k v w) (<[kw_gen (w_writer w) := cs ++ [Command_Set k v]]> C).
Proof.
  intros Hr Hcs. apply crep_logged; [done|done|..].
  - apply index_ok_insert; [by apply index_ok_logged, Hr|].
    destruct (crep_pos _ _ Hr) as (cs' & Hcs' & ->). rewrite Hcs in Hcs'. injection Hcs' as <-.
    apply (CommandPos_from_here _ _ k v (encode_log cs) []).
    by rewrite lookup_fmap, lookup_insert_eq, app_nil_r; simpl; rewrite encode_log_app, encode_log_one.
  - intros k' p'. rewrite lookup_insert. case_decide; [|apply Hr].
    intros; simplify_eq/=. apply Hr.
  - pose proof (crep_account _ _ Hr) as Hacc. rewrite live_insert, CommandPos_from_len.
    rewrite (old_len_live _ k) in Hacc. lia.
Qed.

(** Alone, [insert] replaces an entry. *)
Lemma set_index_insert k p w : set_index <[k := p]> (set_index (delete k) w) = set_index <[k := p]> w.
Proof. unfold set_index. simpl. by rewrite insert_delete_eq. Qed.

Lemma index_insert_run {B} k p (f : unit → WP B) w : run (index_insert k p ≫= f) w = run (f tt) (set_index <[k := p (set_index (delete k) w)]> w).
Proof. unfold index_insert. rpure. by rewrite set_index_insert. Qed.

Lemma Writer_set_run w C k v : crep w C →
  run (Writer_set k v) w = run maybe_compact (after_set4 k v w).
Proof.
  intros Hr. unfold Writer_set, Command_set. erewrite run_atomic_ok; [|reflexivity]. cbn beta.
  rewrite (run_atomic_ok _ _ _ _ _ (write_cmd_ok _ _ _ Hr)). rpure.
  unfold after_set4, old_len, logged. cbn [w_index wrote4 set_disk set_writer].
  destruct (w_index w !! k) as [q|] eqn:Hk; rpure; [by rewrite index_insert_run|].
  change (mret tt ≫= ?f) with (f tt). cbn beta. rewrite index_insert_run. by rewrite N.add_0_r.
Qed.

(** The state [remove] reaches before it may compact. *)
Definition after_remove4 (k : string) (w : World) : World :=
  logged (Command_Remove k) (delete k (w_index w))
    (kw_uncompacted (w_writer w) + old_len (w_index w) k + blen (to_writer (Command_Remove k))) w.

Lemma crep_after_remove w C cs k : crep w C → C !! kw_gen (w_writer w) = Some cs →
  crep (after_remove4 k w) (<[kw_gen (w_writer w) := cs ++ [Command_Remove k]]> C).
Proof.
  intros Hr Hcs. apply crep_logged; [done|done|..].
  - by apply index_ok_delete, index_ok_logged, Hr.
  - intros k' p' [_ Hp]%lookup_delete_Some. by eapply crep_safe.
  - pose proof (crep_account _ _ Hr) as Hacc. rewrite (old_len_live _ k) in Hacc. lia.
Qed.

Lemma Writer_remove_run w C k v : crep w C → meaning C !! k = Some v →
  run (Writer_remove k) w = run maybe_compact (after_remove4 k w).
Proof.
  intros Hr Hk. assert (is_Some (w_index w !! k)) as [p Hp].
  { eapply index_ok_dom; [apply Hr|]. eauto. }
  unfold Writer_remove, Command_remove. rpure. rewrite Hp.
  erewrite run_atomic_ok; [|reflexivity]. cbn beta.
  rewrite (run_atomic_ok _ _ _ _ _ (write_cmd_ok _ _ _ Hr)).
  rewrite run_assoc. erewrite run_atomic_ok.
  2:{ unfold expect, gets, modify, mbind, M_bind. cbn. rewrite Hp. reflexivity. }
  rpure. unfold after_remove4, old_len, logged. rewrite Hp. f_equal. simpl.
  replace (wr_pos (kw_writer (w_writer w)) + blen (to_writer (Command_Remove k))
    - wr_pos (kw_writer (w_writer w)))%N with (blen (to_writer (Command_Remove k))) by lia.
  done.
Qed.

Lemma Writer_remove_missing w C k : crep w C → meaning C !! k = None →
  run (Writer_remove k) w = Some (Err KeyNotFound, w).
Proof.
  intros Hr Hk. apply (index_ok_None _ _ _ _ (crep_index _ _ Hr)) in Hk.
  unfold Writer_remove. rpure. by rewrite Hk.
Qed.

(** ** compact *)

(** [copy_loop] changes the index, the handles of the writer's reader and the content of
    the new log only. *)
Record copied (w w' : World) : Prop := {
  cp_safe_point : w_safe_point w' = w_safe_point w;
  cp_lock : w_lock w' = w_lock w;
  cp_writer : kw_writer (w_writer w') = kw_writer (w_writer w);
  cp_gen : kw_gen (w_writer w') = kw_gen (w_writer w);
  cp_pool : w_pool w' = w_pool w;
  cp_dir : dir (w_disk w') = dir (w_disk w);
}.

#[global] Instance copied_preorder : PreOrder copied.
Proof. split; [done|]. intros w1 w2 w3 [] []. split; congruence. Qed.

Lemma only_handles_copied h w w' : only_handles h w w' → copied w w'.
Proof. intros []. by split; try congruence. Qed.

(** What the compaction writer has been given: the part that reached the disk, and its buffer. *)
Definition given (written : bytes) (bw : BufWriterWithPos) : bytes := written ++ wr_buf bw.

Lemma handles_ok_disk w d' : handles_ok w →
  (∀ g h, names (w_disk w) g h → names d' g h) → handles_ok (set_disk d' w).
Proof. intros Hok Hn h g r Hg Hsp. apply Hn, (Hok h g r); by destruct h. Qed.

Lemma copy_data_ok L cg w bw written data :
  fs_wf (w_disk w) → log_view (w_disk w) (<[cg := written]> L) → names (w_disk w) cg (wr_ino bw) →
  ∃ w' bw' written', copy_data bw data w = (Ok bw', w') ∧ (∃ d', w' = set_disk d' w) ∧ copied w w'
    ∧ fs_wf (w_disk w') ∧ log_view (w_disk w') (<[cg := written']> L) ∧ wr_ino bw' = wr_ino bw
    ∧ given written' bw' = given written bw ++ data.
Proof.
  intros Hwf Hlv Hn. unfold copy_data, writer_spill, writer_write. simpl.
  set (k := spilled (wr_buf bw ++ data)). set (spill := take k (wr_buf bw ++ data)).
  destruct (append_log (w_disk w) _ Hwf Hlv cg (wr_ino bw) written spill Hn) as [Hwf' Hlv'];
    [by rewrite lookup_insert_eq|]. rewrite insert_insert_eq in Hlv'.
  eexists _, _, (written ++ spill). split; [reflexivity|]. split; [by eexists|].
  split_and!; try done. unfold given, spill. simpl. by rewrite <-!app_assoc, take_drop.
Qed.

Lemma copy_loop_ok L cg m keys w bw written :
  fs_wf (w_disk w) → log_view (w_disk w) (<[cg := written]> L) → names (w_disk w) cg (wr_ino bw) →
  NoDup keys → handles_ok w →
  index_ok (<[cg := given written bw]> L) (w_index w) m →
  (∀ k, k ∈ keys → ∃ p, w_index w !! k = Some p ∧ gen p ≠ cg ∧ (w_safe_point w <= gen p)%N) →
  ∃ w' bw' written', run (copy_loop keys cg bw (blen (given written bw))) w = Some (Ok bw', w')
    ∧ copied w w' ∧ handles_ok w'
    ∧ fs_wf (w_disk w') ∧ log_view (w_disk w') (<[cg := written']> L) ∧ wr_ino bw' = wr_ino bw
    ∧ given written' bw' = given written bw ++ encode_log (set_cmds m keys)
    ∧ index_ok (<[cg := given written' bw']> L) (w_index w') m
    ∧ (∀ k p, w_index w' !! k = Some p →
         (k ∈ keys ∧ gen p = cg) ∨ ((k ∉ keys) ∧ w_index w !! k = Some p)).
Proof.
  revert w bw written. induction keys as [|k keys IH]; intros w bw written Hwf Hlv Hcg Hnd Hok Hidx Hkeys.
  { exists w, bw, written. split_and!; try done.
    - change (encode_log _) with (@nil byte). by rewrite app_nil_r.
    - right. split; [apply not_elem_of_nil|done]. }
  apply NoDup_cons in Hnd as [Hk Hnd].
  destruct (Hkeys k ltac:(set_solver)) as (p & Hp & Hgen & Hsp).
  destruct (index_ok_lookup _ _ _ _ _ Hidx Hp) as (v & Hv & c & Hc & Hb & Hsl).
  rewrite lookup_insert_ne in Hc by done. set (cmd := Command_Set k v) in *.
  destruct (read_and_run WriterReader w (<[cg := written]> L) p c
    (λ data, b ← atomic (copy_data bw data); mret (b, blen data)) Hlv Hok Hsp)
    as (w1 & Hread & Ho & Hok1); [by rewrite lookup_insert_ne|].
  rewrite Hsl in Hread. pose proof (oh_disk _ _ _ Ho) as Hd1.
  destruct (copy_data_ok L cg w1 bw written (to_writer cmd)) as
    (w2 & bw1 & written1 & Hcopy & [d' Hw2] & Hcp2 & Hwf2 & Hlv2 & Hino & Hgiven); [by rewrite Hd1..|].
  rewrite (run_atomic_ok _ _ _ _ _ Hcopy) in Hread.
  set (p1 := CommandPos_from cg (blen (given written bw)) (blen (given written bw) + blen (to_writer cmd))).
  set (w3 := set_index <[k := p1]> w2).
  assert (w_index w3 = <[k := p1]> (w_index w)) as Hi3.
  { unfold w3. simpl. subst w2. simpl. by rewrite (oh_index _ _ _ Ho). }
  assert (copied w w3) as Hc3 by (etrans; [by eapply only_handles_copied|etrans; [exact Hcp2|done]]).
  destruct (IH w3 bw1 written1) as (w' & bw' & written' & Hrun & Hcp & Hok' & Hwf' & Hlv' & Hino' & Hgiven' & Hidx' & Hfrom).
  { done. }
  { done. }
  { rewrite (cp_dir _ _ Hc3), Hino. exact Hcg. }
  { done. }
  { subst w2. assert (handles_ok (set_disk d' w1)) as Hok2.
    { apply (handles_ok_disk w1 d' Hok1). intros g' h' Hn. by rewrite <-(cp_dir _ _ Hcp2) in Hn. }
    intros h g r Hg. apply (Hok2 h g r). by destruct h. }
  { rewrite Hi3, <-(insert_id m k v) by done. apply index_ok_insert.
    - eapply index_ok_mono; [exact Hidx|]. intros k' p' c' _.
      rewrite !lookup_insert, Hgiven. case_decide; intros; simplify_eq; [eauto|].
      exists []. by rewrite app_nil_r.
    - apply (CommandPos_from_here cg _ k v (given written bw) []).
      by rewrite lookup_insert_eq, app_nil_r, Hgiven. }
  { intros k' Hk'. destruct (Hkeys k' ltac:(set_solver)) as (p' & Hp' & Hg' & Hs').
    exists p'. rewrite Hi3, lookup_insert_ne by (by intros <-).
    by rewrite (cp_safe_point _ _ Hc3). }
  exists w', bw', written'. split_and!; try done.
  - cbn [copy_loop]. erewrite run_atomic_ok.
    2:{ unfold gets, mbind, M_bind. simpl. rewrite Hp. reflexivity. }
    rewrite (run_bind_ok _ _ _ _ _ Hread). cbn zeta. rewrite index_insert_run.
    rewrite <-Hrun, Hgiven, blen_app. done.
  - by etrans.
  - by rewrite Hino', Hino.
  - rewrite Hgiven', Hgiven, <-app_assoc. f_equal. simpl. rewrite Hv.
    change (?x :: ?l) with ([x] ++ l). by rewrite encode_log_app, encode_log_one.
  - intros k' p' [[Hin Hg]|[Hnin Hs1]]%Hfrom; [left; set_solver|].
    rewrite Hi3, lookup_insert in Hs1. case_decide.
    + simplify_eq. left. split; [set_solver|done].
    + right. set_solver.
Qed.

Lemma delete_loop_ok gs w C : disk_ok (w_disk w) C → NoDup gs →
  (∀ g, g ∈ gs → is_Some (C !! g)) →
  ∃ d', run (delete_loop gs) w = Some (Ok tt, set_disk d' w)
    ∧ disk_ok d' (remove_gens gs C)
    ∧ (∀ g h, g ∉ gs → names (w_disk w) g h → names d' g h).
Proof.
  revert w C. induction gs as [|g gs IH]; intros w C Hd Hnd Hin.
  { exists (w_disk w). split_and!; try done. by destruct w. }
  apply NoDup_cons in Hnd as [Hg Hnd]. destruct (Hin g ltac:(set_solver)) as [cs Hcs].
  destruct (remove_file_log (w_disk w) (enc C) (ok_wf _ _ Hd) (ok_view _ _ Hd) g (encode_log cs))
    as (d1 & Hrm & Hwf & Hlv & Hn & _); [by rewrite lookup_fmap, Hcs|].
  destruct (IH (set_disk d1 w) (delete g C)) as (d' & Hrun & Hd' & Hn').
  { split; [done|]. by rewrite fmap_delete. }
  { done. }
  { intros g' Hg'. rewrite lookup_delete_ne by (by intros <-). apply Hin. set_solver. }
  exists d'. split_and!; try done.
  - cbn [delete_loop]. erewrite run_atomic_ok; [|by rewrite Hrm]. exact Hrun.
  - intros g' h Hg' Hh. apply Hn'; [set_solver|]. apply Hn; [set_solver|done].
Qed.

Lemma new_log_writer_ok w C g : disk_ok (w_disk w) C → (g <= U64_MAX)%N → C !! g = None →
  ∃ d' h, new_log_writer g w = (Ok (BufWriterWithPos_new h), set_disk d' w)
    ∧ disk_ok d' (<[g := []]> C) ∧ names d' g h
    ∧ (∀ g' h', names (w_disk w) g' h' → names d' g' h').
Proof.
  intros [Hwf Hlv] Hb Hg.
  destruct (open_append_new (w_disk w) (enc C) Hwf Hlv g Hb)
    as (d' & Happ & Hwf' & Hlv' & Hn & Hnames & _); [by rewrite lookup_fmap, Hg|].
  exists d', (next_ino (w_disk w)). unfold new_log_writer.
  assert (on_disk (open_append (log_path g)) w = (Ok (next_ino (w_disk w)), set_disk d' w)) as Ho.
  { unfold on_disk. by rewrite Happ. }
  rewrite (bind_ok _ _ _ _ _ (question_ok _ _ _ _ Ho)). split_and!; try done.
  split; [done|]. by rewrite fmap_insert.
Qed.

(** The logs once everything is copied and nothing is deleted yet. *)
Definition with_compacted (C : gmap N (list Command)) (cur : N) (keys : list string) :
    gmap N (list Command) :=
  <[(cur + 1)%N := set_cmds (meaning C) keys]> (<[(cur + 2)%N := []]> C).

Record copy_done (w w3 : World) (C : gmap N (list Command)) : Prop := {
  cd_disk : disk_ok (w_disk w3) (with_compacted C (kw_gen (w_writer w)) (btree_keys (w_index w)));
  cd_handles : handles_ok w3;
  cd_index : index_ok (enc (with_compacted C (kw_gen (w_writer w)) (btree_keys (w_index w))))
               (w_index w3) (meaning C);
  cd_moved : ∀ k p, w_index w3 !! k = Some p → gen p = (kw_gen (w_writer w) + 1)%N;
  cd_gen : kw_gen (w_writer w3) = (kw_gen (w_writer w) + 2)%N;
  cd_safe_point : w_safe_point w3 = w_safe_point w;
  cd_lock : w_lock w3 = w_lock w;
  cd_pool : w_pool w3 = w_pool w;
  cd_writer : ∃ h, kw_writer (w_writer w3) = BufWriterWithPos_new h
                   ∧ names (w_disk w3) (kw_gen (w_writer w) + 2)%N h;
}.

Lemma compact_copy_run w C : crep w C → (kw_gen (w_writer w) + 2 <= U64_MAX)%N →
  ∃ w3, run compact_copy w = Some (Ok (kw_gen (w_writer w) + 1)%N, w3) ∧ copy_done w w3 C.
Proof.
  intros Hr Hb. set (cur := kw_gen (w_writer w)) in *. set (keys := btree_keys (w_index w)).
  assert (∀ g, (cur < g)%N → C !! g = None) as Hnew.
  { intros g Hg. apply eq_None_not_Some. intros H%(crep_newest _ _ Hr). unfold cur in Hg. lia. }
  set (w0 := set_writer (set_kw_gen (cur + 2)) w).
  destruct (new_log_writer_ok w0 C (cur + 2) (crep_disk _ _ Hr) Hb ltac:(apply Hnew; lia))
    as (d1 & h1 & Hnf1 & Hd1 & Hn1 & Hnames1).
  set (w1 := set_writer (set_kw_writer (BufWriterWithPos_new h1)) (set_disk d1 w0)).
  set (C1 := <[(cur + 2)%N := []]> C) in *.
  destruct (new_log_writer_ok w1 C1 (cur + 1) Hd1 ltac:(lia))
    as (d2 & h2 & Hnf2 & Hd2 & Hn2 & Hnames2).
  { unfold C1. rewrite lookup_insert_ne by lia. apply Hnew. lia. }
  set (w2 := set_disk d2 w1). set (C2 := <[(cur + 1)%N := []]> C1) in *.
  assert (∀ k p, w_index w !! k = Some p → (gen p <= cur)%N) as Hgens.
  { intros k p Hp. destruct (index_ok_lookup _ _ _ _ _ (crep_index _ _ Hr) Hp) as (v & _ & c & Hc & _).
    apply (crep_newest _ _ Hr). rewrite lookup_fmap in Hc. destruct (C !! gen p); by eauto. }
  assert (handles_ok w2) as Hok2.
  { intros h g r Hg Hsp. apply Hnames2, Hnames1. apply (crep_handles _ _ Hr h g r); [by destruct h|done]. }
  assert (enc C2 = <[(cur + 1)%N := []]> (enc C1)) as HC2 by (unfold C2; by rewrite fmap_insert).
  assert (log_view d2 (<[(cur + 1)%N := []]> (enc C1))) as Hlv2 by (rewrite <-HC2; apply Hd2).
  destruct (copy_loop_ok (enc C1) (cur + 1) (meaning C) keys w2 (BufWriterWithPos_new h2) [] (ok_wf _ _ Hd2) Hlv2)
    as (w3 & bw3 & written & Hrun & Hcp & Hok3 & Hwf3 & Hlv3 & Hino & Hgiven & Hidx3 & Hfrom).
  { done. }
  { apply NoDup_btree_keys. }
  { done. }
  { simpl. eapply index_ok_mono; [apply Hr|]. intros k p c Hp Hc. exists [].
    pose proof (Hgens k p Hp). unfold C1.
    rewrite app_nil_r, !fmap_insert, !lookup_insert_ne by lia. done. }
  { intros k [p Hp]%elem_of_btree_keys. exists p. pose proof (Hgens k p Hp).
    split_and!; [done|lia|]. by apply (crep_safe _ _ Hr k). }
  assert (names (w_disk w3) (cur + 1) (wr_ino bw3)) as Hn3 by (by rewrite (cp_dir _ _ Hcp), Hino).
  destruct (append_log (w_disk w3) _ Hwf3 Hlv3 (cur + 1) (wr_ino bw3) written (wr_buf bw3) Hn3)
    as [Hwf4 Hlv4]; [by rewrite lookup_insert_eq|]. rewrite insert_insert_eq in Hlv4.
  assert (given written bw3 = encode_log (set_cmds (meaning C) keys)) as Hall by (by rewrite Hgiven).
  assert (enc (with_compacted C cur keys) = <[(cur + 1)%N := given written bw3]> (enc C1)) as HC3.
  { unfold with_compacted, C1. by rewrite !fmap_insert, Hall. }
  exists (set_disk (append (wr_ino bw3) (wr_buf bw3) (w_disk w3)) w3). split.
  - unfold compact_copy. erewrite run_atomic_ok.
    2:{ mpure. erewrite bind_ok by (apply u64_add_ok; unfold cur in *; lia).
        erewrite bind_ok by (apply u64_add_ok; unfold cur in *; lia). mpure. reflexivity. }
    rewrite (run_atomic_ok _ _ _ tt w1).
    2:{ mpure. fold w0. change (kw_gen (w_writer w0)) with (cur + 2)%N.
        by rewrite (bind_ok _ _ _ _ _ Hnf1). }
    rewrite (run_atomic_ok _ _ _ _ _ Hnf2). fold w2. erewrite run_atomic_ok; [|reflexivity].
    rewrite (run_bind_ok _ _ _ _ _ Hrun). cbv beta. by erewrite run_atomic_ok; [|reflexivity].
  - destruct Hcp as [Hs Hl Hw Hg Hp Hdir]. split; fold cur keys; simpl.
    + split; [done|]. by rewrite HC3.
    + apply handles_ok_disk; [done|]. intros g h Hn. by apply names_append.
    + by rewrite HC3.
    + intros k p Hkp. destruct (Hfrom k p Hkp) as [[_ ?]|[Hk Hp']]; [done|].
      destruct Hk. apply elem_of_btree_keys. eauto.
    + by rewrite Hg.
    + by rewrite Hs.
    + by rewrite Hl.
    + by rewrite Hp.
    + exists h1. rewrite Hw. split; [done|]. rewrite Hdir. by apply Hnames2.
Qed.

Lemma stale_gens_compacted C cur keys (d : Disk) :
  disk_ok d (with_compacted C cur keys) → (∀ g, is_Some (C !! g) → (g <= cur)%N) →
  let stale := filter (λ g, (g < cur + 1)%N) (sorted_gen_list d) in
  NoDup stale ∧ (∀ g, g ∈ stale ↔ is_Some (C !! g))
  ∧ remove_gens stale (with_compacted C cur keys) = compacted C cur keys.
Proof.
  intros [Hwf Hlv] Hnew stale.
  pose proof (sorted_gen_list_view d _ Hwf Hlv) as Hsg. rewrite gens_fmap in Hsg.
  assert (∀ g, g ∈ stale ↔ is_Some (C !! g)) as Hin.
  { intros g. unfold stale. rewrite list_elem_of_filter, Hsg, elem_of_gens.
    unfold with_compacted. rewrite !lookup_insert. split.
    - intros [Hlt Hg]. repeat case_decide; [lia|lia|done].
    - intros Hg. pose proof (Hnew g Hg). split; [lia|]. by rewrite !decide_False by lia. }
  split_and!; [apply NoDup_filter; rewrite Hsg; apply NoDup_gens|done|].
  apply map_eq. intros g. rewrite lookup_remove_gens. unfold with_compacted, compacted.
  case_decide as Hg.
  - apply Hin in Hg. pose proof (Hnew g Hg).
    by rewrite lookup_insert_ne, lookup_singleton_ne by lia.
  - rewrite <-insert_empty, !lookup_insert, lookup_empty.
    repeat case_decide; try lia; try done. apply eq_None_not_Some. by rewrite <-Hin.
Qed.

(** Compaction alone: the meaning stays, only live bytes are left. *)
Lemma compact_run w C : crep w C → (kw_gen (w_writer w) + 2 <= U64_MAX)%N →
  ∃ w', run compact w = Some (Ok tt, w')
    ∧ crep w' (compacted C (kw_gen (w_writer w)) (btree_keys (w_index w)))
    ∧ kw_gen (w_writer w') = (kw_gen (w_writer w) + 2)%N
    ∧ kw_uncompacted (w_writer w') = 0%N
    ∧ w_lock w' = w_lock w ∧ w_pool w' = w_pool w.
Proof.
  intros Hr Hb. destruct (compact_copy_run w C Hr Hb) as (w3 & Hrun & Hcd).
  set (cur := kw_gen (w_writer w)) in *. set (keys := btree_keys (w_index w)) in *.
  set (w4 := set_safe_point (cur + 1) w3).
  destruct (close_stale_handles_run WriterReader w4) as (w5 & Hclose & Ho & Hk5).
  assert (w_disk w5 = w_disk w3) as Hd5 by apply Ho.
  destruct (stale_gens_compacted C cur keys (w_disk w5)) as (Hnd & Hin & HC).
  { rewrite Hd5. apply Hcd. } { apply Hr. }
  set (stale := filter _ _) in *.
  destruct (delete_loop_ok stale w5 (with_compacted C cur keys)) as (d6 & Hdel & Hd6 & Hn6).
  { rewrite Hd5. apply Hcd. } { done. }
  { intros g Hg%Hin. pose proof (crep_newest _ _ Hr g Hg). unfold with_compacted.
    by rewrite !lookup_insert_ne by (unfold cur; lia). }
  rewrite HC in Hd6. assert (∀ g, (cur < g)%N → g ∉ stale) as Hkeep.
  { intros g Hg Hs%Hin. pose proof (crep_newest _ _ Hr g Hs). unfold cur in Hg. lia. }
  assert (∀ k, k ∈ keys ↔ is_Some (meaning C !! k)) as Hkeys.
  { intros k. unfold keys. rewrite elem_of_btree_keys. by eapply index_ok_dom, Hr. }
  exists (set_writer (set_kw_uncompacted (λ _, 0%N)) (set_disk d6 w5)).
  destruct Hcd as [_ Hh3 Hidx3 Hmoved Hg3 Hsp3 Hl3 Hp3 (h & Hw3 & Hn3)].
  split_and!; [| |by simpl; rewrite (oh_gen _ _ _ Ho)|done
    |by simpl; rewrite (oh_lock _ _ _ Ho)|by simpl; rewrite (oh_pool _ _ _ Ho)].
  { unfold compact. rewrite (run_bind_ok _ _ _ _ _ Hrun). erewrite run_atomic_ok; [|reflexivity].
    rewrite (run_bind_ok _ _ _ _ _ Hclose). erewrite run_atomic_ok; [|reflexivity].
    rewrite (run_bind_ok _ _ _ _ _ Hdel). done. }
  split; simpl; rewrite ?(oh_index _ _ _ Ho), ?(oh_safe_point _ _ _ Ho), ?(oh_writer _ _ _ Ho),
    ?(oh_gen _ _ _ Ho); simpl; rewrite ?Hg3, ?Hw3.
  - exact Hd6.
  - rewrite meaning_compacted by done. eapply index_ok_mono; [exact Hidx3|].
    intros k p c Hp Hc. exists []. rewrite app_nil_r. rewrite <-Hc, (Hmoved _ _ Hp).
    unfold compacted, with_compacted. fold cur. rewrite !fmap_insert, lookup_insert_ne by lia.
    by rewrite map_fmap_singleton, lookup_singleton_eq, lookup_insert_eq.
  - intros h' g r Hgr Hsp. simpl in Hsp. rewrite (oh_safe_point _ _ _ Ho) in Hsp. simpl in Hsp.
    apply Hn6; [apply Hkeep; lia|]. rewrite Hd5.
    pose proof (crep_safe_gen _ _ Hr). apply (Hh3 h'); [|fold cur in H; lia].
    destruct (decide (h' = WriterReader)) as [->|Hne].
    + assert (handles WriterReader w5 !! g = Some r) as Hgr' by exact Hgr.
      rewrite Hk5 in Hgr'. by apply lookup_keep in Hgr' as [? _].
    + assert (handles h' w5 !! g = Some r) as Hgr' by (by destruct h').
      rewrite (oh_other _ _ _ Ho) in Hgr' by done. by destruct h'.
  - intros k p Hp. rewrite (Hmoved k p Hp). done.
  - lia.
  - apply Hn6; [apply Hkeep; lia|]. by rewrite Hd5.
  - done.
  - exists []. unfold compacted. by rewrite lookup_insert_eq.
  - intros g. unfold compacted. rewrite lookup_insert. case_decide; [lia|].
    intros [? [<- _]%lookup_singleton_Some]. lia.
  - rewrite total_compacted, (live_compacted _ _ _ keys Hidx3); [done|].
    apply btree_keys_perm. intros k. fold keys. rewrite Hkeys. symmetry. by eapply index_ok_dom.
Qed.

(** ** set and remove *)

(** The tail of [set] and [remove]: afterwards at most the threshold is stale. *)
Lemma maybe_compact_ok w C : crep w C → (kw_gen (w_writer w) + 2 <= U64_MAX)%N →
  ∃ w' C', run maybe_compact w = Some (Ok tt, w') ∧ crep w' C' ∧ meaning C' = meaning C
    ∧ (kw_gen (w_writer w') <= kw_gen (w_writer w) + 2)%N
    ∧ (kw_uncompacted (w_writer w') <= COMPACTION_THRESHOLD)%N
    ∧ w_lock w' = w_lock w ∧ w_pool w' = w_pool w.
Proof.
  intros Hr Hb. unfold maybe_compact. rpure.
  destruct (N.ltb_spec COMPACTION_THRESHOLD (kw_uncompacted (w_writer w))) as [Hlt|Hle].
  - destruct (compact_run w C Hr Hb) as (w' & Hrun & Hr' & Hg & Hu & Hl & Hp).
    eexists w', _. split_and!; [done|exact Hr'| |by rewrite Hg|by rewrite Hu|done|done].
    apply meaning_compacted. intros k. rewrite elem_of_btree_keys. by eapply index_ok_dom, Hr.
  - exists w, C. split_and!; try done. lia.
Qed.

Lemma with_lock_run {A} (body : WP A) w o w' : w_lock w = Unlocked → o ≠ Panic →
  run body (set_lock Locked w) = Some (o, w') →
  run (with_lock body) w = Some (o, set_lock Unlocked w').
Proof.
  intros Hl Ho Hrun. unfold with_lock. cbn [run]. rewrite Hl.
  rewrite (run_finally _ _ _ _ _ Hrun). by destruct o.
Qed.

Lemma crep_set_lock l w C : crep w C → crep (set_lock l w) C.
Proof. intros []. by split. Qed.

Lemma set_ok w C k v : crep w C → w_lock w = Unlocked → (kw_gen (w_writer w) + 2 <= U64_MAX)%N →
  ∃ w' C', run (set k v) w = Some (Ok tt, w') ∧ crep w' C' ∧ meaning C' = <[k := v]> (meaning C)
    ∧ w_lock w' = Unlocked ∧ (kw_gen (w_writer w') <= kw_gen (w_writer w) + 2)%N
    ∧ (kw_uncompacted (w_writer w') <= COMPACTION_THRESHOLD)%N ∧ w_pool w' = w_pool w.
Proof.
  intros Hr Hl Hb. pose proof (crep_set_lock Locked _ _ Hr) as Hr1.
  destruct (crep_pos _ _ Hr1) as (cs & Hcs & _).
  pose proof (crep_after_set _ _ _ k v Hr1 Hcs) as Hr2.
  destruct (maybe_compact_ok _ _ Hr2 Hb) as (w' & C' & Hrun & Hr' & Hm & Hg & Hu & Hl' & Hp).
  exists (set_lock Unlocked w'), C'. split_and!; try done.
  - apply with_lock_run; [done|done|]. by rewrite (Writer_set_run _ _ _ _ Hr1).
  - by apply crep_set_lock.
  - rewrite Hm. by rewrite (meaning_append C _ cs) by (done || apply Hr1).
Qed.

Lemma remove_ok w C k v : crep w C → w_lock w = Unlocked → (kw_gen (w_writer w) + 2 <= U64_MAX)%N →
  meaning C !! k = Some v →
  ∃ w' C', run (remove k) w = Some (Ok tt, w') ∧ crep w' C' ∧ meaning C' = delete k (meaning C)
    ∧ w_lock w' = Unlocked ∧ (kw_gen (w_writer w') <= kw_gen (w_writer w) + 2)%N
    ∧ (kw_uncompacted (w_writer w') <= COMPACTION_THRESHOLD)%N ∧ w_pool w' = w_pool w.
Proof.
  intros Hr Hl Hb Hk. pose proof (crep_set_lock Locked _ _ Hr) as Hr1.
  destruct (crep_pos _ _ Hr1) as (cs & Hcs & _).
  pose proof (crep_after_remove _ _ _ k Hr1 Hcs) as Hr2.
  destruct (maybe_compact_ok _ _ Hr2 Hb) as (w' & C' & Hrun & Hr' & Hm & Hg & Hu & Hl' & Hp).
  exists (set_lock Unlocked w'), C'. split_and!; try done.
  - apply with_lock_run; [done|done|]. by rewrite (Writer_remove_run _ _ _ _ Hr1 Hk).
  - by apply crep_set_lock.
  - rewrite Hm. by rewrite (meaning_append C _ cs) by (done || apply Hr1).
Qed.

Lemma remove_missing w C k : crep w C → w_lock w = Unlocked → meaning C !! k = None →
  run (remove k) w = Some (Err KeyNotFound, w).
Proof.
  intros Hr Hl Hk. pose proof (crep_set_lock Locked _ _ Hr) as Hr1.
  unfold remove.
  rewrite (with_lock_run (Writer_remove k) w (Err KeyNotFound) _ Hl ltac:(done) (Writer_remove_missing _ _ _ Hr1 Hk)).
  destruct w. simpl in *. by rewrite Hl.
Qed.

(** ** open *)

(** Everything of [open] but who keeps the handles. *)
Lemma open_base d C : disk_ok d C → (default 0 (last (gens C)) < U64_MAX)%N →
  ∃ rds idx unc d' h, open_loop (E:=KvsError) (gens C) ∅ ∅ 0 d = (Ok (rds, idx, unc), d)
    ∧ let cur := (default 0 (last (gens C)) + 1)%N in
      open_append (log_path cur) d = (Ok h, d')
      ∧ (∀ readers pool, (∀ i hs g r, readers !! i = Some hs → hs !! g = Some r → rds !! g = Some r) →
          crep (mkWorld idx 0 Unlocked (mkKvWriter ∅ (BufWriterWithPos_new h) cur unc) readers pool d')
            (<[cur := []]> C))
      ∧ meaning (<[cur := []]> C) = meaning C.
Proof.
  intros Hd Hb. set (cur := (default 0 (last (gens C)) + 1)%N).
  assert (∀ g, is_Some (C !! g) → (g < cur)%N) as Habove by apply next_gen_above.
  assert (C !! cur = None) as Hnew by (apply eq_None_not_Some; intros H%Habove; lia).
  destruct (open_loop_ok (E:=KvsError) d C (gens C) ∅ ∅ 0 ∅ Hd)
    as (rds & idx & unc & Hloop & Hok & Hacc & Hdom & Hr).
  { intros g. apply elem_of_gens. }
  { intros k. rewrite !lookup_empty. constructor. }
  { intros g r. by rewrite lookup_empty. }
  destruct (open_append_new d (enc C) (ok_wf _ _ Hd) (ok_view _ _ Hd) cur)
    as (d' & Happ & Hwf' & Hlv' & Hn & Hnames & _); [lia|by rewrite lookup_fmap, Hnew|].
  assert (meaning (<[cur := []]> C) = meaning C) as Hm.
  { unfold meaning. by rewrite all_cmds_new, app_nil_r. }
  exists rds, idx, unc, d', (next_ino d). split; [done|]. split; [done|]. split; [|done].
  intros readers pool Hrds. split; simpl.
  - split; [done|]. by rewrite fmap_insert.
  - rewrite Hm. eapply index_ok_mono; [exact Hok|]. intros k p c _ Hc. exists [].
    rewrite app_nil_r, fmap_insert, lookup_insert_ne; [done|].
    intros ->. rewrite lookup_fmap, Hnew in Hc. done.
  - intros [i|] g r Hg _; simpl in *; [|by rewrite lookup_empty in Hg].
    destruct (readers !! i) as [hs|] eqn:Hi; simpl in Hg; [|by rewrite lookup_empty in Hg].
    apply Hnames, Hr. by eapply Hrds.
  - lia.
  - lia.
  - done.
  - done.
  - exists []. by rewrite lookup_insert_eq.
  - intros g. rewrite lookup_insert. case_decide; [lia|]. intros Hg%Habove. lia.
  - rewrite fmap_insert, total_insert by (by rewrite lookup_fmap, Hnew).
    rewrite total_all_cmds. rewrite live_empty in Hacc.
    change (encode_log []) with (@nil byte). rewrite blen_nil. unfold all_cmds. lia.
Qed.

Lemma open_run d C rds idx unc h d' : disk_ok d C → (default 0 (last (gens C)) < U64_MAX)%N →
  open_loop (E:=KvsError) (gens C) ∅ ∅ 0 d = (Ok (rds, idx, unc), d) →
  open_append (log_path (default 0%N (last (gens C)) + 1)%N) d = (Ok h, d') →
  open d = (Ok (mkWorld idx 0 Unlocked
    (mkKvWriter ∅ (BufWriterWithPos_new h) (default 0%N (last (gens C)) + 1)%N unc) {[ 0 := rds ]} [] d'), d').
Proof.
  intros Hd Hb Hloop Happ. unfold open. mpure.
  rewrite (sorted_gen_list_view d (enc C) (ok_wf _ _ Hd) (ok_view _ _ Hd)), gens_fmap.
  rewrite (bind_ok _ _ _ _ _ Hloop). erewrite bind_ok by (apply u64_add_ok; lia).
  by rewrite (bind_ok _ _ _ _ _ (question_ok _ _ _ _ Happ)).
Qed.

Lemma open_ok d C : disk_ok d C → (default 0 (last (gens C)) < U64_MAX)%N →
  ∃ w d' C', open d = (Ok w, d') ∧ w_disk w = d' ∧ crep w C' ∧ meaning C' = meaning C
    ∧ w_lock w = Unlocked ∧ kw_gen (w_writer w) = (default 0 (last (gens C)) + 1)%N.
Proof.
  intros Hd Hb.
  destruct (open_base d C Hd Hb) as (rds & idx & unc & d' & h & Hloop & Happ & Hrep & Hm).
  eexists _, d', _. split; [|split; [|split; [|split; [exact Hm|]]]].
  - exact (open_run d C _ _ _ _ _ Hd Hb Hloop Happ).
  - done.
  - apply Hrep. intros i hs g r [<- <-]%lookup_singleton_Some. done.
  - done.
Qed.

(** ** The store as an engine *)

(** A program that runs alone; a blocked one never answers. *)
Definition alone {A} (p : WP A) : WM A := λ w,
  match run p w with Some r => r | None => (Diverge, w) end.

Definition KvStore4_rep (n : nat) (w : World) (m : kvmap) : Prop :=
  ∃ C, crep w C ∧ meaning C = m ∧ w_lock w = Unlocked
       ∧ (kw_gen (w_writer w) + 2 * N.of_nat n <= U64_MAX)%N.
End spec.
