(* ===== verification/P5Store.v ===== *)
(** * The log engine behind a thread pool (project-5)

    [project-5/src/engines/kvs.rs]: the readers and the writer of project-4, run as
    jobs of a thread pool; a [get] takes a reader out of a bounded queue and puts
    it back. [P5] names the functions of that file: what differs from project-4 is
    defined here, the rest is the code of project-4. *)

From S2P Require Import Prelude Fs Command KvsEngine LogTheory KvStore KvStoreSpec Conc ConcStore ConcStoreSpec.

Module P5.
Section code.
Context `{!SerdeJson Command} {policy : BufWriterPolicy}.

(** [ArrayQueue::pop().unwrap()] and [ArrayQueue::push(..).unwrap()]. *)
Definition pool_pop : WM nat :=
  q ← gets w_pool;
  match q with
  | i :: q' => modify (set_pool (λ _, q'));; mret i
  | [] => panic
  end.

Definition pool_push (capacity : nat) (i : nat) : WM unit :=
  q ← gets w_pool;
  if (length q <? capacity)%nat then modify (set_pool (λ q, q ++ [i])) else panic.

(** The job a [set], [get] or [remove] hands to the thread pool. An error of
    [read_command] returns before the reader is put back. *)
Definition set_job (key value : string) : WP unit := with_lock (Writer_set key value).

Definition remove_job (key : string) : WP unit := with_lock (Writer_remove key).

Definition get_job (capacity : nat) (key : string) : WP (option string) :=
  o ← atomic (gets (λ w, w_index w !! key));
  match o with
  | Some cmd_pos =>
      reader ← atomic pool_pop;
      cmd ← read_command (Reader reader) cmd_pos;
      let res := match cmd with
                 | Command_Set _ value => Ok (Some value)
                 | Command_Remove _ => Err UnexpectedCommandType
                 end in
      atomic (pool_push capacity reader);;
      Done res
  | None => mret None
  end.

(** The future of a job: the oneshot channel carries the result; a job that
    panics drops its sender, and the receiver's error message is the parameter. *)
Definition future (canceled : string) {A} (o : outcome KvsError A) : outcome KvsError A :=
  match o with
  | Panic => Err (StringError canceled)
  | _ => o
  end.

(** Reader 0 is queued behind its clones [1 .. concurrency - 1]. A queue of
    capacity 0 cannot be made. *)
Definition open (concurrency : nat) : M KvsError Disk World :=
  gen_list ← gets sorted_gen_list;
  '(_, idx, unc) ← open_loop gen_list ∅ ∅ 0%N;
  cur ← u64_add (default 0%N (last gen_list)) 1;
  ino ← question (open_append (log_path cur));
  d ← gets id;
  match concurrency with
  | O => panic
  | S c =>
      mret (mkWorld idx 0 Unlocked (mkKvWriter ∅ (BufWriterWithPos_new ino) cur unc)
              (list_to_map ((λ i, (i, ∅)) <$> seq 0 (S c))) (seq 1 c ++ [0]) d)
  end.

(** The code project-5 shares with project-4. *)
Definition close_stale_handles : reader_id → WP unit := ConcStore.close_stale_handles.
Definition read_and {R} : reader_id → CommandPos → (bytes → WP R) → WP R := ConcStore.read_and.
Definition read_command : reader_id → CommandPos → WP Command := ConcStore.read_command.
Definition clone_reader : nat → WM unit := ConcStore.clone_reader.
Definition Writer_set : string → string → WP unit := ConcStore.Writer_set.
Definition Writer_remove : string → WP unit := ConcStore.Writer_remove.
Definition compact : WP unit := ConcStore.compact.
Definition new_log_file : N → WM BufWriterWithPos := ConcStore.new_log_writer.
Definition load : N → BufReaderWithPos → gmap string CommandPos → _ := KvStore.load (E:=KvsError).
Definition sorted_gen_list : Disk → list N := Fs.sorted_gen_list.
Definition log_path : N → string := Fs.log_path.
End code.

(** ** What it promises *)

Section spec.
Context `{!SerdeJson Command} `{!SerdeLaws Command} {policy : BufWriterPolicy}.

Lemma crep_set_pool f w C : crep w C → crep (set_pool f w) C.
Proof. intros []. by split. Qed.

Lemma get_job_ok cap i q w C k : crep w C → w_pool w = i :: q → length (w_pool w) <= cap →
  ∃ w' q', run (get_job cap k) w = Some (Ok (meaning C !! k), w') ∧ crep w' C
    ∧ w_pool w' = q' ∧ q' ≡ₚ w_pool w ∧ w_lock w' = w_lock w ∧ kw_gen (w_writer w') = kw_gen (w_writer w).
Proof.
  intros Hr Hq Hcap. unfold get_job. rpure. destruct (w_index w !! k) as [p|] eqn:Hk.
  2:{ exists w, (w_pool w). apply (index_ok_None _ _ _ _ (crep_index _ _ Hr)) in Hk. by rewrite Hk. }
  set (w1 := set_pool (λ _, q) w).
  pose proof (crep_set_pool (λ _, q) w C Hr) as Hr1. fold w1 in Hr1.
  destruct (index_ok_lookup _ _ _ _ _ (crep_index _ _ Hr) Hk) as (v & Hv & c & Hc & Hb & Hsl).
  destruct (read_and_run (Reader i) w1 (encode_log <$> C) p c
    (λ data, match from_reader data with inl cmd => mret cmd | inr e => Done (Err (from e)) end)
    (ok_view _ _ (crep_disk _ _ Hr1)) (crep_handles _ _ Hr1) (crep_safe _ _ Hr _ _ Hk) Hc)
    as (w2 & Hrun & Ho & Hok).
  rewrite Hsl, from_to in Hrun.
  exists (set_pool (λ q, q ++ [i]) w2), (q ++ [i]). split_and!.
  - rewrite (run_atomic_ok _ _ _ i w1).
    2:{ unfold pool_pop. mpure. by rewrite Hq. }
    rewrite (run_bind_ok _ _ _ _ _ Hrun). cbn zeta.
    rewrite (run_atomic_ok _ _ _ tt (set_pool (λ q, q ++ [i]) w2)); [by rewrite Hv|].
    unfold pool_push. mpure. rewrite (oh_pool _ _ _ Ho). simpl.
    rewrite Hq in Hcap. simpl in Hcap. by destruct (Nat.ltb_spec (length q) cap); [|lia].
  - apply crep_set_pool. by eapply crep_only.
  - simpl. by rewrite (oh_pool _ _ _ Ho).
  - rewrite Hq. by rewrite Permutation_app_comm.
  - simpl. by rewrite (oh_lock _ _ _ Ho).
  - simpl. by rewrite (oh_gen _ _ _ Ho).
Qed.

(** A failed read takes its reader out of the queue for good. *)
Lemma get_job_leaks cap i q w p k e w1 : w_index w !! k = Some p → w_pool w = i :: q →
  run (ConcStore.read_command (Reader i) p) (set_pool (λ _, q) w) = Some (Err e, w1) →
  run (get_job cap k) w = Some (Err e, w1).
Proof.
  intros Hk Hq Hrun. unfold get_job. rpure. rewrite Hk.
  rewrite (run_atomic_ok _ _ _ i (set_pool (λ _, q) w)).
  - by rewrite (run_bind _ _ _ _ _ Hrun).
  - unfold pool_pop. mpure. by rewrite Hq.
Qed.

Lemma get_job_empty cap w p k : w_index w !! k = Some p → w_pool w = [] →
  run (get_job cap k) w = Some (Panic, w).
Proof.
  intros Hk Hq. unfold get_job. rpure. rewrite Hk.
  erewrite run_bind; [|rewrite run_atomic; unfold pool_pop; mpure; by rewrite Hq]. done.
Qed.

Lemma open5_ok c d C : disk_ok d C → (default 0 (last (gens C)) < U64_MAX)%N →
  ∃ w d' C', open (S c) d = (Ok w, d') ∧ w_disk w = d' ∧ crep w C' ∧ meaning C' = meaning C
    ∧ w_lock w = Unlocked ∧ kw_gen (w_writer w) = (default 0 (last (gens C)) + 1)%N
    ∧ length (w_pool w) = S c.
Proof.
  intros Hd Hb.
  destruct (open_base d C Hd Hb) as (rds & idx & unc & d' & h & Hloop & Happ & Hrep & Hm).
  eexists _, d', _. split; [|split; [|split; [|split; [exact Hm|]]]].
  - unfold open. mpure.
    rewrite (sorted_gen_list_view d _ (ok_wf _ _ Hd) (ok_view _ _ Hd)), gens_fmap.
    rewrite (bind_ok _ _ _ _ _ Hloop). erewrite bind_ok by (apply u64_add_ok; lia).
    rewrite (bind_ok _ _ _ _ _ (question_ok _ _ _ _ Happ)). mpure. reflexivity.
  - done.
  - apply Hrep. intros i hs g r Hi Hg.
    apply elem_of_list_to_map_2, list_elem_of_fmap in Hi as (j & ? & _). simplify_eq.
  - split_and!; [done|done|]. simpl. rewrite length_app, length_seq. simpl. lia.
Qed.
End spec.
End P5.
