(* ===== verification/ConcTheorems.v ===== *)
(** * Theorems about the concurrent log engine running one operation at a time

    Operations through any of the clones of a store, the bound on the space the
    logs take, crashes while a compaction deletes files (project-4), and the pool
    of readers (project-5). *)

From S2P Require Import Prelude Fs Command Json KvsEngine LogTheory KvStore KvStoreSpec KvTheorems Conc ConcStore ConcStoreSpec P5Store.

Section theorems.
Context `{!SerdeJson Command} `{!SerdeLaws Command} {policy : BufWriterPolicy}.

Abbreviation enc C := (encode_log <$> C).

(** ** Operations through clones (project-4) *)

(** The operation a client makes through the clone [i]; an error is its answer. *)
Definition clone_op (i : nat) (o : Op) : WM (Reply KvsError) :=
  let reply {A} (f : A → Reply KvsError) (p : WP A) : WM (Reply KvsError) := λ w,
    match alone p w with
    | (Ok a, w') => (Ok (f a), w')
    | (Err e, w') => (Ok (RError e), w')
    | (Panic, w') => (Panic, w')
    | (Diverge, w') => (Diverge, w')
    end in
  match o with
  | OpSet k v => reply (λ _, RDone) (set k v)
  | OpGet k => reply RValue (get i k)
  | OpRemove k => reply (λ _, RDone) (remove k)
  end.

Fixpoint clone_ops (os : list (nat * Op)) : WM (list (Reply KvsError)) :=
  match os with
  | [] => mret []
  | (i, o) :: os' => r ← clone_op i o; rs ← clone_ops os'; mret (r :: rs)
  end.

Lemma clone_op_ok n i o w m : KvStore4_rep (S n) w m →
  ∃ w', clone_op i o w = (Ok (spec_op KeyNotFound m o).1, w')
        ∧ KvStore4_rep n w' (spec_op KeyNotFound m o).2.
Proof.
  intros (C & Hr & <- & Hl & Hb). unfold clone_op, alone. destruct o as [k v|k|k]; cbn [spec_op fst snd]; cbv zeta beta.
  - destruct (set_ok w C k v Hr Hl) as (w' & C' & -> & Hr' & Hm & Hl' & Hg & _); [lia|].
    exists w'. split; [done|]. exists C'. split_and!; [done..|lia].
  - destruct (get_ok i w C k Hr) as (w' & -> & Hr' & Ho).
    exists w'. split; [done|]. exists C. split_and!; [done..| |].
    + by rewrite (oh_lock _ _ _ Ho).
    + rewrite (oh_gen _ _ _ Ho). lia.
  - destruct (meaning C !! k) as [v|] eqn:Hk.
    + destruct (remove_ok w C k v Hr Hl ltac:(lia) Hk) as (w' & C' & -> & Hr' & Hm & Hl' & Hg & _).
      exists w'. split; [done|]. exists C'. split_and!; [done..|lia].
    + rewrite (remove_missing w C k Hr Hl Hk). exists w. split; [done|].
      exists C. split_and!; [done..|lia].
Qed.

(** Operations through any clones of a store answer as one map. Every
    operation succeeds with the answer of the map, whichever clone it is made
    through, and whichever handles that clone has open from before a compaction;
    [remove] of a missing key is the only error. *)
Theorem clones_refine os n w m : KvStore4_rep (length os + n) w m →
  ∃ w', clone_ops os w = (Ok (spec_run KeyNotFound m (snd <$> os)).1, w')
        ∧ KvStore4_rep n w' (spec_run KeyNotFound m (snd <$> os)).2.
Proof.
  revert w m. induction os as [|[i o] os IH]; intros w m Hr; [eauto|].
  destruct (clone_op_ok _ i o w m Hr) as (w1 & Hrun1 & Hr1).
  cbn [clone_ops]. rewrite (bind_ok _ _ _ _ _ Hrun1).
  cbn [fmap list_fmap snd spec_run]. destruct (spec_op KeyNotFound m o) as [r m1]. simpl in *.
  destruct (IH w1 m1 Hr1) as (w2 & Hrun2 & Hr2). rewrite (bind_ok _ _ _ _ _ Hrun2).
  destruct (spec_run KeyNotFound m1 (snd <$> os)) as [rs m2]. eauto.
Qed.

(** C38: the logs never take more than the threshold over what is live. After a
    [set], and after a [remove] that found its key, the bytes of all logs are at
    most the bytes the index keeps alive and [COMPACTION_THRESHOLD] more. *)
Theorem space_bound w C k (vo : option string) : crep w C → w_lock w = Unlocked →
  (kw_gen (w_writer w) + 2 <= U64_MAX)%N →
  (vo = None → is_Some (meaning C !! k)) →
  ∃ w' C', alone (match vo with Some v => set k v | None => remove k end) w = (Ok tt, w')
    ∧ crep w' C'
    ∧ (total (enc C') <= live (w_index w') + COMPACTION_THRESHOLD)%N.
Proof.
  intros Hr Hl Hb Hv. unfold alone. destruct vo as [v|].
  - destruct (set_ok w C k v Hr Hl Hb) as (w' & C' & -> & Hr' & _ & _ & _ & Hu & _).
    exists w', C'. split_and!; [done..|]. rewrite <-(crep_account _ _ Hr'). lia.
  - destruct (Hv eq_refl) as [v Hk].
    destruct (remove_ok w C k v Hr Hl Hb Hk) as (w' & C' & -> & Hr' & _ & _ & _ & Hu & _).
    exists w', C'. split_and!; [done..|]. rewrite <-(crep_account _ _ Hr'). lia.
Qed.

(** ** Crashes during a compaction (project-4) *)

(** [compact] up to the deletion of the first [n] stale files: its actions as [ConcStore]
    has them, but for the list of the deletions, which is cut off. *)
Definition crash_in_compact4 (n : nat) : WP unit :=
  compaction_gen ← compact_copy;
  atomic (modify (set_safe_point compaction_gen));;
  close_stale_handles WriterReader;;
  gen_list ← atomic (gets (λ w, sorted_gen_list (w_disk w)));
  delete_loop (take n (filter (λ g, (g < compaction_gen)%N) gen_list)).

Lemma gens_drop {A} (C : gmap N A) n : gens (remove_gens (take n (gens C)) C) = drop n (gens C).
Proof.
  symmetry. pose proof (sorted_gens C) as Hs. pose proof (NoDup_gens C) as Hnd.
  rewrite <-(take_drop n (gens C)) in Hs, Hnd.
  apply NoDup_app in Hnd as (_ & Hdis & Hnd). apply gens_unique.
  - done.
  - clear -Hs. induction (take n (gens C)); [done|]. simpl in Hs. apply StronglySorted_inv in Hs as [? _]. auto.
  - intros g. rewrite lookup_remove_gens. split.
    + intros Hg. rewrite decide_False by (intros Ht; by apply (Hdis g)).
      apply elem_of_gens. rewrite <-(take_drop n (gens C)). set_solver.
    + case_decide as Ht; [by intros []|]. intros Hg%elem_of_gens.
      rewrite <-(take_drop n (gens C)) in Hg. set_solver.
Qed.

Lemma meaning_partly_deleted C cur keys n :
  (∀ g, is_Some (C !! g) → (g <= cur)%N) → (∀ k, k ∈ keys ↔ is_Some (meaning C !! k)) →
  meaning (remove_gens (take n (gens C)) (with_compacted C cur keys)) = meaning C.
Proof.
  intros Hnew Hk. set (C' := remove_gens (take n (gens C)) C).
  assert (∀ g, is_Some (C' !! g) → (g <= cur)%N) as Hnew'.
  { intros g. unfold C'. rewrite lookup_remove_gens. case_decide; [by intros []|apply Hnew]. }
  assert (remove_gens (take n (gens C)) (with_compacted C cur keys)
    = <[(cur + 2)%N := []]> (<[(cur + 1)%N := set_cmds (meaning C) keys]> C')) as ->.
  { apply map_eq. intros g. unfold C', with_compacted.
    rewrite lookup_remove_gens, !lookup_insert, lookup_remove_gens.
    repeat case_decide; try lia; try done.
    all: assert (g ∈ gens C) as Hg%elem_of_gens
      by (rewrite <-(take_drop n (gens C)); set_solver); apply Hnew in Hg; lia. }
  unfold meaning at 1. rewrite all_cmds_new, app_nil_r.
  2:{ intros g. rewrite lookup_insert. case_decide; [lia|]. intros Hg%Hnew'. lia. }
  rewrite all_cmds_new by (intros g Hg%Hnew'; lia).
  assert (all_cmds C' = drop n (gens C) ≫= log_of C) as ->.
  { unfold all_cmds. unfold C' at 2. rewrite gens_drop. apply log_of_bind_ext.
    intros g Hg. unfold C'. rewrite lookup_remove_gens, decide_False; [done|]. intros Ht.
    pose proof (NoDup_gens C) as Hnd. rewrite <-(take_drop n (gens C)) in Hnd.
    apply NoDup_app in Hnd as (_ & Hdis & _). by apply (Hdis g). }
  assert (meaning C = replay ∅ ((take n (gens C) ≫= log_of C) ++ (drop n (gens C) ≫= log_of C))) as Hm.
  { unfold meaning, all_cmds. by rewrite <-bind_app, take_drop. }
  rewrite Hm. apply replay_suffix_compacted. intros k. by rewrite <-Hm.
Qed.

(** C29: a crash while a compaction deletes the stale files loses nothing and
    brings nothing back. However many of the files are gone, the next [open] of
    the directory gives a store of the same map. *)
Theorem crash_in_compact_safe n w C : crep w C → (kw_gen (w_writer w) + 2 < U64_MAX)%N →
  ∃ w1 w2 d2 C2, run (crash_in_compact4 n) w = Some (Ok tt, w1)
    ∧ open (w_disk w1) = (Ok w2, d2) ∧ crep w2 C2 ∧ meaning C2 = meaning C.
Proof.
  intros Hr Hb. destruct (compact_copy_run w C Hr ltac:(lia)) as (w3 & Hrun & Hcd).
  set (cur := kw_gen (w_writer w)) in *. set (keys := btree_keys (w_index w)) in *.
  destruct (close_stale_handles_run WriterReader (set_safe_point (cur + 1) w3))
    as (w5 & Hclose & Ho & _).
  assert (w_disk w5 = w_disk w3) as Hd5 by apply Ho.
  assert (disk_ok (w_disk w5) (with_compacted C cur keys)) as Hdisk by (rewrite Hd5; apply Hcd).
  destruct (stale_gens_compacted C cur keys (w_disk w5) Hdisk (crep_newest _ _ Hr)) as (Hnd & Hin & _).
  set (stale := filter _ _) in *.
  assert (stale = gens C) as Hstale.
  { apply gens_unique; [done| |done]. unfold stale.
    rewrite (sorted_gen_list_view _ _ (ok_wf _ _ Hdisk) (ok_view _ _ Hdisk)).
    apply StronglySorted_filter. apply sorted_gens. }
  destruct (delete_loop_ok (take n stale) w5 _ Hdisk) as (d6 & Hdel & Hd6 & _).
  { rewrite <-(take_drop n stale) in Hnd. by apply NoDup_app in Hnd as [? _]. }
  { intros g Hg%elem_of_take. destruct Hg as (j & Hg & _). apply list_elem_of_lookup_2, Hin in Hg.
    pose proof (crep_newest _ _ Hr g Hg). unfold with_compacted.
    by rewrite !lookup_insert_ne by (unfold cur; lia). }
  set (C6 := remove_gens (take n stale) (with_compacted C cur keys)) in *.
  assert (∀ g, is_Some (C6 !! g) → (g <= cur + 2)%N) as Hnew6.
  { intros g. unfold C6, with_compacted. rewrite lookup_remove_gens, !lookup_insert.
    repeat case_decide; try lia; [by intros []|]. intros Hg%(crep_newest _ _ Hr). unfold cur. lia. }
  destruct (open_ok d6 C6 Hd6) as (w2 & d2 & C2 & Hopen & _ & Hr2 & Hm2 & _).
  { destruct (last (gens C6)) as [g|] eqn:El; simpl; [|lia].
    apply gens_last_max in El as [Hg _]. apply Hnew6 in Hg. lia. }
  exists (set_disk d6 w5), w2, d2, C2. split_and!; [|done|done|].
  - unfold crash_in_compact4. rewrite (run_bind_ok _ _ _ _ _ Hrun).
    erewrite run_atomic_ok; [|reflexivity]. rewrite (run_bind_ok _ _ _ _ _ Hclose).
    erewrite run_atomic_ok; [|reflexivity]. exact Hdel.
  - rewrite Hm2. unfold C6. rewrite Hstale. apply meaning_partly_deleted; [apply Hr|].
    intros k. unfold keys. rewrite elem_of_btree_keys. by eapply index_ok_dom, Hr.
Qed.

(** ** The pool of readers (project-5) *)

(** The operations as a client of project-5 sees them: a job of the thread pool and
    its future. *)
Definition job_op (canceled : string) (cap : nat) (o : Op) : WM (Reply KvsError) :=
  let reply {A} (f : A → Reply KvsError) (p : WP A) : WM (Reply KvsError) := λ w,
    let '(r, w') := alone p w in
    match P5.future canceled r with
    | Ok a => (Ok (f a), w')
    | Err e => (Ok (RError e), w')
    | Panic => (Panic, w')
    | Diverge => (Diverge, w')
    end in
  match o with
  | OpSet k v => reply (λ _, RDone) (P5.set_job k v)
  | OpGet k => reply RValue (P5.get_job cap k)
  | OpRemove k => reply (λ _, RDone) (P5.remove_job k)
  end.

Fixpoint job_ops (canceled : string) (cap : nat) (os : list Op) : WM (list (Reply KvsError)) :=
  match os with
  | [] => mret []
  | o :: os' => r ← job_op canceled cap o; rs ← job_ops canceled cap os'; mret (r :: rs)
  end.

(** The store with all its [c] readers in the queue. *)
Definition rep5 (n c : nat) (w : World) (m : kvmap) : Prop :=
  KvStore4_rep n w m ∧ length (w_pool w) = c.

Lemma job_op_ok canceled n c o w m : rep5 (S n) (S c) w m →
  ∃ w', job_op canceled (S c) o w = (Ok (spec_op KeyNotFound m o).1, w')
        ∧ rep5 n (S c) w' (spec_op KeyNotFound m o).2.
Proof.
  intros [(C & Hr & <- & Hl & Hb) Hq]. unfold job_op, alone, P5.set_job, P5.remove_job.
  destruct o as [k v|k|k]; cbn [spec_op fst snd]; cbv zeta beta.
  - destruct (set_ok w C k v Hr Hl) as (w' & C' & Hrun & Hr' & Hm & Hl' & Hg & _ & Hp); [lia|].
    unfold set in Hrun. rewrite Hrun. exists w'. split; [done|]. split; [|by rewrite Hp].
    exists C'. split_and!; [done..|lia].
  - destruct (w_pool w) as [|i q] eqn:Hpool; [done|].
    destruct (P5.get_job_ok (S c) i q w C k Hr Hpool) as (w' & q' & -> & Hr' & Hq' & Hperm & Hl' & Hg).
    { rewrite Hpool. lia. }
    exists w'. split; [done|]. split; [|by rewrite Hq', Hperm, Hpool].
    exists C. split_and!; [done..|by rewrite Hl'|rewrite Hg; lia].
  - destruct (meaning C !! k) as [v|] eqn:Hk.
    + destruct (remove_ok w C k v Hr Hl ltac:(lia) Hk) as (w' & C' & Hrun & Hr' & Hm & Hl' & Hg & _ & Hp).
      unfold remove in Hrun. rewrite Hrun. exists w'. split; [done|]. split; [|by rewrite Hp].
      exists C'. split_and!; [done..|lia].
    + pose proof (remove_missing w C k Hr Hl Hk) as Hrun. unfold remove in Hrun. rewrite Hrun.
      exists w. split; [done|]. split; [|done]. exists C. split_and!; [done..|lia].
Qed.

Lemma job_ops_ok canceled os n c w m : rep5 (length os + n) (S c) w m →
  ∃ w', job_ops canceled (S c) os w = (Ok (spec_run KeyNotFound m os).1, w')
        ∧ rep5 n (S c) w' (spec_run KeyNotFound m os).2.
Proof.
  revert w m. induction os as [|o os IH]; intros w m Hr; [eauto|].
  destruct (job_op_ok canceled _ c o w m Hr) as (w1 & Hrun1 & Hr1).
  cbn [job_ops spec_run]. rewrite (bind_ok _ _ _ _ _ Hrun1).
  destruct (spec_op KeyNotFound m o) as [r m1]. simpl in *.
  destruct (IH w1 m1 Hr1) as (w2 & Hrun2 & Hr2). rewrite (bind_ok _ _ _ _ _ Hrun2).
  destruct (spec_run KeyNotFound m1 os) as [rs m2]. eauto.
Qed.

(** The store of project-5 answers as one map, and its futures never fail
    because a job died. A directory opened with room for at least one reader
    serves any operations with the answers of the map its logs stand for, and all
    readers are back in the queue afterwards. *)
Theorem jobs_refine canceled os c d C : disk_ok d C →
  (default 0 (last (gens C)) + 2 * N.of_nat (S (length os)) <= U64_MAX)%N →
  ∃ w d' w', P5.open (S c) d = (Ok w, d')
    ∧ job_ops canceled (S c) os w = (Ok (spec_run KeyNotFound (meaning C) os).1, w')
    ∧ rep5 0 (S c) w' (spec_run KeyNotFound (meaning C) os).2.
Proof.
  intros Hd Hb. destruct (P5.open5_ok c d C Hd) as (w & d' & C' & Hopen & _ & Hr & Hm & Hl & Hg & Hq); [lia|].
  destruct (job_ops_ok canceled os 0 c w (meaning C)) as (w' & Hrun & Hr').
  - split; [|done]. exists C'. split_and!; [done..|rewrite Hg; lia].
  - by exists w, d', w'.
Qed.

Lemma read_command_only h p w o w' :
  run (ConcStore.read_command h p) w = Some (o, w') → only_handles h w w'.
Proof.
  unfold ConcStore.read_command, read_and.
  destruct (close_stale_handles_run h w) as (w1 & Hrun1 & Ho1 & _).
  rewrite (run_bind_ok _ _ _ _ _ Hrun1).
  assert (∀ o2 w2, ensure_handle h (gen p) w1 = (o2, w2) → only_handles h w1 w2) as Hens.
  { intros o2 w2. unfold ensure_handle. mpure. destruct (handles h w1 !! gen p) as [r|].
    - intros [= <- <-]. done.
    - unfold question, on_disk, mbind, M_bind, File_open.
      destruct (dir (w_disk w1) !! _) as [[ino|]|] eqn:Hd; cbn; intros [= <- <-].
      + assert (set_disk (w_disk w1) w1 = w1) as -> by (by destruct w1). apply set_handles_only.
      + by destruct w1.
      + by destruct w1. }
  destruct (ensure_handle h (gen p) w1) as [o2 w2] eqn:E2. specialize (Hens _ _ eq_refl).
  rewrite (run_bind _ _ _ o2 w2); [|by rewrite run_atomic, E2].
  destruct o2 as [[]|e| |]; cbn [cont run]; try (intros [= _ <-]; by etrans).
  assert (∀ o3 w3, read_at h p w2 = (o3, w3) → only_handles h w2 w3) as Hread.
  { intros o3 w3. unfold read_at, gets, expect, mbind, M_bind.
    destruct (handles h w2 !! gen p) as [r|]; cbn; [|by intros [= _ <-]].
    intros [= _ <-]. apply set_handles_only. }
  destruct (read_at h p w2) as [o3 w3] eqn:E3. specialize (Hread _ _ eq_refl).
  rewrite (run_bind _ _ _ o3 w3); [|by rewrite run_atomic, E3].
  assert (only_handles h w w3) as Ho3 by (do 2 (etrans; [eassumption|]); done).
  destruct o3 as [data|e| |]; cbn [cont]; [|by intros [= _ <-]..].
  destruct (from_reader data); by intros [= _ <-].
Qed.

(** A [get] whose read fails loses its reader. The error returns before the
    reader is put back in the queue; when it was the last one, every later [get]
    of a key that is there panics, although nothing may be wrong with that key. *)
Theorem failed_get_loses_reader cap w k p i q e w1 :
  w_index w !! k = Some p → w_pool w = i :: q →
  run (ConcStore.read_command (Reader i) p) (set_pool (λ _, q) w) = Some (Err e, w1) →
  run (P5.get_job cap k) w = Some (Err e, w1) ∧ w_pool w1 = q
  ∧ (q = [] → ∀ k' p', w_index w !! k' = Some p' → run (P5.get_job cap k') w1 = Some (Panic, w1)).
Proof.
  intros Hk Hq Hrun. pose proof (read_command_only _ _ _ _ _ Hrun) as Ho.
  split_and!; [by eapply P5.get_job_leaks|by rewrite (oh_pool _ _ _ Ho)|].
  intros -> k' p' Hk'. eapply P5.get_job_empty; [|by rewrite (oh_pool _ _ _ Ho)].
  by rewrite (oh_index _ _ _ Ho).
Qed.
End theorems.

(** ** Runs on concrete inputs *)

(** The directory of [ex1], opened by project-4 and by project-5 with one reader. *)
Definition world_of (r : outcome KvsError World * Disk) : World :=
  match r with
  | (Ok w, _) => w
  | (_, d) => mkWorld ∅ 0 Unlocked (mkKvWriter ∅ (BufWriterWithPos_new 0) 0 0) ∅ [] d
  end.

Definition ex4 : World := world_of (open ex1.2).
Definition ex5 : World := world_of (P5.open 1 ex1.2).
Definition ex4_cmds : gmap N (list Command) := <[2%N := []]> ex1_cmds.

Lemma ex1_disk : disk_ok ex1.2 ex1_cmds.
Proof. exact (rep_disk_ok _ _ _ ex1_rep). Qed.

Lemma ex4_crep : crep ex4 ex4_cmds.
Proof.
  destruct (open_base ex1.2 ex1_cmds ex1_disk) as (rds & idx & unc & d' & h & Hloop & Happ & Hrep & _);
    [by vm_compute|].
  assert (ex4 = mkWorld idx 0 Unlocked (mkKvWriter ∅ (BufWriterWithPos_new h) 2 unc) {[ 0 := rds ]} [] d') as ->.
  { unfold ex4. rewrite (open_run _ _ _ _ _ _ _ ex1_disk ltac:(by vm_compute) Hloop Happ). done. }
  apply Hrep. intros i hs g r [<- <-]%lookup_singleton_Some. done.
Qed.

(** The buffer of [BufWriter] has 8 KiB by default. *)
#[local] Instance default_policy : BufWriterPolicy := λ b, if (8192 <? blen b)%N then length b else 0.

Lemma clones_refine_witness :
  ∃ w', clone_ops [(0, OpGet "a"); (1, OpSet "a" "2"); (0, OpGet "a"); (2, OpRemove "a"); (1, OpRemove "a")] ex4
        = (Ok [RValue (Some "1"); RDone; RValue (Some "2"); RDone; RError KeyNotFound], w')
        ∧ KvStore4_rep 0 w' ∅.
Proof.
  assert (spec_run KeyNotFound (meaning ex4_cmds)
    [OpGet "a"; OpSet "a" "2"; OpGet "a"; OpRemove "a"; OpRemove "a"]
    = ([RValue (Some "1"); RDone; RValue (Some "2"); RDone; RError KeyNotFound], ∅)) as Hs
    by (vm_compute; reflexivity).
  pose proof (clones_refine
    [(0, OpGet "a"); (1, OpSet "a" "2"); (0, OpGet "a"); (2, OpRemove "a"); (1, OpRemove "a")]
    0 ex4 (meaning ex4_cmds)) as H.
  cbn [fmap list_fmap snd] in H. rewrite Hs in H. apply H.
  exists ex4_cmds. split_and!; [apply ex4_crep|done|vm_compute; reflexivity|vm_compute; discriminate].
Defined.

Lemma space_bound_witness :
  ∃ w' C', alone (set "a" "2") ex4 = (Ok tt, w') ∧ crep w' C'
    ∧ (total (encode_log <$> C') <= live (w_index w') + COMPACTION_THRESHOLD)%N.
Proof.
  apply (space_bound ex4 ex4_cmds "a" (Some "2") ex4_crep).
  - vm_compute. reflexivity.
  - vm_compute. discriminate.
  - discriminate.
Defined.

Lemma crash_in_compact_safe_witness :
  ∃ w1 w2 d2 C2, run (crash_in_compact4 1) ex4 = Some (Ok tt, w1)
    ∧ open (w_disk w1) = (Ok w2, d2) ∧ crep w2 C2 ∧ meaning C2 = meaning ex4_cmds.
Proof. apply (crash_in_compact_safe 1 ex4 ex4_cmds ex4_crep). vm_compute. reflexivity. Defined.

Lemma jobs_refine_witness :
  ∃ w d' w', P5.open 2 ex1.2 = (Ok w, d')
    ∧ job_ops "channel closed" 2 [OpGet "a"; OpGet "a"; OpGet "a"; OpSet "b" "2"; OpGet "b"] w
      = (Ok [RValue (Some "1"); RValue (Some "1"); RValue (Some "1"); RDone; RValue (Some "2")], w')
    ∧ rep5 0 2 w' (<["b" := "2"]> (meaning ex1_cmds)).
Proof.
  assert (spec_run KeyNotFound (meaning ex1_cmds)
    [OpGet "a"; OpGet "a"; OpGet "a"; OpSet "b" "2"; OpGet "b"]
    = ([RValue (Some "1"); RValue (Some "1"); RValue (Some "1"); RDone; RValue (Some "2")],
       <["b" := "2"]> (meaning ex1_cmds))) as Hs by (vm_compute; reflexivity).
  pose proof (jobs_refine "channel closed" [OpGet "a"; OpGet "a"; OpGet "a"; OpSet "b" "2"; OpGet "b"]
    1 ex1.2 ex1_cmds ex1_disk) as H.
  rewrite Hs in H. apply H. vm_compute. discriminate.
Defined.

(** One reader, two keys; the file of the first key is gone. *)
Definition ex5_broken : World :=
  world_of (P5.open 1 (mkDisk {[ "1.log" := FileEnt 0 ]} {[ 0 := json_write (Command_Set "a" "1") ]} 1)).

Lemma failed_get_loses_reader_witness :
  let w := set_disk empty_disk ex5_broken in
  run (P5.get_job 1 "a") w = Some (Err (Io NotFound), set_pool (λ _, []) w) ∧ w_pool (set_pool (λ _, []) w) = []
  ∧ (@nil nat = [] → ∀ k' p', w_index w !! k' = Some p' →
       run (P5.get_job 1 k') (set_pool (λ _, []) w) = Some (Panic, set_pool (λ _, []) w)).
Proof.
  apply (failed_get_loses_reader 1 (set_disk empty_disk ex5_broken) "a" (mkPos 1 0 31) 0 []);
    vm_compute; reflexivity.
Defined.
