(* ===== verification/Net.v ===== *)
(** * The network server and its client (project-3 and project-4)

    [common.rs], [server.rs] and [client.rs]: requests and responses as JSON values
    one after the other on a TCP connection. The server is written against the
    [KvsEngine] interface, so what is proved here holds for every engine. *)

From S2P Require Import Prelude Fs Command KvsEngine.

(** ** Messages *)

Inductive Request :=
| Request_Get (key : string)
| Request_Set (key value : string)
| Request_Remove (key : string).

Inductive GetResponse := GetResponse_Ok (value : option string) | GetResponse_Err (msg : string).
Inductive SetResponse := SetResponse_Ok | SetResponse_Err (msg : string).
Inductive RemoveResponse := RemoveResponse_Ok | RemoveResponse_Err (msg : string).

(** The [Display] of [KvsError]. How the operating system words an I/O error is a
    parameter. *)
Definition display (io_msg : IoError → string) (e : KvsError) : string :=
  match e with
  | Io e => "IO error: " +:+ io_msg e
  | Serde e => "serde_json error: " +:+ e
  | KeyNotFound => "Key not found"
  | UnexpectedCommandType => "Unexpected command type"
  | Utf8 e => "UTF-8 error: " +:+ e
  | Sled e => "sled error: " +:+ e
  | StringError msg => msg
  end.

(** How [serde_json] writes the four types, and what is relied on. *)
Class Wire := {
  wire_request :: SerdeJson Request;
  wire_get :: SerdeJson GetResponse;
  wire_set :: SerdeJson SetResponse;
  wire_remove :: SerdeJson RemoveResponse;
}.
Class WireLaws `{!Wire} : Prop := {
  wire_request_laws :: SerdeLaws Request;
  wire_get_laws :: SerdeLaws GetResponse;
  wire_set_laws :: SerdeLaws SetResponse;
  wire_remove_laws :: SerdeLaws RemoveResponse;
}.

(** ** Connections *)

(** A TCP connection as the server sees it: the bytes the client will send before
    it closes, the bytes sent to it, and how many more writes will go through
    before the peer is gone ([None]: it stays). *)
Record Socket := mkSocket { s_in : bytes; s_out : bytes; s_room : option nat }.

Section server.
Context {S : Type} `{!KvsEngine KvsError S} `{!Wire} (io_msg : IoError → string).

Abbreviation NM := (M KvsError (S * Socket)).

(** [match engine.op(..) { Ok(a) => f(a), Err(e) => g(e) }]. *)
Definition attempt {A B} (m : M KvsError S A) (f : A → B) (g : KvsError → B) : M KvsError S B := λ s,
  match m s with
  | (Ok a, s') => (Ok (f a), s')
  | (Err e, s') => (Ok (g e), s')
  | (Panic, s') => (Panic, s')
  | (Diverge, s') => (Diverge, s')
  end.

(** The [send_resp!] macro: serialize, write and flush. *)
Definition send_resp {A} `{!SerdeJson A} (resp : A) : NM unit := λ st,
  let '(s, sock) := st in
  match s_room sock with
  | Some O => (Err (Io BrokenPipe), st)
  | room => (Ok tt, (s, mkSocket (s_in sock) (s_out sock ++ to_writer resp) (pred <$> room)))
  end.

(** The body of the loop of [serve]. *)
Definition handle (req : Request) : NM unit :=
  match req with
  | Request_Get key =>
      resp ← on_fst (attempt (get key) GetResponse_Ok (λ e, GetResponse_Err (display io_msg e)));
      send_resp resp
  | Request_Set key value =>
      resp ← on_fst (attempt (set key value) (λ _, SetResponse_Ok) (λ e, SetResponse_Err (display io_msg e)));
      send_resp resp
  | Request_Remove key =>
      resp ← on_fst (attempt (remove key) (λ _, RemoveResponse_Ok) (λ e, RemoveResponse_Err (display io_msg e)));
      send_resp resp
  end.

(** Every request takes at least one byte of the input. *)
Fixpoint serve_loop (fuel : nat) : NM unit :=
  match fuel with
  | O => diverge
  | Datatypes.S fuel' =>
      inp ← gets (λ st, s_in st.2);
      match stream_next inp with
      | None => mret tt
      | Some (inr e) => throw (from e)
      | Some (inl (req, n)) =>
          on_snd (modify (λ sock, mkSocket (drop (N.to_nat n) inp) (s_out sock) (s_room sock)));;
          handle req;;
          serve_loop fuel'
      end
  end.

Definition serve : NM unit :=
  inp ← gets (λ st, s_in st.2);
  serve_loop (Datatypes.S (length inp)).

(** [KvsServer::run] of project-3: connections one after the other. An error, of a
    connection or of accepting it, is logged and the next one is served. *)
Fixpoint run (incoming : list (Socket + IoError)) : M KvsError S (list Socket) :=
  match incoming with
  | [] => mret []
  | inl stream :: rest => λ s,
      match serve (s, stream) with
      | (Ok _, (s', sock)) | (Err _, (s', sock)) => (socks ← run rest; mret (sock :: socks)) s'
      | (Panic, (s', _)) => (Panic, s')
      | (Diverge, (s', _)) => (Diverge, s')
      end
  | inr e :: rest => run rest
  end.

(** ** Client *)

(** [KvsClient]: the bytes of responses not read yet, and the bytes sent. *)
Record KvsClient := mkClient { c_reader : bytes; c_writer : bytes }.

Abbreviation CM := (M KvsError KvsClient).

(** [serde_json::to_writer(&mut self.writer, &req)?; self.writer.flush()?]. *)
Definition send_request (req : Request) : CM unit :=
  modify (λ c, mkClient (c_reader c) (c_writer c ++ to_writer req)).

(** [T::deserialize(&mut self.reader)]; the message at the end of the stream. *)
Definition deserialize {A} `{!SerdeJson A} (eof : SerdeError) : CM A :=
  inp ← gets c_reader;
  match stream_next inp with
  | Some (inl (a, n)) => modify (λ c, mkClient (drop (N.to_nat n) inp) (c_writer c));; mret a
  | Some (inr e) => throw (from e)
  | None => throw (from eof)
  end.

Definition client_get (eof : SerdeError) (key : string) : CM (option string) :=
  send_request (Request_Get key);;
  resp ← deserialize eof;
  match resp with
  | GetResponse_Ok value => mret value
  | GetResponse_Err msg => throw (StringError msg)
  end.

Definition client_set (eof : SerdeError) (key value : string) : CM unit :=
  send_request (Request_Set key value);;
  resp ← deserialize eof;
  match resp with
  | SetResponse_Ok => mret tt
  | SetResponse_Err msg => throw (StringError msg)
  end.

Definition client_remove (eof : SerdeError) (key : string) : CM unit :=
  send_request (Request_Remove key);;
  resp ← deserialize eof;
  match resp with
  | RemoveResponse_Ok => mret tt
  | RemoveResponse_Err msg => throw (StringError msg)
  end.
End server.
