(* ===== verification/Codec.v ===== *)
(** * A codec for any countable type

    [serde_json] is a parameter of the client, the server and the log engines. This
    instance writes a value as the binary digits of its number and a semicolon; the
    witnesses run on it. *)

From S2P Require Import Prelude Command Net.

Section codec.
Context {A : Type} `{Countable A}.

Definition digit (b : bool) : byte := if b then x31 else x30.
Definition semicolon : byte := x3b.

Fixpoint digits (p : positive) : bytes :=
  match p with
  | xH => []
  | xO p' => digit false :: digits p'
  | xI p' => digit true :: digits p'
  end.

Fixpoint read_digits (b : bytes) : option (positive * bytes) :=
  match b with
  | [] => None
  | c :: rest =>
      if decide (c = semicolon) then Some (1%positive, rest)
      else if decide (c = digit false) then prod_map xO id <$> read_digits rest
      else if decide (c = digit true) then prod_map xI id <$> read_digits rest
      else None
  end.

Definition codec_read (b : bytes) : option (A * bytes) :=
  '(p, rest) ← read_digits b;
  a ← decode p;
  Some (a, rest).

#[local] Instance codec : SerdeJson A := {
  to_writer a := digits (encode a) ++ [semicolon];
  from_reader b := match codec_read b with
                   | Some (a, []) => inl a
                   | _ => inr "invalid value"
                   end;
  stream_next b := match b with
                   | [] => None
                   | _ => match codec_read b with
                          | Some (a, rest) => Some (inl (a, blen b - blen rest)%N)
                          | None => Some (inr "invalid value")
                          end
                   end;
}.

Lemma read_digits_app p rest : read_digits (digits p ++ semicolon :: rest) = Some (p, rest).
Proof. induction p as [p IH|p IH|]; cbn [digits app read_digits]; [by rewrite IH..|done]. Qed.

Lemma read_digits_length b p rest : read_digits b = Some (p, rest) → length rest < length b.
Proof.
  revert p. induction b as [|c b IH]; intros p; simpl; [done|].
  repeat case_decide; intros Hb; simplify_eq/=; try lia.
  all: apply fmap_Some in Hb as ([p' r] & Hr & ?); simplify_eq/=; apply IH in Hr; lia.
Qed.

Lemma codec_read_app a rest : codec_read (digits (encode a) ++ semicolon :: rest) = Some (a, rest).
Proof. unfold codec_read. rewrite read_digits_app. simpl. by rewrite decode_encode. Qed.

Lemma codec_laws : SerdeLaws A.
Proof.
  split; simpl.
  - intros a. by rewrite codec_read_app.
  - done.
  - intros a rest. rewrite <-app_assoc. simpl.
    destruct (digits (encode a) ++ semicolon :: rest) as [|x l] eqn:E; [by destruct (digits (encode a))|].
    rewrite <-E, codec_read_app. do 3 f_equal. unfold blen. rewrite !length_app. simpl. lia.
  - intros b a n Hb. destruct b as [|c b]; [done|].
    destruct (codec_read (c :: b)) as [[a' rest]|] eqn:E; [|done]. simplify_eq.
    unfold codec_read in E. destruct (read_digits (c :: b)) as [[p r]|] eqn:Er; [|done].
    cbn [mbind option_bind] in E. destruct (decode p); [|done]. cbn in E. injection E as _ <-.
    apply read_digits_length in Er. unfold blen. lia.
Qed.
End codec.

(** ** The messages are countable *)

#[export] Instance Request_eq_dec : EqDecision Request.
Proof. solve_decision. Defined.
#[export] Instance GetResponse_eq_dec : EqDecision GetResponse.
Proof. solve_decision. Defined.
#[export] Instance SetResponse_eq_dec : EqDecision SetResponse.
Proof. solve_decision. Defined.
#[export] Instance RemoveResponse_eq_dec : EqDecision RemoveResponse.
Proof. solve_decision. Defined.

#[export] Instance Request_countable : Countable Request :=
  inj_countable'
    (λ r, match r with
          | Request_Get k => inl k
          | Request_Set k v => inr (inl (k, v))
          | Request_Remove k => inr (inr k)
          end)
    (λ x, match x with
          | inl k => Request_Get k
          | inr (inl (k, v)) => Request_Set k v
          | inr (inr k) => Request_Remove k
          end) ltac:(by intros []).
#[export] Instance GetResponse_countable : Countable GetResponse :=
  inj_countable' (λ r, match r with GetResponse_Ok v => inl v | GetResponse_Err m => inr m end)
    (λ x, match x with inl v => GetResponse_Ok v | inr m => GetResponse_Err m end) ltac:(by intros []).
#[export] Instance SetResponse_countable : Countable SetResponse :=
  inj_countable' (λ r, match r with SetResponse_Ok => None | SetResponse_Err m => Some m end)
    (λ x, match x with None => SetResponse_Ok | Some m => SetResponse_Err m end) ltac:(by intros []).
#[export] Instance RemoveResponse_countable : Countable RemoveResponse :=
  inj_countable' (λ r, match r with RemoveResponse_Ok => None | RemoveResponse_Err m => Some m end)
    (λ x, match x with None => RemoveResponse_Ok | Some m => RemoveResponse_Err m end) ltac:(by intros []).

#[export] Instance codec_wire : Wire := {
  wire_request := codec;
  wire_get := codec;
  wire_set := codec;
  wire_remove := codec;
}.
#[export] Instance codec_wire_laws : WireLaws.
Proof. split; apply codec_laws. Qed.
