(* ===== verification/NetSpec.v ===== *)
(** * Correctness of the network server and client

    A conversation between [KvsClient] and [KvsServer] over any engine that keeps
    the [KvsEngine] contract, and what the server does with clients that send
    garbage. *)

From S2P Require Import Prelude Fs Command KvsEngine Net.

Section spec.
Context {S : Type} `{!KvsEngine KvsError S} `{!KvsEngineSpec KvsError S}.
Context `{!Wire} `{!WireLaws} (io_msg : IoError → string).

Abbreviation knf := (engine_key_not_found (E:=KvsError) (S:=S)).

(** ** What goes over the wire *)

Definition request (o : Op) : Request :=
  match o with
  | OpSet k v => Request_Set k v
  | OpGet k => Request_Get k
  | OpRemove k => Request_Remove k
  end.

Definition requests (os : list Op) : bytes := mjoin ((λ o, to_writer (request o)) <$> os).

(** The bytes of the response to an operation, given the reply of the engine. *)
Definition response (o : Op) (r : Reply KvsError) : bytes :=
  match o, r with
  | OpGet _, RValue v => to_writer (GetResponse_Ok v)
  | OpGet _, RError e => to_writer (GetResponse_Err (display io_msg e))
  | OpSet _ _, RError e => to_writer (SetResponse_Err (display io_msg e))
  | OpSet _ _, _ => to_writer SetResponse_Ok
  | OpRemove _, RError e => to_writer (RemoveResponse_Err (display io_msg e))
  | OpRemove _, _ => to_writer RemoveResponse_Ok
  | OpGet _, RDone => []
  end.

Fixpoint responses (m : kvmap) (os : list Op) : bytes :=
  match os with
  | [] => []
  | o :: os' => let '(r, m') := spec_op knf m o in response o r ++ responses m' os'
  end.

Lemma requests_cons o os : requests (o :: os) = to_writer (request o) ++ requests os.
Proof. done. Qed.

Lemma drop_blen (a b : bytes) : drop (N.to_nat (blen a)) (a ++ b) = b.
Proof. unfold blen. by rewrite Nat2N.id, drop_app_length. Qed.

(** ** The server *)

(** One request: the engine performs it and the response is written. *)
Lemma handle_ok n s m o inp out : engine_rep (Datatypes.S n) s m →
  ∃ s', handle (S:=S) io_msg (request o) (s, mkSocket inp out None)
        = (Ok tt, (s', mkSocket inp (out ++ response o (spec_op knf m o).1) None))
        ∧ engine_rep n s' (spec_op knf m o).2.
Proof.
  intros Hr. destruct o as [k v|k|k]; cbn [request handle].
  - destruct (engine_set n s m k v Hr) as (s' & Hrun & Hr'). exists s'. split; [|done].
    erewrite bind_ok; [|apply on_fst_ok; unfold attempt; by rewrite Hrun]. done.
  - destruct (engine_get n s m k (engine_rep_weaken _ _ _ Hr)) as (s' & Hrun & Hr').
    exists s'. split; [|done].
    erewrite bind_ok; [|apply on_fst_ok; unfold attempt; by rewrite Hrun]. done.
  - cbn [spec_op]. destruct (m !! k) as [v|] eqn:Hk.
    + destruct (engine_remove n s m k v Hr Hk) as (s' & Hrun & Hr'). exists s'. split; [|done].
      erewrite bind_ok; [|apply on_fst_ok; unfold attempt; by rewrite Hrun]. done.
    + destruct (engine_remove_missing n s m k (engine_rep_weaken _ _ _ Hr) Hk) as (s' & Hrun & Hr').
      exists s'. split; [|done].
      erewrite bind_ok; [|apply on_fst_ok; unfold attempt; by rewrite Hrun]. done.
Qed.

Lemma request_pos (r : Request) : to_writer r ≠ [].
Proof.
  intros He. pose proof (next_app r []) as Hn. rewrite He in Hn. simpl in Hn.
  rewrite next_nil in Hn. done.
Qed.

(** The end of what a client sends: nothing more, or bytes that are no request. *)
Definition tail_result (g : bytes) : option SerdeError :=
  match stream_next (A:=Request) g with
  | Some (inr e) => Some e
  | _ => None
  end.

Definition tail_ok (g : bytes) : Prop := g = [] ∨ is_Some (tail_result g).

Lemma serve_loop_ok os g fuel n s m out : tail_ok g → engine_rep (length os + n) s m →
  length (requests os ++ g) < fuel →
  ∃ s', serve_loop (S:=S) io_msg fuel (s, mkSocket (requests os ++ g) out None)
        = (match tail_result g with Some e => Err (Serde e) | None => Ok tt end,
           (s', mkSocket g (out ++ responses m os) None))
        ∧ engine_rep n s' (spec_run knf m os).2.
Proof.
  intros Hg. revert fuel s m out. induction os as [|o os IH]; intros fuel s m out Hr Hf.
  { destruct fuel as [|fuel]; [simpl in Hf; lia|]. exists s. split; [|done].
    cbn [serve_loop responses]. rewrite app_nil_r. mpure.
    change (requests [] ++ g) with g. cbn [s_in].
    destruct Hg as [->|[e He]].
    - unfold tail_result. by rewrite next_nil.
    - unfold tail_result in *. by destruct (stream_next g) as [[]|]; simplify_eq. }
  destruct fuel as [|fuel]; [simpl in Hf; lia|].
  rewrite requests_cons, <-app_assoc in *. rewrite length_app in Hf.
  pose proof (request_pos (request o)) as Hpos.
  destruct (to_writer (request o)) as [|x l] eqn:Hw; [done|]. rewrite <-Hw in *.
  assert (0 < length (to_writer (request o))) as Hlen by (rewrite Hw; simpl; lia).
  destruct (handle_ok (length os + n) s m o (requests os ++ g) out Hr) as (s1 & Hh & Hr1).
  destruct (spec_op knf m o) as [r m1] eqn:Hsp. simpl in Hh, Hr1.
  destruct (IH fuel s1 m1 (out ++ response o r) Hr1 ltac:(lia)) as (s' & Hrun & Hr').
  exists s'. split.
  - cbn [serve_loop]. mpure. cbn [s_in]. rewrite next_app. mpure. rewrite drop_blen. cbn [s_out s_room].
    rewrite (bind_ok _ _ _ _ _ Hh), Hrun. cbn [responses]. by rewrite Hsp, <-app_assoc.
  - cbn [spec_run]. rewrite Hsp. by destruct (spec_run knf m1 os).
Qed.

Lemma serve_ok os g n s m : tail_ok g → engine_rep (length os + n) s m →
  ∃ s', serve (S:=S) io_msg (s, mkSocket (requests os ++ g) [] None)
        = (match tail_result g with Some e => Err (Serde e) | None => Ok tt end,
           (s', mkSocket g (responses m os) None))
        ∧ engine_rep n s' (spec_run knf m os).2.
Proof.
  intros Hg Hr. unfold serve. mpure. apply (serve_loop_ok os g _ n s m [] Hg Hr). cbn [s_in]. lia.
Qed.

(** ** The client *)

(** What a client makes of a reply: an error comes back as its message. *)
Definition client_reply (r : Reply KvsError) : Reply KvsError :=
  match r with
  | RError e => RError (StringError (display io_msg e))
  | r => r
  end.

Definition client_op (eof : SerdeError) (o : Op) : M KvsError KvsClient (Reply KvsError) :=
  match o with
  | OpSet k v => attempt (client_set eof k v) (λ _, RDone) RError
  | OpGet k => attempt (client_get eof k) RValue RError
  | OpRemove k => attempt (client_remove eof k) (λ _, RDone) RError
  end.

Fixpoint client_ops (eof : SerdeError) (os : list Op) : M KvsError KvsClient (list (Reply KvsError)) :=
  match os with
  | [] => mret []
  | o :: os' => r ← client_op eof o; rs ← client_ops eof os'; mret (r :: rs)
  end.

Lemma deserialize_ok {A} `{!SerdeJson A} `{!SerdeLaws A} eof (a : A) rest w :
  deserialize eof (mkClient (to_writer a ++ rest) w) = (Ok a, mkClient rest w).
Proof. unfold deserialize. mpure. cbn [c_reader]. rewrite next_app. mpure. by rewrite drop_blen. Qed.

Lemma client_op_ok eof o m rest w :
  let r := (spec_op knf m o).1 in
  client_op eof o (mkClient (response o r ++ rest) w)
  = (Ok (client_reply r), mkClient rest (w ++ to_writer (request o))).
Proof.
  destruct o as [k v|k|k]; cbn [spec_op fst client_op request]; unfold attempt;
    unfold client_set, client_get, client_remove, send_request; mpure; cbn [c_reader c_writer response].
  - by rewrite (bind_ok _ _ _ _ _ (deserialize_ok eof SetResponse_Ok rest _)).
  - by rewrite (bind_ok _ _ _ _ _ (deserialize_ok eof (GetResponse_Ok (m !! k)) rest _)).
  - destruct (m !! k) as [v|]; cbn [fst].
    + by rewrite (bind_ok _ _ _ _ _ (deserialize_ok eof RemoveResponse_Ok rest _)).
    + by rewrite (bind_ok _ _ _ _ _ (deserialize_ok eof (RemoveResponse_Err (display io_msg knf)) rest _)).
Qed.

Lemma client_ops_ok eof os m w :
  client_ops eof os (mkClient (responses m os) w)
  = (Ok (client_reply <$> (spec_run knf m os).1), mkClient [] (w ++ requests os)).
Proof.
  revert m w. induction os as [|o os IH]; intros m w.
  { cbn. by rewrite app_nil_r. }
  cbn [client_ops responses spec_run].
  pose proof (client_op_ok eof o m (responses (spec_op knf m o).2 os) w) as Ho.
  destruct (spec_op knf m o) as [r m1]. simpl in Ho.
  rewrite (bind_ok _ _ _ _ _ Ho), (bind_ok _ _ _ _ _ (IH m1 _)).
  rewrite requests_cons, <-app_assoc. by destruct (spec_run knf m1 os).
Qed.

(** ** Many connections *)

(** The connections of clients that each send requests, then close or send garbage. *)
Definition conn (c : list Op * bytes) : Socket + IoError := inl (mkSocket (requests c.1 ++ c.2) [] None).

(** What the server sends to each of them. *)
Fixpoint answers (m : kvmap) (cs : list (list Op * bytes)) : list bytes :=
  match cs with
  | [] => []
  | c :: cs' => responses m c.1 :: answers (spec_run knf m c.1).2 cs'
  end.

Definition all_ops (cs : list (list Op * bytes)) : list Op := cs ≫= fst.

Lemma spec_run_app m os os' : (spec_run knf m (os ++ os')).2 = (spec_run knf (spec_run knf m os).2 os').2.
Proof.
  revert m. induction os as [|o os IH]; intros m; [done|]. simpl.
  destruct (spec_op knf m o) as [r m1]. specialize (IH m1).
  destruct (spec_run knf m1 (os ++ os')), (spec_run knf m1 os). done.
Qed.

Lemma run_ok cs n s m : Forall (λ c, tail_ok c.2) cs → engine_rep (length (all_ops cs) + n) s m →
  ∃ s' socks, run (S:=S) io_msg (conn <$> cs) s = (Ok socks, s') ∧ s_out <$> socks = answers m cs
              ∧ engine_rep n s' (spec_run knf m (all_ops cs)).2.
Proof.
  revert s m. induction cs as [|[os g] cs IH]; intros s m Hall Hr; [by exists s, []|].
  apply Forall_cons in Hall as [Hg Hall]. simpl in Hg.
  change (all_ops ((os, g) :: cs)) with (os ++ all_ops cs) in *. rewrite length_app, <-Nat.add_assoc in Hr.
  destruct (serve_ok os g _ s m Hg Hr) as (s1 & Hserve & Hr1).
  destruct (IH s1 _ Hall Hr1) as (s' & socks & Hrun & Hout & Hr').
  exists s', (mkSocket g (responses m os) None :: socks). split_and!.
  - cbn [fmap list_fmap conn run fst snd]. rewrite Hserve. destruct (tail_result g); by rewrite (bind_ok _ _ _ _ _ Hrun).
  - cbn [fmap list_fmap s_out answers fst]. f_equal. exact Hout.
  - by rewrite spec_run_app.
Qed.
End spec.
