(* ===== verification/Net5.v ===== *)
(** * The asynchronous server and client (project-5)

    [common.rs], [server.rs] and [client.rs] of project-5. Frames and JSON are the
    business of [tokio::codec] and [tokio_serde_json]; a connection is the stream of
    items they deliver and the sink they write to. *)

From S2P Require Import Prelude Fs Command KvsEngine Net NetSpec.

Module Net5.

Inductive Response :=
| Response_Get (value : option string)
| Response_Set
| Response_Remove
| Response_Err (msg : string).

(** A connection: the requests that will arrive, a frame that is no request being
    an error, the responses sent, and how many more the peer will take. *)
Record Conn := mkConn { incoming : list (Request + KvsError); sent : list Response; room : option nat }.

Section server.
Context {S : Type} `{!KvsEngine KvsError S} (io_msg : IoError → string).

(** The closure of [and_then] and the one of [then]: an error becomes a response. *)
Definition answer (item : Request + KvsError) : M KvsError S Response :=
  match item with
  | inl (Request_Get key) => attempt (get key) Response_Get (λ e, Response_Err (display io_msg e))
  | inl (Request_Set key value) =>
      attempt (set key value) (λ _, Response_Set) (λ e, Response_Err (display io_msg e))
  | inl (Request_Remove key) =>
      attempt (remove key) (λ _, Response_Remove) (λ e, Response_Err (display io_msg e))
  | inr e => mret (Response_Err (display io_msg e))
  end.

(** [write_json.send_all(resp_stream)]: the next response is computed when the last
    one was taken; an error of the sink ends the connection with an error. *)
Fixpoint send_all (items : list (Request + KvsError)) (out : list Response) (rm : option nat) :
    M KvsError S (list Response * option KvsError) :=
  match items with
  | [] => mret (out, None)
  | item :: items' =>
      resp ← answer item;
      match rm with
      | Some O => mret (out, Some (Io BrokenPipe))
      | _ => send_all items' (out ++ [resp]) (pred <$> rm)
      end
  end.

Definition serve (c : Conn) : M KvsError S (Conn * option KvsError) :=
  '(out, e) ← send_all (incoming c) (sent c) (room c);
  mret (mkConn [] out (room c), e).

(** [KvsServer::run]: [for_each] serves one connection to its end before the next,
    and an error of a connection, or of accepting one, ends the stream. *)
Fixpoint run (conns : list (Conn + IoError)) : M KvsError S (list Conn) :=
  match conns with
  | [] => mret []
  | inr _ :: _ => mret []
  | inl tcp :: rest =>
      '(c, e) ← serve tcp;
      match e with
      | None => cs ← run rest; mret (c :: cs)
      | Some _ => mret [c]
      end
  end.
End server.

(** ** Client *)

(** [send_request]: what the connection yields for the next response. *)
Definition received := option (Response + KvsError).

Definition client_get (r : received) : option string + KvsError :=
  match r with
  | Some (inl (Response_Get value)) => inl value
  | Some (inl (Response_Err msg)) => inr (StringError msg)
  | Some (inl _) => inr (StringError "Invalid response")
  | None => inr (StringError "No response received")
  | Some (inr e) => inr e
  end.

Definition client_set (r : received) : unit + KvsError :=
  match r with
  | Some (inl Response_Set) => inl tt
  | Some (inl (Response_Err msg)) => inr (StringError msg)
  | Some (inl _) => inr (StringError "Invalid response")
  | None => inr (StringError "No response received")
  | Some (inr e) => inr e
  end.

Definition client_remove (r : received) : unit + KvsError :=
  match r with
  | Some (inl Response_Remove) => inl tt
  | Some (inl (Response_Err msg)) => inr (StringError msg)
  | Some (inl _) => inr (StringError "Invalid response")
  | None => inr (StringError "No response received")
  | Some (inr e) => inr e
  end.

(** What a client makes of the response to its request. *)
Definition client_result (o : Op) (r : received) : Reply KvsError :=
  match o with
  | OpSet _ _ => match client_set r with inl _ => RDone | inr e => RError e end
  | OpGet _ => match client_get r with inl v => RValue v | inr e => RError e end
  | OpRemove _ => match client_remove r with inl _ => RDone | inr e => RError e end
  end.

(** ** What they promise *)

Section spec.
Context {S : Type} `{!KvsEngine KvsError S} `{!KvsEngineSpec KvsError S} (io_msg : IoError → string).

Abbreviation knf := (engine_key_not_found (E:=KvsError) (S:=S)).

Definition response (o : Op) (r : Reply KvsError) : Response :=
  match r with
  | RError e => Response_Err (display io_msg e)
  | RValue v => Response_Get v
  | RDone => match o with OpRemove _ => Response_Remove | _ => Response_Set end
  end.

Fixpoint responses (m : kvmap) (os : list Op) : list Response :=
  match os with
  | [] => []
  | o :: os' => let '(r, m') := spec_op knf m o in response o r :: responses m' os'
  end.

Lemma answer_ok n s m o : engine_rep (Datatypes.S n) s m →
  ∃ s', answer (S:=S) io_msg (inl (request o)) s = (Ok (response o (spec_op knf m o).1), s')
        ∧ engine_rep n s' (spec_op knf m o).2.
Proof.
  intros Hr. destruct o as [k v|k|k]; cbn [request answer]; unfold attempt.
  - destruct (engine_set n s m k v Hr) as (s' & -> & Hr'). eauto.
  - destruct (engine_get n s m k (engine_rep_weaken _ _ _ Hr)) as (s' & -> & Hr'). eauto.
  - cbn [spec_op]. destruct (m !! k) as [v|] eqn:Hk.
    + destruct (engine_remove n s m k v Hr Hk) as (s' & -> & Hr'). eauto.
    + destruct (engine_remove_missing n s m k (engine_rep_weaken _ _ _ Hr) Hk) as (s' & -> & Hr'). eauto.
Qed.

Lemma send_all_ok os n s m out : engine_rep (length os + n) s m →
  ∃ s', send_all (S:=S) io_msg ((λ o, inl (request o)) <$> os) out None s
        = (Ok (out ++ responses m os, None), s') ∧ engine_rep n s' (spec_run knf m os).2.
Proof.
  revert s m out. induction os as [|o os IH]; intros s m out Hr.
  { exists s. simpl. by rewrite app_nil_r. }
  destruct (answer_ok _ s m o Hr) as (s1 & Ha & Hr1).
  cbn [fmap list_fmap send_all responses spec_run]. rewrite (bind_ok _ _ _ _ _ Ha).
  destruct (spec_op knf m o) as [r m1]. simpl in *.
  destruct (IH s1 m1 (out ++ [response o r]) Hr1) as (s' & Hrun & Hr'). exists s'.
  split; [by rewrite Hrun, <-app_assoc|]. by destruct (spec_run knf m1 os).
Qed.

(** A client that takes fewer responses than it sends requests. *)
Lemma send_all_fails os r n s m out : engine_rep (length os + n) s m → r < length os →
  ∃ s' e, send_all (S:=S) io_msg ((λ o, inl (request o)) <$> os) out (Some r) s
          = (Ok (out ++ take r (responses m os), Some e), s').
Proof.
  revert r s m out. induction os as [|o os IH]; intros r s m out Hr Hlt; [simpl in Hlt; lia|].
  destruct (answer_ok _ s m o Hr) as (s1 & Ha & Hr1).
  cbn [fmap list_fmap send_all responses]. rewrite (bind_ok _ _ _ _ _ Ha).
  destruct (spec_op knf m o) as [rp m1]. simpl in Hr1. destruct r as [|r].
  - eexists s1, _. cbn [take]. by rewrite app_nil_r.
  - simpl in Hlt. destruct (IH r s1 m1 (out ++ [response o rp]) Hr1 ltac:(lia)) as (s' & e & Hrun).
    exists s', e. cbn [fst option_fmap option_map Nat.pred].
    etrans; [exact Hrun|]. cbn [take]. by rewrite <-app_assoc.
Qed.

(** A client that reads the responses to its requests in order. *)
Lemma client_results os m :
  zip_with (λ o r, client_result o (Some (inl r))) os (responses m os)
  = client_reply io_msg <$> (spec_run knf m os).1.
Proof.
  revert m. induction os as [|o os IH]; intros m; [done|]. cbn [responses spec_run].
  assert (client_result o (Some (inl (response o (spec_op knf m o).1)))
    = client_reply io_msg (spec_op knf m o).1) as Ho.
  { destruct o as [k v|k|k]; try done. cbn [spec_op]. by destruct (m !! k). }
  destruct (spec_op knf m o) as [r m1]. cbn [zip_with]. rewrite IH. simpl in Ho. rewrite Ho.
  by destruct (spec_run knf m1 os).
Qed.

(** Clients that send requests and close, and what they get. *)
Definition conn (os : list Op) : Conn + IoError :=
  inl (mkConn ((λ o, inl (request o)) <$> os) [] None).

Fixpoint answered (m : kvmap) (cs : list (list Op)) : list Conn :=
  match cs with
  | [] => []
  | os :: cs' => mkConn [] (responses m os) None :: answered (spec_run knf m os).2 cs'
  end.

Lemma run_prefix cs tail n s m : engine_rep (length (mjoin cs) + n) s m →
  ∃ s', run (S:=S) io_msg ((conn <$> cs) ++ tail) s
        = (cs' ← run io_msg tail; mret (answered m cs ++ cs')) s'
        ∧ engine_rep n s' (spec_run knf m (mjoin cs)).2.
Proof.
  revert s m. induction cs as [|os cs IH]; intros s m Hr.
  { exists s. split; [|done]. cbn [fmap list_fmap app answered]. unfold mbind, M_bind, mret, M_ret.
    by destruct (run io_msg tail s) as [[] ?]. }
  change (mjoin (os :: cs)) with (os ++ mjoin cs) in *. rewrite length_app, <-Nat.add_assoc in Hr.
  destruct (send_all_ok os _ s m [] Hr) as (s1 & Hsend & Hr1).
  destruct (IH s1 _ Hr1) as (s' & Hrun & Hr'). exists s'. split; [|by rewrite spec_run_app].
  cbn [fmap list_fmap app conn run answered].
  assert (serve (S:=S) io_msg (mkConn ((λ o, inl (request o)) <$> os) [] None) s
    = (Ok (mkConn [] (responses m os) None, None), s1)) as Hserve.
  { unfold serve. cbn [incoming sent room]. by rewrite (bind_ok _ _ _ _ _ Hsend). }
  rewrite (bind_ok _ _ _ _ _ Hserve). unfold mbind, M_bind in Hrun |- *. rewrite Hrun.
  by destruct (run io_msg tail s') as [[] ?].
Qed.
End spec.
End Net5.
