(* ===== verification/Sled.v ===== *)
(** * The [sled] engine

    [engines/sled.rs] of project-3 and project-4: [KvsEngine] over a [sled::Db],
    which is a dependency and a parameter here. It keeps the contract of the trait
    when the database behaves as a map. *)

From S2P Require Import Prelude Fs Command KvsEngine.

Definition SledError := string.
Definition Utf8Error := string.

#[export] Instance KvsError_from_sled : From SledError KvsError := Sled.
Definition KvsError_from_utf8 (e : Utf8Error) : KvsError := Utf8 e.

(** [String::into_bytes]. *)
Definition into_bytes (s : string) : bytes := list_byte_of_string s.

#[export] Instance into_bytes_inj : Inj (=) (=) into_bytes.
Proof.
  intros s t H. apply (f_equal string_of_list_byte) in H.
  unfold into_bytes in H. by rewrite !string_of_list_byte_of_string in H.
Qed.

(** The operations of [sled::Db] the engine calls, and [String::from_utf8]. *)
Class SledDb (Db : Type) := {
  db_set : bytes → bytes → M SledError Db (option bytes);
  db_get : bytes → M SledError Db (option bytes);
  db_del : bytes → M SledError Db (option bytes);
  db_flush : M SledError Db unit;
  from_utf8 : bytes → string + Utf8Error;
}.

(** A database that works stands for a map of byte strings. *)
Class SledLaws (Db : Type) `{!SledDb Db} := {
  db_rep : Db → gmap bytes bytes → Prop;
  db_set_ok : ∀ d m k v, db_rep d m →
    ∃ d', db_set k v d = (Ok (m !! k), d') ∧ db_rep d' (<[k := v]> m);
  db_get_ok : ∀ d m k, db_rep d m → ∃ d', db_get k d = (Ok (m !! k), d') ∧ db_rep d' m;
  db_del_ok : ∀ d m k, db_rep d m →
    ∃ d', db_del k d = (Ok (m !! k), d') ∧ db_rep d' (delete k m);
  db_flush_ok : ∀ d m, db_rep d m → ∃ d', db_flush d = (Ok tt, d') ∧ db_rep d' m;
  from_utf8_into_bytes : ∀ s, from_utf8 (into_bytes s) = inl s;
}.

Section code.
Context {Db : Type} `{!SledDb Db}.

Abbreviation DM := (M KvsError Db).

Definition sled_set (key value : string) : DM unit :=
  question (db_set (into_bytes key) (into_bytes value));;
  question db_flush;;
  mret tt.

Definition sled_get (key : string) : DM (option string) :=
  o ← question (db_get (into_bytes key));
  match o with
  | None => mret None
  | Some i_vec =>
      match from_utf8 i_vec with
      | inl value => mret (Some value)
      | inr e => throw (KvsError_from_utf8 e)
      end
  end.

Definition sled_remove (key : string) : DM unit :=
  o ← question (db_del (into_bytes key));
  match o with
  | None => throw KeyNotFound
  | Some _ => question db_flush;; mret tt
  end.

#[global] Instance SledKvsEngine : KvsEngine KvsError Db := {
  set := sled_set;
  get := sled_get;
  remove := sled_remove;
}.
End code.

(** ** It keeps the contract of the trait *)

Section spec.
Context {Db : Type} `{!SledDb Db} `{!SledLaws Db}.

Definition sled_map (m : kvmap) : gmap bytes bytes := kmap into_bytes (into_bytes <$> m).

Lemma lookup_sled_map m k : sled_map m !! into_bytes k = into_bytes <$> m !! k.
Proof. unfold sled_map. rewrite (lookup_kmap into_bytes). apply lookup_fmap. Qed.

Definition sled_rep (n : nat) (d : Db) (m : kvmap) : Prop := db_rep d (sled_map m).

Lemma sled_get_ok d m k : db_rep d (sled_map m) →
  ∃ d', sled_get k d = (Ok (m !! k), d') ∧ db_rep d' (sled_map m).
Proof.
  intros Hr. destruct (db_get_ok d _ (into_bytes k) Hr) as (d' & Hrun & Hr').
  exists d'. split; [|done]. unfold sled_get.
  rewrite (bind_ok _ _ _ _ _ (question_ok _ _ _ _ Hrun)), lookup_sled_map.
  destruct (m !! k) as [v|]; simpl; [by rewrite from_utf8_into_bytes|done].
Qed.

Lemma sled_set_ok d m k v : db_rep d (sled_map m) →
  ∃ d', sled_set k v d = (Ok tt, d') ∧ db_rep d' (sled_map (<[k := v]> m)).
Proof.
  intros Hr. destruct (db_set_ok d _ (into_bytes k) (into_bytes v) Hr) as (d1 & Hrun & Hr1).
  destruct (db_flush_ok d1 _ Hr1) as (d2 & Hfl & Hr2). exists d2. split.
  - unfold sled_set. rewrite (bind_ok _ _ _ _ _ (question_ok _ _ _ _ Hrun)).
    by rewrite (bind_ok _ _ _ _ _ (question_ok _ _ _ _ Hfl)).
  - unfold sled_map in *. rewrite fmap_insert, (kmap_insert into_bytes). exact Hr2.
Qed.

Lemma sled_remove_ok d m k : db_rep d (sled_map m) →
  ∃ d', sled_remove k d = (match m !! k with Some _ => Ok tt | None => Err KeyNotFound end, d')
        ∧ db_rep d' (sled_map (delete k m)).
Proof.
  intros Hr. destruct (db_del_ok d _ (into_bytes k) Hr) as (d1 & Hrun & Hr1).
  assert (db_rep d1 (sled_map (delete k m))) as Hr1'.
  { unfold sled_map in *. rewrite fmap_delete, (kmap_delete into_bytes). exact Hr1. }
  destruct (db_flush_ok d1 _ Hr1') as (d2 & Hfl & Hr2).
  unfold sled_remove. rewrite (bind_ok _ _ _ _ _ (question_ok _ _ _ _ Hrun)), lookup_sled_map.
  destruct (m !! k) as [v|]; simpl; [|eauto].
  exists d2. by rewrite (bind_ok _ _ _ _ _ (question_ok _ _ _ _ Hfl)).
Qed.

#[global] Program Instance SledKvsEngine_spec : KvsEngineSpec KvsError Db := {
  engine_rep := sled_rep;
  engine_key_not_found := KeyNotFound;
}.
Next Obligation. done. Qed.
Next Obligation. intros n d m k v Hr. exact (sled_set_ok d m k v Hr). Qed.
Next Obligation. intros n d m k Hr. exact (sled_get_ok d m k Hr). Qed.
Next Obligation.
  intros n d m k v Hr Hk. destruct (sled_remove_ok d m k Hr) as (d' & Hrun & Hr').
  exists d'. by rewrite Hk in Hrun.
Qed.
Next Obligation.
  intros n d m k Hr Hk. destruct (sled_remove_ok d m k Hr) as (d' & Hrun & Hr').
  exists d'. rewrite Hk in Hrun. rewrite delete_id in Hr' by done. done.
Qed.
End spec.

(** ** A database in memory

    It shows that a database can behave as the engine expects. *)

#[export] Instance mem_db : SledDb (gmap bytes bytes) := {
  db_set k v m := (Ok (m !! k), <[k := v]> m);
  db_get k m := (Ok (m !! k), m);
  db_del k m := (Ok (m !! k), delete k m);
  db_flush m := (Ok tt, m);
  from_utf8 b := inl (string_of_list_byte b);
}.

#[export] Program Instance mem_db_laws : SledLaws (gmap bytes bytes) := { db_rep := eq }.
Next Obligation. intros d m k v <-. eauto. Qed.
Next Obligation. intros d m k <-. eauto. Qed.
Next Obligation. intros d m k <-. eauto. Qed.
Next Obligation. intros d m <-. eauto. Qed.
Next Obligation. intros s. simpl. by rewrite string_of_list_byte_of_string. Qed.
