(* ===== verification/Programs.v ===== *)
(** * The programs [kvs-server] and [kvs-client]

    [bin/kvs-server.rs]: which engine a start of the server uses and what it leaves
    in the [engine] file. [bin/kvs-client.rs]: what a run of the client prints. *)

From S2P Require Import Prelude Fs Command KvsEngine Net NetSpec.

(** ** kvs-server *)

Inductive Engine := kvs | sled.

#[export] Instance Engine_eq_dec : EqDecision Engine.
Proof. solve_decision. Defined.

(** The [engine] file in the current directory. *)
Inductive EngineFile := Missing | Content (s : string) | Unreadable (e : IoError).

(** What a start comes to: the server runs on an engine, or the process exits. *)
Inductive Start := Serves (e : Engine) | Exits (code : N).

Definition DEFAULT_ENGINE : Engine := kvs.

(** [Display] of the [arg_enum!]; its [FromStr] is the parameter [parse]. *)
Definition format_engine (e : Engine) : string :=
  match e with kvs => "kvs" | sled => "sled" end.

Section server.
Context (parse : string → option Engine).

Abbreviation FM := (M KvsError EngineFile).

Definition current_engine : FM (option Engine) :=
  f ← gets id;
  match f with
  | Missing => mret None
  | Unreadable e => throw (from e)
  | Content s => mret (parse s)
  end.

(** [run] up to the engine it hands over to [run_with_engine]. *)
Definition run_server (engine : option Engine) : FM Start :=
  let engine := default DEFAULT_ENGINE engine in
  modify (λ _, Content (format_engine engine));;
  mret (Serves engine).

Definition server_main (opt_engine : option Engine) : FM Start := λ f,
  match (curr_engine ← current_engine;
         let engine := match opt_engine with None => curr_engine | Some e => Some e end in
         if decide (curr_engine ≠ None ∧ engine ≠ curr_engine) then mret (Exits 1)
         else run_server engine) f with
  | (Err _, f') => (Ok (Exits 1), f')
  | r => r
  end.

(** The server started again and again in the same directory. *)
Fixpoint starts (opts : list (option Engine)) : FM (list Start) :=
  match opts with
  | [] => mret []
  | o :: opts' => r ← server_main o; rs ← starts opts'; mret (r :: rs)
  end.

(** ** What it promises *)

Context (Hparse : ∀ e, parse (format_engine e) = Some e).

Lemma server_main_chosen o e :
  server_main o (Content (format_engine e))
  = (Ok (match o with
         | Some e' => if decide (e' = e) then Serves e else Exits 1
         | None => Serves e
         end), Content (format_engine e)).
Proof.
  unfold server_main, current_engine. cbn. unfold mbind, M_bind, gets, mret, M_ret. cbn.
  rewrite Hparse. destruct o as [e'|]; cbn.
  - destruct (decide (e' = e)) as [->|Hne].
    + rewrite decide_False by naive_solver. done.
    + rewrite decide_True by naive_solver. done.
  - rewrite decide_False by naive_solver. done.
Qed.

Lemma server_main_first o f : current_engine f = (Ok None, f) →
  server_main o f = (Ok (Serves (default DEFAULT_ENGINE o)),
                     Content (format_engine (default DEFAULT_ENGINE o))).
Proof.
  intros Hc. unfold server_main, mbind, M_bind. rewrite Hc.
  rewrite decide_False by naive_solver. by destruct o.
Qed.

Lemma starts_chosen opts e :
  starts opts (Content (format_engine e))
  = (Ok ((λ o, match o with
               | Some e' => if decide (e' = e) then Serves e else Exits 1
               | None => Serves e
               end) <$> opts), Content (format_engine e)).
Proof.
  induction opts as [|o opts IH]; [done|]. cbn [starts].
  rewrite (bind_ok _ _ _ _ _ (server_main_chosen o e)). by rewrite (bind_ok _ _ _ _ _ IH).
Qed.
End server.

(** ** kvs-client *)

(** What a run prints to its two outputs, and its exit status. *)
Record Output := mkOutput { out : list string; err : list string; code : N }.

Section client.
Context `{!Wire} (io_msg : IoError → string).

(** [run] of the client on a connection: the lines it prints. *)
Definition client_run (eof : SerdeError) (cmd : Op) : M KvsError KvsClient (list string) :=
  match cmd with
  | OpGet key =>
      o ← client_get eof key;
      match o with
      | Some value => mret [value]
      | None => mret ["Key not found"]
      end
  | OpSet key value => client_set eof key value;; mret []
  | OpRemove key => client_remove eof key;; mret []
  end.

Definition client_main (eof : SerdeError) (cmd : Op) (c : KvsClient) : Output :=
  match client_run eof cmd c with
  | (Ok lines, _) => mkOutput lines [] 0
  | (Err e, _) => mkOutput [] [display io_msg e] 1
  | (_, _) => mkOutput [] [] 101
  end.

(** What a run should print when the map is [m]. *)
Definition spec_output (m : kvmap) (cmd : Op) : Output :=
  match cmd with
  | OpSet _ _ => mkOutput [] [] 0
  | OpGet key => mkOutput [default "Key not found" (m !! key)] [] 0
  | OpRemove key => match m !! key with
                    | Some _ => mkOutput [] [] 0
                    | None => mkOutput [] ["Key not found"] 1
                    end
  end.

Context `{!WireLaws}.

Lemma client_main_ok eof cmd m :
  client_main eof cmd (mkClient (response io_msg cmd (spec_op KeyNotFound m cmd).1) [])
  = spec_output m cmd.
Proof.
  unfold client_main.
  destruct cmd as [k v|k|k]; cbn [spec_op fst client_run response spec_output];
    unfold client_set, client_get, client_remove, send_request; mpure; cbn [c_reader c_writer].
  - pose proof (deserialize_ok eof SetResponse_Ok [] (to_writer (Request_Set k v))) as Hd.
    rewrite app_nil_r in Hd. by rewrite (bind_ok _ _ _ _ _ Hd).
  - pose proof (deserialize_ok eof (GetResponse_Ok (m !! k)) [] (to_writer (Request_Get k))) as Hd.
    rewrite app_nil_r in Hd. rewrite (bind_ok _ _ _ _ _ Hd). by destruct (m !! k).
  - destruct (m !! k) as [v|]; cbn [fst].
    + pose proof (deserialize_ok eof RemoveResponse_Ok [] (to_writer (Request_Remove k))) as Hd.
      rewrite app_nil_r in Hd. by rewrite (bind_ok _ _ _ _ _ Hd).
    + pose proof (deserialize_ok eof (RemoveResponse_Err (display io_msg KeyNotFound)) []
        (to_writer (Request_Remove k))) as Hd.
      rewrite app_nil_r in Hd. by rewrite (bind_ok _ _ _ _ _ Hd).
Qed.
End client.
