(* ===== verification/ThreadPool.v ===== *)
(** * Thread pools (project-4 and project-5)

    [thread_pool/shared_queue.rs]: workers that take jobs from one channel. A job is
    known by a number; whether it panics is a parameter. Everything a thread can
    do next is an [action]; a run of the pool is a sequence of them. *)

From S2P Require Import Prelude.

Abbreviation job := nat.

(** A thread of the pool: in [rx.recv()], or running a job. *)
Inductive worker := Waiting | Working (j : job).

(** [tx] tells whether the pool, and with it the sender, still exists. [started] and
    [finished] record what happened; the code keeps no such lists. *)
Record Pool := mkPool {
  queue : list job;
  workers : list worker;
  tx : bool;
  started : list job;
  finished : list job;
}.

(** [SharedQueueThreadPool::new]: one thread after the other; [os] tells which of
    the calls to [thread::Builder::spawn] succeed. When one fails the channel is
    dropped, and the threads that were spawned are all that is left. *)
Fixpoint spawn_workers (threads : nat) (os : list bool) (ws : list worker) : outcome unit (list worker) * list worker :=
  match threads with
  | O => (Ok ws, ws)
  | S n => match os with
           | false :: _ => (Err tt, ws)
           | _ => spawn_workers n (tail os) (ws ++ [Waiting])
           end
  end.

Definition new (threads : nat) (os : list bool) : outcome unit unit * Pool :=
  match spawn_workers threads os [] with
  | (Ok ws, _) => (Ok tt, mkPool [] ws true [] [])
  | (_, ws) => (Err tt, mkPool [] ws false [] [])
  end.

(** [spawn]: [send] fails when no receiver is left, and [expect] panics. *)
Definition spawn (j : job) : M unit Pool unit := λ p,
  match workers p with
  | [] => (Panic, p)
  | _ => (Ok tt, mkPool (queue p ++ [j]) (workers p) (tx p) (started p) (finished p))
  end.

(** The pool and all its clones are dropped. *)
Definition destroy (p : Pool) : Pool := mkPool (queue p) (workers p) false (started p) (finished p).

Inductive action :=
| Recv (i : nat)              (* recv returns a job *)
| Finish (i : nat) (os : bool) (* the job returns or panics; os: can a thread be spawned *)
| Spin (i : nat).             (* recv returns an error, which is logged *)

Section steps.
Context (panics : job → bool).

(** One action of the thread [i] of [run_tasks]. A panic unwinds the thread: the
    [Drop] of its [TaskReceiver] spawns a thread in its place, or logs that it
    cannot. An error of [recv] is logged and the loop goes on. *)
Definition act (a : action) (p : Pool) : option Pool :=
  match a with
  | Recv i =>
      match workers p !! i, queue p with
      | Some Waiting, j :: q =>
          Some (mkPool q (<[i := Working j]> (workers p)) (tx p) (started p ++ [j]) (finished p))
      | _, _ => None
      end
  | Finish i os =>
      match workers p !! i with
      | Some (Working j) =>
          let ws := if panics j && negb os then delete i (workers p) else <[i := Waiting]> (workers p) in
          Some (mkPool (queue p) ws (tx p) (started p) (finished p ++ [j]))
      | _ => None
      end
  | Spin i =>
      match workers p !! i, queue p, tx p with
      | Some Waiting, [], false => Some p
      | _, _, _ => None
      end
  end.

Fixpoint acts (l : list action) (p : Pool) : option Pool :=
  match l with
  | [] => Some p
  | a :: l' => p' ← act a p; acts l' p'
  end.

(** The operating system always spawns the threads it is asked for. *)
Definition os_ok (a : action) : bool := match a with Finish _ os => os | _ => true end.

(** An action of a job, as opposed to a thread that spins. *)
Definition useful (a : action) : bool := match a with Spin _ => false | _ => true end.

(** ** Jobs *)

Definition running (ws : list worker) : list job :=
  omap (λ w, match w with Working j => Some j | Waiting => None end) ws.

(** Jobs start in the order they were spawned, and the ones that started and did
    not finish are running. *)
Record pool_ok (jobs : list job) (p : Pool) : Prop := {
  po_fifo : started p ++ queue p = jobs;
  po_once : started p ≡ₚ finished p ++ running (workers p);
}.

Lemma running_insert_same ws i w w' : ws !! i = Some w →
  running [w] = [] → running (<[i := w']> ws) ≡ₚ running [w'] ++ running ws.
Proof.
  intros Hi Hw. rewrite insert_take_drop by (by eapply lookup_lt_Some).
  rewrite <-(take_drop_middle ws i w Hi) at 3. unfold running.
  change (w :: drop (S i) ws) with ([w] ++ drop (S i) ws).
  change (w' :: drop (S i) ws) with ([w'] ++ drop (S i) ws).
  rewrite !omap_app. unfold running in Hw. rewrite Hw, app_nil_l.
  by rewrite !app_assoc, (Permutation_app_comm (omap _ (take i ws))).
Qed.

Lemma running_middle ws i j : ws !! i = Some (Working j) →
  running ws ≡ₚ j :: running (delete i ws)
  ∧ running ws ≡ₚ j :: running (<[i := Waiting]> ws).
Proof.
  intros Hi. assert (running ws = running (take i ws) ++ j :: running (drop (S i) ws)) as ->.
  { rewrite <-(take_drop_middle ws i _ Hi) at 1. unfold running. by rewrite omap_app. }
  rewrite delete_take_drop, insert_take_drop by (by eapply lookup_lt_Some).
  unfold running. rewrite !omap_app. cbn [omap list_omap]. split; by rewrite Permutation_middle.
Qed.

Lemma act_ok jobs a p p' : pool_ok jobs p → act a p = Some p' → pool_ok jobs p'.
Proof.
  intros [Hf Ho]. destruct a as [i|i os|i]; simpl.
  - destruct (workers p !! i) as [[|j']|] eqn:Hi; try done.
    destruct (queue p) as [|j q] eqn:Hq; [done|]. intros [= <-]. split; simpl.
    + by rewrite <-app_assoc.
    + rewrite (running_insert_same _ _ _ _ Hi) by done. cbn [running omap list_omap app].
      rewrite Ho. solve_Permutation.
  - destruct (workers p !! i) as [[|j]|] eqn:Hi; try done. intros [= <-]. split; simpl; [done|].
    destruct (running_middle _ _ _ Hi) as [Hd Hw].
    rewrite Ho, <-app_assoc. apply Permutation_app_head. by destruct (panics j && negb os).
  - destruct (workers p !! i) as [[|j]|]; try done. destruct (queue p) eqn:Hq; [|done].
    destruct (tx p); [done|]. intros [= <-]. split; [by rewrite Hq|done].
Qed.

Lemma acts_ok jobs l p p' : pool_ok jobs p → acts l p = Some p' → pool_ok jobs p'.
Proof.
  revert p. induction l as [|a l IH]; intros p Hp; simpl; [by intros [= <-]|].
  destruct (act a p) as [p1|] eqn:Ha; [|done]. simpl. intros Hl. eapply IH; [|done]. by eapply act_ok.
Qed.

Lemma spawn_ok jobs j p p' : pool_ok jobs p → spawn j p = (Ok tt, p') → pool_ok (jobs ++ [j]) p'.
Proof.
  intros [Hf Ho]. unfold spawn. destruct (workers p) eqn:Hw; [done|]. intros [= <-].
  split; simpl; [by rewrite app_assoc, Hf|]. by rewrite Ho.
Qed.

(** ** Threads *)

Lemma act_workers a p p' : os_ok a = true → act a p = Some p' →
  length (workers p') = length (workers p).
Proof.
  destruct a as [i|i os|i]; simpl; intros Hos.
  - destruct (workers p !! i) as [[|j']|]; try done. destruct (queue p); [done|].
    intros [= <-]. simpl. by rewrite length_insert.
  - destruct (workers p !! i) as [[|j]|]; try done. intros [= <-]. simpl. rewrite Hos, andb_false_r.
    by rewrite length_insert.
  - destruct (workers p !! i) as [[|j]|]; try done. destruct (queue p); [|done].
    destruct (tx p); [done|]. by intros [= <-].
Qed.

Lemma acts_workers l p p' : forallb os_ok l = true → acts l p = Some p' →
  length (workers p') = length (workers p).
Proof.
  revert p. induction l as [|a l IH]; intros p Hos; simpl; [by intros [= <-]|].
  simpl in Hos. apply andb_prop in Hos as [Ha Hl].
  destruct (act a p) as [p1|] eqn:Hp; [|done]. simpl. intros Hl'.
  rewrite (IH p1 Hl Hl'). by eapply act_workers.
Qed.

(** ** Progress *)

(** What is left to do: a job in the queue takes two actions, a running one takes one. *)
Definition pending (p : Pool) : nat := 2 * length (queue p) + length (running (workers p)).

Lemma act_pending a p p' : useful a = true → act a p = Some p' → pending p = S (pending p').
Proof.
  destruct a as [i|i os|i]; simpl; intros Hu; [| |done].
  - destruct (workers p !! i) as [[|j']|] eqn:Hi; try done.
    destruct (queue p) as [|j q] eqn:Hq; [done|]. intros [= <-]. unfold pending. simpl.
    rewrite Hq, (running_insert_same _ _ _ _ Hi) by done. simpl. lia.
  - destruct (workers p !! i) as [[|j]|] eqn:Hi; try done. intros [= <-]. unfold pending. simpl.
    destruct (running_middle _ _ _ Hi) as [Hd Hw].
    destruct (panics j && negb os); [rewrite Hd|rewrite Hw]; simpl; lia.
Qed.

Lemma acts_pending l p p' : forallb useful l = true → acts l p = Some p' →
  pending p = length l + pending p'.
Proof.
  revert p. induction l as [|a l IH]; intros p Hos; simpl; [by intros [= <-]|].
  simpl in Hos. apply andb_prop in Hos as [Ha Hl].
  destruct (act a p) as [p1|] eqn:Hp; [|done]. simpl. intros Hl'.
  rewrite (act_pending _ _ _ Ha Hp), (IH p1 Hl Hl'). done.
Qed.

Lemma progress p : workers p ≠ [] → 0 < pending p →
  ∃ a p', useful a = true ∧ os_ok a = true ∧ act a p = Some p'.
Proof.
  intros Hw Hp. destruct (running (workers p)) as [|j js] eqn:Hr.
  - unfold pending in Hp. rewrite Hr in Hp. destruct (queue p) as [|j q] eqn:Hq; [simpl in Hp; lia|].
    destruct (workers p) as [|w ws] eqn:Hws; [done|]. destruct w as [|j']; [|done].
    exists (Recv 0). simpl. rewrite Hws, Hq. eauto.
  - assert (j ∈ running (workers p)) as Hj by (rewrite Hr; set_solver).
    apply list_elem_of_omap in Hj as (w & Hw' & Hwj). destruct w as [|j']; simplify_eq.
    apply list_elem_of_lookup in Hw' as [i Hi].
    exists (Finish i true). simpl. rewrite Hi. eauto.
Qed.

(** Some actions, as many as are pending, leave nothing to do. *)
Lemma drains p : workers p ≠ [] →
  ∃ l p', forallb useful l = true ∧ forallb os_ok l = true ∧ acts l p = Some p' ∧ pending p' = 0.
Proof.
  remember (pending p) as n eqn:Hn. revert p Hn. induction n as [|n IH]; intros p Hn Hw.
  { exists [], p. done. }
  destruct (progress p Hw) as (a & p1 & Hu & Hos & Ha); [lia|].
  pose proof (act_pending _ _ _ Hu Ha). pose proof (act_workers _ _ _ Hos Ha).
  destruct (IH p1) as (l & p' & Hl & Hl' & Hls & Hp'); [lia| |].
  { intros Hnil. rewrite Hnil in *. simpl in *. by destruct (workers p). }
  exists (a :: l), p'. simpl. by rewrite Hu, Hl, Hos, Hl', Ha.
Qed.

Lemma pending_zero p : pending p = 0 → queue p = [] ∧ running (workers p) = [].
Proof.
  unfold pending. intros H. split; apply nil_length_inv; lia.
Qed.
End steps.

(** ** NaiveThreadPool

    A thread for every job; [threads] is ignored. *)

Definition naive_new (threads : nat) : outcome unit (list job) := Ok [].
Definition naive_spawn (j : job) (threads : list job) : list job := threads ++ [j].
