(* ===== verification/ServiceTheorems.v ===== *)
(** * Theorems about the servers, the clients and the thread pools

    The services of project-3 to project-5 over any engine that keeps the
    [KvsEngine] contract, the choice of the engine, and the shared-queue pool. *)

From S2P Require Import Prelude Fs Command KvsEngine Net Codec NetSpec Net5 Sled Programs ThreadPool.

(** ** project-3 and project-4: one connection, many connections *)

Section service.
Context {S : Type} `{!KvsEngine KvsError S} `{!KvsEngineSpec KvsError S}.
Context `{!Wire} `{!WireLaws} (io_msg : IoError → string).

Lemma responses_take m os i : responses (S:=S) io_msg m (take i os) `prefix_of` responses io_msg m os.
Proof.
  revert m i. induction os as [|o os IH]; intros m [|i]; try apply prefix_nil.
  cbn [take responses]. destruct (spec_op _ m o) as [r m1]. by apply prefix_app.
Qed.

(** C16: a client and a server over any engine converse as with the map itself.
    The server answers every request, in order, and stops without an error when
    the client closes; the client gets for each operation the answer of the map,
    an error of the engine arriving as its message. What the server has sent after
    the first [i] requests does not depend on the later ones, so a client may wait
    for each answer before it sends the next request. *)
Theorem conversation eof os n s m : engine_rep (length os + n) s m →
  ∃ s' out, serve (S:=S) io_msg (s, mkSocket (requests os) [] None) = (Ok tt, (s', mkSocket [] out None))
    ∧ client_ops eof os (mkClient out [])
      = (Ok (client_reply io_msg <$> (spec_run engine_key_not_found m os).1), mkClient [] (requests os))
    ∧ engine_rep n s' (spec_run engine_key_not_found m os).2
    ∧ ∀ i, ∃ s_i out_i,
        serve io_msg (s, mkSocket (requests (take i os)) [] None) = (Ok tt, (s_i, mkSocket [] out_i None))
        ∧ out_i `prefix_of` out.
Proof.
  intros Hr.
  assert (∀ os n, engine_rep (length os + n) s m →
    ∃ s', serve (S:=S) io_msg (s, mkSocket (requests os) [] None)
          = (Ok tt, (s', mkSocket [] (responses io_msg m os) None))
          ∧ engine_rep n s' (spec_run engine_key_not_found m os).2) as Hserve.
  { intros os' n' Hr'. destruct (serve_ok io_msg os' [] n' s m (or_introl eq_refl) Hr') as (s' & Hrun & Hr2).
    exists s'. rewrite app_nil_r in Hrun. unfold tail_result in Hrun. by rewrite next_nil in Hrun. }
  destruct (Hserve os n Hr) as (s' & Hrun & Hr'). exists s', (responses io_msg m os).
  split_and!; [done|by rewrite (client_ops_ok io_msg eof os m [])|done|].
  intros i. destruct (Hserve (take i os) (length (drop i os) + n)) as (si & Hrun_i & _).
  { rewrite Nat.add_assoc, <-length_app, take_drop. done. }
  exists si, (responses io_msg m (take i os)). split; [done|apply responses_take].
Qed.

(** C21: a client that sends garbage harms nobody. Over any connections, each of
    them requests followed by nothing or by bytes that are no request, the server
    answers all the requests with what one map shared by all of them says, and a
    connection that ends in an error does not keep it from serving the next. *)
Theorem server_refines cs n s m : Forall (λ c, tail_ok c.2) cs →
  engine_rep (length (all_ops cs) + n) s m →
  ∃ s' socks, run (S:=S) io_msg (conn <$> cs) s = (Ok socks, s')
    ∧ s_out <$> socks = answers io_msg m cs
    ∧ engine_rep n s' (spec_run engine_key_not_found m (all_ops cs)).2.
Proof. apply run_ok. Qed.

(** a run of [kvs-client] against the server prints what the map says: the
    value or [Key not found] on the standard output for [get]; for [rm] of a
    missing key the message on the error output and the exit status 1. *)
Theorem client_prints eof n s m cmd : engine_rep (Datatypes.S n) s m →
  engine_key_not_found (E:=KvsError) (S:=S) = KeyNotFound →
  ∃ s' out, serve (S:=S) io_msg (s, mkSocket (requests [cmd]) [] None) = (Ok tt, (s', mkSocket [] out None))
    ∧ client_main io_msg eof cmd (mkClient out []) = spec_output m cmd
    ∧ engine_rep n s' (spec_op KeyNotFound m cmd).2.
Proof.
  intros Hr Hknf. destruct (serve_ok io_msg [cmd] [] n s m (or_introl eq_refl) Hr) as (s' & Hrun & Hr').
  rewrite app_nil_r in Hrun. unfold tail_result in Hrun. rewrite next_nil in Hrun.
  exists s', (responses (S:=S) io_msg m [cmd]). split_and!; [done|..].
  - rewrite <-(client_main_ok io_msg eof). cbn [responses]. rewrite Hknf.
    destruct (spec_op KeyNotFound m cmd) as [r m']. by rewrite app_nil_r.
  - cbn [spec_run] in Hr'. rewrite Hknf in Hr'. by destruct (spec_op KeyNotFound m cmd).
Qed.

(** ** project-5 *)

(** C30: clients of the asynchronous server that send requests and close are
    served in turn with the answers of one map, and each client, reading the
    responses in order, gets the results of its operations. *)
Theorem server5_refines cs n s m : engine_rep (length (mjoin cs) + n) s m →
  ∃ s', Net5.run (S:=S) io_msg (Net5.conn <$> cs) s = (Ok (Net5.answered (S:=S) io_msg m cs), s')
    ∧ engine_rep n s' (spec_run engine_key_not_found m (mjoin cs)).2
    ∧ ∀ m' os, zip_with (λ o r, Net5.client_result o (Some (inl r))) os (Net5.responses (S:=S) io_msg m' os)
               = client_reply io_msg <$> (spec_run (engine_key_not_found (S:=S)) m' os).1.
Proof.
  intros Hr. destruct (Net5.run_prefix io_msg cs [] n s m Hr) as (s' & Hrun & Hr').
  exists s'. split_and!; [|done|intros; apply Net5.client_results].
  rewrite app_nil_r in Hrun. rewrite Hrun. cbn. unfold mbind, M_bind, mret, M_ret. by rewrite app_nil_r.
Qed.

(** one connection that fails ends the asynchronous server. When a client goes
    away before it took all its responses, or accepting a connection fails, [run]
    returns after it; the connections behind it are never served. *)
Theorem server5_stops cs os r rest n s m : engine_rep (length (mjoin cs) + (length os + n)) s m →
  r < length os →
  (∃ s', Net5.run (S:=S) io_msg ((Net5.conn <$> cs)
             ++ inl (Net5.mkConn ((λ o, inl (request o)) <$> os) [] (Some r)) :: rest) s
         = (Ok (Net5.answered (S:=S) io_msg m cs
             ++ [Net5.mkConn [] (take r (Net5.responses (S:=S) io_msg
                  (spec_run engine_key_not_found m (mjoin cs)).2 os)) (Some r)]), s'))
  ∧ ∀ e, ∃ s', Net5.run (S:=S) io_msg ((Net5.conn <$> cs) ++ inr e :: rest) s
           = (Ok (Net5.answered (S:=S) io_msg m cs), s').
Proof.
  intros Hr Hlt. split.
  - destruct (Net5.run_prefix io_msg cs
      (inl (Net5.mkConn ((λ o, inl (request o)) <$> os) [] (Some r)) :: rest) _ s m Hr) as (s' & Hrun & Hr').
    destruct (Net5.send_all_fails io_msg os r n s' _ [] Hr' Hlt) as (s'' & e & Hsend). exists s''.
    rewrite Hrun. cbn [Net5.run]. erewrite bind_ok; [done|].
    unfold Net5.serve. cbn [Net5.incoming Net5.sent Net5.room].
    erewrite bind_ok; [|by rewrite (bind_ok _ _ _ _ _ Hsend)]. done.
  - intros e. destruct (Net5.run_prefix io_msg cs (inr e :: rest) _ s m Hr) as (s' & Hrun & Hr').
    exists s'. rewrite Hrun. cbn [Net5.run]. unfold mbind, M_bind, mret, M_ret. by rewrite app_nil_r.
Qed.
End service.

(** ** The sled engine *)

(** the [sled] engine keeps the contract of [KvsEngine]: over a database that
    behaves as a map, any operations answer as a map from strings to strings. *)
Theorem sled_refines {Db} `{!SledDb Db} `{!SledLaws Db} os (d : Db) m : db_rep d (sled_map m) →
  ∃ d', engine_run os d = (Ok (spec_run KeyNotFound m os).1, d')
        ∧ db_rep d' (sled_map (spec_run KeyNotFound m os).2).
Proof. exact (engine_run_refines os 0 d m). Qed.

(** ** The choice of the engine *)

(** A directory keeps the engine it was first served with. From a directory
    without an [engine] file, the first start takes the engine asked for, [kvs] by
    default; every later start runs on it too, or exits with status 1 when another
    engine is asked for, and never touches the file again. *)
Theorem engine_is_sticky (parse : string → option Engine) (Hparse : ∀ e, parse (format_engine e) = Some e)
    o opts :
  let e := default DEFAULT_ENGINE o in
  starts parse (o :: opts) Missing
  = (Ok (Serves e :: ((λ o, match o with
                            | Some e' => if decide (e' = e) then Serves e else Exits 1
                            | None => Serves e
                            end) <$> opts)), Content (format_engine e)).
Proof.
  cbn [starts]. rewrite (bind_ok _ _ _ _ _ (server_main_first parse o Missing eq_refl)).
  by rewrite (bind_ok _ _ _ _ _ (starts_chosen parse Hparse opts _)).
Qed.

(** ** The shared-queue thread pool *)

(** The pool with its threads, before any job. *)
Definition fresh (threads : nat) : Pool := mkPool [] (replicate threads Waiting) true [] [].

Lemma fresh_ok threads : pool_ok [] (fresh threads).
Proof.
  split; [done|]. simpl. clear. induction threads as [|n IH]; [done|]. exact IH.
Qed.

(** Jobs are spawned between the actions of the threads. *)
Fixpoint pool_run (panics : job → bool) (l : list (job + action)) (p : Pool) : option Pool :=
  match l with
  | [] => Some p
  | inl j :: l' => match spawn j p with
                   | (Ok _, p') => pool_run panics l' p'
                   | _ => None
                   end
  | inr a :: l' => p' ← act panics a p; pool_run panics l' p'
  end.

Definition spawned (l : list (job + action)) : list job :=
  omap (λ x, match x with inl j => Some j | inr _ => None end) l.

Lemma pool_run_ok panics l jobs p p' : pool_ok jobs p → pool_run panics l p = Some p' →
  pool_ok (jobs ++ spawned l) p'.
Proof.
  revert jobs p. induction l as [|[j|a] l IH]; intros jobs p Hp; simpl.
  - intros [= <-]. by rewrite app_nil_r.
  - destruct (spawn j p) as [[[]| | |] p1] eqn:Hs; try done. intros Hl.
    change (j :: spawned l) with ([j] ++ spawned l). rewrite app_assoc.
    eapply IH; [|done]. by eapply spawn_ok.
  - destruct (act panics a p) as [p1|] eqn:Ha; [|done]. simpl. intros Hl.
    eapply IH; [|done]. by eapply act_ok.
Qed.

Lemma pool_run_workers panics l p p' : Forall (λ x, match x with inr a => os_ok a = true | _ => True end) l →
  pool_run panics l p = Some p' → length (workers p') = length (workers p).
Proof.
  revert p. induction l as [|[j|a] l IH]; intros p Hos; simpl.
  - by intros [= <-].
  - destruct (spawn j p) as [[[]| | |] p1] eqn:Hs; try done. apply Forall_cons in Hos as [_ Hos].
    intros Hl. rewrite (IH p1 Hos Hl). unfold spawn in Hs. destruct (workers p) eqn:Hw; [done|].
    by injection Hs as <-.
  - apply Forall_cons in Hos as [Ha Hos].
    destruct (act panics a p) as [p1|] eqn:Hp; [|done]. simpl. intros Hl.
    rewrite (IH p1 Hos Hl). by eapply act_workers.
Qed.

(** C32: every job runs once and jobs start in the order they were spawned,
    whatever the threads do and whichever jobs panic: what has started followed by
    what is queued is what was spawned, and what has started is what has finished
    and what is running. While the system can spawn threads, a job that panics does
    not cost the pool a thread. *)
Theorem pool_runs_jobs_once panics threads l p : pool_run panics l (fresh threads) = Some p →
  started p ++ queue p = spawned l
  ∧ started p ≡ₚ finished p ++ running (workers p)
  ∧ (Forall (λ x, match x with inr a => os_ok a = true | _ => True end) l → length (workers p) = threads).
Proof.
  intros Hrun. destruct (pool_run_ok panics l [] _ p (fresh_ok threads) Hrun) as [Hf Ho].
  split_and!; [done..|]. intros Hos. rewrite (pool_run_workers panics l _ p Hos Hrun).
  apply length_replicate.
Qed.

(** Every spawned job comes to an end. A pool that still has a thread can
    always go on until no job is queued or running, after which all jobs have
    finished; and however it goes on, the number of actions of jobs left is the
    number of queued jobs twice and of running jobs once. *)
Theorem pool_drains panics threads l p : pool_run panics l (fresh threads) = Some p → workers p ≠ [] →
  (∃ acts p', ThreadPool.acts panics acts p = Some p' ∧ forallb useful acts = true
     ∧ queue p' = [] ∧ running (workers p') = [] ∧ finished p' ≡ₚ spawned l)
  ∧ ∀ acts p', forallb useful acts = true → ThreadPool.acts panics acts p = Some p' →
      2 * length (queue p) + length (running (workers p)) = length acts + pending p'.
Proof.
  intros Hrun Hw. split; [|intros acts p' Hu Ha; by apply (acts_pending panics)].
  pose proof (pool_run_ok panics l [] _ p (fresh_ok threads) Hrun) as Hok.
  destruct (drains panics p Hw) as (acts & p' & Hu & _ & Ha & Hp').
  destruct (acts_ok panics _ acts p p' Hok Ha) as [Hf Ho].
  apply pending_zero in Hp' as [Hq Hrn]. exists acts, p'. split_and!; [done..|].
  rewrite Hrn, app_nil_r in Ho. rewrite Hq, app_nil_r in Hf. rewrite <-Ho, Hf. done.
Qed.

(** The threads of a destroyed pool never exit. The comment at the error arm
    of [run_tasks] says the thread exits; but the loop goes on, so once the pool is
    dropped and its jobs are done every thread finds the channel disconnected, logs
    it and asks again, for ever: no action ever ends a thread. *)
Theorem destroyed_pool_spins panics p : queue p = [] → running (workers p) = [] →
  ∀ a p', act panics a (destroy p) = Some p' → useful a = false ∧ p' = destroy p
  ∧ ∀ i, i < length (workers p) → act panics (Spin i) p' = Some p'.
Proof.
  intros Hq Hr a p' Ha.
  assert (∀ i w, workers p !! i = Some w → w = Waiting) as Hwait.
  { intros i [|j] Hi; [done|]. destruct (running_middle _ _ _ Hi) as [Hd _]. rewrite Hr in Hd.
    by apply Permutation_nil_cons in Hd. }
  assert (p' = destroy p ∧ useful a = false) as [-> Hu].
  { destruct a as [i|i os|i]; simpl in Ha; rewrite ?Hq in Ha.
    - by destruct (workers p !! i) as [[]|].
    - destruct (workers p !! i) as [w|] eqn:Hi; [|done]. by rewrite (Hwait i w Hi) in Ha.
    - destruct (workers p !! i) as [[]|]; try done. by injection Ha as <-. }
  split_and!; [done..|]. intros i Hi. simpl. rewrite Hq.
  destruct (lookup_lt_is_Some_2 _ _ Hi) as [w Hw]. by rewrite Hw, (Hwait i w Hw).
Qed.

(** ** Runs on concrete inputs *)

Definition io_text (e : IoError) : string := "error".

Definition db0 : gmap bytes bytes := ∅.

Lemma db0_rep n : sled_rep n db0 ∅.
Proof. unfold sled_rep, sled_map. simpl. rewrite fmap_empty. symmetry. apply kmap_empty. Qed.

Definition ex_ops : list Op := [OpSet "a" "1"; OpGet "a"; OpRemove "b"].

Lemma conversation_witness :
  ∃ s' out, serve (S:=gmap bytes bytes) io_text (db0, mkSocket (requests ex_ops) [] None)
      = (Ok tt, (s', mkSocket [] out None))
    ∧ client_ops "eof" ex_ops (mkClient out [])
      = (Ok [RDone; RValue (Some "1"); RError (StringError "Key not found")], mkClient [] (requests ex_ops))
    ∧ sled_rep 0 s' {[ "a" := "1" ]}
    ∧ ∀ i, ∃ s_i out_i,
        serve io_text (db0, mkSocket (requests (take i ex_ops)) [] None) = (Ok tt, (s_i, mkSocket [] out_i None))
        ∧ out_i `prefix_of` out.
Proof. exact (conversation (S:=gmap bytes bytes) io_text "eof" ex_ops 0 db0 ∅ (db0_rep _)). Defined.

(** A client that closes, one that sends garbage, and one more. *)
Definition ex_conns : list (list Op * bytes) :=
  [([OpSet "a" "1"], []); ([OpGet "a"], [x78]); ([OpGet "a"], [])].

Lemma server_refines_witness :
  ∃ s' socks, run (S:=gmap bytes bytes) io_text (conn <$> ex_conns) db0 = (Ok socks, s')
    ∧ s_out <$> socks = [to_writer SetResponse_Ok; to_writer (GetResponse_Ok (Some "1"));
                         to_writer (GetResponse_Ok (Some "1"))]
    ∧ sled_rep 0 s' {[ "a" := "1" ]}.
Proof.
  assert (Forall (λ c, tail_ok c.2) ex_conns) as Hall.
  { apply Forall_cons; split; [by left|]. apply Forall_cons; split; [right; vm_compute; eauto|].
    apply Forall_cons; split; [by left|constructor]. }
  exact (server_refines (S:=gmap bytes bytes) io_text ex_conns 0 db0 ∅ Hall (db0_rep _)).
Defined.

Lemma client_prints_witness :
  ∃ s' out, serve (S:=gmap bytes bytes) io_text (db0, mkSocket (requests [OpRemove "a"]) [] None)
      = (Ok tt, (s', mkSocket [] out None))
    ∧ client_main io_text "eof" (OpRemove "a") (mkClient out []) = mkOutput [] ["Key not found"] 1
    ∧ sled_rep 0 s' ∅.
Proof. exact (client_prints (S:=gmap bytes bytes) io_text "eof" 0 db0 ∅ (OpRemove "a") (db0_rep _) eq_refl). Defined.

Lemma server5_refines_witness :
  ∃ s', Net5.run (S:=gmap bytes bytes) io_text (Net5.conn <$> [[OpSet "a" "1"]; [OpGet "a"]]) db0
      = (Ok [Net5.mkConn [] [Net5.Response_Set] None; Net5.mkConn [] [Net5.Response_Get (Some "1")] None], s')
    ∧ sled_rep 0 s' {[ "a" := "1" ]}
    ∧ ∀ m' os, zip_with (λ o r, Net5.client_result o (Some (inl r))) os (Net5.responses (S:=gmap bytes bytes) io_text m' os)
               = client_reply io_text <$> (spec_run KeyNotFound m' os).1.
Proof. exact (server5_refines (S:=gmap bytes bytes) io_text [[OpSet "a" "1"]; [OpGet "a"]] 0 db0 ∅ (db0_rep _)). Defined.

Lemma server5_stops_witness :
  (∃ s', Net5.run (S:=gmap bytes bytes) io_text
      (Net5.conn [OpSet "a" "1"] :: inl (Net5.mkConn [inl (Request_Get "a")] [] (Some 0)) :: [Net5.conn [OpGet "a"]]) db0
    = (Ok [Net5.mkConn [] [Net5.Response_Set] None; Net5.mkConn [] [] (Some 0)], s'))
  ∧ ∀ e, ∃ s', Net5.run (S:=gmap bytes bytes) io_text (Net5.conn [OpSet "a" "1"] :: inr e :: [Net5.conn [OpGet "a"]]) db0
    = (Ok [Net5.mkConn [] [Net5.Response_Set] None], s').
Proof.
  exact (server5_stops (S:=gmap bytes bytes) io_text [[OpSet "a" "1"]] [OpGet "a"] 0 [Net5.conn [OpGet "a"]] 0
    db0 ∅ (db0_rep _) (le_n 1)).
Defined.

Lemma sled_refines_witness :
  ∃ d', engine_run ex_ops db0 = (Ok [RDone; RValue (Some "1"); RError KeyNotFound], d')
        ∧ db_rep d' (sled_map {[ "a" := "1" ]}).
Proof. exact (sled_refines ex_ops db0 ∅ (db0_rep 0)). Defined.

Definition parse_engine (s : string) : option Engine :=
  if decide (s = "kvs") then Some kvs else if decide (s = "sled") then Some sled else None.

Lemma parse_format_engine e : parse_engine (format_engine e) = Some e.
Proof. by destruct e. Qed.

Lemma engine_is_sticky_witness :
  starts parse_engine [Some sled; None; Some kvs; Some sled] Missing
  = (Ok [Serves sled; Serves sled; Exits 1; Serves sled], Content "sled").
Proof. apply (engine_is_sticky parse_engine parse_format_engine (Some sled) [None; Some kvs; Some sled]). Defined.

(** Two threads; job 1 panics. *)
Definition ex_schedule : list (job + action) :=
  [inl 0; inl 1; inr (Recv 0); inl 2; inr (Recv 1); inr (Finish 1 true); inr (Recv 1)].
Definition ex_pool : Pool := mkPool [] [Working 0; Working 2] true [0; 1; 2] [1].

Lemma pool_runs_jobs_once_witness :
  started ex_pool ++ queue ex_pool = [0; 1; 2]
  ∧ started ex_pool ≡ₚ finished ex_pool ++ running (workers ex_pool)
  ∧ (Forall (λ x, match x with inr a => os_ok a = true | _ => True end) ex_schedule →
     length (workers ex_pool) = 2).
Proof. apply (pool_runs_jobs_once (Nat.eqb 1) 2 ex_schedule ex_pool). reflexivity. Defined.

Lemma pool_drains_witness :
  (∃ acts p', ThreadPool.acts (Nat.eqb 1) acts ex_pool = Some p' ∧ forallb useful acts = true
     ∧ queue p' = [] ∧ running (workers p') = [] ∧ finished p' ≡ₚ [0; 1; 2])
  ∧ ∀ acts p', forallb useful acts = true → ThreadPool.acts (Nat.eqb 1) acts ex_pool = Some p' →
      2 = length acts + pending p'.
Proof. apply (pool_drains (Nat.eqb 1) 2 ex_schedule ex_pool); [reflexivity|discriminate]. Defined.

Lemma destroyed_pool_spins_witness :
  let p := mkPool [] [Waiting; Waiting] true [0] [0] in
  useful (Spin 1) = false ∧ destroy p = destroy p
  ∧ ∀ i, i < 2 → act (Nat.eqb 1) (Spin i) (destroy p) = Some (destroy p).
Proof. apply (destroyed_pool_spins (Nat.eqb 1) (mkPool [] [Waiting; Waiting] true [0] [0]) eq_refl eq_refl (Spin 1)). reflexivity. Defined.
