(* ===== verification/Versions.v ===== *)
(** * The other projects: code that is the same elsewhere

    The course builds one store in five steps, and much code is copied from one
    project to the next. [P1] is the store in memory of project-1; [P4] and [P5]
    name the functions of project-4 and project-5 whose text is that of an earlier
    project, and define the few that differ in form. *)

From S2P Require Import Prelude Fs Command KvsEngine KvStore Conc ConcStore P5Store Net NetSpec Net5 Sled Programs ThreadPool.

(** ** project-1: a map in memory *)

Module P1.
Record KvStore := mkStore { map : kvmap }.

Definition new : KvStore := mkStore ∅.
Definition set (key value : string) (s : KvStore) : KvStore := mkStore (<[key := value]> (map s)).
Definition get (key : string) (s : KvStore) : option string := map s !! key.
Definition remove (key : string) (s : KvStore) : KvStore := mkStore (delete key (map s)).
End P1.

(** ** project-4 *)

Module P4.
Definition KvsError : Type := KvsEngine.KvsError.

(** The log engine: what it shares with project-3. *)
Definition sorted_gen_list : Disk → list N := Fs.sorted_gen_list.
Definition log_path : N → string := Fs.log_path.
Definition load `{!SerdeJson Command} : N → BufReaderWithPos → gmap string CommandPos → _ :=
  KvStore.load (E:=KvsEngine.KvsError).
Definition CommandPos_from : N → N → N → CommandPos := Command.CommandPos_from.
Definition reader_new : nat → BufReaderWithPos := Fs.BufReaderWithPos_new.
Definition reader_take : BufReaderWithPos → N → Disk → bytes * BufReaderWithPos := Fs.reader_take.
Definition reader_seek : BufReaderWithPos → N → BufReaderWithPos := Fs.reader_seek.
Definition writer_new : nat → BufWriterWithPos := Fs.BufWriterWithPos_new.
Definition writer_write : BufWriterWithPos → bytes → BufWriterWithPos := Fs.writer_write.
Definition writer_flush : BufWriterWithPos → Disk → BufWriterWithPos * Disk := Fs.writer_flush.

(** The sled engine. *)
Definition sled_set {Db} `{!SledDb Db} : string → string → M KvsEngine.KvsError Db unit := Sled.sled_set.
Definition sled_get {Db} `{!SledDb Db} : string → M KvsEngine.KvsError Db (option string) := Sled.sled_get.
Definition sled_remove {Db} `{!SledDb Db} : string → M KvsEngine.KvsError Db unit := Sled.sled_remove.

Section service.
Context {S : Type} `{!KvsEngine KvsEngine.KvsError S} `{!Wire} (io_msg : IoError → string).

Definition serve : M KvsEngine.KvsError (S * Socket) unit := Net.serve io_msg.

(** The job [KvsServer::run] spawns for a connection, with its own clone of the
    engine: an error is logged and the job is over. *)
Definition connection_job (stream : Socket + IoError) : M KvsEngine.KvsError S (option Socket) :=
  match stream with
  | inl stream => λ s,
      match serve (s, stream) with
      | (Ok _, (s', sock)) | (Err _, (s', sock)) => (Ok (Some sock), s')
      | (Panic, (s', _)) => (Panic, s')
      | (Diverge, (s', _)) => (Diverge, s')
      end
  | inr _ => mret None
  end.

Definition run (incoming : list (Socket + IoError)) : list (M KvsEngine.KvsError S (option Socket)) :=
  connection_job <$> incoming.

Definition client_get : SerdeError → string → M KvsEngine.KvsError KvsClient (option string) := Net.client_get.
Definition client_set : SerdeError → string → string → M KvsEngine.KvsError KvsClient unit := Net.client_set.
Definition client_remove : SerdeError → string → M KvsEngine.KvsError KvsClient unit := Net.client_remove.

Definition kvs_client : SerdeError → Op → KvsClient → Output := client_main io_msg.
Definition client_run : SerdeError → Op → M KvsEngine.KvsError KvsClient (list string) := Programs.client_run.

(** The jobs of the connections, run one after the other, serve as project-3 does. *)
Fixpoint run_jobs (jobs : list (M KvsEngine.KvsError S (option Socket))) :
    M KvsEngine.KvsError S (list Socket) :=
  match jobs with
  | [] => mret []
  | job :: jobs' => o ← job; socks ← run_jobs jobs'; mret (option_list o ++ socks)
  end.

Lemma run_jobs_run incoming s : run_jobs (run incoming) s = Net.run io_msg incoming s.
Proof.
  revert s. induction incoming as [|[sock|e] incoming IH]; intros s; [done|..].
  - cbn [run fmap list_fmap run_jobs connection_job Net.run]. unfold serve.
    unfold mbind, M_bind. destruct (Net.serve io_msg (s, sock)) as [[] [s' sock']]; try done.
    all: fold (run incoming); rewrite IH; by destruct (Net.run io_msg incoming s') as [[] ?].
  - cbn [run fmap list_fmap run_jobs connection_job Net.run]. fold (run incoming).
    unfold mbind, M_bind, mret, M_ret. rewrite IH. by destruct (Net.run io_msg incoming s) as [[] ?].
Qed.
End service.

Definition server_main : (string → option Engine) → option Engine → M KvsEngine.KvsError EngineFile Start :=
  Programs.server_main.
Definition run_server : option Engine → M KvsEngine.KvsError EngineFile Start := Programs.run_server.
Definition current_engine : (string → option Engine) → M KvsEngine.KvsError EngineFile (option Engine) :=
  Programs.current_engine.
End P4.

(** ** project-5 *)

Module Project5.
Definition KvsError : Type := KvsEngine.KvsError.

Definition reader_new : nat → BufReaderWithPos := Fs.BufReaderWithPos_new.
Definition reader_take : BufReaderWithPos → N → Disk → bytes * BufReaderWithPos := Fs.reader_take.
Definition reader_seek : BufReaderWithPos → N → BufReaderWithPos := Fs.reader_seek.
Definition writer_new : nat → BufWriterWithPos := Fs.BufWriterWithPos_new.
Definition writer_write : BufWriterWithPos → bytes → BufWriterWithPos := Fs.writer_write.
Definition writer_flush : BufWriterWithPos → Disk → BufWriterWithPos * Disk := Fs.writer_flush.
Definition CommandPos_from : N → N → N → CommandPos := Command.CommandPos_from.

(** The jobs of the sled engine; a job that panics fails its future. *)
Section sled.
Context {Db : Type} `{!SledDb Db}.

Definition sled_set (key value : string) : M KvsEngine.KvsError Db unit :=
  question (db_set (into_bytes key) (into_bytes value) ≫= λ _, db_flush).

Definition sled_get (key : string) : M KvsEngine.KvsError Db (option string) :=
  o ← question (db_get (into_bytes key));
  match o with
  | None => mret None
  | Some i_vec =>
      match from_utf8 i_vec with
      | inl value => mret (Some value)
      | inr e => throw (KvsError_from_utf8 e)
      end
  end.

Definition sled_remove (key : string) : M KvsEngine.KvsError Db unit :=
  o ← question (db_del (into_bytes key));
  match o with
  | None => throw KeyNotFound
  | Some _ => question db_flush;; mret tt
  end.

Definition future (canceled : string) {A} (m : M KvsEngine.KvsError Db A) : M KvsEngine.KvsError Db A :=
  λ d, let '(r, d') := m d in (P5.future canceled r, d').

(** [set] of project-5 chains inside the database's errors, to the same effect. *)
Lemma sled_set_same key value d : sled_set key value d = Sled.sled_set key value d.
Proof.
  unfold sled_set, Sled.sled_set, question, mbind, M_bind.
  destruct (db_set _ _ d) as [[o|e| |] d1]; try done. by destruct (db_flush d1) as [[[]|e| |] d2].
Qed.
End sled.

(** [kvs-client]: the lines a run prints, or its error. *)
Definition client_run (cmd : Op) (r : Net5.received) : list string + KvsEngine.KvsError :=
  match cmd with
  | OpGet _ => match Net5.client_get r with
               | inl (Some value) => inl [value]
               | inl None => inl ["Key not found"]
               | inr e => inr e
               end
  | OpSet _ _ => match Net5.client_set r with inl _ => inl [] | inr e => inr e end
  | OpRemove _ => match Net5.client_remove r with inl _ => inl [] | inr e => inr e end
  end.

Definition client_main (io_msg : IoError → string) (cmd : Op) (r : Net5.received) : Output :=
  match client_run cmd r with
  | inl lines => mkOutput lines [] 0
  | inr e => mkOutput [] [display io_msg e] 1
  end.

Definition server_main : (string → option Engine) → option Engine → M KvsEngine.KvsError EngineFile Start :=
  Programs.server_main.
Definition run_server : option Engine → M KvsEngine.KvsError EngineFile Start := Programs.run_server.
Definition current_engine : (string → option Engine) → M KvsEngine.KvsError EngineFile (option Engine) :=
  Programs.current_engine.

Definition pool_new : nat → list bool → outcome unit unit * Pool := ThreadPool.new.
Definition pool_spawn : job → M unit Pool unit := ThreadPool.spawn.
Definition pool_act : (job → bool) → action → Pool → option Pool := ThreadPool.act.
Definition naive_new : nat → outcome unit (list job) := ThreadPool.naive_new.
Definition naive_spawn : job → list job → list job := ThreadPool.naive_spawn.
End Project5.
