(* ===== verification/Bitset.v ===== *)
(** * Bit sets of the linearizability checker

    [linearizability/src/bitset.rs]: a set of small numbers as a vector of 64-bit
    words, its population count and the hash the checker's cache is keyed by. *)

From S2P Require Import Prelude.


Abbreviation Bitset := (list N).

Definition u64_mod : N := 2 ^ 64.

Definition bitset_index (pos : nat) : nat * nat := (pos / 64, pos mod 64).

Definition new (bits : nat) : Bitset :=
  let extra := if (bits mod 64 =? 0)%nat then 0 else 1 in
  replicate (bits / 64 + extra) 0%N.

(** Indexing out of range panics. *)
Definition set (pos : nat) (b : Bitset) : option Bitset :=
  let '(major, minor) := bitset_index pos in
  v ← b !! major;
  Some (<[major := N.lor v (N.shiftl 1 (N.of_nat minor))]> b).

Definition clear (pos : nat) (b : Bitset) : option Bitset :=
  let '(major, minor) := bitset_index pos in
  v ← b !! major;
  Some (<[major := N.land v (N.lnot (N.shiftl 1 (N.of_nat minor)) 64)]> b).

(** The body of the loop of [popcnt]; the product is [Wrapping]. *)
Definition popcnt_word (b : N) : N :=
  let v := b in
  let v := (N.land v 0x5555555555555555 + N.shiftr (N.land v 0xAAAAAAAAAAAAAAAA) 1)%N in
  let v := (N.land v 0x3333333333333333 + N.shiftr (N.land v 0xCCCCCCCCCCCCCCCC) 2)%N in
  let v := (N.land v 0x0F0F0F0F0F0F0F0F + N.shiftr (N.land v 0xF0F0F0F0F0F0F0F0) 4)%N in
  let v := ((v * 0x0101010101010101) mod u64_mod)%N in
  N.land (N.shiftr v 56) 0xFF.

Definition popcnt (b : Bitset) : N := foldl (λ total v, (total + popcnt_word v)%N) 0%N b.

Definition hash (b : Bitset) : N := foldl N.lxor (popcnt b) b.

Fixpoint equals (b b2 : Bitset) : bool :=
  match b, b2 with
  | [], [] => true
  | x :: b', y :: b2' => (x =? y)%N && equals b' b2'
  | _, _ => false
  end.

(** ** What it stands for *)

(** [b] holds the set [B] of numbers below [n]. *)
Record holds (n : nat) (b : Bitset) (B : gset nat) : Prop := {
  holds_length : length b = length (new n);
  holds_word : ∀ v, v ∈ b → (v < u64_mod)%N;
  holds_bit : ∀ i v j, b !! i = Some v → (j < 64)%nat →
    N.testbit v (N.of_nat j) = bool_decide ((64 * i + j)%nat ∈ B);
  holds_bound : ∀ x, x ∈ B → (x < n)%nat;
}.

Lemma index_inj i j i' j' : j < 64 → j' < 64 → 64 * i + j = 64 * i' + j' → i = i' ∧ j = j'.
Proof. lia. Qed.

Lemma length_new n pos : pos < n → pos / 64 < length (new n).
Proof.
  intros H. unfold new. rewrite length_replicate.
  pose proof (Nat.div_mod_eq pos 64). pose proof (Nat.div_mod_eq n 64).
  pose proof (Nat.mod_upper_bound pos 64). pose proof (Nat.mod_upper_bound n 64).
  destruct (Nat.eqb_spec (n mod 64) 0); nia.
Qed.

Lemma holds_new n : holds n (new n) ∅.
Proof.
  split; [done|..].
  - intros v [-> _]%elem_of_replicate. done.
  - intros i v j [-> _]%lookup_replicate_1 _. rewrite N.bits_0. by rewrite bool_decide_eq_false_2.
  - set_solver.
Qed.

Lemma testbit_high v j : (v < u64_mod)%N → 64 <= j → N.testbit v (N.of_nat j) = false.
Proof.
  intros Hv Hj. destruct (decide (v = 0%N)) as [->|Hz]; [apply N.bits_0|].
  apply N.bits_above_log2. apply N.log2_lt_pow2; [lia|].
  eapply N.lt_le_trans; [exact Hv|]. apply N.pow_le_mono_r; lia.
Qed.

Lemma word_bound v : (∀ j, 64 <= j → N.testbit v (N.of_nat j) = false) → (v < u64_mod)%N.
Proof.
  intros H. destruct (decide (v = 0%N)) as [->|Hz]; [done|]. apply N.log2_lt_pow2; [lia|].
  destruct (N.lt_ge_cases (N.log2 v) 64) as [|Hge]; [done|].
  pose proof (N.bit_log2 v Hz) as Hb. rewrite <-(N2Nat.id (N.log2 v)), H in Hb; [done|lia].
Qed.

(** Adding and removing a number in range. *)
Lemma holds_update n b B B' pos (f : N → N) v : holds n b B → pos < n → b !! (pos / 64) = Some v →
  (∀ j, N.testbit (f v) (N.of_nat j)
        = if decide (j = pos mod 64) then bool_decide (pos ∈ B') else N.testbit v (N.of_nat j)) →
  (∀ x, x ≠ pos → (x ∈ B' ↔ x ∈ B)) →
  holds n (<[pos / 64 := f v]> b) B'.
Proof.
  intros [Hl Hw Hb Hn] Hpos Hv Hf HB. pose proof (Nat.mod_upper_bound pos 64).
  pose proof (Nat.div_mod_eq pos 64) as Hdm. split.
  - by rewrite length_insert.
  - intros x Hx. apply list_elem_of_lookup in Hx as [i Hi]. rewrite list_lookup_insert in Hi.
    case_decide; [|apply Hw; by eapply list_elem_of_lookup_2].
    simplify_eq. apply word_bound. intros j Hj. rewrite Hf, decide_False by lia.
    apply testbit_high; [|done]. apply Hw. by eapply list_elem_of_lookup_2.
  - intros i x j Hi Hj. rewrite list_lookup_insert in Hi. case_decide as Hd.
    + destruct Hd as [<- _]. simplify_eq. rewrite Hf. destruct (decide (j = pos mod 64)) as [->|Hjm].
      * by rewrite <-Hdm.
      * rewrite (Hb _ _ _ Hv Hj). apply bool_decide_ext. rewrite HB; [done|]. lia.
    + rewrite (Hb _ _ _ Hi Hj). apply bool_decide_ext. rewrite HB; [done|]. intros Heq.
      apply lookup_lt_Some in Hv, Hi. apply Hd. split; [|lia]. apply (index_inj _ (pos mod 64) _ j); lia.
  - intros x Hx. destruct (decide (x = pos)) as [->|Hne]; [done|]. apply Hn. by apply HB.
Qed.

Lemma holds_lookup n b B pos : holds n b B → pos < n → is_Some (b !! (pos / 64)).
Proof. intros Hb Hp. apply lookup_lt_is_Some. rewrite (holds_length _ _ _ Hb). by apply length_new. Qed.

Lemma testbit_one_shift m j :
  N.testbit (N.shiftl 1 (N.of_nat m)) (N.of_nat j) = bool_decide (j = m).
Proof.
  rewrite N.shiftl_1_l. destruct (decide (j = m)) as [->|Hne].
  - by rewrite N.pow2_bits_true, bool_decide_eq_true_2.
  - by rewrite N.pow2_bits_false, bool_decide_eq_false_2 by lia.
Qed.

Lemma set_holds n b B pos : holds n b B → pos < n →
  ∃ b', set pos b = Some b' ∧ holds n b' ({[pos]} ∪ B).
Proof.
  intros Hb Hp. destruct (holds_lookup _ _ _ _ Hb Hp) as [v Hv]. unfold set, bitset_index.
  rewrite Hv. eexists. split; [reflexivity|].
  apply (holds_update n b B _ pos (λ v, N.lor v (N.shiftl 1 (N.of_nat (pos mod 64)))) v Hb Hp Hv).
  - intros j. rewrite N.lor_spec, testbit_one_shift. case_decide.
    + rewrite !bool_decide_eq_true_2 by set_solver. apply orb_true_r.
    + by rewrite bool_decide_eq_false_2, orb_false_r.
  - set_solver.
Qed.

Lemma clear_holds n b B pos : holds n b B → pos < n →
  ∃ b', clear pos b = Some b' ∧ holds n b' (B ∖ {[pos]}).
Proof.
  intros Hb Hp. destruct (holds_lookup _ _ _ _ Hb Hp) as [v Hv]. unfold clear, bitset_index.
  rewrite Hv. eexists. split; [reflexivity|].
  apply (holds_update n b B _ pos
    (λ v, N.land v (N.lnot (N.shiftl 1 (N.of_nat (pos mod 64))) 64)) v Hb Hp Hv).
  - intros j. rewrite N.land_spec. destruct (decide (j < 64)) as [Hj|Hj].
    + rewrite N.lnot_spec_low, testbit_one_shift by lia. case_decide.
      * rewrite bool_decide_eq_true_2, (bool_decide_eq_false_2 (pos ∈ _)) by set_solver. apply andb_false_r.
      * by rewrite bool_decide_eq_false_2, andb_true_r.
    + rewrite testbit_high; [|apply (holds_word _ _ _ Hb); by eapply list_elem_of_lookup_2|lia].
      pose proof (Nat.mod_upper_bound pos 64). rewrite decide_False by lia. done.
  - set_solver.
Qed.

Lemma equals_eq b b2 : equals b b2 = true ↔ b = b2.
Proof.
  revert b2. induction b as [|x b IH]; intros [|y b2]; simpl; try done.
  rewrite andb_true_iff, N.eqb_eq, IH. naive_solver.
Qed.

(** The words are determined by the set. *)
Lemma holds_inj n b b' B : holds n b B → holds n b' B → b = b'.
Proof.
  intros Hb Hb'. apply list_eq_same_length with (length b); [|done|].
  { by rewrite (holds_length _ _ _ Hb), (holds_length _ _ _ Hb'). }
  intros i x y _ Hx Hy. apply N.bits_inj. intros j. rewrite <-(N2Nat.id j).
  destruct (decide (N.to_nat j < 64)) as [Hj|Hj].
  - by rewrite (holds_bit _ _ _ Hb _ _ _ Hx Hj), (holds_bit _ _ _ Hb' _ _ _ Hy Hj).
  - assert (x < u64_mod)%N by (apply (holds_word _ _ _ Hb); by eapply list_elem_of_lookup_2).
    assert (y < u64_mod)%N by (apply (holds_word _ _ _ Hb'); by eapply list_elem_of_lookup_2).
    by rewrite !testbit_high by (done || lia).
Qed.

Lemma holds_unique n b B B' : holds n b B → holds n b B' → B = B'.
Proof.
  assert (∀ B B', holds n b B → holds n b B' → B ⊆ B') as H.
  { intros X Y HX HY x Hx. pose proof (holds_bound _ _ _ HX x Hx) as Hn.
    destruct (holds_lookup _ _ _ _ HX Hn) as [v Hv].
    pose proof (Nat.mod_upper_bound x 64 ltac:(lia)) as Hm. pose proof (Nat.div_mod_eq x 64) as Hdm.
    pose proof (holds_bit _ _ _ HX _ _ _ Hv Hm) as H1. pose proof (holds_bit _ _ _ HY _ _ _ Hv Hm) as H2.
    rewrite <-Hdm in H1, H2. rewrite bool_decide_eq_true_2 in H1 by done. rewrite H1 in H2.
    symmetry in H2. by apply bool_decide_eq_true in H2. }
  intros. apply (anti_symm (⊆)); eauto.
Qed.
