(* ===== verification/Popcount.v ===== *)
(** * The population count of [Bitset]

    [popcnt] of [linearizability/src/bitset.rs] adds bits in parallel: pairs, then
    nibbles, then bytes, then one multiplication. It counts the set bits of every
    64-bit word. The masks do not cross bytes, so the count is computed byte by
    byte, and on bytes it is checked exhaustively. *)

From S2P Require Import Prelude Bitset.

(** ** Reference: count the bits one by one *)

Definition count_bits (width : nat) (v : N) : N :=
  Nsum (λ j, N.b2n (N.testbit v (N.of_nat j))) (seq 0 width).

(** ** Words as bytes *)

Lemma testbit_byte x X j : (x < 256)%N →
  N.testbit (x + 256 * X) j = if (j <? 8)%N then N.testbit x j else N.testbit X (j - 8).
Proof.
  intros Hx. change 256%N with (2 ^ 8)%N in *.
  assert (x + 2 ^ 8 * X = N.lxor x (N.shiftl X 8))%N as ->.
  { rewrite N.shiftl_mul_pow2, (N.mul_comm (2 ^ 8)). apply N.add_nocarry_lxor.
    apply N.bits_inj. intros k. rewrite N.land_spec, N.bits_0.
    destruct (N.lt_ge_cases k 8) as [Hk|Hk].
    - rewrite N.mul_pow2_bits_low by done. apply andb_false_r.
    - destruct (decide (x = 0%N)) as [->|Hz]; [by rewrite N.bits_0|].
      rewrite (N.bits_above_log2 x k); [done|]. apply N.log2_lt_pow2; [lia|].
      eapply N.lt_le_trans; [exact Hx|]. apply N.pow_le_mono_r; lia. }
  rewrite N.lxor_spec. destruct (N.ltb_spec j 8) as [Hj|Hj].
  - rewrite N.shiftl_spec_low by done. apply xorb_false_r.
  - rewrite N.shiftl_spec_high' by done. destruct (decide (x = 0%N)) as [->|Hz]; [by rewrite N.bits_0, xorb_false_l|].
    rewrite (N.bits_above_log2 x j); [apply xorb_false_l|]. apply N.log2_lt_pow2; [lia|].
    eapply N.lt_le_trans; [exact Hx|]. apply N.pow_le_mono_r; lia.
Qed.

Lemma land_byte x X m M : (x < 256)%N → (m < 256)%N →
  N.land (x + 256 * X) (m + 256 * M) = (N.land x m + 256 * N.land X M)%N.
Proof.
  intros Hx Hm. apply N.bits_inj. intros j.
  assert (N.land x m < 256)%N as Hl.
  { destruct (decide (N.land x m = 0%N)) as [->|Hz]; [done|]. change 256%N with (2 ^ 8)%N in *.
    apply N.log2_lt_pow2; [lia|]. eapply N.le_lt_trans; [apply N.log2_land|].
    destruct (decide (x = 0%N)) as [->|]; [by rewrite N.land_0_l in Hz|].
    apply N.min_lt_iff. left. apply N.log2_lt_pow2; [lia|done]. }
  rewrite N.land_spec, !testbit_byte by done. destruct (j <? 8)%N; by rewrite N.land_spec.
Qed.

Lemma land_multiple X M s : (M mod 2 ^ s = 0)%N → (N.land X M mod 2 ^ s = 0)%N.
Proof.
  rewrite <-!N.land_ones. intros H. by rewrite <-N.land_assoc, H, N.land_0_r.
Qed.

(** One step of the parallel sum. *)
Definition psum (m m' s : N) (v : N) : N := (N.land v m + N.shiftr (N.land v m') s)%N.

Lemma psum_byte m M m' M' s x X : (x < 256)%N → (m < 256)%N → (m' < 256)%N → (s <= 8)%N →
  (M' mod 2 ^ s = 0)%N →
  psum (m + 256 * M) (m' + 256 * M') s (x + 256 * X) = (psum m m' s x + 256 * psum M M' s X)%N.
Proof.
  intros Hx Hm Hm' Hs HM. unfold psum. rewrite !land_byte, !N.shiftr_div_pow2 by done.
  pose proof (land_multiple X M' s HM) as Hq. apply N.Div0.mod_divides in Hq as [q Hq].
  assert (256 = 2 ^ s * 2 ^ (8 - s))%N as H256.
  { rewrite <-N.pow_add_r. by replace (s + (8 - s))%N with 8%N by lia. }
  assert (2 ^ s ≠ 0)%N as Hne by (apply N.pow_nonzero; lia).
  rewrite Hq. rewrite (N.mul_comm (2 ^ s) q), N.div_mul by done.
  replace (256 * (q * 2 ^ s))%N with ((256 * q) * 2 ^ s)%N by lia.
  rewrite N.div_add by done. lia.
Qed.

(** The number of eight bytes. *)
Fixpoint of_bytes (l : list N) : N :=
  match l with
  | [] => 0%N
  | x :: l' => (x + 256 * of_bytes l')%N
  end.

Definition bytes_ok (l : list N) : Prop := Forall (λ x, (x < 256)%N) l.

Lemma psum_bytes m m' s n l : (m < 256)%N → (m' < 256)%N → (s <= 8)%N → (m' mod 2 ^ s = 0)%N →
  bytes_ok l → length l = n →
  psum (of_bytes (replicate n m)) (of_bytes (replicate n m')) s (of_bytes l) = of_bytes (psum m m' s <$> l).
Proof.
  intros Hm Hm' Hs Hdiv Hl <-.
  induction Hl as [|x l Hx Hl IH]; [unfold psum; simpl; by rewrite N.shiftr_0_l|].
  cbn [replicate length of_bytes fmap list_fmap]. rewrite psum_byte; try done; [by rewrite IH|].
  clear -Hdiv Hs. induction (length l) as [|n IHn]; [by rewrite N.Div0.mod_0_l|].
  cbn [replicate of_bytes]. apply N.Div0.mod_divides in Hdiv as [a Ha]. apply N.Div0.mod_divides in IHn as [b Hb].
  apply N.Div0.mod_divides. exists (a + 256 * b)%N. rewrite Hb. lia.
Qed.

Lemma bytes_of v n : (v < 256 ^ N.of_nat n)%N → ∃ l, bytes_ok l ∧ length l = n ∧ v = of_bytes l.
Proof.
  revert v. induction n as [|n IH]; intros v Hv.
  { exists []. split_and!; [constructor|done|]. simpl in *. lia. }
  destruct (IH (v / 256)%N) as (l & Hl & Hlen & Heq).
  { apply N.Div0.div_lt_upper_bound. replace (N.of_nat (S n)) with (1 + N.of_nat n)%N in Hv by lia.
    rewrite N.pow_add_r in Hv. exact Hv. }
  exists (v mod 256 :: l)%N. split_and!.
  - constructor; [|done]. by apply N.mod_lt.
  - simpl. by rewrite Hlen.
  - simpl. rewrite <-Heq. rewrite (N.div_mod v 256) at 1 by done. lia.
Qed.

(** ** Bytes, exhaustively *)

Definition byte_steps (x : N) : N :=
  psum 0x0F 0xF0 4 (psum 0x33 0xCC 2 (psum 0x55 0xAA 1 x)).

Definition byte_check (x : N) : bool :=
  (psum 0x55 0xAA 1 x <? 256)%N && (psum 0x33 0xCC 2 (psum 0x55 0xAA 1 x) <? 256)%N
  && (byte_steps x =? count_bits 8 x)%N && (byte_steps x <=? 8)%N.

Lemma byte_checked x : (x < 256)%N → byte_check x = true.
Proof.
  intros Hx. assert (forallb byte_check (N.of_nat <$> seq 0 256) = true) as Hall by (vm_compute; reflexivity).
  rewrite forallb_forall in Hall. apply Hall, base.list_elem_of_In, list_elem_of_fmap.
  exists (N.to_nat x). rewrite elem_of_seq. split; lia.
Qed.

Lemma byte_ok x : (x < 256)%N →
  (psum 0x55 0xAA 1 x < 256)%N ∧ (psum 0x33 0xCC 2 (psum 0x55 0xAA 1 x) < 256)%N
  ∧ byte_steps x = count_bits 8 x ∧ (byte_steps x <= 8)%N.
Proof.
  intros Hx. pose proof (byte_checked x Hx) as H. unfold byte_check in H.
  apply andb_prop in H as [H H4]. apply andb_prop in H as [H H3]. apply andb_prop in H as [H1 H2].
  apply N.ltb_lt in H1, H2. apply N.eqb_eq in H3. by apply N.leb_le in H4.
Qed.

(** The multiplication sums the bytes into the highest one. *)
Lemma sum_bytes l : length l = 8 → Forall (λ c, (c <= 8)%N) l →
  N.land (N.shiftr ((of_bytes l * 0x0101010101010101) mod u64_mod) 56) 0xFF = Nsum id l.
Proof.
  intros Hlen Hall. destruct l as [|a [|b [|c [|d [|e [|f [|g [|h [|]]]]]]]]]; try done.
  repeat match goal with H : Forall _ (_ :: _) |- _ => apply Forall_cons in H as [? H] end.
  cbn beta in *.
  cbn [of_bytes Nsum foldr id]. change 255%N with (N.ones 8). rewrite N.land_ones, N.shiftr_div_pow2.
  set (low := (a + 2 ^ 8 * (a + b) + 2 ^ 16 * (a + b + c) + 2 ^ 24 * (a + b + c + d)
    + 2 ^ 32 * (a + b + c + d + e) + 2 ^ 40 * (a + b + c + d + e + f)
    + 2 ^ 48 * (a + b + c + d + e + f + g))%N).
  set (sum := (a + (b + (c + (d + (e + (f + (g + (h + 0))))))))%N).
  set (high := (b + c + d + e + f + g + h + 2 ^ 8 * (c + d + e + f + g + h)
    + 2 ^ 16 * (d + e + f + g + h) + 2 ^ 24 * (e + f + g + h) + 2 ^ 32 * (f + g + h)
    + 2 ^ 40 * (g + h) + 2 ^ 48 * h)%N).
  assert (sum <= 64)%N as Hsum by (unfold sum; lia).
  assert (low < 2 ^ 56)%N as Hlow by (unfold low; lia).
  replace ((a + 256 * (b + 256 * (c + 256 * (d + 256 * (e + 256 * (f + 256 * (g + 256 * (h + 256 * 0))))))))
    * 72340172838076673)%N with ((low + 2 ^ 56 * sum) + high * u64_mod)%N
    by (unfold low, sum, high, u64_mod; lia).
  clearbody low sum high. unfold u64_mod. change (2 ^ 56)%N with 72057594037927936%N in *.
  change (2 ^ 64)%N with 18446744073709551616%N. change (2 ^ 8)%N with 256%N.
  rewrite N.Div0.mod_add, (N.mod_small (low + _)) by lia.
  rewrite (N.mul_comm _ sum), N.div_add, N.div_small by done. rewrite N.add_0_l. apply N.mod_small. lia.
Qed.

Lemma count_bits_byte x X n : (x < 256)%N →
  count_bits (8 + n) (x + 256 * X) = (count_bits 8 x + count_bits n X)%N.
Proof.
  intros Hx. unfold count_bits. rewrite seq_app, Nsum_app. f_equal.
  - apply Nsum_ext. intros j Hj%elem_of_seq. rewrite testbit_byte by done.
    destruct (N.ltb_spec (N.of_nat j) 8); [done|lia].
  - change (0 + 8) with (8 + 0). rewrite <-(fmap_add_seq 8 0 n), Nsum_fmap. apply Nsum_ext. intros j _.
    rewrite testbit_byte by done. destruct (N.ltb_spec (N.of_nat (8 + j)) 8); [lia|].
    do 2 f_equal. lia.
Qed.

Lemma count_bits_bytes l : bytes_ok l → count_bits (8 * length l) (of_bytes l) = Nsum (count_bits 8) l.
Proof.
  induction 1 as [|x l Hx Hl IH]; [done|]. cbn [length of_bytes Nsum foldr].
  replace (8 * S (length l)) with (8 + 8 * length l) by lia.
  rewrite count_bits_byte by done. f_equal. exact IH.
Qed.

Lemma popcnt_word_bits v : (v < u64_mod)%N → popcnt_word v = count_bits 64 v.
Proof.
  intros Hv. destruct (bytes_of v 8 Hv) as (l & Hl & Hlen & ->).
  set (l1 := psum 0x55 0xAA 1 <$> l). set (l2 := psum 0x33 0xCC 2 <$> l1). set (l3 := psum 0x0F 0xF0 4 <$> l2).
  assert (bytes_ok l1) as Hl1.
  { apply Forall_fmap. eapply Forall_impl; [exact Hl|]. intros x Hx. apply byte_ok, Hx. }
  assert (bytes_ok l2) as Hl2.
  { apply Forall_fmap, Forall_fmap. eapply Forall_impl; [exact Hl|]. intros x Hx. apply byte_ok, Hx. }
  assert (psum 0x5555555555555555 0xAAAAAAAAAAAAAAAA 1 (of_bytes l) = of_bytes l1) as H1.
  { by apply (psum_bytes 0x55 0xAA 1 8). }
  assert (psum 0x3333333333333333 0xCCCCCCCCCCCCCCCC 2 (of_bytes l1) = of_bytes l2) as H2.
  { apply (psum_bytes 0x33 0xCC 2 8); try done. unfold l1. by rewrite length_fmap. }
  assert (psum 0x0F0F0F0F0F0F0F0F 0xF0F0F0F0F0F0F0F0 4 (of_bytes l2) = of_bytes l3) as H3.
  { apply (psum_bytes 0x0F 0xF0 4 8); try done. unfold l2, l1. by rewrite !length_fmap. }
  unfold psum in H1, H2, H3. unfold popcnt_word. rewrite H1, H2, H3.
  assert (l3 = byte_steps <$> l) as Hl3.
  { unfold l3, l2, l1. by rewrite <-!list_fmap_compose. }
  rewrite sum_bytes.
  - rewrite Hl3, Nsum_fmap.
    assert (count_bits 64 (of_bytes l) = Nsum (count_bits 8) l) as ->
      by (rewrite <-(count_bits_bytes l Hl), Hlen; reflexivity).
    apply Nsum_ext. intros x Hx. unfold bytes_ok in Hl. rewrite Forall_forall in Hl. by apply byte_ok, Hl.
  - rewrite Hl3. by rewrite length_fmap.
  - rewrite Hl3. apply Forall_fmap. eapply Forall_impl; [exact Hl|]. intros x Hx. by apply byte_ok.
Qed.

(** The count of a bit set is the number of its elements. *)
Lemma popcnt_sum b : popcnt b = Nsum popcnt_word b.
Proof.
  unfold popcnt. assert (∀ acc, foldl (λ total v, (total + popcnt_word v)%N) acc b = (acc + Nsum popcnt_word b)%N) as H.
  { induction b as [|x b IH]; intros acc; cbn; [lia|]. rewrite IH. unfold Nsum. lia. }
  by rewrite H.
Qed.
