(* ===== verification/Lin.v ===== *)
(** * The linearizability checker

    [linearizability/src/lib.rs], [model.rs] and [models.rs]: histories of calls and
    returns, the doubly linked list of entries on a heap of shared nodes, and the
    search of [check_single] that lifts entries out of the list and puts them back. *)

From S2P Require Import Prelude Bitset.

(** ** Models and histories ([model.rs]) *)

Inductive Value (I O : Type) := Input (i : I) | Output (o : O) | ValueNone.
Arguments Input {I O} i.
Arguments Output {I O} o.
Arguments ValueNone {I O}.

(** [Value::input] and [Value::output] panic on anything else. *)
Definition input {I O} (v : Value I O) : option I := match v with Input i => Some i | _ => None end.
Definition output {I O} (v : Value I O) : option O := match v with Output o => Some o | _ => None end.

Record Operation (I O : Type) := mkOp { op_input : I; op_call : Z; op_output : O; op_finish : Z }.
Arguments mkOp {I O}.
Arguments op_input {I O}.
Arguments op_call {I O}.
Arguments op_output {I O}.
Arguments op_finish {I O}.

Inductive EventKind := CallEvent | ReturnEvent.

Record Event (T : Type) := mkEvent { ev_kind : EventKind; ev_value : T; ev_id : nat }.
Arguments mkEvent {T}.
Arguments ev_kind {T}.
Arguments ev_value {T}.
Arguments ev_id {T}.

(** The trait [Model] but for [partition]. *)
Class Model (St I O : Type) := {
  init : St;
  step : St → I → O → bool * St;
  equal : St → St → bool;
}.

(** What [partition] and [partition_event] are for a model that does not define them. *)
Definition default_partition {A} (history : list A) : list (list A) := [history].

(** ** Entries *)

Inductive EntryKind := CallEntry | ReturnEntry.

#[export] Instance EntryKind_eq_dec : EqDecision EntryKind.
Proof. solve_decision. Defined.

Record Entry (T : Type) := mkEntry { e_kind : EntryKind; e_value : T; e_id : nat; e_time : Z }.
Arguments mkEntry {T}.
Arguments e_kind {T}.
Arguments e_value {T}.
Arguments e_id {T}.
Arguments e_time {T}.

Section entries.
Context {I O : Type}.

Abbreviation T := (Value I O).

(** The stable sort by time: an entry goes behind those that are not later. *)
Fixpoint insert_by_time (e : Entry T) (l : list (Entry T)) : list (Entry T) :=
  match l with
  | [] => [e]
  | x :: l' => if (e_time e <? e_time x)%Z then e :: x :: l' else x :: insert_by_time e l'
  end.

Definition sort_by_time (l : list (Entry T)) : list (Entry T) :=
  foldl (λ acc e, insert_by_time e acc) [] l.

Definition make_entries (history : list (Operation I O)) : list (Entry T) :=
  sort_by_time (mjoin (imap (λ id elem,
    [mkEntry CallEntry (Input (op_input elem)) id (op_call elem);
     mkEntry ReturnEntry (Output (op_output elem)) id (op_finish elem)]) history)).

(** [renumber]: ids in the order they first appear. *)
Fixpoint renumber_loop (events : list (Event T)) (m : gmap nat nat) (id : nat) : list (Event T) :=
  match events with
  | [] => []
  | event :: events' =>
      match m !! ev_id event with
      | Some i => mkEvent (ev_kind event) (ev_value event) i :: renumber_loop events' m id
      | None => mkEvent (ev_kind event) (ev_value event) id
                  :: renumber_loop events' (<[ev_id event := id]> m) (S id)
      end
  end.

Definition renumber (events : list (Event T)) : list (Event T) := renumber_loop events ∅ 0.

Definition convert_entries (events : list (Event T)) : list (Entry T) :=
  (λ event, match ev_kind event with
            | CallEvent => mkEntry CallEntry (ev_value event) (ev_id event) (-1)
            | ReturnEvent => mkEntry ReturnEntry (ev_value event) (ev_id event) (-1)
            end) <$> events.

(** ** The linked list

    An [Rc<RefCell<Node>>] is a pointer into a heap of nodes. *)

Abbreviation ptr := nat.

Record Node := mkNode {
  n_value : T;
  n_matched : option ptr;
  n_id : nat;
  n_next : option ptr;
  n_prev : option ptr;
}.

Abbreviation Heap := (gmap ptr Node).

Record LinkedNodes := mkNodes { heap : Heap; head : option ptr; fresh : ptr }.

Definition with_next (v : option ptr) (n : Node) : Node :=
  mkNode (n_value n) (n_matched n) (n_id n) v (n_prev n).
Definition with_prev (v : option ptr) (n : Node) : Node :=
  mkNode (n_value n) (n_matched n) (n_id n) (n_next n) v.

Definition set_next (p : ptr) (v : option ptr) (h : Heap) : Heap := alter (with_next v) p h.
Definition set_prev (p : ptr) (v : option ptr) (h : Heap) : Heap := alter (with_prev v) p h.

(** [push_front] of a node that is on the heap. *)
Definition push_front (new_head : ptr) (l : LinkedNodes) : LinkedNodes :=
  match head l with
  | Some old_head =>
      mkNodes (set_next new_head (Some old_head) (set_prev old_head (Some new_head) (heap l)))
        (Some new_head) (fresh l)
  | None => mkNodes (heap l) (Some new_head) (fresh l)
  end.

Definition alloc (n : Node) (l : LinkedNodes) : LinkedNodes :=
  mkNodes (<[fresh l := n]> (heap l)) (head l) (S (fresh l)).

(** The loop of [from_entries], over the entries in reverse. *)
Fixpoint from_entries_loop (rev_entries : list (Entry T)) (matches : gmap nat ptr) (nodes : LinkedNodes) :
    LinkedNodes :=
  match rev_entries with
  | [] => nodes
  | entry :: rest =>
      let p := fresh nodes in
      match e_kind entry with
      | CallEntry =>
          let n := mkNode (e_value entry) (matches !! e_id entry) (e_id entry) None None in
          from_entries_loop rest matches (push_front p (alloc n nodes))
      | ReturnEntry =>
          let n := mkNode (e_value entry) None (e_id entry) None None in
          from_entries_loop rest (<[e_id entry := p]> matches) (push_front p (alloc n nodes))
      end
  end.

Definition from_entries (entries : list (Entry T)) : LinkedNodes :=
  from_entries_loop (rev entries) ∅ (mkNodes ∅ None 0).

(** [len]: a list on [k] nodes is walked in [k] steps. *)
Fixpoint len_loop (fuel : nat) (h : Heap) (entry : option ptr) : nat :=
  match fuel, entry with
  | S fuel', Some e => match h !! e with
                       | Some n => S (len_loop fuel' h (n_next n))
                       | None => 0
                       end
  | _, _ => 0
  end.

Definition len (l : LinkedNodes) : nat := len_loop (size (heap l)) (heap l) (head l).

(** ** lift and unlift *)

Abbreviation HM := (M unit Heap).

Definition node (p : ptr) : HM Node := gets (λ h, h !! p) ≫= expect.

(** [x.borrow_mut().f = v] while the cells [held] are borrowed: a cell that is
    borrowed already panics. *)
Definition borrow_mut (held : list ptr) (p : ptr) (f : ptr → Heap → Heap) : HM unit :=
  if decide (p ∈ held) then panic else node p;; modify (f p).

Definition lift (entry : ptr) : HM unit :=
  e ← node entry;
  prev ← expect (n_prev e);
  borrow_mut [entry] prev (λ p, set_next p (n_next e));;
  e ← node entry;
  next ← expect (n_next e);
  borrow_mut [entry] next (λ p, set_prev p (n_prev e));;
  e ← node entry;
  matched ← expect (n_matched e);
  m ← node matched;
  matched_prev ← expect (n_prev m);
  borrow_mut [entry; matched] matched_prev (λ p, set_next p (n_next m));;
  m ← node matched;
  match n_next m with
  | Some matched_next => borrow_mut [entry; matched] matched_next (λ p, set_prev p (n_prev m))
  | None => mret tt
  end.

Definition unlift (entry : ptr) : HM unit :=
  e ← node entry;
  matched ← expect (n_matched e);
  m ← node matched;
  matched_prev ← expect (n_prev m);
  borrow_mut [entry; matched] matched_prev (λ p, set_next p (Some matched));;
  m ← node matched;
  match n_next m with
  | Some matched_next => borrow_mut [entry; matched] matched_next (λ p, set_prev p (Some matched))
  | None => mret tt
  end;;
  e ← node entry;
  prev ← expect (n_prev e);
  borrow_mut [entry] prev (λ p, set_next p (Some entry));;
  e ← node entry;
  next ← expect (n_next e);
  borrow_mut [entry] next (λ p, set_prev p (Some entry)).
End entries.

Arguments Node : clear implicits.
Arguments LinkedNodes : clear implicits.

Abbreviation ptr := nat.
Abbreviation Heap I O := (gmap ptr (Node I O)).

(** ** The search *)

Section search.
Context {St Inp Out : Type} `{!Model St Inp Out}.

(** The cache: bit sets and states by the hash of the bit set. *)
Abbreviation Cache := (gmap N (list (Bitset * St))).

Definition cache_contains (cache : Cache) (linearized : Bitset) (state : St) : bool :=
  match cache !! hash linearized with
  | Some elems => existsb (λ elem, equals linearized elem.1 && equal state elem.2) elems
  | None => false
  end.

(** The local variables of [check_single]. The top of [calls] is its head. *)
Record Search := mkSearch {
  s_heap : Heap Inp Out;
  s_linearized : Bitset;
  s_cache : Cache;
  s_calls : list (option nat * St);
  s_state : St;
  s_entry : option nat;
}.

Abbreviation SM := (M unit Search).

Definition on_heap {A} (m : M unit (Heap Inp Out) A) : SM A := λ s,
  let '(o, h) := m (s_heap s) in
  (o, mkSearch h (s_linearized s) (s_cache s) (s_calls s) (s_state s) (s_entry s)).
Definition set_linearized (b : Bitset) : SM unit :=
  modify (λ s, mkSearch (s_heap s) b (s_cache s) (s_calls s) (s_state s) (s_entry s)).
Definition set_cache (c : Cache) : SM unit :=
  modify (λ s, mkSearch (s_heap s) (s_linearized s) c (s_calls s) (s_state s) (s_entry s)).
Definition set_calls (c : list (option nat * St)) : SM unit :=
  modify (λ s, mkSearch (s_heap s) (s_linearized s) (s_cache s) c (s_state s) (s_entry s)).
Definition set_state (st : St) : SM unit :=
  modify (λ s, mkSearch (s_heap s) (s_linearized s) (s_cache s) (s_calls s) st (s_entry s)).
Definition set_entry (e : option nat) : SM unit :=
  modify (λ s, mkSearch (s_heap s) (s_linearized s) (s_cache s) (s_calls s) (s_state s) e).

(** One round of the loop: [Some b] when [check_single] returns [b]. *)
Definition round (head_entry : nat) (kill : bool) : SM (option bool) :=
  hd ← on_heap (node head_entry);
  match n_next hd with
  | None => mret (Some true)
  | Some _ =>
      if kill then mret (Some false) else
      entry ← gets s_entry ≫= expect;
      e ← on_heap (node entry);
      match n_matched e with
      | Some matching =>
          m ← on_heap (node matching);
          i ← expect (input (n_value e));
          o ← expect (output (n_value m));
          state ← gets s_state;
          match step state i o with
          | (true, new_state) =>
              linearized ← gets s_linearized;
              new_linearized ← expect (set (n_id e) linearized);
              cache ← gets s_cache;
              if negb (cache_contains cache new_linearized new_state) then
                let h := hash new_linearized in
                set_cache (<[h := default [] (cache !! h) ++ [(new_linearized, new_state)]]> cache);;
                calls ← gets s_calls;
                set_calls ((Some entry, state) :: calls);;
                set_state new_state;;
                b ← expect (set (n_id e) linearized);
                set_linearized b;;
                on_heap (lift entry);;
                hd ← on_heap (node head_entry);
                set_entry (n_next hd);;
                mret None
              else set_entry (n_next e);; mret None
          | (false, _) => set_entry (n_next e);; mret None
          end
      | None =>
          calls ← gets s_calls;
          match calls with
          | [] => mret (Some false)
          | (top, state) :: calls' =>
              set_calls calls';;
              entry ← expect top;
              set_state state;;
              e ← on_heap (node entry);
              linearized ← gets s_linearized;
              b ← expect (clear (n_id e) linearized);
              set_linearized b;;
              on_heap (unlift entry);;
              e ← on_heap (node entry);
              set_entry (n_next e);;
              mret None
          end
      end
  end.

(** [kill] is what the shared flag holds as the rounds read it, one by one. *)
Fixpoint search_loop (fuel : nat) (head_entry : nat) (kill : nat → bool) : SM bool :=
  match fuel with
  | 0 => diverge
  | S fuel' =>
      r ← round head_entry (kill 0);
      match r with
      | Some b => mret b
      | None => search_loop fuel' head_entry (λ i, kill (S i))
      end
  end.

(** [check_single] up to its loop: the sentinel and the local variables. *)
Definition setup (subhistory : LinkedNodes Inp Out) : ptr * Search :=
  let n := len subhistory / 2 in
  let head_entry := fresh subhistory in
  let l := push_front head_entry (alloc (mkNode ValueNone None 0 None None) subhistory) in
  let entry := h ← heap l !! head_entry; n_next h in
  (head_entry, mkSearch (heap l) (new n) ∅ [] init entry).

Definition check_single (fuel : nat) (subhistory : LinkedNodes Inp Out) (kill : nat → bool) : outcome unit bool :=
  let '(head_entry, s) := setup subhistory in
  (search_loop fuel head_entry kill s).1.
End search.
Arguments Search : clear implicits.

(** ** Waiting for the results *)

(** What [recv] or [recv_timeout] returns. *)
Inductive Received := Got (res : bool) | TimedOut | Disconnected.

(** One round of [wait_res]: the loop goes on with the numbers of [inr], or breaks with the
    value and whether [kill] is stored. [count] is a [usize]. *)
Definition receive (r : Received) (count : nat) (ok : bool) : outcome unit ((bool * bool) + (nat * bool)) :=
  match r with
  | Got res =>
      let ok := ok && res in
      if negb ok then Ok (inl (ok, true))
      else match count with
           | 0 => Panic
           | S count' => if count' =? 0 then Ok (inl (ok, false)) else Ok (inr (count', ok))
           end
  | TimedOut => Ok (inl (ok, false))
  | Disconnected => Panic
  end.

(** [wait_res] on the messages of the channel: it blocks when there are no more. *)
Fixpoint wait_res_loop (rx : list Received) (count : nat) (ok : bool) : outcome unit (bool * bool) :=
  match rx with
  | [] => Diverge
  | r :: rx' =>
      match receive r count ok with
      | Ok (inl res) => Ok res
      | Ok (inr (count', ok')) => wait_res_loop rx' count' ok'
      | Err e => Err e
      | Panic => Panic
      | Diverge => Diverge
      end
  end.

Definition wait_res (rx : list Received) (count : nat) : outcome unit (bool * bool) := wait_res_loop rx count true.

(** ** The threads of a check

    [check_operations_timeout] and [check_events_timeout] start one thread for each part of
    the history and wait. A thread reads [kill] in each round of its loop. *)

Section threads.
Context {St Inp Out : Type} `{!Model St Inp Out}.

Inductive Worker :=
| Working (head_entry : ptr) (s : Search St Inp Out)
| Sent
| Panicked.

Inductive Main := Waiting (count : nat) (ok : bool) | Joining (res : bool) | MainPanicked.

Record Check := mkCheck { workers : list Worker; channel : list bool; kill : bool; main : Main }.

(** The arguments of the threads. *)
Definition spawn_operations (partitions : list (list (Operation Inp Out))) : list (LinkedNodes Inp Out) :=
  (λ subhistory, from_entries (make_entries subhistory)) <$> partitions.
Definition spawn_events (partitions : list (list (Event (Value Inp Out)))) : list (LinkedNodes Inp Out) :=
  (λ subhistory, from_entries (convert_entries (renumber subhistory))) <$> partitions.

Definition spawned (ls : list (LinkedNodes Inp Out)) : Check :=
  mkCheck ((λ l, let '(hd, s) := setup l in Working hd s) <$> ls) [] false (Waiting (length ls) true).

Definition work (k : bool) (hd : ptr) (s : Search St Inp Out) : Worker * list bool :=
  match round hd k s with
  | (Ok None, s') => (Working hd s', [])
  | (Ok (Some b), _) => (Sent, [b])
  | _ => (Panicked, [])
  end.

Definition main_receives (r : Received) (count : nat) (ok : bool) (k : bool) : Main * bool :=
  match receive r count ok with
  | Ok (inl (res, stored)) => (Joining res, k || stored)
  | Ok (inr (count', ok')) => (Waiting count' ok', k)
  | _ => (MainPanicked, k)
  end.

(** One step of a thread or of the caller; [timed] when there is a timeout. The caller
    keeps a sender, so the channel is never disconnected. *)
Inductive check_step (timed : bool) : Check → Check → Prop :=
| step_work w i hd s :
    workers w !! i = Some (Working hd s) →
    check_step timed w
      (mkCheck (<[i := (work (kill w) hd s).1]> (workers w)) (channel w ++ (work (kill w) hd s).2) (kill w) (main w))
| step_receive w count ok b rx :
    main w = Waiting count ok → channel w = b :: rx →
    check_step timed w
      (mkCheck (workers w) rx (main_receives (Got b) count ok (kill w)).2 (main_receives (Got b) count ok (kill w)).1)
| step_timeout w count ok :
    timed = true → main w = Waiting count ok →
    check_step timed w
      (mkCheck (workers w) (channel w) (main_receives TimedOut count ok (kill w)).2
         (main_receives TimedOut count ok (kill w)).1).

(** The call returns when all threads are joined. *)
Definition returned (w : Check) (res : bool) : Prop := main w = Joining res ∧ Forall (λ x, x = Sent) (workers w).
End threads.
Arguments Worker : clear implicits.
Arguments Check : clear implicits.
