(* ===== verification/LinHeap.v ===== *)
(** * The linked list of the linearizability checker

    What [from_entries] builds, and that [lift] takes an entry and its match out of the
    list and [unlift] puts the heap back exactly as it was. *)

From S2P Require Import Prelude Bitset Lin.

Section links.
Context {I O : Type}.
Implicit Types (h : Heap I O) (p : ptr) (l ps : list ptr).

(** The first pointer of a segment that is followed by [next]; the last one of a segment
    that comes after [prev]. *)
Definition first (ps : list ptr) (next : option ptr) : option ptr :=
  match ps with [] => next | p :: _ => Some p end.

Fixpoint final (prev : option ptr) (ps : list ptr) : option ptr :=
  match ps with [] => prev | p :: ps' => final (Some p) ps' end.

(** The nodes [ps] are linked both ways, between [prev] and [next]. *)
Fixpoint seg h (prev : option ptr) (ps : list ptr) (next : option ptr) : Prop :=
  match ps with
  | [] => True
  | p :: ps' => (∃ n, h !! p = Some n ∧ n_prev n = prev ∧ n_next n = first ps' next) ∧ seg h (Some p) ps' next
  end.

Definition dll h (ps : list ptr) : Prop := seg h None ps None ∧ NoDup ps.

Lemma first_app l l' next : first (l ++ l') next = first l (first l' next).
Proof. by destruct l. Qed.

Lemma final_app prev l l' : final prev (l ++ l') = final (final prev l) l'.
Proof. revert prev. induction l; simpl; auto. Qed.

Lemma seg_app h prev l l' next :
  seg h prev (l ++ l') next ↔ seg h prev l (first l' next) ∧ seg h (final prev l) l' next.
Proof.
  revert prev. induction l as [|p l IH]; intros prev; simpl; [naive_solver|].
  rewrite IH, first_app. naive_solver.
Qed.

Lemma seg_frame h h' prev l next :
  (∀ p, p ∈ l → h' !! p = h !! p) → seg h prev l next → seg h' prev l next.
Proof.
  revert prev. induction l as [|p l IH]; intros prev Hf; simpl; [done|].
  intros [(n & Hn & ?) Hl]. split.
  - exists n. rewrite Hf; [done|constructor].
  - apply IH; [|done]. intros q Hq. apply Hf. by constructor.
Qed.

Lemma seg_lookup h prev l next p : seg h prev l next → p ∈ l → is_Some (h !! p).
Proof.
  revert prev. induction l as [|q l IH]; intros prev; simpl; [by intros _ ?%not_elem_of_nil|].
  intros [(n & Hn & _) Hl] [->|Hp]%elem_of_cons; [by exists n|]. by eapply IH.
Qed.

(** A node of the list and its neighbours. *)
Lemma dll_node h l p l' : dll h (l ++ p :: l') →
  ∃ n, h !! p = Some n ∧ n_prev n = final None l ∧ n_next n = first l' None.
Proof. intros [Hs _]. rewrite seg_app in Hs. simpl in Hs. naive_solver. Qed.

Lemma set_next_lookup q p v h : set_next q v h !! p = if decide (p = q) then with_next v <$> h !! q else h !! p.
Proof.
  unfold set_next. case_decide; subst; [by rewrite lookup_alter_eq|by rewrite lookup_alter_ne].
Qed.

Lemma set_prev_lookup q p v h : set_prev q v h !! p = if decide (p = q) then with_prev v <$> h !! q else h !! p.
Proof.
  unfold set_prev. case_decide; subst; [by rewrite lookup_alter_eq|by rewrite lookup_alter_ne].
Qed.

(** Half of [lift] and half of [unlift]: [a] and [nx] are the neighbours of a node. *)
Definition unlink (a : ptr) (nx : option ptr) h : Heap I O :=
  match nx with
  | Some b => set_prev b (Some a) (set_next a (Some b) h)
  | None => set_next a None h
  end.

Definition relink (p a : ptr) (nx : option ptr) h : Heap I O :=
  match nx with
  | Some b => set_prev b (Some p) (set_next a (Some p) h)
  | None => set_next a (Some p) h
  end.

Lemma unlink_other a nx h p : p ≠ a → nx ≠ Some p → unlink a nx h !! p = h !! p.
Proof.
  intros Ha Hn. destruct nx as [b|]; simpl;
    rewrite ?set_prev_lookup, ?set_next_lookup; by repeat case_decide; simplify_eq.
Qed.

Lemma unlink_dll h l a p l' : dll h (l ++ a :: p :: l') → dll (unlink a (first l' None) h) (l ++ a :: l').
Proof.
  intros [Hs Hd]. split; [|by apply NoDup_app in Hd as (?&?&?); apply NoDup_app; split_and!; [done|set_solver|
    rewrite !NoDup_cons in *; set_solver]].
  rewrite seg_app in Hs |- *. simpl in *. destruct Hs as (Hl & (na & Ha & Hap & Han) & (np & Hp & Hpp & Hpn) & Hl').
  apply NoDup_app in Hd as (Hd & Hx & Hd'). rewrite !NoDup_cons in Hd'. destruct Hd' as (Hna & Hnp & Hd').
  split_and!.
  - eapply seg_frame; [|exact Hl]. intros q Hq. apply unlink_other; [set_solver|].
    destruct l' as [|b l']; simpl; [done|]. set_solver.
  - exists (with_next (first l' None) na). destruct l' as [|b l']; simpl.
    + by rewrite set_next_lookup, decide_True, Ha.
    + rewrite set_prev_lookup, decide_False by set_solver. by rewrite set_next_lookup, decide_True, Ha.
  - destruct l' as [|b l']; simpl in *; [done|]. destruct Hl' as [(nb & Hb & Hbp & Hbn) Hl']. split.
    + exists (with_prev (Some a) nb). rewrite set_prev_lookup, decide_True by done.
      rewrite set_next_lookup, decide_False by set_solver. by rewrite Hb.
    + rewrite NoDup_cons in Hd'. eapply seg_frame; [|exact Hl']. intros q Hq.
      apply (unlink_other a (Some b)); [set_solver|]. intros [= ->]. naive_solver.
Qed.

Lemma unlink_relink h l a p l' : dll h (l ++ a :: p :: l') →
  relink p a (first l' None) (unlink a (first l' None) h) = h.
Proof.
  intros [Hs Hd]. rewrite seg_app in Hs. simpl in *.
  destruct Hs as (Hl & (na & Ha & Hap & Han) & (np & Hp & Hpp & Hpn) & Hl').
  apply NoDup_app in Hd as (Hd & Hx & Hd'). rewrite !NoDup_cons in Hd'. destruct Hd' as (Hna & Hnp & Hd').
  assert (with_next (Some p) na = na) as Hra by (destruct na; simpl in *; by subst).
  apply map_eq; intros q. destruct l' as [|b l']; simpl in *.
  - rewrite !set_next_lookup. repeat case_decide; subst; try done. rewrite Ha; simpl. f_equal.
    rewrite <-Hra at 2. by destruct na.
  - destruct Hl' as [(nb & Hb & Hbp & Hbn) Hl'].
    assert (with_prev (Some p) nb = nb) as Hrb by (destruct nb; simpl in *; by subst).
    assert (a ≠ b) by set_solver.
    repeat rewrite set_prev_lookup || rewrite set_next_lookup. repeat case_decide; subst; try done.
    + rewrite Hb; simpl. f_equal. rewrite <-Hrb at 2. by destruct nb.
    + rewrite Ha; simpl. f_equal. rewrite <-Hra at 2. by destruct na.
Qed.

(** Running the actions of [lift] and [unlift]. *)
Lemma node_run p h n : h !! p = Some n → node p h = (Ok n, h).
Proof. intros H. unfold node, mbind, M_bind, gets. simpl. by rewrite H. Qed.

Lemma borrow_mut_run held p f h : p ∉ held → is_Some (h !! p) → borrow_mut held p f h = (Ok tt, f p h).
Proof.
  intros Hp [n Hn]. unfold borrow_mut. rewrite decide_False by done. by mstep (node_run _ _ _ Hn).
Qed.

Lemma final_snoc prev l a : final prev (l ++ [a]) = Some a.
Proof. by rewrite final_app. Qed.

(** The heap that [lift] leaves; [a] is the node before the entry [e]. *)
Definition lifted a l2 m l3 h : Heap I O :=
  unlink (default a (final None l2)) (first l3 None) (unlink a (first (l2 ++ m :: l3) None) h).

Lemma final_None prev l : final prev l = match final None l with Some p => Some p | None => prev end.
Proof.
  revert prev. induction l as [|p l IH]; intros prev; simpl; [done|]. rewrite !(IH (Some p)).
  by destruct (final None l).
Qed.

Lemma split_final a l : ∃ l', a :: l = l' ++ [default a (final None l)].
Proof.
  revert a. induction l as [|b l IH]; intros a; simpl; [by exists []|].
  destruct (IH b) as [l' ->]. exists (a :: l'). simpl. do 3 f_equal.
  rewrite (final_None (Some b) l). by destruct (final None l).
Qed.

Lemma lifted_dll h l a e l2 m l3 : dll h (l ++ a :: e :: l2 ++ m :: l3) →
  dll (lifted a l2 m l3 h) (l ++ a :: l2 ++ l3).
Proof.
  intros Hh. apply unlink_dll in Hh. unfold lifted.
  set (h1 := unlink _ _ h) in *. destruct (split_final a l2) as [l' Hl'].
  rewrite app_comm_cons, Hl', <-app_assoc, app_assoc in Hh |- *. simpl in *. by apply unlink_dll in Hh.
Qed.

Lemma dll_neq h l a l' p : dll h (l ++ a :: l') → p ∈ l' → p ≠ a.
Proof. intros [_ Hd] Hp ->. apply NoDup_app in Hd as (_ & _ & Hd). rewrite NoDup_cons in Hd. naive_solver. Qed.

Lemma lift_run h l a e l2 m l3 n : dll h (l ++ a :: e :: l2 ++ m :: l3) →
  h !! e = Some n → n_matched n = Some m → lift e h = (Ok tt, lifted a l2 m l3 h).
Proof.
  intros Hh He Hm. pose proof (unlink_dll _ _ _ _ _ Hh) as Hh1.
  unfold lifted. set (h1 := unlink _ _ h) in *.
  assert (NoDup (l ++ a :: e :: l2 ++ m :: l3)) as Hd by apply Hh.
  apply NoDup_app in Hd as (_ & _ & Hd). rewrite !NoDup_cons in Hd. destruct Hd as (Ha & Hel & Hd).
  destruct (dll_node h (l ++ [a]) e (l2 ++ m :: l3)) as (n' & ? & Hpe & Hne);
    [by rewrite <-app_assoc|]. simplify_eq. rewrite final_snoc in Hpe.
  unfold lift. mstep (node_run _ _ _ He). rewrite Hpe. mpure.
  mstep borrow_mut_run; [|set_solver|eapply (seg_lookup _ _ _ _ a); [apply Hh|set_solver]].
  assert (∃ b, first (l2 ++ m :: l3) None = Some b ∧ b ∈ l2 ++ m :: l3) as (b & Hb & Hbin).
  { destruct l2; simpl; eexists; (split; [done|set_solver]). }
  assert (h1 !! e = Some n) as He1.
  { unfold h1. rewrite Hb, <-He. apply unlink_other; [set_solver|]. set_solver. }
  rewrite Hb in Hne. rewrite Hne. mstep (node_run e _ n).
  2: { rewrite set_next_lookup, decide_False; [done|set_solver]. }
  rewrite Hne. mpure. mstep borrow_mut_run; [|set_solver|].
  2: { rewrite set_next_lookup. case_decide; [apply fmap_is_Some|];
      (eapply seg_lookup; [apply Hh|set_solver]). }
  rewrite Hpe. fold (unlink a (Some b) h). rewrite <-Hb. fold h1.
  mstep (node_run _ _ _ He1). rewrite Hm. mpure.
  destruct (dll_node h1 (l ++ a :: l2) m l3) as (nm & Hm1 & Hpm & Hnm); [by rewrite <-app_assoc|].
  destruct (split_final a l2) as [l' Hl']. rewrite Hl', app_assoc, final_snoc in Hpm.
  set (a' := default a (final None l2)) in *.
  assert (a' ∈ a :: l2) as Ha' by (rewrite Hl'; set_solver).
  assert (a' ≠ e ∧ a' ≠ m) as [Hae Ham].
  { rewrite NoDup_app, NoDup_cons in Hd. split; intros ->; set_solver. }
  mstep (node_run _ _ _ Hm1). rewrite Hpm. mpure. mstep borrow_mut_run; [|set_solver|eapply seg_lookup; [apply Hh1|set_solver]].
  mstep (node_run m _ nm). 2: { by rewrite set_next_lookup, decide_False by done. }
  rewrite Hnm. destruct l3 as [|c l3]; simpl; [done|].
  rewrite borrow_mut_run; [by rewrite Hpm| |].
  - rewrite NoDup_app, !NoDup_cons in Hd. set_solver.
  - rewrite set_next_lookup. case_decide; [apply fmap_is_Some|]; (eapply seg_lookup; [apply Hh1|set_solver]).
Qed.

(** [lift] and [unlift] only change the links. *)
Definition same_data (h h' : Heap I O) : Prop := ∀ p n, h !! p = Some n →
  ∃ n', h' !! p = Some n' ∧ n_value n' = n_value n ∧ n_matched n' = n_matched n ∧ n_id n' = n_id n.

#[export] Instance same_data_preorder : PreOrder same_data.
Proof.
  split; [intros h p n Hn; by exists n|]. intros h h' h'' H1 H2 p n Hn.
  destruct (H1 _ _ Hn) as (n' & Hn' & ?). destruct (H2 _ _ Hn') as (n'' & ? & ?). exists n''. intuition congruence.
Qed.

Lemma unlink_data a nx h : same_data h (unlink a nx h).
Proof.
  intros p n Hn. unfold unlink. destruct nx as [b|];
    rewrite ?set_prev_lookup, ?set_next_lookup; repeat case_decide; subst; rewrite Hn; by eexists.
Qed.

Lemma unlink_is_Some a nx h p : is_Some (h !! p) → is_Some (unlink a nx h !! p).
Proof. intros [n Hn]. destruct (unlink_data a nx h p n Hn) as (n' & -> & _). done. Qed.

Lemma lifted_entry h l a e l2 m l3 : dll h (l ++ a :: e :: l2 ++ m :: l3) → lifted a l2 m l3 h !! e = h !! e.
Proof.
  intros [_ Hd]. apply NoDup_app in Hd as (_ & _ & Hd). rewrite !NoDup_cons in Hd. destruct Hd as (Ha & Hel & Hd).
  destruct (split_final a l2) as [l' Hl'].
  assert (default a (final None l2) ∈ a :: l2) as Ha' by (rewrite Hl'; set_solver).
  unfold lifted. rewrite !unlink_other; [done|set_solver|..].
  - destruct l2; simpl; set_solver.
  - set_solver.
  - destruct l3; simpl; set_solver.
Qed.

Lemma unlift_run h l a e l2 m l3 n : dll h (l ++ a :: e :: l2 ++ m :: l3) →
  h !! e = Some n → n_matched n = Some m → unlift e (lifted a l2 m l3 h) = (Ok tt, h).
Proof.
  intros Hh He Hm. pose proof (lifted_entry _ _ _ _ _ _ _ Hh) as He2. rewrite He in He2.
  pose proof (unlink_dll _ _ _ _ _ Hh) as Hh1. pose proof (unlink_relink _ _ _ _ _ Hh) as Hr.
  unfold lifted in *. set (h1 := unlink _ _ h) in *.
  assert (NoDup (l ++ a :: e :: l2 ++ m :: l3)) as Hd by apply Hh.
  apply NoDup_app in Hd as (_ & _ & Hd). rewrite !NoDup_cons in Hd. destruct Hd as (Ha & Hel & Hd).
  destruct (dll_node h (l ++ [a]) e (l2 ++ m :: l3)) as (n' & ? & Hpe & Hne);
    [by rewrite <-app_assoc|]. simplify_eq. rewrite final_snoc in Hpe.
  destruct (dll_node h1 (l ++ a :: l2) m l3) as (nm & Hm1 & Hpm & Hnm); [by rewrite <-app_assoc|].
  destruct (split_final a l2) as [l' Hl']. rewrite Hl', app_assoc, final_snoc in Hpm.
  assert (relink m (default a (final None l2)) (first l3 None)
            (unlink (default a (final None l2)) (first l3 None) h1) = h1) as Hr1.
  { eapply (unlink_relink h1 (l ++ l') _ m l3). rewrite app_comm_cons, Hl', <-!app_assoc in Hh1.
    by rewrite <-app_assoc. }
  set (a' := default a (final None l2)) in *.
  assert (a' ∈ a :: l2) as Ha' by (rewrite Hl'; set_solver).
  assert (a' ≠ e ∧ a' ≠ m) as [Hae Ham].
  { rewrite NoDup_app, NoDup_cons in Hd. split; intros ->; set_solver. }
  assert (first l3 None ≠ Some m) as Hl3.
  { rewrite NoDup_app, NoDup_cons in Hd. destruct l3; simpl; set_solver. }
  assert (first l3 None ≠ Some e) as Hl3e by (destruct l3; simpl; set_solver).
  assert (He1 : h1 !! e = Some n).
  { rewrite <-He. unfold h1. apply unlink_other; [set_solver|]. destruct l2; simpl; set_solver. }
  set (h2 := unlink a' _ h1) in *.
  assert (h2 !! m = Some nm) as Hm2 by (unfold h2; by rewrite unlink_other).
  assert (∀ p, is_Some (h1 !! p) → is_Some (h2 !! p)) as Hdom by (intros p; apply unlink_is_Some).
  unfold unlift. mstep (node_run _ _ _ He2). rewrite Hm. mpure. mstep (node_run _ _ _ Hm2). rewrite Hpm. mpure.
  mstep borrow_mut_run; [|set_solver|apply Hdom; eapply seg_lookup; [apply Hh1|set_solver]].
  mstep (node_run m _ nm). 2: { by rewrite set_next_lookup, decide_False by done. }
  rewrite Hnm. erewrite (bind_ok _ _ _ tt h1).
  2: { rewrite <-Hr1. destruct l3 as [|c l3]; simpl; [done|]. rewrite borrow_mut_run; [done|set_solver|].
       rewrite set_next_lookup. case_decide; [apply fmap_is_Some|]; apply Hdom;
         (eapply seg_lookup; [apply Hh1|set_solver]). }
  mstep (node_run _ _ _ He1). rewrite Hpe. mpure.
  mstep borrow_mut_run; [|set_solver|eapply seg_lookup; [apply Hh1|set_solver]].
  mstep (node_run e _ n). 2: { rewrite set_next_lookup, decide_False; [done|set_solver]. }
  rewrite Hne. rewrite <-Hr.
  assert (∃ b, first (l2 ++ m :: l3) None = Some b ∧ b ∈ l2 ++ m :: l3) as (b & Hb & Hbin).
  { destruct l2; simpl; eexists; (split; [done|set_solver]). }
  rewrite Hb. mpure. simpl. rewrite borrow_mut_run; [done|set_solver|].
  rewrite set_next_lookup. case_decide; [apply fmap_is_Some|]; (eapply seg_lookup; [apply Hh1|set_solver]).
Qed.

Lemma lifted_data a l2 m l3 h : same_data h (lifted a l2 m l3 h).
Proof. unfold lifted. etrans; apply unlink_data. Qed.
End links.

(** ** What [from_entries] builds *)

Section build.
Context {I O : Type}.
Implicit Types (es r : list (Entry (Value I O))) (l : LinkedNodes I O).

Lemma push_alloc l ps nd : dll (heap l) ps → head l = first ps None →
  (∀ p, fresh l ≤ p → heap l !! p = None) → n_next nd = None → n_prev nd = None →
  let l' := push_front (fresh l) (alloc nd l) in
  dll (heap l') (fresh l :: ps) ∧ head l' = Some (fresh l) ∧ fresh l' = S (fresh l) ∧
  (∀ p, fresh l' ≤ p → heap l' !! p = None) ∧
  same_data (<[fresh l := nd]> (heap l)) (heap l').
Proof.
  intros [Hs Hd] Hhd Hf Hn Hp. assert (fresh l ∉ ps) as Hfps.
  { intros Hin. destruct (seg_lookup _ _ _ _ _ Hs Hin) as [nd' Hnd']. by rewrite Hf in Hnd'. }
  unfold push_front, alloc. simpl. rewrite Hhd. destruct ps as [|b ps]; simpl.
  - split_and!; try done.
    + split; [|by apply NoDup_singleton]. simpl. split; [|done]. exists nd. by rewrite lookup_insert_eq.
    + intros p Hle. rewrite lookup_insert_ne by lia. apply Hf. lia.
  - assert (fresh l ≠ b) as Hne by set_solver. simpl in Hs. destruct Hs as [(nb & Hb & Hbp & Hbn) Hs].
    split_and!; try done.
    + split; [|by constructor]. simpl. split_and!.
      * exists (with_next (Some b) nd). rewrite set_next_lookup, decide_True by done.
        rewrite set_prev_lookup, decide_False by done. by rewrite lookup_insert_eq.
      * exists (with_prev (Some (fresh l)) nb). rewrite set_next_lookup, decide_False by done.
        rewrite set_prev_lookup, decide_True, lookup_insert_ne by done. by rewrite Hb.
      * apply NoDup_cons in Hd as [Hbps _]. eapply seg_frame; [|exact Hs]. intros p Hp'.
        rewrite set_next_lookup, decide_False by set_solver.
        rewrite set_prev_lookup, decide_False by set_solver. rewrite lookup_insert_ne; [done|set_solver].
    + intros p Hle. assert (p ≠ b).
      { intros ->. rewrite Hf in Hb; [done|lia]. }
      rewrite set_next_lookup, decide_False by lia. rewrite set_prev_lookup, decide_False by done.
      rewrite lookup_insert_ne by lia. apply Hf. lia.
    + intros p n Hpn. rewrite set_next_lookup, set_prev_lookup.
      repeat case_decide; subst; try done; rewrite ?set_prev_lookup; repeat case_decide; subst;
        try done; rewrite Hpn; by eexists.
Qed.

(** The match recorded for an id after the returns of [r]. *)
Definition match_in r (m : option ptr) (id : nat) : Prop :=
  match m with
  | Some q => ∃ e, r !! q = Some e ∧ e_kind e = ReturnEntry ∧ e_id e = id
  | None => ∀ q e, r !! q = Some e → e_kind e = ReturnEntry → e_id e ≠ id
  end.

(** The node of an entry: pointers count the entries from the last one. *)
Definition node_of r (h : Heap I O) (p : ptr) (e : Entry (Value I O)) : Prop :=
  ∃ nd, h !! p = Some nd ∧ n_value nd = e_value e ∧ n_id nd = e_id e ∧
    match e_kind e with
    | CallEntry => match_in (take p r) (n_matched nd) (e_id e)
    | ReturnEntry => n_matched nd = None
    end.

Record built r (matches : gmap nat ptr) l : Prop := {
  built_fresh : fresh l = length r;
  built_dll : dll (heap l) (rev (seq 0 (length r)));
  built_head : head l = first (rev (seq 0 (length r))) None;
  built_dom : ∀ p, fresh l ≤ p → heap l !! p = None;
  built_node : ∀ p e, r !! p = Some e → node_of r (heap l) p e;
  built_match : ∀ id, match_in r (matches !! id) id;
}.

Lemma node_of_data r h h' p e : same_data h h' → node_of r h p e → node_of r h' p e.
Proof.
  intros Hd (nd & Hnd & Hv & Hi & Hm). destruct (Hd _ _ Hnd) as (nd' & ? & ? & Hm' & ?).
  exists nd'. split_and!; [done|congruence..|]. by rewrite Hm'.
Qed.

Lemma built_step r matches l e : built r matches l →
  let nd := mkNode (e_value e) (match e_kind e with CallEntry => matches !! e_id e | ReturnEntry => None end)
              (e_id e) None None in
  built (r ++ [e]) (match e_kind e with CallEntry => matches | ReturnEntry => <[e_id e := fresh l]> matches end)
    (push_front (fresh l) (alloc nd l)).
Proof.
  intros [Hf Hd Hh Hdom Hn Hm] nd.
  destruct (push_alloc l _ nd Hd Hh Hdom) as (Hd' & Hh' & Hf' & Hdom' & Hdata); [done..|].
  split.
  - rewrite Hf', length_app, Hf. simpl. lia.
  - rewrite length_app, Nat.add_1_r, seq_S, rev_app_distr, Nat.add_0_l, <-Hf. simpl. by rewrite Hf in *.
  - rewrite length_app, Nat.add_1_r, seq_S, rev_app_distr. simpl. by rewrite Hh', Hf.
  - done.
  - intros p e' He'. eapply node_of_data; [exact Hdata|]. apply lookup_app_Some in He' as [He'|[Hle He']].
    + destruct (Hn p e' He') as (nd' & Hnd' & Hv & Hi & Hmm). exists nd'.
      pose proof (lookup_lt_Some _ _ _ He'). rewrite lookup_insert_ne by lia.
      split_and!; [done..|]. by rewrite take_app_le by lia.
    + apply list_lookup_singleton_Some in He' as [Hp ->]. assert (p = fresh l) as -> by lia.
      exists nd. rewrite lookup_insert_eq. split_and!; [done..|]. rewrite Hf, take_app_length.
      unfold nd. simpl. destruct (e_kind e'); [apply Hm|done].
  - intros id. destruct (e_kind e) eqn:Hk.
    + specialize (Hm id). destruct (matches !! id) as [q|]; simpl in *.
      * destruct Hm as (e' & He' & ?). exists e'. split; [|done]. by apply lookup_app_l_Some.
      * intros q e' [He'|[_ [_ <-]%list_lookup_singleton_Some]]%lookup_app_Some ?; [eauto|congruence].
    + destruct (decide (id = e_id e)) as [->|Hne].
      * rewrite lookup_insert_eq. simpl. exists e. rewrite Hf, lookup_app_r, Nat.sub_diag by done. done.
      * rewrite lookup_insert_ne by done. specialize (Hm id). destruct (matches !! id) as [q|]; simpl in *.
        -- destruct Hm as (e' & He' & ?). exists e'. split; [|done]. by apply lookup_app_l_Some.
        -- intros q e' [He'|[_ [_ <-]%list_lookup_singleton_Some]]%lookup_app_Some ?; [eauto|congruence].
Qed.

Lemma from_entries_loop_built r2 : ∀ r1 matches l, built r1 matches l →
  ∃ matches', built (r1 ++ r2) matches' (from_entries_loop r2 matches l).
Proof.
  induction r2 as [|e r2 IH]; intros r1 matches l Hb; simpl; [exists matches; by rewrite app_nil_r|].
  apply (built_step _ _ _ e) in Hb. rewrite (app_assoc r1 [e] r2 : r1 ++ e :: r2 = _).
  destruct (e_kind e); by apply IH in Hb.
Qed.

Lemma from_entries_built es : ∃ matches, built (rev es) matches (from_entries es).
Proof.
  apply (from_entries_loop_built (rev es) [] ∅). split; try done.
  - split; [done|constructor].
  - intros id. rewrite lookup_empty. by intros q e ?.
Qed.

Lemma len_loop_seg (h : Heap I O) fuel prev ps : seg h prev ps None → length ps ≤ fuel →
  len_loop fuel h (first ps None) = length ps.
Proof.
  revert prev fuel. induction ps as [|p ps IH]; intros prev [|fuel]; simpl; try done; [lia|].
  intros [(nd & -> & _ & ->) Hs] Hle. f_equal. apply (IH (Some p)); [done|lia].
Qed.

Lemma len_ok l ps : dll (heap l) ps → head l = first ps None → len l = length ps.
Proof.
  intros [Hs Hd] Hh. unfold len. rewrite Hh. eapply len_loop_seg; [done|].
  rewrite <-length_map_to_list, <-(length_fmap fst). apply submseteq_length, NoDup_submseteq; [done|].
  intros p Hp. apply elem_of_map_keys. by eapply seg_lookup.
Qed.
End build.
