(* ===== verification/LinSearch.v ===== *)
(** * The search of the linearizability checker

    A configuration is the set of linearized calls and the state of the model after
    them. [check_single] explores the graph of configurations depth first; the
    invariant of its loop says what the stack, the list and the cache stand for. *)

From stdpp Require Import relations.
From S2P Require Import Prelude Bitset Lin LinHeap.

Section search.
Context {St Inp Out : Type} `{!Model St Inp Out}.

(** The heap before the search, the sentinel and the entries of the history. *)
Context (h0 : Heap Inp Out) (hd : ptr) (ps : list ptr) (n : nat).

Definition idp (p : ptr) : nat := default 0 (n_id <$> h0 !! p).
Definition mt (p : ptr) : option ptr := nd ← h0 !! p; n_matched nd.

(** [p] is a call with input [i] whose return [m] has output [o]. *)
Definition call (p m : ptr) (i : Inp) (o : Out) : Prop :=
  mt p = Some m ∧ (n_value <$> h0 !! p) = Some (Input i) ∧ (n_value <$> h0 !! m) = Some (Output o).

(** Every call is followed by its return, and only these two share an id. *)
Record history : Prop := {
  hist_dll : dll h0 (hd :: ps);
  hist_call : ∀ p m, p ∈ ps → mt p = Some m → (∃ i o, call p m i o) ∧ idp m = idp p ∧ mt m = None ∧
                     ∃ l1 l2 l3, ps = l1 ++ p :: l2 ++ m :: l3;
  hist_return : ∀ q, q ∈ ps → mt q = None → ∃ p, p ∈ ps ∧ mt p = Some q;
  hist_id : ∀ p q, p ∈ ps → q ∈ ps → idp p = idp q → (mt p = None ↔ mt q = None) → p = q;
  hist_bound : ∀ p, p ∈ ps → idp p < n;
}.
Context (hist : history).

Definition live (D : gset nat) : list ptr := filter (λ p, idp p ∉ D) ps.

(** Calls before which no operation has returned. *)
Definition open (l : list ptr) : Prop := ∀ p, p ∈ l → mt p ≠ None.

(** One operation takes effect: a call before any return of the list. *)
Definition linstep (c : ptr) (x x' : gset nat * St) : Prop :=
  ∃ l1 rest m i o, live x.1 = l1 ++ c :: rest ∧ open l1 ∧ call c m i o ∧
    step x.2 i o = (true, x'.2) ∧ x'.1 = {[idp c]} ∪ x.1.

Definition reaches (x x' : gset nat * St) : Prop := rtc (λ x x', ∃ c, linstep c x x') x x'.

(** There is an order of all operations that the model accepts. *)
Definition accepts : Prop := ∃ x, reaches (∅, init) x ∧ live x.1 = [].

Lemma live_sub D p : p ∈ live D → p ∈ ps ∧ idp p ∉ D.
Proof. unfold live. rewrite list_elem_of_filter. naive_solver. Qed.

Lemma NoDup_live D : NoDup (live D).
Proof.
  unfold live. apply NoDup_filter. destruct (hist_dll hist) as [_ Hd].
  by apply NoDup_cons in Hd as [_ Hd].
Qed.

Lemma NoDup_split (l1 l2 k1 k2 : list ptr) p : NoDup (l1 ++ p :: l2) → l1 ++ p :: l2 = k1 ++ p :: k2 →
  l1 = k1 ∧ l2 = k2.
Proof.
  intros Hd H. apply NoDup_app in Hd as (_ & Hx & Hd). rewrite NoDup_cons in Hd.
  revert k1 Hx H. induction l1 as [|a l1 IH]; intros [|b k1] Hx H; simpl in *; simplify_eq; try done.
  - exfalso. set_solver.
  - exfalso. apply (Hx p); set_solver.
  - destruct (IH k1) as [-> ->]; [set_solver|done|done].
Qed.

(** A call of the list is followed by its return. *)
Lemma live_match D l1 c rest m : live D = l1 ++ c :: rest → mt c = Some m →
  ∃ l2 l3, rest = l2 ++ m :: l3.
Proof.
  intros Hl Hm. assert (c ∈ live D) as Hc by (rewrite Hl; set_solver).
  destruct (live_sub _ _ Hc) as [Hc1 Hc2].
  destruct (hist_call hist c m Hc1 Hm) as (_ & Hid & _ & k1 & k2 & k3 & Hps).
  pose proof (NoDup_live D) as Hd. rewrite Hl in Hd.
  unfold live in Hl. rewrite Hps, filter_app, filter_cons_True in Hl by done.
  rewrite filter_app, filter_cons_True in Hl by (by rewrite Hid). symmetry in Hl.
  destruct (NoDup_split _ _ _ _ _ Hd Hl) as [_ ->]. by eexists _, _.
Qed.

Lemma live_add D l1 c l2 m l3 : live D = l1 ++ c :: l2 ++ m :: l3 → mt c = Some m →
  live ({[idp c]} ∪ D) = l1 ++ l2 ++ l3.
Proof.
  intros Hl Hm. assert (∀ p, p ∈ live D → p ∈ ps ∧ idp p ∉ D) as Hsub by apply live_sub.
  pose proof (NoDup_live D) as Hd. rewrite Hl in Hd, Hsub.
  destruct (hist_call hist c m) as (_ & Hid & Hmm & _); [apply Hsub; set_solver|done|].
  trans (filter (λ p, idp p ≠ idp c) (live D)).
  { unfold live. rewrite list_filter_filter. apply list_filter_iff. set_solver. }
  assert (∀ l, l ⊆ l1 ++ c :: l2 ++ m :: l3 → c ∉ l → m ∉ l → filter (λ p, idp p ≠ idp c) l = l) as Hall.
  { intros l Hs Hc Hml. apply filter_all. intros p Hp Heq.
    assert (p ∈ ps) as Hps by (apply Hsub; set_solver).
    destruct (mt p) eqn:Hmp.
    - assert (p = c) as ->; [|done]. apply (hist_id hist); [done|apply Hsub; set_solver|done|].
      rewrite Hmp, Hm. done.
    - assert (p = m) as ->; [|done]. apply (hist_id hist); [done|apply Hsub; set_solver|congruence|].
      rewrite Hmp, Hmm. done. }
  rewrite Hl, filter_app, filter_cons_False by (by intros []).
  rewrite filter_app, filter_cons_False by (rewrite Hid; by intros []).
  apply NoDup_app in Hd as (_ & Hx & Hd). rewrite NoDup_cons, NoDup_app, NoDup_cons in Hd.
  rewrite !Hall; set_solver.
Qed.

Lemma live_none : live ∅ = ps.
Proof using Type. clear hist. unfold live. apply filter_all. set_solver. Qed.

(** ** There are finitely many configurations *)

Definition succs (x : gset nat * St) : list (gset nat * St) :=
  (λ c, match n_value <$> h0 !! c, (m ← mt c; n_value <$> h0 !! m) with
        | Some (Input i), Some (Output o) => ({[idp c]} ∪ x.1, (step x.2 i o).2)
        | _, _ => x
        end) <$> ps.

Fixpoint level (k : nat) : list (gset nat * St) :=
  match k with 0 => [(∅, init)] | S k' => level k' ≫= succs end.

Definition confs : list (gset nat * St) := seq 0 (S (length ps)) ≫= level.

Lemma linstep_live c x x' : linstep c x x' → c ∈ live x.1.
Proof. intros (l1 & rest & m & i & o & -> & _). set_solver. Qed.

Lemma linstep_succs c x x' : linstep c x x' → x' ∈ succs x.
Proof.
  intros Hx. pose proof (live_sub _ _ (linstep_live _ _ _ Hx)) as [Hc _].
  destruct Hx as (l1 & rest & m & i & o & _ & _ & (Hm & Hi & Ho) & Hs & HD).
  apply list_elem_of_fmap. exists c. split; [|done]. rewrite Hi, Hm. simpl.
  replace (n_value <$> h0 !! m) with (Some (Output (I:=Inp) o)). rewrite Hs, <-HD. by destruct x'.
Qed.

Lemma reaches_level x : reaches (∅, init) x →
  x ∈ level (size x.1) ∧ x.1 ⊆ list_to_set (idp <$> ps).
Proof.
  revert x. apply (rtc_ind_r (λ x, x ∈ level (size x.1) ∧ x.1 ⊆ list_to_set (idp <$> ps))).
  { cbn [fst]. rewrite size_empty. cbn [level]. split; set_solver. }
  intros x x' _ (c & Hc) [IH1 IH2].
  pose proof (live_sub _ _ (linstep_live _ _ _ Hc)) as [Hps Hid].
  assert (x'.1 = {[idp c]} ∪ x.1) as Hx' by (by destruct Hc as (?&?&?&?&?&?&?&?&?&->)). rewrite Hx'. split.
  - rewrite size_union, size_singleton by set_solver. simpl. apply list_elem_of_bind.
    exists x. split; [|done]. by eapply linstep_succs.
  - apply union_subseteq. split; [|done]. apply singleton_subseteq_l, elem_of_list_to_set.
    by apply list_elem_of_fmap_2.
Qed.

Lemma reaches_confs x : reaches (∅, init) x → x ∈ confs.
Proof.
  intros [Hl Hs]%reaches_level. apply list_elem_of_bind. eexists; split; [exact Hl|].
  apply elem_of_seq. apply subseteq_size in Hs. pose proof (size_ids (idp <$> ps)) as Hi.
  rewrite length_fmap in Hi. lia.
Qed.

(** ** What the stack stands for

    A frame is a configuration on the stack with the entries still to be tried there. *)

Inductive stack : list (option ptr * St) → gset nat → St → Heap Inp Out →
    list (gset nat * St * list ptr) → Prop :=
| stack_nil : stack [] ∅ init h0 []
| stack_cons calls D s h fr l1 c l2 m l3 i o s' :
    stack calls D s h fr → live D = l1 ++ c :: l2 ++ m :: l3 → open l1 → call c m i o →
    step s i o = (true, s') →
    stack ((Some c, s) :: calls) ({[idp c]} ∪ D) s'
      (lifted (default hd (final None l1)) l2 m l3 h) ((D, s, l2 ++ m :: l3) :: fr).

Lemma stack_data calls D s h fr : stack calls D s h fr → same_data h0 h.
Proof.
  induction 1 as [|calls D s h fr l1 c l2 m l3 i o s' _ IH]; [done|]. etrans; [exact IH|apply lifted_data].
Qed.

Lemma stack_dll calls D s h fr : stack calls D s h fr → dll h (hd :: live D).
Proof.
  induction 1 as [|calls D s h fr l1 c l2 m l3 i o s' _ IH Hl _ (Hm & _) _]; [rewrite live_none; apply hist|].
  rewrite (live_add _ _ _ _ _ _ Hl Hm). rewrite Hl in IH. destruct (split_final hd l1) as [l' Hl'].
  rewrite app_comm_cons, Hl', <-app_assoc in IH |- *. simpl in *. by apply lifted_dll in IH.
Qed.

Lemma stack_reaches calls D s h fr : stack calls D s h fr → reaches (∅, init) (D, s).
Proof.
  induction 1 as [|calls D s h fr l1 c l2 m l3 i o s' _ IH Hl Ho Hc Hs]; [apply rtc_refl|].
  eapply rtc_r; [exact IH|]. by exists c, l1, (l2 ++ m :: l3), m, i, o.
Qed.

(** ** The invariant of the loop *)

Abbreviation conf := (gset nat * St)%type.

(** A configuration the search has come to. *)
Definition visited (cl : list conf) (x : conf) : Prop := x = (∅, init) ∨ x ∈ cl.

Record inv (s : Search St Inp Out) (D : gset nat) (rest : list ptr) (fr : list (conf * list ptr))
    (cl : list conf) : Prop := {
  inv_stack : stack (s_calls s) D (s_state s) (s_heap s) fr;
  inv_lin : holds n (s_linearized s) D;
  inv_rest : ∃ done, live D = done ++ rest ∧ open done;
  inv_entry : s_entry s = first rest None;
  inv_cache : ∀ D' b x, holds n b D' → (b, x) ∈ default [] (s_cache s !! hash b) ↔ (D', x) ∈ cl;
  inv_nodup : NoDup cl;
  inv_reach : ∀ x, x ∈ cl → reaches (∅, init) x;
  inv_explored : ∀ x c x', visited cl x → linstep c x x' →
    x' ∈ cl ∨ ∃ r, (x, r) ∈ (D, s_state s, rest) :: fr ∧ c ∈ r;
  inv_final : ∀ x, visited cl x → live x.1 = [] → live D = [];
}.

(** Rounds left: each either adds a configuration, or leaves an entry behind. *)
Definition measure (rest : list ptr) (fr : list (conf * list ptr)) (cl : list conf) : nat :=
  (length confs - length cl) * S (length ps) + length rest + sum_list_with (λ f, length f.2) fr.

(** Entries of the list at the top, before and at the first return. *)
Lemma open_split D done rest m rest' c : live D = done ++ rest → open done → rest = m :: rest' → mt m = None →
  (∃ x x', linstep c x x' ∧ x.1 = D) → c ∈ done.
Proof.
  intros Hl Ho -> Hm ([D' s] & x' & (l1 & r & m' & i & o & Hl' & Ho' & (Hc & _) & _) & HD). simpl in *. subst D'.
  rewrite Hl in Hl'. destruct (decide (c ∈ done)) as [|Hn]; [done|]. exfalso.
  assert (m ∈ l1) as Hml; [|by apply (Ho' m)].
  assert (c ∈ m :: rest') as Hcr.
  { assert (c ∈ done ++ m :: rest') as Hx by (rewrite Hl'; set_solver). set_solver. }
  pose proof (NoDup_live D) as Hd. rewrite Hl in Hd.
  apply elem_of_cons in Hcr as [->|Hcr]; [congruence|].
  apply list_elem_of_split in Hcr as (k1 & k2 & ->).
  rewrite app_comm_cons, app_assoc in Hl', Hd.
  destruct (NoDup_split _ _ _ _ _ Hd Hl') as [<- _]. set_solver.
Qed.

(** ** The nodes the loop reads *)

Lemma stack_node calls D s h fr done c rest : stack calls D s h fr → live D = done ++ c :: rest →
  ∃ nd, h !! c = Some nd ∧ n_next nd = first rest None ∧ n_matched nd = mt c ∧
        n_id nd = idp c ∧ Some (n_value nd) = n_value <$> h0 !! c.
Proof.
  intros Hs Hl. pose proof (stack_dll _ _ _ _ _ Hs) as Hd. rewrite Hl, app_comm_cons in Hd.
  destruct (dll_node _ _ _ _ Hd) as (nd & Hnd & _ & Hnx). exists nd.
  assert (c ∈ ps) as Hc by (apply (live_sub D c); rewrite Hl; set_solver).
  destruct (seg_lookup _ _ _ _ c (proj1 (hist_dll hist))) as [n0 Hn0]; [set_solver|].
  destruct (stack_data _ _ _ _ _ Hs _ _ Hn0) as (nd' & ? & Hv & Hm & Hi). simplify_eq.
  unfold mt, idp. rewrite Hn0. simpl. rewrite Hv, Hm, Hi. done.
Qed.

Lemma stack_head calls D s h fr : stack calls D s h fr →
  ∃ nd, h !! hd = Some nd ∧ n_next nd = first (live D) None.
Proof.
  intros Hs. pose proof (stack_dll _ _ _ _ _ Hs) as Hd.
  destruct (dll_node _ [] _ _ Hd) as (nd & Hnd & _ & Hnx). eauto.
Qed.

(** A return that matches a call of the list. *)
Lemma stack_match calls D s h fr done c rest m : stack calls D s h fr → live D = done ++ c :: rest →
  mt c = Some m → ∃ nd i o, h !! m = Some nd ∧ call c m i o ∧ n_value nd = Output o.
Proof.
  intros Hs Hl Hm. destruct (live_match _ _ _ _ _ Hl Hm) as (l2 & l3 & ->).
  destruct (stack_node _ _ _ _ _ (done ++ c :: l2) m l3 Hs) as (nd & Hnd & _ & _ & _ & Hv).
  { by rewrite Hl, <-app_assoc. }
  destruct (hist_call hist c m) as ((i & o & Hc) & _); [|done|].
  { apply (live_sub D c). rewrite Hl. set_solver. }
  exists nd, i, o. split_and!; [done|done|]. destruct Hc as (_ & _ & Ho). congruence.
Qed.

Lemma call_fun c m i o m' i' o' : call c m i o → call c m' i' o' → m = m' ∧ i = i' ∧ o = o'.
Proof. intros (?&?&?) (?&?&?). by simplify_eq. Qed.

Lemma linstep_fun c m i o D s x' : call c m i o → linstep c (D, s) x' →
  step s i o = (true, x'.2) ∧ x'.1 = {[idp c]} ∪ D.
Proof.
  intros Hc (l1 & r & m' & i' & o' & _ & _ & Hc' & Hs & HD). simpl in *.
  by destruct (call_fun _ _ _ _ _ _ _ Hc Hc') as (-> & -> & ->).
Qed.

(** ** The three things a round does to the invariant *)

Definition set_entry' (e : option ptr) (s : Search St Inp Out) : Search St Inp Out :=
  mkSearch (s_heap s) (s_linearized s) (s_cache s) (s_calls s) (s_state s) e.

Lemma inv_advance s D c rest fr cl : inv s D (c :: rest) fr cl → mt c ≠ None →
  (∀ x', linstep c (D, s_state s) x' → x' ∈ cl) → inv (set_entry' (first rest None) s) D rest fr cl.
Proof.
  intros [Hst Hlin (done & Hl & Ho) He Hca Hnd Hre Hex Hfi] Hc Hx. split; try done.
  - exists (done ++ [c]). split; [by rewrite <-app_assoc|]. intros p [Hp| ->%list_elem_of_singleton]%elem_of_app; auto.
  - intros x c' x' Hv Hs. destruct (Hex x c' x' Hv Hs) as [|(r & Hr & Hcr)]; [by left|].
    apply elem_of_cons in Hr as [[= -> ->]|Hr].
    + apply elem_of_cons in Hcr as [->|Hcr]; [left; by apply Hx|].
      right. exists rest. split; [constructor|done].
    + right. exists r. split; [by constructor|done].
Qed.

Lemma inv_push s D done c l2 m l3 fr cl i o s' b' :
  inv s D (c :: l2 ++ m :: l3) fr cl → live D = done ++ c :: l2 ++ m :: l3 → call c m i o →
  step (s_state s) i o = (true, s') →
  holds n b' ({[idp c]} ∪ D) → ({[idp c]} ∪ D, s') ∉ cl →
  inv (mkSearch (lifted (default hd (final None done)) l2 m l3 (s_heap s)) b'
         (<[hash b' := default [] (s_cache s !! hash b') ++ [(b', s')]]> (s_cache s))
         ((Some c, s_state s) :: s_calls s) s' (first (live ({[idp c]} ∪ D)) None))
      ({[idp c]} ∪ D) (live ({[idp c]} ∪ D)) ((D, s_state s, l2 ++ m :: l3) :: fr)
      (({[idp c]} ∪ D, s') :: cl).
Proof.
  intros [Hst Hlin (done' & Hl' & Ho) He Hca Hnd Hre Hex Hfi] Hl Hc Hs Hb Hcl.
  assert (done' = done) as ->.
  { rewrite Hl' in Hl. by apply app_inv_tail in Hl. }
  assert (linstep c (D, s_state s) ({[idp c]} ∪ D, s')) as Hstep.
  { by exists done, (l2 ++ m :: l3), m, i, o. }
  assert (stack ((Some c, s_state s) :: s_calls s) ({[idp c]} ∪ D) s'
            (lifted (default hd (final None done)) l2 m l3 (s_heap s)) ((D, s_state s, l2 ++ m :: l3) :: fr))
    as Hst' by (by eapply stack_cons).
  split; simpl; try done.
  - exists []. split; [done|]. by intros p ?%not_elem_of_nil.
  - intros D' b x Hb'. rewrite elem_of_cons. destruct (decide (hash b' = hash b)) as [Hh|Hh].
    + rewrite Hh, lookup_insert_eq. simpl. rewrite elem_of_app, list_elem_of_singleton, (Hca D' b x Hb').
      split; [intros [?|[= -> ->]]; auto|intros [[= -> ->]|?]; auto].
      * left. by rewrite (holds_unique _ _ _ _ Hb' Hb).
      * right. by rewrite (holds_inj _ _ _ _ Hb' Hb).
    + rewrite lookup_insert_ne by done. rewrite (Hca D' b x Hb'). split; [auto|].
      intros [[= -> ->]|]; [|done]. destruct Hh. by rewrite (holds_inj _ _ _ _ Hb' Hb).
  - by constructor.
  - intros x [->|Hx]%elem_of_cons; [by eapply stack_reaches|by apply Hre].
  - intros x c' x' Hv Hs'. assert (visited cl x ∨ x = ({[idp c]} ∪ D, s')) as [Hv'| ->].
    { destruct Hv as [->|[->|]%elem_of_cons]; unfold visited; auto. }
    + destruct (Hex x c' x' Hv' Hs') as [|(r & Hr & Hcr)]; [left; by constructor|].
      apply elem_of_cons in Hr as [[= -> ->]|Hr].
      * apply elem_of_cons in Hcr as [->|Hcr].
        -- left. apply elem_of_cons. left. destruct (linstep_fun _ _ _ _ _ _ _ Hc Hs') as [Hq HD].
           destruct x' as [D' s'']; simpl in *. congruence.
        -- right. exists (l2 ++ m :: l3). split; [|done]. do 2 constructor.
      * right. exists r. split; [|done]. by do 2 constructor.
    + right. exists (live ({[idp c]} ∪ D)). split; [constructor|]. by apply linstep_live in Hs'.
  - intros x Hv Hx. assert (visited cl x ∨ x = ({[idp c]} ∪ D, s')) as [Hv'| ->]; [|exfalso|done].
    { destruct Hv as [->|[->|]%elem_of_cons]; unfold visited; auto. }
    pose proof (Hfi x Hv' Hx) as Hn. rewrite Hl in Hn. by destruct done.
Qed.

Lemma inv_pop s D m rest c s0 calls fr cl b' :
  inv s D (m :: rest) fr cl → mt m = None → s_calls s = (Some c, s0) :: calls →
  holds n b' (D ∖ {[idp c]}) →
  ∃ D0 rest0 fr0 h0', fr = ((D0, s0), rest0) :: fr0 ∧
    unlift c (s_heap s) = (Ok tt, h0') ∧ (∃ nd, h0' !! c = Some nd ∧ n_next nd = first rest0 None) ∧
    inv (mkSearch h0' b' (s_cache s) calls s0 (first rest0 None)) D0 rest0 fr0 cl.
Proof.
  intros Hi Hm Hcalls Hb. destruct Hi as [Hst Hlin (done & Hl & Ho) He Hca Hnd Hre Hex Hfi].
  rewrite Hcalls in Hst. inversion Hst as [|calls' D0 s0' h' fr0 l1 c' l2 mc l3 i o s' Hst0 Hl0 Ho0 Hc0 Hs0]; subst.
  destruct (stack_node _ _ _ _ _ _ _ _ Hst0 Hl0) as (nd & Hndc & Hnx & Hmt & Hid & Hva).
  exists D0, (l2 ++ mc :: l3), fr0, h'. split_and!; [done| |by exists nd|].
  - pose proof (stack_dll _ _ _ _ _ Hst0) as Hd. rewrite Hl0 in Hd.
    destruct (split_final hd l1) as [l' Hl']. rewrite app_comm_cons, Hl', <-app_assoc in Hd. simpl in Hd.
    eapply unlift_run; [exact Hd|exact Hndc|]. rewrite Hmt. apply Hc0.
  - assert (({[idp c]} ∪ D0) ∖ {[idp c]} = D0) as HD.
    { assert (idp c ∉ D0); [|set_solver]. apply (live_sub D0 c). rewrite Hl0. set_solver. }
    rewrite HD in Hb. split; simpl; try done.
    + exists (l1 ++ [c]). split; [by rewrite <-app_assoc|].
      intros p [Hp| ->%list_elem_of_singleton]%elem_of_app; [by apply Ho0|]. destruct Hc0 as [-> _]. done.
    + intros x c' x' Hv Hs. destruct (Hex x c' x' Hv Hs) as [|(r & Hr & Hcr)]; [by left|].
      apply elem_of_cons in Hr as [[= -> ->]|Hr]; [|right; eauto].
      exfalso. pose proof (open_split _ done _ m rest c' Hl Ho eq_refl Hm) as Hd.
      pose proof (NoDup_live ({[idp c]} ∪ D0)) as Hn. rewrite Hl, NoDup_app in Hn.
      destruct Hn as (_ & Hn & _). apply (Hn c'); [|done]. apply Hd. by eexists _, _.
    + intros x Hv Hx. pose proof (Hfi x Hv Hx) as Hn. rewrite Hl in Hn. by destruct done.
Qed.

(** Nothing is left to try: the configurations visited are closed under steps. *)
Lemma inv_fail s D m rest cl : inv s D (m :: rest) [] cl → mt m = None → ¬ accepts.
Proof.
  intros [Hst Hlin (done & Hl & Ho) He Hca Hnd Hre Hex Hfi] Hm (x & Hx & Hlx).
  assert (visited cl x) as Hv.
  { revert x Hx Hlx. assert (∀ x, reaches (∅, init) x → visited cl x) as H; [|by intros; apply H].
    apply rtc_ind_r; [by left|]. intros x x' _ (c & Hs) IH. destruct (Hex x c x' IH Hs) as [|(r & Hr & Hcr)]; [by right|].
    apply list_elem_of_singleton in Hr as [= -> ->]. exfalso.
    pose proof (open_split _ done _ m rest c Hl Ho eq_refl Hm) as Hd.
    pose proof (NoDup_live D) as Hn. rewrite Hl, NoDup_app in Hn.
    destruct Hn as (_ & Hn & _). apply (Hn c); [|done]. apply Hd. by eexists _, _. }
  pose proof (Hfi x Hv Hlx) as Hn. rewrite Hl in Hn. by destruct done.
Qed.

(** ** A round of the loop *)

Context (equal_spec : ∀ s1 s2 : St, equal s1 s2 = true ↔ s1 = s2).

Lemma cache_contains_spec s D rest fr cl D' b x : inv s D rest fr cl → holds n b D' →
  cache_contains (s_cache s) b x = true ↔ (D', x) ∈ cl.
Proof.
  intros Hi Hb. rewrite <-(inv_cache _ _ _ _ _ Hi D' b x Hb). unfold cache_contains.
  destruct (s_cache s !! hash b) as [elems|]; simpl; [|split; [done|by intros ?%not_elem_of_nil]].
  rewrite existsb_exists. setoid_rewrite <-list_elem_of_In. split.
  - intros ([b1 x1] & Hin & [->%equals_eq ->%equal_spec]%andb_prop). done.
  - intros Hin. exists (b, x). split; [done|]. apply andb_true_intro. simpl.
    by rewrite equals_eq, equal_spec.
Qed.

Lemma inv_rest_nil s D rest fr cl nd : inv s D rest fr cl → s_heap s !! hd = Some nd →
  n_next nd = None → accepts.
Proof.
  intros Hi Hn Hx. destruct (stack_head _ _ _ _ _ (inv_stack _ _ _ _ _ Hi)) as (nd' & ? & Hf). simplify_eq.
  exists (D, s_state s). split; [by eapply stack_reaches, inv_stack|]. simpl.
  rewrite Hx in Hf. by destruct (live D).
Qed.

(** When the list is not empty, the search stands at an entry. *)
Lemma inv_rest_cons s D rest fr cl p : inv s D rest fr cl → first (live D) None = Some p → rest ≠ [].
Proof.
  intros Hi Hf ->. destruct (inv_rest _ _ _ _ _ Hi) as (done & Hl & Ho). rewrite app_nil_r in Hl.
  rewrite Hl in Hf. destruct done as [|c l]; [done|]. specialize (Ho c ltac:(constructor)).
  destruct (mt c) as [m|] eqn:Hm; [|done].
  destruct (live_match D [] c l m Hl Hm) as (l2 & l3 & ->).
  destruct (hist_call hist c m) as (_ & _ & Hr & _); [|done|].
  { apply (live_sub D c). rewrite Hl. set_solver. }
  destruct (inv_rest _ _ _ _ _ Hi) as (done' & Hl' & Ho'). rewrite app_nil_r in Hl'.
  apply (Ho' m); [|done]. rewrite <-Hl', Hl. set_solver.
Qed.

Lemma cl_bound s D rest fr cl : inv s D rest fr cl → length cl ≤ length confs.
Proof.
  intros Hi. apply submseteq_length, NoDup_submseteq; [by apply Hi|].
  intros x Hx. apply reaches_confs. by eapply inv_reach.
Qed.

(** What is left after a round that goes on. *)
Definition goes_on (o : outcome unit (option bool) * Search St Inp Out) (k : nat) : Prop :=
  ∃ s D rest fr cl, o = (Ok None, s) ∧ inv s D rest fr cl ∧ measure rest fr cl < k.

Lemma stack_top top s0 calls D s h fr : stack ((top, s0) :: calls) D s h fr → ∃ c, top = Some c ∧ c ∈ ps.
Proof.
  inversion 1 as [|calls' D0 s0' h' fr0 l1 c l2 mc l3 i o s' _ Hl]; subst. exists c. split; [done|].
  apply (live_sub D0 c). rewrite Hl. set_solver.
Qed.

Lemma round_return s D m rest fr cl nd hn p :
  inv s D (m :: rest) fr cl → mt m = None → s_heap s !! m = Some nd → n_matched nd = None →
  s_heap s !! hd = Some hn → n_next hn = Some p →
  ((round hd false s).1 = Ok (Some false) ∧ ¬ accepts) ∨
  goes_on (round hd false s) (measure (m :: rest) fr cl).
Proof.
  intros Hi Hm Hnd Hmt Hhd Hnx. unfold round, on_heap, set_calls, set_state, set_linearized, set_entry.
  unfold node, mbind, M_bind, gets, modify; simpl. rewrite Hhd; simpl. rewrite Hnx.
  rewrite (inv_entry _ _ _ _ _ Hi); simpl. rewrite Hnd; simpl. rewrite Hmt.
  destruct (s_calls s) as [|[top s0] calls] eqn:Hcalls.
  { left. split; [done|]. pose proof (inv_stack _ _ _ _ _ Hi) as Hst. rewrite Hcalls in Hst. inversion Hst; subst.
    by eapply inv_fail. }
  right. pose proof (inv_stack _ _ _ _ _ Hi) as Hst. pose proof Hst as Htop. rewrite Hcalls in Htop.
  apply stack_top in Htop as (c & -> & Hc).
  destruct (clear_holds _ _ _ (idp c) (inv_lin _ _ _ _ _ Hi)) as (b' & Hb' & Hholds); [by apply hist_bound|].
  destruct (inv_pop _ _ _ _ _ _ _ _ _ _ Hi Hm Hcalls Hholds)
    as (D1 & rest0 & fr1 & h1 & -> & Hun & (ndc & Hndc & Hnxc) & Hinv).
  destruct (seg_lookup _ _ _ _ c (proj1 (hist_dll hist))) as [n0 Hn0]; [set_solver|].
  destruct (stack_data _ _ _ _ _ Hst _ _ Hn0) as (nd' & Hndc' & _ & _ & Hid).
  simpl. rewrite Hndc'; simpl.
  assert (n_id nd' = idp c) as -> by (unfold idp; by rewrite Hn0).
  rewrite Hb'; simpl. rewrite Hun; simpl. rewrite Hndc; simpl.
  eexists _, _, _, _, _. split; [reflexivity|]. rewrite Hnxc. split; [exact Hinv|].
  unfold measure. simpl. lia.
Qed.

Lemma round_call s D c m rest fr cl nd hn p :
  inv s D (c :: rest) fr cl → mt c = Some m → s_heap s !! hd = Some hn → n_next hn = Some p →
  s_heap s !! c = Some nd → n_matched nd = Some m → n_next nd = first rest None → n_id nd = idp c →
  Some (n_value nd) = n_value <$> h0 !! c →
  goes_on (round hd false s) (measure (c :: rest) fr cl).
Proof.
  intros Hi Hm Hhd Hnx Hnd Hmt Hnxc Hid Hva. pose proof (inv_rest _ _ _ _ _ Hi) as (done & Hl & Ho).
  destruct (stack_match _ _ _ _ _ _ _ _ _ (inv_stack _ _ _ _ _ Hi) Hl Hm) as (ndm & i & o & Hndm & Hc & Hvo).
  assert (n_value nd = Input i) as Hvi by (destruct Hc as (_ & Hc & _); congruence).
  assert (c ∈ ps) as Hps by (apply (live_sub D c); rewrite Hl; set_solver).
  destruct (set_holds _ _ _ (idp c) (inv_lin _ _ _ _ _ Hi)) as (b' & Hb' & Hholds); [by apply hist_bound|].
  assert (measure rest fr cl < measure (c :: rest) fr cl) as Hlt by (unfold measure; simpl; lia).
  unfold round, on_heap, set_calls, set_state, set_linearized, set_entry, set_cache.
  unfold node, mbind, M_bind, gets, modify; simpl. rewrite Hhd; simpl. rewrite Hnx.
  rewrite (inv_entry _ _ _ _ _ Hi); simpl. rewrite Hnd; simpl. rewrite Hmt; simpl. rewrite Hndm; simpl. rewrite Hvi; simpl. rewrite Hvo; simpl.
  destruct (step (s_state s) i o) as [[] s'] eqn:Hstep; simpl.
  2: { eexists _, D, rest, fr, cl. split; [reflexivity|]. rewrite Hnxc. split; [|done].
       apply (inv_advance _ _ c); [done|congruence|]. intros x' Hx'.
       destruct (linstep_fun _ _ _ _ _ _ _ Hc Hx'). congruence. }
  rewrite Hid, Hb'; simpl.
  destruct (cache_contains (s_cache s) b' s') eqn:Hcc; simpl.
  { rewrite (cache_contains_spec _ _ _ _ _ _ _ _ Hi Hholds) in Hcc.
    eexists _, D, rest, fr, cl. split; [reflexivity|]. rewrite Hnxc. split; [|done].
    apply (inv_advance _ _ c); [done|congruence|]. intros x' Hx'.
    destruct (linstep_fun _ _ _ _ _ _ _ Hc Hx') as [Hq HD]. destruct x' as [D' s'']; simpl in *.
    subst D'. rewrite Hstep in Hq. injection Hq as <-. exact Hcc. }
  assert (({[idp c]} ∪ D, s') ∉ cl) as Hncl.
  { rewrite <-(cache_contains_spec _ _ _ _ _ _ _ _ Hi Hholds). by rewrite Hcc. }
  destruct (live_match _ _ _ _ _ Hl Hm) as (l2 & l3 & ->).
  pose proof (inv_push _ _ _ _ _ _ _ _ _ _ _ _ _ Hi Hl Hc Hstep Hholds Hncl) as Hinv.
  assert (lift c (s_heap s) = (Ok tt, lifted (default hd (final None done)) l2 m l3 (s_heap s))) as Hlift.
  { pose proof (stack_dll _ _ _ _ _ (inv_stack _ _ _ _ _ Hi)) as Hd. rewrite Hl in Hd.
    destruct (split_final hd done) as [l' Hl']. rewrite app_comm_cons, Hl', <-app_assoc in Hd. simpl in Hd.
    by eapply lift_run. }
  unfold mbind, M_bind in Hlift. simpl. rewrite Hlift; simpl.
  destruct (stack_head _ _ _ _ _ (inv_stack _ _ _ _ _ Hinv)) as (nh & Hnh & Hf). simpl in Hnh. rewrite Hnh; simpl.
  eexists _, _, _, _, _. split; [reflexivity|]. rewrite Hf. split; [exact Hinv|].
  pose proof (cl_bound _ _ _ _ _ Hinv) as Hb. unfold measure. simpl in *.
  rewrite (live_add _ _ _ _ _ _ Hl Hm). assert (length (l2 ++ m :: l3) < length ps).
  { pose proof (length_filter (λ p, idp p ∉ D) ps) as Hle. fold (live D) in Hle. rewrite Hl in Hle.
    rewrite length_app in Hle. simpl in Hle. lia. }
  assert (length (done ++ l2 ++ l3) ≤ length ps).
  { rewrite <-(live_add _ _ _ _ _ _ Hl Hm). apply length_filter. }
  nia.
Qed.

(** A round returns with the answer, or gives up because of [kill], or goes on. *)
Lemma round_ok s D rest fr cl kill : inv s D rest fr cl →
  ((round hd kill s).1 = Ok (Some true) ∧ accepts) ∨
  ((round hd kill s).1 = Ok (Some false) ∧ (kill = true ∨ ¬ accepts)) ∨
  goes_on (round hd kill s) (measure rest fr cl).
Proof.
  intros Hi. destruct (stack_head _ _ _ _ _ (inv_stack _ _ _ _ _ Hi)) as (hn & Hhd & Hf).
  destruct (n_next hn) as [p|] eqn:Hnx.
  2: { left. split; [|by eapply inv_rest_nil]. unfold round, on_heap, node, mbind, M_bind, gets; simpl.
       rewrite Hhd; simpl. by rewrite Hnx. }
  destruct kill.
  { right. left. split; [|by left]. unfold round, on_heap, node, mbind, M_bind, gets; simpl.
    rewrite Hhd; simpl. by rewrite Hnx. }
  right. destruct rest as [|c rest].
  { exfalso. eapply (inv_rest_cons _ _ _ _ _ p Hi); [|done]. congruence. }
  pose proof (inv_rest _ _ _ _ _ Hi) as (done & Hl & Ho).
  destruct (stack_node _ _ _ _ _ _ _ _ (inv_stack _ _ _ _ _ Hi) Hl) as (nd & Hnd & Hnxc & Hmt & Hid & Hva).
  destruct (mt c) as [m|] eqn:Hm.
  - right. by eapply round_call.
  - destruct (round_return _ _ _ _ _ _ _ _ _ Hi Hm Hnd Hmt Hhd Hnx) as [[??]|]; [left|]; auto.
Qed.

Lemma search_loop_ok k s D rest fr cl kill : inv s D rest fr cl → measure rest fr cl < k →
  ∃ b, (search_loop k hd kill s).1 = Ok b ∧ (b = true → accepts) ∧
       (b = false → accepts → ∃ i, kill i = true).
Proof.
  revert s D rest fr cl kill. induction k as [|k IH]; intros s D rest fr cl kill Hi Hk; [lia|].
  cbn [search_loop]. destruct (round_ok s D rest fr cl (kill 0) Hi) as [[Hr Ha]|[[Hr Ha]|Hg]].
  - exists true. unfold mbind, M_bind. destruct (round _ _ _) as [[] ?]; simplify_eq/=. done.
  - exists false. unfold mbind, M_bind. destruct (round _ _ _) as [[] ?]; simplify_eq/=.
    split_and!; [done|done|]. intros _ Hacc. destruct Ha; [by exists 0|done].
  - destruct Hg as (s' & D' & rest' & fr' & cl' & Hr & Hi' & Hlt).
    destruct (IH s' D' rest' fr' cl' (λ i, kill (S i)) Hi') as (b & Hb & Ht & Hf); [lia|].
    exists b. split_and!; [|done|].
    + unfold mbind, M_bind. by rewrite Hr.
    + intros Hbf Hacc. destruct (Hf Hbf Hacc) as [i Hki]. by exists (S i).
Qed.

(** The search starts at the first entry, with nothing linearized. *)
Definition start : Search St Inp Out := mkSearch h0 (new n) ∅ [] init (first ps None).

Lemma inv_start : inv start ∅ ps [] [].
Proof.
  split; simpl; try done.
  - constructor.
  - apply holds_new.
  - exists []. rewrite live_none. split; [done|]. by intros p ?%not_elem_of_nil.
  - intros D' b x _. rewrite lookup_empty. simpl. split; by intros ?%not_elem_of_nil.
  - constructor.
  - by intros x ?%not_elem_of_nil.
  - intros x c x' [->|?%not_elem_of_nil] Hs; [|done]. right. exists ps. split; [constructor|].
    apply linstep_live in Hs. cbn [fst] in Hs. by rewrite live_none in Hs.
  - by intros x [->|?%not_elem_of_nil] Hx.
Qed.
End search.
