(* ===== verification/LinSpec.v ===== *)
(** * Linearizability

    The definition of Herlihy and Wing on a list of entries, that [accepts] of the search
    is this definition, and what [check_single] returns for it. *)

From stdpp Require Import relations.
From S2P Require Import Prelude Bitset Lin LinHeap LinSearch.

(** [a] comes before [b] in a list. *)
Definition before {A} (a b : A) (l : list A) : Prop := ∃ k1 k2, l = k1 ++ a :: k2 ∧ b ∈ k2.

Section before.
Context {A : Type}.
Implicit Types (a b x : A) (l : list A).

Lemma before_cons a b x l : before a b (x :: l) ↔ (x = a ∧ b ∈ l) ∨ before a b l.
Proof.
  split.
  - intros ([|y k1] & k2 & Hl & Hb); simplify_eq/=; [by left|right; by exists k1, k2].
  - intros [[-> Hb]|(k1 & k2 & -> & Hb)]; [by exists [], l|by exists (x :: k1), k2].
Qed.

Lemma before_in a b l : before a b l → a ∈ l ∧ b ∈ l.
Proof. intros (k1 & k2 & -> & Hb). set_solver. Qed.

Lemma before_filter (P : A → Prop) `{!∀ x, Decision (P x)} a b l :
  before a b (filter P l) ↔ before a b l ∧ P a ∧ P b.
Proof.
  induction l as [|x l IH]; [split; [intros ([|] & ? & ? & _)|intros [([|] & ? & ? & _) _]]; done|].
  rewrite (before_cons _ _ x l). destruct (decide (P x)) as [Hx|Hx].
  - rewrite filter_cons_True, before_cons, IH, list_elem_of_filter by done. naive_solver.
  - rewrite filter_cons_False, IH by done. naive_solver.
Qed.

Lemma before_prefix a l1 c l2 : NoDup (l1 ++ c :: l2) → before a c (l1 ++ c :: l2) → a ∈ l1.
Proof.
  induction l1 as [|x l1 IH]; cbn [app]; rewrite NoDup_cons, before_cons; intros [Hx Hd].
  - intros [[-> Hc]|Hb]; [done|]. apply before_in in Hb. naive_solver.
  - intros [[-> _]|Hb]; [by constructor|]. constructor. by apply IH.
Qed.
End before.

Lemma elem_of_rev_seq p n : p ∈ rev (seq 0 n) ↔ p < n.
Proof. rewrite list_elem_of_In, <-in_rev, <-list_elem_of_In, elem_of_seq. lia. Qed.

Lemma before_rev_seq p q n : before p q (rev (seq 0 n)) ↔ q < p < n.
Proof.
  induction n as [|n IH]; [split; [intros ([|] & ? & ? & _); done|lia]|].
  rewrite seq_S, rev_app_distr, Nat.add_0_l. cbn [rev app]. rewrite before_cons, IH, elem_of_rev_seq. lia.
Qed.

(** ** The graph of configurations *)

Section orders.
Context {St Inp Out : Type} `{!Model St Inp Out}.
Context (h0 : Heap Inp Out) (hd : ptr) (ps : list ptr) (n : nat) (hist : history h0 hd ps n).

(** The ids are taken one after the other and the model accepts each. *)
Fixpoint plegal (s : St) (ids : list nat) : Prop :=
  match ids with
  | [] => True
  | id :: ids' => ∃ c m i o s', c ∈ ps ∧ call h0 c m i o ∧ idp h0 c = id ∧
                    step s i o = (true, s') ∧ plegal s' ids'
  end.

Record ordering (D : gset nat) (s : St) (ids : list nat) : Prop := {
  ord_nodup : NoDup ids;
  ord_ids : ∀ id, id ∈ ids ↔ ∃ p, p ∈ live h0 ps D ∧ idp h0 p = id;
  ord_legal : plegal s ids;
  ord_time : ∀ p q, before p q (live h0 ps D) → mt h0 p = None → mt h0 q ≠ None →
    before (idp h0 p) (idp h0 q) ids;
}.

Lemma live_union id D : live h0 ps ({[id]} ∪ D) = filter (λ p, idp h0 p ≠ id) (live h0 ps D).
Proof. unfold live. rewrite list_filter_filter. apply list_filter_iff. set_solver. Qed.

Lemma elem_live_union p id D :
  p ∈ live h0 ps ({[id]} ∪ D) ↔ idp h0 p ≠ id ∧ p ∈ live h0 ps D.
Proof. by rewrite live_union, list_elem_of_filter. Qed.

Lemma reaches_ordering x x' : rtc (λ x x', ∃ c, linstep h0 ps c x x') x x' →
  live h0 ps x'.1 = [] → ∃ ids, ordering x.1 x.2 ids.
Proof.
  intros Hx Hl. induction Hx as [x|x y x' (c & Hs) _ IH].
  { exists []. split; [constructor| |done|]; setoid_rewrite Hl.
    - intros id. split; [by intros ?%not_elem_of_nil|by intros (p & ?%not_elem_of_nil & _)].
    - by intros p q [?%not_elem_of_nil _]%before_in. }
  destruct (IH Hl) as (ids & [Hnd Hids Hleg Htime]).
  pose proof (NoDup_live _ _ _ _ hist x.1) as Hd.
  assert (∀ p, p ∈ live h0 ps x.1 → p ∈ ps) as Hps by (intros p Hp; by apply live_sub in Hp as []).
  destruct Hs as (l1 & rest & m & i & o & Hlive & Ho & Hc & Hstep & HD). rewrite HD in *.
  assert (c ∈ live h0 ps x.1) as Hcl by (rewrite Hlive; set_solver).
  setoid_rewrite elem_live_union in Hids. setoid_rewrite live_union in Htime.
  exists (idp h0 c :: ids). split.
  - constructor; [|done]. rewrite Hids. intros (p & [Hp _] & Heq). by apply Hp.
  - intros id. rewrite elem_of_cons, Hids. split.
    + intros [->|(p & [_ Hp] & <-)]; eauto.
    + intros (p & Hp & <-). destruct (decide (idp h0 p = idp h0 c)); eauto.
  - exists c, m, i, o, y.2. split_and!; try done. by apply Hps.
  - intros p q Hb Hp Hq. apply before_cons. destruct (before_in _ _ _ Hb) as [Hpl Hql].
    assert (idp h0 q ≠ idp h0 c) as Hqc.
    { intros Heq. destruct Hc as [Hc _].
      assert (q = c) as ->; [apply (hist_id _ _ _ _ hist); auto; by rewrite Hc|].
      rewrite Hlive in Hb, Hd. apply (Ho p); [|done]. by eapply before_prefix. }
    destruct (decide (idp h0 p = idp h0 c)) as [Hpc|Hpc]; [left|right].
    + split; [done|]. by apply Hids; exists q.
    + apply Htime; try done. by apply before_filter.
Qed.

Lemma ordering_reaches D s ids : ordering D s ids →
  ∃ x', rtc (λ x x', ∃ c, linstep h0 ps c x x') (D, s) x' ∧ live h0 ps x'.1 = [].
Proof.
  revert D s. induction ids as [|id ids IH]; intros D s [Hnd Hids Hleg Htime].
  { exists (D, s). split; [apply rtc_refl|]. simpl. destruct (live h0 ps D) as [|p l]; [done|].
    destruct (not_elem_of_nil (idp h0 p)). apply Hids. exists p. split; [constructor|done]. }
  destruct Hleg as (c & m & i & o & s' & Hc & Hcall & Hid & Hstep & Hleg).
  assert (c ∈ live h0 ps D) as Hcl.
  { apply list_elem_of_filter. split; [|done]. rewrite Hid.
    destruct (proj1 (Hids id)) as (p & Hp & <-); [constructor|]. by apply live_sub in Hp as []. }
  apply list_elem_of_split in Hcl as (l1 & rest & Hl). apply NoDup_cons in Hnd as [Hnid Hnd].
  assert (open h0 l1) as Ho.
  { intros p Hp Hr. assert (before p c (live h0 ps D)) as Hb.
    { apply list_elem_of_split in Hp as (k1 & k2 & ->). exists k1, (k2 ++ c :: rest).
      rewrite Hl, <-app_assoc. split; [done|set_solver]. }
    apply Htime in Hb; [|done|by destruct Hcall as [-> _]]. rewrite Hid, before_cons in Hb.
    destruct Hb as [[_ Hb]|[_ Hb]%before_in]; done. }
  destruct (IH ({[id]} ∪ D) s') as (x' & Hx & Hlx).
  { split; [done| |done|].
    - intros id'. setoid_rewrite elem_live_union. split.
      + intros Hin. destruct (proj1 (Hids id')) as (p & Hp & <-); [by constructor|].
        exists p. split_and!; [intros Heq; by rewrite Heq in Hin|done|done].
      + intros (p & [Hne Hp] & <-).
        assert (idp h0 p ∈ id :: ids) as [Heq|]%elem_of_cons by (apply Hids; eauto); [congruence|done].
    - intros p q. rewrite live_union, before_filter. intros (Hb & Hp & Hq) ??.
      apply Htime in Hb; [|done..]. rewrite before_cons in Hb. destruct Hb as [[Heq _]|]; [congruence|done]. }
  exists x'. split; [|done]. eapply rtc_l; [|exact Hx]. exists c. subst id. by exists l1, rest, m, i, o.
Qed.

Lemma accepts_ordering : accepts h0 ps ↔ ∃ ids, ordering ∅ init ids.
Proof.
  split.
  - intros (x & Hx & Hl). by apply (reaches_ordering _ _ Hx).
  - intros (ids & Ho). apply ordering_reaches in Ho as (x & Hx & Hl). by exists x.
Qed.
End orders.

(** ** Histories *)

Section histories.
Context {St Inp Out : Type} `{!Model St Inp Out}.
Implicit Types es r : list (Entry (Value Inp Out)).

(** Every call returns, every return was called, and ids are not shared. *)
Record matched es : Prop := {
  comp_call : ∀ i e, es !! i = Some e → e_kind e = CallEntry → ∃ inp j e' out,
    e_value e = Input inp ∧ i < j ∧ es !! j = Some e' ∧ e_kind e' = ReturnEntry ∧
    e_id e' = e_id e ∧ e_value e' = Output out;
  comp_return : ∀ j e, es !! j = Some e → e_kind e = ReturnEntry → ∃ i e',
    i < j ∧ es !! i = Some e' ∧ e_kind e' = CallEntry ∧ e_id e' = e_id e;
  comp_id : ∀ i j e e', es !! i = Some e → es !! j = Some e' → e_kind e = e_kind e' → e_id e = e_id e' → i = j;
}.

(** The ids fit the bit set. *)
Record complete es : Prop := {
  comp_matched :> matched es;
  comp_bound : ∀ e, e ∈ es → e_id e < length es / 2;
}.

(** An operation of the history. *)
Definition has_op es (id : nat) (inp : Inp) (out : Out) : Prop := ∃ e e',
  e ∈ es ∧ e_kind e = CallEntry ∧ e_id e = id ∧ e_value e = Input inp ∧
  e' ∈ es ∧ e_kind e' = ReturnEntry ∧ e_id e' = id ∧ e_value e' = Output out.

(** The model can take the operations one after the other. *)
Fixpoint legal es (s : St) (ids : list nat) : Prop :=
  match ids with
  | [] => True
  | id :: ids' => ∃ inp out s', has_op es id inp out ∧ step s inp out = (true, s') ∧ legal es s' ids'
  end.

(** A sequential order of all operations, in which an operation that returned before
    another was called comes first. *)
Record linearization es (ids : list nat) : Prop := {
  lin_nodup : NoDup ids;
  lin_all : ∀ id, id ∈ ids ↔ ∃ e, e ∈ es ∧ e_kind e = CallEntry ∧ e_id e = id;
  lin_legal : legal es init ids;
  lin_time : ∀ i j e e', i < j → es !! i = Some e → es !! j = Some e' →
    e_kind e = ReturnEntry → e_kind e' = CallEntry → before (e_id e) (e_id e') ids;
}.

Definition linearizable es : Prop := ∃ ids, linearization es ids.

(** ** The heap of a complete history *)

Lemma rev_lookup {A} (l : list A) i : i < length l → rev l !! i = l !! (length l - S i).
Proof. intros H. rewrite rev_alt. by apply reverse_lookup. Qed.

(** Entry [i] from the front is pointer [length es - 1 - i]. *)
Lemma rev_entry {A} (l : list A) i x : l !! i = Some x ↔ i < length l ∧ rev l !! (length l - S i) = Some x.
Proof.
  split.
  - intros H. pose proof (lookup_lt_Some _ _ _ H). split; [done|]. rewrite rev_lookup by lia.
    rewrite <-H. f_equal. lia.
  - intros [Hi H]. rewrite rev_lookup in H by lia. rewrite <-H. f_equal. lia.
Qed.

Section heap.
Context (es : list (Entry (Value Inp Out))) (Hes : complete es) (h : Heap Inp Out).
Let r := rev es.
Context (Hn : ∀ p e, r !! p = Some e → node_of r h p e).

Lemma node_idp p e : r !! p = Some e → idp h p = e_id e.
Proof. intros H. destruct (Hn p e H) as (nd & Hnd & _ & Hi & _). unfold idp. by rewrite Hnd. Qed.

Lemma node_value p e : r !! p = Some e → n_value <$> h !! p = Some (e_value e).
Proof. intros H. destruct (Hn p e H) as (nd & Hnd & Hv & _). rewrite Hnd. simpl. by rewrite Hv. Qed.

Lemma node_return p e : r !! p = Some e → e_kind e = ReturnEntry → mt h p = None.
Proof.
  intros H Hk. destruct (Hn p e H) as (nd & Hnd & _ & _ & Hm). rewrite Hk in Hm.
  unfold mt. by rewrite Hnd.
Qed.

Lemma rev_call p e : r !! p = Some e → e_kind e = CallEntry →
  ∃ q e' inp out, q < p ∧ r !! q = Some e' ∧ e_kind e' = ReturnEntry ∧ e_id e' = e_id e ∧
    e_value e = Input inp ∧ e_value e' = Output out.
Proof.
  intros H Hk. pose proof (lookup_lt_Some _ _ _ H) as Hp. unfold r in *. rewrite length_rev in Hp.
  rewrite rev_lookup in H by done.
  destruct (comp_call _ Hes _ _ H Hk) as (inp & j & e' & out & Hv & Hj & He' & Hk' & Hid & Hv').
  apply rev_entry in He' as [Hjl He'].
  exists (length es - S j), e', inp, out. split_and!; try done. lia.
Qed.

Lemma rev_id p q e e' : r !! p = Some e → r !! q = Some e' → e_kind e = e_kind e' → e_id e = e_id e' → p = q.
Proof.
  intros Hp Hq Hk Hi. pose proof (lookup_lt_Some _ _ _ Hp). pose proof (lookup_lt_Some _ _ _ Hq). unfold r in *.
  rewrite length_rev in *. rewrite rev_lookup in Hp, Hq by done.
  pose proof (comp_id _ Hes _ _ _ _ Hp Hq Hk Hi). lia.
Qed.

Lemma node_call p e : r !! p = Some e → e_kind e = CallEntry →
  ∃ q e' inp out, q < p ∧ r !! q = Some e' ∧ e_kind e' = ReturnEntry ∧ e_id e' = e_id e ∧
    e_value e = Input inp ∧ e_value e' = Output out ∧ call h p q inp out.
Proof.
  intros H Hk. destruct (rev_call p e H Hk) as (q & e' & inp & out & Hq & He' & Hk' & Hi & Hv & Hv').
  exists q, e', inp, out. split_and!; try done. destruct (Hn p e H) as (nd & Hnd & Hnv & _ & Hm).
  rewrite Hk in Hm. split_and!; [|by rewrite (node_value _ _ H), Hv|by rewrite (node_value _ _ He'), Hv'].
  unfold mt. rewrite Hnd. simpl. destruct (n_matched nd) as [q'|]; simpl in Hm.
  - destruct Hm as (e2 & He2 & Hk2 & Hi2). rewrite lookup_take_Some in He2. destruct He2 as [He2 _].
    f_equal. eapply rev_id; [done..|congruence|congruence].
  - exfalso. apply (Hm q e'); [|done..]. by apply lookup_take_Some.
Qed.

(** The kind of an entry shows in its match. *)
Lemma node_mt p e : r !! p = Some e → mt h p = None ↔ e_kind e = ReturnEntry.
Proof.
  intros H. split; [|by apply node_return]. intros Hm. destruct (e_kind e) eqn:Hk; [|done].
  destruct (node_call p e H Hk) as (q & e' & inp & out & _ & _ & _ & _ & _ & _ & Hc & _). congruence.
Qed.

Lemma rev_at p : p ∈ rev (seq 0 (length es)) → ∃ e, r !! p = Some e.
Proof. intros Hp%elem_of_rev_seq. apply lookup_lt_is_Some. unfold r. by rewrite length_rev. Qed.

Lemma heap_history : dll h (length es :: rev (seq 0 (length es))) →
  history h (length es) (rev (seq 0 (length es))) (length es / 2).
Proof.
  intros Hd. split; [done|..].
  - intros p m (e & He)%rev_at Hm.
    assert (e_kind e = CallEntry) as Hk.
    { destruct (e_kind e) eqn:Hk; [done|]. rewrite (node_return _ _ He Hk) in Hm. done. }
    destruct (node_call p e He Hk) as (q & e' & inp & out & Hq & He' & Hk' & Hi & _ & _ & Hc).
    assert (q = m) as -> by (destruct Hc; congruence). split_and!; [by exists inp, out| |by eapply node_return|].
    + by rewrite (node_idp _ _ He), (node_idp _ _ He').
    + pose proof (lookup_lt_Some _ _ _ He) as Hlt. unfold r in Hlt. rewrite length_rev in Hlt.
      destruct (proj2 (before_rev_seq p m (length es))) as (k1 & k2 & -> & Hin); [lia|].
      apply list_elem_of_split in Hin as (l2 & l3 & ->). by exists k1, l2, l3.
  - intros q (e & He)%rev_at Hm. apply (node_mt _ _ He) in Hm.
    pose proof (lookup_lt_Some _ _ _ He) as Hlt. unfold r in Hlt, He. rewrite length_rev in Hlt.
    rewrite rev_lookup in He by done.
    destruct (comp_return _ Hes _ _ He Hm) as (i & e' & Hi & He' & Hk' & Hid).
    apply rev_entry in He' as [Hil He']. exists (length es - S i). split; [apply elem_of_rev_seq; lia|].
    destruct (node_call _ _ He' Hk') as (q' & e2 & inp & out & _ & He2 & Hk2 & Hid2 & _ & _ & Hc & _).
    rewrite Hc. f_equal. rewrite <-rev_lookup in He by done. eapply rev_id; [done..|congruence|congruence].
  - intros p q (e & He)%rev_at (e' & He')%rev_at Hi Hk.
    rewrite (node_idp _ _ He), (node_idp _ _ He') in Hi. rewrite (node_mt _ _ He), (node_mt _ _ He') in Hk.
    eapply rev_id; [done..| |done]. destruct (e_kind e), (e_kind e'); try done;
      [discriminate (proj2 Hk eq_refl)|discriminate (proj1 Hk eq_refl)].
  - intros p (e & He)%rev_at. rewrite (node_idp _ _ He). apply (comp_bound _ Hes).
    apply list_elem_of_lookup_2 in He. unfold r in He. by rewrite list_elem_of_In, <-in_rev, <-list_elem_of_In in He.
Qed.

Lemma elem_rev p e : r !! p = Some e → e ∈ es.
Proof.
  intros He%list_elem_of_lookup_2. unfold r in He. by rewrite list_elem_of_In, <-in_rev, <-list_elem_of_In in He.
Qed.

Lemma rev_elem e : e ∈ es → ∃ p, p ∈ rev (seq 0 (length es)) ∧ r !! p = Some e.
Proof.
  intros [i Hi]%list_elem_of_lookup. apply rev_entry in Hi as [Hi He]. eexists. split; [|exact He].
  apply elem_of_rev_seq. lia.
Qed.

Lemma legal_plegal s ids : legal es s ids ↔ plegal h (rev (seq 0 (length es))) s ids.
Proof.
  revert s. induction ids as [|id ids IH]; intros s; simpl; [done|]. split.
  - intros (inp & out & s' & (e & e' & He & Hk & Hi & Hv & He' & Hk' & Hi' & Hv') & Hs & Hl).
    apply rev_elem in He as (p & Hp & He). apply rev_elem in He' as (q & Hq & He').
    destruct (node_call _ _ He Hk) as (q' & e2 & inp' & out' & _ & He2 & Hk2 & Hi2 & Hv2 & Hv2' & Hc).
    assert (q' = q) as -> by (eapply rev_id; [done..|congruence|congruence]).
    rewrite He' in He2. injection He2 as <-. assert (inp' = inp) as -> by congruence.
    assert (out' = out) as -> by congruence. exists p, q, inp, out, s'.
    split_and!; [done|done|by rewrite (node_idp _ _ He)|done|by apply IH].
  - intros (p & q & inp & out & s' & Hp & Hc & Hid & Hs & Hl). apply rev_at in Hp as (e & He).
    exists inp, out, s'. split_and!; [|done|by apply IH].
    assert (e_kind e = CallEntry) as Hk.
    { destruct (e_kind e) eqn:Hk; [done|]. destruct Hc as [Hc _]. rewrite (node_return _ _ He Hk) in Hc. done. }
    destruct (node_call _ _ He Hk) as (q' & e' & inp' & out' & _ & He' & Hk' & Hi' & Hv & Hv' & Hc').
    destruct (call_fun _ _ _ _ _ _ _ _ Hc Hc') as (-> & -> & ->). rewrite (node_idp _ _ He) in Hid.
    exists e, e'. split_and!; try done; [by eapply elem_rev|by eapply elem_rev|congruence].
Qed.

Lemma ordering_linearization ids :
  ordering h (rev (seq 0 (length es))) ∅ init ids ↔ linearization es ids.
Proof.
  assert (∀ id, (∃ p, p ∈ live h (rev (seq 0 (length es))) ∅ ∧ idp h p = id) ↔
                (∃ e, e ∈ es ∧ e_kind e = CallEntry ∧ e_id e = id)) as Hids.
  { intros id. rewrite live_none. split.
    - intros (p & (e & He)%rev_at & <-). rewrite (node_idp _ _ He). destruct (e_kind e) eqn:Hk.
      + exists e. split; [by eapply elem_rev|done].
      + pose proof (lookup_lt_Some _ _ _ He) as Hlt. unfold r in Hlt, He. rewrite length_rev in Hlt.
        rewrite rev_lookup in He by done. destruct (comp_return _ Hes _ _ He Hk) as (i & e' & _ & He' & Hk' & Hid).
        exists e'. split; [by eapply list_elem_of_lookup_2|done].
    - intros (e & (p & Hp & He)%rev_elem & Hk & <-). exists p. split; [done|by apply node_idp]. }
  split; intros [Hd Hi Hl Ht]; (split; [done| | |]).
  - intros id. by rewrite Hi, Hids.
  - by apply legal_plegal.
  - intros i j e e' Hij [Hil He]%rev_entry [Hjl He']%rev_entry Hk Hk'.
    rewrite <-(node_idp _ _ He), <-(node_idp _ _ He'). apply Ht; rewrite ?live_none.
    + apply before_rev_seq. lia.
    + by apply (node_mt _ _ He).
    + rewrite (node_mt _ _ He'). congruence.
  - intros id. by rewrite Hi, Hids.
  - by apply legal_plegal.
  - intros p q Hb Hp Hq. rewrite live_none in Hb. destruct (before_in _ _ _ Hb) as [(e & He)%rev_at (e' & He')%rev_at].
    rewrite (node_idp _ _ He), (node_idp _ _ He'). rewrite (node_mt _ _ He) in Hp. rewrite (node_mt _ _ He') in Hq.
    apply before_rev_seq in Hb. pose proof He as He1. pose proof He' as He1'. unfold r in He1, He1'.
    rewrite rev_lookup in He1, He1' by lia. eapply Ht; [|exact He1|exact He1'|done|]; [lia|].
    by destruct (e_kind e').
Qed.
End heap.
End histories.

(** ** What [check_single] returns *)

Section check.
Context {St Inp Out : Type} `{!Model St Inp Out}.
Context (equal_spec : ∀ s1 s2 : St, equal s1 s2 = true ↔ s1 = s2).

(** The search starts on the heap of the history. *)
Lemma setup_ok (es : list (Entry (Value Inp Out))) : complete es →
  let N := length es in ∃ h, setup (from_entries es) = (N, start h (rev (seq 0 N)) (N / 2)) ∧
    history h N (rev (seq 0 N)) (N / 2) ∧ (accepts h (rev (seq 0 N)) ↔ linearizable es).
Proof.
  intros Hes N. destruct (from_entries_built es) as (matches & Hb).
  set (l := from_entries es) in *.
  assert (length (rev es) = N) as HN by apply length_rev.
  assert (len l = N) as Hlen.
  { rewrite (len_ok _ _ (built_dll _ _ _ Hb) (built_head _ _ _ Hb)). by rewrite length_rev, length_seq, HN. }
  destruct (push_alloc l _ (mkNode ValueNone None 0 None None) (built_dll _ _ _ Hb) (built_head _ _ _ Hb)
              (built_dom _ _ _ Hb)) as (Hd & _ & _ & _ & Hdata); [done..|].
  pose proof (built_fresh _ _ _ Hb) as Hf. rewrite HN in *.
  set (l' := push_front (fresh l) (alloc (mkNode ValueNone None 0 None None) l)) in *.
  rewrite Hf in Hd.
  assert (∀ p e, rev es !! p = Some e → node_of (rev es) (heap l') p e) as Hn.
  { intros p e He. eapply node_of_data; [exact Hdata|]. destruct (built_node _ _ _ Hb p e He) as (nd & Hnd & ?).
    exists nd. split; [|done]. rewrite lookup_insert_ne; [done|]. apply lookup_lt_Some in He. lia. }
  pose proof (heap_history es Hes (heap l') Hn Hd) as Hist. fold N in Hist.
  exists (heap l'). split_and!; [|done|].
  - unfold setup. rewrite Hlen, Hf. f_equal. unfold start. rewrite <-Hf. fold l'. f_equal.
    destruct (dll_node _ [] _ _ Hd) as (nd & Hnd & _ & Hnx). rewrite Hf, Hnd. cbn. by rewrite Hnx.
  - rewrite (accepts_ordering _ _ _ _ Hist). unfold linearizable.
    split; intros [ids Ho]; exists ids; by apply (ordering_linearization es Hes (heap l') Hn).
Qed.

Lemma check_single_ok (es : list (Entry (Value Inp Out))) kill : complete es →
  ∃ k0, ∀ k, k0 ≤ k → ∃ b, check_single k (from_entries es) kill = Ok b ∧
    (b = true → linearizable es) ∧ (b = false → linearizable es → ∃ i, kill i = true).
Proof.
  intros Hes. destruct (setup_ok es Hes) as (h & Hset & Hist & Hacc).
  eexists. intros k Hk. unfold check_single. rewrite Hset. setoid_rewrite <-Hacc.
  apply (search_loop_ok _ _ _ _ Hist equal_spec k _ _ _ _ _ kill (inv_start _ _ _ _ Hist)). exact Hk.
Qed.
End check.
