(* ===== verification/LinOps.v ===== *)
(** * From operations and events to entries

    [make_entries] sorts the calls and returns of the operations by time; [renumber]
    numbers the ids of events from zero. Both give complete histories, with the same
    sequential orders as what they were given. *)

From S2P Require Import Prelude Bitset Lin LinHeap LinSearch LinSpec.

Section operations.
Context {St Inp Out : Type} `{!Model St Inp Out}.
Implicit Types (ops : list (Operation Inp Out)) (e : Entry (Value Inp Out)) (es : list (Entry (Value Inp Out))).

(** ** Sequential orders of operations *)

(** Operation [i] is over before operation [j] begins. At equal times the positions
    in the history decide. *)
Definition precedes ops (i j : nat) : Prop := ∃ a b, ops !! i = Some a ∧ ops !! j = Some b ∧
  (op_finish a < op_call b ∨ op_finish a = op_call b ∧ (i < j)%nat)%Z.

Fixpoint legal_ops ops (s : St) (ids : list nat) : Prop :=
  match ids with
  | [] => True
  | id :: ids' => ∃ a s', ops !! id = Some a ∧ step s (op_input a) (op_output a) = (true, s') ∧
                          legal_ops ops s' ids'
  end.

Record ops_linearization ops (ids : list nat) : Prop := {
  olin_perm : ids ≡ₚ seq 0 (length ops);
  olin_legal : legal_ops ops init ids;
  olin_time : ∀ i j, precedes ops i j → before i j ids;
}.

Definition ops_linearizable ops : Prop := ∃ ids, ops_linearization ops ids.

(** Whatever is legal for the outputs of [ops] is legal for those of [ops'], and what [ops']
    orders [ops] orders as well. *)
Lemma replayed_linearizable ops ops' : length ops' = length ops →
  (∀ i a b, ops !! i = Some a → ops' !! i = Some b → op_input b = op_input a ∧
     ∀ s s', step s (op_input a) (op_output a) = (true, s') → step s (op_input a) (op_output b) = (true, s')) →
  (∀ i j, precedes ops' i j → precedes ops i j) → ops_linearizable ops → ops_linearizable ops'.
Proof.
  intros Hlen Hops Hprec [ids [Hperm Hlegal Htime]]. exists ids. split.
  - by rewrite Hlen.
  - revert Hlegal. generalize init. clear Hperm Htime. induction ids as [|id ids IH]; intros s; [done|].
    intros (a & s' & Ha & Hs & Hl). destruct (lookup_lt_is_Some_2 ops' id) as [b Hb]; [rewrite Hlen; by eapply lookup_lt_Some|].
    destruct (Hops _ _ _ Ha Hb) as [Hin Hstep]. exists b, s'. rewrite Hin. auto.
  - auto.
Qed.

(** The same operations with other times. *)
Definition retime (f : Z → Z) (a : Operation Inp Out) : Operation Inp Out :=
  mkOp (op_input a) (f (op_call a)) (op_output a) (f (op_finish a)).

(** ** The stable sort *)

(** The place of an entry in the list that is sorted. *)
Definition rank e : nat := 2 * e_id e + match e_kind e with CallEntry => 0 | ReturnEntry => 1 end.

Definition sooner e e' : Prop := (e_time e < e_time e' ∨ e_time e = e_time e' ∧ (rank e < rank e')%nat)%Z.

#[export] Instance sooner_trans : Transitive sooner.
Proof. intros a b c. unfold sooner. lia. Qed.

Lemma insert_by_time_perm e es : insert_by_time e es ≡ₚ e :: es.
Proof.
  induction es as [|x es IH]; simpl; [done|]. destruct (_ <? _)%Z; [done|]. rewrite IH. constructor.
Qed.

Lemma insert_by_time_sorted e es : StronglySorted sooner es → Forall (λ x, rank x < rank e) es →
  StronglySorted sooner (insert_by_time e es).
Proof.
  intros Hs Hr. induction Hs as [|x es Hs IH Hx]; simpl; [by repeat constructor|].
  apply Forall_cons in Hr as [Hrx Hr]. destruct (Z.ltb_spec (e_time e) (e_time x)) as [Ht|Ht].
  - constructor; [by constructor|]. constructor; [by left|].
    eapply Forall_impl; [exact Hx|]. intros y Hy. etrans; [|exact Hy]. by left.
  - constructor; [by apply IH|]. rewrite insert_by_time_perm. constructor; [|done]. unfold sooner. lia.
Qed.

Lemma sort_loop_ok es : ∀ acc, StronglySorted sooner acc →
  StronglySorted (λ x y, rank x < rank y) es → (∀ x y, x ∈ acc → y ∈ es → rank x < rank y) →
  StronglySorted sooner (foldl (λ acc e, insert_by_time e acc) acc es) ∧
  foldl (λ acc e, insert_by_time e acc) acc es ≡ₚ acc ++ es.
Proof.
  induction es as [|e es IH]; intros acc Ha Hs Hlt; simpl; [by rewrite app_nil_r|].
  apply StronglySorted_inv in Hs as [Hs He].
  destruct (IH (insert_by_time e acc)) as [H1 H2]; [|done| |].
  - apply insert_by_time_sorted; [done|]. apply Forall_forall. intros x Hx. apply Hlt; [done|constructor].
  - intros x y Hx Hy. rewrite insert_by_time_perm in Hx. apply elem_of_cons in Hx as [->|Hx].
    + rewrite Forall_forall in He. by apply He.
    + apply Hlt; [done|by constructor].
  - split; [done|]. rewrite H2, insert_by_time_perm. apply (Permutation_middle acc es e).
Qed.

Lemma sort_by_time_ok es : StronglySorted (λ x y, rank x < rank y) es →
  StronglySorted sooner (sort_by_time es) ∧ sort_by_time es ≡ₚ es.
Proof. intros Hs. apply (sort_loop_ok es [] ltac:(constructor) Hs). by intros x y ?%not_elem_of_nil. Qed.

(** ** The entries of operations *)

Definition call_entry (id : nat) (a : Operation Inp Out) : Entry (Value Inp Out) :=
  mkEntry CallEntry (Input (op_input a)) id (op_call a).
Definition return_entry (id : nat) (a : Operation Inp Out) : Entry (Value Inp Out) :=
  mkEntry ReturnEntry (Output (op_output a)) id (op_finish a).

Definition unsorted (k : nat) ops : list (Entry (Value Inp Out)) :=
  mjoin (imap (λ id a, [call_entry (k + id) a; return_entry (k + id) a]) ops).

Lemma unsorted_cons k a ops :
  unsorted k (a :: ops) = call_entry k a :: return_entry k a :: unsorted (S k) ops.
Proof.
  unfold unsorted. rewrite imap_cons. cbn [mjoin list_join app]. rewrite Nat.add_0_r. do 2 f_equal.
  f_equal. apply imap_ext. intros i x _. simpl. by rewrite Nat.add_succ_r.
Qed.

Lemma elem_of_unsorted k ops e : e ∈ unsorted k ops ↔
  ∃ i a, ops !! i = Some a ∧ (e = call_entry (k + i) a ∨ e = return_entry (k + i) a).
Proof.
  unfold unsorted. rewrite list_elem_of_join. setoid_rewrite elem_of_lookup_imap. split.
  - intros (l & Hel & i & a & -> & Hi). exists i, a. set_solver.
  - intros (i & a & Hi & He). eexists. split; [|by exists i, a]. set_solver.
Qed.

Lemma unsorted_sorted ops k : StronglySorted (λ x y, rank x < rank y) (unsorted k ops).
Proof.
  revert k. induction ops as [|a ops IH]; intros k; [constructor|]. rewrite unsorted_cons.
  assert (∀ y, y ∈ unsorted (S k) ops → 2 * k + 1 < rank y) as Hlt.
  { intros y (i & b & _ & [->| ->])%elem_of_unsorted; unfold rank; simpl; lia. }
  repeat constructor; [apply IH|..].
  - apply Forall_forall. intros y Hy. specialize (Hlt y Hy). unfold rank at 1. simpl. lia.
  - unfold rank. simpl. lia.
  - apply Forall_forall. intros y Hy. specialize (Hlt y Hy). unfold rank at 1. simpl. lia.
Qed.

Lemma length_unsorted k ops : length (unsorted k ops) = 2 * length ops.
Proof.
  revert k. induction ops as [|a ops IH]; intros k; [done|]. rewrite unsorted_cons. cbn [length].
  rewrite IH. lia.
Qed.

Lemma make_entries_ok ops : StronglySorted sooner (make_entries ops) ∧ make_entries ops ≡ₚ unsorted 0 ops.
Proof. apply (sort_by_time_ok (unsorted 0 ops)), unsorted_sorted. Qed.

Lemma elem_of_make_entries ops e : e ∈ make_entries ops ↔
  ∃ i a, ops !! i = Some a ∧ (e = call_entry i a ∨ e = return_entry i a).
Proof. rewrite (proj2 (make_entries_ok ops)). apply (elem_of_unsorted 0). Qed.

Lemma length_make_entries ops : length (make_entries ops) = 2 * length ops.
Proof. rewrite (proj2 (make_entries_ok ops)). apply length_unsorted. Qed.

(** The positions of entries are their order in time. *)
Lemma sorted_lookup es i j e e' : StronglySorted sooner es → es !! i = Some e → es !! j = Some e' →
  i < j → sooner e e'.
Proof.
  intros Hs. revert i j. induction Hs as [|x es Hs IH Hx]; intros i j Hi Hj Hlt; [done|].
  destruct j as [|j]; [lia|]. simpl in Hj. rewrite Forall_forall in Hx. destruct i as [|i]; simplify_eq/=.
  - apply Hx. by eapply list_elem_of_lookup_2.
  - apply (IH i j); [done..|lia].
Qed.

Lemma sooner_irrefl e : ¬ sooner e e.
Proof. unfold sooner. lia. Qed.

Lemma sorted_order es i j e e' : StronglySorted sooner es → es !! i = Some e → es !! j = Some e' →
  sooner e e' → i < j.
Proof.
  intros Hs Hi Hj He. destruct (Nat.lt_trichotomy i j) as [|[->|Hlt]]; [done|..].
  - simplify_eq. by destruct (sooner_irrefl e).
  - destruct (sooner_irrefl e). etrans; [exact He|]. by eapply sorted_lookup.
Qed.

(** Two entries of the same kind and id are the same. *)
Lemma entry_eq ops e e' : e ∈ make_entries ops → e' ∈ make_entries ops →
  e_kind e = e_kind e' → e_id e = e_id e' → e = e'.
Proof.
  intros (i & a & Ha & He)%elem_of_make_entries (j & b & Hb & He')%elem_of_make_entries Hk Hi.
  destruct He as [->| ->], He' as [->| ->]; simplify_eq/=; done.
Qed.

Definition in_time ops : Prop := ∀ a, a ∈ ops → (op_call a <= op_finish a)%Z.

Lemma make_entries_complete ops : in_time ops → complete (make_entries ops).
Proof.
  intros Ht. destruct (make_entries_ok ops) as [Hs _].
  assert (∀ i a, ops !! i = Some a → sooner (call_entry i a) (return_entry i a)) as Hcr.
  { intros i a Ha%list_elem_of_lookup_2. apply Ht in Ha. unfold sooner, rank. simpl. lia. }
  assert (∀ i a, ops !! i = Some a → call_entry i a ∈ make_entries ops ∧ return_entry i a ∈ make_entries ops) as Hin.
  { intros i a Ha. rewrite !elem_of_make_entries. eauto 10. }
  split; [split|].
  - intros i e He Hk. pose proof (list_elem_of_lookup_2 _ _ _ He) as (id & a & Ha & [->| ->])%elem_of_make_entries;
      [|done]. destruct (Hin _ _ Ha) as [_ [j Hj]%list_elem_of_lookup].
    exists (op_input a), j, (return_entry id a), (op_output a). split_and!; try done.
    eapply sorted_order; [done..|]. by apply Hcr.
  - intros j e He Hk. pose proof (list_elem_of_lookup_2 _ _ _ He) as (id & a & Ha & [->| ->])%elem_of_make_entries;
      [done|]. destruct (Hin _ _ Ha) as [[i Hi]%list_elem_of_lookup _].
    exists i, (call_entry id a). split_and!; try done. eapply sorted_order; [done..|]. by apply Hcr.
  - intros i j e e' Hi Hj Hk Hid.
    assert (e = e') as -> by (eapply entry_eq; eauto using list_elem_of_lookup_2).
    destruct (Nat.lt_trichotomy i j) as [Hlt|[->|Hlt]]; [|done|];
      destruct (sooner_irrefl e').
    + exact (sorted_lookup _ _ _ _ _ Hs Hi Hj Hlt).
    + exact (sorted_lookup _ _ _ _ _ Hs Hj Hi Hlt).
  - intros e (i & a & Ha%lookup_lt_Some & He)%elem_of_make_entries. rewrite length_make_entries.
    replace (2 * length ops) with (length ops * 2) by lia. rewrite Nat.div_mul by done.
    by destruct He as [->| ->].
Qed.

Lemma has_op_entries ops id inp out : has_op (make_entries ops) id inp out ↔
  ∃ a, ops !! id = Some a ∧ op_input a = inp ∧ op_output a = out.
Proof.
  split.
  - intros (e & e' & (i & a & Ha & He)%elem_of_make_entries & Hk & Hi & Hv &
            (j & b & Hb & He')%elem_of_make_entries & Hk' & Hi' & Hv').
    destruct He as [->| ->], He' as [->| ->]; simplify_eq/=. eauto.
  - intros (a & Ha & <- & <-). exists (call_entry id a), (return_entry id a).
    rewrite !elem_of_make_entries. split_and!; eauto 10.
Qed.

Lemma legal_entries ops s ids : legal (make_entries ops) s ids ↔ legal_ops ops s ids.
Proof.
  revert s. induction ids as [|id ids IH]; intros s; simpl; [done|]. setoid_rewrite has_op_entries.
  setoid_rewrite IH. naive_solver.
Qed.

Lemma precedes_entries ops i j a b : ops !! i = Some a → ops !! j = Some b →
  precedes ops i j ↔ sooner (return_entry i a) (call_entry j b).
Proof.
  intros Ha Hb. unfold sooner, rank. simpl. split.
  - intros (a' & b' & ? & ? & ?). simplify_eq. lia.
  - intros ?. exists a, b. split_and!; [done|done|lia].
Qed.

Lemma make_entries_linearizable ops : linearizable (make_entries ops) ↔ ops_linearizable ops.
Proof.
  destruct (make_entries_ok ops) as [Hs _].
  assert (∀ id, (∃ e, e ∈ make_entries ops ∧ e_kind e = CallEntry ∧ e_id e = id) ↔ id ∈ seq 0 (length ops)) as Hids.
  { intros id. rewrite elem_of_seq. split.
    - intros (e & (i & a & Ha%lookup_lt_Some & [->| ->])%elem_of_make_entries & ? & <-); simpl; [lia|done].
    - intros [_ [a Ha]%lookup_lt_is_Some]. exists (call_entry id a). rewrite elem_of_make_entries. eauto 10. }
  split; intros [ids [Hd Hi Hl Ht]] || intros [ids [Hp Hl Ht]]; exists ids; split; rewrite ?legal_entries in *; try done.
  - apply NoDup_Permutation; [done|apply NoDup_seq|]. intros id. by rewrite Hi, Hids.
  - intros i j Hij. pose proof Hij as (a & b & Ha & Hb & _). rewrite (precedes_entries _ _ _ _ _ Ha Hb) in Hij.
    assert (return_entry i a ∈ make_entries ops) as [k Hk]%list_elem_of_lookup by (rewrite elem_of_make_entries; eauto 10).
    assert (call_entry j b ∈ make_entries ops) as [k' Hk']%list_elem_of_lookup by (rewrite elem_of_make_entries; eauto 10).
    apply (Ht k k' (return_entry i a) (call_entry j b)); [|done..]. by eapply sorted_order.
  - rewrite Hp. apply NoDup_seq.
  - intros id. by rewrite Hp, Hids.
  - intros k k' e e' Hlt He He' Hk Hk'. pose proof (sorted_lookup _ _ _ _ _ Hs He He' Hlt) as Hee.
    pose proof (list_elem_of_lookup_2 _ _ _ He) as (i & a & Ha & [->| ->])%elem_of_make_entries; [done|].
    pose proof (list_elem_of_lookup_2 _ _ _ He') as (j & b & Hb & [->| ->])%elem_of_make_entries; [|done].
    apply Ht. by apply (precedes_entries _ _ _ _ _ Ha Hb).
Qed.
End operations.

(** ** Renaming ids *)

Section relabel.
Context {St Inp Out : Type} `{!Model St Inp Out}.
Implicit Types (es : list (Entry (Value Inp Out))) (e : Entry (Value Inp Out)).

Definition with_id (f : nat → nat) e : Entry (Value Inp Out) :=
  mkEntry (e_kind e) (e_value e) (f (e_id e)) (e_time e).

(** [g] undoes [f] on the ids of the history. *)
Definition undoes (g f : nat → nat) es : Prop := ∀ e, e ∈ es → g (f (e_id e)) = e_id e.

Lemma undoes_inj g f es e e' : undoes g f es → e ∈ es → e' ∈ es →
  f (e_id e) = f (e_id e') → e_id e = e_id e'.
Proof. intros Hu He He' Hf. rewrite <-(Hu e He), <-(Hu e' He'). by f_equal. Qed.

Lemma undo g f es : undoes g f es → with_id g <$> (with_id f <$> es) = es.
Proof.
  intros Hu. rewrite <-list_fmap_compose. rewrite <-(list_fmap_id es) at 2. apply list_fmap_ext.
  intros i e He%list_elem_of_lookup_2. unfold compose, with_id. simpl. rewrite (Hu e He). by destruct e.
Qed.

Lemma undoes_back g f es : undoes g f es → undoes f g (with_id f <$> es).
Proof. intros Hu e (e' & -> & He)%list_elem_of_fmap. simpl. by rewrite (Hu e' He). Qed.

Lemma relabel_lookup f es i e : (with_id f <$> es) !! i = Some e ↔ ∃ e', es !! i = Some e' ∧ e = with_id f e'.
Proof. rewrite list_lookup_fmap, fmap_Some. done. Qed.

Lemma relabel_matched g f es : undoes g f es → matched es → matched (with_id f <$> es).
Proof.
  intros Hu [Hc Hr Hi]. split.
  - intros i e0 (e & He & ->)%relabel_lookup Hk. destruct (Hc i e He Hk) as (inp & j & e' & out & Hv & Hij & He' & Hk' & Hid & Hv').
    exists inp, j, (with_id f e'), out. rewrite relabel_lookup. split_and!; try done; [by exists e'|]. simpl. congruence.
  - intros j e0 (e & He & ->)%relabel_lookup Hk. destruct (Hr j e He Hk) as (i & e' & Hij & He' & Hk' & Hid).
    exists i, (with_id f e'). rewrite relabel_lookup. split_and!; try done; [by exists e'|]. simpl. congruence.
  - intros i j e0 e0' (e & He & ->)%relabel_lookup (e' & He' & ->)%relabel_lookup Hk Hid.
    apply (Hi i j e e'); [done..|]. eapply undoes_inj; [done|by eapply list_elem_of_lookup_2..|done].
Qed.

Lemma before_fmap (f : nat → nat) a b l : before a b l → before (f a) (f b) (f <$> l).
Proof.
  intros (k1 & k2 & -> & Hb). exists (f <$> k1), (f <$> k2). rewrite fmap_app. split; [done|].
  by apply list_elem_of_fmap_2.
Qed.

Lemma relabel_legal f es s ids : legal es s ids → legal (with_id f <$> es) s (f <$> ids).
Proof.
  revert s. induction ids as [|id ids IH]; intros s; simpl; [done|].
  intros (inp & out & s' & (e & e' & He & Hk & Hi & Hv & He' & Hk' & Hi' & Hv') & Hs & Hl).
  exists inp, out, s'. split_and!; [|done|by apply IH]. exists (with_id f e), (with_id f e').
  split_and!; try done; try (by apply list_elem_of_fmap_2); simpl; congruence.
Qed.

Lemma relabel_linearization g f es ids : undoes g f es → linearization es ids →
  linearization (with_id f <$> es) (f <$> ids).
Proof.
  intros Hu [Hd Hi Hl Ht].
  assert (∀ id, id ∈ ids → ∃ e, e ∈ es ∧ e_kind e = CallEntry ∧ e_id e = id) as Hin by (intros id; apply Hi).
  split.
  - clear Hi Hl Ht. induction Hd as [|id ids Hn Hd IH]; simpl; constructor; [|apply IH; set_solver].
    intros (id' & Hf & Hid')%list_elem_of_fmap. destruct (Hin id) as (e & He & _ & <-); [constructor|].
    destruct (Hin id') as (e' & He' & _ & <-); [by constructor|].
    apply Hn. rewrite (undoes_inj g f es e e'); done.
  - intros y. rewrite list_elem_of_fmap. split.
    + intros (id & -> & Hid). destruct (Hin id Hid) as (e & He & Hk & <-).
      exists (with_id f e). split_and!; try done. by apply list_elem_of_fmap_2.
    + intros (e0 & (e & -> & He)%list_elem_of_fmap & Hk & <-). exists (e_id e). split; [done|].
      apply Hi. by exists e.
  - by apply relabel_legal.
  - intros i j e0 e0' Hij (e & He & ->)%relabel_lookup (e' & He' & ->)%relabel_lookup Hk Hk'. simpl.
    apply before_fmap. by apply (Ht i j e e').
Qed.

Lemma relabel_linearizable g f es : undoes g f es → linearizable (with_id f <$> es) ↔ linearizable es.
Proof.
  intros Hu. split; intros [ids Hl].
  - exists (g <$> ids). rewrite <-(undo g f es Hu). by eapply relabel_linearization, Hl; apply undoes_back.
  - exists (f <$> ids). by eapply relabel_linearization.
Qed.
End relabel.

(** ** Renumbered events *)

Section events.
Context {St Inp Out : Type} `{!Model St Inp Out}.
Implicit Types (evs : list (Event (Value Inp Out))).

(** The numbers given so far: one each, from zero. *)
Record numbering (m : gmap nat nat) (id : nat) : Prop := {
  num_size : id = size m;
  num_bound : ∀ x i, m !! x = Some i → i < id;
  num_inj : ∀ x y i, m !! x = Some i → m !! y = Some i → x = y;
}.

Lemma numbering_insert m id x : numbering m id → m !! x = None → numbering (<[x := id]> m) (S id).
Proof.
  intros [Hs Hb Hi] Hx. split.
  - rewrite map_size_insert_None by done. lia.
  - intros y i. rewrite lookup_insert. case_decide; [intros [= <-]; lia|]. intros ?%Hb. lia.
  - intros y z i. rewrite !lookup_insert. do 2 case_decide; subst; try done.
    + intros [= <-] ?%Hb. lia.
    + intros ?%Hb [= <-]. lia.
    + by apply Hi.
Qed.

Definition with_number (m : gmap nat nat) (ev : Event (Value Inp Out)) : Event (Value Inp Out) :=
  mkEvent (ev_kind ev) (ev_value ev) (m !!! ev_id ev).

Lemma renumber_loop_ok evs : ∀ m id, numbering m id → ∃ m' id', numbering m' id' ∧ m ⊆ m' ∧
  dom m' = dom m ∪ list_to_set (ev_id <$> evs) ∧ renumber_loop evs m id = with_number m' <$> evs.
Proof.
  induction evs as [|ev evs IH]; intros m id Hm; simpl.
  { exists m, id. split_and!; [done|done|set_solver|done]. }
  destruct (m !! ev_id ev) as [i|] eqn:Hev.
  - destruct (IH m id Hm) as (m' & id' & Hm' & Hsub & Hdom & ->). exists m', id'. split_and!; [done|done| |].
    + rewrite Hdom. assert (ev_id ev ∈ dom m) by by apply elem_of_dom_2 in Hev. set_solver.
    + f_equal. unfold with_number. by rewrite (lookup_total_correct m' (ev_id ev) i) by (by eapply lookup_weaken).
  - destruct (IH _ _ (numbering_insert _ _ _ Hm Hev)) as (m' & id' & Hm' & Hsub & Hdom & ->).
    exists m', id'. split_and!; [done| | |].
    + etrans; [|exact Hsub]. by apply insert_subseteq.
    + rewrite Hdom, dom_insert_L. set_solver.
    + f_equal. unfold with_number. rewrite (lookup_total_correct m' (ev_id ev) id); [done|].
      eapply lookup_weaken; [|exact Hsub]. apply lookup_insert_eq.
Qed.

Lemma convert_with_number m evs :
  convert_entries (with_number m <$> evs) = with_id (λ x, m !!! x) <$> convert_entries evs.
Proof.
  unfold convert_entries. rewrite <-!list_fmap_compose. apply list_fmap_ext. intros i ev _.
  unfold compose, with_number, with_id. simpl. by destruct (ev_kind ev).
Qed.

Lemma convert_id evs : e_id <$> convert_entries evs = ev_id <$> evs.
Proof.
  unfold convert_entries. rewrite <-list_fmap_compose. apply list_fmap_ext. intros i ev _.
  unfold compose. by destruct (ev_kind ev).
Qed.

(** A complete history has as many calls as returns. *)
Lemma matched_calls es : matched es → ∃ calls : list nat, NoDup calls ∧
  (∀ e : Entry (Value Inp Out), e ∈ es → e_id e ∈ calls) ∧ 2 * length calls ≤ length es.
Proof.
  intros [Hc Hr Hi]. set (ids k := e_id <$> filter (λ e, e_kind e = k) es).
  assert (∀ k, NoDup (ids k)) as Hnd.
  { intros k. assert (∀ i j e e', filter (λ e, e_kind e = k) es !! i = Some e →
      filter (λ e, e_kind e = k) es !! j = Some e' → e_id e = e_id e' → e = e') as Hinj.
    { intros i j e e' [Hk He]%list_elem_of_lookup_2%list_elem_of_filter
        [Hk' He']%list_elem_of_lookup_2%list_elem_of_filter Hid.
      apply list_elem_of_lookup in He as [a Ha]. apply list_elem_of_lookup in He' as [b Hb].
      assert (a = b) as -> by (eapply Hi; [done..|congruence|done]). congruence. }
    apply NoDup_fmap_2_strong.
    - intros e e' [i Hi']%list_elem_of_lookup [j Hj]%list_elem_of_lookup Hid. by eapply Hinj.
    - apply NoDup_filter. apply NoDup_alt. intros i j e Hei Hej. by eapply Hi. }
  assert (length (ids CallEntry) ≤ length (ids ReturnEntry)) as Hle.
  { apply submseteq_length, NoDup_submseteq; [done|]. unfold ids.
    intros id (e & -> & [Hk [i He]%list_elem_of_lookup]%list_elem_of_filter)%list_elem_of_fmap.
    destruct (Hc i e He Hk) as (_ & j & e' & _ & _ & _ & He' & Hk' & <- & _).
    apply list_elem_of_fmap_2, list_elem_of_filter. split; [done|]. by eapply list_elem_of_lookup_2. }
  exists (ids CallEntry). split_and!; [done| |].
  - intros e [i He]%list_elem_of_lookup. unfold ids. destruct (e_kind e) eqn:Hk.
    + apply list_elem_of_fmap_2, list_elem_of_filter. split; [done|]. by eapply list_elem_of_lookup_2.
    + destruct (Hr i e He Hk) as (j & e' & _ & He' & Hk' & <-).
      apply list_elem_of_fmap_2, list_elem_of_filter. split; [done|]. by eapply list_elem_of_lookup_2.
  - assert (length (ids CallEntry) + length (ids ReturnEntry) = length es); [|lia].
    unfold ids. rewrite !length_fmap, <-length_app. symmetry. apply Permutation_length.
    rewrite <-(filter_app_complement (λ e, e_kind e = CallEntry) es) at 1.
    f_equiv. apply reflexive_eq, list_filter_iff. intros e. destruct (e_kind e); naive_solver.
Qed.

Lemma renumber_ok evs : matched (convert_entries evs) →
  complete (convert_entries (renumber evs)) ∧
  (linearizable (convert_entries (renumber evs)) ↔ linearizable (convert_entries evs)).
Proof.
  intros Hm. destruct (renumber_loop_ok evs ∅ 0) as (m & k & Hnum & _ & Hdom & Hren).
  { split; [by rewrite map_size_empty|by intros ??; rewrite lookup_empty..]. }
  assert (∀ e, e ∈ convert_entries evs → ∃ i, m !! e_id e = Some i) as Hin.
  { intros e He. apply elem_of_dom. rewrite Hdom. apply elem_of_union. right. apply elem_of_list_to_set.
    rewrite <-convert_id. by apply list_elem_of_fmap_2. }
  set (g i := default 0 (fst <$> hd_error (filter (λ x, x.2 = i) (map_to_list m)))).
  assert (undoes g (λ x, m !!! x) (convert_entries evs)) as Hu.
  { intros e He. destruct (Hin e He) as [i Hi]. rewrite (lookup_total_correct _ _ _ Hi).
    unfold g. destruct (filter _ _) as [|[y j] l] eqn:Hf.
    - destruct (not_elem_of_nil (e_id e, i)). rewrite <-Hf. apply list_elem_of_filter. split; [done|].
      by apply elem_of_map_to_list.
    - simpl. assert ((y, j) ∈ filter (λ x : nat * nat, x.2 = i) (map_to_list m)) as [Hj Hy]%list_elem_of_filter
        by (rewrite Hf; constructor). apply elem_of_map_to_list in Hy. simpl in Hj. subst j.
      by eapply (num_inj _ _ Hnum). }
  unfold renumber. rewrite Hren, convert_with_number. split; [split|by eapply relabel_linearizable].
  - by eapply relabel_matched.
  - intros e0 (e & -> & He)%list_elem_of_fmap. cbn [with_id e_id]. destruct (Hin e He) as [i Hi].
    rewrite (lookup_total_correct _ _ _ Hi). apply (num_bound _ _ Hnum) in Hi.
    destruct (matched_calls _ Hm) as (calls & Hnd & Hcalls & Hlen).
    assert (k ≤ length calls) as Hk.
    { rewrite (num_size _ _ Hnum), <-size_dom. etrans; [|apply size_ids]. apply subseteq_size.
      rewrite Hdom, <-convert_id. intros x [Hx|Hx]%elem_of_union; [set_solver|].
      apply elem_of_list_to_set in Hx. apply list_elem_of_fmap in Hx as (e' & -> & He').
      apply elem_of_list_to_set. by apply Hcalls. }
    rewrite length_fmap.
    enough (length calls ≤ length (convert_entries evs) / 2) by lia. apply Nat.div_le_lower_bound; lia.
Qed.
End events.
