(* ===== verification/LinCheck.v ===== *)
(** * The threads of a linearizability check

    The caller and one thread per part of the history, in any interleaving: what the call
    returns, that no thread panics, and that every run ends. *)

From stdpp Require Import relations.
From S2P Require Import Prelude Bitset Lin LinHeap LinSearch LinSpec LinOps.

Section check.
Context {St Inp Out : Type} `{!Model St Inp Out}.
Context (equal_spec : ∀ s1 s2 : St, equal s1 s2 = true ↔ s1 = s2).
Implicit Types (es : list (Entry (Value Inp Out))) (w : Check St Inp Out).

(** A thread that works on the history [es]; [k] bounds the steps it has left. *)
Definition worker_ok es (x : Worker St Inp Out) (k : nat) : Prop :=
  match x with
  | Working hd s => ∃ h ps n D rest fr cl, history h hd ps n ∧ (accepts h ps ↔ linearizable es) ∧
      inv h hd ps n s D rest fr cl ∧ measure h ps rest fr cl + 2 ≤ k
  | Sent => True
  | Panicked => False
  end.

Lemma worker_step es hd s k kill : worker_ok es (Working hd s) k →
  (∃ s' k', work kill hd s = (Working hd s', []) ∧ worker_ok es (Working hd s') k' ∧ k' < k) ∨
  (∃ b, work kill hd s = (Sent, [b]) ∧ 2 ≤ k ∧ (b = true → linearizable es) ∧
        (b = false → kill = true ∨ ¬ linearizable es)).
Proof.
  intros (h & ps & n & D & rest & fr & cl & Hh & Hacc & Hi & Hk). unfold work.
  destruct (round_ok h hd ps n Hh equal_spec s D rest fr cl kill Hi) as [[Hr Ha]|[[Hr Ha]|Hg]].
  - right. exists true. destruct (round hd kill s) as [o s'] eqn:E; simplify_eq/=.
    split_and!; [done|lia|by rewrite <-Hacc|done].
  - right. exists false. destruct (round hd kill s) as [o s'] eqn:E; simplify_eq/=.
    split_and!; [done|lia|done|by rewrite <-Hacc].
  - left. destruct Hg as (s' & D' & rest' & fr' & cl' & -> & Hi' & Hlt).
    exists s', (measure h ps rest' fr' cl' + 2). split_and!; [done| |lia].
    by exists h, ps, n, D', rest', fr', cl'.
Qed.

Context (ess : list (list (Entry (Value Inp Out)))) (timed : bool).

(** Thread [i] works on part [i]; the messages in the channel and those received come from
    the threads that are done. *)
Definition main_ok w : Prop :=
  match main w with
  | Waiting count ok => ok = true ∧ kill w = false ∧ ∃ L R,
      NoDup (L ++ R) ∧ (∀ i, i ∈ L ++ R ↔ workers w !! i = Some Sent) ∧
      Forall2 (λ i b, ∃ es, ess !! i = Some es ∧ (b = true ↔ linearizable es)) L (channel w) ∧
      (∀ i, i ∈ R → ∃ es, ess !! i = Some es ∧ linearizable es) ∧ count + length R = length ess ∧ (count = 0 → ess = [])
  | Joining res => (res = false → ∃ es, es ∈ ess ∧ ¬ linearizable es) ∧
      (res = true → timed = false → ∀ es, es ∈ ess → linearizable es)
  | MainPanicked => False
  end.

Definition main_weight (m : Main) : nat := match m with Waiting _ _ => 1 | _ => 0 end.

Record good w (m : nat) : Prop := {
  good_main : main_ok w;
  good_workers : length (workers w) = length ess;
  good_weights : ∃ ks, length ks = length ess ∧
    (∀ i es x k, ess !! i = Some es → workers w !! i = Some x → ks !! i = Some k → worker_ok es x k) ∧
    sum_list ks + length (channel w) + main_weight (main w) ≤ m;
}.

Lemma good_receive w m count ok b rx : good w m → main w = Waiting count ok → channel w = b :: rx →
  let '(mn, k) := main_receives (Got b) count ok (kill w) in
  ∃ m', good (mkCheck (workers w) rx k mn) m' ∧ m' < m.
Proof.
  intros [Hm Hw (ks & Hks & Hok & Hsum)] Hmain Hch. unfold main_ok in Hm. rewrite Hmain, Hch in *.
  destruct Hm as (-> & Hkill & L & R & Hnd & Hsent & HL & HR & Hcount & Hzero).
  apply Forall2_cons_inv_r in HL as (i & L' & (es & Hes & Hb) & HL & ->).
  assert (∀ j, j ∈ (i :: L') ++ R → j < length ess) as Hlt.
  { intros j Hj. apply Hsent in Hj. rewrite <-Hw. by eapply lookup_lt_Some. }
  assert (NoDup (i :: R) ∧ ∀ j, j ∈ i :: R → j < length ess) as [HndR HltR].
  { split; [|set_solver]. simpl in Hnd. rewrite NoDup_cons, NoDup_app in Hnd. apply NoDup_cons. set_solver. }
  assert (i :: R ⊆+ seq 0 (length ess)) as Hsub.
  { apply NoDup_submseteq; [done|]. intros j Hj. apply elem_of_seq. specialize (HltR j Hj). lia. }
  pose proof (submseteq_length _ _ Hsub) as Hlen. rewrite length_seq in Hlen. simpl in Hlen, Hsum.
  assert (∀ mn k, main_ok (mkCheck (workers w) rx k mn) → main_weight mn ≤ 1 →
            ∃ m', good (mkCheck (workers w) rx k mn) m' ∧ m' < m) as Hgood.
  { intros mn k Hmn Hwt. exists (sum_list ks + length rx + main_weight mn). split; [|lia].
    split; [done|done|]. exists ks. split_and!; [done|done|]. simpl. lia. }
  unfold main_receives, receive. destruct b; simpl.
  - destruct count as [|count]; [lia|]. destruct (Nat.eqb_spec count 0) as [->|Hc]; apply Hgood; simpl; try lia.
    + split; [done|]. intros _ _ es' [j Hj]%list_elem_of_lookup.
      assert (j ∈ i :: R) as Hin.
      { rewrite (submseteq_length_Permutation _ _ Hsub); [|rewrite length_seq; simpl; lia].
        apply elem_of_seq. apply lookup_lt_Some in Hj. lia. }
      apply elem_of_cons in Hin as [->|Hin]; [simplify_eq; by apply Hb|].
      destruct (HR j Hin) as (es'' & ? & ?). by simplify_eq.
    + unfold main_ok. simpl. split_and!; [done|done|]. exists L', (i :: R). split_and!.
      * by rewrite <-Permutation_middle.
      * intros j. rewrite <-Hsent. set_solver.
      * done.
      * intros j [->|Hj]%elem_of_cons; [|by apply HR]. exists es. split; [done|by apply Hb].
      * simpl. lia.
      * done.
  - apply Hgood; simpl; [|lia]. split; [|done]. intros _. exists es. split; [by eapply list_elem_of_lookup_2|].
    rewrite <-Hb. done.
Qed.

Lemma good_work w m i hd s : good w m → workers w !! i = Some (Working hd s) →
  let '(x, msgs) := work (kill w) hd s in
  ∃ m', good (mkCheck (<[i := x]> (workers w)) (channel w ++ msgs) (kill w) (main w)) m' ∧ m' < m.
Proof.
  intros [Hm Hw (ks & Hks & Hok & Hsum)] Hi. pose proof (lookup_lt_Some _ _ _ Hi) as Hlt.
  destruct (lookup_lt_is_Some_2 ess i) as [es Hes]; [lia|]. destruct (lookup_lt_is_Some_2 ks i) as [k Hk]; [lia|].
  assert (∀ x msgs k', worker_ok es x k' → length msgs + k' < k →
    main_ok (mkCheck (<[i := x]> (workers w)) (channel w ++ msgs) (kill w) (main w)) →
    ∃ m', good (mkCheck (<[i := x]> (workers w)) (channel w ++ msgs) (kill w) (main w)) m' ∧ m' < m) as Hgood.
  { intros x msgs k' Hx Hlen Hmain. pose proof (sum_list_insert ks i k k' Hk) as Hs.
    exists (sum_list (<[i := k']> ks) + length (channel w ++ msgs) + main_weight (main w)).
    split; [|rewrite length_app; lia]. split; [done|simpl; by rewrite length_insert|].
    exists (<[i := k']> ks). rewrite length_insert. split_and!; [done| |done]. simpl.
    intros j es' x' k2 Hes' Hx' Hk2. destruct (decide (i = j)) as [<-|Hne].
    - rewrite list_lookup_insert_eq in Hx' by lia. rewrite list_lookup_insert_eq in Hk2 by lia. by simplify_eq.
    - rewrite list_lookup_insert_ne in Hx' by done. rewrite list_lookup_insert_ne in Hk2 by done. by eapply Hok. }
  destruct (worker_step es hd s k (kill w) (Hok _ _ _ _ Hes Hi Hk)) as [(s' & k' & -> & Hx & Hlt')|(b & -> & Hk2 & Ht & Hf)].
  - apply (Hgood _ _ k'); [done|simpl; lia|]. rewrite app_nil_r. unfold main_ok in *. simpl.
    destruct (main w); [|done..]. destruct Hm as (? & ? & L & R & Hnd & Hsent & Hrest). split_and!; [done..|].
    exists L, R. split; [done|]. split; [|exact Hrest]. intros j. rewrite Hsent.
    destruct (decide (i = j)) as [<-|Hne]; [|by rewrite list_lookup_insert_ne].
    rewrite list_lookup_insert_eq by lia. by rewrite Hi.
  - apply (Hgood _ _ 0); [done|simpl; lia|]. unfold main_ok in *. simpl.
    destruct (main w); [|done..]. destruct Hm as (Hok' & Hkill & L & R & Hnd & Hsent & HL & HR & Hc).
    assert (i ∉ L ++ R) as Hni by (rewrite Hsent, Hi; done).
    split_and!; [done..|]. exists (L ++ [i]), R. split_and!; [| | |done|apply Hc..].
    + rewrite <-app_assoc. simpl. rewrite <-Permutation_middle. by constructor.
    + intros j. rewrite <-app_assoc. simpl. rewrite <-Permutation_middle, elem_of_cons, Hsent.
      destruct (decide (i = j)) as [<-|Hne]; [rewrite list_lookup_insert_eq by lia; naive_solver|].
      rewrite list_lookup_insert_ne by done. naive_solver.
    + apply Forall2_app; [done|]. repeat constructor. exists es. split; [done|].
      rewrite Hkill in Hf. destruct b; naive_solver.
Qed.

Lemma good_step w w' m : good w m → check_step timed w w' → ∃ m', good w' m' ∧ m' < m.
Proof.
  intros Hg Hs. destruct Hs as [w i hd s Hi|w count ok b rx Hm Hc|w count ok Ht Hm].
  - pose proof (good_work w m i hd s Hg Hi) as H. by destruct (work (kill w) hd s).
  - pose proof (good_receive w m count ok b rx Hg Hm Hc) as H. by destruct (main_receives _ _ _ _).
  - destruct Hg as [Hmain Hw (ks & Hks & Hok & Hsum)]. unfold main_ok in Hmain. rewrite Hm in *.
    destruct Hmain as (-> & _). exists (sum_list ks + length (channel w)). simpl in Hsum. split; [|lia].
    split; [|done|].
    + unfold main_ok. simpl. split; [done|]. intros _. by rewrite Ht.
    + exists ks. split_and!; [done|done|]. simpl. lia.
Qed.

Lemma good_reachable w w' m : good w m → rtc (check_step timed) w w' → ∃ m', good w' m'.
Proof.
  intros Hg Hs. revert m Hg. induction Hs as [w|w w1 w2 Hs _ IH]; intros m Hg; [eauto|].
  destruct (good_step _ _ _ Hg Hs) as (m' & Hg' & _). by eapply IH.
Qed.

Lemma good_bound n w w' m : good w m → nsteps (check_step timed) n w w' → n ≤ m.
Proof.
  intros Hg Hs. revert m Hg. induction Hs as [w|n w w1 w2 Hs _ IH]; intros m Hg; [lia|].
  destruct (good_step _ _ _ Hg Hs) as (m' & Hg' & Hlt). specialize (IH m' Hg'). lia.
Qed.

(** A check with parts either has returned or goes on. *)
Lemma good_progress w m : ess ≠ [] → good w m → (∃ res, returned w res) ∨ (∃ w', check_step timed w w').
Proof.
  intros Hne [Hm Hw (ks & Hks & Hok & Hsum)].
  assert ((∃ i hd s, workers w !! i = Some (Working hd s)) ∨ Forall (λ x, x = Sent) (workers w)) as [(i & hd & s & Hi)|Hall].
  { assert (∀ l, (∀ x, x ∈ l → x ∈ workers w) → (∃ hd s, Working hd s ∈ l) ∨ Forall (λ x, x = Sent) l) as H.
    { induction l as [|x l IH]; intros Hl; [by right|].
      destruct IH as [(hd & s & Hin)|Hf]; [set_solver|left; exists hd, s; by constructor|].
      destruct x as [hd s| |]; [left; exists hd, s; constructor|right; by constructor|].
      exfalso. destruct (proj1 (list_elem_of_lookup _ _) (Hl Panicked ltac:(constructor))) as [i Hi].
      pose proof (lookup_lt_Some _ _ _ Hi). destruct (lookup_lt_is_Some_2 ess i) as [es Hes]; [lia|].
      destruct (lookup_lt_is_Some_2 ks i) as [k Hk]; [lia|]. by apply (Hok _ _ _ _ Hes Hi Hk). }
    destruct (H (workers w)) as [(hd & s & [i Hi]%list_elem_of_lookup)|]; [done|left; eauto|by right]. }
  { right. eexists. by eapply step_work. }
  unfold main_ok in Hm. destruct (main w) as [count ok|res|] eqn:Hmain; [|left; by exists res|done].
  right. destruct (channel w) as [|b rx] eqn:Hch; [|eexists; by eapply step_receive].
  exfalso. destruct Hm as (_ & _ & L & R & Hnd & Hsent & HL & HR & Hcount & Hzero).
  apply Forall2_nil_inv_r in HL as ->. simpl in *.
  assert (seq 0 (length ess) ⊆+ R) as Hsub%submseteq_length.
  { apply NoDup_submseteq; [apply NoDup_seq|]. intros i [_ Hi]%elem_of_seq. apply Hsent.
    destruct (lookup_lt_is_Some_2 (workers w) i) as [x Hx]; [lia|]. rewrite Hx. f_equal.
    rewrite Forall_forall in Hall. apply Hall. by eapply list_elem_of_lookup_2. }
  rewrite length_seq in Hsub. apply Hne, Hzero. lia.
Qed.
End check.

(** ** From the start *)

Section start.
Context {St Inp Out : Type} `{!Model St Inp Out}.
Context (equal_spec : ∀ s1 s2 : St, equal s1 s2 = true ↔ s1 = s2).
Implicit Types (ess : list (list (Entry (Value Inp Out)))).

Lemma list_choice {A} (P : A → nat → Prop) (l : list A) : (∀ x, x ∈ l → ∃ k, P x k) →
  ∃ ks, length ks = length l ∧ ∀ i x k, l !! i = Some x → ks !! i = Some k → P x k.
Proof.
  induction l as [|x l IH]; intros Hl; [by exists []|].
  destruct IH as (ks & Hlen & Hks); [intros y Hy; apply Hl; by constructor|].
  destruct (Hl x ltac:(constructor)) as [k Hk]. exists (k :: ks). split; [simpl; lia|].
  intros [|i] y k' Hy Hk'; simplify_eq/=; [done|]. by eapply Hks.
Qed.

Lemma good_spawned ess timed : (∀ es, es ∈ ess → complete es) →
  ∃ m, good ess timed (spawned (from_entries <$> ess)) m.
Proof.
  intros Hc. destruct (list_choice (λ es k, worker_ok es (let '(hd, s) := setup (from_entries es) in Working hd s) k) ess)
    as (ks & Hlen & Hks).
  { intros es Hes. destruct (setup_ok es (Hc es Hes)) as (h & -> & Hist & Hacc).
    eexists. exists h. do 6 eexists. split_and!; [exact Hist|exact Hacc|apply (inv_start _ _ _ _ Hist)|reflexivity]. }
  eexists. split; simpl.
  - unfold main_ok. simpl. split_and!; [done|done|]. exists [], []. split_and!.
    + constructor.
    + intros i. split; [by intros ?%not_elem_of_nil|]. rewrite <-list_fmap_compose, list_lookup_fmap.
      destruct (ess !! i) as [es|]; simpl; [|done].
      by destruct (setup (from_entries es)).
    + constructor.
    + by intros i ?%not_elem_of_nil.
    + rewrite length_fmap. simpl. lia.
    + rewrite length_fmap. by destruct ess.
  - by rewrite !length_fmap.
  - exists ks. split_and!; [done| |reflexivity]. intros i es x k Hes Hx Hk.
    rewrite <-list_fmap_compose, list_lookup_fmap, Hes in Hx. injection Hx as <-. by apply (Hks i).
Qed.

(** What a check returns, and that it returns, for histories that are complete. *)
Theorem spawned_ok ess timed : ess ≠ [] → (∀ es, es ∈ ess → complete es) →
  let w0 := spawned (from_entries <$> ess) in
  (∃ m, ∀ n w, nsteps (check_step timed) n w0 w → n ≤ m) ∧
  ∀ w, rtc (check_step timed) w0 w →
    ((∃ res, returned w res) ∨ ∃ w', check_step timed w w') ∧
    (∀ res, returned w res →
      (res = false → ∃ es, es ∈ ess ∧ ¬ linearizable es) ∧
      (res = true → timed = false → ∀ es, es ∈ ess → linearizable es)).
Proof.
  intros Hne Hc w0. destruct (good_spawned ess timed Hc) as [m Hg]. split.
  - exists m. intros n w Hn. by eapply good_bound.
  - intros w Hw. destruct (good_reachable equal_spec _ _ _ _ _ Hg Hw) as [m' Hg']. split.
    + by eapply good_progress.
    + intros res [Hr _]. pose proof (good_main _ _ _ _ Hg') as Hm. unfold main_ok in Hm. by rewrite Hr in Hm.
Qed.
End start.
