(* ===== verification/KvModel.v ===== *)
(** * The key-value model of the linearizability checker

    [linearizability/src/models.rs]: the model of one key, and how a history of a whole
    store is partitioned by key. Checking each part is checking the whole history. *)

From S2P Require Import Prelude Bitset Lin LinHeap LinSearch LinSpec LinOps.

Inductive Op := GET | PUT | APPEND.

#[export] Instance Op_eq_dec : EqDecision Op.
Proof. solve_decision. Defined.

Record KvInput := mkKvInput { op : Op; key : string; value : string }.

Record KvOutput := mkKvOutput { out_value : string }.

(** The state is the value of a single key. *)
Definition kv_step (state : string) (inp : KvInput) (out : KvOutput) : bool * string :=
  match op inp with
  | GET => (String.eqb (out_value out) state, state)
  | PUT => (true, value inp)
  | APPEND => (true, String.append state (value inp))
  end.

#[export] Instance KvModel : Model string KvInput KvOutput := {
  init := ""; step := kv_step; equal := String.eqb;
}.

Abbreviation KvOperation := (Operation KvInput KvOutput).
Abbreviation KvEvent := (Event (Value KvInput KvOutput)).

Definition op_key (a : KvOperation) : string := key (op_input a).

(** [map.entry(key).or_insert_with(Vec::new).push(x)] *)
Definition push_to {A} (k : string) (x : A) (map : gmap string (list A)) : gmap string (list A) :=
  <[k := default [] (map !! k) ++ [x]]> map.

(** [order] is the iteration order of the [HashMap]. *)
Definition group (history : list KvOperation) : gmap string (list KvOperation) :=
  foldl (λ map a, push_to (op_key a) a map) ∅ history.

Definition partition (order : list (string * list KvOperation) → list (string * list KvOperation))
    (history : list KvOperation) : list (list KvOperation) :=
  (order (map_to_list (group history))).*2.

(** Panics ([None]) on a call that is not an input, and on a return without a call. *)
Fixpoint group_events (history : list KvEvent) (m : gmap string (list KvEvent)) (matched : gmap nat string) :
    option (gmap string (list KvEvent)) :=
  match history with
  | [] => Some m
  | event :: history' =>
      match ev_kind event with
      | CallEvent =>
          i ← input (ev_value event);
          group_events history' (push_to (key i) event m) (<[ev_id event := key i]> matched)
      | ReturnEvent =>
          k ← matched !! ev_id event;
          group_events history' (push_to k event m) matched
      end
  end.

Definition partition_event (order : list (string * list KvEvent) → list (string * list KvEvent))
    (history : list KvEvent) : option (list (list KvEvent)) :=
  m ← group_events history ∅ ∅; Some ((order (map_to_list m)).*2).

(** ** The whole store *)

(** What the model of one key stands for: a store of all keys. *)
Definition store_step (store : gmap string string) (inp : KvInput) (out : KvOutput) : bool * gmap string string :=
  let '(ok, v) := kv_step (default "" (store !! key inp)) inp out in
  (ok, match op inp with GET => store | _ => <[key inp := v]> store end).

#[export] Instance StoreModel : Model (gmap string string) KvInput KvOutput | 100 := {
  init := ∅; step := store_step; equal := λ s s', bool_decide (s = s');
}.

Lemma kv_equal_spec (s1 s2 : string) : equal s1 s2 = true ↔ s1 = s2.
Proof. apply String.eqb_eq. Qed.

(** ** The parts of a history *)

Lemma group_lookup history k : group history !! k =
  let sub := filter (λ a, op_key a = k) history in if decide (sub = []) then None else Some sub.
Proof.
  unfold group. cut (∀ l m, (∀ k, (m : gmap string (list KvOperation)) !! k =
    let sub := filter (λ a, op_key a = k) l in if decide (sub = []) then None else Some sub) →
    foldl (λ map a, push_to (op_key a) a map) m history !! k =
    let sub := filter (λ a, op_key a = k) (l ++ history) in if decide (sub = []) then None else Some sub).
  { intros H. apply (H [] ∅). intros k'. by rewrite lookup_empty. }
  induction history as [|a history IH]; intros l m Hm; [by rewrite app_nil_r|].
  rewrite (app_assoc l [a] history : l ++ a :: history = _). apply IH. intros k'. cbv zeta.
  rewrite filter_app. unfold push_to. rewrite lookup_insert. case_decide as Hk.
  - subst k'. rewrite (filter_cons_True _ a []), Hm by done. cbv zeta. rewrite (decide_False (P:=_ ++ _ = [])).
    + destruct (decide (filter (λ a0, op_key a0 = op_key a) l = [])) as [->|]; done.
    + intros [_ ?]%app_eq_nil. done.
  - by rewrite filter_cons_False, app_nil_r, Hm by naive_solver.
Qed.

Lemma elem_of_partition order history sub : (∀ l, order l ≡ₚ l) →
  sub ∈ partition order history ↔ ∃ k, sub = filter (λ a, op_key a = k) history ∧ sub ≠ [].
Proof.
  intros Ho. unfold partition. rewrite Ho, list_elem_of_fmap. split.
  - intros ([k l] & -> & Hl%elem_of_map_to_list). rewrite group_lookup in Hl. simpl in *. case_decide; naive_solver.
  - intros (k & -> & Hne). eexists (k, _). split; [done|]. apply elem_of_map_to_list. rewrite group_lookup.
    cbv zeta. by rewrite decide_False.
Qed.
