(* ===== verification/KvLocal.v ===== *)
(** * Linearizability is local

    The operations on a store are linearizable exactly when the operations on each key are:
    the orders of the keys merge into one, taking at each step the operation at the head of
    its key that was called first. *)

From S2P Require Import Prelude Bitset Lin LinHeap LinSearch LinSpec LinOps KvModel.

Abbreviation sooner_kv := (sooner (Inp:=KvInput) (Out:=KvOutput)).

Section local.
Context (history : list KvOperation).

(** The operation at a position, and its key. *)
Definition at_key (k : string) (i : nat) : Prop := ∃ a, history !! i = Some a ∧ op_key a = k.

(** An order of the operations of one key, by their positions in the whole history. *)
Record key_order (k : string) (s : string) (L : list nat) : Prop := {
  ko_nodup : NoDup L;
  ko_key : ∀ i, i ∈ L → at_key k i;
  ko_legal : legal_ops history s L;
  ko_time : ∀ i j, i ∈ L → j ∈ L → precedes history i j → before i j L;
}.

Lemma at_key_fun k k' i : at_key k i → at_key k' i → k = k'.
Proof. intros (a & ? & <-) (a' & ? & <-). by simplify_eq. Qed.

Lemma key_order_tail k s i L : key_order k s (i :: L) → ∃ a s', history !! i = Some a ∧ op_key a = k ∧
  step s (op_input a) (op_output a) = (true, s') ∧ key_order k s' L.
Proof.
  intros [Hn Hk (a & s' & Ha & Hs & Hl) Ht]. apply NoDup_cons in Hn as [Hi Hn].
  destruct (Hk i ltac:(constructor)) as (a' & Ha' & Hka).
  rewrite Ha in Ha'. injection Ha' as <-. exists a, s'. split_and!; [done|done|done|]. split; [done| |done|].
  - intros j Hj. apply Hk. by constructor.
  - intros j j' Hj Hj' Hp. apply Ht in Hp; [|by constructor..]. apply before_cons in Hp as [[-> _]|]; done.
Qed.

(** ** Merging *)

(** A call with the earliest time. *)
Lemma earliest (l : list nat) (c : nat → Entry (Value KvInput KvOutput)) : l ≠ [] →
  ∃ x, x ∈ l ∧ ∀ y, y ∈ l → ¬ sooner_kv (c y) (c x).
Proof.
  induction l as [|x l IH]; [done|]. intros _. destruct (decide (l = [])) as [->|Hl].
  - exists x. split; [constructor|]. intros y ->%list_elem_of_singleton. apply sooner_irrefl.
  - destruct (IH Hl) as (z & Hz & Hmin). assert (Decision (sooner_kv (c x) (c z))) as [Hs|Hs].
    { unfold sooner. apply _. }
    + exists x. split; [constructor|]. intros y [->|Hy]%elem_of_cons; [apply sooner_irrefl|].
      intros Hyx. apply (Hmin y Hy). etrans; [exact Hyx|exact Hs].
    + exists z. split; [by constructor|]. intros y [->|Hy]%elem_of_cons; [done|by apply Hmin].
Qed.

Definition call_at (i : nat) : Entry (Value KvInput KvOutput) :=
  match history !! i with Some a => call_entry i a | None => mkEntry CallEntry ValueNone i 0 end.
Definition return_at (i : nat) : Entry (Value KvInput KvOutput) :=
  match history !! i with Some a => return_entry i a | None => mkEntry ReturnEntry ValueNone i 0 end.

Lemma precedes_at k k' i j : at_key k i → at_key k' j →
  precedes history i j ↔ sooner_kv (return_at i) (call_at j).
Proof.
  intros (a & Ha & _) (b & Hb & _). unfold return_at, call_at. rewrite Ha, Hb.
  by apply precedes_entries.
Qed.

Lemma sooner_total (e e' : Entry (Value KvInput KvOutput)) : rank e ≠ rank e' → ¬ sooner e e' → sooner e' e.
Proof. unfold sooner. lia. Qed.

Lemma rank_at i j : rank (call_at i) ≠ rank (return_at j).
Proof. unfold call_at, return_at, rank. destruct (history !! i), (history !! j); simpl; lia. Qed.

Lemma before_antisym {A} (a b : A) l : NoDup l → before a b l → before b a l → False.
Proof.
  intros Hd Hab (k1 & k2 & -> & Ha). apply before_prefix in Hab; [|done].
  apply NoDup_app in Hd as (_ & Hx & _). by apply (Hx a Hab); constructor.
Qed.

Context (Htime : in_time history).

(** The head that was called first comes after no operation that is left. *)
Lemma head_first (F : string → list nat) (S : string → string) (R : list nat) :
  (∀ k, key_order k (S k) (F k)) → (∀ i, i ∈ R ↔ ∃ k, i ∈ F k) → R ≠ [] →
  ∃ k x L, F k = x :: L ∧ ∀ y, y ∈ R → ¬ precedes history y x.
Proof.
  intros HF HR Hne. assert (∀ y, y ∈ R → ∃ k h L, F k = h :: L ∧ y ∈ F k) as Hhead.
  { intros y (k & Hy)%HR. destruct (F k) as [|h L] eqn:E; [by apply not_elem_of_nil in Hy|].
    exists k, h, L. by rewrite E. }
  set (heads := filter (λ x, (a ← history !! x; hd_error (F (op_key a))) = Some x) R).
  assert (∀ k h L, F k = h :: L → h ∈ heads) as Hheads.
  { intros k h L E. assert (h ∈ F k) as Hh by (rewrite E; constructor).
    destruct (ko_key _ _ _ (HF k) h Hh) as (a & Ha & Hka). apply list_elem_of_filter. rewrite Ha. cbn. rewrite Hka, E.
    split; [done|]. apply HR. by exists k. }
  destruct (earliest heads call_at) as (x & [Hx HxR]%list_elem_of_filter & Hmin).
  { destruct R as [|y R']; [done|]. destruct (Hhead y ltac:(constructor)) as (k & h & L & E & _).
    intros Hnil. apply (not_elem_of_nil h). rewrite <-Hnil. by eapply Hheads. }
  destruct (history !! x) as [a|] eqn:Ha; [|done]. cbn in Hx.
  destruct (F (op_key a)) as [|x' L] eqn:E; [done|]. injection Hx as ->. exists (op_key a), x, L. split; [done|]. intros y Hy Hp.
  destruct (Hhead y Hy) as (k & h & L' & E' & HyF).
  assert (at_key k y) as Hky by (by eapply ko_key).
  assert (h ∈ F k) as HhF by (rewrite E'; constructor). assert (at_key k h) as Hkh by (by eapply ko_key).
  assert (at_key (op_key a) x) as Hkx by (by exists a).
  rewrite (precedes_at _ _ _ _ Hky Hkx) in Hp. apply (Hmin h (Hheads _ _ _ E')).
  etrans; [|exact Hp]. apply sooner_total; [apply not_eq_sym, rank_at|]. intros Hyh.
  destruct (decide (y = h)) as [->|Hne'].
  - destruct Hkh as (b & Hb & _). unfold return_at, call_at in Hyh. rewrite Hb in Hyh.
    pose proof (Htime b ltac:(by eapply list_elem_of_lookup_2)). unfold sooner, rank in Hyh. simpl in Hyh. lia.
  - rewrite <-(precedes_at _ _ _ _ Hky Hkh) in Hyh. pose proof (ko_time _ _ _ (HF k) _ _ HyF HhF Hyh) as Hb.
    eapply before_antisym; [by eapply ko_nodup|exact Hb|]. rewrite E'. apply before_cons. left. split; [done|].
    rewrite E' in HyF. apply elem_of_cons in HyF as [|]; done.
Qed.

(** The orders of the keys merge. *)
Lemma merge (n : nat) : ∀ (F : string → list nat) (store : gmap string string) (R : list nat),
  length R = n → NoDup R → (∀ k, key_order k (default "" (store !! k)) (F k)) → (∀ i, i ∈ R ↔ ∃ k, i ∈ F k) →
  ∃ ids, ids ≡ₚ R ∧ legal_ops history store ids ∧
    ∀ i j, i ∈ R → j ∈ R → precedes history i j → before i j ids.
Proof.
  induction n as [|n IH]; intros F store R Hlen Hnd HF HR.
  { apply length_zero_iff_nil in Hlen as ->. exists []. split_and!; [done|done|]. by intros i j ?%not_elem_of_nil. }
  destruct (head_first F (λ k, default "" (store !! k)) R HF HR) as (k & x & L & E & Hfirst); [by destruct R|].
  assert (x ∈ R) as HxR by (apply HR; exists k; rewrite E; constructor).
  apply list_elem_of_split in HxR as (R1 & R2 & ->).
  pose proof (HF k) as Hk. rewrite E in Hk. pose proof (ko_nodup _ _ _ Hk) as [HxL _]%NoDup_cons.
  apply key_order_tail in Hk as (a & s' & Ha & Hka & Hs & Hko).
  set (store' := match op (op_input a) with GET => store | _ => <[k := s']> store end).
  assert (default "" (store' !! k) = s') as Hs'.
  { unfold store'. simpl in Hs. unfold kv_step in Hs. destruct (op (op_input a)); rewrite ?lookup_insert_eq; simplify_eq/=; done. }
  assert (∀ k', k' ≠ k → store' !! k' = store !! k') as Hother.
  { intros k' Hne. unfold store'. destruct (op (op_input a)); by rewrite ?lookup_insert_ne. }
  rewrite length_app in Hlen. simpl in Hlen.
  assert (NoDup (x :: R1 ++ R2)) as [HxR Hnd']%NoDup_cons by (by rewrite Permutation_middle).
  destruct (IH (λ k', if decide (k' = k) then L else F k') store' (R1 ++ R2)) as (ids & Hp & Hleg & Hto).
  { rewrite length_app. lia. }
  { done. }
  { intros k'. destruct (decide (k' = k)) as [->|Hne]; [by rewrite Hs'|]. rewrite Hother by done. apply HF. }
  { intros i. assert (i ∈ R1 ++ R2 ↔ i ∈ R1 ++ x :: R2 ∧ i ≠ x) as -> by set_solver. rewrite HR. split.
    - intros [[k' Hi] Hne]. exists k'. destruct (decide (k' = k)) as [->|]; [|done]. rewrite E in Hi. set_solver.
    - intros [k' Hi]. destruct (decide (k' = k)) as [->|Hne].
      + split; [exists k; rewrite E; by constructor|]. by intros ->.
      + split; [by exists k'|]. intros ->. apply Hne. eapply at_key_fun; [by eapply ko_key|].
        exists a. done. }
  exists (x :: ids). split_and!.
  - by rewrite Hp, Permutation_middle.
  - exists a, store'. split_and!; [done| |done]. simpl. unfold store_step.
    change (key (op_input a)) with (op_key a). rewrite Hka. simpl in Hs. by rewrite Hs.
  - intros i j Hi Hj Hij. rewrite before_cons. destruct (decide (j = x)) as [->|Hjx]; [by destruct (Hfirst i)|].
    assert (j ∈ R1 ++ R2) by set_solver. destruct (decide (i = x)) as [->|Hix]; [left; by rewrite Hp|].
    right. apply Hto; [set_solver|done|done].
Qed.
End local.

(** ** Orders of a part, and orders of its positions *)

Section parts.
Implicit Types (history : list KvOperation).

(** The positions of the operations of a key, from [o] on. *)
Fixpoint positions (k : string) (o : nat) history : list nat :=
  match history with
  | [] => []
  | a :: history' => if decide (op_key a = k) then o :: positions k (S o) history' else positions k (S o) history'
  end.

Definition part (k : string) history : list KvOperation := filter (λ a, op_key a = k) history.

Lemma positions_bound k o history i : i ∈ positions k o history →
  o ≤ i ∧ ∃ a, history !! (i - o) = Some a ∧ op_key a = k.
Proof.
  revert o. induction history as [|a h IH]; intros o; simpl; [by intros ?%not_elem_of_nil|].
  assert (i ∈ positions k (S o) h → o ≤ i ∧ ∃ b, (a :: h) !! (i - o) = Some b ∧ op_key b = k) as Hrest.
  { intros (Hle & b & Hb & Hk)%IH. split; [lia|]. exists b. split; [|done].
    replace (i - o) with (S (i - S o)) by lia. done. }
  case_decide as Hk; [|done]. intros [->|Hi]%elem_of_cons; [|by apply Hrest].
  split; [done|]. exists a. by rewrite Nat.sub_diag.
Qed.

Lemma positions_lookup k o history j a : part k history !! j = Some a ↔
  ∃ i, positions k o history !! j = Some i ∧ o ≤ i ∧ history !! (i - o) = Some a.
Proof.
  revert o j. induction history as [|b h IH]; intros o j; [simpl; naive_solver|]. unfold part in *. simpl positions.
  assert (∀ j, filter (λ a, op_key a = k) h !! j = Some a ↔
    ∃ i, positions k (S o) h !! j = Some i ∧ o ≤ i ∧ (b :: h) !! (i - o) = Some a) as Hrest.
  { intros j'. rewrite (IH (S o) j'). split; intros (i & Hi & Hle & Ha).
    - exists i. split_and!; [done|lia|]. by replace (i - o) with (S (i - S o)) by lia.
    - pose proof (proj1 (positions_bound k (S o) h i ltac:(by eapply list_elem_of_lookup_2))).
      exists i. split_and!; [done|lia|]. by replace (i - o) with (S (i - S o)) in Ha by lia. }
  destruct (decide (op_key b = k)) as [Hk|Hk]; [|rewrite filter_cons_False by done; apply Hrest].
  rewrite filter_cons_True by done. destruct j as [|j]; simpl; [|apply Hrest].
  split; [intros [= ->]; exists o; by rewrite Nat.sub_diag|].
  intros (i & [= <-] & _ & Ha). by rewrite Nat.sub_diag in Ha.
Qed.

Lemma positions_mono k o history j j' i i' : positions k o history !! j = Some i →
  positions k o history !! j' = Some i' → j < j' → i < i'.
Proof.
  revert o j j'. induction history as [|a h IH]; intros o j j'; simpl; [done|].
  case_decide; [|apply IH]. destruct j as [|j], j' as [|j']; simpl; try lia.
  - intros [= <-] Hi' _. apply list_elem_of_lookup_2, positions_bound in Hi'. lia.
  - intros Hi Hi' Hlt. apply (IH (S o) j j'); [done..|lia].
Qed.

Lemma positions_inj k o history j j' i : positions k o history !! j = Some i →
  positions k o history !! j' = Some i → j = j'.
Proof.
  intros Hj Hj'. destruct (Nat.lt_trichotomy j j') as [Hlt|[|Hlt]]; [|done|];
    [pose proof (positions_mono _ _ _ _ _ _ _ Hj Hj' Hlt)|pose proof (positions_mono _ _ _ _ _ _ _ Hj' Hj Hlt)]; lia.
Qed.

Lemma elem_of_positions k history i : i ∈ positions k 0 history ↔ at_key history k i.
Proof.
  split.
  - intros [_ H]%positions_bound. by rewrite Nat.sub_0_r in H.
  - intros (a & Ha & Hk). assert (a ∈ part k history) as [j Hj]%list_elem_of_lookup.
    { apply list_elem_of_filter. split; [done|]. by eapply list_elem_of_lookup_2. }
    revert Ha. clear -Hk. change (history !! i = Some a → i ∈ positions k 0 history).
    replace i with (i + 0) at 2 by lia. generalize 0 as o. revert i.
    induction history as [|b h IH]; intros [|i] o Ha; simplify_eq/=.
    + rewrite decide_True by done. constructor.
    + rewrite <-Nat.add_succ_r. case_decide; [constructor|]; by apply IH.
Qed.

(** The position of the [j]-th operation of a part, and back. *)
Definition pos_of (k : string) history (j : nat) : nat := default 0 (positions k 0 history !! j).
Definition idx_of (k : string) history (i : nat) : nat :=
  default 0 (fst <$> list_find (i =.) (positions k 0 history)).

Lemma length_part k history : length (part k history) = length (positions k 0 history).
Proof.
  apply Nat.le_antisymm; apply Nat.le_ngt; intros Hlt.
  - apply lookup_lt_is_Some in Hlt as [a Ha]. apply (positions_lookup k 0) in Ha as (i & Hi & _).
    apply lookup_lt_Some in Hi. lia.
  - apply lookup_lt_is_Some in Hlt as [i Hi].
    destruct (positions_bound _ _ _ _ (list_elem_of_lookup_2 _ _ _ Hi)) as (Hle & a & Ha & _).
    assert (part k history !! length (part k history) = Some a) as Hp by (apply (positions_lookup k 0); eauto).
    apply lookup_lt_Some in Hp. lia.
Qed.

Lemma pos_of_spec k history j : j < length (part k history) → positions k 0 history !! j = Some (pos_of k history j).
Proof. rewrite length_part. intros [i Hi]%lookup_lt_is_Some. unfold pos_of. by rewrite Hi. Qed.

Lemma pos_of_lookup k history j : j < length (part k history) → part k history !! j = history !! pos_of k history j.
Proof.
  intros Hj. pose proof (pos_of_spec _ _ _ Hj) as Hp. apply lookup_lt_is_Some in Hj as [a Ha].
  apply (positions_lookup k 0) in Ha as Ha'. destruct Ha' as (i & Hi & _ & Hh). rewrite Nat.sub_0_r in Hh. congruence.
Qed.

Lemma idx_of_spec k history i : at_key history k i →
  idx_of k history i < length (part k history) ∧ pos_of k history (idx_of k history i) = i.
Proof.
  intros Hi%elem_of_positions. unfold idx_of.
  destruct (list_find_elem_of (i =.) _ i Hi eq_refl) as [[j x] Hf]. rewrite Hf. simpl.
  apply list_find_Some in Hf as (Hj & <- & _). unfold pos_of. rewrite Hj. split; [|done].
  rewrite length_part. by eapply lookup_lt_Some.
Qed.

Lemma idx_pos k history j : j < length (part k history) → idx_of k history (pos_of k history j) = j.
Proof.
  intros Hj. pose proof (pos_of_spec _ _ _ Hj) as Hp.
  assert (at_key history k (pos_of k history j)) as Hat.
  { apply elem_of_positions. by eapply list_elem_of_lookup_2. }
  destruct (idx_of_spec _ _ _ Hat) as [Hlt Heq]. apply pos_of_spec in Hlt. rewrite Heq in Hlt.
  by eapply positions_inj.
Qed.

Lemma precedes_part k history j j' : j < length (part k history) → j' < length (part k history) →
  precedes (part k history) j j' ↔ precedes history (pos_of k history j) (pos_of k history j').
Proof.
  intros Hj Hj'. unfold precedes. rewrite !pos_of_lookup by done.
  assert (j < j' ↔ pos_of k history j < pos_of k history j') as Hlt; [|naive_solver].
  split; [by apply (positions_mono k 0 history); apply pos_of_spec|].
  intros Hlt. destruct (Nat.lt_trichotomy j j') as [|[->|Hgt]]; [done|lia|].
  pose proof (positions_mono k 0 history _ _ _ _ (pos_of_spec _ _ _ Hj') (pos_of_spec _ _ _ Hj) Hgt). lia.
Qed.

Lemma legal_part k history (s : string) ids : (∀ j, j ∈ ids → j < length (part k history)) →
  legal_ops (part k history) s ids ↔ legal_ops history s (pos_of k history <$> ids).
Proof.
  revert s. induction ids as [|j ids IH]; intros s Hids; simpl; [done|].
  rewrite pos_of_lookup by (apply Hids; constructor). setoid_rewrite IH; [done|].
  intros j' Hj'. apply Hids. by constructor.
Qed.

Lemma part_order k history : ops_linearizable (St:=string) (part k history) → ∃ L, key_order history k init L ∧
  ∀ i, at_key history k i → i ∈ L.
Proof.
  intros (ids & [Hp Hl Ht]). set (P := part k history) in *.
  assert (∀ j, j ∈ ids ↔ j < length P) as Hids by (intros j; rewrite Hp, elem_of_seq; lia).
  exists (pos_of k history <$> ids). split.
  - split.
    + apply NoDup_fmap_2_strong; [|rewrite Hp; apply NoDup_seq]. intros j j' Hj Hj' Heq.
      rewrite <-(idx_pos k history j), <-(idx_pos k history j') by (by apply Hids). by rewrite Heq.
    + intros i (j & -> & Hj)%list_elem_of_fmap. apply elem_of_positions.
      eapply list_elem_of_lookup_2, pos_of_spec. by apply Hids.
    + apply legal_part; [|done]. intros j. apply Hids.
    + intros i i' (j & -> & Hj)%list_elem_of_fmap (j' & -> & Hj')%list_elem_of_fmap Hpr.
      apply before_fmap, Ht. apply Hids in Hj, Hj'. by apply precedes_part.
  - intros i Hi. destruct (idx_of_spec _ _ _ Hi) as [Hlt <-]. apply list_elem_of_fmap_2. by apply Hids.
Qed.

Lemma order_part k history L : key_order history k init L → (∀ i, at_key history k i → i ∈ L) →
  ops_linearizable (St:=string) (part k history).
Proof.
  intros [Hn Hk Hl Ht] Hall. set (P := part k history).
  assert (∀ j, j < length P → at_key history k (pos_of k history j)) as Hat.
  { intros j Hj. apply elem_of_positions. by eapply list_elem_of_lookup_2, pos_of_spec. }
  assert (∀ j, j ∈ idx_of k history <$> L ↔ j < length P) as Hids.
  { intros j. rewrite list_elem_of_fmap. split.
    - intros (i & -> & Hi). by apply idx_of_spec, Hk.
    - intros Hj. exists (pos_of k history j). rewrite idx_pos by done. split; [done|]. by apply Hall, Hat. }
  exists (idx_of k history <$> L). split.
  - apply NoDup_Permutation; [|apply NoDup_seq|].
    + apply NoDup_fmap_2_strong; [|done]. intros i i' Hi%Hk Hi'%Hk Heq.
      rewrite <-(proj2 (idx_of_spec _ _ _ Hi)), <-(proj2 (idx_of_spec _ _ _ Hi')). by rewrite Heq.
    + intros j. rewrite Hids, elem_of_seq. lia.
  - apply legal_part; [intros j; apply Hids|]. rewrite <-list_fmap_compose.
    rewrite (list_fmap_ext _ id L); [by rewrite list_fmap_id|].
    intros _ i Hi%list_elem_of_lookup_2%Hk. by apply idx_of_spec.
  - intros j j' Hpr. assert (j < length P ∧ j' < length P) as [Hj Hj'].
    { destruct Hpr as (a & b & ?%lookup_lt_Some & ?%lookup_lt_Some & _). done. }
    rewrite <-(idx_pos k history j), <-(idx_pos k history j') by done. apply before_fmap, Ht; [by apply Hall, Hat..|].
    by apply precedes_part.
Qed.

(** The order of all operations gives one for each key. *)
Lemma legal_project history k store ids : legal_ops history store ids →
  (∀ i, i ∈ ids → is_Some (history !! i)) → ∀ D, (∀ i, i ∈ ids → D i = true ↔ at_key history k i) →
  legal_ops history (default "" (store !! k)) (filter (λ i, D i = true) ids).
Proof.
  revert store. induction ids as [|i ids IH]; intros store; [done|].
  intros (a & store' & Ha & Hs & Hl) Hsome D HD.
  assert (legal_ops history (default "" (store' !! k)) (filter (λ i, D i = true) ids)) as IH'.
  { apply IH; [done| |]; intros j Hj; [apply Hsome|apply HD]; by constructor. }
  specialize (HD i ltac:(constructor)). simpl in Hs. unfold store_step in Hs.
  destruct (decide (op_key a = k)) as [Hk|Hk].
  - rewrite filter_cons_True by (apply HD; by exists a). exists a, (default "" (store' !! k)).
    split_and!; [done| |done]. simpl. unfold op_key in Hk. rewrite Hk in Hs.
    destruct (kv_step _ _ _) as [ok v] eqn:E. injection Hs as -> <-.
    unfold kv_step in *. destruct (op (op_input a)); rewrite ?lookup_insert_eq; simplify_eq/=; done.
  - rewrite filter_cons_False. 2: { intros (b & Hb & Hkb)%HD. congruence. }
    assert (store' !! k = store !! k) as Heq; [|by rewrite Heq in IH'].
    destruct (kv_step _ _ _) as [ok v] eqn:E. injection Hs as -> <-. unfold op_key in Hk.
    destruct (op (op_input a)); by rewrite ?lookup_insert_ne.
Qed.

Lemma choose_orders (ks : list string) (P : string → list nat → Prop) : (∀ k, k ∈ ks → ∃ L, P k L) →
  ∃ F : string → list nat, ∀ k, if decide (k ∈ ks) then P k (F k) else F k = [].
Proof.
  induction ks as [|k ks IH]; intros HP.
  { exists (λ _, []). intros k. by rewrite decide_False by apply not_elem_of_nil. }
  destruct IH as [F HF]; [intros k' Hk'; apply HP; by constructor|].
  destruct (HP k ltac:(constructor)) as [L HL]. exists (λ k', if decide (k' = k) then L else F k').
  intros k'. specialize (HF k'). destruct (decide (k' = k)) as [->|Hne].
  - rewrite decide_True by constructor. done.
  - destruct (decide (k' ∈ ks)); [rewrite decide_True by (by constructor); done|].
    rewrite decide_False; [done|]. by intros [|]%elem_of_cons.
Qed.

(** A history of the store is linearizable exactly when that of each key is. *)
Lemma store_local history : in_time history →
  ops_linearizable (St:=gmap string string) history ↔
  ∀ k, part k history ≠ [] → ops_linearizable (St:=string) (part k history).
Proof.
  intros Htime. split.
  - intros (ids & [Hp Hl Ht]) k _.
    assert (∀ i, i ∈ ids ↔ i < length history) as Hids by (intros i; rewrite Hp, elem_of_seq; lia).
    set (D i := match history !! i with Some a => bool_decide (op_key a = k) | None => false end).
    assert (∀ i, D i = true ↔ at_key history k i) as HD.
    { intros i. unfold D, at_key. destruct (history !! i) as [a|]; [|naive_solver].
      rewrite bool_decide_eq_true. naive_solver. }
    apply (order_part k history (filter (λ i, D i = true) ids)).
    + split.
      * apply NoDup_filter. rewrite Hp. apply NoDup_seq.
      * intros i [Hi _]%list_elem_of_filter. by apply HD.
      * assert (∀ i, i ∈ ids → is_Some (history !! i)) as Hin by (intros i Hi; by apply lookup_lt_is_Some, Hids).
        exact (legal_project history k ∅ ids Hl Hin D (λ i _, HD i)).
      * intros i j [Hi _]%list_elem_of_filter [Hj _]%list_elem_of_filter Hpr. apply before_filter. auto.
    + intros i Hi. apply list_elem_of_filter. split; [by apply HD|]. apply Hids.
      destruct Hi as (a & Ha & _). by eapply lookup_lt_Some.
  - intros Hparts. destruct (choose_orders (op_key <$> history)
      (λ k L, key_order history k init L ∧ ∀ i, at_key history k i → i ∈ L)) as [F HF].
    { intros k (a & -> & Ha)%list_elem_of_fmap. apply part_order, Hparts. intros Hnil.
      apply (not_elem_of_nil a). rewrite <-Hnil. by apply list_elem_of_filter. }
    assert (∀ k, key_order history k "" (F k) ∧ ∀ i, at_key history k i → i ∈ F k) as HF'.
    { intros k. specialize (HF k). case_decide as Hk; [done|]. rewrite HF. split.
      - split; [constructor|by intros i ?%not_elem_of_nil|done|by intros i j ?%not_elem_of_nil].
      - intros i (a & Ha & <-). destruct Hk. apply list_elem_of_fmap_2. by eapply list_elem_of_lookup_2. }
    assert (∀ i, i ∈ seq 0 (length history) ↔ ∃ k, i ∈ F k) as HR.
    { intros i. rewrite elem_of_seq. split.
      - intros [_ [a Ha]%lookup_lt_is_Some]. exists (op_key a). apply HF'. by exists a.
      - intros [k Hi]. apply (ko_key _ _ _ _ (proj1 (HF' k))) in Hi as (a & Ha%lookup_lt_Some & _). lia. }
    destruct (merge history Htime _ F ∅ (seq 0 (length history)) eq_refl (NoDup_seq _ _)) as (ids & Hp & Hl & Ht).
    { intros k. rewrite lookup_empty. apply HF'. }
    { done. }
    exists ids. split; [done|done|]. intros i j Hpr. pose proof Hpr as (a & b & Ha & Hb & _).
    apply Ht; [..|done]; apply elem_of_seq; [apply lookup_lt_Some in Ha|apply lookup_lt_Some in Hb]; lia.
Qed.
End parts.
