(* ===== verification/KvLog.v ===== *)
(** * The logs that the checker is tested on

    [parse_kv_log] and [check_kv] of [linearizability/src/models.rs]: a text file with a
    line for each call and return of a process becomes a history of events, which is
    checked. The regular expressions are those of the crate [regex]. *)

From S2P Require Import Prelude Lin KvModel.

(** ** Patterns *)

(** The engine: the groups of the leftmost match, group 0 is all of it. *)
Class Regex := captures : string → string → option (list string).

(** A quote. *)
Definition dq : string := String (Ascii.ascii_of_nat 34) "".

Definition INVOKE_GET : string :=
  "\{:process (\d+), :type :invoke, :f :get, :key " +:+ dq +:+ "(.*)" +:+ dq +:+ ", :value nil\}".
Definition INVOKE_PUT : string :=
  "\{:process (\d+), :type :invoke, :f :put, :key " +:+ dq +:+ "(.*)" +:+ dq +:+ ", :value " +:+ dq +:+ "(.*)" +:+ dq +:+ "\}".
Definition INVOKE_APPEND : string :=
  "\{:process (\d+), :type :invoke, :f :append, :key " +:+ dq +:+ "(.*)" +:+ dq +:+ ", :value " +:+ dq +:+ "(.*)" +:+ dq +:+ "\}".
Definition RETURN_GET : string :=
  "\{:process (\d+), :type :ok, :f :get, :key " +:+ dq +:+ ".*" +:+ dq +:+ ", :value " +:+ dq +:+ "(.*)" +:+ dq +:+ "\}".
Definition RETURN_PUT : string :=
  "\{:process (\d+), :type :ok, :f :put, :key " +:+ dq +:+ ".*" +:+ dq +:+ ", :value " +:+ dq +:+ ".*" +:+ dq +:+ "\}".
Definition RETURN_APPEND : string :=
  "\{:process (\d+), :type :ok, :f :append, :key " +:+ dq +:+ ".*" +:+ dq +:+ ", :value " +:+ dq +:+ ".*" +:+ dq +:+ "\}".

(** ** The parser *)

(** [str::parse::<isize>]: an optional sign, at least one digit, no overflow. *)
Definition ISIZE_MAX : N := 2 ^ 63 - 1.

Definition parse_isize (s : string) : option Z :=
  let digits s := match s with String c _ => if is_digit c then parse_u64 s else None | "" => None end in
  match s with
  | String "-"%char s' => n ← digits s'; if (n <=? ISIZE_MAX + 1)%N then Some (- Z.of_N n)%Z else None
  | String "+"%char s' => n ← digits s'; if (n <=? ISIZE_MAX)%N then Some (Z.of_N n) else None
  | _ => n ← digits s; if (n <=? ISIZE_MAX)%N then Some (Z.of_N n) else None
  end.

(** The local variables of [parse_kv_log]. *)
Record Parser := mkParser {
  events : list KvEvent;
  id : nat;
  procid_map : gmap Z nat;
}.

Section parser.
Context {Error : Type} `{!Regex}.
Abbreviation MP := (M Error Parser).

(** [args[i]]. *)
Definition arg (args : list string) (i : nat) : MP string := expect (args !! i).

Definition push_event (e : KvEvent) : MP unit := modify (λ p, mkParser (events p ++ [e]) (id p) (procid_map p)).

(** The body of the first three branches. *)
Definition read_call (o : Op) (process key value : string) : MP unit :=
  n ← gets id;
  push_event (mkEvent CallEvent (Input (mkKvInput o key value)) n);;
  proc ← expect (parse_isize process);
  modify (λ p, mkParser (events p) (S n) (<[proc := n]> (procid_map p))).

(** The body of the last three. *)
Definition read_return (process value : string) : MP unit :=
  proc ← expect (parse_isize process);
  match_id ← gets (λ p, procid_map p !! proc) ≫= expect;
  modify (λ p, mkParser (events p) (id p) (delete proc (procid_map p)));;
  push_event (mkEvent ReturnEvent (Output (mkKvOutput value)) match_id).

Definition parse_line (contents : string) : MP unit :=
  match captures INVOKE_GET contents with
  | Some args => p ← arg args 1; k ← arg args 2; read_call GET p k ""
  | None =>
  match captures INVOKE_PUT contents with
  | Some args => p ← arg args 1; k ← arg args 2; v ← arg args 3; read_call PUT p k v
  | None =>
  match captures INVOKE_APPEND contents with
  | Some args => p ← arg args 1; k ← arg args 2; v ← arg args 3; read_call APPEND p k v
  | None =>
  match captures RETURN_GET contents with
  | Some args => p ← arg args 1; v ← arg args 2; read_return p v
  | None =>
  match captures RETURN_PUT contents with
  | Some args => p ← arg args 1; read_return p ""
  | None =>
  match captures RETURN_APPEND contents with
  | Some args => p ← arg args 1; read_return p ""
  | None => panic
  end end end end end end.

(** The file: an error of [File::open], or its lines, of which some may be errors too.
    [order] is the iteration order of the [HashMap]. *)
Definition parse_kv_log (order : list (Z * nat) → list (Z * nat)) (file : Error + list (Error + string)) :
    outcome Error (list KvEvent) :=
  match file with
  | inl e => Err e
  | inr lines =>
      fst ((for_each (λ line : Error + string, match line with inl _ => panic | inr contents => parse_line contents end) lines;;
       left ← gets procid_map;
       for_each (λ x : Z * nat, push_event (mkEvent ReturnEvent (Output (mkKvOutput "")) x.2)) (order (map_to_list left));;
       gets events) (mkParser [] 0 ∅))
  end.

(** [check_kv] up to the start of [check_events], and the assertion about its answer. *)
Definition check_kv (order : list (Z * nat) → list (Z * nat)) (order_parts : list (string * list KvEvent) → list (string * list KvEvent))
    (file : Error + list (Error + string)) : outcome Error (Check string KvInput KvOutput) :=
  match parse_kv_log order file with
  | Ok events => match partition_event order_parts events with
                 | Some parts => Ok (spawned (spawn_events parts))
                 | None => Panic
                 end
  | Err _ => Panic
  | o => match o with Diverge => Diverge | _ => Panic end
  end.

Definition assert_kv (res correct : bool) : outcome Error unit := if Bool.eqb res correct then Ok tt else Panic.
End parser.

(** ** What the engine promises

    A pattern of literal texts, digits in a group, and any text, in a group or not. *)
Inductive piece := Lit (s : string) | Digits | Any (group : bool).

(** [regex::escape]. *)
Definition is_meta (c : Ascii.ascii) : bool :=
  bool_decide (c ∈ ["\"; "."; "+"; "*"; "?"; "("; ")"; "|"; "["; "]"; "{"; "}"; "^"; "$"; "#"; "&"; "-"; "~"]%char).

Fixpoint escape (s : string) : string :=
  match s with
  | "" => ""
  | String c s' => if is_meta c then String "\" (String c (escape s')) else String c (escape s')
  end.

(** The text of a pattern. *)
Definition source (ps : list piece) : string :=
  foldr (λ p s, match p with
                | Lit t => escape t
                | Digits => "(\d+)"
                | Any true => "(.*)"
                | Any false => ".*"
                end +:+ s) "" ps.

Fixpoint has (c : Ascii.ascii) (s : string) : bool :=
  match s with "" => false | String c' s' => Ascii.eqb c c' || has c s' end.

Definition newline : Ascii.ascii := Ascii.ascii_of_nat 10.

Fixpoint forall_chars (P : Ascii.ascii → bool) (s : string) : bool :=
  match s with "" => true | String c s' => P c && forall_chars P s' end.

(** The text [s] fits the pattern, with these groups; [digit] says what a digit is. *)
Inductive fits (digit : Ascii.ascii → bool) : list piece → string → list string → Prop :=
| fits_nil : fits digit [] "" []
| fits_lit t ps s gs : fits digit ps s gs → fits digit (Lit t :: ps) (t +:+ s) gs
| fits_digits n ps s gs : n ≠ "" → forall_chars digit n = true → fits digit ps s gs → fits digit (Digits :: ps) (n +:+ s) (n :: gs)
| fits_any group t ps s gs : has newline t = false → fits digit ps s gs →
    fits digit (Any group :: ps) (t +:+ s) (if group then t :: gs else gs).

(** [\d] is any digit of Unicode: the digits of ASCII, and some texts of other bytes. *)
Definition digit_like (c : Ascii.ascii) : bool := is_digit c || (128 <=? nat_of_ascii c)%nat.

(** ** The lines of a log *)

Inductive item :=
| Invoke (p : N) (o : Op) (key value : string)
| Return (p : N) (o : Op) (key value : string).

(** The text between the process and the key. *)
Definition middle (ok : bool) (o : Op) : string :=
  ", :type :" +:+ (if ok then "ok" else "invoke") +:+ ", :f :" +:+ (match o with GET => "get" | PUT => "put" | APPEND => "append" end) +:+ ", :key " +:+ dq.

(** The text behind the key. *)
Definition tail (ok : bool) (o : Op) (value : string) : string :=
  dq +:+ match ok, o with
         | false, GET => ", :value nil}"
         | _, _ => ", :value " +:+ dq +:+ value +:+ dq +:+ "}"
         end.

Definition line (ok : bool) (p : N) (o : Op) (key value : string) : string :=
  "{:process " +:+ fmt_u64 p +:+ middle ok o +:+ key +:+ tail ok o value.

Definition print (it : item) : string :=
  match it with
  | Invoke p o k v => line false p o k v
  | Return p o k v => line true p o k v
  end.

Definition pattern (ok : bool) (o : Op) : list piece :=
  Lit "{:process " :: Digits :: Lit (middle ok o) :: Any (negb ok) ::
  match ok, o with
  | false, GET => [Lit (tail false GET "")]
  | false, _ => [Lit (dq +:+ ", :value " +:+ dq); Any true; Lit (dq +:+ "}")]
  | true, _ => [Lit (dq +:+ ", :value " +:+ dq); Any (match o with GET => true | _ => false end); Lit (dq +:+ "}")]
  end.

Lemma pattern_source ok o : source (pattern ok o) =
  match ok, o with
  | false, GET => INVOKE_GET | false, PUT => INVOKE_PUT | false, APPEND => INVOKE_APPEND
  | true, GET => RETURN_GET | true, PUT => RETURN_PUT | true, APPEND => RETURN_APPEND
  end.
Proof. destruct ok, o; vm_compute; reflexivity. Qed.

(** What is asked of the engine: a match is a part of the text that fits, and there is one
    when some part fits. *)
Class RegexLaws `{Regex} : Prop := {
  captures_fits ok o s args : captures (source (pattern ok o)) s = Some args →
    ∃ pre w gs post, args = w :: gs ∧ s = pre +:+ w +:+ post ∧ fits digit_like (pattern ok o) w gs;
  captures_some ok o pre w gs post : fits is_digit (pattern ok o) w gs →
    is_Some (captures (source (pattern ok o)) (pre +:+ w +:+ post));
}.

(** Keys and values without what would end them. *)
Definition plain (s : string) : Prop := has (Ascii.ascii_of_nat 34) s = false ∧ has "{" s = false ∧ has newline s = false.

(** ** Texts *)

Lemma append_assoc (a b c : string) : (a +:+ b) +:+ c = a +:+ b +:+ c.
Proof. induction a as [|x a IH]; [done|]. rewrite !string_app_cons. simpl. by rewrite IH. Qed.

Lemma append_nil_r (a : string) : a +:+ "" = a.
Proof. induction a as [|x a IH]; [done|]. rewrite string_app_cons. by rewrite IH. Qed.

Lemma has_app c a b : has c (a +:+ b) = has c a || has c b.
Proof. induction a as [|x a IH]; [done|]. rewrite !string_app_cons. simpl. by rewrite IH, orb_assoc. Qed.

Definition drop_first (s : string) : string := match s with String _ s' => s' | "" => "" end.

(** How often a character is in a text. *)
Fixpoint count (c : Ascii.ascii) (s : string) : nat :=
  match s with "" => 0 | String c' s' => (if Ascii.eqb c c' then 1 else 0) + count c s' end.

Lemma count_app c a b : count c (a +:+ b) = count c a + count c b.
Proof. induction a as [|x a IH]; [done|]. rewrite !string_app_cons. simpl. rewrite IH. lia. Qed.

Lemma has_count c s : has c s = false ↔ count c s = 0.
Proof. induction s as [|x s IH]; [done|]. simpl. destruct (Ascii.eqb c x); simpl; [naive_solver lia|exact IH]. Qed.

(** The first place of a character is one place. *)
Lemma split_first c a b s t : has c a = false → has c b = false → a +:+ String c s = b +:+ String c t → a = b ∧ s = t.
Proof.
  revert b. induction a as [|x a IH]; intros [|y b]; rewrite ?string_app_cons; simpl; intros Ha Hb Heq.
  - by injection Heq.
  - injection Heq as <- _. by rewrite Ascii.eqb_refl in Hb.
  - injection Heq as -> _. by rewrite Ascii.eqb_refl in Ha.
  - injection Heq as -> Heq. apply orb_false_iff in Ha as [_ Ha], Hb as [_ Hb].
    by destruct (IH b Ha Hb Heq) as [-> ->].
Qed.

Lemma forall_chars_has P c s : forall_chars P s = true → P c = false → has c s = false.
Proof.
  induction s as [|x s IH]; [done|]. simpl. intros [Hx Hs]%andb_true_iff Hc. rewrite IH by done.
  destruct (Ascii.eqb_spec c x) as [->|]; [congruence|done].
Qed.

Lemma all_digits_forall s : all_digits s = forall_chars is_digit s.
Proof. by induction s as [|c s IH]; [|simpl; rewrite IH]. Qed.

Lemma fmt_u64_has c n : is_digit c = false → has c (fmt_u64 n) = false.
Proof. apply forall_chars_has. rewrite <-all_digits_forall. apply fmt_u64_digits. Qed.

(** Two texts that start with a part without quotes, then a quote. *)
Lemma split_quote a b s t : has (Ascii.ascii_of_nat 34) a = false → has (Ascii.ascii_of_nat 34) b = false →
  a +:+ dq +:+ s = b +:+ dq +:+ t → a = b ∧ s = t.
Proof. apply split_first. Qed.

(** ** A pattern finds its own lines *)

Definition quote : Ascii.ascii := Ascii.ascii_of_nat 34.

(** [middle] up to its quote. *)
Definition middle0 (ok : bool) (o : Op) : string :=
  ", :type :" +:+ (if ok then "ok" else "invoke") +:+ ", :f :" +:+ (match o with GET => "get" | PUT => "put" | APPEND => "append" end) +:+ ", :key ".

Lemma middle_quote ok o s : middle ok o +:+ s = middle0 ok o +:+ dq +:+ s.
Proof. unfold middle, middle0. by rewrite !append_assoc. Qed.

Lemma middle0_inj ok o ok' o' : middle0 ok o = middle0 ok' o' → ok = ok' ∧ o = o'.
Proof. by destruct ok, o, ok', o'. Qed.

Lemma middle0_has ok o : has quote (middle0 ok o) = false.
Proof. by destruct ok, o. Qed.

(** What the groups of the pattern hold. *)
Definition groups (ok : bool) (p : N) (o : Op) (k v : string) : list string :=
  fmt_u64 p :: (if ok then [] else [k]) ++ (match ok, o with
    | false, GET | true, PUT | true, APPEND => []
    | _, _ => [v]
    end).

Lemma fits_line ok p o k v : plain k → plain v → fits is_digit (pattern ok o) (line ok p o k v) (groups ok p o k v).
Proof.
  intros (_ & _ & Hk) (_ & _ & Hv). unfold pattern, line, groups.
  apply fits_lit, (fits_digits _ (fmt_u64 p)), fits_lit; [apply fmt_u64_nonempty|by rewrite <-all_digits_forall, fmt_u64_digits|].
  assert (∀ g, fits is_digit [Lit (dq +:+ ", :value " +:+ dq); Any g; Lit (dq +:+ "}")]
    ((dq +:+ ", :value " +:+ dq) +:+ v +:+ (dq +:+ "}") +:+ "") (if g then [v] else [])) as Hlong.
  { intros g. apply fits_lit, (fits_any _ g v _ _ []); [done|]. apply fits_lit, fits_nil. }
  destruct ok.
  - apply (fits_any _ false k); [done|]. destruct o; apply Hlong.
  - destruct o; apply (fits_any _ true k); try done; [|apply (Hlong true)..].
    by apply (fits_lit _ (tail false GET "")), fits_nil.
Qed.

(** The text of the pattern behind the key. *)
Lemma fits_tail ok o s gs : fits digit_like (drop 4 (pattern ok o)) s gs →
  ∃ b, s = tail ok o b ∧ gs = match ok, o with false, GET | true, PUT | true, APPEND => [] | _, _ => [b] end.
Proof.
  destruct ok, o; cbn [pattern drop]; intros H;
    repeat match goal with H : fits _ (_ :: _) _ _ |- _ => inversion H; clear H; subst end;
    match goal with H : fits _ [] _ _ |- _ => inversion H; subst end;
    first [match goal with t : string |- _ => by exists t end|by exists ""].
Qed.

Lemma fits_pattern ok o s gs : fits digit_like (pattern ok o) s gs →
  ∃ n a b, s = "{:process " +:+ n +:+ middle ok o +:+ a +:+ tail ok o b ∧ has "," n = false ∧
    gs = n :: (if ok then [] else [a]) ++ (match ok, o with false, GET | true, PUT | true, APPEND => [] | _, _ => [b] end).
Proof.
  unfold pattern. intros H. inversion H as [|? ? s1 ? H1| |]; subst. inversion H1 as [| |n ? s2 gs2 Hn Hd H2|]; subst.
  inversion H2 as [|? ? s3 ? H3| |]; subst. inversion H3 as [| | |? a ? s4 gs4 Ha H4]; subst.
  destruct (fits_tail ok o s4 gs4) as (b & -> & ->); [exact H4|]. exists n, a, b. split_and!; [done| |by destruct ok].
  eapply forall_chars_has; [exact Hd|done].
Qed.

Lemma has_tail c ok o v : has c v = false → c = "{"%char ∨ c = newline → has c (tail ok o v) = false.
Proof.
  intros Hv Hc. unfold tail. destruct ok, o; rewrite ?has_app, ?Hv; destruct Hc as [->| ->]; done.
Qed.

Lemma count_tail ok o v : count quote (tail ok o v) = match ok, o with false, GET => 1 | _, _ => 3 + count quote v end.
Proof.
  assert (count quote dq = 1 ∧ count quote ", :value " = 0 ∧ count quote ", :value nil}" = 0 ∧ count quote "}" = 0) as (H1 & H2 & H3 & H4) by done.
  unfold tail. destruct ok, o; rewrite ?count_app, ?H1, ?H2, ?H3, ?H4; lia.
Qed.

(** A line has one way to be read. *)
Lemma read_line ok o ok' p o' k v pre w gs post : plain k → plain v → line ok' p o' k v = pre +:+ w +:+ post →
  fits digit_like (pattern ok o) w gs → ok = ok' ∧ o = o' ∧ w = line ok' p o' k v ∧ gs = groups ok' p o' k v.
Proof.
  intros (Hkq & Hkb & _) (Hvq & Hvb & _) Hline Hfit. destruct (fits_pattern ok o w gs Hfit) as (n & a & b & -> & Hn & Hgs).
  assert (pre = "") as ->.
  { destruct pre as [|c pre]; [done|]. exfalso.
    change (line ok' p o' k v) with (String "{" (":process " +:+ fmt_u64 p +:+ middle ok' o' +:+ k +:+ tail ok' o' v)) in Hline.
    rewrite (string_app_cons c pre) in Hline. apply (f_equal drop_first) in Hline; cbn [drop_first] in Hline. apply (f_equal (has "{")) in Hline. revert Hline.
    rewrite !has_app, (has_tail "{" ok' o' v), Hkb, (fmt_u64_has "{" p) by first [done|by left].
    destruct ok', o'; cbn; rewrite ?orb_true_r; done. }
  change ("" +:+ ?s) with s in Hline. unfold line in Hline. rewrite !append_assoc in Hline.
  apply (inj (String.append "{:process ")) in Hline.
  assert (∀ ok o s, middle ok o +:+ s = String "," (drop_first (middle ok o) +:+ s)) as Hcomma by (by intros [] []).
  rewrite !Hcomma in Hline. apply split_first in Hline as [<- Hline]; [|by apply fmt_u64_has|done].
  assert (middle ok' o' +:+ k +:+ tail ok' o' v = middle ok o +:+ a +:+ tail ok o b +:+ post) as Hrest by (by rewrite !Hcomma, Hline).
  rewrite !middle_quote in Hrest. apply split_quote in Hrest as [Hm Hrest]; [|apply middle0_has..].
  destruct (middle0_inj _ _ _ _ Hm) as [<- <-]. clear Hm Hline.
  apply has_count in Hkq, Hvq. pose proof (f_equal (count quote) Hrest) as Hcount. rewrite !count_app, !count_tail in Hcount.
  fold quote in Hkq, Hvq. rewrite Hkq in Hcount.
  assert (count quote a = 0) as Ha by (revert Hcount; destruct ok', o'; lia).
  unfold tail in Hrest. rewrite !append_assoc in Hrest.
  apply split_quote in Hrest as [<- Htail]; [|by apply has_count..].
  assert (match ok', o' with false, GET => True | _, _ => v = b end) as Hb.
  { assert (count quote b = 0 ∨ (ok' = false ∧ o' = GET)) as [Hb0|[-> ->]] by (revert Hcount; destruct ok', o'; lia || by auto); [|done].
    destruct ok', o'; try done; rewrite !append_assoc in Htail; apply (inj (String.append ", :value ")), (inj (String.append dq)) in Htail;
      apply (split_quote v b) in Htail as [<- _]; try done; by apply has_count. }
  split_and!; [done|done| |].
  - unfold line. destruct ok', o'; by rewrite ?Hb.
  - rewrite Hgs. unfold groups. destruct ok', o'; by rewrite ?Hb.
Qed.

Section reading.
Context `{R : Regex} {RL : RegexLaws}.

(** A pattern and a line. *)
Lemma captures_line ok o ok' p o' k v : plain k → plain v →
  captures (source (pattern ok o)) (line ok' p o' k v) =
  if decide (ok = ok' ∧ o = o') then Some (line ok' p o' k v :: groups ok' p o' k v) else None.
Proof.
  intros Hk Hv. destruct (captures _ _) as [args|] eqn:Hc.
  - destruct (captures_fits _ _ _ _ Hc) as (pre & w & gs & post & -> & Hs & Hf).
    destruct (read_line _ _ _ _ _ _ _ _ _ _ _ Hk Hv Hs Hf) as (-> & -> & -> & ->). by rewrite decide_True.
  - case_decide as Hd; [|done]. destruct Hd as [-> ->].
    destruct (captures_some ok' o' "" _ _ "" (fits_line ok' p o' k v Hk Hv)) as [args Ha].
    change ("" +:+ ?s) with s in Ha. by rewrite append_nil_r, Hc in Ha.
Qed.

(** ** A line is read as what was printed *)

Definition proc (it : item) : N := match it with Invoke p _ _ _ => p | Return p _ _ _ => p end.
Definition is_call (it : item) : bool := match it with Invoke _ _ _ _ => true | Return _ _ _ _ => false end.

(** What a line says; a [get] is called without a value, and only a [get] returns one. *)
Definition said_input (o : Op) (k v : string) : KvInput := mkKvInput o k (match o with GET => "" | _ => v end).
Definition said_output (o : Op) (v : string) : KvOutput := mkKvOutput (match o with GET => v | _ => "" end).

Definition plain_item (it : item) : Prop :=
  (proc it <= ISIZE_MAX)%N ∧ match it with Invoke _ _ k v | Return _ _ k v => plain k ∧ plain v end.

Lemma parse_isize_fmt p : (p <= ISIZE_MAX)%N → parse_isize (fmt_u64 p) = Some (Z.of_N p).
Proof.
  intros Hp. assert (parse_u64 (fmt_u64 p) = Some p) as Hparse by (apply parse_fmt_u64; unfold ISIZE_MAX, U64_MAX in *; lia).
  pose proof (fmt_u64_digits p) as Hd. unfold parse_isize. pose proof (fmt_u64_nonempty p) as Hne.
  destruct (fmt_u64 p) as [|c s] eqn:Hs; [done|]. cbn [all_digits] in Hd. apply andb_true_iff in Hd as [Hc _].
  assert (match String c s with
          | String "-"%char _ | String "+"%char _ => False
          | _ => True
          end) as Hsign by (by destruct c as [[] [] [] [] [] [] [] []]).
  destruct (Ascii.eqb_spec c "-"%char) as [->|H1]; [done|]. destruct (Ascii.eqb_spec c "+"%char) as [->|H2]; [done|].
  transitivity (n ← (if is_digit c then parse_u64 (String c s) else None); if (n <=? ISIZE_MAX)%N then Some (Z.of_N n) else None).
  { by destruct c as [[] [] [] [] [] [] [] []]. }
  rewrite Hc, Hparse. cbn. by rewrite (proj2 (N.leb_le _ _) Hp).
Qed.

Context {Error : Type}.

Lemma parse_print_line it (s : Parser) : plain_item it → parse_line (Error := Error) (print it) s =
  match it with
  | Invoke p o k v => (Ok tt, mkParser (events s ++ [mkEvent CallEvent (Input (said_input o k v)) (id s)]) (S (id s))
                                (<[Z.of_N p := id s]> (procid_map s)))
  | Return p o k v =>
      match procid_map s !! Z.of_N p with
      | Some n => (Ok tt, mkParser (events s ++ [mkEvent ReturnEvent (Output (said_output o v)) n]) (id s) (delete (Z.of_N p) (procid_map s)))
      | None => (Panic, s)
      end
  end.
Proof.
  intros [Hp Hkv]. unfold parse_line.
  rewrite <-(pattern_source false GET), <-(pattern_source false PUT), <-(pattern_source false APPEND),
    <-(pattern_source true GET), <-(pattern_source true PUT), <-(pattern_source true APPEND).
  apply parse_isize_fmt in Hp. destruct it as [p o k v|p o k v]; destruct Hkv as [Hk Hv]; cbn [proc] in Hp; cbn [print];
    rewrite !captures_line by done; destruct o;
    repeat first [rewrite decide_False by (by intros [])|rewrite decide_True by done].
  1-3: unfold read_call, arg, said_input; mpure; by rewrite Hp.
  all: unfold read_return, arg, said_output; mpure; rewrite Hp; mpure; unfold gets, mbind, M_bind; by destruct (procid_map s !! _).
Qed.
End reading.
