(* ===== verification/KvLogSpec.v ===== *)
(** * What a log of calls and returns says

    The events that [parse_kv_log] makes of a printed log: a call is numbered by the calls
    before it, and a return has the number of the call that its process is at; calls that
    never return do so at the end. Any events that it makes are well typed. *)

From S2P Require Import Prelude Lin LinSpec LinOps KvModel KvLog.

(** ** Logs *)

(** The item at [j] is by the process [p]. *)
Definition by_proc (h : list item) (p : N) (j : nat) : Prop := ∃ it, h !! j = Some it ∧ proc it = p.

(** The item at [i] is a call whose process does nothing up to [j]. *)
Definition at_call (h : list item) (i j : nat) : Prop :=
  ∃ it, h !! i = Some it ∧ is_call it = true ∧ i < j ∧ ∀ l, i < l < j → ¬ by_proc h (proc it) l.

(** The return at [j] answers the call at [i]. *)
Definition answers (h : list item) (i j : nat) : Prop :=
  at_call h i j ∧ ∃ it it', h !! i = Some it ∧ h !! j = Some it' ∧ is_call it' = false ∧ proc it' = proc it.

(** The call at [i] is never answered. *)
Definition pending (h : list item) (i : nat) : Prop := at_call h i (length h).

(** Every return has a call. *)
Definition well_formed (h : list item) : Prop :=
  ∀ j it, h !! j = Some it → is_call it = false → ∃ i, answers h i j.

(** A process does not call while it waits. *)
Definition sequential (h : list item) : Prop :=
  ∀ i j it it', at_call h i j → h !! i = Some it → h !! j = Some it' → proc it' = proc it → is_call it' = false.

Definition calls (h : list item) : nat := length (filter (λ it, is_call it = true) h).
Definition number (h : list item) (i : nat) : nat := calls (take i h).

Lemma calls_snoc h it : calls (h ++ [it]) = if is_call it then S (calls h) else calls h.
Proof.
  unfold calls. rewrite filter_app, length_app, filter_cons. destruct (is_call it); [rewrite decide_True by done|rewrite decide_False by done]; cbn; lia.
Qed.

Lemma number_app h h' i : i <= length h → number (h ++ h') i = number h i.
Proof. intros H. unfold number. by rewrite take_app_le. Qed.

Lemma number_le h i j : i <= j → number h i <= number h j.
Proof.
  intros H. unfold number, calls. rewrite <-(take_drop i (take j h)), take_take, Nat.min_l by done.
  rewrite filter_app, length_app. lia.
Qed.

Lemma number_lt h i j it : h !! i = Some it → is_call it = true → i < j → number h i < number h j.
Proof.
  intros Hi Hc Hij. apply Nat.lt_le_trans with (number h (S i)); [|by apply number_le].
  unfold number. rewrite (take_S_r _ _ _ Hi), calls_snoc, Hc. lia.
Qed.

Lemma number_bound h i it : h !! i = Some it → is_call it = true → number h i < calls h.
Proof.
  intros Hi Hc. pose proof (number_lt h i (length h) it Hi Hc (lookup_lt_Some _ _ _ Hi)) as H.
  unfold number in H at 2. by rewrite take_ge in H.
Qed.

Lemma number_inj h i j it it' : h !! i = Some it → is_call it = true → h !! j = Some it' → is_call it' = true →
  number h i = number h j → i = j.
Proof.
  intros Hi Hc Hj Hc' Hn. destruct (lt_eq_lt_dec i j) as [[H|H]|H]; [|done|].
  - pose proof (number_lt h i j it Hi Hc H). lia.
  - pose proof (number_lt h j i it' Hj Hc' H). lia.
Qed.

(** ** Adding an item *)

Lemma by_proc_snoc h it p j : by_proc (h ++ [it]) p j ↔ by_proc h p j ∨ (j = length h ∧ proc it = p).
Proof.
  unfold by_proc. split.
  - intros (x & [Hx|[Hj Hx]]%lookup_app_Some & Hp); [by eauto|]. right. 
    destruct (j - length h) as [|k] eqn:E; [|done]. injection Hx as <-. split; [lia|done].
  - intros [(x & Hx & Hp)|[-> Hp]]; [exists x; split; [by apply lookup_app_l_Some|done]|].
    exists it. by rewrite lookup_app_r, Nat.sub_diag by lia.
Qed.

Lemma by_proc_lt h p j : by_proc h p j → j < length h.
Proof. intros (it & H & _). by eapply lookup_lt_Some. Qed.

Lemma by_proc_app h h' p j : j < length h → by_proc (h ++ h') p j ↔ by_proc h p j.
Proof. intros Hj. unfold by_proc. by rewrite lookup_app_l. Qed.

Lemma at_call_app h h' i j : j <= length h → at_call (h ++ h') i j ↔ at_call h i j.
Proof.
  intros Hj. unfold at_call. split; intros (x & Hi & Hc & Hij & Hl); exists x.
  - rewrite lookup_app_l in Hi by lia. split_and!; [done..|]. intros l Hlj Hb. apply (Hl l Hlj), by_proc_app; [lia|done].
  - rewrite lookup_app_l by lia. split_and!; [done..|]. intros l Hlj Hb%by_proc_app; [by eapply Hl|lia].
Qed.

Lemma answers_app h h' i j : j < length h → answers (h ++ h') i j ↔ answers h i j.
Proof.
  intros Hj. unfold answers. rewrite at_call_app by lia. split; intros [Ha (x & y & Hx & Hy & ?)];
    (split; [done|]); exists x, y; (assert (i < j) as Hij by (by destruct Ha as (? & _ & _ & ? & _)));
    [rewrite lookup_app_l in Hx, Hy by lia|rewrite !lookup_app_l by lia]; done.
Qed.

Lemma well_formed_app h h' : well_formed (h ++ h') → well_formed h.
Proof.
  intros Hw j it Hj Hc. pose proof (lookup_lt_Some _ _ _ Hj) as Hlt. destruct (Hw j it) as [i Hi]; [by apply lookup_app_l_Some|done|].
  exists i. by apply answers_app in Hi.
Qed.

(** After a call, it is pending, and what was pending of other processes. *)
Lemma pending_call h it i : is_call it = true →
  pending (h ++ [it]) i ↔ i = length h ∨ (pending h i ∧ ∃ x, h !! i = Some x ∧ proc x ≠ proc it).
Proof.
  intros Hit. unfold pending. rewrite length_app. cbn. split.
  - intros (x & Hi & Hc & Hij & Hl). destruct (decide (i = length h)) as [->|Hne]; [by left|right].
    rewrite lookup_app_l in Hi by lia. split.
    + exists x. split_and!; [done|done|lia|]. intros l Hll Hb. apply (Hl l); [lia|]. apply by_proc_snoc. by left.
    + exists x. split; [done|]. intros Hp. apply (Hl (length h)); [lia|]. apply by_proc_snoc. by right.
  - intros [->|((x & Hi & Hc & Hij & Hl) & y & Hy & Hp)].
    + exists it. rewrite lookup_app_r, Nat.sub_diag by lia. split_and!; [done|done|lia|intros; lia].
    + rewrite Hi in Hy. injection Hy as <-. exists x. rewrite lookup_app_l by done. split_and!; [done|done|lia|].
      intros l Hll [Hb|[-> He]]%by_proc_snoc; [|done]. apply (Hl l); [|done]. split; [lia|]. by eapply by_proc_lt.
Qed.

(** After a return, only what other processes wait for. *)
Lemma pending_return h it i : is_call it = false →
  pending (h ++ [it]) i ↔ pending h i ∧ ∃ x, h !! i = Some x ∧ proc x ≠ proc it.
Proof.
  intros Hit. unfold pending. rewrite length_app. cbn. split.
  - intros (x & Hi & Hc & Hij & Hl). destruct (decide (i = length h)) as [->|Hne].
    { rewrite lookup_app_r, Nat.sub_diag in Hi by lia. injection Hi as <-. congruence. }
    rewrite lookup_app_l in Hi by lia. split.
    + exists x. split_and!; [done|done|lia|]. intros l Hll Hb. apply (Hl l); [lia|]. apply by_proc_snoc. by left.
    + exists x. split; [done|]. intros Hp. apply (Hl (length h)); [lia|]. apply by_proc_snoc. by right.
  - intros ((x & Hi & Hc & Hij & Hl) & y & Hy & Hp).
    rewrite Hi in Hy. injection Hy as <-. exists x. rewrite lookup_app_l by done. split_and!; [done|done|lia|].
    intros l Hll [Hb|[-> He]]%by_proc_snoc; [|done]. apply (Hl l); [|done]. split; [lia|]. by eapply by_proc_lt.
Qed.

(** A process waits for one call at most. *)
Lemma pending_one h i j x y : pending h i → pending h j → h !! i = Some x → h !! j = Some y → proc x = proc y → i = j.
Proof.
  assert (∀ i j x y, pending h i → h !! i = Some x → h !! j = Some y → proc x = proc y → ¬ i < j) as H.
  { intros i' j' x' y' (z & Hi & _ & _ & Hl) Hx Hy Hp Hlt. rewrite Hx in Hi. injection Hi as <-.
    apply (Hl j'); [split; [done|by eapply lookup_lt_Some]|]. by exists y'. }
  intros Hi Hj Hx Hy Hp. pose proof (H i j x y Hi Hx Hy Hp). pose proof (H j i y x Hj Hy Hx (eq_sym Hp)). lia.
Qed.

(** ** What the parser knows after the items of [h] *)

Record read_upto (h : list item) (s : Parser) : Prop := {
  ru_id : id s = calls h;
  ru_length : length (events s) = length h;
  ru_call : ∀ i p o k v, h !! i = Some (Invoke p o k v) →
    events s !! i = Some (mkEvent CallEvent (Input (said_input o k v)) (number h i));
  ru_return : ∀ i j p o k v, answers h i j → h !! j = Some (Return p o k v) →
    events s !! j = Some (mkEvent ReturnEvent (Output (said_output o v)) (number h i));
  ru_map : ∀ z n, procid_map s !! z = Some n ↔
    ∃ i x, pending h i ∧ h !! i = Some x ∧ z = Z.of_N (proc x) ∧ n = number h i;
}.

Lemma pending_lookup h i : pending h i → ∃ x, h !! i = Some x ∧ is_call x = true ∧ i < length h.
Proof. intros (x & Hi & Hc & Hij & _). eauto. Qed.

Lemma snoc_lookup {A} (h : list A) x i y : (h ++ [x]) !! i = Some y → (i < length h ∧ h !! i = Some y) ∨ (i = length h ∧ y = x).
Proof.
  intros [H|[Hle H]]%lookup_app_Some; [left; split; [by eapply lookup_lt_Some|done]|right].
  destruct (i - length h) as [|n] eqn:E; [|done]. injection H as <-. split; [lia|done].
Qed.

(** What was known of earlier items stays. *)
Lemma events_earlier h s e : read_upto h s → ∀ i, i < length h → (events s ++ [e]) !! i = events s !! i.
Proof. intros Hr i Hi. by rewrite lookup_app_l by (by rewrite (ru_length _ _ Hr)). Qed.

Lemma read_call_item h s p o k v : read_upto h s →
  read_upto (h ++ [Invoke p o k v]) (mkParser (events s ++ [mkEvent CallEvent (Input (said_input o k v)) (id s)]) (S (id s))
    (<[Z.of_N p := id s]> (procid_map s))).
Proof.
  intros Hr. split; cbn [events id procid_map].
  - by rewrite calls_snoc, (ru_id _ _ Hr).
  - by rewrite !length_app, (ru_length _ _ Hr).
  - intros i p' o' k' v' [[Hlt Hi]|[-> [= -> -> -> ->]]]%snoc_lookup.
    + rewrite (events_earlier h), number_app by (done || lia). by eapply ru_call.
    + rewrite <-(ru_length _ _ Hr), lookup_app_r, Nat.sub_diag by lia. cbn. rewrite (ru_length _ _ Hr), number_app by lia.
      unfold number. by rewrite take_ge, (ru_id _ _ Hr).
  - intros i j p' o' k' v' Ha [[Hlt Hj]|[_ ?]]%snoc_lookup; [|done]. apply answers_app in Ha; [|done].
    assert (i < j) as Hij by (destruct Ha as [(? & _ & _ & ? & _) _]; done).
    rewrite (events_earlier h), number_app by (done || lia). by eapply ru_return.
  - intros z n. rewrite lookup_insert_Some, (ru_map _ _ Hr). setoid_rewrite pending_call; [|done]. split.
    + intros [[<- <-]|[Hne (i & x & Hp & Hx & -> & ->)]].
      * exists (length h), (Invoke p o k v). rewrite lookup_app_r, Nat.sub_diag, number_app by lia.
        split_and!; [by left|done|done|]. unfold number. by rewrite take_ge, (ru_id _ _ Hr).
      * destruct (pending_lookup _ _ Hp) as (_ & _ & _ & Hlt). exists i, x. rewrite lookup_app_l, number_app by lia.
        split_and!; [right|done..]. split; [done|]. exists x. split; [done|]. cbn. intros Heq. apply Hne. by rewrite Heq.
    + intros (i & x & [->|[Hp (y & Hy & Hpy)]] & Hx & -> & ->).
      * left. rewrite lookup_app_r, Nat.sub_diag in Hx by lia. injection Hx as <-. split; [done|].
        rewrite number_app by lia. unfold number. by rewrite take_ge, (ru_id _ _ Hr).
      * right. destruct (pending_lookup _ _ Hp) as (_ & _ & _ & Hlt). rewrite lookup_app_l in Hx by lia.
        rewrite Hy in Hx. injection Hx as ->. split; [intros ?; apply Hpy; cbn; lia|].
        exists i, x. rewrite number_app by lia. done.
Qed.

Lemma read_return_item h s p o k v n : read_upto h s → well_formed (h ++ [Return p o k v]) → procid_map s !! Z.of_N p = Some n →
  read_upto (h ++ [Return p o k v]) (mkParser (events s ++ [mkEvent ReturnEvent (Output (said_output o v)) n]) (id s)
    (delete (Z.of_N p) (procid_map s))).
Proof.
  intros Hr Hw Hn. apply (ru_map _ _ Hr) in Hn as (i0 & x0 & Hp0 & Hx0 & Hpx0 & ->).
  assert (proc x0 = p) as Hx0p by lia. split; cbn [events id procid_map].
  - by rewrite calls_snoc, (ru_id _ _ Hr).
  - by rewrite !length_app, (ru_length _ _ Hr).
  - intros i p' o' k' v' [[Hlt Hi]|[_ ?]]%snoc_lookup; [|done].
    rewrite (events_earlier h), number_app by (done || lia). by eapply ru_call.
  - intros i j p' o' k' v' Ha [[Hlt Hj]|[-> [= -> -> -> ->]]]%snoc_lookup.
    + apply answers_app in Ha; [|done]. assert (i < j) as Hij by (destruct Ha as [(? & _ & _ & ? & _) _]; done).
      rewrite (events_earlier h), number_app by (done || lia). by eapply ru_return.
    + destruct Ha as [Hc (x & y & Hx & Hy & _ & Hpr)]. apply at_call_app in Hc; [|done].
      assert (i = i0) as ->.
      { assert (i < length h) as Hi by (by destruct Hc as (? & _ & _ & ? & _)). rewrite lookup_app_l in Hx by done.
        apply (pending_one h i i0 x x0); [exact Hc|done..|].
        rewrite lookup_app_r, Nat.sub_diag in Hy by lia. injection Hy as <-. cbn in Hpr. congruence. }
      destruct (pending_lookup _ _ Hp0) as (_ & _ & _ & Hlt).
      rewrite <-(ru_length _ _ Hr), lookup_app_r, Nat.sub_diag by lia. by rewrite number_app by lia.
  - intros z n. rewrite lookup_delete_Some, (ru_map _ _ Hr). setoid_rewrite pending_return; [|done]. split.
    + intros [Hne (i & x & Hp & Hx & -> & ->)]. destruct (pending_lookup _ _ Hp) as (_ & _ & _ & Hlt).
      exists i, x. rewrite lookup_app_l, number_app by lia. split_and!; try done. exists x. split; [done|]. cbn. intros Heq. apply Hne. by rewrite Heq.
    + intros (i & x & [Hp (y & Hy & Hpy)] & Hx & -> & ->). destruct (pending_lookup _ _ Hp) as (_ & _ & _ & Hlt).
      rewrite lookup_app_l in Hx by lia. rewrite Hy in Hx. injection Hx as ->.
      split; [intros ?; apply Hpy; cbn; lia|]. exists i, x. rewrite number_app by lia. done.
Qed.

(** ** The whole log *)

Definition late_return (n : nat) : KvEvent := mkEvent ReturnEvent (Output (mkKvOutput "")) n.

(** The events of a log: those of its items, and returns of the pending calls. *)
Record reads_as (h : list item) (evs : list KvEvent) : Prop := {
  ra_call : ∀ i p o k v, h !! i = Some (Invoke p o k v) →
    evs !! i = Some (mkEvent CallEvent (Input (said_input o k v)) (number h i));
  ra_return : ∀ i j p o k v, answers h i j → h !! j = Some (Return p o k v) →
    evs !! j = Some (mkEvent ReturnEvent (Output (said_output o v)) (number h i));
  ra_rest : ∃ ns, drop (length h) evs = late_return <$> ns ∧ NoDup ns ∧ ∀ n, n ∈ ns ↔ ∃ i, pending h i ∧ n = number h i;
}.

Lemma for_each_push {Error A} (f : A → KvEvent) (l : list A) (s : Parser) :
  for_each (E := Error) (λ x, push_event (f x)) l s = (Ok tt, mkParser (events s ++ (f <$> l)) (id s) (procid_map s)).
Proof.
  revert s. induction l as [|x l IH]; intros s; cbn [for_each]; [by rewrite app_nil_r; destruct s|].
  unfold push_event at 1. mpure. rewrite IH. cbn. by rewrite <-app_assoc.
Qed.

Section printed.
Context `{R : Regex} {RL : RegexLaws} {Error : Type}.

Lemma read_item h it s : read_upto h s → plain_item it → well_formed (h ++ [it]) →
  ∃ s', parse_line (Error := Error) (print it) s = (Ok tt, s') ∧ read_upto (h ++ [it]) s'.
Proof.
  intros Hr Hp Hw. rewrite (parse_print_line it s Hp). destruct it as [p o k v|p o k v].
  - eexists. split; [done|]. by apply read_call_item.
  - destruct (Hw (length h) (Return p o k v)) as (i & Hc & x & y & Hx & Hy & _ & Hpr); [by rewrite lookup_app_r, Nat.sub_diag by lia|done|].
    rewrite lookup_app_r, Nat.sub_diag in Hy by lia. injection Hy as <-. apply at_call_app in Hc; [|done].
    destruct (pending_lookup _ _ Hc) as (_ & _ & _ & Hlt). rewrite lookup_app_l in Hx by lia.
    assert (procid_map s !! Z.of_N p = Some (number h i)) as Hmap.
    { apply (ru_map _ _ Hr). exists i, x. split_and!; [done|done| |done]. cbn in Hpr. by rewrite Hpr. }
    rewrite Hmap. eexists. split; [done|]. by apply read_return_item.
Qed.

Definition parse_file_line (l : Error + string) : M Error Parser unit :=
  match l with inl _ => panic | inr contents => parse_line contents end.

Lemma read_items h2 : ∀ h1 s, read_upto h1 s → Forall plain_item h2 → well_formed (h1 ++ h2) →
  ∃ s', for_each parse_file_line (inr <$> (print <$> h2)) s = (Ok tt, s') ∧ read_upto (h1 ++ h2) s'.
Proof.
  induction h2 as [|it h2 IH]; intros h1 s Hr Hp Hw; [exists s; by rewrite app_nil_r|].
  apply Forall_cons in Hp as [Hit Hp]. rewrite (cons_middle it h1 h2), app_assoc in Hw |- *.
  destruct (read_item h1 it s Hr Hit) as (s1 & Hrun & Hr1); [by eapply well_formed_app|].
  destruct (IH _ _ Hr1 Hp Hw) as (s2 & Hrun2 & Hr2). exists s2. split; [|done].
  cbn [fmap list_fmap for_each]. by rewrite (bind_ok _ _ _ _ _ Hrun).
Qed.

Lemma read_upto_nil : read_upto [] (mkParser [] 0 ∅).
Proof.
  split; try done. intros z n. cbn [procid_map]. rewrite lookup_empty. split; [done|]. intros (i & x & _ & Hx & _). done.
Qed.

Lemma parse_printed order h : (∀ l, order l ≡ₚ l) → Forall plain_item h → well_formed h →
  ∃ evs, parse_kv_log (Error := Error) order (inr (inr <$> (print <$> h))) = Ok evs ∧ reads_as h evs.
Proof.
  intros Ho Hp Hw. destruct (read_items h [] _ read_upto_nil Hp Hw) as (s & Hrun & Hr). cbn [app] in Hr.
  eexists. split.
  { unfold parse_kv_log. fold parse_file_line. rewrite (bind_ok _ _ _ _ _ Hrun). mpure.
    rewrite (bind_ok _ _ _ _ _ (for_each_push (λ x : Z * nat, late_return x.2) _ s)). reflexivity. }
  cbn [events]. split.
  - intros i p o k v Hi. rewrite lookup_app_l; [by eapply ru_call|]. rewrite (ru_length _ _ Hr). by eapply lookup_lt_Some.
  - intros i j p o k v Ha Hj. rewrite lookup_app_l; [by eapply ru_return|]. rewrite (ru_length _ _ Hr). by eapply lookup_lt_Some.
  - exists ((order (map_to_list (procid_map s))).*2). split_and!.
    + rewrite <-(ru_length _ _ Hr), drop_app_length. by rewrite <-list_fmap_compose.
    + rewrite Ho. apply NoDup_fmap_2_strong; [|apply NoDup_map_to_list].
      intros [z n] [z' n'] Hz%elem_of_map_to_list Hz'%elem_of_map_to_list; cbn. intros ->.
      apply (ru_map _ _ Hr) in Hz as (i & x & Hpi & Hx & -> & Hn), Hz' as (i' & x' & Hpi' & Hx' & -> & Hn').
      destruct (pending_lookup _ _ Hpi) as (y & Hy & Hc & _), (pending_lookup _ _ Hpi') as (y' & Hy' & Hc' & _).
      assert (i = i') as -> by (eapply number_inj; [exact Hy|done|exact Hy'|done|congruence]). by simplify_eq.
    + intros n. rewrite Ho, list_elem_of_fmap. split.
      * intros ([z m] & -> & Hz%elem_of_map_to_list). apply (ru_map _ _ Hr) in Hz as (i & x & Hpi & _ & _ & ->). by exists i.
      * intros (i & Hpi & ->). destruct (pending_lookup _ _ Hpi) as (x & Hx & _). exists (Z.of_N (proc x), number h i). split; [done|].
        apply elem_of_map_to_list, (ru_map _ _ Hr). by exists i, x.
Qed.
End printed.
