(* ===== verification/KvLogParts.v ===== *)
(** * The parts of a log of events

    Events that the parser makes are well typed, so [partition_event] does not panic on
    them; and the parts of a complete history are complete. *)

From S2P Require Import Prelude Lin LinSpec LinOps KvModel KvLog KvLogSpec.

(** ** Well-typed events *)

Definition is_call_event (e : KvEvent) : bool := match ev_kind e with CallEvent => true | ReturnEvent => false end.

(** Calls have inputs and are numbered from zero; a return has an output and the number of
    an earlier call that no one returned from yet. *)
Definition event_ok (evs : list KvEvent) (e : KvEvent) : Prop :=
  if is_call_event e
  then (∃ inp, ev_value e = Input inp) ∧ ev_id e = length (filter (λ e, is_call_event e = true) evs)
  else (∃ out, ev_value e = Output out) ∧
       (∃ c, c ∈ evs ∧ is_call_event c = true ∧ ev_id c = ev_id e) ∧
       (∀ r, r ∈ evs → is_call_event r = false → ev_id r ≠ ev_id e).

Inductive typed : list KvEvent → Prop :=
| typed_nil : typed []
| typed_snoc evs e : typed evs → event_ok evs e → typed (evs ++ [e]).

Lemma typed_snoc_inv evs e : typed (evs ++ [e]) → typed evs ∧ event_ok evs e.
Proof. inversion 1 as [Hnil|evs' e' Ht He Heq]; [by destruct evs|]. by apply app_inj_tail in Heq as [-> ->]. Qed.

Lemma typed_app evs evs' : typed (evs ++ evs') → typed evs.
Proof.
  induction evs' as [|e evs' IH] using rev_ind; [by rewrite app_nil_r|].
  rewrite app_assoc. by intros [H _]%typed_snoc_inv; apply IH.
Qed.

Abbreviation ncalls evs := (length (filter (λ e : KvEvent, is_call_event e = true) evs)).

Lemma ncalls_snoc evs e : ncalls (evs ++ [e]) = if is_call_event e then S (ncalls evs) else ncalls evs.
Proof.
  rewrite filter_app, length_app, filter_cons.
  destruct (is_call_event e); [rewrite decide_True by done|rewrite decide_False by done]; cbn; lia.
Qed.

Lemma typed_ids evs e : typed evs → e ∈ evs → ev_id e < ncalls evs.
Proof.
  intros H. revert e. induction H as [|evs e' Ht IH He]; [by intros e ?%not_elem_of_nil|].
  intros e. rewrite ncalls_snoc. intros [Hin| ->%list_elem_of_singleton]%elem_of_app.
  - specialize (IH e Hin). destruct (is_call_event e'); lia.
  - unfold event_ok in He. destruct (is_call_event e'); [lia|].
    destruct He as (_ & (c & Hc & _ & <-) & _). by apply IH.
Qed.

(** What the parser keeps true. *)
Record parser_ok (s : Parser) : Prop := {
  po_typed : typed (events s);
  po_id : id s = ncalls (events s);
  po_map : ∀ z n, procid_map s !! z = Some n →
    (∃ c, c ∈ events s ∧ is_call_event c = true ∧ ev_id c = n) ∧
    (∀ r, r ∈ events s → is_call_event r = false → ev_id r ≠ n);
  po_inj : ∀ z z' n, procid_map s !! z = Some n → procid_map s !! z' = Some n → z = z';
}.

Section parser.
Context `{R : Regex} {Error : Type}.

Lemma read_call_ok o p k v s s' : parser_ok s → read_call (Error := Error) o p k v s = (Ok tt, s') → parser_ok s'.
Proof.
  intros Hok. unfold read_call. mpure. unfold push_event. mpure.
  destruct (parse_isize p) as [z|]; [|done]. cbn. intros [= <-].
  set (e := mkEvent CallEvent (Input (mkKvInput o k v)) (id s)).
  assert (∀ x n, procid_map s !! x = Some n → n < id s) as Hlt.
  { intros x n (( c & Hc & _ & <-) & _)%(po_map _ Hok). rewrite (po_id _ Hok). apply typed_ids; [apply Hok|done]. }
  split; cbn [events id procid_map].
  - apply typed_snoc; [apply Hok|]. split; [by eexists|]. apply Hok.
  - rewrite ncalls_snoc. cbn. by rewrite (po_id _ Hok).
  - intros x n. rewrite lookup_insert_Some. intros [[<- <-]|[Hne Hx]].
    + split; [exists e; split; [set_solver|done]|]. intros r [Hr| ->%list_elem_of_singleton]%elem_of_app Hk; [|done].
      pose proof (typed_ids _ r (po_typed _ Hok) Hr). rewrite <-(po_id _ Hok) in H. lia.
    + destruct (po_map _ Hok _ _ Hx) as ((c & Hc & ? & ?) & Hnr). split; [exists c; split; [set_solver|done]|].
      intros r [Hr| ->%list_elem_of_singleton]%elem_of_app Hk; [by apply Hnr|done].
  - intros x x' n. rewrite !lookup_insert_Some. intros [[<- <-]|[_ Hx]] [[<- Hn]|[_ Hx']]; [done|..|by eapply po_inj].
    + apply Hlt in Hx'. lia.
    + apply Hlt in Hx. lia.
Qed.

Lemma push_return_ok z n out s : parser_ok s → procid_map s !! z = Some n →
  parser_ok (mkParser (events s ++ [mkEvent ReturnEvent (Output out) n]) (id s) (delete z (procid_map s))).
Proof.
  intros Hok Hz. destruct (po_map _ Hok _ _ Hz) as [Hc Hnr]. split; cbn [events id procid_map].
  - apply typed_snoc; [apply Hok|]. split; [by eexists|done].
  - rewrite ncalls_snoc. apply Hok.
  - intros x m [Hne Hx]%lookup_delete_Some. destruct (po_map _ Hok _ _ Hx) as ((c & Hcin & ? & ?) & Hnr').
    split; [exists c; split; [set_solver|done]|]. intros r [Hr| ->%list_elem_of_singleton]%elem_of_app Hk; [by apply Hnr'|].
    cbn. intros ->. by apply Hne, (po_inj _ Hok _ _ m).
  - intros x x' m [_ ?]%lookup_delete_Some [_ ?]%lookup_delete_Some. by eapply po_inj.
Qed.

Lemma read_return_ok p v s s' : parser_ok s → read_return (Error := Error) p v s = (Ok tt, s') → parser_ok s'.
Proof.
  intros Hok. unfold read_return. destruct (parse_isize p) as [z|]; [|done]. cbn [expect]. mpure.
  unfold gets, mbind, M_bind, modify, push_event. destruct (procid_map s !! z) as [n|] eqn:Hz; [|done]. cbn. intros [= <-].
  by apply push_return_ok.
Qed.

Lemma parse_line_ok contents s s' : parser_ok s → parse_line (Error := Error) contents s = (Ok tt, s') → parser_ok s'.
Proof.
  intros Hok. unfold parse_line, arg.
  repeat (destruct (captures _ contents) as [args|];
    [destruct (args !! 1), (args !! 2), (args !! 3); try done; cbn [expect]; mpure;
      first [by apply read_call_ok|by apply read_return_ok]|]). done.
Qed.
End parser.

(** The returns at the end. *)
Lemma typed_late ns : ∀ evs, typed evs → NoDup ns →
  (∀ n, n ∈ ns → (∃ c, c ∈ evs ∧ is_call_event c = true ∧ ev_id c = n) ∧ (∀ r, r ∈ evs → is_call_event r = false → ev_id r ≠ n)) →
  typed (evs ++ (late_return <$> ns)).
Proof.
  induction ns as [|n ns IH]; intros evs Ht Hnd Hns; [by rewrite app_nil_r|].
  apply NoDup_cons in Hnd as [Hn Hnd]. cbn [fmap list_fmap]. rewrite cons_middle, app_assoc.
  destruct (Hns n) as [Hc Hr]; [by left|]. apply IH; [|done|].
  - apply typed_snoc; [done|]. split_and!; [by eexists|done|done].
  - intros m Hm. destruct (Hns m) as [(c & Hcin & ? & ?) Hmr]; [by right|]. split; [exists c; split; [set_solver|done]|].
    intros r [Hrin| ->%list_elem_of_singleton]%elem_of_app Hk; [by apply Hmr|]. cbn. by intros ->.
Qed.

Lemma parse_kv_log_typed `{R : Regex} {Error} order file evs : (∀ l, order l ≡ₚ l) →
  parse_kv_log (Error := Error) order file = Ok evs → typed evs.
Proof.
  intros Ho. destruct file as [e|lines]; [done|]. unfold parse_kv_log. fold (parse_file_line (Error := Error)).
  unfold mbind at 1, M_bind at 1. destruct (for_each parse_file_line lines _) as [[[]| | |] s] eqn:Hrun; try done.
  assert (parser_ok s) as Hok.
  { eapply (for_each_inv parser_ok); [| |exact Hrun].
    - intros [e|contents] s1 s2 Hs; [done|]. by apply parse_line_ok.
    - split; cbn; [constructor|done|by intros z n; rewrite lookup_empty..]. }
  mpure. rewrite (bind_ok _ _ _ _ _ (for_each_push (λ x : Z * nat, late_return x.2) _ s)). cbn. intros [= <-].
  change (λ x : Z * nat, late_return x.2) with (late_return ∘ @snd Z nat). rewrite list_fmap_compose. apply typed_late; [apply Hok| |].
  - rewrite Ho. apply NoDup_fmap_2_strong; [|apply NoDup_map_to_list].
    intros [z n] [z' n'] Hz%elem_of_map_to_list Hz'%elem_of_map_to_list; cbn. intros ->.
    by rewrite (po_inj _ Hok z z' n').
  - intros n. rewrite Ho, list_elem_of_fmap. intros ([z m] & -> & Hz%elem_of_map_to_list). by apply (po_map _ Hok z).
Qed.

(** ** Keys *)

(** The keys of the calls, by their numbers; [matched] of [partition_event]. *)
Definition keys_of (evs : list KvEvent) : gmap nat string :=
  foldl (λ M e, match ev_kind e, input (ev_value e) with CallEvent, Some i => <[ev_id e := key i]> M | _, _ => M end) ∅ evs.

Lemma keys_of_snoc evs e : keys_of (evs ++ [e]) =
  match ev_kind e, input (ev_value e) with CallEvent, Some i => <[ev_id e := key i]> (keys_of evs) | _, _ => keys_of evs end.
Proof. unfold keys_of. by rewrite foldl_app. Qed.

Lemma keys_of_lookup evs : typed evs → ∀ n k, keys_of evs !! n = Some k ↔
  ∃ c inp, c ∈ evs ∧ is_call_event c = true ∧ ev_value c = Input inp ∧ ev_id c = n ∧ key inp = k.
Proof.
  intros H. induction H as [|evs e Ht IH He]; intros n k.
  { split; [done|]. by intros (c & inp & ?%not_elem_of_nil & _). }
  rewrite keys_of_snoc. unfold event_ok, is_call_event in He. destruct (ev_kind e) eqn:Hk.
  - destruct He as [[inp Hv] Hid]. rewrite Hv. cbn [input]. rewrite lookup_insert_Some, IH. split.
    + intros [[<- <-]|[Hne (c & inp' & Hc & ?)]].
      * exists e, inp. unfold is_call_event. rewrite Hk. split; [set_solver|done].
      * exists c, inp'. split; [set_solver|done].
    + intros (c & inp' & [Hc| ->%list_elem_of_singleton]%elem_of_app & Hcc & Hcv & <- & <-).
      * right. split; [|by exists c, inp']. pose proof (typed_ids _ _ Ht Hc). unfold is_call_event in *. lia.
      * left. rewrite Hv in Hcv. by injection Hcv as ->.
  - rewrite IH. split; intros (c & inp & Hc & Hcc & ?); exists c, inp; (split; [|done]); [set_solver|].
    apply elem_of_app in Hc as [Hc| ->%list_elem_of_singleton]; [done|]. unfold is_call_event in Hcc. by rewrite Hk in Hcc.
Qed.

(** Earlier calls keep their keys. *)
Lemma keys_of_app evs evs' n k : typed (evs ++ evs') → keys_of evs !! n = Some k → keys_of (evs ++ evs') !! n = Some k.
Proof.
  intros Ht. rewrite !keys_of_lookup by (done || by eapply typed_app).
  intros (c & inp & Hc & ?). exists c, inp. split; [set_solver|done].
Qed.

(** The events about the key [k]. *)
Definition about (evs : list KvEvent) (k : string) (e : KvEvent) : Prop := keys_of evs !! ev_id e = Some k.
#[export] Instance about_dec evs k e : Decision (about evs k e).
Proof. unfold about. apply _. Defined.

Definition key_part (evs : list KvEvent) (k : string) : list KvEvent := filter (about evs k) evs.

Lemma typed_key evs done' e : typed (done' ++ e :: evs) → ∃ k, about (done' ++ e :: evs) k e ∧
  match ev_kind e with CallEvent => ∃ i, input (ev_value e) = Some i ∧ key i = k | ReturnEvent => keys_of done' !! ev_id e = Some k end.
Proof.
  intros Ht. rewrite cons_middle, app_assoc in Ht |- *. pose proof (typed_app _ _ Ht) as Ht1.
  pose proof (typed_snoc_inv _ _ Ht1) as [Ht0 He]. unfold event_ok, is_call_event in He. destruct (ev_kind e) eqn:Hk.
  - destruct He as [[i Hv] _]. exists (key i). split; [|exists i; by rewrite Hv]. apply keys_of_app; [done|].
    rewrite keys_of_snoc, Hk, Hv. apply lookup_insert_eq.
  - destruct He as (_ & (c & Hc & Hcc & Hid) & _).
    assert (∃ inp, ev_value c = Input inp) as [inp Hv].
    { clear -Ht0 Hc Hcc. induction Ht0 as [|evs x Ht IH Hx]; [by apply not_elem_of_nil in Hc|].
      apply elem_of_app in Hc as [Hc| ->%list_elem_of_singleton]; [by apply IH|]. unfold event_ok, is_call_event in Hx. rewrite Hcc in Hx. by destruct Hx. }
    assert (keys_of done' !! ev_id e = Some (key inp)) as Hke.
    { apply keys_of_lookup; [done|]. by exists c, inp. }
    exists (key inp). split; [|done]. apply keys_of_app; [done|]. rewrite keys_of_snoc, Hk. exact Hke.
Qed.

Lemma group_events_typed evs : ∀ done' m, typed (done' ++ evs) →
  ∃ m', group_events evs m (keys_of done') = Some m' ∧
    ∀ k, m' !! k = let l := default [] (m !! k) ++ filter (about (done' ++ evs) k) evs in
                   if decide (filter (about (done' ++ evs) k) evs = []) then m !! k else Some l.
Proof.
  induction evs as [|e evs IH]; intros done' m Ht.
  { exists m. split; [done|]. intros k. cbn zeta. by rewrite decide_True. }
  destruct (typed_key evs done' e Ht) as (k0 & Hab & Hk0).
  assert (∃ m', group_events evs (push_to k0 e m) (keys_of (done' ++ [e])) = Some m' ∧ ∀ k, m' !! k =
    let l := default [] (push_to k0 e m !! k) ++ filter (about (done' ++ e :: evs) k) evs in
    if decide (filter (about (done' ++ e :: evs) k) evs = []) then push_to k0 e m !! k else Some l) as (m' & Hrun & Hm').
  { rewrite (cons_middle e done' evs), app_assoc in Ht |- *. by apply IH. }
  exists m'. split.
  - cbn [group_events]. rewrite keys_of_snoc in Hrun. destruct (ev_kind e).
    + destruct Hk0 as (i & Hi & <-). rewrite Hi in Hrun |- *. exact Hrun.
    + rewrite Hk0. exact Hrun.
  - intros k. rewrite Hm'. cbn zeta. rewrite filter_cons. unfold push_to. destruct (decide (k0 = k)) as [->|Hne].
    + rewrite !(decide_True (P := about _ k e)), lookup_insert_eq by done. cbn [default]. rewrite (decide_False (P := _ :: _ = [])) by done.
      case_decide as Hnil; [by rewrite Hnil|]. cbn. by rewrite <-app_assoc.
    + rewrite (decide_False (P := about _ k e)), lookup_insert_ne; [done|done|]. unfold about in *. congruence.
Qed.

(** [partition_event] makes the parts of the keys. *)
Lemma partition_event_typed order evs : (∀ l, order l ≡ₚ l) → typed evs →
  ∃ parts, partition_event order evs = Some parts ∧ ∀ sub, sub ∈ parts ↔ ∃ k, sub = key_part evs k ∧ sub ≠ [].
Proof.
  intros Ho Ht. destruct (group_events_typed evs [] ∅ Ht) as (m & Hrun & Hm). eexists. split.
  { unfold partition_event. change (keys_of []) with (∅ : gmap nat string) in Hrun. by rewrite Hrun. }
  assert (∀ k, m !! k = if decide (key_part evs k = []) then None else Some (key_part evs k)) as Hm'.
  { intros k. rewrite Hm. cbn zeta. by rewrite lookup_empty. }
  clear Hm. rename Hm' into Hm. intros sub. rewrite Ho, list_elem_of_fmap. split.
  - intros ([k l] & -> & Hl%elem_of_map_to_list). rewrite Hm in Hl. case_decide as Hnil; [done|]. injection Hl as <-. by exists k.
  - intros (k & -> & Hne). exists (k, key_part evs k). split; [done|]. apply elem_of_map_to_list. rewrite Hm.
    by rewrite decide_False.
Qed.

(** ** Complete histories *)

Definition entry_of (e : KvEvent) : Entry (Value KvInput KvOutput) :=
  mkEntry (match ev_kind e with CallEvent => CallEntry | ReturnEvent => ReturnEntry end) (ev_value e) (ev_id e) (-1).

Lemma convert_entries_fmap evs : convert_entries evs = entry_of <$> evs.
Proof. unfold convert_entries. apply list_fmap_ext. intros i e _. unfold entry_of. by destruct (ev_kind e). Qed.

Lemma convert_lookup evs i x : convert_entries evs !! i = Some x ↔ ∃ e, evs !! i = Some e ∧ x = entry_of e.
Proof. rewrite convert_entries_fmap, list_lookup_fmap, fmap_Some. done. Qed.

(** The process of a call that is answered does nothing in between. *)
Lemma call_over h i it : sequential h → h !! i = Some it → is_call it = true → pending h i ∨ ∃ j, answers h i j.
Proof.
  intros Hs Hi Hc. destruct (list_find (λ x, proc x = proc it) (drop (S i) h)) as [[m y]|] eqn:Hf.
  - right. exists (S i + m). apply list_find_Some in Hf as (Hm & Hy & Hmin). rewrite lookup_drop in Hm.
    assert (at_call h i (S i + m)) as Hat.
    { exists it. split_and!; [done|done|lia|]. intros l Hl (x & Hx & Hpx).
      apply (Hmin (l - S i) x); [|lia|done]. rewrite lookup_drop. by replace (S i + (l - S i)) with l by lia. }
    split; [done|]. exists it, y. split_and!; [done|done| |done]. by apply (Hs i (S i + m) it y).
  - left. exists it. split_and!; [done|done|by eapply lookup_lt_Some|]. intros l Hl (x & Hx & Hpx).
    apply list_find_None in Hf. rewrite Forall_forall in Hf. apply (Hf x); [|done].
    apply list_elem_of_lookup. exists (l - S i). rewrite lookup_drop. by replace (S i + (l - S i)) with l by lia.
Qed.

(** A call has one answer, or is pending. *)
Lemma answers_lt h i j : answers h i j → i < j < length h.
Proof. intros [(_ & _ & _ & Hij & _) (_ & y & _ & Hy & _)]. split; [done|]. by eapply lookup_lt_Some. Qed.

Lemma answers_fun h i j j' : answers h i j → answers h i j' → j = j'.
Proof.
  assert (∀ j j', answers h i j → answers h i j' → ¬ j < j') as H.
  { intros a b Ha [(z & Hz & _ & Hl & Hno) _] Hlt. pose proof (answers_lt _ _ _ Ha) as Hia.
    destruct Ha as [_ (x & y & Hx & Hy & _ & Hp)]. rewrite Hx in Hz. injection Hz as <-.
    apply (Hno a); [lia|]. by exists y. }
  intros Hj Hj'. pose proof (H _ _ Hj Hj'). pose proof (H _ _ Hj' Hj). lia.
Qed.

Lemma answers_pending h i j : answers h i j → ¬ pending h i.
Proof.
  intros Ha (z & Hz & _ & _ & Hno). pose proof (answers_lt _ _ _ Ha) as Hij.
  destruct Ha as [_ (x & y & Hx & Hy & _ & Hp)]. rewrite Hx in Hz. injection Hz as <-. apply (Hno j); [lia|]. by exists y.
Qed.

Section complete.
Context (h : list item) (evs : list KvEvent) (Hw : well_formed h) (Hs : sequential h) (Hr : reads_as h evs).

(** What an event is. *)
Inductive event_at : nat → KvEvent → Prop :=
| at_invoke i p o k v : h !! i = Some (Invoke p o k v) →
    event_at i (mkEvent CallEvent (Input (said_input o k v)) (number h i))
| at_return i j p o k v : h !! j = Some (Return p o k v) → answers h i j →
    event_at j (mkEvent ReturnEvent (Output (said_output o v)) (number h i))
| at_late i j : pending h i → length h <= j → evs !! j = Some (late_return (number h i)) →
    event_at j (late_return (number h i)).

Lemma event_classify i e : evs !! i = Some e → event_at i e.
Proof using Hw Hr.
  intros He. destruct (decide (i < length h)) as [Hlt|Hge].
  - destruct (lookup_lt_is_Some_2 h i Hlt) as [[p o k v|p o k v] Hi].
    + rewrite (ra_call _ _ Hr _ _ _ _ _ Hi) in He. injection He as <-. by econstructor.
    + destruct (Hw i _ Hi eq_refl) as [j Ha]. rewrite (ra_return _ _ Hr _ _ _ _ _ _ Ha Hi) in He. injection He as <-. by econstructor.
  - destruct (ra_rest _ _ Hr) as (ns & Hns & _ & Hin).
    assert (drop (length h) evs !! (i - length h) = Some e) as Hd.
    { rewrite lookup_drop. by replace (length h + (i - length h)) with i by lia. }
    rewrite Hns, list_lookup_fmap in Hd. destruct (ns !! (i - length h)) as [n|] eqn:Hn; [|done]. injection Hd as <-.
    apply list_elem_of_lookup_2, Hin in Hn as (j & Hp & ->). constructor; [done|lia|done].
Qed.

Lemma late_fun n j j' : length h <= j → length h <= j' → evs !! j = Some (late_return n) → evs !! j' = Some (late_return n) → j = j'.
Proof using Hr.
  intros Hj Hj' H1 H2. destruct (ra_rest _ _ Hr) as (ns & Hns & Hnd & _).
  assert (∀ x, length h <= x → evs !! x = Some (late_return n) → ns !! (x - length h) = Some n) as H.
  { intros x Hx Hl. assert (drop (length h) evs !! (x - length h) = Some (late_return n)) as Hd.
    { rewrite lookup_drop. by replace (length h + (x - length h)) with x by lia. }
    rewrite Hns, list_lookup_fmap in Hd. destruct (ns !! _); [|done]. by injection Hd as <-. }
  pose proof (NoDup_lookup _ _ _ _ Hnd (H _ Hj H1) (H _ Hj' H2)). lia.
Qed.

Lemma answered_call i j : answers h i j → ∃ x, h !! i = Some x ∧ is_call x = true.
Proof. intros [(x & Hx & Hc & _) _]. eauto. Qed.

Lemma reads_as_matched : matched (convert_entries evs).
Proof using Hw Hs Hr.
  split.
  - intros i e (ev & Hev & ->)%convert_lookup Hk. pose proof (event_classify _ _ Hev) as H. inversion H; subst; try done. clear Hk.
    assert (i < length h) as Hlt by by eapply lookup_lt_Some.
    destruct (call_over h i _ Hs ltac:(eassumption) eq_refl) as [Hp|[j Ha]].
    + destruct (ra_rest _ _ Hr) as (ns & Hns & _ & Hin).
      assert (number h i ∈ ns) as [m Hm]%list_elem_of_lookup by (apply Hin; eauto).
      exists (said_input o k v), (length h + m), (entry_of (late_return (number h i))), (mkKvOutput "").
      split_and!; try done; [lia|]. apply convert_lookup. eexists. split; [|done].
      by rewrite <-lookup_drop, Hns, list_lookup_fmap, Hm.
    + pose proof (answers_lt _ _ _ Ha) as [Hij Hjl]. pose proof Ha as [_ (x & y & Hx & Hy & Hcy & _)].
      destruct y as [|p' o' k' v']; [done|].
      exists (said_input o k v), j, (entry_of (mkEvent ReturnEvent (Output (said_output o' v')) (number h i))), (said_output o' v').
      split_and!; try done. apply convert_lookup. eexists. split; [|done]. by eapply (ra_return _ _ Hr).
  - intros j e (ev & Hev & ->)%convert_lookup Hk. pose proof (event_classify _ _ Hev) as H.
    assert (∃ i x, i < j ∧ h !! i = Some x ∧ is_call x = true ∧ number h i = ev_id ev) as (i & x & Hij & Hx & Hc & Hn).
    { inversion H as [|i ? ? ? ? ? ? Ha|i ? Hp Hge]; subst; [done|..].
      - destruct (answered_call _ _ Ha) as (x & Hx & Hc). exists i, x. split_and!; try done. apply (answers_lt _ _ _ Ha).
      - destruct (pending_lookup _ _ Hp) as (x & Hx & Hc & Hlt). exists i, x. split_and!; try done. lia. }
    destruct x as [p o k v|]; [|done]. exists i, (entry_of (mkEvent CallEvent (Input (said_input o k v)) (number h i))).
    split_and!; try done. apply convert_lookup. eexists. split; [|done]. by eapply (ra_call _ _ Hr).
  - intros i j e e' (ev & Hev & ->)%convert_lookup (ev' & Hev' & ->)%convert_lookup Hk Hid. cbn in Hk, Hid.
    pose proof (event_classify _ _ Hev) as H. pose proof (event_classify _ _ Hev') as H'.
    inversion H as [? ? ? ? ? Hi|i0 ? ? ? ? ? Hi Ha|i0 ? Hp Hge He]; inversion H' as [? ? ? ? ? Hi'|i1 ? ? ? ? ? Hi' Ha'|i1 ? Hp' Hge' He'];
      subst; cbn in Hk, Hid; try done.
    + by eapply number_inj.
    + destruct (answered_call _ _ Ha) as (x & Hx & Hc), (answered_call _ _ Ha') as (x' & Hx' & Hc').
      assert (i0 = i1) as -> by by eapply number_inj. by eapply answers_fun.
    + destruct (answered_call _ _ Ha) as (x & Hx & Hc), (pending_lookup _ _ Hp') as (x' & Hx' & Hc' & _).
      assert (i0 = i1) as -> by by eapply number_inj. by destruct (answers_pending _ _ _ Ha).
    + destruct (answered_call _ _ Ha') as (x & Hx & Hc), (pending_lookup _ _ Hp) as (x' & Hx' & Hc' & _).
      assert (i0 = i1) as -> by by eapply number_inj. by destruct (answers_pending _ _ _ Ha').
    + rewrite Hid in He. by eapply late_fun.
Qed.
End complete.

(** ** Parts *)

Section positions.
Context {A : Type} (P : A → Prop) `{!∀ x, Decision (P x)}.

(** Where the element at [i] goes when the list is filtered. *)
Definition position (l : list A) (i : nat) : nat := length (filter P (take i l)).

Lemma filter_position l i x : l !! i = Some x → P x → filter P l !! position l i = Some x.
Proof.
  intros Hi Hx. unfold position. rewrite <-(take_drop_middle l i x Hi) at 2.
  rewrite filter_app, filter_cons_True, lookup_app_r, Nat.sub_diag by done. done.
Qed.

Lemma position_lt l i j x : l !! i = Some x → P x → i < j → position l i < position l j.
Proof.
  intros Hi Hx Hij. unfold position. rewrite <-(take_drop (S i) (take j l)), take_take, Nat.min_l by lia.
  rewrite (take_S_r _ _ _ Hi), !filter_app, !length_app, filter_cons_True by done. cbn. lia.
Qed.

Lemma filter_lookup_inv l j x : filter P l !! j = Some x → ∃ i, l !! i = Some x ∧ P x ∧ j = position l i.
Proof.
  revert j. induction l as [|y l IH]; intros j; [done|]. rewrite filter_cons. unfold position. case_decide as Hy.
  - destruct j as [|j]; cbn.
    + intros [= <-]. by exists 0.
    + intros (i & Hi & Hx & ->)%IH. exists (S i). split_and!; [done|done|]. unfold position. change (take (S i) (y :: l)) with (y :: take i l). by rewrite filter_cons_True.
  - intros (i & Hi & Hx & ->)%IH. exists (S i). split_and!; [done|done|]. unfold position. change (take (S i) (y :: l)) with (y :: take i l). by rewrite filter_cons_False.
Qed.
End positions.

Lemma key_part_entries evs k : convert_entries (key_part evs k) = filter (λ x, keys_of evs !! e_id x = Some k) (convert_entries evs).
Proof.
  rewrite !convert_entries_fmap. unfold key_part.
  assert (∀ K (l : list KvEvent), (∀ e, about evs k e ↔ K !! ev_id e = Some k) →
    entry_of <$> filter (about evs k) l = filter (λ x, (K : gmap nat string) !! e_id x = Some k) (entry_of <$> l)) as H; [|by apply H].
  intros K l HK. induction l as [|e l IH]; [done|]. rewrite fmap_cons, !filter_cons. specialize (HK e).
  do 2 case_decide; cbn; rewrite ?IH; cbn in *; naive_solver.
Qed.

(** All events of a call are in one part. *)
Lemma matched_part es (K : gmap nat string) k : matched es →
  matched (filter (λ x : Entry (Value KvInput KvOutput), K !! e_id x = Some k) es).
Proof.
  set (P := λ x : Entry (Value KvInput KvOutput), K !! e_id x = Some k). intros [Hc Hr Hi]. split.
  - intros a e (i & He & HP & ->)%filter_lookup_inv Hk. destruct (Hc i e He Hk) as (inp & j & e' & out & Hv & Hij & He' & Hk' & Hid & Hv').
    exists inp, (position P es j), e', out. split_and!; try done; [by eapply position_lt|].
    apply (filter_position P); [done|]. unfold P. by rewrite Hid.
  - intros b e (j & He & HP & ->)%filter_lookup_inv Hk. destruct (Hr j e He Hk) as (i & e' & Hij & He' & Hk' & Hid).
    assert (P e') as HP' by (unfold P; by rewrite Hid).
    exists (position P es i), e'. split_and!; try done; [by eapply position_lt|by apply (filter_position P)].
  - intros a b e e' (i & He & _ & ->)%filter_lookup_inv (j & He' & _ & ->)%filter_lookup_inv Hk Hid. by rewrite (Hi i j e e').
Qed.

Lemma linearizable_nil : linearizable (St := string) (convert_entries ([] : list KvEvent)).
Proof.
  exists []. split; [constructor| |done|done]. intros id. split; [by intros ?%not_elem_of_nil|]. by intros (e & ?%not_elem_of_nil & _).
Qed.

(** The parts are all events. *)
Lemma push_to_join {A} k (x : A) (m : gmap string (list A)) :
  mjoin (map_to_list (push_to k x m)).*2 ≡ₚ x :: mjoin (map_to_list m).*2.
Proof.
  unfold push_to. destruct (m !! k) as [l|] eqn:Hk; cbn.
  - rewrite <-(insert_delete_id m k l Hk) at 2. rewrite <-insert_delete_eq.
    rewrite !map_to_list_insert by apply lookup_delete_eq. cbn. rewrite <-app_assoc. by rewrite (Permutation_middle l).
  - rewrite map_to_list_insert by done. done.
Qed.

Lemma group_events_join evs : ∀ m M m', group_events evs m M = Some m' →
  mjoin (map_to_list m').*2 ≡ₚ mjoin (map_to_list m).*2 ++ evs.
Proof.
  induction evs as [|e evs IH]; intros m M m'; cbn [group_events]; [intros [= <-]; by rewrite app_nil_r|].
  assert (∀ k M', group_events evs (push_to k e m) M' = Some m' → mjoin (map_to_list m').*2 ≡ₚ mjoin (map_to_list m).*2 ++ e :: evs) as H.
  { intros k M' Hrun. rewrite (IH _ _ _ Hrun), push_to_join. cbn. by rewrite Permutation_middle. }
  destruct (ev_kind e).
  - destruct (input (ev_value e)); [apply H|done].
  - destruct (M !! ev_id e); [apply H|done].
Qed.

Lemma partition_event_all order evs : (∀ l, order l ≡ₚ l) → typed evs →
  ∃ parts, partition_event order evs = Some parts ∧ mjoin parts ≡ₚ evs.
Proof.
  intros Ho Ht. destruct (group_events_typed evs [] ∅ Ht) as (m & Hrun & _). eexists. split.
  { unfold partition_event. change (keys_of []) with (∅ : gmap nat string) in Hrun. by rewrite Hrun. }
  rewrite Ho. by rewrite (group_events_join _ _ _ _ Hrun).
Qed.

Lemma reads_as_nonempty it h evs : well_formed (it :: h) → reads_as (it :: h) evs → ∃ e evs', evs = e :: evs'.
Proof.
  intros Hw Hr. destruct it as [p o k v|p o k v].
  - pose proof (ra_call _ _ Hr 0 p o k v eq_refl) as H. destruct evs; [done|eauto].
  - destruct (Hw 0 _ eq_refl eq_refl) as [i Ha%answers_lt]. lia.
Qed.
