(* ===== verification/ConcHist.v ===== *)
(** * Clients that use one store (project-4 and project-5)

    Each client performs its operations one after the other, while the other clients do
    the same. In project-4 a client is a thread with a clone of the [KvStore]; in
    project-5 it hands each operation to a pool of threads and waits for its future. The
    run is recorded as the history that the linearizability checker of [dss] would be
    given: the operations with the times of their calls and returns. *)

From S2P Require Import Prelude Fs Command KvsEngine Conc ConcStore Lin.

(** ** What the store promises

    A [get] may fail while a compaction moves its entry, and it may miss its entry while
    [insert] replaces it; every other reply is the one of the map. *)

#[export] Instance IoError_eq_dec : EqDecision IoError.
Proof. solve_decision. Defined.
#[export] Instance KvsError_eq_dec : EqDecision KvsError.
Proof. solve_decision. Defined.
#[export] Instance Reply_eq_dec : EqDecision (Reply KvsError).
Proof. solve_decision. Defined.

(** The reply [r] is allowed where the map asks for [r0]. *)
Definition reply_ok (o : Op) (r0 r : Reply KvsError) : bool :=
  match o, r with
  | OpGet _, RError (Io NotFound) => true
  | OpGet _, RError (Serde _) => true
  | _, _ => bool_decide (r = r0)
  end.

(** A [get] that failed to read. *)
Definition failed_get (o : Op) (r : Reply KvsError) : bool :=
  match o, r with
  | OpGet _, RError (Io _) => true
  | OpGet _, RError (Serde _) => true
  | _, _ => false
  end.

(** The reply of the map. *)
Definition exact (o : Op) (r0 r : Reply KvsError) : bool := bool_decide (r = r0).

Lemma reply_ok_exact o r0 r : failed_get o r = false → reply_ok o r0 r = true → exact o r0 r = true.
Proof. destruct o, r as [| |[]]; done. Qed.

(** While [insert] replaces an entry of the index, there is none: a [get] of its key that
    looks into the index then answers that there is no such key, though the map has it all
    along. A [set] replaces the entry of its key, and every operation that writes may compact
    ([compacted]), which replaces them all. *)
Definition replaces (compacted : bool) (o : Op) (k : string) : bool :=
  match o with
  | OpSet k' _ => compacted || bool_decide (k' = k)
  | OpRemove _ => compacted
  | OpGet _ => false
  end.

Lemma replaces_mono c c' o k : (c = true → c' = true) → replaces c o k = true → replaces c' o k = true.
Proof. intros Hc. destruct o; simpl; rewrite ?orb_true_iff; naive_solver. Qed.

(** Two operations are in progress at the same time. *)
Definition overlaps {A B} (a b : Operation A B) : bool := (op_call a <=? op_finish b)%Z && (op_call b <=? op_finish a)%Z.

(** A [get] that answered that there is no such key, beside an operation that may have
    replaced its entry. *)
Definition may_miss (compacted : bool) (hist : list (Operation Op (Reply KvsError))) (a : Operation Op (Reply KvsError)) : bool :=
  match op_input a, op_output a with
  | OpGet k, RValue None => existsb (λ b, replaces compacted (op_input b) k && overlaps a b) hist
  | _, _ => false
  end.

(** The history with the answers of these left open. *)
Definition known_op (compacted : bool) (hist : list (Operation Op (Reply KvsError))) (a : Operation Op (Reply KvsError)) : Operation Op (option (Reply KvsError)) :=
  mkOp (op_input a) (op_call a) (if may_miss compacted hist a then None else Some (op_output a)) (op_finish a).
Definition known (compacted : bool) (hist : list (Operation Op (Reply KvsError))) : list (Operation Op (option (Reply KvsError))) :=
  known_op compacted hist <$> hist.

(** A map from strings to strings that starts as [m0], as a model of the checker. An answer
    that is left open may be any. *)
Definition MapModel (ok : Op → Reply KvsError → Reply KvsError → bool) (m0 : kvmap) : Model kvmap Op (option (Reply KvsError)) := {|
  init := m0;
  step := λ m o r, let '(r0, m') := spec_op KeyNotFound m o in (match r with Some r => ok o r0 r | None => true end, m');
  equal := λ m m', bool_decide (m = m');
|}.

Section clients.
Context `{!SerdeJson Command} {policy : BufWriterPolicy}.

(** ** Clients *)

Definition reply_of {A} (f : A → Reply KvsError) (r : KvsError + A) : Reply KvsError :=
  match r with inl e => RError e | inr a => f a end.

(** An operation through the clone [i]. *)
Definition client_op (i : nat) (o : Op) : WP (Reply KvsError) :=
  match o with
  | OpSet k v => r ← result (ConcStore.set k v); mret (reply_of (λ _, RDone) r)
  | OpGet k => r ← result (ConcStore.get i k); mret (reply_of RValue r)
  | OpRemove k => r ← result (ConcStore.remove k); mret (reply_of (λ _, RDone) r)
  end.

End clients.

(** ** Runs *)

Section runs.

(** The program that the client [i] runs for an operation. It runs it itself, or hands it
    to a pool of so many threads. *)
Context (job : nat → Op → WP (Reply KvsError)) (threads : option nat).

(** What a client still has to do, and the operation it is at: its call time, whether a
    thread has its program, and the rest of the program. *)
Record Client := mkClient {
  todo : list Op;
  running : option (Op * Z * bool * WP (Reply KvsError));
}.

Record System := mkSystem {
  world : World;
  now : Z;
  clients : list Client;
  history : list (Operation Op (Reply KvsError));
}.

Definition start (w : World) (ops : list (list Op)) : System :=
  mkSystem w 0 ((λ os, mkClient os None) <$> ops) [].

(** A program that a thread has, and that is not done, takes that thread, whether it can run
    or waits for the lock. *)
Definition busy (c : Client) : bool := match running c with Some (_, _, true, Act _) => true | _ => false end.

Definition runs_itself : bool := match threads with Some _ => false | None => true end.

Definition thread_free (s : System) : bool :=
  match threads with Some n => length (filter (λ c, busy c = true) (clients s)) <? n | None => true end.

(** One step of the client [i]: it calls its next operation, a thread of the pool takes
    the program from the queue, the program takes an action, or the client returns. The
    programs of the queue are taken in any order. A client that panicked or that is blocked
    takes no step. *)
Definition client_step (i : nat) (s : System) : option System :=
  match clients s !! i with
  | Some (mkClient os (Some (o, t, false, Act f))) =>
      if thread_free s then
        Some (mkSystem (world s) (now s + 1) (<[i := mkClient os (Some (o, t, true, Act f))]> (clients s)) (history s))
      else None
  | Some (mkClient os (Some (o, t, true, Act f))) =>
      match f (world s) with
      | Some (w', p') => Some (mkSystem w' (now s + 1) (<[i := mkClient os (Some (o, t, true, p'))]> (clients s)) (history s))
      | None => None
      end
  | Some (mkClient os (Some (o, t, _, Done (Ok r)))) =>
      Some (mkSystem (world s) (now s + 1) (<[i := mkClient os None]> (clients s))
              (history s ++ [mkOp o t r (now s)]))
  | Some (mkClient (o :: os) None) =>
      Some (mkSystem (world s) (now s + 1) (<[i := mkClient os (Some (o, now s, runs_itself, job i o))]> (clients s)) (history s))
  | _ => None
  end.

(** The clients take their steps in the order of a schedule. *)
Fixpoint client_steps (sched : list nat) (s : System) : option System :=
  match sched with
  | [] => Some s
  | i :: sched' => s' ← client_step i s; client_steps sched' s'
  end.

Definition idle (c : Client) : Prop := todo c = [] ∧ running c = None.
Definition finished (s : System) : Prop := Forall idle (clients s).
End runs.
