(* ===== verification/ConcRuns.v ===== *)
(** * Runs of clients, whatever they run

    What each step of a run keeps, for any programs that the clients run and with or
    without a bound on the threads: the operations that are called, in progress or
    returned are those of the start, and no run goes on forever. *)

From S2P Require Import Prelude Fs Command KvsEngine Conc ConcStore Lin ConcHist.

Section runs.
Context (job : nat → Op → WP (Reply KvsError)) (threads : option nat).
#[local] Abbreviation client_step := (client_step job threads).
#[local] Abbreviation client_steps := (client_steps job threads).

(** The cases of a step. *)
Lemma client_step_inv i s s' : client_step i s = Some s' →
  (∃ o os, clients s !! i = Some (mkClient (o :: os) None) ∧
     s' = mkSystem (world s) (now s + 1) (<[i := mkClient os (Some (o, now s, runs_itself threads, job i o))]> (clients s)) (history s)) ∨
  (∃ os o t f, clients s !! i = Some (mkClient os (Some (o, t, false, Act f))) ∧ thread_free threads s = true ∧
     s' = mkSystem (world s) (now s + 1) (<[i := mkClient os (Some (o, t, true, Act f))]> (clients s)) (history s)) ∨
  (∃ os o t f w' p', clients s !! i = Some (mkClient os (Some (o, t, true, Act f))) ∧ f (world s) = Some (w', p') ∧
     s' = mkSystem w' (now s + 1) (<[i := mkClient os (Some (o, t, true, p'))]> (clients s)) (history s)) ∨
  (∃ os o t b r, clients s !! i = Some (mkClient os (Some (o, t, b, Done (Ok r)))) ∧
     s' = mkSystem (world s) (now s + 1) (<[i := mkClient os None]> (clients s)) (history s ++ [mkOp o t r (now s)])).
Proof.
  unfold ConcHist.client_step. intros Hstep.
  destruct (clients s !! i) as [[os [[[[o t] b] [[r|e| |]|f]]|]]|] eqn:Hc; try done; try by destruct os, b.
  - right; right; right. exists os, o, t, b, r. split; [done|]. by destruct os, b; injection Hstep.
  - destruct b.
    + right; right; left. destruct (f (world s)) as [[w' p']|] eqn:Hf; [|by destruct os].
      exists os, o, t, f, w', p'. split_and!; try done. by destruct os; injection Hstep.
    + right; left. destruct (thread_free threads s); [|by destruct os].
      exists os, o, t, f. split_and!; try done. by destruct os; injection Hstep.
  - left. destruct os as [|o os]; [done|]. exists o, os. split; [done|]. by injection Hstep.
Qed.

(** ** Every run ends *)

(** A client comes closer to its end. *)
Inductive closer : Client → Client → Prop :=
| closer_begin os o t f : closer (mkClient os (Some (o, t, true, Act f))) (mkClient os (Some (o, t, false, Act f)))
| closer_act os o t f w w' p' : f w = Some (w', p') →
    closer (mkClient os (Some (o, t, true, p'))) (mkClient os (Some (o, t, true, Act f)))
| closer_return os o t b r : closer (mkClient os None) (mkClient os (Some (o, t, b, Done r)))
| closer_call o os t b p : closer (mkClient os (Some (o, t, b, p))) (mkClient (o :: os) None).

Lemma closer_wf c : Acc closer c.
Proof.
  assert (∀ os, Acc closer (mkClient os None) → ∀ o t b p, Acc closer (mkClient os (Some (o, t, b, p)))) as Hrun.
  { intros os Hos o t b p. assert (Acc closer (mkClient os (Some (o, t, true, p)))) as Ht.
    { induction p as [r|f IH] using prog_ind; constructor; intros c'; inversion 1; subst; [done|by eapply IH]. }
    destruct b; [done|]. constructor. intros c'. by inversion 1; subst. }
  assert (∀ os, Acc closer (mkClient os None)) as Hidle.
  { intros os. induction os as [|o os IH]; constructor; intros c'; inversion 1; subst. by apply Hrun. }
  destruct c as [os [[[[o t] b] p]|]]; [by apply Hrun|done].
Qed.

Lemma client_step_closer i s s' : client_step i s = Some s' → one_less closer (clients s') (clients s).
Proof.
  intros [(o & os & Hc & ->)|[(os & o & t & f & Hc & _ & ->)|[(os & o & t & f & w' & p' & Hc & Hf & ->)|(os & o & t & b & r & Hc & ->)]]]%client_step_inv;
    eexists i, _, _; (split_and!; [exact Hc|by econstructor|done]).
Qed.

Definition next (s' s : System) : Prop := ∃ i, client_step i s = Some s'.

Lemma next_wf s : Acc next s.
Proof.
  remember (clients s) as l eqn:Hl. revert s Hl. induction (one_less_wf closer closer_wf l) as [l _ IH]. intros s ->.
  constructor. intros s' [i Hs]. eapply IH; [by eapply client_step_closer|done].
Qed.

(** ** The operations of a run *)

(** The operations that a client has not returned from. *)
Definition pending (c : Client) : list Op :=
  match running c with Some (o, _, _, _) => o :: todo c | None => todo c end.

Lemma client_step_ops i s s' : client_step i s = Some s' →
  (op_input <$> history s') ++ (clients s' ≫= pending) ≡ₚ (op_input <$> history s) ++ (clients s ≫= pending).
Proof.
  assert (∀ c c', clients s !! i = Some c → pending c = pending c' →
    (<[i := c']> (clients s) ≫= pending) = clients s ≫= pending) as Hsame.
  { intros c c' Hc Hp. rewrite <-(take_drop_middle _ _ _ Hc) at 2. rewrite insert_take_drop by (by eapply lookup_lt_Some).
    rewrite !bind_app, !bind_cons. by rewrite Hp. }
  intros [(o & os & Hc & ->)|[(os & o & t & f & Hc & _ & ->)|[(os & o & t & f & w' & p' & Hc & Hf & ->)|(os & o & t & b & r & Hc & ->)]]]%client_step_inv;
    cbn [history clients].
  - by erewrite Hsame.
  - by erewrite Hsame.
  - by erewrite Hsame.
  - rewrite fmap_app, <-app_assoc. f_equiv.
    rewrite insert_take_drop by (by eapply lookup_lt_Some). rewrite <-(take_drop_middle _ _ _ Hc) at 3.
    rewrite !bind_app, !bind_cons. cbn. apply Permutation_middle.
Qed.

Lemma finished_ops sched s ops w : client_steps sched (start w ops) = Some s → finished s →
  op_input <$> history s ≡ₚ mjoin ops.
Proof.
  intros Hs Hf. assert (∀ s0, client_steps sched s0 = Some s →
    (op_input <$> history s) ++ (clients s ≫= pending) ≡ₚ (op_input <$> history s0) ++ (clients s0 ≫= pending)) as H.
  { clear. induction sched as [|i sched IH]; intros s0; simpl; [by intros [= ->]|].
    destruct (client_step i s0) as [s1|] eqn:Hs; [|done]. intros Hrun. rewrite (IH _ Hrun). by eapply client_step_ops. }
  specialize (H _ Hs). simpl in H. assert (clients s ≫= pending = []) as Hnil.
  { clear -Hf. induction Hf as [|c cs [Ht Hr] _ IH]; [done|]. rewrite bind_cons, IH. unfold pending. by rewrite Hr, Ht. }
  rewrite Hnil, app_nil_r in H. rewrite H. clear. induction ops as [|os ops IH]; [done|]. simpl. by rewrite IH.
Qed.
End runs.
