(* ===== verification/ConcInv.v ===== *)
(** * The concurrent log engine under interference

    What holds of the shared state of a store at every moment of every interleaving
    ([inv]), and proof rules for the programs of its threads. A thread that does not hold
    the lock changes nothing but the handles of its own reader and the queue of readers; the
    thread that holds it is alone with all the rest. *)

From S2P Require Import Prelude Fs Command KvsEngine Conc ConcStore ConcStoreSpec ConcHist.

(** ** What is true beside the state

    The map the store stands for; what each log file holds or will hold when its
    writer is flushed, also after it was deleted; its inode; how many more writes fit
    below the last generation; the generation of the writer when the store was opened, and
    how many bytes of each log are on the disk to stay, for as long as no compaction has
    begun; and the key whose entry is out of the index while [insert] replaces it. *)
Record Ghost := mkGhost {
  g_map : kvmap;
  g_files : gmap N bytes;
  g_inos : gmap N nat;
  g_left : nat;
  g_gen0 : N;
  g_stay : option (gmap N N);
  g_gap : option string;
}.

(** The map that the index shows. *)
Definition g_view (G : Ghost) : kvmap :=
  match g_gap G with Some k => delete k (g_map G) | None => g_map G end.

Lemma view_whole G : g_gap G = None → g_view G = g_map G.
Proof. unfold g_view. by intros ->. Qed.

(** A compaction has begun. *)
Definition compacts (G : Ghost) : bool := match g_stay G with Some _ => false | None => true end.

(** At least the bytes that [s] says. *)
Definition stays (s s' : option (gmap N N)) : Prop :=
  ∀ m', s' = Some m' → ∃ m, s = Some m ∧ ∀ g n, m !! g = Some n → ∃ n', m' !! g = Some n' ∧ (n <= n')%N.

#[export] Instance stays_preorder : PreOrder stays.
Proof.
  split; [intros s m ->; exists m; split; [done|]; intros g n Hn; exists n; split; [done|lia]|].
  intros s1 s2 s3 H12 H23 m3 H3. destruct (H23 _ H3) as (m2 & H2 & Hm2). destruct (H12 _ H2) as (m1 & H1 & Hm1).
  exists m1. split; [done|]. intros g n Hn. destruct (Hm1 _ _ Hn) as (n2 & Hn2 & ?). destruct (Hm2 _ _ Hn2) as (n3 & ? & ?).
  exists n3. split; [done|lia].
Qed.

(** Logs only grow, and keep their inodes. *)
Record extends (G G' : Ghost) : Prop := {
  ex_files : ∀ g c, g_files G !! g = Some c → ∃ c', g_files G' !! g = Some (c ++ c');
  ex_inos : ∀ g h, g_inos G !! g = Some h → g_inos G' !! g = Some h;
  ex_gen0 : g_gen0 G' = g_gen0 G;
  ex_stay : stays (g_stay G) (g_stay G');
}.

#[export] Instance extends_preorder : PreOrder extends.
Proof.
  split.
  - intros G. split; [|done..]. intros g c Hg. exists []. by rewrite app_nil_r.
  - intros G1 G2 G3 [Hf Hi H0 Hs] [Hf' Hi' H0' Hs']. split; [|by eauto|congruence|by etrans].
    intros g c Hg. destruct (Hf _ _ Hg) as [c1 Hc1]. destruct (Hf' _ _ Hc1) as [c2 Hc2].
    exists (c1 ++ c2). by rewrite app_assoc.
Qed.

Lemma extends_same G G' : g_files G' = g_files G → g_inos G' = g_inos G → g_gen0 G' = g_gen0 G → stays (g_stay G) (g_stay G') → extends G G'.
Proof. intros Hf Hi H0 Hs. split; [|by rewrite Hi|done|done]. intros g c. rewrite Hf. exists []. by rewrite app_nil_r. Qed.

(** Log names carry 64-bit generations. *)
Definition log_names (d : Disk) (g : N) (h : nat) : Prop := (g <= U64_MAX)%N ∧ names d g h.

(** ** The linearization point

    An operation takes effect once: the map changes as it should, and the reply that
    the map asks for is known from then on; or it is a [get] that looks into the index while
    the entry of its key is out of it. *)
Record Effect := mkEffect { ef_reply : Reply KvsError; ef_missed : bool }.

Abbreviation status := (option Effect).

Definition took (r : Reply KvsError) : status := Some (mkEffect r false).

(** The entry of a key goes out of the index only when the operation that holds the lock
    replaces it. *)
Definition gap_step (o : Op) (G G' : Ghost) : Prop :=
  ∀ k, g_gap G' = Some k → g_gap G = Some k ∨ replaces (compacts G') o k = true.

Inductive takes_effect (o : Op) (G : Ghost) (st : status) (G' : Ghost) (st' : status) : Prop :=
| effect_none : g_map G' = g_map G → st' = st → gap_step o G G' → takes_effect o G st G' st'
| effect_now r : st = None → st' = took r → spec_op KeyNotFound (g_map G) o = (r, g_map G') → gap_step o G G' → takes_effect o G st G' st'
| effect_missed k r : st = None → st' = Some (mkEffect r true) → o = OpGet k → g_gap G = Some k →
    spec_op KeyNotFound (g_map G) o = (r, g_map G') → gap_step o G G' → takes_effect o G st G' st'.

Lemma gap_same o G G' : g_gap G' = g_gap G → gap_step o G G'.
Proof. intros Hg k. rewrite Hg. by left. Qed.

Lemma gap_closed o G G' : g_gap G' = None → gap_step o G G'.
Proof. intros Hg k. by rewrite Hg. Qed.

Lemma effect_keep o G st G' : g_map G' = g_map G → g_gap G' = g_gap G → takes_effect o G st G' st.
Proof. intros Hm Hg. apply effect_none; [done..|by apply gap_same]. Qed.

(** ** The invariant *)

Section inv.
Context `{!SerdeJson Command} `{!SerdeLaws Command} {policy : BufWriterPolicy}.

(** What stays on the disk has all that the index points to; or a compaction has begun. *)
Definition stay_ok (G : Ghost) (w : World) : Prop :=
  match g_stay G with
  | Some m => kw_gen (w_writer w) = g_gen0 G ∧
      (∀ g n, m !! g = Some n → ∃ h c, log_names (w_disk w) g h ∧ inodes (w_disk w) !! h = Some c ∧ (n <= blen c)%N) ∧
      (∀ k p, w_index w !! k = Some p → ∃ n, m !! gen p = Some n ∧ (pos p + len p <= n)%N)
  | None => (g_gen0 G < kw_gen (w_writer w))%N
  end.

(** The bytes of an entry stay. *)
Definition still (G : Ghost) (p : CommandPos) : Prop :=
  ∀ m, g_stay G = Some m → ∃ n, m !! gen p = Some n ∧ (pos p + len p <= n)%N.

Lemma still_extends G G' p : still G p → extends G G' → still G' p.
Proof.
  intros Hs Hx m' Hm'. destruct (ex_stay _ _ Hx _ Hm') as (m & Hm & Hle). destruct (Hs _ Hm) as (n & Hn & ?).
  destruct (Hle _ _ Hn) as (n' & ? & ?). exists n'. split; [done|lia].
Qed.

(** The part of the invariant that only the holder of the lock can change. *)
Record base (G : Ghost) (w : World) : Prop := {
  ba_wf : fs_wf (w_disk w);
  ba_names : ∀ g h, log_names (w_disk w) g h → g_inos G !! g = Some h;
  (* a file holds what it should, up to what its writer has in its buffer *)
  ba_files : ∀ g h, g_inos G !! g = Some h →
    ∃ c rest, inodes (w_disk w) !! h = Some c ∧ g_files G !! g = Some (c ++ rest);
  ba_inj : ∀ g g' h, g_inos G !! g = Some h → g_inos G !! g' = Some h → g = g';
  ba_bound : ∀ g, is_Some (g_inos G !! g) → (g <= U64_MAX)%N;
  ba_dom : ∀ g, is_Some (g_files G !! g) → is_Some (g_inos G !! g);
  ba_index : index_ok (g_files G) (w_index w) (g_view G);
  ba_handles : ∀ g r, kw_readers (w_writer w) !! g = Some r → g_inos G !! g = Some (rd_ino r);
  ba_stay : stay_ok G w;
}.

Definition readers_ok (G : Ghost) (rds : gmap nat (gmap N BufReaderWithPos)) : Prop :=
  ∀ i hs g r, rds !! i = Some hs → hs !! g = Some r → g_inos G !! g = Some (rd_ino r).

(** Between two operations of writers: the files that are there are complete, every
    entry of the index is in one of them, and the writer is at the end of the newest. *)
Record ready (G : Ghost) (w : World) : Prop := {
  re_base : base G w;
  re_gap : g_gap G = None;
  re_full : ∀ g h, log_names (w_disk w) g h → g_files G !! g = inodes (w_disk w) !! h;
  re_index : ∀ k p, w_index w !! k = Some p → ∃ h, log_names (w_disk w) (gen p) h;
  re_newest : ∀ g, is_Some (g_inos G !! g) → (g <= kw_gen (w_writer w))%N;
  re_writer : log_names (w_disk w) (kw_gen (w_writer w)) (wr_ino (kw_writer (w_writer w)));
  re_buf : wr_buf (kw_writer (w_writer w)) = [];
  re_pos : wr_pos (kw_writer (w_writer w)) = blen (content (w_disk w) (wr_ino (kw_writer (w_writer w))));
}.

(** [n] more writes fit. *)
Definition room (n : nat) (w : World) : Prop := (kw_gen (w_writer w) + 2 * N.of_nat n <= U64_MAX)%N.

Record inv (G : Ghost) (w : World) : Prop := {
  in_base : base G w;
  in_readers : readers_ok G (w_readers w);
  in_sound : w_lock w ≠ Poisoned;
  in_ready : w_lock w = Unlocked → ready G w ∧ room (g_left G) w;
}.

(** What the holder of the lock does not know: the handles of the readers, and (in
    project-5) which of them are in the pool. *)
Definition locals : Type := gmap nat (gmap N BufReaderWithPos) * list nat.
Definition locals_of (w : World) : locals := (w_readers w, w_pool w).

(** The same state with other locals. *)
Definition with_locals (l : locals) (w : World) : World := set_pool (λ _, l.2) (set_readers (λ _, l.1) w).

Lemma with_locals_same w : with_locals (locals_of w) w = w.
Proof. by destruct w. Qed.

Lemma base_locals G w rds : base G (with_locals rds w) ↔ base G w.
Proof. split; intros []; by split. Qed.

Lemma ready_locals G w rds : ready G (with_locals rds w) ↔ ready G w.
Proof. split; intros []; split; try done; by apply base_locals in re_base0 || apply base_locals. Qed.

(** ** Programs that hold the lock *)

Section holder.
Context (o : Op).

(** The thread knows the state but for the locals; [post] holds when it
    is done. It never blocks. *)
Fixpoint holds {A} (p : WP A) (w : World) (G : Ghost) (st : status)
    (post : outcome KvsError A → World → Ghost → status → Prop) : Prop :=
  match p with
  | Done r => post r w G st
  | Act f => ∀ rds,
      match f (with_locals rds w) with
      | None => False
      | Some (w2, p') => ∃ w' G' st', w2 = with_locals rds w' ∧ base G' w' ∧ w_lock w' = Locked ∧
          extends G G' ∧ g_left G' = g_left G ∧ takes_effect o G st G' st' ∧ holds p' w' G' st' post
      end
  end.

Lemma holds_mono {A} (p : WP A) w G st (P Q : outcome KvsError A → World → Ghost → status → Prop) :
  holds p w G st P → (∀ r w G st, P r w G st → Q r w G st) → holds p w G st Q.
Proof.
  intros Hp HPQ. revert w G st Hp. induction p as [r|f IH] using prog_ind; intros w G st; simpl; [apply HPQ|].
  intros Hp rds. specialize (Hp rds). destruct (f (with_locals rds w)) as [[w2 p']|] eqn:Hf; [|done].
  destruct Hp as (w' & G' & st' & Hw & Hb & Hl & Hx & Hlf & He & Hp). exists w', G', st'.
  split_and!; try done. by eapply IH.
Qed.

Lemma holds_bind {A B} (p : WP A) (k : A → WP B) w G st post :
  holds p w G st (λ r w G st, holds (cont k r) w G st post) → holds (p ≫= k) w G st post.
Proof.
  revert w G st. induction p as [r|f IH] using prog_ind; intros w G st; simpl; [done|].
  intros Hp rds. specialize (Hp rds). destruct (f (with_locals rds w)) as [[w2 p']|] eqn:Hf; [|done].
  destruct Hp as (w' & G' & st' & Hw & Hb & Hl & Hx & Hlf & He & Hp). exists w', G', st'.
  split_and!; try done. by eapply IH.
Qed.

(** One action whose result does not depend on the handles of the readers. *)
Lemma holds_atomic {A B} (m : WM A) (k : A → WP B) w G st post r w' G' st' :
  (∀ rds, m (with_locals rds w) = (r, with_locals rds w')) →
  base G' w' → w_lock w' = Locked → extends G G' → g_left G' = g_left G → takes_effect o G st G' st' →
  holds (cont k r) w' G' st' post → holds (atomic m ≫= k) w G st post.
Proof.
  intros Hm Hb Hl Hx Hlf He Hk. apply holds_bind. intros rds. rewrite Hm.
  exists w', G', st'. split_and!; done.
Qed.

(** One action that changes nothing but parts of the writer that [base] does not see. *)
Lemma holds_read {A B} (m : WM A) (k : A → WP B) w G st post r :
  (∀ rds, m (with_locals rds w) = (r, with_locals rds w)) → base G w → w_lock w = Locked →
  holds (cont k r) w G st post → holds (atomic m ≫= k) w G st post.
Proof. intros Hm Hb Hl Hk. eapply holds_atomic; try done. by apply effect_keep. Qed.

Lemma holds_step {A B} (m : WM A) (k : A → WP B) w G st post a w' :
  (∀ rds, m (with_locals rds w) = (Ok a, with_locals rds w')) → base G w' → w_lock w' = Locked →
  holds (k a) w' G st post → holds (atomic m ≫= k) w G st post.
Proof. intros Hm Hb Hl Hk. eapply holds_atomic; try done. by apply effect_keep. Qed.

Lemma holds_gets {A B} (f : World → A) (k : A → WP B) w G st post :
  (∀ rds, f (with_locals rds w) = f w) → base G w → w_lock w = Locked →
  holds (k (f w)) w G st post → holds (atomic (gets f) ≫= k) w G st post.
Proof.
  intros Hf Hb Hl Hk. eapply (holds_read _ _ _ _ _ _ (Ok (f w))); [|done..].
  intros rds. unfold gets. by rewrite Hf.
Qed.

Lemma holds_modify {B} (f : World → World) (k : unit → WP B) w G st post :
  (∀ rds, f (with_locals rds w) = with_locals rds (f w)) → base G (f w) → w_lock (f w) = Locked →
  holds (k tt) (f w) G st post → holds (atomic (modify f) ≫= k) w G st post.
Proof.
  intros Hf Hb Hl Hk. eapply (holds_step _ _ _ _ _ _ tt (f w)); [|done..].
  intros rds. unfold modify. by rewrite Hf.
Qed.
End holder.
End inv.
