(* ===== verification/ConcWriter.v ===== *)
(** * The writer of the concurrent log engine under interference

    What [set], [remove] and the compaction keep true at each of their actions while
    they hold the lock, whatever the readers do meanwhile. *)

From S2P Require Import Prelude Fs Command KvsEngine LogTheory KvStore KvStoreSpec Conc ConcStore ConcStoreSpec ConcHist ConcInv.

Section writer.
Context `{!SerdeJson Command} `{!SerdeLaws Command} {policy : BufWriterPolicy}.

(** ** Files *)

Lemma base_view G w : base G w → ∃ L, log_view (w_disk w) L.
Proof.
  intros Hb. set (d := w_disk w).
  exists (map_imap (λ g _, if decide (g <= U64_MAX)%N then file d g else None) (g_inos G)). split.
  - intros g Hg. rewrite map_lookup_imap. destruct (g_inos G !! g) as [h|] eqn:Hh; simpl.
    + by rewrite decide_True.
    + unfold file. destruct (dir d !! log_path g) as [[i|]|] eqn:Hd; [|done..].
      assert (log_names d g i) as Hn by done. apply (ba_names _ _ Hb) in Hn. congruence.
  - intros g [c Hc]. rewrite map_lookup_imap in Hc. destruct (g_inos G !! g); [|done].
    simpl in Hc. by case_decide.
Qed.

(** The index shows the map [m]. *)
Definition with_map (m : kvmap) (G : Ghost) : Ghost := mkGhost m (g_files G) (g_inos G) (g_left G) (g_gen0 G) (g_stay G) None.
Definition with_file (g : N) (c : bytes) (G : Ghost) : Ghost :=
  mkGhost (g_map G) (<[g := c]> (g_files G)) (g_inos G) (g_left G) (g_gen0 G) (g_stay G) (g_gap G).
Definition with_new (g : N) (h : nat) (G : Ghost) : Ghost :=
  mkGhost (g_map G) (<[g := []]> (g_files G)) (<[g := h]> (g_inos G)) (g_left G) (g_gen0 G) (g_stay G) (g_gap G).
(** [n] bytes of the log [g] stay on the disk, and what stayed before. *)
Definition with_stay (g n : N) (G : Ghost) : Ghost :=
  mkGhost (g_map G) (g_files G) (g_inos G) (g_left G) (g_gen0 G)
    ((λ m : gmap N N, <[g := N.max (default 0%N (m !! g)) n]> m) <$> g_stay G) (g_gap G).
(** A compaction begins. *)
Definition compacting (G : Ghost) : Ghost := mkGhost (g_map G) (g_files G) (g_inos G) (g_left G) (g_gen0 G) None (g_gap G).
(** The entry of a key is out of the index, or back. *)
Definition with_gap (gap : option string) (G : Ghost) : Ghost :=
  mkGhost (g_map G) (g_files G) (g_inos G) (g_left G) (g_gen0 G) (g_stay G) gap.

Lemma extends_file G g c rest : g_files G !! g = Some c → extends G (with_file g (c ++ rest) G).
Proof.
  intros Hc. split; [|done..]. intros g' c' Hg'. simpl. rewrite lookup_insert. case_decide.
  - simplify_eq. by exists rest.
  - exists []. by rewrite app_nil_r.
Qed.

Lemma extends_new G g h : g_inos G !! g = None → g_files G !! g = None → extends G (with_new g h G).
Proof.
  intros Hi Hf. split; simpl.
  - intros g' c' Hg'. exists []. rewrite app_nil_r, lookup_insert_ne; congruence.
  - intros g' h' Hg'. rewrite lookup_insert_ne; congruence.
  - done.
  - done.
Qed.

Lemma extends_stay g n G : extends G (with_stay g n G).
Proof.
  apply extends_same; [done..|]. intros m' Hm'. simpl in Hm'. destruct (g_stay G) as [m|]; [|done]. injection Hm' as <-.
  exists m. split; [done|]. intros g' n' Hg'. rewrite lookup_insert. case_decide; subst; [rewrite Hg'; simpl|]; eexists; split; [done|lia|done|lia].
Qed.

Lemma extends_compacting G : extends G (compacting G).
Proof. by apply extends_same. Qed.

(** What stays, when files and names do. *)
Lemma stay_ok_keep G G' w w' : stay_ok G w → g_stay G' = g_stay G → g_gen0 G' = g_gen0 G → kw_gen (w_writer w') = kw_gen (w_writer w) →
  (∀ g h c, g_stay G ≠ None → log_names (w_disk w) g h → inodes (w_disk w) !! h = Some c →
     log_names (w_disk w') g h ∧ ∃ c', inodes (w_disk w') !! h = Some (c ++ c')) →
  (∀ k p, g_stay G ≠ None → w_index w' !! k = Some p → w_index w !! k = Some p) → stay_ok G' w'.
Proof.
  unfold stay_ok. intros Hs -> -> -> Hf Hi. destruct (g_stay G) as [m|]; [|done]. destruct Hs as (Hg & Hd & Hidx). split_and!; [done| |].
  - intros g n Hn. destruct (Hd _ _ Hn) as (h & c & Hl & Hc & Hle). destruct (Hf g h c) as (Hl' & c' & Hc'); [done..|].
    exists h, (c ++ c'). rewrite blen_app. split_and!; [done|done|lia].
  - intros k p Hp. apply (Hidx k), Hi; done.
Qed.

(** Bytes reach the disk: [data] at the end of the log [g], of which [rest] stays in a
    buffer. *)
Lemma base_append G w g h c data rest old : base G w → log_names (w_disk w) g h →
  inodes (w_disk w) !! h = Some c → g_files G !! g = Some old → (∃ x, c ++ data ++ rest = old ++ x) →
  base (with_file g (c ++ data ++ rest) G) (set_disk (append h data (w_disk w)) w).
Proof.
  intros Hb [Hg Hn] Hc Hold [x Hx]. destruct (base_view _ _ Hb) as [L HL].
  assert (L !! g = Some c) as HLg.
  { rewrite <-(lv_file _ _ HL g Hg). unfold file. by rewrite Hn. }
  destruct (append_log (w_disk w) L (ba_wf _ _ Hb) HL g h c data Hn HLg) as [Hwf' _].
  pose proof (ba_names _ _ Hb g h (conj Hg Hn)) as Hgh. destruct Hb. split; simpl.
  - done.
  - done.
  - intros g' h' Hg'. rewrite lookup_alter, lookup_insert. destruct (decide (g = g')) as [<-|Hne].
    + assert (h' = h) as -> by congruence. rewrite decide_True, Hc by done.
      exists (c ++ data), rest. by rewrite <-app_assoc.
    + rewrite decide_False; [by apply ba_files|]. intros ->. apply Hne. by eapply ba_inj.
  - done.
  - done.
  - intros g' Hg'. apply ba_dom. revert Hg'. rewrite lookup_insert. case_decide; [|done]. subst. by eexists.
  - eapply index_ok_mono; [done|]. intros k p c' _ Hc'. rewrite lookup_insert. case_decide.
    + simplify_eq. exists x. by rewrite Hx.
    + exists []. by rewrite app_nil_r.
  - done.
  - apply (stay_ok_keep G _ w); try done. intros g' h' c' _ Hn' Hc'. split; [done|]. simpl. rewrite lookup_alter.
    case_decide; [subst; rewrite Hc'; by eexists|exists []; by rewrite app_nil_r].
Qed.

(** A new log is made. *)
Lemma base_new G w g : base G w → (g <= U64_MAX)%N → g_inos G !! g = None →
  let h := next_ino (w_disk w) in
  let d' := mkDisk (<[log_path g := FileEnt h]> (dir (w_disk w))) (<[h := []]> (inodes (w_disk w))) (S h) in
  open_append (log_path g) (w_disk w) = (Ok h, d') ∧ base (with_new g h G) (set_disk d' w) ∧
  extends G (with_new g h G) ∧
  (∀ g' h', log_names d' g' h' ↔ g' = g ∧ h' = h ∨ g' ≠ g ∧ log_names (w_disk w) g' h') ∧
  ∀ g' h', log_names (w_disk w) g' h' → h' ≠ h.
Proof.
  intros Hb Hg Hi h d'. destruct (base_view _ _ Hb) as [L HL].
  assert (L !! g = None) as HLg.
  { rewrite <-(lv_file _ _ HL g Hg). unfold file.
    destruct (dir (w_disk w) !! log_path g) as [[i|]|] eqn:Hd; [|done..].
    assert (log_names (w_disk w) g i) as Hn by done. apply (ba_names _ _ Hb) in Hn. congruence. }
  pose proof (lv_absent _ L (ba_wf _ _ Hb) HL g Hg HLg) as Habs.
  assert (open_append (log_path g) (w_disk w) = (Ok h, d')) as Hop by (unfold open_append; by rewrite Habs).
  destruct (open_append_new (w_disk w) L (ba_wf _ _ Hb) HL g Hg HLg) as (d'' & Hop' & Hwf' & _).
  rewrite Hop in Hop'. injection Hop' as <-.
  assert (∀ g' h', g_inos G !! g' = Some h' → h' < h) as Hlt.
  { intros g' h' Hgh. destruct (ba_files _ _ Hb _ _ Hgh) as (c & _ & Hc & _).
    apply (wf_next _ (ba_wf _ _ Hb)). by eexists. }
  assert (∀ g' h', log_names d' g' h' ↔ g' = g ∧ h' = h ∨ g' ≠ g ∧ log_names (w_disk w) g' h') as Hnames.
  { intros g' h'. unfold log_names; simpl. destruct (decide (g' = g)) as [->|Hne].
    - rewrite lookup_insert_eq. naive_solver.
    - rewrite lookup_insert_ne by (intros ?%log_path_inj; congruence). naive_solver. }
  assert (g_files G !! g = None) as Hf.
  { destruct (g_files G !! g) eqn:E; [|done]. destruct (ba_dom _ _ Hb g) as [? ?]; [by eexists|congruence]. }
  split; [done|]. split; [|split; [by apply extends_new|split; [done|]]].
  2:{ intros g' h' Hn. pose proof (Hlt _ _ (ba_names _ _ Hb _ _ Hn)). lia. }
  destruct Hb. split; simpl.
  - done.
  - intros g' h' [[-> ->]|[Hne Hn]]%Hnames; [by rewrite lookup_insert_eq|].
    rewrite lookup_insert_ne by done. by apply ba_names.
  - intros g' h'. rewrite !lookup_insert. case_decide as Hgg.
    + intros [= <-]. rewrite decide_True by done. by exists [], [].
    + intros Hgh. rewrite decide_False by (apply Hlt in Hgh; lia). by apply ba_files.
  - intros g1 g2 h'. rewrite !lookup_insert. repeat case_decide; intros H1 H2; simplify_eq; try done.
    + apply Hlt in H2. lia.
    + apply Hlt in H1. lia.
    + by eapply ba_inj.
  - intros g'. rewrite lookup_insert. case_decide; [by subst|apply ba_bound].
  - intros g'. rewrite !lookup_insert. case_decide; [by eexists|apply ba_dom].
  - eapply index_ok_mono; [done|]. intros k p c' _ Hc'. exists [].
    rewrite app_nil_r, lookup_insert_ne; [done|]. congruence.
  - intros g' r Hr. rewrite lookup_insert_ne; [by apply ba_handles|].
    intros <-. apply ba_handles in Hr. congruence.
  - apply (stay_ok_keep G _ w); try done. intros g' h' c' _ Hn' Hc'. split.
    + apply Hnames. right. split; [|done]. intros ->. apply ba_names in Hn'. congruence.
    + simpl. rewrite lookup_insert_ne; [exists []; by rewrite app_nil_r|]. apply ba_names, Hlt in Hn'. lia.
Qed.

(** A log is deleted, or was not there. *)
Lemma base_remove G w name d' : base G w → g_stay G = None → (remove_file name (w_disk w)).2 = d' →
  base G (set_disk d' w) ∧ inodes d' = inodes (w_disk w) ∧
  (∀ g h, log_names d' g h → log_names (w_disk w) g h) ∧
  (∀ g h, log_path g ≠ name → log_names (w_disk w) g h → log_names d' g h).
Proof.
  intros Hb Hst <-. unfold remove_file. destruct (dir (w_disk w) !! name) as [[i|]|] eqn:Hd; simpl;
    [|split_and!; try done; by destruct w..].
  assert (∀ g h, log_names (mkDisk (delete name (dir (w_disk w))) (inodes (w_disk w)) (next_ino (w_disk w))) g h →
    log_names (w_disk w) g h) as Hsub.
  { intros g h [Hg Hn]. simpl in Hn. by apply lookup_delete_Some in Hn as [_ Hn]. }
  split_and!; try done.
  - destruct Hb. split; simpl; try done; [|by intros g h Hn%Hsub; apply ba_names|by revert ba_stay; unfold stay_ok; rewrite Hst].
    destruct ba_wf. split; simpl; try done.
    + intros n j [_ Hn]%lookup_delete_Some. by eapply wf_inode.
    + intros n1 n2 j [_ H1]%lookup_delete_Some [_ H2]%lookup_delete_Some. by eapply wf_inj.
    + intros n j g [_ Hn]%lookup_delete_Some. by eapply wf_canonical.
    + intros g [_ Hn]%lookup_delete_Some. by eapply wf_nodir.
  - intros g h Hne [Hg Hn]. split; [done|]. simpl. by rewrite lookup_delete_ne.
Qed.

(** ** set and remove, up to the compaction *)

Lemma base_same G w w' : base G w → w_disk w' = w_disk w → w_index w' = w_index w →
  kw_readers (w_writer w') = kw_readers (w_writer w) → kw_gen (w_writer w') = kw_gen (w_writer w) → base G w'.
Proof.
  intros [] Hd Hi Hr Hg. split; rewrite ?Hd, ?Hi, ?Hr; try done. apply (stay_ok_keep G G w); rewrite ?Hd, ?Hi; try done.
  intros g h c _ Hn Hc. split; [done|]. exists []. by rewrite app_nil_r.
Qed.

Lemma ready_same G w w' : ready G w → w_disk w' = w_disk w → w_index w' = w_index w →
  kw_readers (w_writer w') = kw_readers (w_writer w) → kw_writer (w_writer w') = kw_writer (w_writer w) →
  kw_gen (w_writer w') = kw_gen (w_writer w) → ready G w'.
Proof.
  intros [] Hd Hi Hr Hw Hg. split; rewrite ?Hd, ?Hi, ?Hw, ?Hg; try done. by eapply base_same.
Qed.

Lemma ready_uncompacted G w f : ready G w → ready G (set_writer (set_kw_uncompacted f) w).
Proof. intros Hr. by eapply ready_same. Qed.

Lemma base_with_stay G w g n h c : base G w → log_names (w_disk w) g h → inodes (w_disk w) !! h = Some c → (n <= blen c)%N →
  base (with_stay g n G) w.
Proof.
  intros [] Hn Hc Hle. split; simpl; try done. unfold stay_ok in *. simpl. destruct (g_stay G) as [m|]; [|done].
  destruct ba_stay as (Hg & Hd & Hidx). split_and!; [done| |].
  - intros g' n'. rewrite lookup_insert. case_decide as Heq; [|apply Hd]. intros [= <-]. subst g'. destruct (m !! g) as [n0|] eqn:Hm.
    + destruct (Hd _ _ Hm) as (h' & c' & Hl' & Hc' & ?). assert (h' = h) as -> by (pose proof (ba_names _ _ Hl'); pose proof (ba_names _ _ Hn); congruence).
      rewrite Hc in Hc'. injection Hc' as <-. exists h, c. split_and!; [done|done|simpl; lia].
    + exists h, c. split_and!; [done|done|simpl; lia].
  - intros k p Hp. destruct (Hidx _ _ Hp) as (n' & Hn' & ?). rewrite lookup_insert. case_decide; subst; [rewrite Hn'; simpl|]; eexists; split; [done|lia|done|lia].
Qed.

Lemma base_map_insert G w k p v : base G w → g_gap G = None → entry_ok (g_files G) k p v → still G p →
  base (with_map (<[k := v]> (g_map G)) G) (set_index <[k := p]> w).
Proof.
  intros [] Hgap He Hst. rewrite (view_whole _ Hgap) in ba_index. split; simpl; try done; [by apply index_ok_insert|].
  unfold stay_ok, still in *. simpl. destruct (g_stay G) as [m|]; [|done]. destruct ba_stay as (Hg & Hd & Hidx). split_and!; [done..|].
  intros k' p'. rewrite lookup_insert. case_decide; [|apply Hidx]. intros [= <-]. by apply Hst.
Qed.

Lemma still_with_stay G p : still (with_stay (gen p) (pos p + len p) G) p.
Proof.
  intros m Hm. simpl in Hm. destruct (g_stay G) as [m0|]; [|done]. injection Hm as <-. rewrite lookup_insert_eq.
  eexists. split; [done|lia].
Qed.

(** A complete entry is entered into the index. *)
Definition with_entry (k v : string) (p : CommandPos) (G : Ghost) : Ghost :=
  with_map (<[k := v]> (g_map G)) (with_stay (gen p) (pos p + len p) G).

Lemma ready_insert G w k p v h : ready G w → entry_ok (g_files G) k p v → log_names (w_disk w) (gen p) h →
  ready (with_entry k v p G) (set_index <[k := p]> w).
Proof.
  intros [] He Hn. split; simpl; try done.
  { pose proof He as (c & Hc & Hle & _). rewrite (re_full _ _ Hn) in Hc.
    apply (base_map_insert (with_stay (gen p) (pos p + len p) G)); [by eapply base_with_stay|done|done|apply still_with_stay]. }
  intros k' p'. rewrite lookup_insert. case_decide; [intros; simplify_eq; by eexists|apply re_index].
Qed.

Lemma extends_entry k v p G : extends G (with_entry k v p G).
Proof. etrans; [apply (extends_stay (gen p) (pos p + len p))|by apply extends_same]. Qed.

Lemma ready_delete G w k : ready G w →
  ready (with_map (delete k (g_map G)) G) (set_index (delete k) w).
Proof.
  intros []. split; simpl; try done.
  - destruct re_base. rewrite (view_whole _ re_gap) in ba_index. split; simpl; try done; [by apply index_ok_delete|].
    apply (stay_ok_keep G _ w); try done.
    + intros g h c _ Hn Hc. split; [done|]. exists []. by rewrite app_nil_r.
    + simpl. by intros k' p' _ [_ Hp]%lookup_delete_Some.
  - intros k' p' [_ Hp]%lookup_delete_Some. by eapply re_index.
Qed.

Lemma ready_index G w : ready G w → index_ok (g_files G) (w_index w) (g_map G).
Proof. intros []. rewrite <-(view_whole _ re_gap). apply re_base. Qed.

(** The entry of a key goes out of the index, and the map keeps the key. *)
Lemma base_gap G w k : base G w → g_gap G = None → base (with_gap (Some k) G) (set_index (delete k) w).
Proof.
  intros [] Hgap. rewrite (view_whole _ Hgap) in ba_index. split; simpl; try done; [by apply index_ok_delete|].
  apply (stay_ok_keep G _ w); try done.
  - intros g h c _ Hn Hc. split; [done|]. exists []. by rewrite app_nil_r.
  - simpl. by intros k' p' _ [_ Hp]%lookup_delete_Some.
Qed.

(** The newest log, as the writer knows it. *)
Lemma ready_newest_log G w : ready G w → ∃ c,
  g_files G !! kw_gen (w_writer w) = Some c ∧ inodes (w_disk w) !! wr_ino (kw_writer (w_writer w)) = Some c ∧
  wr_pos (kw_writer (w_writer w)) = blen c.
Proof.
  intros Hr. pose proof (re_full _ _ Hr _ _ (re_writer _ _ Hr)) as Hf.
  destruct (ba_files _ _ (re_base _ _ Hr) _ _ (ba_names _ _ (re_base _ _ Hr) _ _ (re_writer _ _ Hr))) as (c & rest & Hc & Hf').
  exists c. split_and!; [congruence|done|]. rewrite (re_pos _ _ Hr). unfold content. by rewrite Hc.
Qed.

Lemma ready_wrote G w cmd c : ready G w → g_files G !! kw_gen (w_writer w) = Some c →
  ready (with_file (kw_gen (w_writer w)) (c ++ to_writer cmd) G) (wrote4 cmd w).
Proof.
  intros Hr Hc. destruct (ready_newest_log _ _ Hr) as (c' & Hc' & Hino & Hpos). rewrite Hc in Hc'. injection Hc' as <-.
  assert (base (with_file (kw_gen (w_writer w)) (c ++ to_writer cmd) G) (wrote4 cmd w)) as Hb.
  { pose proof (base_append G w _ _ c (to_writer cmd) [] c (re_base _ _ Hr) (re_writer _ _ Hr) Hino Hc) as Hb.
    rewrite app_nil_r in Hb. specialize (Hb ltac:(by eexists)). by eapply base_same. }
  destruct Hr as [Hbase Hgap Hfull Hidx Hnew Hwr Hbuf Hp].
  split; simpl; try done.
  - intros g h Hn. rewrite lookup_alter, lookup_insert. destruct (decide (kw_gen (w_writer w) = g)) as [<-|Hne].
    + pose proof (ba_names _ _ Hbase _ _ Hn) as H1. pose proof (ba_names _ _ Hbase _ _ Hwr) as H2.
      rewrite H1 in H2. injection H2 as ->. by rewrite decide_True, Hino by done.
    + rewrite decide_False; [by apply Hfull|]. intros Heq. apply Hne.
      eapply (ba_inj _ _ Hbase); [apply (ba_names _ _ Hbase _ _ Hwr)|]. rewrite Heq. by apply (ba_names _ _ Hbase).
  - rewrite Hpos. unfold content. simpl. rewrite lookup_alter_eq, Hino. simpl. by rewrite blen_app.
Qed.

Context (o : Op).

(** Writing a command: the log has it, the map is the same. *)
Lemma holds_write_cmd {B} cmd (k : unit → WP B) w G st post c : ready G w → w_lock w = Locked →
  g_files G !! kw_gen (w_writer w) = Some c →
  holds o (k tt) (wrote4 cmd w) (with_file (kw_gen (w_writer w)) (c ++ to_writer cmd) G) st post →
  holds o (atomic (write_cmd cmd) ≫= k) w G st post.
Proof.
  intros Hr Hl Hc Hk. pose proof (ready_wrote _ _ cmd _ Hr Hc) as Hr'.
  apply (holds_atomic o (write_cmd cmd) k w G st post (Ok tt) (wrote4 cmd w)
    (with_file (kw_gen (w_writer w)) (c ++ to_writer cmd) G) st);
    [|apply Hr'|exact Hl|by apply extends_file|done|by apply effect_keep|exact Hk].
  intros rds. unfold write_cmd. mpure. unfold writer_flush, writer_write. simpl. by rewrite (re_buf _ _ Hr).
Qed.

(** An entry is replaced: its key is out of the index, and then in it. *)
Lemma holds_index_insert {B} k p p' (f : unit → WP B) w G G' st st' post :
  base G w → g_gap G = None → w_lock w = Locked → replaces (compacts G) o k = true →
  (∀ rds, p (with_locals rds (set_index (delete k) w)) = p') →
  base G' (set_index <[k := p']> w) → extends G G' → g_left G' = g_left G → takes_effect o (with_gap (Some k) G) st G' st' →
  holds o (f tt) (set_index <[k := p']> w) G' st' post →
  holds o (index_insert k p ≫= f) w G st post.
Proof.
  intros Hb Hgap Hl Hrep Hp Hb' Hx Hlf He Hk. unfold index_insert. apply holds_bind.
  eapply (holds_atomic _ _ _ _ _ _ _ (Ok tt) (set_index (delete k) w) (with_gap (Some k) G) st);
    [done|by apply base_gap|done|by apply extends_same|done| |].
  { apply effect_none; [done..|]. intros k' [= <-]. by right. }
  intros rds. exists (set_index <[k := p']> w), G', st'. split_and!; try done; [|by split; apply Hx].
  rewrite Hp, <-(set_index_insert k p' w). done.
Qed.

(** What the rest of an operation gets from its compaction. *)
Definition compaction_post (w : World) (G : Ghost) (st : status)
    (r : outcome KvsError unit) (w' : World) (G' : Ghost) (st' : status) : Prop :=
  r = Ok tt ∧ ready G' w' ∧ w_lock w' = Locked ∧ (kw_gen (w_writer w') <= kw_gen (w_writer w) + 2)%N ∧ st' = st ∧
  g_left G' = g_left G.

Lemma holds_Writer_set k v w G post : ready G w → w_lock w = Locked → o = OpSet k v →
  (∀ w' G', ready G' w' → w_lock w' = Locked → kw_gen (w_writer w') = kw_gen (w_writer w) → g_left G' = g_left G →
     holds o maybe_compact w' G' (took RDone) post) →
  holds o (Writer_set k v) w G None post.
Proof.
  intros Hr Hl Ho Hpost. destruct (ready_newest_log _ _ Hr) as (c & Hc & Hino & Hpos).
  unfold Writer_set, Command_set.
  apply holds_gets; [done|apply Hr|done|]. cbn beta.
  eapply holds_write_cmd; [done|done|exact Hc|].
  set (w1 := wrote4 (Command_Set k v) w). set (G1 := with_file _ _ G).
  assert (ready G1 w1) as Hr1 by by apply ready_wrote.
  assert (w_lock w1 = Locked) as Hl1 by done.
  set (p := CommandPos_from (kw_gen (w_writer w)) (wr_pos (kw_writer (w_writer w))) (wr_pos (kw_writer (w_writer w1)))).
  assert (entry_ok (g_files G1) k p v) as Hentry.
  { unfold p. simpl. rewrite Hpos. apply (CommandPos_from_here _ _ k v c []).
    unfold G1; simpl. by rewrite lookup_insert_eq, app_nil_r. }
  assert (∀ w2, ready G1 w2 → w_lock w2 = Locked → kw_gen (w_writer w2) = kw_gen (w_writer w) →
    kw_writer (w_writer w2) = kw_writer (w_writer w1) → w_disk w2 = w_disk w1 →
    holds o (index_insert k (λ u, CommandPos_from (kw_gen (w_writer u))
      (wr_pos (kw_writer (w_writer w))) (wr_pos (kw_writer (w_writer u)))) ≫= λ _, maybe_compact) w2 G1 None post) as Htail.
  { intros w2 Hr2 Hl2 Hg2 Hkw2 Hd2.
    assert (ready (with_entry k v p G1) (set_index <[k := p]> w2)) as Hr3.
    { eapply ready_insert; [done|done|]. rewrite Hd2. apply (re_writer _ _ Hr1). }
    eapply (holds_index_insert k _ p _ _ _ (with_entry k v p G1) None (took RDone));
      [apply Hr2|apply Hr2|done| | |apply Hr3|apply extends_entry|done| |by apply Hpost].
    - rewrite Ho. simpl. by rewrite bool_decide_true, orb_true_r.
    - intros rds. unfold p. cbn. by rewrite Hg2, Hkw2.
    - eapply effect_now; [done|done|by rewrite Ho|by apply gap_closed]. }
  apply holds_bind. apply holds_gets; [done|apply Hr1|done|]. cbn beta.
  destruct (w_index w1 !! k) as [old|].
  - apply holds_modify; [done|by apply ready_uncompacted|done|]. cbn beta.
    apply Htail; try done. by apply ready_uncompacted.
  - by apply Htail.
Qed.

Lemma holds_Writer_remove k w G post : ready G w → w_lock w = Locked → o = OpRemove k →
  post (Err KeyNotFound) w G (took (RError KeyNotFound)) →
  (∀ w' G', ready G' w' → w_lock w' = Locked → kw_gen (w_writer w') = kw_gen (w_writer w) → g_left G' = g_left G →
     holds o maybe_compact w' G' (took RDone) post) →
  holds o (Writer_remove k) w G None post.
Proof.
  intros Hr Hl Ho Hmiss Hpost. destruct (ready_newest_log _ _ Hr) as (c & Hc & Hino & Hpos).
  pose proof (index_ok_dom _ _ _ k (ready_index _ _ Hr)) as Hdom.
  unfold Writer_remove, Command_remove. destruct (w_index w !! k) as [p0|] eqn:Hk.
  2:{ assert (g_map G !! k = None) as Hm by (apply eq_None_not_Some; rewrite <-Hdom; by intros []).
      eapply (holds_atomic _ _ _ _ _ _ _ (Ok None) w G (took (RError KeyNotFound)));
        [|apply Hr|done|done|done| |exact Hmiss].
      - intros rds. unfold gets. simpl. by rewrite Hk.
      - eapply effect_now; [done|done| |by apply gap_same]. rewrite Ho. simpl. by rewrite Hm. }
  assert (is_Some (g_map G !! k)) as [v0 Hv0] by (apply Hdom; by eexists).
  apply holds_gets; [done|apply Hr|done|]. cbn beta. rewrite Hk. cbn zeta.
  apply holds_gets; [done|apply Hr|done|]. cbn beta.
  eapply holds_write_cmd; [done|done|exact Hc|].
  set (w1 := wrote4 (Command_Remove k) w). set (G1 := with_file _ _ G).
  assert (ready G1 w1) as Hr1 by by apply ready_wrote.
  set (G2 := with_map (delete k (g_map G1)) G1). set (w2 := set_index (delete k) w1).
  assert (ready G2 w2) as Hr2 by by apply ready_delete.
  apply holds_bind. eapply (holds_atomic _ _ _ _ _ _ _ (Ok p0) w2 G2 (took RDone));
    [|apply Hr2|done|by apply extends_same|done| |].
  - intros rds. mpure. simpl. by rewrite Hk.
  - eapply effect_now; [done|done| |by apply gap_closed]. rewrite Ho. simpl. by rewrite Hv0.
  - cbn [cont]. set (w3 := set_writer (set_kw_uncompacted (λ u, u + len p0)%N) w2).
    assert (ready G2 w3) as Hr3 by by apply ready_uncompacted.
    apply holds_modify; [done|apply Hr3|done|]. fold w3. cbn beta. intros rds.
    exists (set_writer (set_kw_uncompacted (λ u, u + (wr_pos (kw_writer (w_writer w3)) - wr_pos (kw_writer (w_writer w))))%N) w3), G2, (took RDone).
    split_and!; [reflexivity| |done|done|done|by apply effect_keep|].
    + eapply base_same; [apply Hr3|done..].
    + apply Hpost; [|done..]. by eapply ready_same.
Qed.

(** ** The reader of the writer *)

Definition with_kw_readers (hs : gmap N BufReaderWithPos) (w : World) : World := set_handles WriterReader (λ _, hs) w.

Definition handles_in (G : Ghost) (hs : gmap N BufReaderWithPos) : Prop :=
  ∀ g r, hs !! g = Some r → g_inos G !! g = Some (rd_ino r).

Lemma handles_in_delete G hs g : handles_in G hs → handles_in G (delete g hs).
Proof. intros H g' r [_ ?]%lookup_delete_Some. by apply H. Qed.

Lemma handles_in_insert G hs g r : handles_in G hs → g_inos G !! g = Some (rd_ino r) → handles_in G (<[g := r]> hs).
Proof. intros H Hr g' r'. rewrite lookup_insert. case_decide; [intros; by simplify_eq|apply H]. Qed.

Lemma base_kw_readers G w hs : base G w → handles_in G hs → base G (with_kw_readers hs w).
Proof. intros [] Hhs. by split. Qed.

Lemma with_kw_readers_same w : with_kw_readers (kw_readers (w_writer w)) w = w.
Proof. unfold with_kw_readers, set_handles, set_writer. by destruct w as [? ? ? [] ? ? ?]. Qed.

Lemma holds_close_loop n hs w G st (post : outcome KvsError unit → World → Ghost → status → Prop) :
  size hs < n → handles_in G hs → base G w → w_lock w = Locked →
  (∀ hs', handles_in G hs' → post (Ok tt) (with_kw_readers hs' w) G st) →
  holds o (close_loop n WriterReader) (with_kw_readers hs w) G st post.
Proof.
  revert hs. induction n as [|n IH]; intros hs Hn Hhs Hb Hl Hpost; [lia|]. cbn [close_loop].
  destruct (head (gens hs)) as [g|] eqn:Hh.
  - destruct (head_gens_min _ _ Hh) as [Hg _]. destruct (w_safe_point w <=? g)%N eqn:Hle.
    + eapply (holds_step _ _ _ _ _ _ _ true (with_kw_readers hs w)); [|by apply base_kw_readers|done|by apply Hpost].
      intros rds. simpl. by rewrite Hh, Hle.
    + eapply (holds_step _ _ _ _ _ _ _ false (with_kw_readers (delete g hs) w));
        [|apply base_kw_readers; [done|by apply handles_in_delete]|done|].
      * intros rds. simpl. by rewrite Hh, Hle.
      * apply IH; [|by apply handles_in_delete|done..].
        rewrite map_size_delete_Some by done. destruct Hg as [r Hr]. destruct (size hs) eqn:E; [|lia].
        apply map_size_empty_inv in E. by rewrite E, lookup_empty in Hr.
  - eapply (holds_step _ _ _ _ _ _ _ true (with_kw_readers hs w)); [|by apply base_kw_readers|done|by apply Hpost].
    intros rds. simpl. by rewrite Hh.
Qed.

Lemma holds_close_stale w G st (post : outcome KvsError unit → World → Ghost → status → Prop) :
  base G w → w_lock w = Locked →
  (∀ hs, handles_in G hs → post (Ok tt) (with_kw_readers hs w) G st) →
  holds o (close_stale_handles WriterReader) w G st post.
Proof.
  intros Hb Hl Hpost. unfold close_stale_handles. apply holds_gets; [done|done|done|].
  rewrite <-(with_kw_readers_same w) at 2. apply holds_close_loop; [simpl; lia|exact (ba_handles _ _ Hb)|done..].
Qed.

(** Reading an entry whose file is there and complete. *)
Lemma holds_read_and {R} (f : bytes → WP R) p key v w G st post h :
  base G w → w_lock w = Locked → entry_ok (g_files G) key p v →
  log_names (w_disk w) (gen p) h → g_files G !! gen p = inodes (w_disk w) !! h →
  (∀ hs, handles_in G hs → holds o (f (to_writer (Command_Set key v))) (with_kw_readers hs w) G st post) →
  holds o (read_and WriterReader p f) w G st post.
Proof.
  intros Hb Hl (c & Hc & Hle & Hsl) Hn Hfull Hpost. unfold read_and. apply holds_bind, holds_close_stale; [done|done|].
  intros hs Hhs. cbn [cont]. pose proof (ba_names _ _ Hb _ _ Hn) as Hino.
  assert (∃ hs1 r, handles_in G hs1 ∧ hs1 !! gen p = Some r ∧ ∀ rds,
    ensure_handle WriterReader (gen p) (with_locals rds (with_kw_readers hs w)) = (Ok tt, with_locals rds (with_kw_readers hs1 w)))
    as (hs1 & r & Hhs1 & Hr & Hens).
  { destruct (hs !! gen p) as [r|] eqn:Hr.
    - exists hs, r. split_and!; [done|done|]. intros rds. unfold ensure_handle. mpure. simpl. by rewrite Hr.
    - exists (<[gen p := BufReaderWithPos_new h]> hs), (BufReaderWithPos_new h).
      split_and!; [by apply handles_in_insert|by rewrite lookup_insert_eq|]. intros rds.
      unfold ensure_handle. mpure. simpl. rewrite Hr. destruct Hn as [_ Hn].
      erewrite bind_ok; [|apply question_ok; unfold on_disk, File_open; simpl; rewrite Hn; reflexivity].
      reflexivity. }
  eapply holds_step; [exact Hens|by apply base_kw_readers|done|].
  pose proof (Hhs1 _ _ Hr) as Hri. rewrite Hino in Hri. injection Hri as Hri.
  set (r' := mkReader (rd_ino r) (pos p + blen (to_writer (Command_Set key v)))).
  assert (handles_in G (<[gen p := r']> hs1)) as Hhs2 by (apply handles_in_insert; [done|]; simpl; congruence).
  eapply (holds_step _ _ _ _ _ _ _ (to_writer (Command_Set key v)) (with_kw_readers (<[gen p := r']> hs1) w));
    [|by apply base_kw_readers|done|by apply Hpost].
  intros rds. unfold read_at. simpl.
  rewrite (bind_ok _ _ _ r (with_locals rds (with_kw_readers hs1 w))).
  2:{ unfold gets, mbind, M_bind. simpl. by rewrite Hr. }
  mpure. unfold reader_take. simpl. rewrite <-Hri. unfold content. rewrite <-Hfull, Hc. simpl. rewrite Hsl. unfold r'. by rewrite <-Hri.
Qed.

(** ** The compaction *)

(** While the log [cg] is written: [written] is on the disk, the rest in the buffer of
    [bw]; the entries of [keys] are still to be moved. *)
Record mid (cg : N) (G : Ghost) (w : World) (bw : BufWriterWithPos) (written : bytes) (keys : list string) : Prop := {
  mi_base : base G w;
  mi_lock : w_lock w = Locked;
  mi_stay : g_stay G = None;
  mi_gap : g_gap G = None;
  mi_full : ∀ g h, log_names (w_disk w) g h → g ≠ cg → g_files G !! g = inodes (w_disk w) !! h;
  mi_name : log_names (w_disk w) cg (wr_ino bw);
  mi_disk : inodes (w_disk w) !! wr_ino bw = Some written;
  mi_file : g_files G !! cg = Some (given written bw);
  mi_gen : kw_gen (w_writer w) = (cg + 1)%N;
  mi_writer : log_names (w_disk w) (cg + 1) (wr_ino (kw_writer (w_writer w)));
  mi_wdisk : inodes (w_disk w) !! wr_ino (kw_writer (w_writer w)) = Some [];
  mi_buf : wr_buf (kw_writer (w_writer w)) = [];
  mi_pos : wr_pos (kw_writer (w_writer w)) = 0%N;
  mi_newest : ∀ g, is_Some (g_inos G !! g) → (g <= cg + 1)%N;
  mi_todo : ∀ k, k ∈ keys → ∃ p h, w_index w !! k = Some p ∧ gen p ≠ cg ∧ log_names (w_disk w) (gen p) h;
  mi_index : ∀ k p, w_index w !! k = Some p → k ∈ keys ∨ gen p = cg;
}.

Lemma mid_kw_readers cg G w bw written keys hs : mid cg G w bw written keys → handles_in G hs →
  mid cg G (with_kw_readers hs w) bw written keys.
Proof. intros [] Hhs. split; try done. by apply base_kw_readers. Qed.

Lemma mid_names_ne cg G w bw written keys g h : mid cg G w bw written keys →
  log_names (w_disk w) g h → g ≠ cg → h ≠ wr_ino bw.
Proof.
  intros Hm Hn Hne ->. apply Hne. pose proof (mi_base _ _ _ _ _ _ Hm) as Hb.
  eapply (ba_inj _ _ Hb); apply (ba_names _ _ Hb); [exact Hn|apply Hm].
Qed.

(** More bytes are given to the compaction writer: [data] reaches the disk. *)
Lemma mid_append cg G w bw bw' written keys data more : mid cg G w bw written keys →
  wr_ino bw' = wr_ino bw → data ++ wr_buf bw' = wr_buf bw ++ more →
  mid cg (with_file cg (given written bw ++ more) G) (set_disk (append (wr_ino bw) data (w_disk w)) w) bw' (written ++ data) keys.
Proof.
  intros Hm Hino Hbuf. assert (given (written ++ data) bw' = given written bw ++ more) as Hg.
  { unfold given. by rewrite <-!app_assoc, Hbuf. }
  assert (∀ g h, log_names (w_disk w) g h → g ≠ cg → h ≠ wr_ino bw) as Hne by (intros; by eapply mid_names_ne).
  pose proof (base_append G w cg (wr_ino bw) written data (wr_buf bw') (given written bw)
    (mi_base _ _ _ _ _ _ Hm) (mi_name _ _ _ _ _ _ Hm) (mi_disk _ _ _ _ _ _ Hm) (mi_file _ _ _ _ _ _ Hm)) as Hb.
  assert (written ++ data ++ wr_buf bw' = given written bw ++ more) as Heq by (rewrite <-Hg; unfold given; by rewrite app_assoc).
  rewrite Heq in Hb. specialize (Hb ltac:(by eexists)). destruct Hm.
  split; simpl; rewrite ?Hino; try done.
  - intros g h Hn Hgc. rewrite lookup_insert_ne, lookup_alter_ne by (done || (symmetry; by eapply Hne)). by apply mi_full0.
  - by rewrite lookup_alter_eq, mi_disk0.
  - by rewrite lookup_insert_eq, Hg.
  - rewrite lookup_alter_ne; [done|]. intros Heq'. eapply Hne; [exact mi_writer0|lia|done].
Qed.

Lemma mid_move cg G w bw written keys k v pre rest : mid cg G w bw written (k :: keys) → k ∉ keys →
  g_map G !! k = Some v → given written bw = pre ++ to_writer (Command_Set k v) ++ rest →
  mid cg G (set_index <[k := CommandPos_from cg (blen pre) (blen pre + blen (to_writer (Command_Set k v)))]> w) bw written keys.
Proof.
  intros Hm Hk Hv Hg. set (p := CommandPos_from _ _ _).
  assert (entry_ok (g_files G) k p v) as He.
  { eapply (CommandPos_from_here cg _ k v pre rest). by rewrite (mi_file _ _ _ _ _ _ Hm), Hg. }
  destruct Hm. split; simpl; try done.
  - destruct mi_base0. split; simpl; try done.
    + rewrite (view_whole _ mi_gap0) in ba_index |- *. rewrite <-(insert_id (g_map G) k v) by done. by apply index_ok_insert.
    + revert ba_stay. unfold stay_ok. by rewrite mi_stay0.
  - intros k' Hk'. destruct (mi_todo0 k' ltac:(by constructor)) as (p' & h & Hp & Hne & Hn).
    exists p', h. rewrite lookup_insert_ne by (by intros <-). done.
  - intros k' p'. rewrite lookup_insert. case_decide; [intros; simplify_eq; by right|].
    intros [[->|]%elem_of_cons|]%mi_index0; [done|by left|by right].
Qed.

(** An operation that may compact. *)
Context (writes : ∀ k, replaces true o k = true).

Lemma holds_copy_loop cg keys w G bw written st post : NoDup keys → mid cg G w bw written keys →
  (∀ w' G' bw' written', mid cg G' w' bw' written' [] → g_left G' = g_left G → post (Ok bw') w' G' st) →
  holds o (copy_loop keys cg bw (blen (given written bw))) w G st post.
Proof.
  revert w G bw written. induction keys as [|k keys IH]; intros w G bw written Hnd Hm Hpost; [by eapply Hpost|].
  apply NoDup_cons in Hnd as [Hk Hnd]. pose proof (mi_base _ _ _ _ _ _ Hm) as Hb. pose proof (mi_lock _ _ _ _ _ _ Hm) as Hl.
  destruct (mi_todo _ _ _ _ _ _ Hm k ltac:(by constructor)) as (p & h & Hp & Hne & Hn).
  destruct (index_ok_lookup _ _ _ _ _ (ba_index _ _ Hb) Hp) as (v & Hv & He). rewrite (view_whole _ (mi_gap _ _ _ _ _ _ Hm)) in Hv.
  cbn [copy_loop]. eapply (holds_step _ _ _ _ _ _ _ p w); [|done|done|].
  { intros rds. unfold gets, mbind, M_bind. simpl. by rewrite Hp. }
  apply holds_bind. eapply holds_read_and; [done|done|exact He|exact Hn|by eapply mi_full|].
  intros hs Hhs. set (w1 := with_kw_readers hs w). set (cmd := to_writer (Command_Set k v)).
  assert (mid cg G w1 bw written (k :: keys)) as Hm1 by by apply mid_kw_readers.
  set (n := spilled (wr_buf bw ++ cmd)). set (data := take n (wr_buf bw ++ cmd)).
  set (bw1 := mkWriter (wr_ino bw) (drop n (wr_buf bw ++ cmd)) (wr_pos bw + blen cmd)).
  set (G2 := with_file cg (given written bw ++ cmd) G). set (w2 := set_disk (append (wr_ino bw) data (w_disk w1)) w1).
  assert (mid cg G2 w2 bw1 (written ++ data) (k :: keys)) as Hm2.
  { apply mid_append; [done|done|]. unfold data, bw1. simpl. by rewrite take_drop. }
  assert (given (written ++ data) bw1 = given written bw ++ cmd) as Hg2.
  { pose proof (mi_file _ _ _ _ _ _ Hm2) as Hf. unfold G2 in Hf. simpl in Hf. rewrite lookup_insert_eq in Hf. congruence. }
  eapply (holds_atomic _ _ _ _ _ _ _ (Ok bw1) w2 G2 st); [intros rds; reflexivity|apply Hm2|apply Hm2| |done|by apply effect_keep|].
  { apply extends_file, Hm. }
  unfold mret, prog_ret. cbn [cont holds]. assert (mid cg G2 (set_index <[k := CommandPos_from cg (blen (given written bw)) (blen (given written bw) + blen cmd)]> w2)
    bw1 (written ++ data) keys) as Hm3.
  { apply (mid_move cg G2 w2 bw1 _ keys k v _ []); [done|done|done|]. by rewrite app_nil_r. }
  eapply (holds_index_insert k _ _ _ _ _ G2 st st); [apply Hm2|apply Hm2|apply Hm2| |done|apply Hm3|done|done| |].
  { unfold compacts. by rewrite (mi_stay _ _ _ _ _ _ Hm2). }
  { apply effect_none; [done..|]. by apply gap_closed, Hm2. }
  assert (blen (given written bw) + blen cmd = blen (given (written ++ data) bw1))%N as Hlen by (by rewrite Hg2, blen_app).
  rewrite Hlen in Hm3 |- *. by apply IH.
Qed.

(** The flush completes the new log, and every entry is in it. *)
Definition moved (cg : N) (w : World) : Prop :=
  kw_gen (w_writer w) = (cg + 1)%N ∧ ∀ k p, w_index w !! k = Some p → gen p = cg.

Lemma mid_flush cg G w bw written : mid cg G w bw written [] →
  let w' := set_disk (append (wr_ino bw) (wr_buf bw) (w_disk w)) w in
  ready (with_file cg (given written bw ++ []) G) w' ∧ moved cg w'.
Proof.
  intros Hm w'. pose proof (mid_append cg G w bw (mkWriter (wr_ino bw) [] (wr_pos bw)) written [] (wr_buf bw) []
    Hm eq_refl eq_refl) as Hm'. fold w' in Hm'.
  assert (∀ k p, w_index w' !! k = Some p → gen p = cg) as Hmv.
  { intros k p [?%not_elem_of_nil|]%(mi_index _ _ _ _ _ _ Hm'); done. }
  split; [|split; [apply Hm'|exact Hmv]].
  set (G' := with_file cg _ G) in *. destruct Hm'. split; try done.
  - intros g h Hn. destruct (decide (g = cg)) as [->|Hne]; [|by apply mi_full0].
    assert (h = wr_ino bw) as ->.
    { pose proof (ba_names _ _ mi_base0 _ _ Hn) as H1. pose proof (ba_names _ _ mi_base0 _ _ mi_name0) as H2.
      rewrite H1 in H2. by injection H2. }
    cbn [wr_ino] in mi_disk0. rewrite mi_disk0, mi_file0. unfold given. simpl. by rewrite app_nil_r.
  - intros k p Hp. rewrite (Hmv _ _ Hp). eauto.
  - by rewrite mi_gen0.
  - by rewrite mi_gen0.
  - unfold content. by rewrite mi_wdisk0.
Qed.

Lemma ready_remove G w cg g : ready G w → g_stay G = None → moved cg w → (g < cg)%N →
  let w' := set_disk (remove_file (log_path g) (w_disk w)).2 w in ready G w' ∧ moved cg w'.
Proof.
  intros Hr Hst [Hg Hm] Hlt w'. split; [|done].
  destruct (base_remove G w (log_path g) _ (re_base _ _ Hr) Hst eq_refl) as (Hb & Hi & Hsub & Hsup).
  fold w' in Hb. destruct Hr. split; simpl; rewrite ?Hi; try done.
  - intros g' h Hn. apply re_full, Hsub, Hn.
  - intros k p Hp. destruct (re_index k p Hp) as [h Hn]. exists h. apply Hsup; [|done].
    rewrite (Hm _ _ Hp). intros ?%log_path_inj. lia.
  - apply Hsup; [|done]. intros ?%log_path_inj. lia.
  - rewrite re_pos. unfold content. by rewrite Hi.
Qed.

Lemma holds_delete_loop cg gs w G st post : ready G w → g_stay G = None → moved cg w → w_lock w = Locked →
  (∀ g, g ∈ gs → (g < cg)%N) →
  (∀ w', ready G w' → moved cg w' → w_lock w' = Locked → post (Ok tt) w' G st) →
  holds o (delete_loop gs) w G st post.
Proof.
  revert w. induction gs as [|g gs IH]; intros w Hr Hst Hm Hl Hgs Hpost; [by apply Hpost|].
  cbn [delete_loop]. destruct (ready_remove G w cg g Hr Hst Hm) as [Hr' Hm']; [apply Hgs; by constructor|].
  eapply holds_step; [|apply Hr'|done|].
  - intros rds. simpl. by destruct (remove_file (log_path g) (w_disk w)) as [r d'] eqn:E.
  - apply IH; try done. intros g' Hg'. apply Hgs. by constructor.
Qed.

Lemma new_log_writer_run w g h d' rds : open_append (log_path g) (w_disk w) = (Ok h, d') →
  new_log_writer g (with_locals rds w) = (Ok (BufWriterWithPos_new h), with_locals rds (set_disk d' w)).
Proof.
  intros H. unfold new_log_writer. erewrite bind_ok; [|apply question_ok; unfold on_disk; simpl; rewrite H; reflexivity].
  reflexivity.
Qed.

(** Up to the copying: two new logs, one for the copies and one for later writes. *)
Lemma mid_start G w cg : ready G w → w_lock w = Locked → kw_gen (w_writer w) = (cg - 1)%N → (0 < cg)%N → (cg + 1 <= U64_MAX)%N →
  ∃ h1 d1 h2 d2 G2,
    let w0 := set_writer (set_kw_gen (cg + 1)) w in
    let w1 := set_writer (set_kw_writer (BufWriterWithPos_new h1)) (set_disk d1 w0) in
    open_append (log_path (cg + 1)) (w_disk w0) = (Ok h1, d1) ∧ open_append (log_path cg) (w_disk w1) = (Ok h2, d2) ∧
    base (compacting G) w0 ∧
    (let G1 := with_new (cg + 1) h1 (compacting G) in base G1 w1 ∧ extends (compacting G) G1 ∧ G2 = with_new cg h2 G1 ∧ extends G1 G2) ∧
    mid cg G2 (set_disk d2 w1) (BufWriterWithPos_new h2) [] (btree_keys (w_index w)).
Proof.
  intros Hr Hl Hg Hpos Hle.
  assert (∀ g, (cg <= g)%N → g_inos G !! g = None) as Hnone.
  { intros g Hcg. apply eq_None_not_Some. intros Hs%(re_newest _ _ Hr). lia. }
  set (w0 := set_writer (set_kw_gen (cg + 1)) w).
  assert (base (compacting G) w0) as Hb0.
  { destruct (re_base _ _ Hr). split; simpl; try done. revert ba_stay. unfold stay_ok. simpl.
    destruct (g_stay G); [intros [<- _]|]; lia. }
  destruct (base_new (compacting G) w0 (cg + 1) Hb0 Hle (Hnone (cg + 1)%N ltac:(lia))) as (Hop1 & Hb1 & Hx1 & Hn1 & Hne1).
  set (h1 := next_ino (w_disk w0)) in *. set (d1 := mkDisk _ _ _) in Hop1, Hb1, Hn1.
  set (G1 := with_new (cg + 1) h1 (compacting G)) in *.
  set (w1 := set_writer (set_kw_writer (BufWriterWithPos_new h1)) (set_disk d1 w0)).
  assert (base G1 w1) as Hb1' by (eapply base_same; [apply Hb1|done..]).
  destruct (base_new G1 w1 cg Hb1' ltac:(lia)) as (Hop2 & Hb2 & Hx2 & Hn2 & Hne2).
  { unfold G1. simpl. rewrite lookup_insert_ne by lia. apply Hnone. lia. }
  set (h2 := next_ino (w_disk w1)) in *. set (d2 := mkDisk _ _ _) in Hop2, Hb2, Hn2.
  set (G2 := with_new cg h2 G1) in *.
  exists h1, d1, h2, d2, G2. cbn zeta. split_and!; try done.
  assert (∀ k p, w_index w !! k = Some p → ∃ h, log_names (w_disk w) (gen p) h ∧ (gen p < cg)%N) as Hidx.
  { intros k p Hp. destruct (re_index _ _ Hr k p Hp) as [h Hn]. exists h. split; [done|].
    pose proof (ba_names _ _ (re_base _ _ Hr) _ _ Hn) as Hi. pose proof (re_newest _ _ Hr _ (mk_is_Some _ _ Hi)). lia. }
  assert (log_names d1 (cg + 1) h1) as Hw1 by (apply Hn1; by left).
  assert (h1 ≠ h2) as Hh by by eapply (Hne2 (cg + 1)%N).
  split; simpl; try done.
  - apply Hr.
  - intros g h [[-> ->]|[Hgc Hn]]%Hn2 Hgc'; [done|].
    assert (h ≠ h2) as Hhh by by eapply (Hne2 g).
    apply Hn1 in Hn as [[-> ->]|[Hg1 Hn0]].
    + rewrite (lookup_insert_ne _ cg), (lookup_insert_ne _ h2) by congruence. by rewrite !lookup_insert_eq.
    + pose proof (Hne1 _ _ Hn0) as Hhh1. rewrite !lookup_insert_ne by congruence. by apply (re_full _ _ Hr).
  - apply Hn2. by left.
  - by rewrite lookup_insert_eq.
  - by rewrite lookup_insert_eq.
  - apply Hn2. right. split; [lia|done].
  - rewrite lookup_insert_ne by congruence. by rewrite lookup_insert_eq.
  - intros g. rewrite !lookup_insert. repeat case_decide; [lia..|]. intros Hs%(re_newest _ _ Hr). lia.
  - intros k [p Hp]%elem_of_btree_keys. destruct (Hidx _ _ Hp) as (h & Hn & Hlt). exists p, h.
    split_and!; [done|lia|]. apply Hn2. right. split; [lia|]. apply Hn1. right. split; [lia|done].
  - intros k p Hp. left. apply elem_of_btree_keys. by eexists.
Qed.

Lemma holds_compact w G st : ready G w → w_lock w = Locked → room 1 w →
  holds o compact w G st (compaction_post w G st).
Proof.
  intros Hr Hl Hroom. set (cur := kw_gen (w_writer w)). unfold room in Hroom. fold cur in Hroom.
  destruct (mid_start G w (cur + 1) Hr Hl ltac:(unfold cur; lia) ltac:(lia) ltac:(lia))
    as (h1 & d1 & h2 & d2 & G2 & Hop1 & Hop2 & Hb0 & (Hb1 & Hx1 & HG2 & Hx2) & Hmid).
  replace (cur + 1 + 1)%N with (cur + 2)%N in * by lia.
  set (w0 := set_writer (set_kw_gen (cur + 2)) w) in *.
  set (w1 := set_writer (set_kw_writer (BufWriterWithPos_new h1)) (set_disk d1 w0)) in *.
  unfold compact. apply holds_bind. unfold compact_copy.
  eapply (holds_atomic _ _ _ _ _ _ _ (Ok (cur + 1)%N) w0); [|exact Hb0|done|apply extends_compacting|done|by apply effect_keep|].
  { intros rds. mpure. erewrite bind_ok by (apply u64_add_ok; simpl; unfold cur in *; lia).
    erewrite bind_ok by (apply u64_add_ok; simpl; unfold cur in *; lia). mpure. reflexivity. }
  cbn [cont]. eapply (holds_atomic _ _ _ _ _ _ _ (Ok tt) w1); [|exact Hb1|done|exact Hx1|done|by apply effect_keep|].
  { intros rds. mpure. change (kw_gen (w_writer (with_locals rds w0))) with (cur + 2)%N.
    by rewrite (bind_ok _ _ _ _ _ (new_log_writer_run w0 _ _ _ rds Hop1)). }
  cbn [cont]. eapply (holds_atomic _ _ _ _ _ _ _ (Ok (BufWriterWithPos_new h2)) (set_disk d2 w1) G2 st);
    [intros rds; by apply new_log_writer_run|apply Hmid|done|exact Hx2|by rewrite HG2|apply effect_keep; by rewrite HG2|].
  cbn [cont]. apply holds_gets; [done|apply Hmid|done|]. cbn beta.
  change (w_index (set_disk d2 w1)) with (w_index w).
  apply holds_bind. apply (holds_copy_loop (cur + 1) (btree_keys (w_index w)) (set_disk d2 w1) G2 (BufWriterWithPos_new h2) []).
  { apply NoDup_btree_keys. } { exact Hmid. }
  intros w3 G3 bw written Hm3 Hleft3. cbn [cont].
  destruct (mid_flush (cur + 1) G3 w3 bw written Hm3) as [Hr4 Hmv4].
  set (G4 := with_file _ _ G3) in *. set (w4 := set_disk _ w3) in *.
  assert (w_lock w4 = Locked) as Hl4 by apply Hm3.
  eapply (holds_atomic _ _ _ _ _ _ _ (Ok tt) w4 G4 st); [intros rds; reflexivity|apply Hr4|done| |done|by apply effect_keep|].
  { apply extends_file, Hm3. }
  unfold mret, prog_ret. cbn [cont holds].
  set (w5 := set_safe_point (cur + 1) w4).
  assert (ready G4 w5) as Hr5 by by eapply ready_same.
  apply holds_modify; [done|apply Hr5|done|]. fold w5. cbn beta.
  apply holds_bind, holds_close_stale; [apply Hr5|done|]. intros hs Hhs. cbn [cont].
  set (w6 := with_kw_readers hs w5).
  assert (ready G4 w6) as Hr6.
  { destruct Hr5. split; try done. by apply base_kw_readers. }
  apply holds_gets; [done|apply Hr6|done|]. cbn beta.
  apply holds_bind. apply (holds_delete_loop (cur + 1)); [done|apply Hm3|exact Hmv4|done| |].
  { intros g [Hg _]%list_elem_of_filter. exact Hg. }
  intros w7 Hr7 [Hg7 _] Hl7. cbn [cont]. intros rds.
  eexists (set_writer (set_kw_uncompacted (λ _, 0%N)) w7), G4, st.
  split_and!; [reflexivity| |done|done|done|by apply effect_keep|].
  { eapply base_same; [apply Hr7|done..]. }
  split_and!; [done|by apply ready_uncompacted|done| |done|].
  - simpl. rewrite Hg7. fold cur. lia.
  - change (g_left G4) with (g_left G3). by rewrite Hleft3, HG2.
Qed.

Lemma holds_maybe_compact w G st : ready G w → w_lock w = Locked → room 1 w →
  holds o maybe_compact w G st (compaction_post w G st).
Proof.
  intros Hr Hl Hroom. unfold maybe_compact. apply holds_gets; [done|apply Hr|done|]. cbn beta.
  destruct (_ <? _)%N; [by apply holds_compact|]. split_and!; try done. lia.
Qed.

(** ** The operations *)

(** What an operation of a writer leaves. *)
Definition write_post (w : World) (G : Ghost) (r : outcome KvsError unit) (w' : World) (G' : Ghost) (st : status) : Prop :=
  ready G' w' ∧ w_lock w' = Locked ∧ (kw_gen (w_writer w') <= kw_gen (w_writer w) + 2)%N ∧ g_left G' = g_left G ∧
  match r with
  | Ok _ => st = took RDone
  | Err e => st = took (RError e)
  | _ => False
  end.

Lemma write_post_compact w G w1 G1 r w' G' st : kw_gen (w_writer w1) = kw_gen (w_writer w) → g_left G1 = g_left G →
  compaction_post w1 G1 (took RDone) r w' G' st → write_post w G r w' G' st.
Proof. intros Hg Hlf (-> & ? & ? & ? & -> & ?). unfold write_post. rewrite <-Hg, <-Hlf. done. Qed.

Lemma set_under_lock k v w G : ready G w → w_lock w = Locked → room 1 w → o = OpSet k v →
  holds o (Writer_set k v) w G None (write_post w G).
Proof.
  intros Hr Hl Hroom Ho. apply holds_Writer_set; [done|done|done|]. intros w' G' Hr' Hl' Hg Hlf.
  eapply holds_mono; [apply holds_maybe_compact; [done|done|unfold room in *; by rewrite Hg]|].
  intros r w2 G2 st2. by apply write_post_compact.
Qed.

Lemma remove_under_lock k w G : ready G w → w_lock w = Locked → room 1 w → o = OpRemove k →
  holds o (Writer_remove k) w G None (write_post w G).
Proof.
  intros Hr Hl Hroom Ho. apply holds_Writer_remove; [done|done|done| |].
  - split_and!; try done. lia.
  - intros w' G' Hr' Hl' Hg Hlf.
    eapply holds_mono; [apply holds_maybe_compact; [done|done|unfold room in *; by rewrite Hg]|].
    intros r w2 G2 st2. by apply write_post_compact.
Qed.
End writer.
