(* ===== verification/ConcThread.v ===== *)
(** * One client among others

    What a thread that runs an operation of a store relies on and guarantees at each of its
    actions, and that every operation of project-4 keeps to it: a [get] takes effect when
    it looks into the index, a [set] or a [remove] when it changes the index. The readers
    that a thread owns, and how it takes them from the queue and gives them back, are there
    for project-5. *)

From S2P Require Import Prelude Fs Command KvsEngine LogTheory KvStore KvStoreSpec Conc ConcStore ConcStoreSpec ConcHist ConcInv ConcWriter.

(** The reader that a thread owns, with its handles; or the thread has found the pool of
    readers empty. *)
Inductive hold := Nothing | Holds (r : nat) (hs : gmap N BufReaderWithPos) | Starved.

Definition reader_of (own : hold) : option nat := match own with Holds r _ => Some r | _ => None end.

(** What a thread knows. Outside of the lock: the handles of the reader it owns, if it owns
    one, and a past state of the logs; [tok] says that it may still take the lock for its
    operation. Inside: all but the locals. *)
Inductive view :=
| Outside (own : hold) (G : Ghost) (tok : bool)
| Inside (own : option nat) (w : World) (G : Ghost).

Definition tokens (v : view) : nat := match v with Outside _ _ true => 1 | _ => 0 end.

Definition owned (v : view) : option nat := match v with Outside own _ _ => reader_of own | Inside own _ _ => own end.

Definition starved (v : view) : bool := match v with Outside Starved _ _ => true | _ => false end.

Definition sees (v : view) (w : World) (G : Ghost) : Prop :=
  match v with
  | Outside own G0 _ => (∀ r hs, own = Holds r hs → default ∅ (w_readers w !! r) = hs) ∧ extends G0 G
  | Inside _ w0 G0 => w = with_locals (locals_of w) w0 ∧ G = G0 ∧ w_lock w0 = Locked
  end.

(** A reader goes from the pool to a thread, or back. *)
Inductive moves (own : option nat) (pool : list nat) : option nat → list nat → Prop :=
| moves_not : moves own pool own pool
| moves_take r pool' : own = None → pool = r :: pool' → moves own pool (Some r) pool'
| moves_give r : own = Some r → moves own pool None (pool ++ [r]).

(** What the step of a thread may change. *)
Record change (v : view) (w : World) (G : Ghost) (v' : view) (w' : World) (G' : Ghost) : Prop := {
  ch_extends : extends G G';
  ch_others : ∀ j, owned v ≠ Some j → w_readers w' !! j = w_readers w !! j;
  ch_pool : moves (owned v) (w_pool w) (owned v') (w_pool w');
  ch_starved : starved v' = true → starved v = true ∨ (w_pool w = [] ∧ owned v = None);
  ch_mode : match v, v' with
            | Outside _ _ t, Outside _ _ t' => w' = with_locals (locals_of w') w ∧ G' = G ∧ t' = t
            | Outside _ _ t, Inside _ _ _ => w_lock w = Unlocked ∧ t = true ∧ g_left G = S (g_left G')
            | Inside _ _ _, Inside _ _ _ => g_left G' = g_left G
            | Inside _ _ _, Outside _ _ t' => w_lock w' = Unlocked ∧ t' = false ∧ g_left G' = g_left G
            end;
}.

(** It leaves what the other threads know as it is. *)
Lemma sees_change v w G v' w' G' vj : change v w G v' w' G' → sees vj w G →
  (∀ r, owned v = Some r → owned vj ≠ Some r) →
  (∀ own w0 G0, v = Inside own w0 G0 → ∃ own' G1 t, vj = Outside own' G1 t) → sees vj w' G'.
Proof.
  intros [Hx Ho _ _ Hm] Hs Hown Hexcl. destruct vj as [own G1 t|own w1 G1]; simpl in *.
  - destruct Hs as [Hhs HG]. split; [|by etrans]. intros r hs ->. rewrite Ho; [by apply Hhs|]. intros Hv. by apply (Hown r).
  - destruct Hs as (Hw & -> & Hl). destruct v as [hs0 G0 t|own0 w0 G0].
    2:{ destruct (Hexcl own0 w0 G0 eq_refl) as (? & ? & ? & ?). done. }
    assert (w_lock w = Locked) as Hlw by (by rewrite Hw).
    destruct v' as [hs2 G2 t'|own2 w2 G2]; [|destruct Hm as [Hm _]; congruence].
    destruct Hm as (Hw' & -> & _). split_and!; [|done|done]. rewrite Hw', Hw. done.
Qed.

Section thread.
Context `{!SerdeJson Command} `{!SerdeLaws Command} `{!SerdeCut Command} {policy : BufWriterPolicy}.

(** The parts of a step: the invariant, what the thread sees, what it changed, whether the
    operation took effect, and the rest. *)
Ltac step_to v G st := exists v, G, st; split; [|split; [|split; [|split]]].

Section op.
Context (o : Op) (cap : nat).

(** There is a place in the pool for the reader of the thread. *)
Definition has_place (v : view) (w : World) : Prop := is_Some (owned v) → length (w_pool w) < cap.

(** Only a thread that waits for the lock can be blocked. *)
Fixpoint safe {A} (v : view) (p : WP A) (st : status) (post : outcome KvsError A → view → status → Prop) : Prop :=
  match p with
  | Done r => post r v st
  | Act f => ∀ w G, inv G w → sees v w G → tokens v ≤ g_left G → has_place v w →
      match f w with
      | None => w_lock w = Locked ∧ ∃ own G0 t, v = Outside own G0 t
      | Some (w', p') => ∃ v' G' st', inv G' w' ∧ sees v' w' G' ∧ change v w G v' w' G' ∧
          takes_effect o G st G' st' ∧ safe v' p' st' post
      end
  end.

Lemma safe_mono {A} v (p : WP A) st (P Q : outcome KvsError A → view → status → Prop) :
  safe v p st P → (∀ r v st, P r v st → Q r v st) → safe v p st Q.
Proof.
  intros Hp HPQ. revert v st Hp. induction p as [r|f IH] using prog_ind; intros v st; simpl; [apply HPQ|].
  intros Hp w G Hi Hs Ht Hpl. specialize (Hp w G Hi Hs Ht Hpl). destruct (f w) as [[w' p']|] eqn:Hf; [|done].
  destruct Hp as (v' & G' & st' & ? & ? & ? & ? & Hp). exists v', G', st'. split_and!; try done. by eapply IH.
Qed.

Lemma safe_bind {A B} v (p : WP A) (k : A → WP B) st post :
  safe v p st (λ r v st, safe v (cont k r) st post) → safe v (p ≫= k) st post.
Proof.
  revert v st. induction p as [r|f IH] using prog_ind; intros v st; simpl; [done|].
  intros Hp w G Hi Hs Ht Hpl. specialize (Hp w G Hi Hs Ht Hpl). destruct (f w) as [[w' p']|] eqn:Hf; [|done].
  destruct Hp as (v' & G' & st' & ? & ? & ? & ? & Hp). exists v', G', st'. split_and!; try done. by eapply IH.
Qed.

Lemma safe_result {A} v (p : WP A) st (post : outcome KvsError (KvsError + A) → view → status → Prop) :
  safe v p st (λ r v st, post (match r with Ok a => Ok (inr a) | Err e => Ok (inl e) | Panic => Panic | Diverge => Diverge end) v st) →
  safe v (result p) st post.
Proof.
  revert v st. induction p as [r|f IH] using prog_ind; intros v st; [by destruct r|]. simpl.
  intros Hp w G Hi Hs Ht Hpl. specialize (Hp w G Hi Hs Ht Hpl). destruct (f w) as [[w' p']|] eqn:Hf; [|done].
  destruct Hp as (v' & G' & st' & ? & ? & ? & ? & Hp). exists v', G', st'. split_and!; try done. by eapply IH.
Qed.

Lemma safe_finally {A} v fin (p : WP A) st post :
  safe v p st (λ r v st, safe v (Act (λ w, Some (fin r w, Done r))) st post) → safe v (finally fin p) st post.
Proof.
  revert v st. induction p as [r|f IH] using prog_ind; intros v st; [done|]. simpl.
  intros Hp w G Hi Hs Ht Hpl. specialize (Hp w G Hi Hs Ht Hpl). destruct (f w) as [[w' p']|] eqn:Hf; [|done].
  destruct Hp as (v' & G' & st' & ? & ? & ? & ? & Hp). exists v', G', st'. split_and!; try done. by eapply IH.
Qed.

(** ** Inside the lock *)

Lemma readers_ok_extends G G' rds : readers_ok G rds → extends G G' → readers_ok G' rds.
Proof. intros H Hx j hs g r Hj Hg. eapply (ex_inos _ _ Hx), H; done. Qed.

(** What a thread inside does leaves the locals. *)
Lemma inside_change own w G w1 w' G' : w_lock w' = Locked → w_lock w1 = Locked → extends G G' → g_left G' = g_left G →
  change (Inside own w G) w1 G (Inside own w' G') (with_locals (locals_of w1) w') G'.
Proof. intros Hl Hl1 Hx Hlf. split; [done|done|by apply moves_not|done|done]. Qed.

Lemma safe_holds {A} own w G (p : WP A) st post :
  holds o p w G st post → w_lock w = Locked →
  safe (Inside own w G) p st (λ r v st, ∃ w' G', v = Inside own w' G' ∧ w_lock w' = Locked ∧ post r w' G' st).
Proof.
  revert w G st. induction p as [r|f IH] using prog_ind; intros w G st; simpl; [by eauto|].
  intros Hp Hl w1 G1 Hi (Hw1 & -> & _) _ _. specialize (Hp (locals_of w1)). rewrite <-Hw1 in Hp.
  destruct (f w1) as [[w2 p']|] eqn:Hf; [|done].
  destruct Hp as (w' & G' & st' & -> & Hb & Hl' & Hx & Hlf & He & Hp).
  step_to (Inside own w' G') G' st'; [|done| |done|by eapply IH].
  - split; [by apply base_locals|eapply readers_ok_extends; [apply Hi|done]|simpl; congruence|simpl; congruence].
  - apply inside_change; [done|by rewrite Hw1|done|done].
Qed.

Definition less_left (n : nat) (G : Ghost) : Ghost := mkGhost (g_map G) (g_files G) (g_inos G) n (g_gen0 G) (g_stay G) (g_gap G).

Lemma base_left n G w : base G w → base (less_left n G) w.
Proof. intros []. by split. Qed.

Lemma ready_left n G w : ready G w → ready (less_left n G) w.
Proof. intros []. split; try done. by apply base_left. Qed.

Lemma base_lock G w l : base G w → base G (set_lock l w).
Proof. intros []. by split. Qed.

Lemma ready_lock G w l : ready G w → ready G (set_lock l w).
Proof. intros []. split; try done. by apply base_lock. Qed.

Lemma room_one n w : room (S n) w → room 1 w.
Proof. unfold room. lia. Qed.

(** An operation of a writer: it waits for the lock, is alone with the shared state, and
    leaves it ready for the next. *)
Lemma safe_with_lock own G0 (body : WP unit) (post : outcome KvsError unit → view → status → Prop) :
  (∀ w G, ready G w → w_lock w = Locked → room 1 w → holds o body w G None (write_post w G)) →
  (∀ own' G r r0, reader_of own' = reader_of own → match r with Ok _ => r0 = RDone | Err e => r0 = RError e | _ => False end →
     post r (Outside own' G false) (took r0)) →
  safe (Outside own G0 true) (with_lock body) None post.
Proof.
  intros Hbody Hpost. simpl. intros w G Hi [Hhs Hx] Ht _. destruct (w_lock w) eqn:Hl; [|by eauto 10|by destruct (in_sound _ _ Hi)].
  destruct (g_left G) as [|n] eqn:Hn; [simpl in Ht; lia|]. destruct (in_ready _ _ Hi Hl) as [Hr Hroom]. rewrite Hn in Hroom.
  set (w1 := set_lock Locked w). set (G1 := less_left n G).
  assert (ready G1 w1) as Hr1 by by apply ready_lock, ready_left.
  step_to (Inside (reader_of own) w1 G1) G1 (@None Effect); [|simpl; by destruct w| |by apply effect_keep|].
  - split; [apply Hr1|eapply readers_ok_extends; [apply Hi|by apply extends_same]|done|done].
  - split; [by apply extends_same|done|by apply moves_not|done|by rewrite Hl].
  - apply safe_finally. eapply safe_mono; [apply safe_holds; [by apply Hbody; [|..|eapply room_one]|done]|].
    intros r v st (w2 & G2 & -> & Hl2 & Hp). simpl. intros w3 G3 Hi3 (Hw3 & -> & _) _ _.
    destruct Hp as (Hr2 & _ & Hg2 & Hlf2 & Hres).
    set (w4 := set_lock (match r with Panic => Poisoned | _ => Unlocked end) w3).
    assert (w_lock w4 = Unlocked) as Hl4 by (by destruct r).
    set (own' := match own with Holds r0 _ => Holds r0 (default ∅ (w_readers w3 !! r0)) | _ => Nothing end).
    assert (reader_of own' = reader_of own) as Hown by (unfold own'; by destruct own).
    step_to (Outside own' G2 false) G2 st.
    + assert (ready G2 w4) as Hr4 by (apply ready_lock; rewrite Hw3; by apply ready_locals).
      split; [apply Hr4|apply Hi3|by rewrite Hl4|]. intros _. split; [done|]. rewrite Hlf2.
      unfold room in *. unfold w4. rewrite Hw3. simpl in *. lia.
    + split; [|done]. intros r0 hs Heq. unfold own' in Heq. destruct own as [|r1 hs1|]; try done. by injection Heq as <- <-.
    + split; [done|done|simpl; rewrite Hown; by apply moves_not|unfold own'; by destruct own|]. by rewrite Hl4.
    + by apply effect_keep.
    + destruct r as [[]|e| |]; [|..|done|done]; rewrite Hres; by apply Hpost.
Qed.

(** ** Outside of the lock *)

(** The invariant does not see the pool. *)
Lemma inv_locals G w l : inv G w → readers_ok G l.1 → inv G (with_locals l w).
Proof.
  intros [Hb Hr Hl Hrd] Hl1. split; [by apply base_locals|done|done|].
  intros H. destruct (Hrd H). split; [by apply ready_locals|done].
Qed.

(** An action that looks at the state. *)
Lemma safe_look {A B} (m : WM A) (k : A → WP B) own G0 tok st post :
  (∀ w G, inv G w → sees (Outside own G0 tok) w G → has_place (Outside own G0 tok) w → ∃ r st',
     m w = (r, w) ∧ takes_effect o G st G st' ∧ safe (Outside own G tok) (cont k r) st' post) →
  safe (Outside own G0 tok) (atomic m ≫= k) st post.
Proof.
  intros Hm. apply safe_bind. intros w G Hi Hs Ht Hpl. destruct (Hm w G Hi Hs Hpl) as (r & st' & -> & He & Hk).
  destruct Hs as [Hhs Hx]. step_to (Outside own G tok) G st'; [done|done| |exact He|exact Hk].
  split; [done|done|by apply moves_not|by left|]. by rewrite with_locals_same.
Qed.

(** One action of a reader: it may change the handles of its own reader. *)
Lemma safe_local {A B} (m : WM A) (k : A → WP B) i hs G0 tok st post :
  (∀ w G, inv G w → sees (Outside (Holds i hs) G0 tok) w G → ∃ r w' hs' st',
     m w = (r, w') ∧ (w' = w ∧ hs' = hs ∨ w' = set_handles (Reader i) (λ _, hs') w ∧ handles_in G hs') ∧
     takes_effect o G st G st' ∧ safe (Outside (Holds i hs') G tok) (cont k r) st' post) →
  safe (Outside (Holds i hs) G0 tok) (atomic m ≫= k) st post.
Proof.
  intros Hm. apply safe_bind. intros w G Hi Hs Ht _. destruct (Hm w G Hi Hs) as (r & w' & hs' & st' & -> & Hw & He & Hk).
  destruct Hs as [Hhs Hx]. step_to (Outside (Holds i hs') G tok) G st'; [| | |exact He|exact Hk].
  - destruct Hw as [[-> ->]|[-> Hh]]; [done|]. change (inv G (with_locals (<[i := hs']> (w_readers w), w_pool w) w)).
    apply inv_locals; [done|]. intros j hs2 g r'. simpl. rewrite lookup_insert. case_decide; [intros; simplify_eq; by apply Hh|apply Hi].
  - destruct Hw as [[-> ->]|[-> Hh]]; [done|]. split; [|done]. intros r0 hs0 [= <- <-]. simpl. by rewrite lookup_insert_eq.
  - split; [done| | |done|].
    + intros j Hj. simpl in Hj. destruct Hw as [[-> _]|[-> _]]; [done|]. simpl. rewrite lookup_insert_ne; [done|congruence].
    + destruct Hw as [[-> _]|[-> _]]; by apply moves_not.
    + destruct Hw as [[-> _]|[-> _]]; [|done]. by rewrite with_locals_same.
Qed.

(** What a reader has open. *)
Lemma own_handles i hs G0 tok w G : inv G w → sees (Outside (Holds i hs) G0 tok) w G → default ∅ (w_readers w !! i) = hs ∧ handles_in G hs.
Proof.
  intros Hi [Hhs _]. specialize (Hhs i hs eq_refl). split; [done|]. intros g r Hg.
  destruct (w_readers w !! i) as [hs1|] eqn:Hw; simpl in Hhs; subst; [|by rewrite lookup_empty in Hg].
  by eapply (in_readers _ _ Hi).
Qed.

Lemma safe_close_loop i n hs G0 tok st (post : outcome KvsError unit → view → status → Prop) : size hs < n →
  (∀ hs' G', extends G0 G' → post (Ok tt) (Outside (Holds i hs') G' tok) st) →
  safe (Outside (Holds i hs) G0 tok) (close_loop n (Reader i)) st post.
Proof.
  revert hs G0. induction n as [|n IH]; intros hs G0 Hn Hpost; [lia|]. cbn [close_loop].
  apply safe_local. intros w G Hi Hs. pose proof Hs as [_ Hx]. destruct (own_handles _ _ _ _ _ _ Hi Hs) as [Hhs Hh].
  change (handles (Reader i) w) with (default ∅ (w_readers w !! i)). rewrite Hhs.
  destruct (head (gens hs)) as [g|] eqn:Hhd.
  - destruct (head_gens_min _ _ Hhd) as [[r Hg] _]. destruct (w_safe_point w <=? g)%N eqn:Hle.
    + exists (Ok true), w, hs, st. split_and!; [done|by left|by apply effect_keep|by apply Hpost].
    + exists (Ok false), (set_handles (Reader i) (λ _, delete g hs) w), (delete g hs), st.
      split_and!; [|right; split; [done|by apply handles_in_delete]|by apply effect_keep|].
      * f_equal. simpl. unfold set_readers. by rewrite Hhs.
      * cbn [cont]. apply IH; [|intros hs' G' Hx'; apply Hpost; by etrans].
        rewrite map_size_delete_Some by eauto. destruct (size hs) eqn:E; [|lia].
        apply map_size_empty_inv in E. by rewrite E, lookup_empty in Hg.
  - exists (Ok true), w, hs, st. split_and!; [done|by left|by apply effect_keep|by apply Hpost].
Qed.

Lemma safe_close_stale i hs G0 tok st (post : outcome KvsError unit → view → status → Prop) :
  (∀ hs' G', extends G0 G' → post (Ok tt) (Outside (Holds i hs') G' tok) st) →
  safe (Outside (Holds i hs) G0 tok) (close_stale_handles (Reader i)) st post.
Proof.
  intros Hpost. unfold close_stale_handles. apply safe_local. intros w G Hi Hs. pose proof Hs as [_ Hx]. destruct (own_handles _ _ _ _ _ _ Hi Hs) as [Hhs _].
  exists (Ok (S (size hs))), w, hs, st. split_and!; [|by left|by apply effect_keep|].
  - unfold gets. simpl. by rewrite Hhs.
  - apply safe_close_loop; [lia|]. intros hs' G' Hx'. apply Hpost. by etrans.
Qed.

Lemma slice_prefix (c rest : bytes) pos len : (pos + len <= blen (c ++ rest))%N →
  ∃ more, slice (c ++ rest) pos len = slice c pos len ++ more.
Proof.
  intros _. unfold slice. exists (drop (length (slice c pos len)) (slice (c ++ rest) pos len)).
  assert (slice c pos len `prefix_of` slice (c ++ rest) pos len) as [more Hm].
  { unfold slice. rewrite drop_app, take_app. by eexists. }
  unfold slice in *. rewrite Hm, drop_app_length. done.
Qed.

Lemma entry_extends G G' k p v : entry_ok (g_files G) k p v → extends G G' → entry_ok (g_files G') k p v.
Proof.
  intros (c & Hc & Hle & Hsl) Hx. destruct (ex_files _ _ Hx _ _ Hc) as [c' Hc'].
  exists (c ++ c'). rewrite blen_app. split_and!; [done|lia|]. by rewrite slice_app_l.
Qed.

(** What [read_and] of a reader gives to its continuation: a part of the command from
    its start, the whole of it unless a compaction has begun, which may be in the middle of
    writing it; or the file is not there any more. *)
Lemma safe_read_and {R} i (f : bytes → WP R) key v p hs G0 tok st post : entry_ok (g_files G0) key p v → still G0 p →
  (∀ hs' G' data more, to_writer (Command_Set key v) = data ++ more → more = [] ∨ g_stay G' = None →
     safe (Outside (Holds i hs') G' tok) (f data) st post) →
  (∀ hs' G', g_stay G' = None → post (Err (Io NotFound)) (Outside (Holds i hs') G' tok) st) →
  safe (Outside (Holds i hs) G0 tok) (read_and (Reader i) p f) st post.
Proof.
  intros He Hst Hf Herr. unfold read_and. apply safe_bind, safe_close_stale. intros hs1 G1 Hx1. cbn [cont].
  assert (entry_ok (g_files G1) key p v) as He1 by by eapply entry_extends.
  assert (still G1 p) as Hst1 by by eapply still_extends.
  assert (∀ hs2 G2, extends G1 G2 → is_Some (hs2 !! gen p) → safe (Outside (Holds i hs2) G2 tok) (data ← atomic (read_at (Reader i) p); f data) st post) as Hread.
  { intros hs2 G2 Hx2 [r Hr]. apply safe_local. intros w G Hi Hs. pose proof Hs as [_ Hx]. destruct (own_handles _ _ _ _ _ _ Hi Hs) as [Hhs Hh2].
    destruct (entry_extends _ _ _ _ _ (entry_extends _ _ _ _ _ He1 Hx2) Hx) as (c & Hc & Hle & Hsl).
    destruct (ba_files _ _ (in_base _ _ Hi) _ _ (Hh2 _ _ Hr)) as (c1 & rest & Hc1 & Hf1).
    rewrite Hc in Hf1. injection Hf1 as ->. destruct (slice_prefix _ _ _ _ Hle) as [more Hmore].
    assert (more = [] ∨ g_stay G = None) as Hall.
    { destruct (g_stay G) as [m|] eqn:Hm; [left|by right]. pose proof (ba_stay _ _ (in_base _ _ Hi)) as Hba. unfold stay_ok in Hba. rewrite Hm in Hba.
      destruct (still_extends _ _ _ (still_extends _ _ _ Hst1 Hx2) Hx _ Hm) as (n & Hn & Hpn). destruct Hba as (_ & Hd & _).
      destruct (Hd _ _ Hn) as (h' & c' & Hl' & Hc' & Hle'). pose proof (ba_names _ _ (in_base _ _ Hi) _ _ Hl') as Hino.
      rewrite (Hh2 _ _ Hr) in Hino. injection Hino as <-. rewrite Hc1 in Hc'. injection Hc' as <-.
      rewrite slice_app_l in Hmore by lia. apply (app_inv_head (slice c1 (pos p) (len p))). by rewrite app_nil_r, <-Hmore. }
    set (data := slice c1 (pos p) (len p)) in *. set (r' := mkReader (rd_ino r) (pos p + blen data)).
    exists (Ok data), (set_handles (Reader i) (λ _, <[gen p := r']> hs2) w), (<[gen p := r']> hs2), st. split_and!.
    - unfold read_at. simpl. rewrite (bind_ok _ _ _ r w).
      2:{ unfold gets, mbind, M_bind. simpl. by rewrite Hhs, Hr. }
      mpure. unfold reader_take. simpl. unfold content. rewrite Hc1. simpl. fold data. rewrite Hhs. done.
    - right. split; [done|]. apply handles_in_insert; [done|]. exact (Hh2 _ _ Hr).
    - by apply effect_keep.
    - apply (Hf _ _ _ more); [by rewrite <-Hmore, Hsl|done]. }
  apply safe_local. intros w G Hi Hs. pose proof Hs as [_ Hx]. destruct (own_handles _ _ _ _ _ _ Hi Hs) as [Hhs Hh1]. unfold ensure_handle.
  change (handles (Reader i)) with (λ w : World, default ∅ (w_readers w !! i)).
  destruct (hs1 !! gen p) as [r|] eqn:Hr.
  { exists (Ok tt), w, hs1, st. split_and!; [|by left|by apply effect_keep|by apply Hread].
    mpure. by rewrite Hhs, Hr. }
  destruct (dir (w_disk w) !! log_path (gen p)) as [[h|]|] eqn:Hd.
  - assert ((gen p <= U64_MAX)%N) as Hle.
    { destruct (entry_extends _ _ _ _ _ He1 Hx) as (c & Hc & _).
      apply (ba_bound _ _ (in_base _ _ Hi)), (ba_dom _ _ (in_base _ _ Hi)). by eexists. }
    pose proof (ba_names _ _ (in_base _ _ Hi) (gen p) h (conj Hle Hd)) as Hn.
    exists (Ok tt), (set_handles (Reader i) (λ _, <[gen p := BufReaderWithPos_new h]> hs1) w), (<[gen p := BufReaderWithPos_new h]> hs1), st.
    split_and!; [| |by apply effect_keep|].
    + mpure. rewrite Hhs, Hr. erewrite bind_ok; [|apply question_ok; unfold on_disk, File_open; rewrite Hd; reflexivity].
      simpl. unfold modify. simpl. rewrite Hhs. by destruct w.
    + right. split; [done|]. by apply handles_in_insert.
    + cbn [cont]. apply Hread; [done|]. rewrite lookup_insert_eq. by eexists.
  - by destruct (wf_nodir _ (ba_wf _ _ (in_base _ _ Hi)) (gen p)).
  - exists (Err (Io NotFound)), w, hs1, st. split_and!; [|by left|by apply effect_keep|].
    2:{ apply Herr. destruct (g_stay G) as [m|] eqn:Hm; [exfalso|done]. pose proof (ba_stay _ _ (in_base _ _ Hi)) as Hba. unfold stay_ok in Hba. rewrite Hm in Hba.
      destruct (still_extends _ _ _ Hst1 Hx _ Hm) as (n & Hn & _). destruct Hba as (_ & Hba & _).
      destruct (Hba _ _ Hn) as (h' & c' & [_ Hl'] & _). congruence. }
    mpure. rewrite Hhs, Hr. unfold question, on_disk, File_open, mbind, M_bind. rewrite Hd. by destruct w.
Qed.

(** A [get] takes effect when it looks into the index; then [read] has a command to read.
    If it looks while the entry of its key is out of the index, it finds none. *)
Lemma safe_index k (read : option CommandPos → WP (option string)) own G0 tok (post : outcome KvsError (option string) → view → status → Prop) : o = OpGet k →
  (∀ G r e, r = RValue None ∨ e = true → post (Ok None) (Outside own G tok) (Some (mkEffect r e))) →
  (∀ G p v, entry_ok (g_files G) k p v → still G p → safe (Outside own G tok) (read (Some p)) (took (RValue (Some v))) post) →
  read None = mret None →
  safe (Outside own G0 tok) (atomic (gets (λ w, w_index w !! k)) ≫= read) None post.
Proof.
  intros Ho Hnone Hread Hr. apply safe_look. intros w G Hi Hs _.
  pose proof (ba_index _ _ (in_base _ _ Hi)) as Hidx.
  destruct (decide (g_gap G = Some k)) as [Hgap|Hgap].
  - exists (Ok (w_index w !! k)), (Some (mkEffect (RValue (g_map G !! k)) true)).
    split_and!; [done|by eapply effect_missed; [..|by apply gap_same]; rewrite ?Ho|].
    assert (w_index w !! k = None) as ->.
    { apply (index_ok_None _ _ _ _ Hidx). unfold g_view. rewrite Hgap. apply lookup_delete_eq. }
    cbn [cont]. rewrite Hr. apply Hnone. by right.
  - exists (Ok (w_index w !! k)), (took (RValue (g_map G !! k))).
    split_and!; [done|by eapply effect_now; [..|by apply gap_same]; rewrite ?Ho|].
    assert (g_view G !! k = g_map G !! k) as Hview.
    { unfold g_view. destruct (g_gap G); [|done]. rewrite lookup_delete_ne by congruence. done. }
    cbn [cont]. destruct (w_index w !! k) as [p|] eqn:Hk.
    + destruct (index_ok_lookup _ _ _ _ _ Hidx Hk) as (v & Hv & He). rewrite Hview in Hv. rewrite Hv. apply Hread; [done|].
      intros m Hm. pose proof (ba_stay _ _ (in_base _ _ Hi)) as Hba. unfold stay_ok in Hba. rewrite Hm in Hba. by apply Hba in Hk.
    + apply (index_ok_None _ _ _ _ Hidx) in Hk. rewrite Hview in Hk. rewrite Hk, Hr. apply Hnone. by left.
Qed.

(** What a reader gets of a command. *)
Lemma safe_read_command {B} i k v p hs G0 tok st (f : Command → WP B) (post : outcome KvsError B → view → status → Prop) :
  entry_ok (g_files G0) k p v → still G0 p →
  (∀ hs' G', safe (Outside (Holds i hs') G' tok) (f (Command_Set k v)) st post) →
  (∀ hs' G' e, g_stay G' = None → e = Io NotFound ∨ (∃ e', e = Serde e') → post (Err e) (Outside (Holds i hs') G' tok) st) →
  safe (Outside (Holds i hs) G0 tok) (read_command (Reader i) p ≫= f) st post.
Proof.
  intros He Hst Hf Herr. apply safe_bind. unfold read_command. eapply safe_read_and; [exact He|exact Hst| |].
  - intros hs' G' data more Hd Hall. destruct more as [|b more].
    + rewrite app_nil_r in Hd. rewrite <-Hd, from_to. cbn. apply Hf.
    + destruct (from_cut _ _ _ Hd ltac:(done)) as [e ->]. cbn. apply Herr; [by destruct Hall|]. right. by exists e.
  - intros hs' G' Hst'. cbn. apply Herr; [done|by left].
Qed.
End op.

(** ** The operations of project-4 *)

(** What an operation may answer: what [ok] says; or that there is no such key, after it
    missed the entry. *)
Definition answers (ok : Op → Reply KvsError → Reply KvsError → bool) (o : Op) (e : Effect) (x : Reply KvsError) : Prop :=
  if ef_missed e then x = RValue None else ok o (ef_reply e) x = true.

(** What is true when an operation of the client is over: it may answer what it does; it
    owns the reader it began with, or [leaky] says of its answer that it owns one more;
    if [cancels] says so, it found no reader; and if it failed to read, a compaction has
    begun. *)
Definition op_post (ok : Op → Reply KvsError → Reply KvsError → bool) (leaky cancels : Op → Reply KvsError → bool) (home : option nat)
    (o : Op) (r : outcome KvsError (Reply KvsError)) (v : view) (st : status) : Prop :=
  ∃ own G t x e, v = Outside own G t ∧ r = Ok x ∧ st = Some e ∧ answers ok o e x ∧
    (if leaky o x then home = None ∧ is_Some (reader_of own) else reader_of own = home) ∧
    (cancels o x = true → own = Starved) ∧ (failed_get o x = true → g_stay G = None).

Lemma reply_ok_same o r : reply_ok o r r = true.
Proof. destruct o, r as [| |[[]| | | | | |]]; simpl; by rewrite ?bool_decide_true. Qed.

Lemma answers_none ok o r e : ok o (RValue None) (RValue None) = true → r = RValue None ∨ e = true → answers ok o (mkEffect r e) (RValue None).
Proof. intros Hok [-> | ->]; [|done]. by destruct e. Qed.

Definition never (o : Op) (r : Reply KvsError) : bool := false.

Lemma client_op_safe i cap o own G : reader_of own = Some i →
  safe o cap (Outside own G true) (client_op i o) None (op_post reply_ok never never (Some i) o).
Proof.
  intros Hown. destruct o as [k v|k|k]; apply safe_bind, safe_result.
  - apply safe_with_lock; [intros; by apply set_under_lock|].
    intros own' G' r r0 Hown' Hr. rewrite Hown in Hown'.
    destruct r as [[]|e| |]; subst; try done; cbn; do 5 eexists; split_and!; try done; apply reply_ok_same.
  - destruct own as [|j hs|]; try done. injection Hown as ->. apply (safe_index _ _ k); [done| | |done].
    + intros G' r e Hr. cbn. do 5 eexists. split_and!; try done. apply answers_none; [apply reply_ok_same|done].
    + intros G' p v He Hst. apply (safe_read_command _ _ _ k v); [done|done| |].
      * intros hs' G''. cbn. do 5 eexists. split_and!; try done; by apply bool_decide_true.
      * intros hs' G'' e Hst' [->|[e' ->]]; cbn; do 5 eexists; by split_and!.
  - apply safe_with_lock; [intros; by apply remove_under_lock|].
    intros own' G' r r0 Hown' Hr. rewrite Hown in Hown'.
    destruct r as [[]|e| |]; subst; try done; cbn; do 5 eexists; split_and!; try done; apply reply_ok_same.
Qed.
End thread.
