(* ===== verification/ConcLin.v ===== *)
(** * Every interleaving of the clients is linearizable

    The points at which operations take effect, in the order of time, are a sequential
    run of the map; each lies between the call and the return of its operation. Each
    reader is in the queue, with one thread, or lost by an operation that failed. All this
    holds of any programs that keep to the rules of a thread ([ConcThread]). *)

From S2P Require Import Prelude Fs Command KvsEngine LogTheory KvStore KvStoreSpec Conc ConcStore ConcStoreSpec Lin LinSpec LinOps ConcHist ConcRuns ConcInv ConcThread.

(** An operation has taken effect: its call time and what it was, what the map answered and
    whether it missed that, and when. *)
Record Point := mkPoint { pt_call : Z; pt_op : Op; pt_effect : Effect; pt_time : Z }.

Definition pt_reply (pt : Point) : Reply KvsError := ef_reply (pt_effect pt).

Fixpoint map_run (m : kvmap) (pts : list Point) : option kvmap :=
  match pts with
  | [] => Some m
  | pt :: pts' =>
      let '(r, m') := spec_op KeyNotFound m (pt_op pt) in
      if decide (r = pt_reply pt) then map_run m' pts' else None
  end.

Lemma map_run_snoc m pts m1 pt m2 : map_run m pts = Some m1 → spec_op KeyNotFound m1 (pt_op pt) = (pt_reply pt, m2) →
  map_run m (pts ++ [pt]) = Some m2.
Proof.
  revert m. induction pts as [|p pts IH]; intros m; simpl.
  - intros [= ->] ->. by rewrite decide_True.
  - destruct (spec_op KeyNotFound m (pt_op p)) as [r m'] eqn:Hs. case_decide; [|done]. apply IH.
Qed.

Section system.
Context `{!SerdeJson Command} `{!SerdeLaws Command} `{!SerdeCut Command} {policy : BufWriterPolicy}.
Context (m0 : kvmap) (gen0 : N).

(** What the clients run: their programs, on so many threads; which answers are allowed,
    which take a reader out of the pool, and which are given when there is none; the reader
    that a client has for its own; and how many readers there are. *)
Context (job : nat → Op → WP (Reply KvsError)) (threads : option nat).
Context (ok : Op → Reply KvsError → Reply KvsError → bool) (leaky cancels : Op → Reply KvsError → bool).
Context (home : nat → option nat) (cap : nat).
Context (job_safe : ∀ i o own G, reader_of own = home i → own ≠ Starved →
  safe o cap (Outside own G true) (job i o) None (op_post ok leaky cancels (home i) o)).
#[local] Abbreviation client_step := (client_step job threads).
#[local] Abbreviation client_steps := (client_steps job threads).

(** What is known of a client beside its state. *)
Record Thread := mkThread { th_view : view; th_status : status }.

(** The operation that a client runs: not in the history yet; once it has taken effect,
    there is a point for it. *)
Definition client_ok (i : nat) (c : Client) (th : Thread) (now : Z) (pts : list Point) (hist : list (Operation Op (Reply KvsError))) : Prop :=
  match running c with
  | None => ∃ own G, th_view th = Outside own G false ∧ reader_of own = home i ∧ own ≠ Starved
  | Some (o, t, b, p) =>
      safe o cap (th_view th) p (th_status th) (op_post ok leaky cancels (home i) o) ∧ (t < now)%Z ∧ (t ∉ (op_call <$> hist)) ∧
      (b = false → ∃ own G, th_view th = Outside own G true ∧ reader_of own = home i) ∧
      match th_status th with
      | None => t ∉ (pt_call <$> pts)
      | Some e => ∃ pt, pt ∈ pts ∧ pt_call pt = t ∧ pt_op pt = o ∧ pt_effect pt = e ∧ (t < pt_time pt)%Z
      end
  end.

(** The readers that threads own; those that are gone. *)
Definition owners (ths : list Thread) : list nat := omap (owned ∘ th_view) ths.
Definition leaks (hist : list (Operation Op (Reply KvsError))) : nat := length (filter (λ a, leaky (op_input a) (op_output a) = true) hist).

Lemma leaks_snoc hist a : leaks (hist ++ [a]) = leaks hist + (if leaky (op_input a) (op_output a) then 1 else 0).
Proof.
  unfold leaks. rewrite filter_app, length_app, filter_cons. destruct (leaky _ _); [by rewrite decide_True|by rewrite decide_False].
Qed.

(** A reader is gone, or is about to be: its thread is done with it. *)
Definition leaked (ths : list Thread) (s : System) : Prop :=
  (∃ a, a ∈ history s ∧ leaky (op_input a) (op_output a) = true) ∨
  ∃ i c th, clients s !! i = Some c ∧ ths !! i = Some th ∧ is_Some (owned (th_view th)) ∧ busy c = false.

(** A thread found no reader. *)
Definition lacking (ths : list Thread) (s : System) : Prop :=
  (∃ i th, ths !! i = Some th ∧ starved (th_view th) = true) ∨
  (∃ a, a ∈ history s ∧ cancels (op_input a) (op_output a) = true).

(** An operation that may replace the entry of the key was in progress at the time [n]. *)
Definition replacing (compacted : bool) (s : System) (k : string) (n : Z) : Prop :=
  (∃ b, b ∈ history s ∧ replaces compacted (op_input b) k = true ∧ (op_call b < n)%Z ∧ (n < op_finish b)%Z) ∨
  ∃ i c o t b p, clients s !! i = Some c ∧ running c = Some (o, t, b, p) ∧ replaces compacted o k = true ∧ (t < n)%Z.

(** The operation that holds the lock may replace the entry. *)
Definition held (compacted : bool) (ths : list Thread) (s : System) (k : string) : Prop :=
  ∃ i th own w G c o t b p, ths !! i = Some th ∧ th_view th = Inside own w G ∧
    clients s !! i = Some c ∧ running c = Some (o, t, b, p) ∧ replaces compacted o k = true.

Record sys_ok (G : Ghost) (ths : list Thread) (pts : list Point) (s : System) : Prop := {
  so_inv : inv G (world s);
  so_length : length ths = length (clients s);
  so_sees : ∀ i th, ths !! i = Some th → sees (th_view th) (world s) G;
  so_clients : ∀ i c th, clients s !! i = Some c → ths !! i = Some th → client_ok i c th (now s) pts (history s);
  (* one thread holds the lock *)
  so_alone : ∀ i j th th' own w G own' w' G', ths !! i = Some th → ths !! j = Some th' →
    th_view th = Inside own w G → th_view th' = Inside own' w' G' → i = j;
  so_holder : w_lock (world s) = Locked → ∃ i th own w G, ths !! i = Some th ∧ th_view th = Inside own w G;
  so_tokens : sum_list ((tokens ∘ th_view) <$> ths) + sum_list ((length ∘ todo) <$> clients s) ≤ g_left G;
  (* every reader is in the pool, with one thread, or gone *)
  so_owners : NoDup (w_pool (world s) ++ owners ths);
  so_count : length (w_pool (world s) ++ owners ths) + leaks (history s) = cap;
  so_busy : ∀ n, threads = Some n → length (filter (λ c, busy c = true) (clients s)) ≤ n;
  so_lacking : ∀ n, threads = Some n → n ≤ cap → (∀ i, home i = None) → lacking ths s → leaked ths s;
  (* calls are at different times *)
  so_calls : ∀ i j c c' o o' t b b' p p', clients s !! i = Some c → clients s !! j = Some c' →
    running c = Some (o, t, b, p) → running c' = Some (o', t, b', p') → i = j;
  so_hist_calls : NoDup (op_call <$> history s);
  so_history : ∀ a, a ∈ history s → ∃ pt, pt ∈ pts ∧ pt_call pt = op_call a ∧ pt_op pt = op_input a ∧
    answers ok (op_input a) (pt_effect pt) (op_output a) ∧ (op_call a < pt_time pt)%Z ∧ (pt_time pt < op_finish a)%Z;
  so_past : ∀ a, a ∈ history s → (op_call a < now s)%Z;
  (* the points *)
  so_points : ∀ pt, pt ∈ pts → (pt_call pt < pt_time pt)%Z ∧ (pt_time pt < now s)%Z ∧
    ((pt_call pt ∈ (op_call <$> history s)) ∨
     ∃ i c th o b p r, clients s !! i = Some c ∧ ths !! i = Some th ∧ running c = Some (o, pt_call pt, b, p) ∧ th_status th = Some r);
  so_sorted : StronglySorted (λ a b, (pt_time a < pt_time b)%Z) pts;
  so_pt_calls : NoDup (pt_call <$> pts);
  so_map : map_run m0 pts = Some (g_map G);
  (* a key is out of the index while the holder of the lock replaces its entry; a [get]
     misses it only then *)
  so_gap : ∀ k, g_gap G = Some k → held (compacts G) ths s k;
  so_missed : ∀ pt, pt ∈ pts → ef_missed (pt_effect pt) = true → ∃ k, pt_op pt = OpGet k ∧ replacing (compacts G) s k (pt_time pt);
  (* reads fail only after a compaction has begun *)
  so_gen0 : g_gen0 G = gen0;
  so_failed : ∀ a, a ∈ history s → failed_get (op_input a) (op_output a) = true → g_stay G = None;
}.

Lemma stay_gone G G' : g_stay G = None → extends G G' → g_stay G' = None.
Proof. intros Hs Hx. destruct (g_stay G') as [m|] eqn:Hm; [|done]. destruct (ex_stay _ _ Hx _ Hm) as (? & ? & _). congruence. Qed.

Lemma compacts_extends G G' : extends G G' → compacts G = true → compacts G' = true.
Proof.
  intros Hx. unfold compacts. destruct (g_stay G) as [m|] eqn:Hs; [done|]. by rewrite (stay_gone _ _ Hs Hx).
Qed.

(** ** The steps *)

(** What is in progress stays so until it has returned. *)
Lemma replacing_step cp cp' s s' k n i c c' : replacing cp s k n → (cp = true → cp' = true) → history s ⊆ history s' →
  clients s !! i = Some c → clients s' = <[i := c']> (clients s) →
  (∀ o t b p, running c = Some (o, t, b, p) → (∃ b' p', running c' = Some (o, t, b', p')) ∨
     ∃ a, a ∈ history s' ∧ op_input a = o ∧ op_call a = t ∧ (n < op_finish a)%Z) →
  replacing cp' s' k n.
Proof.
  intros [(b & Hb & Hr & Hn)|(j & cj & o & t & b & p & Hj & Hrj & Hr & Hn)] Hcp Hh Hc Hcs Hrun.
  - left. exists b. split_and!; [by apply Hh|by eapply replaces_mono|apply Hn..].
  - destruct (decide (j = i)) as [->|Hne].
    + rewrite Hc in Hj. injection Hj as <-. destruct (Hrun _ _ _ _ Hrj) as [(b' & p' & Hr')|(a & Ha & <- & <- & Hf)].
      * right. exists i, c', o, t, b', p'. rewrite Hcs, list_lookup_insert_eq by (by eapply lookup_lt_Some).
        split_and!; [done|done|by eapply replaces_mono|done].
      * left. exists a. split_and!; [done|by eapply replaces_mono|done|done].
    + right. exists j, cj, o, t, b, p. rewrite Hcs, list_lookup_insert_ne by done. split_and!; [done|done|by eapply replaces_mono|done].
Qed.

(** A thread outside does not hold the lock. *)
Lemma held_others cp ths ths' s s' k i th own G tok : ths !! i = Some th → th_view th = Outside own G tok →
  (∀ j, j ≠ i → ths' !! j = ths !! j ∧ clients s' !! j = clients s !! j) → held cp ths s k → held cp ths' s' k.
Proof.
  intros Hi Hv Hsame (j & thj & ownj & w & Gj & c & o & t & b & p & Hj & Hvj & Hc & Hrest).
  assert (j ≠ i) as Hne by (intros ->; congruence). destruct (Hsame _ Hne) as [Ht Hcl].
  exists j, thj, ownj, w, Gj, c, o, t, b, p. by rewrite Ht, Hcl.
Qed.

Lemma lookup_insert_cases {A} (l : list A) i x j y : i < length l → <[i := x]> l !! j = Some y →
  (j = i ∧ y = x) ∨ (j ≠ i ∧ l !! j = Some y).
Proof.
  intros Hi H. destruct (decide (j = i)) as [->|]; [rewrite list_lookup_insert_eq in H by done|rewrite list_lookup_insert_ne in H by done]; naive_solver.
Qed.

Lemma client_ok_mono i c th n pts hist n' pts' hist' : client_ok i c th n pts hist → (n ≤ n')%Z →
  (∀ o t b p, running c = Some (o, t, b, p) → t ∉ op_call <$> hist → t ∉ op_call <$> hist') →
  (∀ o t b p, running c = Some (o, t, b, p) → t ∉ pt_call <$> pts → t ∉ pt_call <$> pts') → pts ⊆ pts' →
  client_ok i c th n' pts' hist'.
Proof.
  unfold client_ok. destruct (running c) as [[[[o t] b] p]|]; [|done].
  intros (Hs & Ht & Hh & Hb & Hst) Hn Hhist Hpts Hsub. split_and!; [done|lia|by eapply Hhist|done|].
  destruct (th_status th); [|by eapply Hpts]. destruct Hst as (pt & Hin & ?). exists pt. split; [by apply Hsub|done].
Qed.

(** At most the holder of the lock is inside, and others are outside. *)
Lemma sys_locked G ths pts s i th own w0 G0 : sys_ok G ths pts s → ths !! i = Some th → th_view th = Inside own w0 G0 →
  w_lock (world s) = Locked.
Proof.
  intros Hok Hi Hv. pose proof (so_sees _ _ _ _ Hok _ _ Hi) as Hs. rewrite Hv in Hs.
  destruct Hs as (Hw & _ & Hl). by rewrite Hw.
Qed.

Lemma sys_thread G ths pts s i c : sys_ok G ths pts s → clients s !! i = Some c → ∃ th, ths !! i = Some th.
Proof. intros Hok Hi%lookup_lt_Some. apply lookup_lt_is_Some. by rewrite (so_length _ _ _ _ Hok). Qed.

(** A program that is done has an answer. *)
Lemma sys_no_panic G ths pts s i c o t b r : sys_ok G ths pts s → clients s !! i = Some c →
  running c = Some (o, t, b, Done r) → ∃ a, r = Ok a.
Proof.
  intros Hok Hc Hr. destruct (sys_thread _ _ _ _ _ _ Hok Hc) as [th Hth].
  pose proof (so_clients _ _ _ _ Hok _ _ _ Hc Hth) as Hcl. unfold client_ok in Hcl. rewrite Hr in Hcl.
  destruct Hcl as ((_ & _ & _ & x & _ & _ & Hx & _) & _). by exists x.
Qed.

Lemma sys_in_time G ths pts s : sys_ok G ths pts s → in_time (history s).
Proof.
  intros Hok a Ha. destruct (so_history _ _ _ _ Hok _ Ha) as (pt & _ & _ & _ & _ & H1 & H2). lia.
Qed.

(** Tokens when thread [i] goes from [th] and [c] to [th'] and [c']. *)
Lemma tokens_insert ths (cs : list Client) i th th' c c' : ths !! i = Some th → cs !! i = Some c →
  sum_list ((tokens ∘ th_view) <$> <[i := th']> ths) + sum_list ((length ∘ todo) <$> <[i := c']> cs) + tokens (th_view th) + length (todo c)
  = sum_list ((tokens ∘ th_view) <$> ths) + sum_list ((length ∘ todo) <$> cs) + tokens (th_view th') + length (todo c').
Proof.
  intros Ht Hc. rewrite !list_fmap_insert.
  pose proof (sum_list_insert ((tokens ∘ th_view) <$> ths) i (tokens (th_view th)) (tokens (th_view th'))) as H1.
  rewrite list_lookup_fmap, Ht in H1. specialize (H1 eq_refl).
  pose proof (sum_list_insert ((length ∘ todo) <$> cs) i (length (todo c)) (length (todo c'))) as H2.
  rewrite list_lookup_fmap, Hc in H2. specialize (H2 eq_refl). simpl in *. lia.
Qed.

(** ** Readers *)

(** Thread [i] goes from [th] to [th']: what the pool and the threads have together. *)
Lemma owners_insert ths i th th' pool pool' : ths !! i = Some th → moves (owned (th_view th)) pool (owned (th_view th')) pool' →
  pool' ++ owners (<[i := th']> ths) ≡ₚ pool ++ owners ths.
Proof.
  intros Hth Hm. destruct (omap_insert_Permutation (owned ∘ th_view) ths i th Hth) as (rest & H1 & H2).
  specialize (H2 th'). unfold owners. rewrite H1, H2. cbn [compose].
  destruct Hm as [|r pool' Ho ->|r Ho]; [done|rewrite Ho; cbn; by rewrite Permutation_middle|].
  rewrite Ho. cbn. by rewrite <-app_assoc.
Qed.

Lemma owners_same ths i th th' : ths !! i = Some th → owned (th_view th') = owned (th_view th) → owners (<[i := th']> ths) ≡ₚ owners ths.
Proof. intros Hth Ho. apply (owners_insert ths i th th' [] [] Hth). rewrite Ho. apply moves_not. Qed.

Lemma sys_place G ths pts s i th : sys_ok G ths pts s → ths !! i = Some th → has_place cap (th_view th) (world s).
Proof.
  intros Hok Hth [r Hr]. pose proof (so_count _ _ _ _ Hok) as Hc. rewrite length_app in Hc.
  assert (r ∈ owners ths) as Hin.
  { apply list_elem_of_omap. exists th. split; [by eapply list_elem_of_lookup_2|done]. }
  destruct (owners ths); [by apply not_elem_of_nil in Hin|]. simpl in Hc. lia.
Qed.

(** A client that goes from [c] to [c'], not more busy. *)
Lemma busy_insert (cs : list Client) i c c' n : cs !! i = Some c → (busy c' = true → busy c = true) →
  length (filter (λ c, busy c = true) cs) ≤ n → length (filter (λ c, busy c = true) (<[i := c']> cs)) ≤ n.
Proof.
  intros Hc Hb Hn. pose proof (length_filter_insert (λ c, busy c = true) cs i c c' Hc).
  repeat case_decide; naive_solver lia.
Qed.

(** When a started thread finds the pool empty while no more threads run than there are
    readers, a reader is gone. *)
Lemma empty_leaked G ths pts s i c th n : sys_ok G ths pts s → clients s !! i = Some c → ths !! i = Some th →
  w_pool (world s) = [] → owned (th_view th) = None → n ≤ cap →
  (∀ c', busy c' = true → length (filter (λ c, busy c = true) (<[i := c']> (clients s))) ≤ n) →
  (∃ a, a ∈ history s ∧ leaky (op_input a) (op_output a) = true) ∨
  ∃ j c th, j ≠ i ∧ clients s !! j = Some c ∧ ths !! j = Some th ∧ is_Some (owned (th_view th)) ∧ busy c = false.
Proof.
  intros Hok Hc Hth Hpool Hown Hn Hbusy.
  destruct (decide (Exists (λ x : Thread * Client, is_Some (owned (th_view x.1)) ∧ busy x.2 = false) (zip ths (clients s)))) as [Hex|Hall].
  - right. apply Exists_exists in Hex as ([th' c'] & Hin & Ho & Hb). cbn [fst snd] in Ho, Hb. apply list_elem_of_lookup in Hin as [j Hj].
    apply lookup_zip_with_Some in Hj as (x & y & [= -> ->] & Hx & Hy). exists j, y, x. split_and!; try done.
    intros ->. rewrite Hth in Hx. injection Hx as <-. rewrite Hown in Ho. by destruct Ho.
  - left. apply not_Exists_Forall in Hall; [|apply _]. rewrite Forall_lookup in Hall.
    pose proof (so_count _ _ _ _ Hok) as Hcount. rewrite Hpool in Hcount. cbn [app] in Hcount.
    set (c1 := mkClient [] (Some (OpGet "", 0%Z, true, Act (λ _, None)))). specialize (Hbusy c1 eq_refl).
    assert (i < length (clients s)) as Hlt by by eapply lookup_lt_Some.
    destruct (omap_filter_length (owned ∘ th_view) (λ c, busy c = true) ths (<[i := c1]> (clients s))) as [_ Hstrict].
    { by rewrite length_insert, (so_length _ _ _ _ Hok). }
    { intros j x y Hx Hy Ho. destruct (decide (i = j)) as [<-|Hne]; [rewrite list_lookup_insert_eq in Hy by done; by injection Hy as <-|].
      rewrite list_lookup_insert_ne in Hy by done. destruct (busy y) eqn:Hb; [done|]. exfalso.
      apply (Hall j (x, y)); [|done]. apply lookup_zip_with_Some. eauto. }
    specialize (Hstrict i th c1 Hth (list_lookup_insert_eq _ _ _ Hlt) Hown eq_refl). unfold owners in Hcount.
    assert (0 < leaks (history s)) as Hl by lia. unfold leaks in Hl.
    destruct (filter _ (history s)) as [|a l] eqn:Hf; [simpl in Hl; lia|].
    assert (a ∈ filter (λ a, leaky (op_input a) (op_output a) = true) (history s)) as Ha by (rewrite Hf; by left).
    apply list_elem_of_filter in Ha as [? ?]. by exists a.
Qed.

(** The reader that a client has between two operations. *)
Definition rest_own (i : nat) (own : hold) : hold := match home i with None => Nothing | Some _ => own end.

Lemma rest_own_ok i own : reader_of own = home i ∨ home i = None → reader_of (rest_own i own) = home i ∧ rest_own i own ≠ Starved.
Proof. unfold rest_own. destruct own, (home i); naive_solver. Qed.

(** ** Calls and returns *)

(** A client calls its next operation. *)
Lemma runs_itself_no n : threads = Some n → runs_itself threads = false ∧ thread_free threads = λ s, length (filter (λ c, busy c = true) (clients s)) <? n.
Proof. unfold runs_itself, thread_free. by intros ->. Qed.

Lemma sys_call G ths pts s i o os : sys_ok G ths pts s → clients s !! i = Some (mkClient (o :: os) None) →
  ∃ ths', sys_ok G ths' pts (mkSystem (world s) (now s + 1)
    (<[i := mkClient os (Some (o, now s, runs_itself threads, job i o))]> (clients s)) (history s)).
Proof using job_safe.
  intros Hok Hc. destruct (sys_thread _ _ _ _ _ _ Hok Hc) as [th Hth].
  destruct (so_clients _ _ _ _ Hok _ _ _ Hc Hth) as (own & G0 & Hv & Hown & Hst). pose proof (lookup_lt_Some _ _ _ Hc) as Hlc.
  pose proof (lookup_lt_Some _ _ _ Hth) as Hlt.
  set (c' := mkClient os (Some (o, now s, runs_itself threads, job i o))). set (th' := mkThread (Outside own G0 true) None).
  assert (owned (th_view th') = owned (th_view th)) as Hsame by (by rewrite Hv).
  assert (∀ t, t ∈ (op_call <$> history s) → (t < now s)%Z) as Hpast.
  { intros t (a & -> & Ha)%list_elem_of_fmap. by eapply so_past. }
  assert (∀ t, t ∈ (pt_call <$> pts) → (t < now s)%Z) as Hpast'.
  { intros t (pt & -> & Hp)%list_elem_of_fmap. destruct (so_points _ _ _ _ Hok _ Hp) as (? & ? & _). lia. }
  exists (<[i := th']> ths). split; cbn [world now clients history].
  - apply Hok.
  - by rewrite !length_insert, (so_length _ _ _ _ Hok).
  - intros j thj [[-> ->]|[Hne Hj]]%(lookup_insert_cases _ _ _ _ _ Hlt); [|by eapply so_sees].
    pose proof (so_sees _ _ _ _ Hok _ _ Hth) as Hs. rewrite Hv in Hs. exact Hs.
  - intros j cj thj [[-> ->]|[Hne Hj]]%(lookup_insert_cases _ _ _ _ _ Hlc) [[? ->]|[? Htj]]%(lookup_insert_cases _ _ _ _ _ Hlt); try done.
    + unfold client_ok. simpl. split_and!; [by apply job_safe|lia|intros ?%Hpast; lia|by eauto|intros ?%Hpast'; lia].
    + eapply client_ok_mono; [by eapply so_clients|lia|done..].
  - intros j k thj thk own1 w G1 own2 w' G1' [[-> ->]|[? Hj]]%(lookup_insert_cases _ _ _ _ _ Hlt) [[-> ->]|[? Hk]]%(lookup_insert_cases _ _ _ _ _ Hlt); try done.
    by eapply so_alone.
  - intros Hl. destruct (so_holder _ _ _ _ Hok Hl) as (j & thj & own1 & w & G1 & Hj & Hvj). exists j, thj, own1, w, G1.
    split; [|done]. rewrite list_lookup_insert_ne; [done|]. intros ->. congruence.
  - pose proof (tokens_insert ths (clients s) i th th' _ c' Hth Hc) as Ht. rewrite Hv in Ht. simpl in Ht.
    pose proof (so_tokens _ _ _ _ Hok). unfold c', th' in *. lia.
  - rewrite (owners_same _ _ _ _ Hth Hsame). apply Hok.
  - rewrite (owners_same _ _ _ _ Hth Hsame). apply Hok.
  - intros n Hn. eapply busy_insert; [exact Hc| |by apply Hok]. unfold c', busy. cbn [running]. by rewrite (proj1 (runs_itself_no n Hn)).
  - intros n Hn Hle Hhome Hlack. unfold lacking in Hlack; unfold leaked; cbn [clients history] in *. destruct (so_lacking _ _ _ _ Hok n Hn Hle Hhome) as [Ha|(j & cj & thj & Hj & Htj & Ho & Hb)]; [| by left|right].
    + destruct Hlack as [(j & thj & [[-> ->]|[Hne Hj]]%(lookup_insert_cases _ _ _ _ _ Hlt) & Hs)|Ha]; [|left; eauto|by right].
      by destruct own.
    + destruct (decide (j = i)) as [->|Hne]; [|exists j, cj, thj; by rewrite !list_lookup_insert_ne by done].
      rewrite Hth in Htj. injection Htj as <-. rewrite Hv in Ho. cbn in Ho. rewrite Hown, Hhome in Ho. by destruct Ho.
  - assert (∀ j c o' b' p', clients s !! j = Some c → running c ≠ Some (o', now s, b', p')) as Hnew.
    { intros j c o' b' p' Hj Hr. destruct (sys_thread _ _ _ _ _ _ Hok Hj) as [thj Hthj].
      pose proof (so_clients _ _ _ _ Hok _ _ _ Hj Hthj) as H. unfold client_ok in H. rewrite Hr in H.
      destruct H as (_ & H & _). lia. }
    intros j k cj ck o1 o2 t b1 b2 p1 p2 [[-> ->]|[? Hj]]%(lookup_insert_cases _ _ _ _ _ Hlc) [[-> ->]|[? Hk]]%(lookup_insert_cases _ _ _ _ _ Hlc) H1 H2;
      simplify_eq/=; try done; [by edestruct Hnew|by edestruct Hnew|by eapply so_calls].
  - apply Hok.
  - apply Hok.
  - intros a Ha%(so_past _ _ _ _ Hok). lia.
  - intros pt Hp. destruct (so_points _ _ _ _ Hok _ Hp) as (? & ? & Hd). split_and!; [done|lia|].
    destruct Hd as [|(j & cj & thj & o1 & b1 & p1 & r & Hj & Htj & Hr & Hsr)]; [by left|right].
    exists j, cj, thj, o1, b1, p1, r. rewrite !list_lookup_insert_ne; [done|intros ->; simplify_eq..].
  - apply Hok.
  - apply Hok.
  - apply Hok.
  - intros k Hk%(so_gap _ _ _ _ Hok). eapply held_others; [exact Hth|exact Hv| |exact Hk].
    intros j Hj. cbn [clients]. by rewrite !list_lookup_insert_ne by done.
  - intros pt Hp Hm. destruct (so_missed _ _ _ _ Hok _ Hp Hm) as (k & Hk & Hrep). exists k. split; [done|].
    eapply replacing_step; [exact Hrep|done|done|exact Hc|done|done].
  - apply Hok.
  - apply Hok.
Qed.

(** A thread of the pool takes its program. *)
Lemma sys_begin G ths pts s i o os t f : sys_ok G ths pts s → clients s !! i = Some (mkClient os (Some (o, t, false, Act f))) →
  thread_free threads s = true →
  sys_ok G ths pts (mkSystem (world s) (now s + 1) (<[i := mkClient os (Some (o, t, true, Act f))]> (clients s)) (history s)).
Proof.
  intros Hok Hc Hfree. destruct (sys_thread _ _ _ _ _ _ Hok Hc) as [th Hth].
  pose proof (so_clients _ _ _ _ Hok _ _ _ Hc Hth) as (Hsafe & Ht & Hnh & Hb & Hpt).
  destruct (Hb eq_refl) as (own & G0 & Hv & Hown).
  pose proof (lookup_lt_Some _ _ _ Hc) as Hlc. set (c' := mkClient os (Some (o, t, true, Act f))).
  split; cbn [world now clients history]; try apply Hok.
  - by rewrite length_insert, (so_length _ _ _ _ Hok).
  - intros j cj thj [[-> ->]|[Hne Hj]]%(lookup_insert_cases _ _ _ _ _ Hlc) Htj.
    + rewrite Hth in Htj. injection Htj as <-. unfold client_ok. cbn [running c']. by split_and!; [|lia|..].
    + eapply client_ok_mono; [by eapply so_clients|lia|done..].
  - pose proof (tokens_insert ths (clients s) i th th _ c' Hth Hc) as Htk. rewrite (list_insert_id ths i th Hth) in Htk.
    pose proof (so_tokens _ _ _ _ Hok). simpl in Htk. lia.
  - intros n Hn. rewrite (proj2 (runs_itself_no n Hn)) in Hfree. apply Nat.ltb_lt in Hfree.
    pose proof (length_filter_insert (λ c, busy c = true) (clients s) i _ c' Hc). repeat case_decide; lia.
  - intros n Hn Hle Hhome Hlack. destruct (so_lacking _ _ _ _ Hok n Hn Hle Hhome Hlack) as [Ha|(j & cj & thj & Hj & Htj & Ho & Hbj)]; [by left|right].
    exists j, cj, thj. cbn [clients]. rewrite list_lookup_insert_ne; [done|]. intros <-. rewrite Hth in Htj. injection Htj as <-.
    rewrite Hv in Ho. cbn in Ho. rewrite Hown, Hhome in Ho. by destruct Ho.
  - intros j k cj ck o1 o2 t1 b1 b2 p1 p2 [[-> ->]|[? Hj]]%(lookup_insert_cases _ _ _ _ _ Hlc) [[-> ->]|[? Hk]]%(lookup_insert_cases _ _ _ _ _ Hlc) H1 H2;
      simplify_eq/=; try done; by eapply (so_calls _ _ _ _ Hok).
  - intros a Ha%(so_past _ _ _ _ Hok). lia.
  - intros pt Hp. destruct (so_points _ _ _ _ Hok _ Hp) as (? & ? & Hd). split_and!; [done|lia|].
    destruct Hd as [|(j & cj & thj & o1 & b1 & p1 & r & Hj & Htj & Hr & Hsr)]; [by left|right].
    destruct (decide (j = i)) as [->|Hne].
    + rewrite Hc in Hj. simplify_eq/=. exists i, c', th, o1, true, (Act f), r. by rewrite list_lookup_insert_eq by done.
    + exists j, cj, thj, o1, b1, p1, r. by rewrite list_lookup_insert_ne by done.
  - intros k Hk%(so_gap _ _ _ _ Hok). eapply held_others; [exact Hth|exact Hv| |exact Hk].
    intros j Hj. cbn [clients]. by rewrite !list_lookup_insert_ne by done.
  - intros pt Hp Hm. destruct (so_missed _ _ _ _ Hok _ Hp Hm) as (k & Hk & Hrep). exists k. split; [done|].
    eapply replacing_step; [exact Hrep|done|done|exact Hc|done|]. cbn [running]. intros o' t' b' p' [= <- <- <- <-]. left. by eexists _, _.
Qed.

(** It returns from an operation. *)
Lemma sys_return G ths pts s i os o t b r : sys_ok G ths pts s →
  clients s !! i = Some (mkClient os (Some (o, t, b, Done (Ok r)))) →
  ∃ ths', sys_ok G ths' pts (mkSystem (world s) (now s + 1) (<[i := mkClient os None]> (clients s))
    (history s ++ [mkOp o t r (now s)])).
Proof.
  intros Hok Hc. destruct (sys_thread _ _ _ _ _ _ Hok Hc) as [th Hth].
  pose proof (so_clients _ _ _ _ Hok _ _ _ Hc Hth) as Hcl. unfold client_ok in Hcl. simpl in Hcl.
  destruct Hcl as ((own & G0 & tok & x & r0 & Hv & [= <-] & Hst & Hr & Hleak & Hcan & Hfail) & Ht & Hnh & _ & Hpt).
  rewrite Hst in Hpt. destruct Hpt as (pt & Hpin & Hpc & Hpo & Hpr & Hptm).
  pose proof (lookup_lt_Some _ _ _ Hc) as Hlc. pose proof (lookup_lt_Some _ _ _ Hth) as Hlt.
  set (c' := mkClient os None). set (th' := mkThread (Outside (rest_own i own) G0 false) None). set (a0 := mkOp o t r (now s)).
  destruct (rest_own_ok i own) as [Hro Hrs]; [destruct (leaky o r); [right; by destruct Hleak|by left]|].
  (* the readers *)
  assert (NoDup (w_pool (world s) ++ owners (<[i := th']> ths)) ∧
    length (w_pool (world s) ++ owners (<[i := th']> ths)) + leaks (history s ++ [a0]) = cap) as [Hnd Hcount].
  { rewrite leaks_snoc. pose proof (so_owners _ _ _ _ Hok) as Hd. pose proof (so_count _ _ _ _ Hok) as Hn.
    destruct (omap_insert_Permutation (owned ∘ th_view) ths i th Hth) as (rest & H1 & H2). specialize (H2 th').
    unfold owners in *. rewrite H1 in Hd, Hn. rewrite H2. cbn [compose th_view th' owned] in *. rewrite Hv in Hd, Hn. cbn [owned] in Hd, Hn.
    rewrite Hro. cbn [op_input op_output a0]. destruct (leaky o r) eqn:Hlk.
    - destruct Hleak as [-> [r1 Hr1]]. rewrite Hr1 in Hd, Hn. change (option_list (Some r1) ++ rest) with (r1 :: rest) in Hd, Hn. change (option_list None ++ rest) with rest.
      rewrite <-Permutation_middle in Hd, Hn. cbn [length] in Hn. split; [by apply NoDup_cons in Hd as [_ ?]|lia].
    - rewrite Hleak in Hd, Hn. split; [done|lia]. }
  exists (<[i := th']> ths). split; cbn [world now clients history].
  - apply Hok.
  - by rewrite !length_insert, (so_length _ _ _ _ Hok).
  - intros j thj [[-> ->]|[Hne Hj]]%(lookup_insert_cases _ _ _ _ _ Hlt); [|by eapply so_sees].
    pose proof (so_sees _ _ _ _ Hok _ _ Hth) as Hs. rewrite Hv in Hs. destruct Hs as [Hs Hx]. split; [|done].
    intros r1 hs1 Heq. apply Hs. revert Heq. unfold rest_own. by destruct (home i).
  - intros j cj thj [[-> ->]|[Hne Hj]]%(lookup_insert_cases _ _ _ _ _ Hlc) [[? ->]|[? Htj]]%(lookup_insert_cases _ _ _ _ _ Hlt); try done.
    + unfold client_ok. simpl. by eauto.
    + eapply client_ok_mono; [by eapply so_clients|lia| |done..].
      intros o' t' b' p' Hrun Hnin. rewrite fmap_app, elem_of_app. intros [|Ht'%list_elem_of_singleton]; [done|].
      simpl in Ht'. subst t'. by eapply Hne, (so_calls _ _ _ _ Hok).
  - intros j k thj thk own1 w G1 own2 w' G1' [[-> ->]|[? Hj]]%(lookup_insert_cases _ _ _ _ _ Hlt) [[-> ->]|[? Hk]]%(lookup_insert_cases _ _ _ _ _ Hlt); try done.
    by eapply so_alone.
  - intros Hl. destruct (so_holder _ _ _ _ Hok Hl) as (j & thj & own1 & w & G1 & Hj & Hvj). exists j, thj, own1, w, G1.
    split; [|done]. rewrite list_lookup_insert_ne; [done|]. intros ->. congruence.
  - pose proof (tokens_insert ths (clients s) i th th' _ c' Hth Hc) as Htk. simpl in Htk.
    pose proof (so_tokens _ _ _ _ Hok). unfold c', th' in *. lia.
  - exact Hnd.
  - exact Hcount.
  - intros n Hn. eapply busy_insert; [exact Hc|done|by apply Hok].
  - intros n Hn Hle Hhome Hlack. unfold lacking in Hlack; unfold leaked; cbn [clients history] in *. destruct (leaky o r) eqn:Hlk; [left; exists a0; split; [set_solver|done]|].
    destruct (so_lacking _ _ _ _ Hok n Hn Hle Hhome) as [(a & Ha & Hal)|(j & cj & thj & Hj & Htj & Ho & Hb)].
    + destruct Hlack as [(j & thj & [[-> ->]|[Hne Hj]]%(lookup_insert_cases _ _ _ _ _ Hlt) & Hs)|(a & [Ha| ->%list_elem_of_singleton]%elem_of_app & Hac)].
      * cbn in Hs. by destruct (rest_own i own).
      * left; eauto.
      * right; eauto.
      * left. exists i, th. split; [done|]. rewrite Hv, (Hcan Hac). done.
    + left. exists a. split; [set_solver|done].
    + right. destruct (decide (j = i)) as [->|Hne]; [|exists j, cj, thj; by rewrite !list_lookup_insert_ne by done].
      rewrite Hth in Htj. injection Htj as <-. rewrite Hv in Ho. cbn in Ho. rewrite Hleak, Hhome in Ho. by destruct Ho.
  - intros j k cj ck o1 o2 t1 b1 b2 p1 p2 [[-> ->]|[? Hj]]%(lookup_insert_cases _ _ _ _ _ Hlc) [[-> ->]|[? Hk]]%(lookup_insert_cases _ _ _ _ _ Hlc) H1 H2;
      simplify_eq/=; try done. by eapply so_calls.
  - rewrite fmap_app. apply NoDup_app. split_and!; [apply Hok| |apply NoDup_singleton].
    intros t' Hin ->%list_elem_of_singleton. by apply Hnh.
  - intros a [Ha| ->%list_elem_of_singleton]%elem_of_app; [by eapply so_history|].
    exists pt. simpl. destruct (so_points _ _ _ _ Hok _ Hpin) as (? & ? & _). by subst.
  - intros a [Ha%(so_past _ _ _ _ Hok)| ->%list_elem_of_singleton]%elem_of_app; simpl; lia.
  - intros q Hq. destruct (so_points _ _ _ _ Hok _ Hq) as (? & ? & Hd). split_and!; [done|lia|].
    rewrite fmap_app, elem_of_app. destruct Hd as [|(j & cj & thj & o1 & b1 & p1 & r1 & Hj & Htj & Hrj & Hsj)]; [by left; left|].
    destruct (decide (j = i)) as [->|Hne]; [left; right|right].
    + rewrite Hc in Hj. simplify_eq/=. by apply list_elem_of_singleton.
    + exists j, cj, thj, o1, b1, p1, r1. by rewrite !list_lookup_insert_ne by done.
  - apply Hok.
  - apply Hok.
  - apply Hok.
  - intros k Hk%(so_gap _ _ _ _ Hok). eapply held_others; [exact Hth|exact Hv| |exact Hk].
    intros j Hj. cbn [clients]. by rewrite !list_lookup_insert_ne by done.
  - intros q Hq Hm. destruct (so_missed _ _ _ _ Hok _ Hq Hm) as (k & Hk & Hrep). exists k. split; [done|].
    destruct (so_points _ _ _ _ Hok _ Hq) as (_ & Hqn & _).
    eapply replacing_step; [exact Hrep|done|set_solver|exact Hc|done|]. cbn [running history]. intros o' t' b' p' [= <- <- <- <-]. right.
    exists a0. split_and!; [set_solver|done|done|done].
  - apply Hok.
  - intros a [Ha| ->%list_elem_of_singleton]%elem_of_app Hfa; [by eapply so_failed|]. specialize (Hfail Hfa).
    pose proof (so_sees _ _ _ _ Hok _ _ Hth) as Hs. rewrite Hv in Hs. destruct Hs as [_ Hx]. by eapply stay_gone.
Qed.

(** The points after an action of the operation [o] called at [t]. *)
Definition new_points (pts : list Point) (o : Op) (t n : Z) (st st' : status) : list Point :=
  match st, st' with
  | None, Some r => pts ++ [mkPoint t o r n]
  | _, _ => pts
  end.

Lemma new_points_sub pts o t n st st' : pts ⊆ new_points pts o t n st st'.
Proof. destruct st, st'; simpl; set_solver. Qed.

Lemma elem_new_points pts o t n st st' pt : pt ∈ new_points pts o t n st st' →
  pt ∈ pts ∨ ∃ r, st = None ∧ st' = Some r ∧ pt = mkPoint t o r n.
Proof. destruct st, st'; simpl; [by left..| |by left]. intros [| ->%list_elem_of_singleton]%elem_of_app; eauto. Qed.

Lemma new_points_calls pts o t n st st' t' : t' ≠ t → t' ∉ (pt_call <$> pts) →
  t' ∉ (pt_call <$> new_points pts o t n st st').
Proof.
  intros Hne Hn (pt & -> & [Hp|(r & _ & _ & ->)]%elem_new_points)%list_elem_of_fmap; [|done].
  apply Hn, list_elem_of_fmap. by exists pt.
Qed.

(** A point stays the one of its operation. *)
Lemma effect_status o G st G' st' r : takes_effect o G st G' st' → st = Some r → st' = Some r.
Proof. intros [] ?; congruence. Qed.

Lemma new_points_run pts o t n G st G' st' : takes_effect o G st G' st' →
  map_run m0 pts = Some (g_map G) → map_run m0 (new_points pts o t n st st') = Some (g_map G').
Proof.
  intros [Hg -> _|r -> -> Hr _|k r -> -> _ _ Hr _] Hrun; simpl; [by destruct st; rewrite Hg|by eapply map_run_snoc..].
Qed.

Lemma new_points_sorted pts o t n st st' : (∀ pt, pt ∈ pts → (pt_time pt < n)%Z) →
  StronglySorted (λ a b, (pt_time a < pt_time b)%Z) pts →
  StronglySorted (λ a b, (pt_time a < pt_time b)%Z) (new_points pts o t n st st').
Proof.
  intros Hlt Hs. destruct st, st'; simpl; try done. apply StronglySorted_app. split_and!; [|done|by repeat constructor].
  intros a b Ha ->%list_elem_of_singleton. by apply Hlt.
Qed.

Lemma new_points_NoDup pts o t n st st' : (st = None → t ∉ (pt_call <$> pts)) → NoDup (pt_call <$> pts) →
  NoDup (pt_call <$> new_points pts o t n st st').
Proof.
  intros Hn Hd. destruct st, st'; simpl; try done. rewrite fmap_app. apply NoDup_app.
  split_and!; [done| |apply NoDup_singleton]. intros x Hx ->%list_elem_of_singleton. by apply Hn.
Qed.

(** The entry of a key is out of the index only while its thread is inside. *)
Lemma held_act G ths pts s i th c os o t f w' p' v' G' st' k : sys_ok G ths pts s →
  clients s !! i = Some c → ths !! i = Some th → running c = Some (o, t, true, Act f) →
  inv G' w' → change (th_view th) (world s) G v' w' G' → takes_effect o G (th_status th) G' st' → g_gap G' = Some k →
  held (compacts G') (<[i := mkThread v' st']> ths)
    (mkSystem w' (now s + 1) (<[i := mkClient os (Some (o, t, true, p'))]> (clients s)) (history s)) k.
Proof.
  intros Hok Hc Hth Hrun Hinv Hch Heff Hgap.
  assert (w_lock w' ≠ Unlocked) as Hlock by (intros Hl; pose proof (re_gap _ _ (proj1 (in_ready _ _ Hinv Hl))); congruence).
  assert (w_lock (world s) = Unlocked → g_gap G ≠ Some k) as Hfree.
  { intros Hl. rewrite (re_gap _ _ (proj1 (in_ready _ _ (so_inv _ _ _ _ Hok) Hl))). done. }
  assert (gap_step o G G') as Hstep by by destruct Heff.
  assert (g_gap G = Some k → held (compacts G) ths s k) as Hold by apply Hok.
  pose proof (ch_mode _ _ _ _ _ _ Hch) as Hm. pose proof (compacts_extends _ _ (ch_extends _ _ _ _ _ _ Hch)) as Hcp.
  destruct v' as [own G1 tok|own w1 G1].
  - destruct (th_view th) as [own0 G0 tok0|] eqn:Hv; [|by destruct Hm]. destruct Hm as (_ & -> & _).
    eapply (held_others _ ths); [exact Hth|exact Hv| |by apply Hold]. intros j Hj. cbn [clients]. by rewrite !list_lookup_insert_ne by done.
  - exists i, (mkThread (Inside own w1 G1) st'), own, w1, G1, (mkClient os (Some (o, t, true, p'))), o, t, true, p'.
    cbn [clients]. rewrite !list_lookup_insert_eq by (by eapply lookup_lt_Some). split_and!; try done.
    destruct (Hstep _ Hgap) as [Hg|]; [|done]. destruct (Hold Hg) as (j & thj & ownj & wj & Gj & cj & oj & tj & bj & pj & Hj & Hvj & Hcj & Hrj & Hrep).
    destruct (th_view th) as [own0 G0 tok0|own0 w0 G0] eqn:Hv; [by destruct (Hfree (proj1 Hm))|].
    assert (j = i) as -> by (by eapply (so_alone _ _ _ _ Hok)). rewrite Hc in Hcj. injection Hcj as <-. rewrite Hrun in Hrj. injection Hrj as <- <- <- <-.
    by eapply replaces_mono.
Qed.

(** A [get] that misses an entry is beside the operation that holds the lock. *)
Lemma missed_act G ths pts s i th os o t f w' p' G' st' pt : sys_ok G ths pts s → extends G G' →
  clients s !! i = Some (mkClient os (Some (o, t, true, Act f))) → takes_effect o G (th_status th) G' st' →
  pt ∈ new_points pts o t (now s) (th_status th) st' → ef_missed (pt_effect pt) = true →
  ∃ k, pt_op pt = OpGet k ∧ replacing (compacts G')
    (mkSystem w' (now s + 1) (<[i := mkClient os (Some (o, t, true, p'))]> (clients s)) (history s)) k (pt_time pt).
Proof.
  intros Hok Hx Hc Heff Hpt Hm.
  assert (∃ k, pt_op pt = OpGet k ∧ replacing (compacts G) s k (pt_time pt)) as (k & Hk & Hrep).
  { apply elem_new_points in Hpt as [Hp|(e & Hst & Hst' & ->)]; [by eapply so_missed|]. rewrite Hst, Hst' in Heff. cbn in Hm.
    destruct Heff as [_ ? _|r _ [= ->] _ _|k r _ [= ->] -> Hgap _ _]; [done..|]. exists k. split; [done|]. right.
    destruct (so_gap _ _ _ _ Hok _ Hgap) as (j & thj & own & w & Gj & c & o & tj & b & p & Htj & _ & Hcj & Hrj & Hrep).
    exists j, c, o, tj, b, p. split_and!; [done..|]. pose proof (so_clients _ _ _ _ Hok _ _ _ Hcj Htj) as H. unfold client_ok in H.
    rewrite Hrj in H. apply H. }
  exists k. split; [done|]. eapply replacing_step; [exact Hrep|by apply compacts_extends|done|exact Hc|done|].
  cbn [running]. intros o' t' b' p1 [= <- <- <- <-]. left. by eexists _, _.
Qed.

(** It takes an action of its operation. *)
Lemma sys_act G ths pts s i os o t f w' p' : sys_ok G ths pts s →
  clients s !! i = Some (mkClient os (Some (o, t, true, Act f))) → f (world s) = Some (w', p') →
  ∃ G' ths' pts', sys_ok G' ths' pts' (mkSystem w' (now s + 1)
    (<[i := mkClient os (Some (o, t, true, p'))]> (clients s)) (history s)).
Proof.
  intros Hok Hc Hf. destruct (sys_thread _ _ _ _ _ _ Hok Hc) as [th Hth].
  pose proof (so_clients _ _ _ _ Hok _ _ _ Hc Hth) as (Hsafe & Ht & Hnh & _ & Hpt).
  pose proof (lookup_lt_Some _ _ _ Hc) as Hlc. pose proof (lookup_lt_Some _ _ _ Hth) as Hlt.
  pose proof (so_sees _ _ _ _ Hok _ _ Hth) as Hsees.
  set (c' := mkClient os (Some (o, t, true, p'))).
  assert (tokens (th_view th) ≤ g_left G) as Htok.
  { pose proof (so_tokens _ _ _ _ Hok) as H. pose proof (tokens_insert ths (clients s) i th (mkThread (Outside Nothing G false) None) _ c' Hth Hc) as H1.
    simpl in H1. lia. }
  pose proof (Hsafe (world s) G (so_inv _ _ _ _ Hok) Hsees Htok (sys_place _ _ _ _ _ _ Hok Hth)) as Hstep. rewrite Hf in Hstep.
  destruct Hstep as (v' & G' & st' & Hinv & Hsees' & Hch & Heff & Hsafe').
  set (th' := mkThread v' st'). set (pts' := new_points pts o t (now s) (th_status th) st').
  assert (∀ pt, pt ∈ pts → (pt_call pt < pt_time pt)%Z ∧ (pt_time pt < now s)%Z) as Htimes.
  { intros pt Hp. by destruct (so_points _ _ _ _ Hok _ Hp) as (? & ? & _). }
  assert (pts ⊆ pts') as Hsub by apply new_points_sub.
  (* no other thread is inside when this one is, and none owns its reader *)
  assert (∀ j thj own1 w1 G1, j ≠ i → ths !! j = Some thj → th_view thj = Inside own1 w1 G1 →
    ∃ own G0 tk, th_view th = Outside own G0 tk) as Hexcl.
  { intros j thj own1 w1 G1 Hne Hj Hvj. destruct (th_view th) as [hs G0 tk|own0 w0 G0] eqn:Hv; [by eauto|].
    by destruct Hne; eapply so_alone. }
  assert (∀ j thj r, j ≠ i → ths !! j = Some thj → owned (th_view th) = Some r → owned (th_view thj) ≠ Some r) as Hapart.
  { intros j thj r Hne Hj. pose proof (so_owners _ _ _ _ Hok) as Hd. apply NoDup_app in Hd as (_ & _ & Hd).
    by apply (omap_NoDup_ne (owned ∘ th_view) ths i j th thj r Hd). }
  pose proof (owners_insert ths i th th' _ _ Hth (ch_pool _ _ _ _ _ _ Hch)) as Hperm.
  (* the threads that are busy once this one has started *)
  assert (∀ n, threads = Some n → ∀ c1, length (filter (λ c, busy c = true) (<[i := c1]> (clients s))) ≤ n) as Hbusy.
  { intros n Hn c1. pose proof (length_filter_insert (λ c, busy c = true) (clients s) i _ c1 Hc) as H.
    pose proof (so_busy _ _ _ _ Hok n Hn) as Hb. rewrite decide_True in H by done. case_decide; lia. }
  exists G', (<[i:=th']> ths), pts'. split; cbn [world now clients history].
  - done.
  - by rewrite !length_insert, (so_length _ _ _ _ Hok).
  - intros j thj [[-> ->]|[Hne Hj]]%(lookup_insert_cases _ _ _ _ _ Hlt); [done|].
    eapply sees_change; [exact Hch|by eapply so_sees|by intros r; apply (Hapart j)|]. intros own0 w0 G0 Hv.
    destruct (th_view thj) as [|own1 w1 G1] eqn:Hvj; [by eauto|].
    destruct (Hexcl _ _ _ _ _ Hne Hj Hvj) as (? & ? & ? & ?). congruence.
  - intros j cj thj [[-> ->]|[Hne Hj]]%(lookup_insert_cases _ _ _ _ _ Hlc) [[? ->]|[? Htj]]%(lookup_insert_cases _ _ _ _ _ Hlt); try done.
    + unfold client_ok. simpl. split_and!; [done|lia|done|done|].
      unfold pts'. destruct (th_status th) as [r1|] eqn:Hst.
      { pose proof (effect_status _ _ _ _ _ _ Heff eq_refl) as ->.
        destruct Hpt as (pt & Hp & ?). exists pt. split; [by apply Hsub|done]. }
      destruct st' as [r|]; [|done].
      exists (mkPoint t o r (now s)). simpl. split_and!; try done. set_solver.
    + eapply client_ok_mono; [by eapply so_clients|lia|done| |done].
      intros o1 t1 b1 p1 Hr1. apply new_points_calls. intros ->. by eapply Hne, (so_calls _ _ _ _ Hok).
  - intros j k thj thk own1 w1 G1 own2 w2 G2 [[-> ->]|[Hne Hj]]%(lookup_insert_cases _ _ _ _ _ Hlt) [[-> ->]|[Hne' Hk]]%(lookup_insert_cases _ _ _ _ _ Hlt);
      try done; [| |by eapply so_alone].
    + simpl. intros -> Hvk. pose proof (sys_locked _ _ _ _ _ _ _ _ _ Hok Hk Hvk) as Hl.
      destruct (Hexcl _ _ _ _ _ Hne' Hk Hvk) as (hs & G0 & tk & Hv). destruct Hch as [_ _ _ _ Hm]. rewrite Hv in Hm. destruct Hm. congruence.
    + simpl. intros Hvj ->. pose proof (sys_locked _ _ _ _ _ _ _ _ _ Hok Hj Hvj) as Hl.
      destruct (Hexcl _ _ _ _ _ Hne Hj Hvj) as (hs & G0 & tk & Hv). destruct Hch as [_ _ _ _ Hm]. rewrite Hv in Hm. destruct Hm. congruence.
  - intros Hl. destruct v' as [hs' G1 t'|own1 w1 G1] eqn:Hv'.
    2:{ exists i, th', own1, w1, G1. split; [by apply list_lookup_insert_eq|done]. }
    destruct Hch as [_ _ _ _ Hm]. destruct (th_view th) as [hs0 G0 t0|own0 w0 G0] eqn:Hv; [|destruct Hm; congruence].
    destruct Hm as (Hw & _). rewrite Hw in Hl. destruct (so_holder _ _ _ _ Hok Hl) as (j & thj & own1 & w1 & G2 & Hj & Hvj).
    exists j, thj, own1, w1, G2. split; [|done]. rewrite list_lookup_insert_ne; [done|]. intros ->. congruence.
  - pose proof (tokens_insert ths (clients s) i th th' _ c' Hth Hc) as H. pose proof (so_tokens _ _ _ _ Hok) as H0.
    destruct Hch as [_ _ _ _ Hm]. simpl in H. destruct (th_view th) as [? ? t0|], v' as [? ? t1|]; simpl in *.
    + destruct Hm as (_ & -> & ->). lia.
    + destruct Hm as (_ & -> & ?). lia.
    + destruct Hm as (_ & -> & ->). lia.
    + lia.
  - rewrite Hperm. apply Hok.
  - rewrite Hperm. apply Hok.
  - intros n Hn. by apply Hbusy.
  - intros n Hn Hle Hhome Hlack.
    assert (lacking ths s ∨ (w_pool (world s) = [] ∧ owned (th_view th) = None)) as [Hold|[Hpool Hown]].
    { destruct Hlack as [(j & thj & [[-> ->]|[Hne Hj]]%(lookup_insert_cases _ _ _ _ _ Hlt) & Hs)|Ha]; [|left; left; eauto|left; by right].
      destruct (ch_starved _ _ _ _ _ _ Hch Hs) as [Hs'|]; [left; left; eauto|by right]. }
    + destruct (so_lacking _ _ _ _ Hok n Hn Hle Hhome Hold) as [Ha|(j & cj & thj & Hj & Htj & Ho & Hb)]; [by left|right].
      exists j, cj, thj. cbn [clients]. destruct (decide (j = i)) as [->|Hne]; [exfalso|by rewrite !list_lookup_insert_ne by done].
      by rewrite Hc in Hj; simplify_eq.
    + destruct (empty_leaked _ _ _ _ _ _ _ n Hok Hc Hth Hpool Hown Hle) as [Ha|(j & cj & thj & Hne & Hj & Htj & ?)]; [by intros; apply Hbusy|by left|right].
      exists j, cj, thj. cbn [clients]. by rewrite !list_lookup_insert_ne by done.
  - intros j k cj ck o1 o2 t1 b1 b2 p1 p2 [[-> ->]|[? Hj]]%(lookup_insert_cases _ _ _ _ _ Hlc) [[-> ->]|[? Hk]]%(lookup_insert_cases _ _ _ _ _ Hlc) H1 H2;
      simplify_eq/=; try done; by eapply (so_calls _ _ _ _ Hok).
  - apply Hok.
  - intros a Ha. destruct (so_history _ _ _ _ Hok _ Ha) as (pt & Hp & ?). exists pt. split; [by apply Hsub|done].
  - intros a Ha%(so_past _ _ _ _ Hok). lia.
  - intros pt [Hp|(r & Hst & Hst' & ->)]%elem_new_points.
    + destruct (so_points _ _ _ _ Hok _ Hp) as (? & ? & Hd). split_and!; [done|lia|].
      destruct Hd as [|(j & cj & thj & o1 & b1 & p1 & r1 & Hj & Htj & Hrj & Hsj)]; [by left|right].
      destruct (decide (j = i)) as [->|Hne].
      * rewrite Hc in Hj. rewrite Hth in Htj. simplify_eq/=. exists i, c', th', o1, true, p', r1.
        rewrite !list_lookup_insert_eq by done. split_and!; try done. by eapply effect_status.
      * exists j, cj, thj, o1, b1, p1, r1. by rewrite !list_lookup_insert_ne by done.
    + simpl. split_and!; [lia|lia|]. right. exists i, c', th', o, true, p', r. by rewrite !list_lookup_insert_eq by done.
  - apply new_points_sorted; [|apply Hok]. intros pt Hp. by apply Htimes.
  - apply new_points_NoDup; [|apply Hok]. intros Hst. by rewrite Hst in Hpt.
  - eapply new_points_run; [done|apply Hok].
  - intros k Hk. by eapply (held_act G ths pts s i th).
  - intros pt Hp Hm. eapply (missed_act G ths pts s i th); [done|apply Hch|done..].
  - rewrite (ex_gen0 _ _ (ch_extends _ _ _ _ _ _ Hch)). apply Hok.
  - intros a Ha Hfa. eapply stay_gone; [by eapply so_failed|apply Hch].
Qed.

Lemma sys_ok_step G ths pts s i s' : sys_ok G ths pts s → client_step i s = Some s' →
  ∃ G' ths' pts', sys_ok G' ths' pts' s'.
Proof using job_safe SerdeLaws0 SerdeCut0.
  intros Hok [(o & os & Hc & ->)|[(os & o & t & f & Hc & Hf & ->)|[(os & o & t & f & w' & p' & Hc & Hf & ->)|(os & o & t & b & r & Hc & ->)]]]%client_step_inv.
  - destruct (sys_call _ _ _ _ _ _ _ Hok Hc) as (ths' & ?). eexists _, _, _; done.
  - eexists _, _, _. by eapply sys_begin.
  - by eapply sys_act.
  - destruct (sys_return _ _ _ _ _ _ _ _ _ _ Hok Hc) as (ths' & ?). eexists _, _, _; done.
Qed.

Lemma sys_ok_steps sched G ths pts s s' : sys_ok G ths pts s → client_steps sched s = Some s' →
  ∃ G' ths' pts', sys_ok G' ths' pts' s'.
Proof using job_safe SerdeLaws0 SerdeCut0.
  revert G ths pts s. induction sched as [|i sched IH]; intros G ths pts s Hok; simpl; [intros [= <-]; by eauto|].
  destruct (client_step i s) as [s1|] eqn:Hs; [|done]. destruct (sys_ok_step _ _ _ _ _ _ Hok Hs) as (? & ? & ? & ?).
  by eapply IH.
Qed.

(** ** The history of a finished run *)

(** The place of an operation in the history. *)
Definition place (hist : list (Operation Op (Reply KvsError))) (pt : Point) : nat :=
  default 0 (fst <$> list_find (λ a, op_call a = pt_call pt) hist).

Lemma place_lookup hist pt : pt_call pt ∈ (op_call <$> hist) →
  ∃ a, hist !! place hist pt = Some a ∧ op_call a = pt_call pt.
Proof.
  intros (a & Ha & Hin)%list_elem_of_fmap. unfold place.
  destruct (list_find_elem_of (λ a, op_call a = pt_call pt) hist a Hin (eq_sym Ha)) as [[j b] Hf].
  rewrite Hf. apply list_find_Some in Hf as (Hj & Hb & _). by exists b.
Qed.

Lemma same_place hist i a pt : NoDup (op_call <$> hist) → hist !! i = Some a → op_call a = pt_call pt → place hist pt = i.
Proof.
  intros Hd Hi Ha. destruct (place_lookup hist pt) as (b & Hb & Hc).
  { rewrite <-Ha. apply list_elem_of_fmap_2. by eapply list_elem_of_lookup_2. }
  eapply NoDup_lookup; [exact Hd|by rewrite list_lookup_fmap, Hb|rewrite list_lookup_fmap, Hi; simpl; congruence].
Qed.

Lemma NoDup_fmap_elem {A B} (f : A → B) l x y : NoDup (f <$> l) → x ∈ l → y ∈ l → f x = f y → x = y.
Proof.
  intros Hd [i Hi]%list_elem_of_lookup [j Hj]%list_elem_of_lookup Hf. assert (i = j) as ->; [|congruence].
  eapply NoDup_lookup; [exact Hd|by rewrite list_lookup_fmap, Hi|]. rewrite list_lookup_fmap, Hj. simpl. congruence.
Qed.

Lemma before_sorted pts p q : StronglySorted (λ a b, (pt_time a < pt_time b)%Z) pts → p ∈ pts → q ∈ pts →
  (pt_time p < pt_time q)%Z → before p q pts.
Proof.
  intros Hs Hp Hq Hlt. induction Hs as [|x pts Hs IH Hx]; [by apply not_elem_of_nil in Hp|].
  rewrite Forall_forall in Hx. rewrite before_cons.
  apply elem_of_cons in Hp as [->|Hp], Hq as [->|Hq]; [lia|by left| |by right; apply IH].
  specialize (Hx _ Hp). lia.
Qed.

Lemma run_legal (ok' : Op → Reply KvsError → Reply KvsError → bool) hist idx m pts m' : map_run m pts = Some m' →
  (∀ pt, pt ∈ pts → ∃ a, hist !! idx pt = Some a ∧ pt_op pt = op_input a ∧
     ∀ r, op_output a = Some r → ok' (op_input a) (pt_reply pt) r = true) →
  legal_ops (Model0 := MapModel ok' m0) hist m (idx <$> pts).
Proof.
  revert m. induction pts as [|pt pts IH]; intros m Hrun Hpts; [done|]. simpl in *.
  destruct (spec_op KeyNotFound m (pt_op pt)) as [r m1] eqn:Hs. case_decide as Hr; [|done].
  destruct (Hpts pt) as (a & Ha & Ho & Hrep); [by left|]. exists a, m1. split_and!; [done| |].
  - rewrite <-Ho, Hs, Hr. f_equal. destruct (op_output a); [|done]. rewrite Ho. by apply Hrep.
  - apply IH; [done|]. intros q Hq. apply Hpts. by right.
Qed.

(** A [get] that missed its entry answered beside the operation that replaced it. *)
Lemma sys_may_miss c G ths pts s pt a : sys_ok G ths pts s → finished s → (compacts G = true → c = true) →
  pt ∈ pts → ef_missed (pt_effect pt) = true → a ∈ history s → pt_op pt = op_input a → answers ok (op_input a) (pt_effect pt) (op_output a) →
  (op_call a < pt_time pt)%Z → (pt_time pt < op_finish a)%Z → may_miss c (history s) a = true.
Proof.
  intros Hok Hfin Hc Hp Hm Ha Ho Hans Hcall Hret. unfold answers in Hans. rewrite Hm in Hans.
  destruct (so_missed _ _ _ _ Hok _ Hp Hm) as (k & Hk & [(b & Hb & Hrep & Hb1 & Hb2)|(i & cl & o & t & b & p & Hcl & Hrun & _)]).
  - unfold may_miss. rewrite <-Ho, Hk, Hans. apply existsb_exists. exists b. split; [by apply list_elem_of_In|].
    apply andb_true_iff. split; [by eapply replaces_mono|]. apply andb_true_iff. rewrite !Z.leb_le. lia.
  - apply (Forall_lookup_1 _ _ _ _ Hfin) in Hcl as [_ Hcl]. congruence.
Qed.

Lemma lookup_known c hist i a : known c hist !! i = Some a ↔ ∃ b, hist !! i = Some b ∧ a = known_op c hist b.
Proof. unfold known. rewrite list_lookup_fmap, fmap_Some. done. Qed.

Lemma sys_linearizable ok' c G ths pts s : sys_ok G ths pts s → finished s → (compacts G = true → c = true) →
  (∀ a r0, a ∈ history s → ok (op_input a) r0 (op_output a) = true → ok' (op_input a) r0 (op_output a) = true) →
  ops_linearizable (Model0 := MapModel ok' m0) (known c (history s)).
Proof.
  intros Hok Hfin Hcp Hok'. set (hist := history s).
  assert (∀ pt, pt ∈ pts → ∃ a, hist !! place hist pt = Some a ∧ op_call a = pt_call pt) as Hpt.
  { intros pt Hp. apply place_lookup. destruct (so_points _ _ _ _ Hok _ Hp) as (_ & _ & [|(i & cl & th & o & b & p & r & Hc & _ & Hr & _)]); [done|].
    apply (Forall_lookup_1 _ _ _ _ Hfin) in Hc as [_ Hc]. congruence. }
  assert (∀ i a, hist !! i = Some a → ∃ pt, pt ∈ pts ∧ place hist pt = i ∧ pt_op pt = op_input a ∧
    answers ok (op_input a) (pt_effect pt) (op_output a) ∧ (op_call a < pt_time pt)%Z ∧ (pt_time pt < op_finish a)%Z) as Hop.
  { intros i a Hi. destruct (so_history _ _ _ _ Hok a) as (pt & Hp & Hc & ? & ? & ?); [by eapply list_elem_of_lookup_2|].
    exists pt. split; [done|]. split; [|done]. by eapply same_place; [apply Hok|..]. }
  exists (place hist <$> pts). split.
  - unfold known. rewrite length_fmap. apply NoDup_Permutation; [|apply NoDup_seq|].
    + pose proof (so_pt_calls _ _ _ _ Hok) as Hd. apply NoDup_fmap_2_strong; [|by eapply NoDup_fmap_1].
      intros p q Hp Hq Heq. destruct (Hpt _ Hp) as (a & Ha & Hpa), (Hpt _ Hq) as (b & Hb & Hqb).
      eapply NoDup_fmap_elem; [exact Hd|done..|congruence].
    + intros i. rewrite list_elem_of_fmap, elem_of_seq. split.
      * intros (pt & -> & (a & Ha%lookup_lt_Some & _)%Hpt). fold hist. lia.
      * intros [_ Hi]. fold hist in Hi. destruct (lookup_lt_is_Some_2 hist i) as [a Ha]; [lia|].
        destruct (Hop _ _ Ha) as (pt & ? & ? & _). by exists pt.
  - eapply run_legal; [apply Hok|]. intros pt Hp. destruct (Hpt _ Hp) as (a & Ha & _).
    destruct (Hop _ _ Ha) as (q & Hq & Hpl & Ho & Hans & Hcall & Hret). assert (q = pt) as ->.
    { destruct (Hpt _ Hq) as (b & Hb & Hqb), (Hpt _ Hp) as (d & Hd & Hpd).
      eapply NoDup_fmap_elem; [apply Hok|done..|congruence]. }
    exists (known_op c hist a). split_and!; [by apply lookup_known; exists a|done|]. simpl.
    pose proof (list_elem_of_lookup_2 _ _ _ Ha) as Hin. destruct (may_miss c hist a) eqn:Hmiss; [done|]. intros r [= <-].
    unfold answers in Hans. destruct (ef_missed (pt_effect pt)) eqn:Hm; [|by apply Hok'].
    assert (may_miss c hist a = true); [|congruence].
    eapply sys_may_miss; [done..|by unfold answers; rewrite Hm|done|done].
  - intros i j (a' & b' & (a & Ha & ->)%lookup_known & (b & Hb & ->)%lookup_known & Hlt). cbn in Hlt.
    destruct (Hop _ _ Ha) as (p & Hp & <- & _ & _ & _ & Hpf).
    destruct (Hop _ _ Hb) as (q & Hq & <- & _ & _ & Hqc & _).
    destruct (before_sorted pts p q) as (k1 & k2 & -> & Hin); [apply Hok|done..|lia|].
    exists (place hist <$> k1), (place hist <$> k2). rewrite fmap_app. split; [done|]. by apply list_elem_of_fmap_2.
Qed.

(** What is left when all operations have returned and no client has a reader of its own:
    each reader is in the pool, or a [get] has lost it. *)
Lemma sys_readers G ths pts s : sys_ok G ths pts s → finished s → (∀ i, home i = None) →
  NoDup (w_pool (world s)) ∧ length (w_pool (world s)) + leaks (history s) = cap ∧
  ∀ n a, threads = Some n → n ≤ cap → a ∈ history s → cancels (op_input a) (op_output a) = true → 0 < leaks (history s).
Proof.
  intros Hok Hfin Hhome.
  assert (∀ i c th, clients s !! i = Some c → ths !! i = Some th → owned (th_view th) = None) as Hown.
  { intros i c th Hc Hth. pose proof (so_clients _ _ _ _ Hok _ _ _ Hc Hth) as H.
    apply (Forall_lookup_1 _ _ _ _ Hfin) in Hc as [_ Hr]. unfold client_ok in H. rewrite Hr in H.
    destruct H as (own & G0 & -> & H & _). cbn. by rewrite H, Hhome. }
  assert (owners ths = []) as Hnil.
  { destruct (owners ths) as [|r l] eqn:E; [done|]. assert (r ∈ owners ths) as Hr by (rewrite E; by left).
    apply list_elem_of_omap in Hr as (th & [i Hth]%list_elem_of_lookup & Hr).
    destruct (lookup_lt_is_Some_2 (clients s) i) as [c Hc]; [rewrite <-(so_length _ _ _ _ Hok); by eapply lookup_lt_Some|].
    cbn in Hr. by rewrite (Hown i c th) in Hr. }
  pose proof (so_owners _ _ _ _ Hok) as Hnd. pose proof (so_count _ _ _ _ Hok) as Hc. rewrite Hnil, app_nil_r in Hnd, Hc.
  split_and!; [done|done|]. intros n a Hn Hle Ha Hcan.
  destruct (so_lacking _ _ _ _ Hok n Hn Hle Hhome) as [(b & Hb & Hl)|(i & c & th & Hi & Hth & Ho & _)]; [right; eauto| |].
  - unfold leaks. destruct (filter _ (history s)) as [|x l] eqn:E; [|simpl; lia].
    assert (b ∈ filter (λ a, leaky (op_input a) (op_output a) = true) (history s)) as Hin by by apply list_elem_of_filter.
    rewrite E in Hin. by apply not_elem_of_nil in Hin.
  - rewrite (Hown _ _ _ Hi Hth) in Ho. by destruct Ho.
Qed.

(** As long as no compaction has begun, no [get] fails. *)
Lemma sys_no_compaction G ths pts s : sys_ok G ths pts s → kw_gen (w_writer (world s)) = gen0 → compacts G = false.
Proof.
  intros Hok Hg. unfold compacts. destruct (g_stay G) eqn:Hs; [done|].
  pose proof (ba_stay _ _ (in_base _ _ (so_inv _ _ _ _ Hok))) as H. unfold stay_ok in H. rewrite Hs, (so_gen0 _ _ _ _ Hok) in H. lia.
Qed.

Lemma sys_uncompacted G ths pts s a : sys_ok G ths pts s → kw_gen (w_writer (world s)) = gen0 → a ∈ history s →
  failed_get (op_input a) (op_output a) = false.
Proof.
  intros Hok Hg Ha. apply not_true_is_false. intros Hfa. pose proof (so_failed _ _ _ _ Hok _ Ha Hfa) as Hs.
  pose proof (sys_no_compaction _ _ _ _ Hok Hg) as H. unfold compacts in H. by rewrite Hs in H.
Qed.

(** ** Progress *)

(** A client that a thread runs returns, or takes its action unless it waits for the lock. *)
Lemma sys_runs G ths pts s i os o t b p : sys_ok G ths pts s → clients s !! i = Some (mkClient os (Some (o, t, b, p))) →
  (b = false → ∃ r, p = Done r) →
  (w_lock (world s) = Locked → ∃ th own w0 G0, ths !! i = Some th ∧ th_view th = Inside own w0 G0) →
  ∃ s', client_step i s = Some s'.
Proof.
  intros Hok Hc Hrun Hin. destruct (sys_thread _ _ _ _ _ _ Hok Hc) as [th Hth].
  unfold ConcHist.client_step. rewrite Hc. destruct p as [r|f].
  { destruct (sys_no_panic _ _ _ _ _ _ _ _ _ _ Hok Hc eq_refl) as [x ->]. destruct os, b; by eexists. }
  destruct b; [|by destruct (Hrun eq_refl)].
  pose proof (so_clients _ _ _ _ Hok _ _ _ Hc Hth) as (Hs & _).
  assert (tokens (th_view th) ≤ g_left G) as Htok.
  { pose proof (so_tokens _ _ _ _ Hok) as H.
    pose proof (tokens_insert ths (clients s) i th (mkThread (Outside Nothing G false) None) _ (mkClient os None) Hth Hc) as H1.
    simpl in H1. lia. }
  specialize (Hs _ _ (so_inv _ _ _ _ Hok) (so_sees _ _ _ _ Hok _ _ Hth) Htok (sys_place _ _ _ _ _ _ Hok Hth)).
  destruct (f (world s)) as [[w' p']|]; [by destruct os; eexists|].
  destruct Hs as (Hl & own & G0 & tk & Hv). destruct (Hin Hl) as (th' & own' & w0 & G1 & Hth' & Hv'). congruence.
Qed.

(** A thread inside is at an action that it can take. *)
Lemma sys_holder_step G ths pts s i th own w0 G0 : sys_ok G ths pts s → ths !! i = Some th → th_view th = Inside own w0 G0 →
  ∃ os o t p s', clients s !! i = Some (mkClient os (Some (o, t, true, p))) ∧ client_step i s = Some s'.
Proof.
  intros Hok Hth Hv. destruct (lookup_lt_is_Some_2 (clients s) i) as [[os run] Hc].
  { rewrite <-(so_length _ _ _ _ Hok). by eapply lookup_lt_Some. }
  pose proof (so_clients _ _ _ _ Hok _ _ _ Hc Hth) as Hcl. unfold client_ok in Hcl. cbn [running] in Hcl. rewrite Hv in Hcl.
  destruct run as [[[[o t] b] p]|]; [|by destruct Hcl as (? & ? & ? & _)].
  assert (b = true) as ->.
  { destruct b; [done|]. destruct Hcl as (_ & _ & _ & Hb & _). by destruct (Hb eq_refl) as (? & ? & ? & _). }
  edestruct sys_runs as [s' Hs']; [done|exact Hc|done|by eauto 10|]. by exists os, o, t, p, s'.
Qed.

#[export] Instance idle_dec c : Decision (idle c).
Proof. unfold idle. apply _. Defined.
#[export] Instance finished_dec s : Decision (finished s).
Proof. unfold finished. apply _. Defined.
#[local] Instance Lock_eq_dec : EqDecision Lock.
Proof. solve_decision. Defined.

(** When a thread runs an operation, some thread that runs one can go on. *)
Lemma sys_busy_step G ths pts s i os o t p : sys_ok G ths pts s → clients s !! i = Some (mkClient os (Some (o, t, true, p))) →
  ∃ j os' o' t' p' s', clients s !! j = Some (mkClient os' (Some (o', t', true, p'))) ∧ client_step j s = Some s'.
Proof.
  intros Hok Hc. destruct (decide (w_lock (world s) = Locked)) as [Hl|Hl].
  - destruct (so_holder _ _ _ _ Hok Hl) as (j & th & own & w & G0 & Hth & Hv). exists j. by eapply sys_holder_step.
  - edestruct sys_runs as [s' Hs']; [done|exact Hc|done|done|]. by exists i, os, o, t, p, s'.
Qed.

(** When no thread is free, one of those that run is there. *)
Lemma not_free s : (∀ n, threads = Some n → 0 < n) → thread_free threads s = false →
  ∃ i os o t f, clients s !! i = Some (mkClient os (Some (o, t, true, Act f))).
Proof.
  intros Hpos. unfold thread_free. destruct threads as [n|]; [|done]. intros Hlt%Nat.ltb_ge. specialize (Hpos n eq_refl).
  destruct (filter (λ c, busy c = true) (clients s)) as [|c l] eqn:Hf; [simpl in Hlt; lia|].
  assert (c ∈ filter (λ c, busy c = true) (clients s)) as Hin by (rewrite Hf; by left).
  apply list_elem_of_filter in Hin as [Hb [i Hi]%list_elem_of_lookup].
  destruct c as [os [[[[o t] [|]] [r|f]]|]]; try done. by exists i, os, o, t, f.
Qed.

Lemma sys_progress G ths pts s : (∀ n, threads = Some n → 0 < n) → sys_ok G ths pts s → finished s ∨ ∃ i s', client_step i s = Some s'.
Proof.
  intros Hpos Hok. destruct (decide (w_lock (world s) = Locked)) as [Hl|Hl].
  { destruct (so_holder _ _ _ _ Hok Hl) as (i & th & own & w & G0 & Hth & Hv). right. exists i. destruct (sys_holder_step _ _ _ _ _ _ _ _ _ Hok Hth Hv) as (? & ? & ? & ? & s' & _ & ?). by exists s'. }
  destruct (decide (finished s)) as [|Hfin]; [by left|right].
  apply not_Forall_Exists, Exists_exists in Hfin as ([os run] & Hin & Hidle); [|apply _].
  apply list_elem_of_lookup in Hin as [i Hc]. destruct run as [[[[o t] b] p]|].
  - destruct b; [exists i; by eapply sys_runs|]. destruct p as [r|f]; [exists i; eapply sys_runs; [done|exact Hc|by eauto|done]|].
    destruct (thread_free threads s) eqn:Hfree.
    { exists i. unfold ConcHist.client_step. rewrite Hc, Hfree. destruct os; by eexists. }
    destruct (not_free s Hpos Hfree) as (j & os' & o' & t' & f' & Hj). exists j. by eapply sys_runs.
  - exists i. unfold ConcHist.client_step. rewrite Hc. destruct os as [|o os]; [by destruct Hidle|]. by eexists.
Qed.

(** ** The start *)

Definition inos (d : Disk) (C : gmap N (list Command)) : gmap N nat :=
  map_imap (λ g _, match dir d !! log_path g with Some (FileEnt h) => Some h | _ => None end) C.

Lemma lookup_inos d C g h : disk_ok d C → inos d C !! g = Some h ↔ log_names d g h.
Proof.
  intros [Hwf Hv]. unfold inos, log_names. rewrite map_lookup_imap. split.
  - destruct (C !! g) as [cs|] eqn:Hg; [simpl|done]. intros H. split; [|by destruct (dir d !! log_path g) as [[]|]; simplify_eq].
    apply (lv_bound _ _ Hv). rewrite lookup_fmap, Hg. by eexists.
  - intros [Hg Hn]. destruct (wf_inode _ Hwf _ _ Hn) as [c Hc].
    assert (file d g = Some c) as Hf by (unfold file; by rewrite Hn). rewrite (lv_file _ _ Hv g Hg), lookup_fmap in Hf.
    destruct (C !! g); [|done]. simpl. by rewrite Hn.
Qed.

Definition ghost (w : World) (C : gmap N (list Command)) (n : nat) : Ghost :=
  mkGhost (meaning C) (encode_log <$> C) (inos (w_disk w) C) n (kw_gen (w_writer w)) (Some (blen <$> (encode_log <$> C))) None.

(** A store that no compaction has run on, with handles on logs only. *)
Record fresh (w : World) : Prop := {
  fr_lock : w_lock w = Unlocked;
  fr_safe : w_safe_point w = 0%N;
  fr_handles : ∀ h g r, handles h w !! g = Some r → (g <= U64_MAX)%N;
}.

Lemma fresh_handle w C h g r : crep w C → fresh w → handles h w !! g = Some r → log_names (w_disk w) g (rd_ino r).
Proof.
  intros Hr Hf Hg. split; [by eapply fr_handles|]. eapply crep_handles; [done..|]. rewrite (fr_safe _ Hf). lia.
Qed.

Lemma crep_ready w C n : crep w C → fresh w → ready (ghost w C n) w.
Proof.
  intros Hr Hf. pose proof (crep_disk _ _ Hr) as Hd. pose proof (lookup_inos (w_disk w) C) as Hino.
  assert (∀ g h, log_names (w_disk w) g h → (encode_log <$> C) !! g = inodes (w_disk w) !! h) as Hfile.
  { intros g h [Hg Hn]. rewrite <-(lv_file _ _ (ok_view _ _ Hd) g Hg). unfold file. by rewrite Hn. }
  assert (∀ g, is_Some ((encode_log <$> C) !! g) → ∃ h, log_names (w_disk w) g h) as Hdom.
  { intros g [c Hc]. assert ((g <= U64_MAX)%N) as Hg by (by eapply (lv_bound _ _ (ok_view _ _ Hd)); eexists).
    rewrite <-(lv_file _ _ (ok_view _ _ Hd) g Hg) in Hc. unfold file in Hc.
    destruct (dir (w_disk w) !! log_path g) as [[h|]|] eqn:Hn; simplify_eq. by exists h. }
  split; simpl.
  - split; simpl.
    + apply Hd.
    + intros g h Hn. by apply Hino.
    + intros g h Hn%Hino; [|done]. destruct (wf_inode _ (ok_wf _ _ Hd) _ _ (proj2 Hn)) as [c Hc].
      exists c, []. by rewrite app_nil_r, (Hfile g h).
    + intros g g' h Hn%Hino Hn'%Hino; [|done..].
      apply log_path_inj. eapply (wf_inj _ (ok_wf _ _ Hd)); [apply Hn|apply Hn'].
    + intros g [h Hn%Hino]; [|done]. apply Hn.
    + intros g (h & Hn)%Hdom. exists h. by apply Hino.
    + apply Hr.
    + intros g r Hg. apply Hino; [done|]. by apply (fresh_handle _ _ WriterReader _ _ Hr Hf).
    + split_and!; [done| |].
      * intros g x Hx. rewrite lookup_fmap in Hx. destruct ((encode_log <$> C) !! g) as [c|] eqn:Hc; [|done]. injection Hx as <-.
        destruct (Hdom g (mk_is_Some _ _ Hc)) as [h Hn]. exists h, c. rewrite <-Hc. split_and!; [done|by rewrite (Hfile g h)|lia].
      * intros k p Hp. destruct (index_ok_lookup _ _ _ _ _ (crep_index _ _ Hr) Hp) as (v & _ & c & Hc & Hle & _).
        exists (blen c). by rewrite lookup_fmap, Hc.
  - done.
  - done.
  - intros k p Hk. destruct (index_ok_lookup _ _ _ _ _ (crep_index _ _ Hr) Hk) as (v & _ & c & Hc & _).
    apply Hdom. by eexists.
  - intros g [h Hn%Hino]; [|done]. eapply crep_newest; [done|]. pose proof (Hfile _ _ Hn) as H.
    destruct (wf_inode _ (ok_wf _ _ Hd) _ _ (proj2 Hn)) as [c Hc]. rewrite Hc, lookup_fmap in H.
    by destruct (C !! g); [eexists|].
  - split; [|apply Hr]. destruct (crep_pos _ _ Hr) as (cs & Hcs & _).
    apply (lv_bound _ _ (ok_view _ _ Hd)). rewrite lookup_fmap, Hcs. by eexists.
  - apply Hr.
  - destruct (crep_pos _ _ Hr) as (cs & Hcs & ->). unfold content.
    rewrite <-(Hfile (kw_gen (w_writer w))); [by rewrite lookup_fmap, Hcs|]. split; [|apply Hr].
    apply (lv_bound _ _ (ok_view _ _ Hd)). rewrite lookup_fmap, Hcs. by eexists.
Qed.

(** What the thread of a client knows at the start. *)
Definition first_own (w : World) (i : nat) : hold :=
  match home i with Some r => Holds r (default ∅ (w_readers w !! r)) | None => Nothing end.

Definition initial_threads (w : World) (G : Ghost) (ops : list (list Op)) : list Thread :=
  imap (λ i _, mkThread (Outside (first_own w i) G false) None) ops.

Lemma first_own_reader w i : reader_of (first_own w i) = home i ∧ first_own w i ≠ Starved.
Proof. unfold first_own. by destruct (home i). Qed.

Lemma initial_owners w G ops : owners (initial_threads w G ops) = omap home (seq 0 (length ops)).
Proof.
  unfold initial_threads, owners. assert (∀ k, omap (owned ∘ th_view) (imap (λ i _, mkThread (Outside (first_own w (k + i)) G false) None) ops)
    = omap home (seq k (length ops))) as H; [|exact (H 0)].
  induction ops as [|os ops' IH]; intros k; [done|]. rewrite imap_cons. cbn [omap list_omap seq length compose th_view owned].
  rewrite Nat.add_0_r, (proj1 (first_own_reader w k)), <-(IH (S k)).
  rewrite (imap_ext _ (λ i _, mkThread (Outside (first_own w (S k + i)) G false) None)); [done|].
  intros i x _. simpl. by rewrite Nat.add_succ_r.
Qed.

Lemma sys_start w C ops : crep w C → fresh w → m0 = meaning C → gen0 = kw_gen (w_writer w) →
  let n := sum_list (length <$> ops) in room n w →
  NoDup (w_pool w ++ omap home (seq 0 (length ops))) → length (w_pool w ++ omap home (seq 0 (length ops))) = cap →
  sys_ok (ghost w C n) (initial_threads w (ghost w C n) ops) [] (start w ops).
Proof.
  intros Hr Hf Hm Hgen0 n Hroom Hnd Hcap. set (G := ghost w C n). pose proof (crep_ready w C n Hr Hf) as Hready.
  assert (∀ i th, initial_threads w G ops !! i = Some th → th = mkThread (Outside (first_own w i) G false) None) as Hth.
  { intros i th. unfold initial_threads. rewrite list_lookup_imap. destruct (ops !! i); simpl; congruence. }
  assert (∀ i c, (λ os, mkClient os None) <$> ops !! i = Some c → running c = None) as Hcl.
  { intros i c. destruct (ops !! i); simpl; [by intros [= <-]|done]. }
  split; cbn [world now clients history start].
  - split; simpl; [apply Hready| |by rewrite (fr_lock _ Hf)|done].
    intros i hs g r Hi Hg. apply lookup_inos; [apply Hr|]. eapply (fresh_handle w C (Reader i)); [done..|]. simpl. by rewrite Hi.
  - unfold initial_threads. by rewrite length_imap, length_fmap.
  - intros i th ->%Hth. split; [|done]. unfold first_own. intros r hs. destruct (home i); [|done]. by intros [= <- <-].
  - intros i c th Hc ->%Hth. rewrite list_lookup_fmap in Hc. unfold client_ok. rewrite (Hcl i c) by done. simpl.
    destruct (first_own_reader w i). by eauto.
  - intros i j th th' own1 w1 G1 own2 w2 G2 ->%Hth ->%Hth. done.
  - rewrite (fr_lock _ Hf). done.
  - assert (sum_list ((tokens ∘ th_view) <$> initial_threads w G ops) = 0) as ->.
    { clear. unfold initial_threads. rewrite fmap_imap. generalize (first_own w) as rs.
      intros rs. revert rs. induction ops as [|os ops' IH]; intros rs; [done|]. rewrite imap_cons. simpl. apply (IH (rs ∘ S)). }
    rewrite <-list_fmap_compose. done.
  - by rewrite initial_owners.
  - rewrite initial_owners, Hcap. unfold leaks. simpl. lia.
  - intros k _. clear. induction ops as [|os ops' IH]; simpl; [lia|done].
  - intros k _ _ _ [(i & th & ->%Hth & Hs)|(a & Ha & _)]; [|by apply not_elem_of_nil in Ha].
    exfalso. cbn in Hs. by destruct (first_own w i) eqn:E; try done; destruct (first_own_reader w i).
  - intros i j c c' o o' t b b' p p' Hc _ Hrun. rewrite list_lookup_fmap in Hc. rewrite (Hcl i c) in Hrun by done. done.
  - constructor.
  - by intros a ?%not_elem_of_nil.
  - by intros a ?%not_elem_of_nil.
  - by intros a ?%not_elem_of_nil.
  - constructor.
  - constructor.
  - by rewrite Hm.
  - done.
  - by intros pt ?%not_elem_of_nil.
  - done.
  - by intros a ?%not_elem_of_nil.
Qed.
End system.
