(* ===== verification/P5Clients.v ===== *)
(** * The clients of project-5

    A client of project-5 hands each operation as a job to the thread pool of the store
    and waits for the answer of the future. What the jobs rely on and guarantee is that of
    the threads of project-4; what is new is that a [get] takes its reader from a queue,
    and that it may not put it back. *)

From S2P Require Import Prelude Fs Command KvsEngine LogTheory KvStore KvStoreSpec Conc ConcStore ConcStoreSpec P5Store ConcHist ConcInv ConcWriter ConcThread.

(** ** What the store promises *)

(** As in project-4, and a [get] may be answered by the error of a job that panicked. *)
Definition reply_ok5 (canceled : string) (o : Op) (r0 r : Reply KvsError) : bool :=
  match o, r with
  | OpGet _, RError (StringError e) => bool_decide (e = canceled)
  | _, _ => reply_ok o r0 r
  end.

(** A [get] whose job panicked. *)
Definition canceled_get (o : Op) (r : Reply KvsError) : bool :=
  match o, r with
  | OpGet _, RError (StringError _) => true
  | _, _ => false
  end.

(** No client has a reader of its own. *)
Definition no_home (i : nat) : option nat := None.

Section code.
Context `{!SerdeJson Command} {policy : BufWriterPolicy}.

(** The future of a job that runs among others: the channel carries what it returns, and
    the receiver reports that its sender is gone when it panics. *)
Fixpoint awaited {A} (canceled : string) (p : WP A) : WP A :=
  match p with
  | Done r => Done (P5.future canceled r)
  | Act f => Act (λ w, match f w with Some (w', p') => Some (w', awaited canceled p') | None => None end)
  end.

Definition job5 (canceled : string) (concurrency : nat) (i : nat) (o : Op) : WP (Reply KvsError) :=
  match o with
  | OpSet k v => r ← result (awaited canceled (P5.set_job k v)); mret (reply_of (λ _, RDone) r)
  | OpGet k => r ← result (awaited canceled (P5.get_job concurrency k)); mret (reply_of RValue r)
  | OpRemove k => r ← result (awaited canceled (P5.remove_job k)); mret (reply_of (λ _, RDone) r)
  end.
End code.

(** ** The queue of readers *)

Section thread.
Context `{!SerdeJson Command} `{!SerdeLaws Command} `{!SerdeCut Command} {policy : BufWriterPolicy}.

Section op.
Context (o : Op) (cap : nat).

Lemma safe_awaited {A} canceled v (p : WP A) st post :
  safe o cap v p st (λ r v st, post (P5.future canceled r) v st) → safe o cap v (awaited canceled p) st post.
Proof.
  revert v st. induction p as [r|f IH] using prog_ind; intros v st; [done|]. simpl.
  intros Hp w G Hi Hs Ht Hpl. specialize (Hp w G Hi Hs Ht Hpl). destruct (f w) as [[w' p']|] eqn:Hf; [|done].
  destruct Hp as (v' & G' & st' & ? & ? & ? & ? & Hp). exists v', G', st'. split_and!; try done. by eapply IH.
Qed.

Lemma inv_pool G w f : inv G w → inv G (set_pool f w).
Proof. intros Hi. apply (inv_locals G w (w_readers w, f (w_pool w)) Hi), Hi. Qed.

(** A thread takes the first reader, or panics when there is none. *)
Lemma safe_pop {B} (k : nat → WP B) G0 tok st post :
  (∀ r hs G, extends G0 G → safe o cap (Outside (Holds r hs) G tok) (k r) st post) →
  (∀ G, post Panic (Outside Starved G tok) st) →
  safe o cap (Outside Nothing G0 tok) (atomic P5.pool_pop ≫= k) st post.
Proof.
  intros Hk Hpanic. apply safe_bind. intros w G Hi [_ Hx] Ht _. unfold P5.pool_pop, gets, mbind, M_bind.
  destruct (w_pool w) as [|r q] eqn:Hq.
  - exists (Outside Starved G tok), G, st. split_and!; [done|done| |by apply effect_keep|apply Hpanic].
    split; [done|done|by apply moves_not|by right|]. by rewrite with_locals_same.
  - set (w' := set_pool (λ _, q) w).
    exists (Outside (Holds r (default ∅ (w_readers w !! r))) G tok), G, st.
    split_and!; [by apply inv_pool| | |by apply effect_keep|by apply Hk].
    + split; [|done]. by intros r0 hs [= <- <-].
    + split; [done|done|by eapply moves_take|done|done].
Qed.

(** It puts its reader back: there is a place for it. *)
Lemma safe_push {B} (k : unit → WP B) r hs G0 tok st post :
  (∀ G, safe o cap (Outside Nothing G tok) (k tt) st post) →
  safe o cap (Outside (Holds r hs) G0 tok) (atomic (P5.pool_push cap r) ≫= k) st post.
Proof.
  intros Hk. apply safe_bind. intros w G Hi [_ Hx] Ht Hpl. unfold P5.pool_push, gets, mbind, M_bind.
  specialize (Hpl (ex_intro _ r eq_refl)). apply Nat.ltb_lt in Hpl as ->.
  exists (Outside Nothing G tok), G, st. split_and!; [by apply inv_pool|done| |by apply effect_keep|apply Hk].
  split; [done|done|by apply moves_give|done|done].
Qed.
End op.

(** ** The jobs *)

Lemma job5_safe canceled cap i o own G : reader_of own = None → own ≠ Starved →
  safe o cap (Outside own G true) (job5 canceled cap i o) None
    (op_post (reply_ok5 canceled) failed_get canceled_get None o).
Proof.
  intros Hown Hst. assert (own = Nothing) as -> by by destruct own.
  destruct o as [k v|k|k]; apply safe_bind, safe_result, safe_awaited.
  - apply safe_with_lock; [intros; by apply set_under_lock|].
    intros own' G' r r0 Hown' Hr. destruct r as [[]|e| |]; subst; try done; cbn; do 5 eexists; split_and!; try done; by apply bool_decide_true.
  - apply (safe_index _ _ k); [done| | |done].
    + intros G' r e Hr. cbn. do 5 eexists. split_and!; try done. by apply answers_none.
    + intros G' p v He Hst'. apply safe_pop.
      2:{ intros G''. cbn. do 5 eexists. split_and!; try done; by apply bool_decide_true. }
      intros r hs G1 Hx. apply (safe_read_command _ _ _ k v); [by eapply entry_extends|by eapply still_extends|..].
      * intros hs' G''. apply safe_push. intros G2. cbn. do 5 eexists. split_and!; try done; by apply bool_decide_true.
      * intros hs' G'' e Hs [->|[e' ->]]; cbn; do 5 eexists; split_and!; by eauto.
  - apply safe_with_lock; [intros; by apply remove_under_lock|].
    intros own' G' r r0 Hown' Hr. destruct r as [[]|e| |]; subst; try done; cbn; do 5 eexists; split_and!; try done; by apply bool_decide_true.
Qed.
End thread.
