(* ===== verification/LinTheorems.v ===== *)
(** * Properties of the linearizability checker *)

From stdpp Require Import relations.
From S2P Require Import Prelude Bitset Popcount Lin LinHeap LinSearch LinSpec LinOps LinCheck KvModel KvLocal.

(** ** Two histories to evaluate on

    A client puts "x", then "y"; a read that overlaps the second put sees "y", and one that
    begins after both sees "x", which no order explains. *)

Definition kv_op (o : Op) (v r : string) (c f : Z) : KvOperation :=
  mkOp (mkKvInput o "k" v) c (mkKvOutput r) f.

Definition good_history : list KvOperation :=
  [kv_op PUT "x" "" 0 10; kv_op PUT "y" "" 11 20; kv_op GET "" "y" 12 14].

Definition bad_history : list KvOperation :=
  [kv_op PUT "x" "" 0 10; kv_op PUT "y" "" 11 20; kv_op GET "" "x" 21 23].

Example check_good : check_single 100 (from_entries (make_entries good_history)) (λ _, false) = Ok true.
Proof. vm_compute. reflexivity. Qed.

Example check_bad : check_single 100 (from_entries (make_entries bad_history)) (λ _, false) = Ok false.
Proof. vm_compute. reflexivity. Qed.

Lemma good_in_time : in_time good_history.
Proof. intros a. unfold good_history. rewrite !elem_of_cons. intros [->|[->|[->|?%not_elem_of_nil]]]; simpl; lia. Qed.

Section theorems.
Context {St Inp Out : Type} `{!Model St Inp Out}.
Implicit Types (h : Heap Inp Out).

(** [lift] takes a call and its return out of the list of entries, and [unlift] then
    puts back exactly the heap there was, wherever the two stand in the list. *)
Theorem lift_unlift h (l l2 l3 : list ptr) (a e m : ptr) (n : Node Inp Out) :
  dll h (l ++ a :: e :: l2 ++ m :: l3) → h !! e = Some n → n_matched n = Some m →
  ∃ h', lift e h = (Ok tt, h') ∧ dll h' (l ++ a :: l2 ++ l3) ∧ unlift e h' = (Ok tt, h).
Proof.
  intros Hd He Hm. exists (lifted a l2 m l3 h). split_and!.
  - by eapply lift_run.
  - by apply (lifted_dll _ _ _ e).
  - by eapply unlift_run.
Qed.

(** C12: on a complete history the search returns after finitely many rounds, whatever
    [kill] holds. It answers [true] only if the history is linearizable, and [false] on a
    linearizable history only if it was told to stop. *)
Theorem check_single_correct (es : list (Entry (Value Inp Out))) (kill : nat → bool) :
  (∀ s1 s2 : St, equal s1 s2 = true ↔ s1 = s2) → complete es →
  ∃ k0, ∀ k, k0 ≤ k → ∃ b, check_single k (from_entries es) kill = Ok b ∧
    (b = true → linearizable es) ∧ (b = false → linearizable es → ∃ i, kill i = true).
Proof. intros Heq Hes. by apply check_single_ok. Qed.

Lemma check_operations_ok (parts : list (list (Operation Inp Out))) :
  (∀ s1 s2 : St, equal s1 s2 = true ↔ s1 = s2) → parts ≠ [] → (∀ sub, sub ∈ parts → in_time sub) →
  let w0 := spawned (spawn_operations parts) in
  (∃ m, ∀ n w, nsteps (check_step false) n w0 w → n ≤ m) ∧
  ∀ w, rtc (check_step false) w0 w →
    ((∃ res, returned w res) ∨ ∃ w', check_step false w w') ∧
    (∀ res, returned w res → (res = true ↔ ∀ sub, sub ∈ parts → ops_linearizable sub)).
Proof.
  intros Heq Hne Ht.
  assert (spawn_operations parts = from_entries <$> (make_entries <$> parts)) as ->.
  { unfold spawn_operations. by rewrite <-list_fmap_compose. }
  destruct (spawned_ok Heq (make_entries <$> parts) false) as [Hm Hw].
  { by destruct parts. }
  { intros es (sub & -> & Hs)%list_elem_of_fmap. by apply make_entries_complete, Ht. }
  split; [exact Hm|]. intros w Hr. destruct (Hw w Hr) as [Hp Hres]. split; [done|].
  intros res Hret. destruct (Hres res Hret) as [Hf Htr]. split.
  - intros ->  sub Hs. apply make_entries_linearizable, Htr; [done|done|]. by apply list_elem_of_fmap_2.
  - intros Hall. destruct res; [done|]. destruct (Hf eq_refl) as (es & (sub & -> & Hs)%list_elem_of_fmap & Hn).
    destruct Hn. by apply make_entries_linearizable, Hall.
Qed.

(** C6: a check of operations without a timeout, with a thread for each part of the
    history, in any interleaving: it is never stuck, every run ends, no thread panics, and
    the call returns [true] exactly when each part is linearizable. *)
Theorem check_operations_correct (parts : list (list (Operation Inp Out))) :
  (∀ s1 s2 : St, equal s1 s2 = true ↔ s1 = s2) → parts ≠ [] → (∀ sub, sub ∈ parts → in_time sub) →
  let w0 := spawned (spawn_operations parts) in
  (∃ m, ∀ n w, nsteps (check_step false) n w0 w → n ≤ m) ∧
  ∀ w, rtc (check_step false) w0 w →
    ((∃ res, returned w res) ∨ ∃ w', check_step false w w') ∧
    (∀ res, returned w res → (res = true ↔ ∀ sub, sub ∈ parts → ops_linearizable sub)).
Proof. apply check_operations_ok. Qed.

Lemma check_events_ok (parts : list (list (Event (Value Inp Out)))) (timed : bool) :
  (∀ s1 s2 : St, equal s1 s2 = true ↔ s1 = s2) → parts ≠ [] →
  (∀ sub, sub ∈ parts → matched (convert_entries sub)) →
  let w0 := spawned (spawn_events parts) in
  (∃ m, ∀ n w, nsteps (check_step timed) n w0 w → n ≤ m) ∧
  ∀ w, rtc (check_step timed) w0 w →
    ((∃ res, returned w res) ∨ ∃ w', check_step timed w w') ∧
    (∀ res, returned w res →
      (res = false → ∃ sub, sub ∈ parts ∧ ¬ linearizable (convert_entries sub)) ∧
      (res = true → timed = false → ∀ sub, sub ∈ parts → linearizable (convert_entries sub))).
Proof.
  intros Heq Hne Ht.
  assert (spawn_events parts = from_entries <$> ((λ sub, convert_entries (renumber sub)) <$> parts)) as ->.
  { unfold spawn_events. by rewrite <-list_fmap_compose. }
  destruct (spawned_ok Heq ((λ sub, convert_entries (renumber sub)) <$> parts) timed) as [Hm Hw].
  { by destruct parts. }
  { intros es (sub & -> & Hs)%list_elem_of_fmap. by apply renumber_ok, Ht. }
  split; [exact Hm|]. intros w Hr. destruct (Hw w Hr) as [Hp Hres]. split; [done|].
  intros res Hret. destruct (Hres res Hret) as [Hf Htr]. split.
  - intros Hres'. destruct (Hf Hres') as (es & (sub & -> & Hs)%list_elem_of_fmap & Hn).
    exists sub. split; [done|]. by rewrite <-(proj2 (renumber_ok sub (Ht _ Hs))).
  - intros Hrt Htm sub Hs. apply (renumber_ok sub (Ht _ Hs)), Htr; [done|done|].
    apply list_elem_of_fmap. eauto.
Qed.

(** C34: a check of events, with or without a timeout: it is never stuck and every run ends;
    [false] is always right, and [true] is right when there is no timeout. *)
Theorem check_events_correct (parts : list (list (Event (Value Inp Out)))) (timed : bool) :
  (∀ s1 s2 : St, equal s1 s2 = true ↔ s1 = s2) → parts ≠ [] →
  (∀ sub, sub ∈ parts → matched (convert_entries sub)) →
  let w0 := spawned (spawn_events parts) in
  (∃ m, ∀ n w, nsteps (check_step timed) n w0 w → n ≤ m) ∧
  ∀ w, rtc (check_step timed) w0 w →
    ((∃ res, returned w res) ∨ ∃ w', check_step timed w w') ∧
    (∀ res, returned w res →
      (res = false → ∃ sub, sub ∈ parts ∧ ¬ linearizable (convert_entries sub)) ∧
      (res = true → timed = false → ∀ sub, sub ∈ parts → linearizable (convert_entries sub))).
Proof. apply check_events_ok. Qed.

(** [kill] is only stored for a caller that answers [false]. *)
Lemma kill_main (ls : list (LinkedNodes Inp Out)) timed w : rtc (check_step timed) (spawned ls) w →
  kill w = true → main w = Joining false.
Proof.
  intros Hs. remember (spawned ls) as w0 eqn:Hw0.
  assert (kill w0 = true → main w0 = Joining false) as H by (by rewrite Hw0). clear Hw0.
  induction Hs as [w|w w1 w2 Hs _ IH]; [done|]. apply IH. clear IH.
  destruct Hs as [w i hd s Hi|w count ok b rx Hm Hc|w count ok Ht Hm]; simpl; [done|..].
  - intros Hk. destruct (kill w) eqn:Hkw; [rewrite H in Hm; done|]. unfold main_receives, receive in *.
    destruct (ok && b) eqn:Hb; simpl in *; [|done]. destruct count as [|count]; simpl in *; [done|].
    by destruct (count =? 0).
  - destruct (kill w) eqn:Hkw; [rewrite H in Hm; done|done].
Qed.

(** a call that gives up waiting does not stop the threads: [kill] is not stored, and
    the call, which joins them, only returns when each has finished its search. *)
Theorem timeout_does_not_stop (ls : list (LinkedNodes Inp Out)) w w' :
  rtc (check_step true) (spawned ls) w → main w = Joining true → rtc (check_step true) w w' →
  kill w' = false ∧ main w' = Joining true.
Proof.
  intros Hs Hm Hs'. assert (main w' = Joining true) as Hm'.
  { clear Hs. induction Hs' as [|w w1 w2 Hstep _ IH]; [done|]. apply IH. inversion Hstep; subst; simpl; congruence. }
  split; [|done]. destruct (kill w') eqn:Hk; [|done].
  rewrite (kill_main ls true w') in Hm'; [done|by etrans|done].
Qed.
End theorems.

(** C14: for the key-value model, checking the parts that [partition] makes, in whatever
    order the map of keys is walked, is checking the whole store: the answer is [true]
    exactly when the operations on all keys together are linearizable. *)
Theorem kv_check_store (order : list (string * list KvOperation) → list (string * list KvOperation))
    (history : list KvOperation) (w : Check string KvInput KvOutput) (res : bool) :
  (∀ l, order l ≡ₚ l) → history ≠ [] → in_time history →
  rtc (check_step false) (spawned (spawn_operations (partition order history))) w → returned w res →
  (res = true ↔ ops_linearizable (St:=gmap string string) history).
Proof.
  intros Ho Hne Ht Hs Hr. destruct (check_operations_ok (partition order history) kv_equal_spec) as [_ Hw].
  - intros Hnil. destruct history as [|a history]; [done|].
    apply (not_elem_of_nil (part (op_key a) (a :: history))). rewrite <-Hnil. apply elem_of_partition; [done|].
    exists (op_key a). split; [done|]. unfold part. by rewrite filter_cons_True.
  - intros sub (k & -> & _)%(elem_of_partition _ _ _ Ho) a [_ Ha]%list_elem_of_filter. by apply Ht.
  - rewrite (proj2 (Hw w Hs) res Hr), (store_local history Ht). split; intros Hall.
    + intros k Hk. apply Hall, elem_of_partition; [done|]. by exists k.
    + intros sub (k & -> & Hk)%(elem_of_partition _ _ _ Ho). by apply Hall.
Qed.

(** the check of an empty history with the key-value model never returns: there is no
    part, so no thread that could send a result. *)
Theorem empty_history_blocks (order : list (string * list KvOperation) → list (string * list KvOperation)) :
  (∀ l, order l ≡ₚ l) →
  let w0 : Check string KvInput KvOutput := spawned (spawn_operations (partition order [])) in
  (∀ w, ¬ check_step false w0 w) ∧ ∀ res, ¬ returned w0 res.
Proof.
  intros Ho w0. assert (w0 = mkCheck [] [] false (Waiting 0 true)) as ->.
  { unfold w0, partition. assert (order (map_to_list (group [])) = []) as ->; [|done].
    apply Permutation_nil. by rewrite Ho. }
  split; [|by intros res [? _]]. intros w Hs. inversion Hs; subst; simplify_eq/=.
Qed.

(** The bits of the words are the numbers of the set. *)
Lemma Nsum_bits (B : gset nat) (b : Bitset) o :
  (∀ i v j, b !! i = Some v → j < 64 → N.testbit v (N.of_nat j) = bool_decide (o + (64 * i + j) ∈ B)) →
  Nsum (count_bits 64) b = Nsum (λ x, N.b2n (bool_decide (x ∈ B))) (seq o (64 * length b)).
Proof.
  revert o. induction b as [|v b IH]; intros o Hb; [done|].
  replace (64 * length (v :: b)) with (64 + 64 * length b) by (simpl; lia).
  rewrite seq_app, Nsum_app. cbn [Nsum foldr]. f_equal.
  - unfold count_bits. rewrite <-(Nat.add_0_r o), <-(fmap_add_seq o 0 64) at 1. rewrite Nsum_fmap.
    apply Nsum_ext. intros j Hj%elem_of_seq. rewrite (Hb 0 v j) by (done || lia). do 2 f_equal.
  - apply IH. intros i w j Hi Hj. rewrite (Hb (S i) w j Hi Hj). apply bool_decide_ext.
    replace (o + 64 + (64 * i + j)) with (o + (64 * S i + j)) by lia. done.
Qed.

(** [popcnt] of a bit set is the number of its elements. *)
Theorem popcnt_size (n : nat) (b : Bitset) (B : gset nat) : holds n b B → popcnt b = N.of_nat (size B).
Proof.
  intros Hb. rewrite popcnt_sum. rewrite (Nsum_ext _ (count_bits 64)).
  2: { intros v Hv. by apply popcnt_word_bits, (holds_word _ _ _ Hb). }
  rewrite (Nsum_bits B b 0); [|apply (holds_bit _ _ _ Hb)].
  assert (∀ l, Nsum (λ x, N.b2n (bool_decide (x ∈ B))) l = N.of_nat (length (filter (.∈ B) l))) as ->.
  { induction l as [|x l IH]; [done|]. cbn [Nsum foldr]. fold (Nsum (λ x, N.b2n (bool_decide (x ∈ B))) l).
    rewrite IH. destruct (decide (x ∈ B)) as [Hx|Hx].
    - rewrite filter_cons_True, bool_decide_eq_true_2 by done. cbn [length N.b2n]. lia.
    - by rewrite filter_cons_False, bool_decide_eq_false_2 by done. }
  f_equal. unfold size, set_size. simpl. apply Permutation_length, NoDup_Permutation.
  - apply NoDup_filter, NoDup_seq.
  - apply NoDup_elements.
  - intros x. rewrite list_elem_of_filter, elem_of_elements, elem_of_seq. split; [by intros []|].
    intros Hx. split; [done|]. split; [lia|]. pose proof (holds_bound _ _ _ Hb x Hx) as Hn.
    destruct (holds_lookup _ _ _ _ Hb Hn) as [v Hv%lookup_lt_Some].
    pose proof (Nat.div_mod_eq x 64). pose proof (Nat.mod_upper_bound x 64). lia.
Qed.

(** ** Concrete inputs *)

Definition one_put : KvOperation := kv_op PUT "x" "" 0 10.

Definition one_heap : Heap KvInput KvOutput := s_heap (setup (from_entries (make_entries [one_put]))).2.

Lemma lift_unlift_witness : ∃ h', lift 1 one_heap = (Ok tt, h') ∧ dll h' [2] ∧ unlift 1 h' = (Ok tt, one_heap).
Proof.
  eapply (lift_unlift one_heap [] [] [] 2 1 0).
  - split; [|by repeat (constructor; [set_solver|]); constructor]. simpl.
    split_and!; [..|done]; eexists; (split; [vm_compute; reflexivity|split; vm_compute; reflexivity]).
  - vm_compute. reflexivity.
  - reflexivity.
Defined.

Lemma check_single_correct_witness : ∃ k0, ∀ k, k0 ≤ k → ∃ b,
  check_single k (from_entries (make_entries good_history)) (λ _, false) = Ok b ∧
  (b = true → linearizable (make_entries good_history)) ∧
  (b = false → linearizable (make_entries good_history) → ∃ i : nat, false = true).
Proof.
  apply (check_single_correct (make_entries good_history) (λ _, false)); [apply kv_equal_spec|].
  apply make_entries_complete, good_in_time.
Defined.

Lemma check_operations_correct_witness :
  ∃ m, ∀ n w, nsteps (check_step false) n (spawned (spawn_operations [good_history])) w → n ≤ m.
Proof.
  apply (check_operations_correct [good_history]); [apply kv_equal_spec|done|].
  intros sub ->%list_elem_of_singleton. apply good_in_time.
Defined.

Definition one_event : list KvEvent :=
  [mkEvent CallEvent (Input (op_input one_put)) 7; mkEvent ReturnEvent (Output (op_output one_put)) 7].

Lemma one_event_matched : matched (convert_entries one_event).
Proof.
  split.
  - intros [|[|i]] e He Hk; simplify_eq/=. eexists _, 1, _, _. split_and!; try done; lia.
  - intros [|[|j]] e He Hk; simplify_eq/=. eexists 0, _. split; [lia|done].
  - intros [|[|i]] [|[|j]] e e' He He' Hk Hi; by simplify_eq/=.
Qed.

Lemma check_events_correct_witness :
  ∃ m, ∀ n w, nsteps (check_step true) n (spawned (spawn_events [one_event])) w → n ≤ m.
Proof.
  apply (check_events_correct [one_event] true); [apply kv_equal_spec|done|].
  intros sub ->%list_elem_of_singleton. apply one_event_matched.
Defined.

Lemma timeout_does_not_stop_witness :
  let w0 : Check string KvInput KvOutput := spawned (spawn_operations [good_history]) in
  kill (mkCheck (workers w0) [] false (Joining true)) = false.
Proof.
  intros w0. apply (timeout_does_not_stop (spawn_operations [good_history])
    (mkCheck (workers w0) [] false (Joining true)) (mkCheck (workers w0) [] false (Joining true))).
  - apply rtc_once. by apply (step_timeout true w0 1 true).
  - reflexivity.
  - apply rtc_refl.
Defined.

(** A schedule: the first thread that works, then the caller. *)
Section schedule.
Context {St Inp Out : Type} `{!Model St Inp Out}.

Fixpoint first_working (i : nat) (l : list (Worker St Inp Out)) : option (nat * ptr * Search St Inp Out) :=
  match l with
  | [] => None
  | Working hd s :: _ => Some (i, hd, s)
  | _ :: l' => first_working (S i) l'
  end.

Definition next (w : Check St Inp Out) : option (Check St Inp Out) :=
  match first_working 0 (workers w), main w, channel w with
  | Some (i, hd, s), _, _ =>
      let '(x, msgs) := work (kill w) hd s in
      Some (mkCheck (<[i := x]> (workers w)) (channel w ++ msgs) (kill w) (main w))
  | None, Waiting count ok, b :: rx =>
      let '(mn, k) := main_receives (Got b) count ok (kill w) in Some (mkCheck (workers w) rx k mn)
  | _, _, _ => None
  end.

Fixpoint drive (fuel : nat) (w : Check St Inp Out) : Check St Inp Out :=
  match fuel with
  | 0 => w
  | S fuel' => match next w with Some w' => drive fuel' w' | None => w end
  end.

Lemma first_working_lookup o l i hd s : first_working o l = Some (i, hd, s) →
  o ≤ i ∧ l !! (i - o) = Some (Working hd s).
Proof.
  revert o. induction l as [|x l IH]; intros o; simpl; [done|].
  assert (first_working (S o) l = Some (i, hd, s) → o ≤ i ∧ (x :: l) !! (i - o) = Some (Working hd s)) as Hrest.
  { intros [Hle Hl]%IH. split; [lia|]. replace (i - o) with (S (i - S o)) by lia. done. }
  destruct x; [|done..]. intros [= -> -> ->]. by rewrite Nat.sub_diag.
Qed.

Lemma next_step timed w w' : next w = Some w' → check_step timed w w'.
Proof.
  unfold next. destruct (first_working 0 (workers w)) as [[[i hd] s]|] eqn:Hf.
  - apply first_working_lookup in Hf as [_ Hi]. rewrite Nat.sub_0_r in Hi.
    intros Hw. destruct (work (kill w) hd s) as [x msgs] eqn:Hk. injection Hw as <-.
    pose proof (step_work timed w i hd s Hi) as Hs. by rewrite Hk in Hs.
  - destruct (main w) as [count ok| |] eqn:Hm; [|done..]. destruct (channel w) as [|b rx] eqn:Hc; [done|].
    destruct (main_receives (Got b) count ok (kill w)) as [mn k] eqn:Hr. intros [= <-].
    pose proof (step_receive timed w count ok b rx Hm Hc) as Hs. by rewrite Hr in Hs.
Qed.

Lemma drive_steps timed fuel w : rtc (check_step timed) w (drive fuel w).
Proof.
  revert w. induction fuel as [|fuel IH]; intros w; simpl; [done|].
  destruct (next w) as [w'|] eqn:Hn; [|done]. eapply rtc_l; [by apply next_step|apply IH].
Qed.
End schedule.

Lemma kv_check_store_witness : ops_linearizable (St:=gmap string string) good_history.
Proof.
  apply (kv_check_store id good_history (drive 100 (spawned (spawn_operations (partition id good_history)))) true).
  - done.
  - done.
  - apply good_in_time.
  - apply drive_steps.
  - split; [vm_compute; reflexivity|]. assert (workers (drive 100 (spawned (spawn_operations (partition id good_history))))
      = [Sent]) as -> by (vm_compute; reflexivity). by repeat constructor.
  - reflexivity.
Defined.

Definition empty_check : Check string KvInput KvOutput := spawned (spawn_operations (partition id [])).

Lemma empty_history_blocks_witness : (∀ w, ¬ check_step false empty_check w) ∧ ∀ res, ¬ returned empty_check res.
Proof. apply (empty_history_blocks id). done. Defined.

Lemma popcnt_size_witness : ∃ b, set 3 (new 70) = Some b ∧ popcnt b = 1%N.
Proof.
  destruct (set_holds 70 (new 70) ∅ 3 (holds_new 70)) as (b & Hb & Hh); [lia|]. exists b. split; [done|].
  rewrite (popcnt_size 70 b _ Hh). vm_compute. reflexivity.
Defined.
