(* ===== verification/KvLogTheorems.v ===== *)
(** * Properties of the logs that the checker is tested on

    Reading a log gives what was written; whatever is read is well typed; and [check_kv]
    passes exactly the logs of linearizable histories. *)

From stdpp Require Import relations.
From S2P Require Import Prelude Lin LinSpec LinOps LinCheck KvModel LinTheorems KvLog KvLogSpec KvLogParts.

(** C36: reading back: the lines that are printed for the calls and returns of processes
    are read as these calls, numbered in their order, and these returns, each with the
    number of the call that its process is at; behind them come returns of the calls that
    are not answered, one for each, in the order of the hash map. *)
Theorem parse_kv_log_print `{R : Regex} {RL : RegexLaws} {Error} (order : list (Z * nat) → list (Z * nat)) (h : list item) :
  (∀ l, order l ≡ₚ l) → Forall plain_item h → well_formed h →
  ∃ evs, parse_kv_log (Error := Error) order (inr (inr <$> (print <$> h))) = Ok evs ∧ reads_as h evs.
Proof. apply parse_printed. Qed.

(** C37: typing: whatever the lines of the file are, and whatever the regular expressions
    find in them: if [parse_kv_log] returns, the calls carry inputs and are numbered from
    zero in order, each return carries an output and the number of an earlier call that
    nothing returned from before; and then [partition_event] does not panic: each event is
    in the part of one key. *)
Theorem parse_kv_log_types `{R : Regex} {Error} (order : list (Z * nat) → list (Z * nat))
    (order_parts : list (string * list KvEvent) → list (string * list KvEvent)) file evs :
  (∀ l, order l ≡ₚ l) → (∀ l, order_parts l ≡ₚ l) → parse_kv_log (Error := Error) order file = Ok evs →
  typed evs ∧ ∃ parts, partition_event order_parts evs = Some parts ∧ mjoin parts ≡ₚ evs.
Proof.
  intros Ho Hop Hparse. pose proof (parse_kv_log_typed order file evs Ho Hparse) as Ht. split; [done|].
  by apply partition_event_all.
Qed.

Lemma check_kv_ok `{R : Regex} {RL : RegexLaws} {Error} (order : list (Z * nat) → list (Z * nat))
    (order_parts : list (string * list KvEvent) → list (string * list KvEvent)) (h : list item) evs :
  (∀ l, order l ≡ₚ l) → (∀ l, order_parts l ≡ₚ l) → Forall plain_item h → well_formed h → sequential h → h ≠ [] →
  parse_kv_log (Error := Error) order (inr (inr <$> (print <$> h))) = Ok evs → reads_as h evs →
  ∃ c0, check_kv (Error := Error) order order_parts (inr (inr <$> (print <$> h))) = Ok c0 ∧
    (∃ m, ∀ n c, nsteps (check_step false) n c0 c → n ≤ m) ∧
    ∀ c, rtc (check_step false) c0 c →
      ((∃ res, returned c res) ∨ ∃ c', check_step false c c') ∧
      ∀ res, returned c res → (res = true ↔ ∀ k, linearizable (St := string) (convert_entries (key_part evs k))).
Proof.
  intros Ho Hop Hp Hw Hs Hne Hparse Hr. pose proof (parse_kv_log_typed _ _ _ Ho Hparse) as Ht.
  destruct (partition_event_typed order_parts evs Hop Ht) as (parts & Hparts & Hin).
  exists (spawned (spawn_events parts)). split; [unfold check_kv; by rewrite Hparse, Hparts|].
  assert (∀ sub, sub ∈ parts → matched (convert_entries sub)) as Hm.
  { intros sub (k & -> & _)%Hin. rewrite key_part_entries. apply matched_part. by apply (reads_as_matched h). }
  assert (parts ≠ []) as Hpne.
  { destruct h as [|it h]; [done|]. destruct (reads_as_nonempty _ _ _ Hw Hr) as (e & evs' & ->).
    destruct (typed_key evs' [] e Ht) as (k & Hk & _). intros ->.
    apply (not_elem_of_nil (key_part (e :: evs') k)), Hin. exists k. split; [done|]. unfold key_part. by rewrite filter_cons_True. }
  destruct (check_events_ok parts false kv_equal_spec Hpne Hm) as [Hb Hc]. split; [exact Hb|].
  intros c Hsteps. destruct (Hc c Hsteps) as [Hprog Hres]. split; [done|]. intros res Hret.
  destruct (Hres res Hret) as [Hf Htr]. split.
  - intros -> k. destruct (decide (key_part evs k = [])) as [->|Hk]; [apply linearizable_nil|].
    apply Htr; [done|done|]. apply Hin. by exists k.
  - intros Hall. destruct res; [done|]. destruct (Hf eq_refl) as (sub & (k & -> & _)%Hin & Hn). by destruct Hn.
Qed.

(** C35: [check_kv] on the printed log of sequential processes: it does not panic before its
    assertion, it is never stuck and every run ends, and the assertion then holds exactly
    when it asks for [true] and the events of each key are linearizable, or for [false] and
    those of some key are not. *)
Theorem check_kv_correct `{R : Regex} {RL : RegexLaws} {Error} (order : list (Z * nat) → list (Z * nat))
    (order_parts : list (string * list KvEvent) → list (string * list KvEvent)) (h : list item) :
  (∀ l, order l ≡ₚ l) → (∀ l, order_parts l ≡ₚ l) → Forall plain_item h → well_formed h → sequential h → h ≠ [] →
  ∃ evs c0, reads_as h evs ∧ check_kv (Error := Error) order order_parts (inr (inr <$> (print <$> h))) = Ok c0 ∧
    (∃ m, ∀ n c, nsteps (check_step false) n c0 c → n ≤ m) ∧
    ∀ c, rtc (check_step false) c0 c →
      ((∃ res, returned c res) ∨ ∃ c', check_step false c c') ∧
      ∀ res correct, returned c res →
        assert_kv (Error := Error) res correct = Ok tt ↔
        (correct = true ↔ ∀ k, linearizable (St := string) (convert_entries (key_part evs k))).
Proof.
  intros Ho Hop Hp Hw Hs Hne. destruct (parse_printed (Error := Error) order h Ho Hp Hw) as (evs & Hparse & Hr).
  destruct (check_kv_ok order order_parts h evs Ho Hop Hp Hw Hs Hne Hparse Hr) as (c0 & Hc0 & Hb & Hc).
  exists evs, c0. split_and!; [done..|]. intros c Hsteps. destruct (Hc c Hsteps) as [Hprog Hres]. split; [done|].
  intros res correct Hret. rewrite <-(Hres res Hret). unfold assert_kv. destruct res, correct; cbn; naive_solver.
Qed.

(** ** An engine

    Tries all ways to split the text, the longest first. *)

Fixpoint splits (s : string) : list (string * string) :=
  match s with
  | "" => [("", "")]
  | String c s' => ((λ x, (String c x.1, x.2)) <$> splits s') ++ [("", s)]
  end.

Lemma elem_of_splits s a b : (a, b) ∈ splits s ↔ s = a +:+ b.
Proof.
  revert a. induction s as [|c s IH]; intros a; cbn [splits].
  - rewrite list_elem_of_singleton. destruct a; [change ("" +:+ b) with b|rewrite string_app_cons]; split; first [by intros [= ->]|by intros <-|done].
  - rewrite elem_of_app, list_elem_of_fmap, list_elem_of_singleton. split.
    + intros [([a' b'] & [= -> ->] & Hab%IH)|[= -> ->]]; [|done]. rewrite string_app_cons. by rewrite Hab.
    + destruct a as [|c' a]; [change ("" +:+ b) with b; intros <-; by right|]. rewrite string_app_cons. intros [= -> Hs]. left. exists (a, b). by rewrite IH.
Qed.

Fixpoint strip (t s : string) : option string :=
  match t, s with
  | "", _ => Some s
  | String c t', String c' s' => if Ascii.eqb c c' then strip t' s' else None
  | _, "" => None
  end.

Lemma strip_spec t s s' : strip t s = Some s' ↔ s = t +:+ s'.
Proof.
  revert s. induction t as [|c t IH]; intros s; cbn [strip]; [naive_solver|]. rewrite string_app_cons.
  destruct s as [|c' s]; [done|]. destruct (Ascii.eqb_spec c c') as [->|]; rewrite ?IH; naive_solver.
Qed.

(** The text of a match at the start of [s], and its groups. *)
Fixpoint match_here (ps : list piece) (s : string) : option (string * list string) :=
  match ps with
  | [] => Some ("", [])
  | Lit t :: ps' => s' ← strip t s; '(w, gs) ← match_here ps' s'; Some (t +:+ w, gs)
  | Digits :: ps' => hd_error (omap (λ x, if negb (String.eqb x.1 "") && forall_chars is_digit x.1
                                      then '(w, gs) ← match_here ps' x.2; Some (x.1 +:+ w, x.1 :: gs) else None) (splits s))
  | Any g :: ps' => hd_error (omap (λ x, if negb (has newline x.1)
                                     then '(w, gs) ← match_here ps' x.2; Some (x.1 +:+ w, if g then x.1 :: gs else gs) else None) (splits s))
  end.

Definition try_at (ps : list piece) (x : string * string) : option (list string) :=
  '(w, gs) ← match_here ps x.2; Some (w :: gs).

Definition search (ps : list piece) (s : string) : option (list string) := hd_error (omap (try_at ps) (reverse (splits s))).

(** It knows the patterns of the program. *)
Definition known : list (list piece) :=
  (λ x, pattern x.1 x.2) <$> [(false, GET); (false, PUT); (false, APPEND); (true, GET); (true, PUT); (true, APPEND)].

#[local] Instance simple_regex : Regex := λ re s,
  ps ← hd_error (filter (λ ps, source ps = re) known); search ps s.

Lemma head_omap_Some {A B} (f : A → option B) l y : hd_error (omap f l) = Some y → ∃ x, x ∈ l ∧ f x = Some y.
Proof.
  intros H. apply list_elem_of_omap. destruct (omap f l); [done|]. injection H as ->. by left.
Qed.

Lemma head_omap_is_Some {A B} (f : A → option B) l x : x ∈ l → is_Some (f x) → is_Some (hd_error (omap f l)).
Proof.
  intros Hx [y Hy]. destruct (omap f l) as [|z l'] eqn:E; [|by eexists].
  destruct (not_elem_of_nil y). rewrite <-E. apply list_elem_of_omap. eauto.
Qed.

Lemma match_here_fits ps : ∀ s w gs, match_here ps s = Some (w, gs) → ∃ post, s = w +:+ post ∧ fits digit_like ps w gs.
Proof.
  induction ps as [|[t| |g] ps IH]; intros s w gs; cbn [match_here].
  - intros [= <- <-]. exists s. split; [done|constructor].
  - intros (s' & Hs%strip_spec & ([w' gs'] & Hm & [= <- <-])%bind_Some)%bind_Some.
    destruct (IH _ _ _ Hm) as (post & -> & Hf). exists post. split; [by rewrite append_assoc|by constructor].
  - intros ([a b] & Hab%elem_of_splits & H)%head_omap_Some. cbn [fst snd] in H. destruct (_ && _) eqn:Hc; [|done].
    apply andb_true_iff in Hc as [Hne Hd]. apply bind_Some in H as ([w' gs'] & Hm & [= <- <-]).
    destruct (IH _ _ _ Hm) as (post & -> & Hf). exists post. split; [by rewrite append_assoc|]. constructor; [|clear -Hd|done].
    + intros ->. done.
    + induction a as [|c a IH]; [done|]. cbn in *. apply andb_true_iff in Hd as [Hc Hd]. rewrite IH by done. unfold digit_like. by rewrite Hc.
  - intros ([a b] & Hab%elem_of_splits & H)%head_omap_Some. cbn [fst snd] in H. destruct (has newline a) eqn:Hc; [done|]. cbn [negb] in H.
    apply bind_Some in H as ([w' gs'] & Hm & [= <- <-]).
    destruct (IH _ _ _ Hm) as (post & -> & Hf). exists post. split; [by rewrite append_assoc|]. by constructor.
Qed.

Lemma match_here_some ps w gs post : fits is_digit ps w gs → is_Some (match_here ps (w +:+ post)).
Proof.
  intros H. induction H as [|t ps s gs _ IH|n ps s gs Hn Hd _ IH|g t ps s gs Ht _ IH]; cbn [match_here]; [by eexists|..].
  - rewrite append_assoc, (proj2 (strip_spec t _ _) eq_refl). cbn. destruct IH as [[w gs'] ->]. by eexists.
  - eapply (head_omap_is_Some _ _ (n, s +:+ post)); [apply elem_of_splits, append_assoc|]. cbn [fst snd].
    apply String.eqb_neq in Hn. rewrite Hn, Hd. cbn. destruct IH as [[w gs'] ->]. by eexists.
  - eapply (head_omap_is_Some _ _ (t, s +:+ post)); [apply elem_of_splits, append_assoc|]. cbn [fst snd].
    rewrite Ht. cbn. destruct IH as [[w gs'] ->]. by eexists.
Qed.

Lemma known_pattern ok o : captures (source (pattern ok o)) = search (pattern ok o).
Proof.
  unfold captures, simple_regex.
  assert (hd_error (filter (λ ps, source ps = source (pattern ok o)) known) = Some (pattern ok o)) as ->; [|done].
  destruct ok, o; vm_compute; reflexivity.
Qed.

#[local] Instance simple_regex_laws : RegexLaws.
Proof.
  split.
  - intros ok o s args. rewrite known_pattern. intros ([pre b] & Hs & ([w gs] & Hm & [= <-])%bind_Some)%head_omap_Some.
    rewrite elem_of_reverse, elem_of_splits in Hs. destruct (match_here_fits _ _ _ _ Hm) as (post & Hb & Hf). cbn in Hb.
    exists pre, w, gs, post. by rewrite Hs, Hb.
  - intros ok o pre w gs post Hf. rewrite known_pattern.
    eapply (head_omap_is_Some (try_at (pattern ok o)) _ (pre, w +:+ post)); [by rewrite elem_of_reverse, elem_of_splits|].
    unfold try_at. cbn [snd]. destruct (match_here_some _ _ _ post Hf) as [[w' gs'] ->]. by eexists.
Qed.

(** ** A log

    Two processes put and get; the last [get] never returns. *)

Definition example_log : list item := [
  Invoke 0 PUT "k" "x"; Invoke 7 GET "k" ""; Return 0 PUT "k" "x"; Return 7 GET "k" "x"; Invoke 7 GET "k" ""
].

Lemma example_plain : Forall plain_item example_log.
Proof. repeat constructor; done. Qed.

(** Its calls and answers. *)
Lemma example_answers : answers example_log 0 2 ∧ answers example_log 1 3.
Proof.
  split; (split; [eexists; split_and!; [reflexivity|done|lia|]; intros l Hl (x & Hx & Hp)|do 2 eexists; split_and!; [reflexivity|reflexivity|done..]]).
  - assert (l = 1) as -> by lia. by injection Hx as <-.
  - assert (l = 2) as -> by lia. by injection Hx as <-.
Qed.

Lemma example_well_formed : well_formed example_log.
Proof.
  destruct example_answers as [H1 H2]. intros j it Hj Hc.
  do 5 (destruct j as [|j]; [injection Hj as <-; first [done|by eexists]|]). done.
Qed.

Lemma example_sequential : sequential example_log.
Proof.
  destruct example_answers as [H1 H2]. intros i j it it' (x & Hx & Hc & Hij & Hno) Hi Hj Hp. rewrite Hi in Hx. injection Hx as <-.
  destruct (is_call it') eqn:Hc'; [exfalso|done].
  assert (∀ l y, example_log !! l = Some y → is_call y = true → l = 0 ∨ l = 1 ∨ l = 4) as Hcalls.
  { intros l y Hl Hy. destruct l as [|[|[|[|[|l]]]]]; simplify_eq/=; naive_solver. }
  destruct (Hcalls _ _ Hi Hc) as [->|[->| ->]], (Hcalls _ _ Hj Hc') as [->|[->| ->]]; simplify_eq/=; try lia.
  apply (Hno 3); [lia|]. by eexists.
Qed.

Definition example_file : unit + list (unit + string) := inr (inr <$> (print <$> example_log)).

Lemma parse_kv_log_print_witness : ∃ evs, parse_kv_log (Error := unit) (λ l, l) example_file = Ok evs ∧ reads_as example_log evs.
Proof. apply parse_kv_log_print; [done|apply example_plain|apply example_well_formed]. Defined.

Lemma parse_kv_log_types_witness : ∃ evs, parse_kv_log (Error := unit) (λ l, l) example_file = Ok evs ∧ typed evs ∧ length evs = 6.
Proof.
  eexists. split; [vm_compute; reflexivity|]. split; [|done].
  refine (proj1 (parse_kv_log_types (Error := unit) (λ l, l) (λ l, l) example_file _ _ _ _)); [done|done|]. vm_compute. reflexivity.
Defined.

Definition check_of (h : list item) : Check string KvInput KvOutput :=
  match check_kv (Error := unit) (λ l, l) (λ l, l) (inr (inr <$> (print <$> h))) with Ok c => c | _ => spawned [] end.
Definition example_check : Check string KvInput KvOutput := check_of example_log.

(** Without its last call the log is accepted; with it, it is rejected, although that call
    is pending and nobody saw an answer to it: a [get] that never returned is taken to have
    returned nothing. *)
Theorem pending_get_rejected : pending example_log 4 ∧
  returned (drive 100 (check_of (take 4 example_log))) true ∧ returned (drive 100 example_check) false.
Proof.
  split; [eexists; split_and!; [reflexivity|done|cbn; lia|cbn; lia]|].
  split; (split; [vm_compute; reflexivity|]).
  - assert (workers (drive 100 (check_of (take 4 example_log))) = [Sent]) as -> by (vm_compute; reflexivity). by repeat constructor.
  - assert (workers (drive 100 example_check) = [Sent]) as -> by (vm_compute; reflexivity). by repeat constructor.
Qed.

Lemma check_kv_correct_witness : ∃ evs, reads_as example_log evs ∧
  assert_kv (Error := unit) false false = Ok tt ∧ ¬ ∀ k, linearizable (St := string) (convert_entries (key_part evs k)).
Proof.
  destruct (check_kv_correct (Error := unit) (λ l, l) (λ l, l) example_log) as (evs & c0 & Hr & Hc0 & _ & Hc);
    [done|done|apply example_plain|apply example_well_formed|apply example_sequential|done|].
  exists evs. split_and!; [done|done|]. assert (c0 = example_check) as -> by (unfold example_check, check_of; by rewrite Hc0).
  destruct (Hc _ (drive_steps false 100 _)) as [_ Hres]. specialize (Hres false false (proj2 (proj2 pending_get_rejected))).
  intros Hall. apply proj1 in Hres. specialize (Hres eq_refl). apply proj2 in Hres. discriminate (Hres Hall).
Defined.
