(* ===== verification/ClientTheorems.v ===== *)
(** * Properties of clients that share one store *)

From stdpp Require Import relations.
From S2P Require Import Prelude Fs Command Json KvsEngine LogTheory KvStore KvStoreSpec KvTheorems Conc ConcStore ConcStoreSpec ConcTheorems Lin LinSpec LinOps LinCheck LinTheorems ConcHist ConcRuns ConcInv ConcThread ConcLin.

Section theorems.
Context `{!SerdeJson Command} `{!SerdeLaws Command} `{!SerdeCut Command} {policy : BufWriterPolicy}.

#[local] Abbreviation client_step := (client_step client_op None).
#[local] Abbreviation client_steps := (client_steps client_op None).

(** A store that was just opened is as [sys_start] needs it. *)
Lemma open_fresh d C : disk_ok d C → (default 0 (last (gens C)) < U64_MAX)%N →
  ∃ w d' C', open d = (Ok w, d') ∧ crep w C' ∧ meaning C' = meaning C ∧ fresh w
    ∧ w_pool w = []
    ∧ kw_gen (w_writer w) = (default 0 (last (gens C)) + 1)%N.
Proof.
  intros Hd Hb. destruct (open_base d C Hd Hb) as (rds & idx & unc & d' & h & Hloop & Happ & Hrep & Hm).
  eexists _, d', _. split_and!; [exact (open_run d C _ _ _ _ _ Hd Hb Hloop Happ)| |exact Hm| |done|done].
  { apply Hrep. by intros i hs g r [<- <-]%lookup_singleton_Some. }
  split; [done|done|]. destruct (open_loop_ok (E:=KvsError) d C (gens C) ∅ ∅ 0 ∅ Hd)
    as (rds' & idx' & unc' & Hloop' & _ & _ & Hdom & _).
  { intros g. apply elem_of_gens. }
  { intros k. rewrite !lookup_empty. constructor. }
  { intros g r. by rewrite lookup_empty. }
  rewrite Hloop in Hloop'. injection Hloop' as <- <- <-.
  intros [i|] g r Hg; simpl in Hg; [|by rewrite lookup_empty in Hg].
  rewrite lookup_singleton in Hg. case_decide; simpl in Hg; [|by rewrite lookup_empty in Hg].
  apply elem_of_dom_2 in Hg. rewrite Hdom in Hg. apply (lv_bound _ _ (ok_view _ _ Hd)). rewrite lookup_fmap.
  assert (g ∈ gens C) as [cs Hcs]%elem_of_gens by set_solver. rewrite Hcs. by eexists.
Qed.

Lemma omap_Some {A B} (f : A → B) (l : list A) : omap (λ x, Some (f x)) l = f <$> l.
Proof. induction l as [|x l IH]; [done|]. cbn. by rewrite IH. Qed.

(** There are generations left for all the operations. *)
Definition enough (C : gmap N (list Command)) (ops : list (list Op)) : Prop :=
  (default 0 (last (gens C)) + 1 + 2 * N.of_nat (sum_list (length <$> ops)) <= U64_MAX)%N.

(** Whatever run of clients that use the readers from [k] on. *)
Lemma readers_run k d C ops : disk_ok d C → enough C ops → ∃ w d', open d = (Ok w, d') ∧
  ∀ sched s, ConcHist.client_steps (λ i, client_op (k + i)) None sched (start w ops) = Some s →
    ∃ G ths pts, sys_ok (meaning C) (kw_gen (w_writer w)) None reply_ok never never (λ i, Some (k + i)) (length ops) G ths pts s.
Proof.
  intros Hd Hn. destruct (open_fresh d C Hd) as (w & d' & C' & Hopen & Hr & Hm & Hf & Hp & Hg); [unfold enough in Hn; lia|].
  exists w, d'. split; [done|]. intros sched s Hs. eapply sys_ok_steps; [|..|exact Hs].
  { intros i o own G Hown _. exact (client_op_safe (k + i) _ o own G Hown). }
  eapply (sys_start _ _ _ _ _ _ _ _ w C'); [done|done|by rewrite Hm|done|unfold room; rewrite Hg; exact Hn|..]; rewrite Hp; cbn [app]; rewrite omap_Some.
  - apply NoDup_fmap_2; [|apply NoDup_seq]. intros i j. lia.
  - by rewrite length_fmap, length_seq.
Qed.

Lemma clients_run d C ops : disk_ok d C → enough C ops → ∃ w d', open d = (Ok w, d') ∧
  ∀ sched s, client_steps sched (start w ops) = Some s → ∃ G ths pts, sys_ok (meaning C) (kw_gen (w_writer w)) None reply_ok never never Some (length ops) G ths pts s.
Proof. exact (readers_run 0 d C ops). Qed.

(** C2: whatever the interleaving of the actions of the threads that use a store of
    project-4 which was opened on a directory of logs, compactions included: when all
    their operations have returned, the history of the run holds each of them and is
    linearizable with respect to the map of the directory, but for two kinds of answers of a
    [get]. It may have failed without effect, with the [NotFound] or [Serde] error of its
    read; and where it answered that there is no such key while an operation that writes was in
    progress, which may have had the entry out of the index at that time (a [set] of the key
    replaces it, and any [set] or [remove] may compact), this answer is left open ([known]).
    Every other reply is the one of the map.
    If no compaction has begun, no [get] failed, and what is left open are only the answers
    of no key beside a [set] of it. *)
Theorem clients_linearizable d C ops : disk_ok d C → enough C ops →
  ∃ w d', open d = (Ok w, d') ∧
    ∀ sched s, client_steps sched (start w ops) = Some s → finished s →
      op_input <$> history s ≡ₚ mjoin ops ∧ ops_linearizable (Model0 := MapModel reply_ok (meaning C)) (known true (history s)) ∧
      (kw_gen (w_writer (world s)) = kw_gen (w_writer w) →
        ops_linearizable (Model0 := MapModel exact (meaning C)) (known false (history s))).
Proof.
  intros Hd Hn. destruct (clients_run d C ops Hd Hn) as (w & d' & Hopen & Hok). exists w, d'. split; [done|].
  intros sched s Hs Hf. destruct (Hok _ _ Hs) as (G & ths & pts & Hsys).
  split_and!; [by eapply finished_ops|by eapply (sys_linearizable _ _ _ reply_ok)|]. intros Hg.
  eapply sys_linearizable; [done..| |].
  - by rewrite (sys_no_compaction _ _ _ _ _ _ _ _ _ _ _ _ Hsys Hg).
  - intros a r0 Ha. apply reply_ok_exact. by eapply sys_uncompacted.
Qed.

(** C7: the threads are never stuck: at each moment of each run no thread has panicked or
    run out of a bound, all operations have returned or some thread can take an action, and
    no run goes on forever. *)
Theorem clients_finish d C ops : disk_ok d C → enough C ops →
  ∃ w d', open d = (Ok w, d') ∧
    ∀ sched s, client_steps sched (start w ops) = Some s →
      (∀ i c o t b r, clients s !! i = Some c → running c = Some (o, t, b, Done r) → ∃ a, r = Ok a) ∧
      (finished s ∨ ∃ i s', client_step i s = Some s') ∧
      Acc (next client_op None) s.
Proof.
  intros Hd Hn. destruct (clients_run d C ops Hd Hn) as (w & d' & Hopen & Hok). exists w, d'. split; [done|].
  intros sched s Hs. destruct (Hok _ _ Hs) as (G & ths & pts & Hsys). split_and!.
  - intros i c o t b r. by eapply sys_no_panic.
  - by eapply (sys_progress _ _ _ None).
  - apply next_wf.
Qed.

Lemma known_in_time c hist : in_time hist → in_time (known c hist).
Proof. intros Ht a (b & -> & Hb)%list_elem_of_fmap. by apply (Ht b). Qed.

(** C10: the checker of [dss] accepts the store of project-4: its check of the history that
    threads of the store made, where the answers of no key beside an operation that writes are
    left open ([known]), in any interleaving of the threads of the check, with
    or without a timeout, ends, and what it returns is [true]. *)
Theorem checker_accepts_store d C ops : disk_ok d C → enough C ops →
  let model := MapModel reply_ok (meaning C) in
  ∃ w d', open d = (Ok w, d') ∧
    ∀ sched s, client_steps sched (start w ops) = Some s → finished s → ∀ timed,
    let c0 := spawned (Model0 := model) (spawn_operations (default_partition (known true (history s)))) in
    (∃ m, ∀ n c, nsteps (check_step (Model0 := model) timed) n c0 c → n ≤ m) ∧
    ∀ c, rtc (check_step (Model0 := model) timed) c0 c →
      ((∃ res, returned c res) ∨ ∃ c', check_step (Model0 := model) timed c c') ∧
      ∀ res, returned c res → res = true.
Proof.
  intros Hd Hn model. destruct (clients_run d C ops Hd Hn) as (w & d' & Hopen & Hok). exists w, d'. split; [done|].
  intros sched s Hs Hf timed c0. destruct (Hok _ _ Hs) as (G & ths & pts & Hsys).
  pose proof (known_in_time true _ (sys_in_time _ _ _ _ _ _ _ _ _ _ _ _ Hsys)) as Ht.
  assert (∀ m1 m2 : kvmap, equal (Model := model) m1 m2 = true ↔ m1 = m2) as Heq by (intros; apply bool_decide_eq_true).
  destruct (spawned_ok (Model0 := model) Heq [make_entries (known true (history s))] timed) as [Hm Hw]; [done| |].
  { intros es ->%list_elem_of_singleton. by apply make_entries_complete. }
  split; [exact Hm|]. intros c Hsteps. destruct (Hw _ Hsteps) as [Hp Hres]. split; [exact Hp|].
  intros [] Hret; [done|]. destruct (proj1 (Hres _ Hret) eq_refl) as (es & ->%list_elem_of_singleton & Hno).
  destruct Hno. apply make_entries_linearizable. by eapply (sys_linearizable _ _ _ reply_ok).
Qed.
End theorems.

(** ** A run of two clients

    One sets a key while the other reads it twice. *)

#[local] Instance default_policy : BufWriterPolicy := λ b, if (8192 <? blen b)%N then length b else 0.

Definition ex_ops : list (list Op) := [[OpSet "a" "2"]; [OpGet "a"; OpGet "a"]].
Definition ex_start : System := start ex4 ex_ops.

#[local] Abbreviation ex_step := (client_step client_op None).
#[local] Abbreviation ex_steps := (client_steps client_op None).

(** A scheduler that lets those who can act do so in turn. *)
Fixpoint in_turn {A St} (step : A → St → option St) (fuel : nat) (turns : list A) (s : St) : list A :=
  match fuel, turns with
  | S fuel', i :: turns' =>
      match step i s with
      | Some s' => i :: in_turn step fuel' (turns' ++ [i]) s'
      | None => in_turn step fuel' (turns' ++ [i]) s
      end
  | _, _ => []
  end.

Definition ex_sched : list nat := Eval vm_compute in in_turn ex_step 100 [0; 1] ex_start.
Definition ex_history : list (Operation Op (Reply KvsError)) := [
  mkOp (OpGet "a") 1 (RValue (Some "1")) 13;
  mkOp (OpSet "a" "2") 0 RDone 20;
  mkOp (OpGet "a") 15 (RValue (Some "2")) 24
].

#[export] Instance Op_eq_dec : EqDecision Op.
Proof. solve_decision. Defined.
#[export] Instance Operation_eq_dec : EqDecision (Operation Op (Reply KvsError)).
Proof. solve_decision. Defined.

Lemma ex_check : match ex_steps ex_sched ex_start with
                 | Some s => bool_decide (finished s) && bool_decide (history s = ex_history) && (kw_gen (w_writer (world s)) =? kw_gen (w_writer ex4))%N
                 | None => false
                 end = true.
Proof. vm_compute. reflexivity. Qed.

Lemma ex_run : ∃ s, ex_steps ex_sched ex_start = Some s ∧ finished s ∧ history s = ex_history ∧ kw_gen (w_writer (world s)) = kw_gen (w_writer ex4).
Proof.
  pose proof ex_check as H. destruct (ex_steps ex_sched ex_start) as [s|]; [|done].
  rewrite !andb_true_iff, !bool_decide_eq_true, N.eqb_eq in H. destruct H as [[Hf Hh] Hg]. exists s. split; [reflexivity|]. split; [exact Hf|split; [exact Hh|exact Hg]].
Qed.

Lemma ex_enough : enough ex1_cmds ex_ops.
Proof. vm_compute. discriminate. Qed.

Lemma ex_open w d : open ex1.2 = (Ok w, d) → ex4 = w.
Proof. intros H. unfold ex4. by rewrite H. Qed.

Lemma clients_linearizable_witness :
  ex_steps ex_sched ex_start ≠ None ∧ ops_linearizable (Model0 := MapModel exact (meaning ex1_cmds)) (known false ex_history).
Proof.
  destruct (clients_linearizable _ _ ex_ops ex1_disk ex_enough) as (w & d' & Hopen & H).
  destruct (ex_open _ _ Hopen). destruct ex_run as (s & Hs & Hf & Hh & Hg). rewrite <-Hh. split.
  - by rewrite Hs.
  - by apply (H ex_sched s Hs Hf).
Defined.

Lemma clients_finish_witness : Acc (next client_op None) ex_start ∧ (finished ex_start ∨ ∃ i s', ex_step i ex_start = Some s').
Proof.
  destruct (clients_finish _ _ ex_ops ex1_disk ex_enough) as (w & d' & Hopen & H).
  destruct (ex_open _ _ Hopen). destruct (H [] ex_start eq_refl) as (_ & Hp & Ha). by split.
Defined.

#[local] Instance ex_model : Model kvmap Op (option (Reply KvsError)) := MapModel reply_ok (meaning ex1_cmds).
Definition ex_checking : Check kvmap Op (option (Reply KvsError)) := spawned (spawn_operations (default_partition (known true ex_history))).

Lemma checker_accepts_store_witness : ¬ returned (drive 1000 ex_checking) false.
Proof.
  destruct (checker_accepts_store _ _ ex_ops ex1_disk ex_enough) as (w & d' & Hopen & H).
  destruct (ex_open _ _ Hopen). destruct ex_run as (s & Hs & Hf & Hh & _). unfold ex_checking. rewrite <-Hh.
  destruct (H _ _ Hs Hf false) as [_ Hc]. intros Hret. by discriminate (proj2 (Hc _ (drive_steps false 1000 _)) _ Hret).
Defined.

(** ** A read during a compaction *)

(** A thread that compacts with the lock held, as [set] and [remove] do when there are too
    many stale bytes, and a thread that reads the key "a" through the clone 1. *)
Definition ex_threads : list (prog KvsError World (option string)) :=
  [_ ← with_lock compact; mret None; ConcStore.get 1 "a"].

(** The first copies the only command of the store and points the index at the copy, which
    the writer of the compacted log still has in its buffer; then the second runs. *)
Definition ex_early : list nat := replicate 13 0 ++ replicate 5 1.

(** A [get] can fail with a [Serde] error although its key has a value all along and
    no file is damaged: the compaction enters the new positions into the shared index
    before it flushes the log that they point into. *)
Theorem get_fails_in_compaction : crep ex4 ex4_cmds ∧ meaning ex4_cmds !! "a" = Some "1" ∧
  ∃ c e, exec ex_early (ex_threads, ex4) = Some c ∧ c.1 !! 1 = Some (Done (Err (Serde e))) ∧
    w_lock c.2 = Locked ∧ is_Some (w_index c.2 !! "a").
Proof.
  split_and!; [exact ex4_crep|by vm_compute|].
  assert (match exec ex_early (ex_threads, ex4) with
          | Some c => match c.1 !! 1, w_lock c.2, w_index c.2 !! "a" with
                      | Some (Done (Err (Serde _))), Locked, Some _ => true
                      | _, _, _ => false
                      end
          | None => false
          end = true) as H by (vm_compute; reflexivity).
  destruct (exec ex_early (ex_threads, ex4)) as [c|]; [|done]. exists c.
  destruct (c.1 !! 1) as [[[]|]|]; try done. destruct e as [|e| | | | |]; try done.
  exists e. destruct (w_lock c.2), (w_index c.2 !! "a"); by try eexists.
Qed.
