(* ===== verification/ConcWindow.v ===== *)
(** * The window of [insert]

    [SkipMap::insert] removes the entry of a key before it inserts the new one. In every
    store a [get] can look into the index in between: the answers that
    [clients_linearizable] leaves open are there. *)

From stdpp Require Import relations.
From S2P Require Import Prelude Fs Command Json KvsEngine LogTheory KvStore KvStoreSpec KvTheorems Conc ConcStore ConcStoreSpec ConcTheorems Lin LinOps ConcHist ConcRuns ClientTheorems.

(** ** One action of a program *)

Section acts.
Context {E S : Type}.

Definition acts {A} (x y : prog E S A * S) : Prop := ∃ f, x.1 = Act f ∧ f x.2 = Some (y.2, y.1).

Lemma acts_atomic {A B} (m : M E S A) (k : A → prog E S B) s a s' : m s = (Ok a, s') → acts (atomic m ≫= k, s) (k a, s').
Proof. intros Hm. eexists. split; [reflexivity|]. simpl. by rewrite Hm. Qed.

Lemma acts_bind {A B} (p p' : prog E S A) (k : A → prog E S B) s s' : acts (p, s) (p', s') → acts (p ≫= k, s) (p' ≫= k, s').
Proof. intros (f & Hp & Hf). simpl in *. subst. eexists. split; [reflexivity|]. simpl. by rewrite Hf. Qed.

Lemma acts_finally {A} fin (p p' : prog E S A) s s' : acts (p, s) (p', s') → acts (finally fin p, s) (finally fin p', s').
Proof. intros (f & Hp & Hf). simpl in *. subst. eexists. split; [reflexivity|]. simpl. by rewrite Hf. Qed.

Lemma acts_result {A} (p p' : prog E S A) s s' : acts (p, s) (p', s') → acts (result p, s) (result p', s').
Proof. intros (f & Hp & Hf). simpl in *. subst. eexists. split; [reflexivity|]. simpl. by rewrite Hf. Qed.

Lemma acts_run {A} (x y : prog E S A * S) : acts x y → run x.1 x.2 = run y.1 y.2.
Proof. intros (f & -> & Hf). simpl. by rewrite Hf. Qed.

Lemma nsteps_acts_run {A} n (x y : prog E S A * S) : nsteps acts n x y → run x.1 x.2 = run y.1 y.2.
Proof. induction 1 as [|n x y z Hxy _ IH]; [done|]. by rewrite (acts_run _ _ Hxy). Qed.

Lemma run_result_ok {A} (p : prog E S A) s a s' : run p s = Some (Ok a, s') → run (result p) s = Some (Ok (inr a), s').
Proof.
  revert s. induction p as [o'|f IH] using prog_ind; intros s; simpl; [by intros [= -> ->]|].
  destruct (f s) as [[s1 p1]|] eqn:Hf; [|done]. by eapply IH.
Qed.

(** A program that runs to its end. *)
Lemma run_acts {A} (p : prog E S A) s o s' : run p s = Some (o, s') → ∃ n, nsteps acts n (p, s) (Done o, s').
Proof.
  revert s. induction p as [o'|f IH] using prog_ind; intros s; simpl; [intros [= -> ->]; exists 0; constructor|].
  destruct (f s) as [[s1 p1]|] eqn:Hf; [|done]. intros (n & Hn)%(IH _ _ _ Hf). exists (Datatypes.S n).
  apply nsteps_l with (p1, s1); [by exists f|done].
Qed.
End acts.

Section window.
Context `{!SerdeJson Command} `{!SerdeLaws Command} {policy : BufWriterPolicy}.

#[local] Abbreviation client_step := (client_step client_op None).
#[local] Abbreviation client_steps := (client_steps client_op None).

(** A client takes the actions of its program. *)
Lemma client_acts n i os o t p w p' w' now cs hist : nsteps acts n (p, w) (p', w') → cs !! i = Some (mkClient os (Some (o, t, true, p))) →
  client_steps (replicate n i) (mkSystem w now cs hist) =
    Some (mkSystem w' (now + Z.of_nat n) (<[i := mkClient os (Some (o, t, true, p'))]> cs) hist).
Proof.
  revert p w now cs. induction n as [|n IH]; intros p w now cs Hn Hi.
  { inversion Hn; subst. cbn. by rewrite list_insert_id, Z.add_0_r. }
  inversion Hn as [|? ? [p1 w1] ? (f & Hp & Hf) Hn']; subst. cbn in Hp, Hf. subst p. cbn [replicate ConcHist.client_steps].
  unfold ConcHist.client_step at 1. cbn [clients world ConcHist.now history]. rewrite Hi, Hf.
  destruct os as [|o1 os]; simpl; rewrite (IH _ _ _ _ Hn') by (apply list_lookup_insert_eq; by eapply lookup_lt_Some);
    rewrite list_insert_insert_eq; by replace (now + 1 + Z.of_nat n)%Z with (now + Z.of_nat (S n))%Z by lia.
Qed.

Lemma client_steps_app l1 l2 s s1 : client_steps l1 s = Some s1 → client_steps (l1 ++ l2) s = client_steps l2 s1.
Proof.
  revert s. induction l1 as [|i l1 IH]; intros s; simpl; [by intros [= ->]|].
  destruct (client_step i s) as [s2|]; [|done]. simpl. apply IH.
Qed.

(** While [set] replaces the entry of a key, its key is out of the index. *)
Lemma Writer_set_window w C k v : crep w C → is_Some (w_index w !! k) →
  ∃ p' w', nsteps acts 5 (Writer_set k v, w) (p', w') ∧ w_index w' !! k = None.
Proof.
  intros Hr [old Hold]. unfold Writer_set, Command_set. eexists _, _. split.
  - eapply nsteps_l; [by apply acts_atomic|]. cbn beta. eapply nsteps_l; [eapply acts_atomic, write_cmd_ok, Hr|]. cbn beta.
    eapply nsteps_l; [eapply acts_bind, acts_atomic; reflexivity|]. cbn beta. cbn [wrote4 set_disk set_writer w_index]. rewrite Hold. cbn beta match.
    eapply nsteps_l; [eapply acts_bind, acts_atomic; reflexivity|]. cbn beta.
    eapply nsteps_l; [eapply acts_bind; unfold index_insert; apply acts_atomic; reflexivity|]. apply nsteps_O.
  - cbn. apply lookup_delete_eq.
Qed.
(** [set] as the client 0 runs it: to the window, and from there to its end. *)
Lemma set_window w C k v : crep w C → w_lock w = Unlocked → (kw_gen (w_writer w) + 2 <= U64_MAX)%N → is_Some (meaning C !! k) → ∀ i,
  ∃ p' w1 n w2, nsteps acts 6 (client_op i (OpSet k v), w) (p', w1) ∧ w_index w1 !! k = None ∧
    nsteps acts n (p', w1) (Done (Ok RDone), w2).
Proof.
  intros Hr Hl Hg Hk i. destruct (set_ok w C k v Hr Hl Hg) as (w2 & C' & Hset & _).
  assert (is_Some (w_index (set_lock Locked w) !! k)) as Hidx.
  { by apply (index_ok_dom _ _ _ k (crep_index _ _ Hr)). }
  destruct (Writer_set_window _ C k v (crep_set_lock Locked _ _ Hr) Hidx) as (p & w1 & Hn & Hnone).
  set (fin := λ o : outcome KvsError unit, set_lock (match o with Panic => Poisoned | _ => Unlocked end)).
  set (ret := λ r : KvsError + unit, mret (M := prog KvsError World) (reply_of (λ _, RDone) r)).
  assert (nsteps acts 6 (client_op i (OpSet k v), w) (result (finally fin p) ≫= ret, w1)) as H6.
  { apply nsteps_l with (result (finally fin (Writer_set k v)) ≫= ret, set_lock Locked w).
    - eapply acts_bind, acts_result. eexists. split; [reflexivity|]. simpl. by rewrite Hl.
    - refine (nsteps_congruence (λ x : WP unit * World, (result (finally fin x.1) ≫= ret, x.2)) acts 5 _ _ _ Hn).
      intros [p1 u1] [p2 u2] H. by apply acts_bind, acts_result, acts_finally. }
  destruct (run_acts (result (finally fin p) ≫= ret) w1 (Ok RDone) w2) as [n Hrest].
  { pose proof (nsteps_acts_run _ _ _ H6) as Hrun. cbn [fst snd] in Hrun. rewrite <-Hrun. unfold client_op.
    by rewrite (run_bind_ok _ _ _ _ _ (run_result_ok _ _ _ _ Hset)). }
  by eexists _, _, n, w2.
Qed.

(** C11: in every store of project-4 in which a key has a value, and for every new value, a
    [get] of that key beside the [set] can answer that there is no such key, although it has
    the old value until it has the new one: the history of the two is not linearizable as it
    is, only with that answer left open. *)
Theorem get_misses_key w C k v v' : crep w C → w_lock w = Unlocked → (kw_gen (w_writer w) + 2 <= U64_MAX)%N →
  meaning C !! k = Some v →
  ∃ sched s, client_steps sched (start w [[OpSet k v']; [OpGet k]]) = Some s ∧ finished s ∧
    (∃ t1 t2 t3, history s = [mkOp (OpGet k) t1 (RValue None) t2; mkOp (OpSet k v') 0 RDone t3]) ∧
    ¬ ops_linearizable (Model0 := MapModel reply_ok (meaning C))
        ((λ a, mkOp (op_input a) (op_call a) (Some (op_output a)) (op_finish a)) <$> history s).
Proof.
  intros Hr Hl Hg Hk. destruct (set_window w C k v' Hr Hl Hg (mk_is_Some _ _ Hk) 0) as (p & w1 & n & w2 & H6 & Hnone & Hn).
  set (c0 p := mkClient [] (Some (OpSet k v', 0%Z, true, p))). set (c1 p := mkClient [] (Some (OpGet k, 1%Z, true, p))).
  set (h1 := [mkOp (OpGet k) 1 (RValue None) 9] : list (Operation Op (Reply KvsError))). set (s1 := mkSystem w1 10 [c0 p; mkClient [] None] h1).
  set (s2 := mkSystem w2 (10 + Z.of_nat n) [c0 (Done (Ok RDone)); mkClient [] None] h1).
  exists ([0; 1] ++ replicate 6 0 ++ [1; 1] ++ replicate n 0 ++ [0]).
  exists (mkSystem w2 (10 + Z.of_nat n + 1) [mkClient [] None; mkClient [] None] (h1 ++ [mkOp (OpSet k v') 0 RDone (10 + Z.of_nat n)])).
  split; [|split; [by repeat constructor|split; [by eexists _, _, _|]]].
  - rewrite (client_steps_app [0; 1] _ _ (mkSystem w 2 [c0 (client_op 0 (OpSet k v')); c1 (client_op 1 (OpGet k))] [])) by done.
    rewrite (client_steps_app (replicate 6 0) _ _ (mkSystem w1 8 [c0 p; c1 (client_op 1 (OpGet k))] [])) by exact (client_acts 6 0 [] _ 0 _ _ _ _ 2 [c0 (client_op 0 (OpSet k v')); c1 (client_op 1 (OpGet k))] [] H6 eq_refl).
    rewrite (client_steps_app [1; 1] _ _ s1).
    2:{ cbn. unfold gets. by rewrite Hnone. }
    rewrite (client_steps_app (replicate n 0) _ _ s2) by exact (client_acts n 0 [] _ 0 _ _ _ _ 10 [c0 p; mkClient [] None] h1 Hn eq_refl). done.
  - cbn [history fmap list_fmap h1 app op_input op_call op_output op_finish]. intros [ids [Hperm Hlegal _]]. cbn [length seq] in Hperm.
    assert (ids = [0; 1] ∨ ids = [1; 0]) as [-> | ->] by by apply Permutation_length_2_inv.
    + destruct Hlegal as (a & m & [= <-] & Hs & _). cbn in Hs. by rewrite Hk in Hs.
    + destruct Hlegal as (a & m & [= <-] & Hs & b & m' & [= <-] & Hs' & _). cbn in Hs, Hs'. injection Hs as <-.
      by rewrite lookup_insert_eq in Hs'.
Qed.
End window.

#[local] Instance default_policy : BufWriterPolicy := λ b, if (8192 <? blen b)%N then length b else 0.

Lemma get_misses_key_witness : ∃ s t1 t2 t3, finished s ∧
  history s = [mkOp (OpGet "a") t1 (RValue None) t2; mkOp (OpSet "a" "2") 0 RDone t3].
Proof.
  destruct (get_misses_key ex4 ex4_cmds "a" "1" "2") as (sched & s & _ & Hf & (t1 & t2 & t3 & Hh) & _).
  - exact ex4_crep.
  - by vm_compute.
  - by vm_compute.
  - by vm_compute.
  - exists s, t1, t2, t3. split; [exact Hf|exact Hh].
Defined.
