(* ===== verification/P5ClientTheorems.v ===== *)
(** * Properties of the clients of project-5 *)

From stdpp Require Import relations.
From S2P Require Import Prelude Fs Command Json KvsEngine LogTheory KvStore KvStoreSpec KvTheorems Conc ConcStore ConcStoreSpec P5Store ConcTheorems Lin LinOps ConcHist ConcRuns ConcInv ConcThread ConcLin P5Clients ClientTheorems.

Section theorems.
Context `{!SerdeJson Command} `{!SerdeLaws Command} `{!SerdeCut Command} {policy : BufWriterPolicy}.
Context (canceled : string).

(** Clients of a store with [concurrency] readers and as many threads. *)
#[local] Abbreviation steps concurrency := (client_steps (job5 canceled concurrency%nat) (Some concurrency%nat)).

Lemma open5_fresh c d C : disk_ok d C → (default 0 (last (gens C)) < U64_MAX)%N →
  ∃ w d' C', P5.open (S c) d = (Ok w, d') ∧ crep w C' ∧ meaning C' = meaning C ∧ fresh w
    ∧ w_pool w = seq 1 c ++ [0] ∧ kw_gen (w_writer w) = (default 0 (last (gens C)) + 1)%N.
Proof.
  intros Hd Hb. destruct (open_base d C Hd Hb) as (rds & idx & unc & d' & h & Hloop & Happ & Hrep & Hm).
  assert (∀ i hs g r, list_to_map (M := gmap nat (gmap N BufReaderWithPos)) ((λ i, (i, ∅)) <$> seq 0 (S c)) !! i = Some hs → hs !! g ≠ Some r) as Hnone.
  { intros i hs g r (j & ? & _)%elem_of_list_to_map_2%list_elem_of_fmap. simplify_eq. by rewrite lookup_empty. }
  eexists _, d', _. split; [|split; [|split; [exact Hm|split]]].
  - unfold P5.open. mpure.
    rewrite (sorted_gen_list_view d _ (ok_wf _ _ Hd) (ok_view _ _ Hd)), gens_fmap.
    rewrite (bind_ok _ _ _ _ _ Hloop). erewrite bind_ok by (apply u64_add_ok; lia).
    rewrite (bind_ok _ _ _ _ _ (question_ok _ _ _ _ Happ)). mpure. reflexivity.
  - apply Hrep. intros i hs g r Hi Hg. by destruct (Hnone i hs g r).
  - split; [done|done|]. intros [i|] g r Hg; cbn [handles w_writer w_readers kw_readers] in Hg; [|by rewrite lookup_empty in Hg].
    destruct (list_to_map _ !! i) as [hs|] eqn:Hi; [|unfold default, from_option in Hg; by rewrite lookup_empty in Hg].
    by destruct (Hnone _ _ _ _ Hi Hg).
  - done.
Qed.

Lemma clients5_run c d C ops : disk_ok d C → enough C ops → ∃ w d', P5.open (S c) d = (Ok w, d') ∧
  ∀ sched s, steps (S c) sched (start w ops) = Some s →
    ∃ G ths pts, sys_ok (meaning C) (kw_gen (w_writer w)) (Some (S c)) (reply_ok5 canceled) failed_get canceled_get no_home (S c) G ths pts s.
Proof.
  intros Hd Hn. destruct (open5_fresh c d C Hd) as (w & d' & C' & Hopen & Hr & Hm & Hf & Hp & Hg); [unfold enough in Hn; lia|].
  exists w, d'. split; [done|]. intros sched s Hs. eapply sys_ok_steps; [|..|exact Hs].
  { intros i o own G. apply job5_safe. }
  assert (∀ l, omap no_home l = []) as Hno by by induction l.
  eapply (sys_start _ _ _ _ _ _ _ _ w C'); [done|done|by rewrite Hm|done|unfold room; rewrite Hg; exact Hn|..]; rewrite Hp, Hno, app_nil_r.
  - apply NoDup_app. split_and!; [apply NoDup_seq| |apply NoDup_singleton].
    intros i Hi%elem_of_seq ->%list_elem_of_singleton. lia.
  - rewrite length_app, length_seq. simpl. lia.
Qed.

(** C4: whatever the interleaving of the jobs that the clients of a project-5 store have
    spawned on its thread pool, compactions included: when all futures are resolved, the
    history of the answers holds each operation and is linearizable with respect to the map
    of the directory, but for two kinds of answers of a [get]. It may have failed without
    effect, with the error of its read or with that of the channel; and an answer that there
    is no such key, beside an operation that writes and so may compact, is left open
    ([known]): the entry may have been out of the index. Every other answer is the one of the
    map. *)
Theorem jobs_linearizable c d C ops : disk_ok d C → enough C ops →
  ∃ w d', P5.open (S c) d = (Ok w, d') ∧
    ∀ sched s, steps (S c) sched (start w ops) = Some s → finished s →
      op_input <$> history s ≡ₚ mjoin ops ∧
      ops_linearizable (Model0 := MapModel (reply_ok5 canceled) (meaning C)) (known true (history s)).
Proof.
  intros Hd Hn. destruct (clients5_run c d C ops Hd Hn) as (w & d' & Hopen & Hok). exists w, d'. split; [done|].
  intros sched s Hs Hf. destruct (Hok _ _ Hs) as (G & ths & pts & Hsys).
  split; [by eapply finished_ops|by eapply (sys_linearizable _ _ _ (reply_ok5 canceled))].
Qed.

(** C5: the readers of project-5: when all futures are resolved, the queue holds each reader
    once, but for one reader for each [get] that failed to read, which nothing brings back.
    If it holds all of them, every answer was the one of the map, as no job panics while the
    readers are there: at most as many jobs run as there are readers; only the answers that
    there is no such key, beside an operation that writes, are left open ([known]). It does hold all of them when no compaction has begun, and then only the
    answers beside a [set] of the key are left open. *)
Theorem readers_kept c d C ops : disk_ok d C → enough C ops →
  ∃ w d', P5.open (S c) d = (Ok w, d') ∧
    ∀ sched s, steps (S c) sched (start w ops) = Some s → finished s →
      NoDup (w_pool (world s)) ∧
      length (w_pool (world s)) + length (filter (λ a, failed_get (op_input a) (op_output a) = true) (history s)) = S c ∧
      (length (w_pool (world s)) = S c →
        ops_linearizable (Model0 := MapModel exact (meaning C)) (known true (history s))) ∧
      (kw_gen (w_writer (world s)) = kw_gen (w_writer w) →
        length (w_pool (world s)) = S c ∧ ops_linearizable (Model0 := MapModel exact (meaning C)) (known false (history s))).
Proof.
  intros Hd Hn. destruct (clients5_run c d C ops Hd Hn) as (w & d' & Hopen & Hok). exists w, d'. split; [done|].
  intros sched s Hs Hf. destruct (Hok _ _ Hs) as (G & ths & pts & Hsys).
  destruct (sys_readers _ _ _ _ _ _ _ _ _ _ _ _ Hsys Hf (λ _, eq_refl)) as (Hnd & Hc & Hcan).
  assert (length (w_pool (world s)) = S c → ∀ a r0, a ∈ history s →
    reply_ok5 canceled (op_input a) r0 (op_output a) = true → exact (op_input a) r0 (op_output a) = true) as Hexact.
  { intros Hfull a r0 Ha Hr. assert (leaks failed_get (history s) = 0) as Hl by lia.
    assert (failed_get (op_input a) (op_output a) = false) as Hfa.
    { apply not_true_is_false. intros Hfa. unfold leaks in Hl. apply nil_length_inv in Hl.
      assert (a ∈ filter (λ a, failed_get (op_input a) (op_output a) = true) (history s)) as Hin by by apply list_elem_of_filter.
      rewrite Hl in Hin. by apply not_elem_of_nil in Hin. }
    assert (canceled_get (op_input a) (op_output a) = false) as Hca.
    { apply not_true_is_false. intros Hca. specialize (Hcan (S c) a eq_refl ltac:(done) Ha Hca). lia. }
    destruct (op_input a), (op_output a) as [| |[[]| | | | | |]]; done. }
  split_and!; [done|exact Hc| |].
  { intros Hfull. eapply sys_linearizable; [done..| |]; [done|by apply Hexact]. }
  intros Hg. assert (length (w_pool (world s)) = S c) as Hfull.
  { assert (leaks failed_get (history s) = 0) as Hl; [|lia]. unfold leaks.
    destruct (filter _ (history s)) as [|a l] eqn:E; [done|].
    assert (a ∈ filter (λ a, failed_get (op_input a) (op_output a) = true) (history s)) as Ha by (rewrite E; by left).
    apply list_elem_of_filter in Ha as [Hfa Ha]. by rewrite (sys_uncompacted _ _ _ _ _ _ _ _ _ _ _ _ _ Hsys Hg Ha) in Hfa. }
  split; [done|]. eapply sys_linearizable; [done..| |by apply Hexact].
  by rewrite (sys_no_compaction _ _ _ _ _ _ _ _ _ _ _ _ Hsys Hg).
Qed.

(** C9: the jobs are never stuck: at each moment of each run no future is without an answer
    for ever, as all of them are resolved or some thread can take an action and no run goes on
    forever; and what a job sends through the channel of its future is an answer, a panic in
    it included. *)
Theorem jobs_finish c d C ops : disk_ok d C → enough C ops →
  ∃ w d', P5.open (S c) d = (Ok w, d') ∧
    ∀ sched s, steps (S c) sched (start w ops) = Some s →
      (∀ i cl o t b r, clients s !! i = Some cl → running cl = Some (o, t, b, Done r) → ∃ a, r = Ok a) ∧
      (finished s ∨ ∃ i s', client_step (job5 canceled (S c)) (Some (S c)) i s = Some s') ∧
      Acc (next (job5 canceled (S c)) (Some (S c))) s.
Proof.
  intros Hd Hn. destruct (clients5_run c d C ops Hd Hn) as (w & d' & Hopen & Hok). exists w, d'. split; [done|].
  intros sched s Hs. destruct (Hok _ _ Hs) as (G & ths & pts & Hsys). split_and!.
  - intros i cl o t b r. by eapply sys_no_panic.
  - eapply (sys_progress _ _ _ (Some (S c))); [|exact Hsys]. intros n [= <-]. lia.
  - apply next_wf.
Qed.
End theorems.

(** ** A run of three clients of a store with two readers *)

#[local] Instance default_policy : BufWriterPolicy := λ b, if (8192 <? blen b)%N then length b else 0.

Definition ex5_ops : list (list Op) := [[OpSet "a" "2"]; [OpGet "a"; OpGet "a"]; [OpGet "a"; OpRemove "b"]].
Definition ex5_world : World := world_of (P5.open 2 ex1.2).
Definition ex5_start : System := start ex5_world ex5_ops.

#[local] Abbreviation ex5_step := (client_step (job5 "canceled" 2) (Some 2)).
#[local] Abbreviation ex5_steps := (client_steps (job5 "canceled" 2) (Some 2)).

Definition ex5_sched : list nat := Eval vm_compute in in_turn ex5_step 300 [0; 1; 2] ex5_start.

Definition ex5_history : list (Operation Op (Reply KvsError)) := [
  mkOp (OpGet "a") 1 (RValue (Some "1")) 21;
  mkOp (OpSet "a" "2") 0 RDone 26;
  mkOp (OpGet "a") 2 (RValue (Some "2")) 38;
  mkOp (OpGet "a") 24 (RValue (Some "2")) 43;
  mkOp (OpRemove "b") 40 (RError KeyNotFound) 47
].

Lemma ex5_check : match ex5_steps ex5_sched ex5_start with
                  | Some s => bool_decide (finished s) && bool_decide (history s = ex5_history) && bool_decide (w_pool (world s) = [0; 1])
                  | None => false
                  end = true.
Proof. vm_compute. reflexivity. Qed.

Lemma ex5_run : ∃ s, ex5_steps ex5_sched ex5_start = Some s ∧ finished s ∧ history s = ex5_history ∧ w_pool (world s) = [0; 1].
Proof.
  pose proof ex5_check as H. destruct (ex5_steps ex5_sched ex5_start) as [s|]; [|done].
  rewrite !andb_true_iff, !bool_decide_eq_true in H. exists s. naive_solver.
Qed.

Lemma ex5_enough : enough ex1_cmds ex5_ops.
Proof. vm_compute. discriminate. Qed.

Lemma ex5_open w d : P5.open 2 ex1.2 = (Ok w, d) → ex5_world = w.
Proof. intros H. unfold ex5_world. by rewrite H. Qed.

Lemma jobs_linearizable_witness :
  ex5_steps ex5_sched ex5_start ≠ None ∧ ops_linearizable (Model0 := MapModel (reply_ok5 "canceled") (meaning ex1_cmds)) (known true ex5_history).
Proof.
  destruct (jobs_linearizable "canceled" 1 _ _ ex5_ops ex1_disk ex5_enough) as (w & d' & Hopen & H).
  destruct (ex5_open _ _ Hopen). destruct ex5_run as (s & Hs & Hf & Hh & _). rewrite <-Hh. split.
  - by rewrite Hs.
  - by apply (H ex5_sched).
Defined.

(** All readers are back, so all answers were those of the map. *)
Lemma readers_kept_witness :
  ops_linearizable (Model0 := MapModel exact (meaning ex1_cmds)) (known true ex5_history).
Proof.
  destruct (readers_kept "canceled" 1 _ _ ex5_ops ex1_disk ex5_enough) as (w & d' & Hopen & H).
  destruct (ex5_open _ _ Hopen). destruct ex5_run as (s & Hs & Hf & Hh & Hp).
  destruct (H _ _ Hs Hf) as (_ & _ & Hl & _). rewrite <-Hh. apply Hl. by rewrite Hp.
Defined.

Lemma jobs_finish_witness : Acc (next (job5 "canceled" 2) (Some 2)) ex5_start ∧ (finished ex5_start ∨ ∃ i s', ex5_step i ex5_start = Some s').
Proof.
  destruct (jobs_finish "canceled" 1 _ _ ex5_ops ex1_disk ex5_enough) as (w & d' & Hopen & H).
  destruct (ex5_open _ _ Hopen). destruct (H [] ex5_start eq_refl) as (_ & Hp & Ha). by split.
Defined.

(** ** The end of a queue of readers *)

(** A job that compacts, as [set] and [remove] do when there are too many stale bytes, and
    two jobs that read the key "a" of a store with one reader. *)
Definition ex5_jobs : list (WP (Reply KvsError)) :=
  [_ ← with_lock P5.compact; mret RDone; job5 "canceled" 1 1 (OpGet "a"); job5 "canceled" 1 2 (OpGet "a")].

(** The first [get] reads between the insertion into the index and the flush of the
    compacted log. Then the compaction ends, and the second [get] runs. *)
Definition ex5_early : list nat := replicate 13 0 ++ replicate 6 1 ++ replicate 10 0 ++ replicate 2 2.

(** A run in which one [get] during a compaction ends the reads of a project-5 store with
    one reader: it fails and drops the reader, and although the compaction then ends well, the
    job of the next [get] panics, so that its future has the error of the channel, while
    the key is in the index all along. *)
Theorem failed_read_stops_reads : ∃ c e, exec ex5_early (ex5_jobs, ex5) = Some c ∧
  c.1 = [Done (Ok RDone); Done (Ok (RError (Serde e))); Done (Ok (RError (StringError "canceled")))] ∧
  w_lock c.2 = Unlocked ∧ w_pool c.2 = [] ∧ is_Some (w_index c.2 !! "a").
Proof.
  assert (match exec ex5_early (ex5_jobs, ex5) with
          | Some (ps, w) => match ps, w_lock w, w_pool w, w_index w !! "a" with
              | [Done (Ok RDone); Done (Ok (RError (Serde _))); Done (Ok (RError (StringError s)))], Unlocked, [], Some _ => bool_decide (s = "canceled")
              | _, _, _, _ => false
              end
          | None => false
          end = true) as H by (vm_compute; reflexivity).
  destruct (exec ex5_early (ex5_jobs, ex5)) as [[ps w]|]; [|done]. cbv zeta iota beta in H.
  repeat case_match; try done. apply bool_decide_eq_true in H. subst. eexists (_, _), _. cbn [fst snd]. split_and!; try done.
Qed.
