(* ===== verification/ConcServer.v ===== *)
(** * The server of project-4, with connections served at the same time

    [project-4/src/server.rs]: [KvsServer::run] accepts connections one after the other
    and spawns a job for each on the thread pool; a job reads requests, has its clone of
    the engine perform them and writes the responses, while the jobs of other
    connections do the same on the same store. *)

From S2P Require Import Prelude Fs Command KvsEngine Conc ConcStore Net.

Section server.
Context `{!SerdeJson Command} {policy : BufWriterPolicy} `{!Wire} (io_msg : IoError → string).

(** A job works on the store, which it shares, and on its own connection. *)
Abbreviation SP := (prog KvsError (World * Socket)).

Fixpoint on_store {A} (p : WP A) : SP A :=
  match p with
  | Done r => Done r
  | Act f => Act (λ st, match f st.1 with Some (w', p') => Some ((w', st.2), on_store p') | None => None end)
  end.

(** ** serve *)

(** [req_reader.next()], and the [?] on what it returns. *)
Definition next_request : M KvsError (World * Socket) (option Request) :=
  inp ← gets (λ st, s_in st.2);
  match stream_next (A := Request) inp with
  | None => mret None
  | Some (inr e) => throw (from e)
  | Some (inl (req, n)) =>
      on_snd (modify (λ sock, mkSocket (drop (N.to_nat n) inp) (s_out sock) (s_room sock)));;
      mret (Some req)
  end.

(** The body of the loop: the engine is the clone of the store with the reader [i]. *)
Definition handle (i : nat) (req : Request) : SP unit :=
  match req with
  | Request_Get key =>
      r ← on_store (result (get i key));
      atomic (send_resp (match r with inr value => GetResponse_Ok value | inl e => GetResponse_Err (display io_msg e) end))
  | Request_Set key value =>
      r ← on_store (result (set key value));
      atomic (send_resp (match r with inr _ => SetResponse_Ok | inl e => SetResponse_Err (display io_msg e) end))
  | Request_Remove key =>
      r ← on_store (result (remove key));
      atomic (send_resp (match r with inr _ => RemoveResponse_Ok | inl e => RemoveResponse_Err (display io_msg e) end))
  end.

(** Every request takes at least one byte of what the client sends. *)
Fixpoint serve_loop (fuel : nat) (i : nat) : SP unit :=
  match fuel with
  | O => Done Diverge
  | S fuel' =>
      req ← atomic next_request;
      match req with
      | None => mret tt
      | Some req => handle i req;; serve_loop fuel' i
      end
  end.

Definition serve (i : nat) (sock : Socket) : SP unit := serve_loop (S (length (s_in sock))) i.

(** The closure that [run] spawns: an error of the connection, or of accepting it, is
    logged. *)
Definition logged {A} (p : SP A) : SP unit := result p ≫= λ _, mret tt.

Definition connection_job (i : nat) (stream : Socket + IoError) : SP unit :=
  match stream with
  | inl sock => logged (serve i sock)
  | inr _ => mret tt
  end.

(** ** run *)

(** A connection: not accepted yet, its job in the queue of the pool, on a thread, or
    done. *)
Inductive Stage :=
| Incoming
| Queued (job : SP unit)
| Serving (job : SP unit)
| Closed (r : outcome KvsError unit).

Record Conn := mkConn { c_stream : Socket + IoError; c_stage : Stage }.

Definition socket (c : Conn) : Socket := match c_stream c with inl sock => sock | inr _ => mkSocket [] [] None end.

(** What passes over a connection. *)
Inductive Wired := Read (b : bytes) | Wrote (b : bytes).

(** The store, the connections, and what was read from and written to which of them so
    far; the code keeps no such list. *)
Record Server := mkServer { store : World; conns : list Conn; trace : list (nat * Wired) }.

Definition listening (w : World) (incoming : list (Socket + IoError)) : Server :=
  mkServer w ((λ stream, mkConn stream Incoming) <$> incoming) [].

Definition observed (sock sock' : Socket) : list Wired :=
  (if length (s_in sock') <? length (s_in sock)
   then [Read (take (length (s_in sock) - length (s_in sock')) (s_in sock))] else []) ++
  (if length (s_out sock) <? length (s_out sock')
   then [Wrote (drop (length (s_out sock)) (s_out sock'))] else []).

(** How many threads the pool has; the naive pool has one for each job. *)
Context (threads : option nat).

Definition serving (c : Conn) : bool := match c_stage c with Serving _ => true | _ => false end.
Definition waiting (c : Conn) : bool := match c_stage c with Incoming => true | _ => false end.

Definition pool_free (s : Server) : bool :=
  match threads with Some n => length (filter (λ c, serving c = true) (conns s)) <? n | None => true end.

Inductive action :=
| Accept           (* the loop of [run] *)
| Start (i : nat)  (* a thread of the pool takes a job, in any order *)
| Run (i : nat)    (* the job takes an action *)
| Finish (i : nat). (* the job is done *)

Definition set_conn (i : nat) (c : Conn) (s : Server) : Server := mkServer (store s) (<[i := c]> (conns s)) (trace s).

(** [engine.clone()] of the connection [i] is the clone with the reader [S i], which has no
    handles before it is used ([clone_reader]); the reader 0 is the one of [self.engine]. *)
Definition server_act (a : action) (s : Server) : option Server :=
  match a with
  | Accept =>
      match list_find (λ c, waiting c = true) (conns s) with
      | Some (i, c) => Some (set_conn i (mkConn (c_stream c) (Queued (connection_job (S i) (c_stream c)))) s)
      | None => None
      end
  | Start i =>
      match conns s !! i with
      | Some (mkConn stream (Queued job)) =>
          if pool_free s then Some (set_conn i (mkConn stream (Serving job)) s) else None
      | _ => None
      end
  | Run i =>
      match conns s !! i with
      | Some (mkConn (inl sock) (Serving (Act f))) =>
          match f (store s, sock) with
          | Some ((w', sock'), job') =>
              Some (mkServer w' (<[i := mkConn (inl sock') (Serving job')]> (conns s))
                      (trace s ++ (pair i <$> observed sock sock')))
          | None => None
          end
      | _ => None
      end
  | Finish i =>
      match conns s !! i with
      | Some (mkConn stream (Serving (Done r))) => Some (set_conn i (mkConn stream (Closed r)) s)
      | _ => None
      end
  end.

Fixpoint server_acts (l : list action) (s : Server) : option Server :=
  match l with
  | [] => Some s
  | a :: l' => s' ← server_act a s; server_acts l' s'
  end.

(** All connections that come have been served. *)
Definition all_served (s : Server) : Prop := Forall (λ c, ∃ r, c_stage c = Closed r) (conns s).
End server.
