(* ===== verification/ConcServerSpec.v ===== *)
(** * The server of project-4 serves as its clients would use the store themselves

    Each run of the server is a run of clients of the store ([ConcHist]), one for each
    connection: a client calls an operation when the server has read the request, and
    returns when the server writes the response. What the theorems on clients say
    therefore holds of what passes over the connections. *)

From S2P Require Import Prelude Fs Command KvsEngine Conc ConcStore Net NetSpec Lin LinOps ConcHist ConcRuns ConcServer.

Section spec.
Context `{!SerdeJson Command} {policy : BufWriterPolicy} `{!Wire} `{!WireLaws} (io_msg : IoError → string) (threads : option nat).

#[local] Abbreviation request_bytes := (λ o, to_writer (request o)).
#[local] Abbreviation response := (response io_msg).

(** ** What passes over a connection *)

(** The operations that a connection has had, with their replies; the one it is at; and
    those to come. *)
Record Track := mkTrack { t_done : list (Op * Reply KvsError); t_cur : option Op; t_rest : list Op }.

Definition exchange (x : Op * Reply KvsError) : list Wired := [Read (request_bytes x.1); Wrote (response x.1 x.2)].

Definition passed (d : Track) : list Wired :=
  mjoin (exchange <$> t_done d) ++ match t_cur d with Some o => [Read (request_bytes o)] | None => [] end.

(** What has passed over the connection [i]. *)
Definition over (i : nat) (tr : list (nat * Wired)) : list Wired :=
  omap (λ e, if decide (e.1 = i) then Some e.2 else None) tr.

Lemma over_snoc i j ev tr : over i (tr ++ [(j, ev)]) = over i tr ++ if decide (j = i) then [ev] else [].
Proof. unfold over. rewrite omap_app. cbn. by destruct (decide (j = i)). Qed.

(** The event that happened at the time [t]. *)
Definition at_time (tr : list (nat * Wired)) (times : list Z) (i : nat) (t : Z) (ev : Wired) : Prop :=
  ∃ k, times !! k = Some t ∧ tr !! k = Some (i, ev).

Lemma at_time_app tr times tr' times' i t ev : at_time tr times i t ev → at_time (tr ++ tr') (times ++ times') i t ev.
Proof. intros (k & Ht & Hk). exists k. by split; apply lookup_app_l_Some. Qed.

Lemma at_time_last tr times i t ev : length times = length tr → at_time (tr ++ [(i, ev)]) (times ++ [t]) i t ev.
Proof. intros Hl. exists (length tr). split; [rewrite <-Hl|]; apply list_lookup_middle; done. Qed.

(** The trace of the server and the history of the clients: [times] are the times of the
    clients at which the events of the trace happened, [cur] is what they are at. *)
Record traced (tr : list (nat * Wired)) (times : list Z) (cur : nat → option (Op * Z))
    (hist : list (Operation Op (Reply KvsError))) (now : Z) (ds : list Track) : Prop := {
  td_over : ∀ i d, ds !! i = Some d → over i tr = passed d;
  td_length : length times = length tr;
  td_sorted : StronglySorted Z.lt times;
  td_now : Forall (λ t, t < now)%Z times;
  td_cur : ∀ i o t, cur i = Some (o, t) → at_time tr times i t (Read (request_bytes o));
  td_hist : ∀ a, a ∈ hist → ∃ i, at_time tr times i (op_call a) (Read (request_bytes (op_input a))) ∧
    at_time tr times i (op_finish a) (Wrote (response (op_input a) (op_output a)));
  td_all : ∀ t, t ∈ times → (∃ a, a ∈ hist ∧ (op_call a = t ∨ op_finish a = t)) ∨ ∃ i o, cur i = Some (o, t);
}.

Lemma traced_same tr times cur cur' hist now now' ds : traced tr times cur hist now ds → (∀ i, cur' i = cur i) → (now <= now')%Z →
  traced tr times cur' hist now' ds.
Proof.
  intros [] Hcur Hle. split; try done.
  - eapply Forall_impl; [done|]. simpl. lia.
  - intros i o t. rewrite Hcur. apply td_cur0.
  - setoid_rewrite Hcur. done.
Qed.

Lemma sorted_snoc times now : StronglySorted Z.lt times → Forall (λ t, t < now)%Z times → StronglySorted Z.lt (times ++ [now]).
Proof.
  intros Hs Hf. apply StronglySorted_app. split_and!; [|done|by repeat constructor].
  intros a b Ha ->%list_elem_of_singleton. by rewrite Forall_forall in Hf; apply Hf.
Qed.

Lemma forall_snoc times now : Forall (λ t, t < now)%Z times → Forall (λ t, t < now + 1)%Z (times ++ [now]).
Proof. intros Hf. apply Forall_app. split; [eapply Forall_impl; [done|]; simpl; lia|]. constructor; [lia|constructor]. Qed.

(** A request is read. *)
Lemma traced_call tr times cur cur' hist now ds i o d rest :
  traced tr times cur hist now ds → ds !! i = Some (mkTrack d None (o :: rest)) → cur i = None →
  cur' i = Some (o, now) → (∀ j, j ≠ i → cur' j = cur j) →
  traced (tr ++ [(i, Read (request_bytes o))]) (times ++ [now]) cur' hist (now + 1) (<[i := mkTrack d (Some o) rest]> ds).
Proof.
  intros [] Hd Hcur Hcur' Hne. pose proof (lookup_lt_Some _ _ _ Hd) as Hlt. split.
  - intros j d'. rewrite over_snoc. destruct (decide (i = j)) as [<-|Hij].
    + rewrite list_lookup_insert_eq by done. intros [= <-]. rewrite (td_over0 _ _ Hd). unfold passed. simpl. by rewrite app_nil_r.
    + rewrite list_lookup_insert_ne, app_nil_r by done. apply td_over0.
  - rewrite !length_app. simpl. lia.
  - by apply sorted_snoc.
  - by apply forall_snoc.
  - intros j o' t. destruct (decide (j = i)) as [->|Hij].
    + rewrite Hcur'. intros [= <- <-]. by apply at_time_last.
    + rewrite Hne by done. intros Hc. apply at_time_app, td_cur0, Hc.
  - intros a (j & ? & ?)%td_hist0. exists j. by split; apply at_time_app.
  - intros t [Ht| ->%list_elem_of_singleton]%elem_of_app; [|right; by exists i, o].
    destruct (td_all0 _ Ht) as [?|(j & o' & Hj)]; [by left|right]. exists j, o'. rewrite Hne; [done|]. intros ->. congruence.
Qed.

(** A response is written. *)
Lemma traced_return tr times cur cur' hist now ds i o t r d rest :
  traced tr times cur hist now ds → ds !! i = Some (mkTrack d (Some o) rest) → cur i = Some (o, t) →
  cur' i = None → (∀ j, j ≠ i → cur' j = cur j) →
  traced (tr ++ [(i, Wrote (response o r))]) (times ++ [now]) cur' (hist ++ [mkOp o t r now]) (now + 1)
    (<[i := mkTrack (d ++ [(o, r)]) None rest]> ds).
Proof.
  intros [] Hd Hcur Hcur' Hne. pose proof (lookup_lt_Some _ _ _ Hd) as Hlt. split.
  - intros j d'. rewrite over_snoc. destruct (decide (i = j)) as [<-|Hij].
    + rewrite list_lookup_insert_eq by done. intros [= <-]. rewrite (td_over0 _ _ Hd). unfold passed. simpl.
      by rewrite fmap_app, join_app, <-!app_assoc.
    + rewrite list_lookup_insert_ne, app_nil_r by done. apply td_over0.
  - rewrite !length_app. simpl. lia.
  - by apply sorted_snoc.
  - by apply forall_snoc.
  - intros j o' t'. destruct (decide (j = i)) as [->|Hij]; [by rewrite Hcur'|].
    rewrite Hne by done. intros Hc. apply at_time_app, td_cur0, Hc.
  - intros a [(j & ? & ?)%td_hist0| ->%list_elem_of_singleton]%elem_of_app; [exists j; by split; apply at_time_app|].
    exists i. simpl. split; [apply at_time_app, td_cur0, Hcur|by apply at_time_last].
  - intros t' [Ht| ->%list_elem_of_singleton]%elem_of_app.
    + destruct (td_all0 _ Ht) as [(a & ? & ?)|(j & o' & Hj)]; [left; exists a; set_solver|].
      destruct (decide (j = i)) as [->|Hij]; [left|right; exists j, o'; by rewrite Hne].
      rewrite Hcur in Hj. injection Hj as -> ->. exists (mkOp o' t' r now). split; [set_solver|by left].
    + left. exists (mkOp o t r now). split; [set_solver|by right].
Qed.
(** ** What the server did, as a history *)

(** The operations of [hist] are what passed over the connections: each has the position
    in the trace of its request and of its response for times, both on one connection;
    nothing else passed, and no request is answered twice. *)
Record served (tr : list (nat * Wired)) (hist : list (Operation Op (Reply KvsError))) : Prop := {
  se_ops : ∀ a, a ∈ hist → ∃ i k l, op_call a = Z.of_nat k ∧ op_finish a = Z.of_nat l ∧
    tr !! k = Some (i, Read (request_bytes (op_input a))) ∧
    tr !! l = Some (i, Wrote (response (op_input a) (op_output a)));
  se_all : ∀ k, k < length tr → ∃ a, a ∈ hist ∧ (op_call a = Z.of_nat k ∨ op_finish a = Z.of_nat k);
  se_once : NoDup (op_call <$> hist);
}.

(** The position of a time. *)
Definition rank (times : list Z) (t : Z) : Z := Z.of_nat (length (filter (λ x, x < t)%Z times)).

Lemma rank_mono times x y : (x <= y)%Z → (rank times x <= rank times y)%Z.
Proof.
  intros Hle. unfold rank. apply inj_le. induction times as [|t times IH]; [done|].
  rewrite !filter_cons. repeat case_decide; simpl; lia.
Qed.

Lemma rank_lookup times k t : StronglySorted Z.lt times → times !! k = Some t → rank times t = Z.of_nat k.
Proof.
  unfold rank. intros Hs Ht. f_equal. revert k Ht. induction Hs as [|x times Hs IH Hx]; intros k Ht; [done|].
  rewrite Forall_forall in Hx. rewrite filter_cons. destruct k as [|k]; simplify_eq/=.
  - rewrite decide_False by lia. assert (filter (λ y, (y < t)%Z) times = []) as ->; [|done].
    apply elem_of_nil_inv. intros y [Hy Hin]%list_elem_of_filter. specialize (Hx _ Hin). lia.
  - rewrite decide_True by (apply Hx; by eapply list_elem_of_lookup_2). simpl. f_equal. by apply IH.
Qed.

Lemma traced_served tr times cur hist now ds : traced tr times cur hist now ds → (∀ i, cur i = None) → NoDup (op_call <$> hist) →
  served tr (retime (rank times) <$> hist).
Proof.
  intros [] Hcur Hnd.
  assert (∀ i t ev, at_time tr times i t ev → ∃ k, rank times t = Z.of_nat k ∧ times !! k = Some t ∧ tr !! k = Some (i, ev)) as Hat.
  { intros i t ev (k & Ht & Hk). exists k. split; [by eapply rank_lookup|done]. }
  split.
  - intros a (a0 & -> & Ha)%list_elem_of_fmap. destruct (td_hist0 _ Ha) as (i & Hc & Hf).
    destruct (Hat _ _ _ Hc) as (k & Hk & _ & Htk), (Hat _ _ _ Hf) as (l & Hl & _ & Htl). by exists i, k, l.
  - intros k Hk. destruct (lookup_lt_is_Some_2 times k) as [t Ht]; [lia|].
    pose proof (rank_lookup _ _ _ td_sorted0 Ht) as Hr.
    destruct (td_all0 t) as [(a & Ha & Hor)|(i & o & Hi)]; [by eapply list_elem_of_lookup_2| |by rewrite Hcur in Hi].
    exists (retime (rank times) a). split; [by apply list_elem_of_fmap_2|]. rewrite <-Hr. simpl. destruct Hor as [->| ->]; auto.
  - rewrite <-list_fmap_compose. apply NoDup_fmap_2_strong; [|by eapply NoDup_fmap_1].
    intros a b Ha Hb Heq. simpl in Heq. destruct (td_hist0 _ Ha) as (i & Hc & _), (td_hist0 _ Hb) as (j & Hd & _).
    destruct (Hat _ _ _ Hc) as (k & Hk & Htk & _), (Hat _ _ _ Hd) as (l & Hl & Htl & _).
    assert (k = l) as -> by lia. rewrite Htk in Htl. injection Htl as Htl.
    apply list_elem_of_lookup in Ha as [x Hx], Hb as [y Hy]. assert (x = y) as ->; [|congruence].
    eapply NoDup_lookup; [exact Hnd|by rewrite list_lookup_fmap, Hx|]. rewrite list_lookup_fmap, Hy. simpl. congruence.
Qed.

(** What overlaps does so at the positions in the trace. *)
Lemma may_miss_retime c f hist a : (∀ x y, (x <= y)%Z → (f x <= f y)%Z) →
  may_miss c hist a = true → may_miss c (retime f <$> hist) (retime f a) = true.
Proof.
  intros Hf. unfold may_miss. cbn [op_input op_output retime]. destruct (op_input a) as [k v|k|k]; [done| |done].
  destruct (op_output a) as [|[|]|]; [done..| |done]. rewrite !existsb_exists. intros (b & Hb%list_elem_of_In & Hrep).
  exists (retime f b). split; [by apply list_elem_of_In, list_elem_of_fmap_2|].
  unfold overlaps in *. rewrite !andb_true_iff, !Z.leb_le in *. cbn. destruct Hrep as (? & ? & ?). auto.
Qed.

Lemma traced_linearizable ok m0 c tr times cur hist now ds : traced tr times cur hist now ds →
  ops_linearizable (Model0 := MapModel ok m0) (known c hist) →
  ops_linearizable (Model0 := MapModel ok m0) (known c (retime (rank times) <$> hist)).
Proof.
  intros []. apply replayed_linearizable; unfold known; [by rewrite !length_fmap|..].
  - intros i a b. rewrite !list_lookup_fmap. destruct (hist !! i) as [h|]; [|done]. intros [= <-] [= <-]. split; [done|].
    intros m m'. cbn. destruct (may_miss c hist h) eqn:Hm; [by rewrite (may_miss_retime _ _ _ _ (rank_mono times))|].
    destruct (may_miss c (retime _ <$> hist) (retime _ h)); [|done]. destruct (spec_op _ _ _) as [r m1]. by intros [= _ ->].
  - intros i j (a & b & Ha & Hb & Ht). rewrite !list_lookup_fmap in Ha, Hb.
    destruct (hist !! i) as [x|] eqn:Hi; [|done]. destruct (hist !! j) as [y|] eqn:Hj; [|done]. injection Ha as <-. injection Hb as <-.
    exists (known_op c hist x), (known_op c hist y). rewrite !list_lookup_fmap, Hi, Hj. split_and!; [done..|]. cbn in Ht |- *.
    destruct (td_hist0 x) as (i' & _ & k & Hk & _); [by eapply list_elem_of_lookup_2|].
    destruct (td_hist0 y) as (j' & (l & Hl & _) & _); [by eapply list_elem_of_lookup_2|].
    destruct Ht as [Hlt|[Heq Hij]]; [left|right].
    + destruct (Z.lt_ge_cases (op_finish x) (op_call y)) as [|Hge]; [done|]. pose proof (rank_mono times _ _ Hge). lia.
    + split; [|done]. revert Heq. rewrite (rank_lookup _ _ _ td_sorted0 Hk), (rank_lookup _ _ _ td_sorted0 Hl). intros ?%Nat2Z.inj. congruence.
Qed.

(** ** The connections and the clients *)

#[local] Abbreviation SP := (prog KvsError (World * Socket)).

(** A connection that comes: the operations that its client asks for, and what it sends
    after them; or an error of [accept]. *)
#[local] Abbreviation plan := (list Op * bytes + IoError)%type.

Definition socket_at (d : Track) (g : bytes) : Socket :=
  mkSocket (requests (t_rest d) ++ g) (mjoin ((λ x, response x.1 x.2) <$> t_done d)) None.

Definition stream_of (p : plan) : Socket + IoError :=
  match p with inl (os, g) => inl (mkSocket (requests os ++ g) [] None) | inr e => inr e end.

Definition plan_ops (p : plan) : list Op := match p with inl (os, _) => os | inr _ => [] end.

Definition track_ops (d : Track) : list Op := (t_done d).*1 ++ option_list (t_cur d) ++ t_rest d.

(** What is left of a job when the operation is over: it writes the response. *)
Definition replies {A} (o : Op) (f : A → Reply KvsError) (k : KvsError + A → SP unit) : Prop :=
  ∀ r, response o (reply_of f r) ≠ [] ∧ ∃ m, k r = atomic m ∧ ∀ w sock, s_room sock = None →
    m (w, sock) = (Ok tt, (w, mkSocket (s_in sock) (s_out sock ++ response o (reply_of f r)) None)).

Inductive conn_rel (i : nat) (g : bytes) : Socket → Stage → Client → Track → Prop :=
| rel_waiting stage rest d : d = mkTrack [] None rest →
    (stage = Incoming ∨ stage = Queued (connection_job io_msg (S i) (inl (socket_at d g)))) →
    conn_rel i g (socket_at d g) stage (mkClient rest None) d
| rel_loop fuel prev rest d : d = mkTrack prev None rest → length (s_in (socket_at d g)) < fuel →
    conn_rel i g (socket_at d g) (Serving (logged (serve_loop io_msg fuel (S i)))) (mkClient rest None) d
| rel_op fuel prev rest o t A (f : A → Reply KvsError) k p d : d = mkTrack prev (Some o) rest →
    length (s_in (socket_at d g)) < fuel → replies o f k →
    conn_rel i g (socket_at d g) (Serving (logged ((on_store p ≫= k) ≫= λ _, serve_loop io_msg fuel (S i))))
      (mkClient rest (Some (o, t, true, p ≫= λ r, mret (reply_of f r)))) d
| rel_end stage prev d : d = mkTrack prev None [] → (stage = Serving (Done (Ok tt)) ∨ stage = Closed (Ok tt)) →
    conn_rel i g (socket_at d g) stage (mkClient [] None) d.

Definition conn_ok (i : nat) (p : plan) (c : Conn) (cl : Client) (d : Track) : Prop :=
  track_ops d = plan_ops p ∧
  match p with
  | inl (_, g) => tail_ok g ∧ ∃ sock, c_stream c = inl sock ∧ conn_rel i g sock (c_stage c) cl d
  | inr e => c_stream c = inr e ∧ cl = mkClient [] None ∧ d = mkTrack [] None [] ∧
      (c_stage c = Incoming ∨ c_stage c = Queued (mret tt) ∨ c_stage c = Serving (mret tt) ∨ c_stage c = Closed (Ok tt))
  end.

(** What the client [i] is at. *)
Definition current (cs : System) (i : nat) : option (Op * Z) :=
  match clients cs !! i with Some (mkClient _ (Some (o, t, _, _))) => Some (o, t) | _ => None end.

Record sim (plans : list plan) (s : Server) (cs : System) (ds : list Track) (times : list Z) : Prop := {
  sm_world : world cs = store s;
  sm_conns : length (conns s) = length plans;
  sm_clients : length (clients cs) = length plans;
  sm_tracks : length ds = length plans;
  sm_conn : ∀ i p c cl d, plans !! i = Some p → conns s !! i = Some c → clients cs !! i = Some cl → ds !! i = Some d →
    conn_ok i p c cl d;
  sm_traced : traced (trace s) times (current cs) (history cs) (now cs) ds;
}.

Lemma sim_lookup plans s cs ds times i c : sim plans s cs ds times → conns s !! i = Some c → ∃ p cl d,
  plans !! i = Some p ∧ clients cs !! i = Some cl ∧ ds !! i = Some d ∧ conn_ok i p c cl d.
Proof.
  intros Hs Hc. pose proof (lookup_lt_Some _ _ _ Hc) as Hlt. rewrite (sm_conns _ _ _ _ _ Hs) in Hlt.
  destruct (lookup_lt_is_Some_2 plans i) as [p Hp]; [done|].
  destruct (lookup_lt_is_Some_2 (clients cs) i) as [cl Hcl]; [by rewrite (sm_clients _ _ _ _ _ Hs)|].
  destruct (lookup_lt_is_Some_2 ds i) as [d Hd]; [by rewrite (sm_tracks _ _ _ _ _ Hs)|].
  exists p, cl, d. split_and!; try done. by eapply (sm_conn _ _ _ _ _ Hs).
Qed.

(** One connection changes, with its client. *)
Lemma sim_insert plans s cs ds times i p c' cl' d' w' n' tr' hist' times' :
  sim plans s cs ds times → plans !! i = Some p → conn_ok i p c' cl' d' →
  traced tr' times' (current (mkSystem w' n' (<[i := cl']> (clients cs)) hist')) hist' n' (<[i := d']> ds) →
  sim plans (mkServer w' (<[i := c']> (conns s)) tr') (mkSystem w' n' (<[i := cl']> (clients cs)) hist') (<[i := d']> ds) times'.
Proof.
  intros Hs Hp Hok Htr. pose proof (lookup_lt_Some _ _ _ Hp) as Hlt. destruct Hs.
  split; cbn [world store conns clients history now trace]; rewrite ?length_insert; try done.
  intros j q c cl d Hq. destruct (decide (j = i)) as [->|Hne].
  - rewrite !list_lookup_insert_eq by congruence. intros. by simplify_eq.
  - rewrite !list_lookup_insert_ne by done. by apply sm_conn0.
Qed.

Lemma current_insert cs i cl' w' n' hist' : i < length (clients cs) →
  current (mkSystem w' n' (<[i := cl']> (clients cs)) hist') i = match cl' with mkClient _ (Some (o, t, _, _)) => Some (o, t) | _ => None end ∧
  ∀ j, j ≠ i → current (mkSystem w' n' (<[i := cl']> (clients cs)) hist') j = current cs j.
Proof.
  intros Hi. unfold current. cbn [clients]. split; [by rewrite list_lookup_insert_eq|].
  intros j Hj. by rewrite list_lookup_insert_ne.
Qed.
(** A connection changes, its client does not. *)
Lemma sim_stage plans s cs ds times i p c' cl d : sim plans s cs ds times → plans !! i = Some p →
  clients cs !! i = Some cl → ds !! i = Some d → conn_ok i p c' cl d → sim plans (set_conn i c' s) cs ds times.
Proof.
  intros Hs Hp Hcl Hd Hok. destruct Hs. split; cbn [store conns trace set_conn]; rewrite ?length_insert; try done.
  intros j q c cl' d' Hq. pose proof (lookup_lt_Some _ _ _ Hp) as Hlt. destruct (decide (j = i)) as [->|Hne].
  - rewrite !list_lookup_insert_eq by congruence. intros. by simplify_eq.
  - rewrite !list_lookup_insert_ne by done. by apply sm_conn0.
Qed.

(** ** The steps *)

Lemma writer_pos {A} `{!SerdeJson A} `{!SerdeLaws A} (a : A) : to_writer a ≠ [].
Proof. intros He. pose proof (next_app a []) as Hn. rewrite He in Hn. simpl in Hn. by rewrite next_nil in Hn. Qed.

Lemma send_replies {A B} `{!SerdeJson B} `{!SerdeLaws B} o (f : A → Reply KvsError) (resp : KvsError + A → B) :
  (∀ r, response o (reply_of f r) = to_writer (resp r)) → replies o f (λ r, atomic (send_resp (resp r))).
Proof.
  intros Hr r. rewrite Hr. split; [apply writer_pos|]. exists (send_resp (resp r)). split; [done|].
  intros w sock Hroom. unfold send_resp. by rewrite Hroom.
Qed.

(** What the server does with a request is the operation of the client, and the response. *)
Lemma handle_op i o : ∃ A (f : A → Reply KvsError) p k,
  handle io_msg i (request o) = on_store p ≫= k ∧ client_op i o = p ≫= (λ r, mret (reply_of f r)) ∧ replies o f k.
Proof.
  destruct o as [key value|key|key].
  - exists unit, (λ _, RDone), (result (set key value)). eexists. split; [reflexivity|]. split; [reflexivity|].
    apply (send_replies (OpSet key value) _ (λ r, match r with inr _ => SetResponse_Ok | inl e => SetResponse_Err (display io_msg e) end)). by intros [].
  - exists (option string), RValue, (result (get i key)). eexists. split; [reflexivity|]. split; [reflexivity|].
    apply (send_replies (OpGet key) _ (λ r, match r with inr v => GetResponse_Ok v | inl e => GetResponse_Err (display io_msg e) end)). by intros [].
  - exists unit, (λ _, RDone), (result (remove key)). eexists. split; [reflexivity|]. split; [reflexivity|].
    apply (send_replies (OpRemove key) _ (λ r, match r with inr _ => RemoveResponse_Ok | inl e => RemoveResponse_Err (display io_msg e) end)). by intros [].
Qed.

(** What is read of a connection. *)
Lemma next_request_ok w o g out : next_request (w, mkSocket (request_bytes o ++ g) out None) = (Ok (Some (request o)), (w, mkSocket g out None)).
Proof. unfold next_request. mpure. cbn [s_in]. rewrite next_app. mpure. by rewrite drop_blen. Qed.

Lemma next_request_end w g out : tail_ok g → ∃ r, next_request (w, mkSocket g out None) = (r, (w, mkSocket g out None)) ∧
  (r = Ok None ∨ ∃ e, r = Err e).
Proof.
  intros Hg. unfold next_request, gets, mbind, M_bind. cbn. destruct Hg as [->|[e He]].
  - rewrite next_nil. eexists. split; [done|by left].
  - unfold tail_result in He. destruct (stream_next g) as [[[]|e']|]; [done| |done]. eexists. split; [done|right; by eexists].
Qed.

Lemma observed_same sock : observed sock sock = [].
Proof. unfold observed. by rewrite !Nat.ltb_irrefl. Qed.

Lemma observed_read (a g out : bytes) : a ≠ [] → observed (mkSocket (a ++ g) out None) (mkSocket g out None) = [Read a].
Proof.
  intros Ha. unfold observed. cbn [s_in s_out]. rewrite Nat.ltb_irrefl, app_nil_r, length_app.
  destruct a as [|x a]; [done|]. destruct (Nat.ltb_spec (length g) (length (x :: a) + length g)); [|simpl in *; lia].
  by rewrite Nat.add_sub, take_app_length.
Qed.

Lemma observed_wrote (b inp out : bytes) : b ≠ [] → observed (mkSocket inp out None) (mkSocket inp (out ++ b) None) = [Wrote b].
Proof.
  intros Hb. unfold observed. cbn [s_in s_out]. rewrite Nat.ltb_irrefl, length_app.
  destruct b as [|x b]; [done|]. destruct (Nat.ltb_spec (length out) (length out + length (x :: b))); [|simpl in *; lia].
  by rewrite drop_app_length.
Qed.
(** A job that runs: at the start of the loop, at an operation, or over. *)
Lemma serving_inv i g sock job cl d : conn_rel i g sock (Serving job) cl d → sock = socket_at d g ∧
  ((∃ fuel prev rest, d = mkTrack prev None rest ∧ cl = mkClient rest None ∧ length (s_in sock) < S fuel ∧
      job = logged (serve_loop io_msg (S fuel) (S i))) ∨
   (∃ fuel prev rest o t A (f : A → Reply KvsError) k p, d = mkTrack prev (Some o) rest ∧ length (s_in sock) < fuel ∧ replies o f k ∧
      cl = mkClient rest (Some (o, t, true, p ≫= λ r, mret (reply_of f r))) ∧
      job = logged ((on_store p ≫= k) ≫= λ _, serve_loop io_msg fuel (S i))) ∨
   (∃ prev, d = mkTrack prev None [] ∧ cl = mkClient [] None ∧ job = Done (Ok tt))).
Proof.
  inversion 1; subst; split; try done.
  - naive_solver.
  - left. destruct fuel as [|fuel]; [lia|]. by exists fuel, prev, rest.
  - right; left. by exists fuel, prev, rest, o, t, A, f, k, p.
  - right; right. exists prev. naive_solver.
Qed.

#[local] Abbreviation client_step := (client_step (λ i, client_op (S i)) None).

Lemma track_ops_call prev o rest : track_ops (mkTrack prev (Some o) rest) = track_ops (mkTrack prev None (o :: rest)).
Proof. done. Qed.

Lemma track_ops_return prev o r rest : track_ops (mkTrack (prev ++ [(o, r)]) None rest) = track_ops (mkTrack prev (Some o) rest).
Proof. unfold track_ops. simpl. by rewrite fmap_app, <-app_assoc. Qed.

(** At the start of the loop: the next request is read, or there is none. *)
Lemma sim_loop plans s cs ds times i p g fuel prev rest f job' w' sock' sock :
  sim plans s cs ds times → plans !! i = Some p → (∃ os, p = inl (os, g)) → tail_ok g →
  clients cs !! i = Some (mkClient rest None) → ds !! i = Some (mkTrack prev None rest) →
  track_ops (mkTrack prev None rest) = plan_ops p →
  sock = socket_at (mkTrack prev None rest) g → length (s_in sock) < S fuel →
  Act f = logged (serve_loop io_msg (S fuel) (S i)) → f (store s, sock) = Some ((w', sock'), job') →
  ∃ cs' ds' times', (cs' = cs ∨ client_step i cs = Some cs') ∧
    sim plans (mkServer w' (<[i := mkConn (inl sock') (Serving job')]> (conns s)) (trace s ++ (pair i <$> observed sock sock'))) cs' ds' times'.
Proof.
  intros Hs Hp [os ->] Hg Hcl Hd Hall -> Hfuel Hf Hrun. cbn in Hf. injection Hf as ->. destruct rest as [|o rest].
  - destruct (next_request_end (store s) g (mjoin ((λ x, response x.1 x.2) <$> prev)) Hg) as (r & Hr & Hcase).
    unfold socket_at in Hrun. cbn [t_rest t_done] in Hrun. change (requests [] ++ g) with g in Hrun. rewrite Hr in Hrun.
    exists cs, ds, times. split; [by left|]. cbn in Hrun.
    assert (w' = store s ∧ sock' = socket_at (mkTrack prev None []) g ∧ job' = Done (Ok tt)) as (-> & -> & ->).
    { destruct Hcase as [->|[e ->]]; cbn in Hrun; by injection Hrun as <- <- <-. }
    rewrite observed_same, app_nil_r. eapply sim_stage; [exact Hs|exact Hp|exact Hcl|exact Hd|].
    split; [done|]. split; [done|]. eexists. split; [done|]. eapply rel_end; [done|by left].
  - set (d := mkTrack prev None (o :: rest)) in *. set (d' := mkTrack prev (Some o) rest).
    assert (socket_at d g = mkSocket (request_bytes o ++ requests rest ++ g) (mjoin ((λ x, response x.1 x.2) <$> prev)) None) as Hsock.
    { unfold socket_at, d. cbn [t_rest t_done]. by rewrite requests_cons, <-app_assoc. }
    rewrite Hsock, next_request_ok in Hrun. cbn in Hrun. injection Hrun as <- <- <-. rewrite Hsock, observed_read by apply writer_pos.
    destruct (handle_op (S i) o) as (A & ff & pp & k & Hh & Hc & Hrep).
    set (cl' := mkClient rest (Some (o, now cs, true, client_op (S i) o))).
    exists (mkSystem (world cs) (now cs + 1) (<[i := cl']> (clients cs)) (history cs)), (<[i := d']> ds), (times ++ [now cs]).
    split; [right; unfold ConcHist.client_step; by rewrite Hcl|]. rewrite <-(sm_world _ _ _ _ _ Hs).
    destruct (current_insert cs i cl' (world cs) (now cs + 1) (history cs)) as [Hcur Hne]; [by eapply lookup_lt_Some|].
    eapply sim_insert; [exact Hs|exact Hp| |].
    + split; [done|]. split; [done|]. eexists. split; [done|]. rewrite Hsock in Hfuel. cbn [s_in] in Hfuel. rewrite length_app in Hfuel.
      pose proof (writer_pos (request o)). destruct (to_writer (request o)) eqn:E; [done|]. simpl in Hfuel.
      change (mkSocket (requests rest ++ g) _ None) with (socket_at d' g). cbn [c_stage]. unfold cl'. rewrite Hc, Hh.
      apply (rel_op i g fuel prev rest o (now cs) A ff k pp d'); [done| |done]. unfold socket_at, d'. cbn [s_in t_rest]. lia.
    + eapply traced_call; [apply Hs|exact Hd| |exact Hcur|exact Hne]. unfold current. by rewrite Hcl.
Qed.
(** In an operation: the job takes an action of it, or writes the response. *)
Lemma sim_op plans s cs ds times i q g fuel prev rest o t A (ff : A → Reply KvsError) k p f job' w' sock' sock :
  sim plans s cs ds times → plans !! i = Some q → (∃ os, q = inl (os, g)) → tail_ok g →
  clients cs !! i = Some (mkClient rest (Some (o, t, true, p ≫= λ r, mret (reply_of ff r)))) → ds !! i = Some (mkTrack prev (Some o) rest) →
  track_ops (mkTrack prev (Some o) rest) = plan_ops q →
  sock = socket_at (mkTrack prev (Some o) rest) g → length (s_in sock) < fuel → replies o ff k →
  Act f = logged ((on_store p ≫= k) ≫= λ _, serve_loop io_msg fuel (S i)) → f (store s, sock) = Some ((w', sock'), job') →
  ∃ cs' ds' times', (cs' = cs ∨ client_step i cs = Some cs') ∧
    sim plans (mkServer w' (<[i := mkConn (inl sock') (Serving job')]> (conns s)) (trace s ++ (pair i <$> observed sock sock'))) cs' ds' times'.
Proof.
  intros Hs Hp [os ->] Hg Hcl Hd Hall -> Hfuel Hrep Hf Hrun. set (d := mkTrack prev (Some o) rest) in *.
  assert (i < length (clients cs)) as Hlt by by eapply lookup_lt_Some.
  destruct p as [r|fp].
  - destruct r as [x|e| |]; try done. destruct (Hrep x) as (Hne0 & m & Hk & Hm).
    change (Act f = logged (k x ≫= λ _, serve_loop io_msg fuel (S i))) in Hf. rewrite Hk in Hf. cbn in Hf. injection Hf as ->.
    set (r := reply_of ff x) in *. set (d' := mkTrack (prev ++ [(o, r)]) None rest).
    assert (socket_at d' g = mkSocket (s_in (socket_at d g)) (s_out (socket_at d g) ++ response o r) None) as Hsock.
    { unfold socket_at, d', d. cbn [t_rest t_done s_in s_out]. rewrite fmap_app, join_app. simpl. by rewrite app_nil_r. }
    rewrite (Hm (store s) (socket_at d g) eq_refl), <-Hsock in Hrun. injection Hrun as <- <- <-.
    assert (observed (socket_at d g) (socket_at d' g) = [Wrote (response o r)]) as ->.
    { rewrite Hsock. by apply observed_wrote. }
    exists (mkSystem (world cs) (now cs + 1) (<[i := mkClient rest None]> (clients cs)) (history cs ++ [mkOp o t r (now cs)])), (<[i := d']> ds), (times ++ [now cs]).
    split; [right; unfold ConcHist.client_step; rewrite Hcl; by destruct rest|]. rewrite <-(sm_world _ _ _ _ _ Hs).
    destruct (current_insert cs i (mkClient rest None) (world cs) (now cs + 1) (history cs ++ [mkOp o t r (now cs)]) Hlt) as [Hcur Hne].
    eapply sim_insert; [exact Hs|exact Hp| |].
    + split; [unfold d'; by rewrite track_ops_return|]. split; [done|]. eexists. split; [done|].
      apply (rel_loop i g fuel (prev ++ [(o, r)]) rest d'); [done|exact Hfuel].
    + eapply traced_return; [apply Hs|exact Hd| |exact Hcur|exact Hne]. unfold current. by rewrite Hcl.
  - cbn in Hf. injection Hf as ->. cbn in Hrun. destruct (fp (store s)) as [[w1 p1]|] eqn:Hfp; [|done]. cbn in Hrun. injection Hrun as <- <- <-.
    set (cl' := mkClient rest (Some (o, t, true, p1 ≫= λ r, mret (reply_of ff r)))).
    exists (mkSystem w1 (now cs + 1) (<[i := cl']> (clients cs)) (history cs)), (<[i := d]> ds), times.
    split; [right; unfold ConcHist.client_step; rewrite Hcl, (sm_world _ _ _ _ _ Hs); cbn; rewrite Hfp; by destruct rest|].
    rewrite observed_same, app_nil_r.
    destruct (current_insert cs i cl' w1 (now cs + 1) (history cs) Hlt) as [Hcur Hne].
    eapply sim_insert; [exact Hs|exact Hp| |].
    + split; [done|]. split; [done|]. eexists. split; [done|].
      apply (rel_op i g fuel prev rest o t A ff k p1 d); done.
    + rewrite (list_insert_id ds i d Hd). eapply traced_same; [apply Hs| |lia].
      intros j. destruct (decide (j = i)) as [->|Hj]; [rewrite Hcur; unfold current; by rewrite Hcl|by apply Hne].
Qed.

(** Every action of the server is one of a client, or none. *)
Lemma sim_act plans s cs ds times a s' : sim plans s cs ds times →
  (∀ i os o t b r, clients cs !! i = Some (mkClient os (Some (o, t, b, Done r))) → ∃ x, r = Ok x) →
  server_act io_msg threads a s = Some s' →
  ∃ cs' ds' times', (cs' = cs ∨ ∃ i, client_step i cs = Some cs') ∧ sim plans s' cs' ds' times'.
Proof.
  intros Hs Hok Hact. destruct a as [|i|i|i]; simpl in Hact.
  - destruct (list_find _ (conns s)) as [[i c]|] eqn:Hfind; [|done]. injection Hact as <-.
    apply list_find_Some in Hfind as (Hc & Hw & _). destruct (sim_lookup _ _ _ _ _ _ _ Hs Hc) as (p & cl & d & Hp & Hcl & Hd & Hall & Hrel).
    exists cs, ds, times. split; [by left|]. eapply sim_stage; [done..|]. split; [done|].
    destruct c as [stream stage]. destruct stage; try done. destruct p as [[os g]|e]; cbn [c_stream c_stage] in *.
    + destruct Hrel as (Hg & sock & -> & Hrel). split; [done|]. exists sock. split; [done|].
      inversion Hrel as [st rest d0 Hd0 Hst| | |st prev d0 Hd0 Hst]; subst; [|by destruct Hst].
      eapply rel_waiting; [done|by right].
    + destruct Hrel as (-> & -> & -> & _). split_and!; try done. right; by left.
  - destruct (conns s !! i) as [[stream [|job|job|r]]|] eqn:Hc; try done. destruct (pool_free threads s); [|done]. injection Hact as <-.
    destruct (sim_lookup _ _ _ _ _ _ _ Hs Hc) as (p & cl & d & Hp & Hcl & Hd & Hall & Hrel).
    exists cs, ds, times. split; [by left|]. eapply sim_stage; [done..|]. split; [done|].
    destruct p as [[os g]|e]; cbn [c_stream c_stage] in *.
    + destruct Hrel as (Hg & sock & -> & Hrel). split; [done|]. exists sock. split; [done|].
      inversion Hrel as [st rest d0 Hd0 Hst| | |st prev d0 Hd0 Hst]; subst; [|by destruct Hst].
      destruct Hst as [|Hst]; [done|]. injection Hst as ->. eapply rel_loop; [done|lia].
    + destruct Hrel as (-> & -> & -> & Hst). split_and!; try done. right; right; left. naive_solver.
  - destruct (conns s !! i) as [[[sock|e] [| |[r|f]|]]|] eqn:Hc; try done.
    destruct (f (store s, sock)) as [[[w' sock'] job']|] eqn:Hf; [|done]. injection Hact as <-.
    destruct (sim_lookup _ _ _ _ _ _ _ Hs Hc) as (p & cl & d & Hp & Hcl & Hd & Hall & Hrel).
    destruct p as [[os g]|e]; cbn [c_stream c_stage] in *; [|by destruct Hrel].
    destruct Hrel as (Hg & sock0 & [= <-] & Hrel).
    apply serving_inv in Hrel as (Hsock & [(fuel & prev & rest & -> & -> & Hfuel & Hjob)|[(fuel & prev & rest & o & t & A & ff & k & p & -> & Hfuel & Hrep & -> & Hjob)|(prev & _ & _ & Hjob)]]); [| |done].
    + destruct (sim_loop plans s cs ds times i (inl (os, g)) g fuel prev rest f job' w' sock' sock) as (cs' & ds' & times' & Hst & Hs'); try done; [by exists os|].
      exists cs', ds', times'. split; [destruct Hst; [by left|right; by exists i]|done].
    + destruct (sim_op plans s cs ds times i (inl (os, g)) g fuel prev rest o t A ff k p f job' w' sock' sock) as (cs' & ds' & times' & Hst & Hs'); try done; [by exists os|].
      exists cs', ds', times'. split; [destruct Hst; [by left|right; by exists i]|done].
  - destruct (conns s !! i) as [[stream [| |[r|f]|]]|] eqn:Hc; try done. injection Hact as <-.
    destruct (sim_lookup _ _ _ _ _ _ _ Hs Hc) as (p & cl & d & Hp & Hcl & Hd & Hall & Hrel).
    exists cs, ds, times. split; [by left|]. eapply sim_stage; [done..|]. split; [done|].
    destruct p as [[os g]|e]; cbn [c_stream c_stage] in *.
    + destruct Hrel as (Hg & sock & -> & Hrel). split; [done|]. exists sock. split; [done|].
      apply serving_inv in Hrel as (-> & [(fuel & prev & rest & -> & -> & Hfuel & Hjob)|[(fuel & prev & rest & o & t & A & ff & k & p & -> & Hfuel & Hrep & -> & Hjob)|(prev & -> & -> & [= ->])]]).
      * done.
      * exfalso. destruct p as [x|fp]; [|done]. destruct x as [x|e| |].
        -- destruct (Hrep x) as (_ & m & Hk & _). change (Done r = logged (k x ≫= λ _, serve_loop io_msg fuel (S i))) in Hjob. by rewrite Hk in Hjob.
        -- by destruct (Hok _ _ _ _ _ _ Hcl).
        -- by destruct (Hok _ _ _ _ _ _ Hcl).
        -- by destruct (Hok _ _ _ _ _ _ Hcl).
      * eapply rel_end; [done|by right].
    + destruct Hrel as (-> & -> & -> & Hst). split_and!; try done. right; right; right.
      destruct Hst as [|[|[[= ->]|]]]; done.
Qed.

(** ** Runs *)

Definition sent_well (p : plan) : Prop := match p with inl (_, g) => tail_ok g | inr _ => True end.

Lemma sim_start w plans : Forall sent_well plans →
  sim plans (listening w (stream_of <$> plans)) (start w (plan_ops <$> plans)) ((λ p, mkTrack [] None (plan_ops p)) <$> plans) [].
Proof.
  intros Hg. split; unfold listening, start; cbn [store conns clients world history now trace]; rewrite ?length_fmap; try done.
  - intros i p c cl d Hp Hc Hcl Hd. rewrite !list_lookup_fmap, Hp in Hc. rewrite !list_lookup_fmap, Hp in Hcl. rewrite list_lookup_fmap, Hp in Hd. simplify_eq/=.
    split; [done|]. rewrite Forall_forall in Hg. specialize (Hg p (list_elem_of_lookup_2 _ _ _ Hp)).
    destruct p as [[os g]|e]; cbn in *; [|by auto].
    split; [done|]. exists (socket_at (mkTrack [] None os) g). split; [done|]. eapply rel_waiting; [done|by left].
  - split; cbn; try done; try by constructor.
    + intros i d. rewrite list_lookup_fmap. destruct (plans !! i); [|done]. by intros [= <-].
    + intros i o t. unfold current. cbn. rewrite !list_lookup_fmap. by destruct (plans !! i).
    + by intros a ?%not_elem_of_nil.
    + by intros t ?%not_elem_of_nil.
Qed.

#[local] Abbreviation client_steps := (client_steps (λ i, client_op (S i)) None).

(** No client panics. *)
Definition unbroken (cs : System) : Prop := ∀ i os o t b r, clients cs !! i = Some (mkClient os (Some (o, t, b, Done r))) → ∃ x, r = Ok x.

Lemma sim_acts plans l s cs ds times s' : sim plans s cs ds times →
  (∀ sched cs', client_steps sched cs = Some cs' → unbroken cs') →
  server_acts io_msg threads l s = Some s' →
  ∃ sched cs' ds' times', client_steps sched cs = Some cs' ∧ sim plans s' cs' ds' times'.
Proof.
  revert s cs ds times. induction l as [|a l IH]; intros s cs ds times Hs Hok; simpl.
  - intros [= <-]. by exists [], cs, ds, times.
  - destruct (server_act io_msg threads a s) as [s1|] eqn:Ha; [|done]. intros Hrun.
    destruct (sim_act plans s cs ds times a s1) as (cs1 & ds1 & times1 & Hst & Hs1); [done|exact (Hok [] cs eq_refl)|done|].
    destruct Hst as [->|[i Hi]]; [by eapply IH|].
    destruct (IH _ _ _ _ Hs1) as (sched & cs' & ds' & times' & Hc & Hs'); [|done|].
    { intros sched cs' Hsteps. apply (Hok (i :: sched)). simpl. by rewrite Hi. }
    exists (i :: sched), cs', ds', times'. split; [simpl; by rewrite Hi|done].
Qed.

(** A connection that is done had a response for each of its requests. *)
Lemma sim_closed plans s cs ds times i p c r : sim plans s cs ds times → plans !! i = Some p → conns s !! i = Some c →
  c_stage c = Closed r → r = Ok tt ∧ clients cs !! i = Some (mkClient [] None) ∧
  ∃ xs, xs.*1 = plan_ops p ∧ over i (trace s) = mjoin (exchange <$> xs) ∧
    match p with inl (_, g) => c_stream c = inl (mkSocket g (mjoin ((λ x, response x.1 x.2) <$> xs)) None) | inr _ => True end.
Proof.
  intros Hs Hp Hc Hst. destruct (sim_lookup _ _ _ _ _ _ _ Hs Hc) as (p' & cl & d & Hp' & Hcl & Hd & Hall & Hrel). simplify_eq.
  pose proof (td_over _ _ _ _ _ _ (sm_traced _ _ _ _ _ Hs) _ _ Hd) as Hover. unfold passed in Hover.
  assert (r = Ok tt ∧ cl = mkClient [] None ∧ ∃ prev, d = mkTrack prev None [] ∧
    match p with inl (_, g) => c_stream c = inl (socket_at d g) | inr _ => True end) as (-> & -> & prev & -> & Hsock).
  { destruct p as [[os g]|e].
    - destruct Hrel as (_ & sock & Hsock & Hrel). rewrite Hst in Hrel. inversion Hrel as [st rest d0 Hd0 Hor| | |st prev d0 Hd0 Hor]; subst.
      + by destruct Hor.
      + destruct Hor as [|Hor]; [done|]. injection Hor as ->. split_and!; [done|done|]. by exists prev.
    - destruct Hrel as (_ & -> & -> & Hor). rewrite Hst in Hor. destruct Hor as [|[|[|[= ->]]]]; try done. split_and!; [done|done|]. by exists []. }
  cbn [t_done t_cur] in Hover. rewrite app_nil_r in Hover. unfold track_ops in Hall. cbn in Hall. rewrite app_nil_r in Hall.
  split_and!; [done|done|]. by exists prev.
Qed.

Lemma sim_finished plans s cs ds times : sim plans s cs ds times → all_served s → finished cs.
Proof.
  intros Hs Hall. apply Forall_lookup_2. intros i cl Hcl. pose proof (lookup_lt_Some _ _ _ Hcl) as Hlt.
  rewrite (sm_clients _ _ _ _ _ Hs) in Hlt. destruct (lookup_lt_is_Some_2 plans i Hlt) as [p Hp].
  destruct (lookup_lt_is_Some_2 (conns s) i) as [c Hc]; [by rewrite (sm_conns _ _ _ _ _ Hs)|].
  destruct (Forall_lookup_1 _ _ _ _ Hall Hc) as [r Hr]. destruct (sim_closed _ _ _ _ _ _ _ _ _ Hs Hp Hc Hr) as (_ & Hcl' & _).
  rewrite Hcl in Hcl'. injection Hcl' as ->. done.
Qed.

(** ** The server goes on *)

(** A job that is in an operation takes an action when its client takes a step. *)
Lemma sim_run_op plans s cs ds times i os o t p cs' : sim plans s cs ds times → unbroken cs →
  clients cs !! i = Some (mkClient os (Some (o, t, true, p))) → client_step i cs = Some cs' →
  ∃ s', server_act io_msg threads (Run i) s = Some s'.
Proof.
  intros Hs Hok Hcl Hstep. destruct (lookup_lt_is_Some_2 (conns s) i) as [c Hc].
  { rewrite (sm_conns _ _ _ _ _ Hs), <-(sm_clients _ _ _ _ _ Hs). by eapply lookup_lt_Some. }
  destruct (sim_lookup _ _ _ _ _ _ _ Hs Hc) as (q & cl & d & Hq & Hcl' & Hd & Hall & Hrel). rewrite Hcl in Hcl'. injection Hcl' as <-.
  destruct q as [[os' g]|e]; [|by destruct Hrel as (_ & ? & _)]. destruct Hrel as (Hg & sock & Hsock & Hrel).
  destruct c as [stream stage]. cbn in Hsock, Hrel. subst stream.
  inversion Hrel as [| |fuel prev rest o' t' A f k p' d' Hd' Hfuel Hrep|]; subst.
  simpl. rewrite Hc. destruct p' as [r|fp].
  - destruct r as [x0|e| |]; [|by destruct (Hok _ _ _ _ _ _ Hcl)..].
    destruct (Hrep x0) as (_ & m & Hk & Hm).
    change (logged ((on_store (Done (Ok x0)) ≫= k) ≫= λ _, serve_loop io_msg fuel (S i))) with (logged (k x0 ≫= λ _, serve_loop io_msg fuel (S i))).
    rewrite Hk. cbn. rewrite (Hm (store s) (socket_at (mkTrack prev (Some o) os) g) eq_refl). by eexists.
  - unfold ConcHist.client_step in Hstep. rewrite Hcl, (sm_world _ _ _ _ _ Hs) in Hstep. cbn in Hstep. cbn.
    destruct (fp (store s)) as [[w' p'']|]; [cbn; by eexists|by destruct os].
Qed.

Lemma serving_filter (l : list Conn) : (∀ i c, l !! i = Some c → serving c = false) → filter (λ c, serving c = true) l = [].
Proof.
  intros Hl. apply elem_of_nil_inv. intros c [Hs [i Hi]%list_elem_of_lookup]%list_elem_of_filter. by rewrite (Hl i c Hi) in Hs.
Qed.

(** The clients that run operations are not stuck. *)
Definition live (cs : System) : Prop := ∀ i os o t p, clients cs !! i = Some (mkClient os (Some (o, t, true, p))) →
  ∃ j os' o' t' p' cs', clients cs !! j = Some (mkClient os' (Some (o', t', true, p'))) ∧ client_step j cs = Some cs'.

Lemma sim_serving plans s cs ds times i c : sim plans s cs ds times → unbroken cs → live cs →
  conns s !! i = Some c → serving c = true → ∃ a s', server_act io_msg threads a s = Some s'.
Proof.
  intros Hs Hok Hlive Hc Hserv. destruct (sim_lookup _ _ _ _ _ _ _ Hs Hc) as (q & cl & d & Hq & Hcl & Hd & Hall & Hrel).
  destruct c as [stream [| |job|]]; try done. destruct q as [[os g]|e].
  - destruct Hrel as (Hg & sock & Hsock & Hrel). cbn in Hsock, Hrel. subst stream.
    apply serving_inv in Hrel as (Hsock & [(fuel & prev & rest & -> & -> & Hfuel & Hjob)|[(fuel & prev & rest & o & t & A & ff & k & p & -> & Hfuel & Hrep & -> & Hjob)|(prev & -> & -> & Hjob)]]); subst job.
    + exists (Run i). simpl. rewrite Hc. cbn. destruct (next_request _) as [r [w' sock']]. by eexists.
    + destruct (Hlive _ _ _ _ _ Hcl) as (j & os' & o' & t' & p' & cs' & Hj & Hstep).
      exists (Run j). by eapply sim_run_op.
    + exists (Finish i). simpl. rewrite Hc. by eexists.
  - destruct Hrel as (_ & _ & _ & Hor). cbn in Hor. exists (Finish i). simpl. rewrite Hc.
    destruct Hor as [|[|[[= ->]|]]]; try done. by eexists.
Qed.

Lemma sim_progress plans s cs ds times : sim plans s cs ds times → unbroken cs → live cs →
  (∀ n, threads = Some n → 0 < n) → all_served s ∨ ∃ a s', server_act io_msg threads a s = Some s'.
Proof.
  intros Hs Hok Hlive Hpos. destruct (list_find (λ c, waiting c = true) (conns s)) as [[i c]|] eqn:Hfind.
  { right. exists Accept. simpl. rewrite Hfind. by eexists. }
  destruct (list_find (λ c, serving c = true) (conns s)) as [[i c]|] eqn:Hfind'.
  { right. apply list_find_Some in Hfind' as (Hc & Hserv & _). by eapply sim_serving. }
  rewrite list_find_None in Hfind, Hfind'. rewrite Forall_lookup in Hfind. rewrite Forall_lookup in Hfind'.
  destruct (list_find (λ c, match c_stage c with Queued _ => true | _ => false end = true) (conns s)) as [[i c]|] eqn:Hq.
  - right. apply list_find_Some in Hq as (Hc & Hst & _). destruct c as [stream stage]. destruct stage as [|job| |]; try done.
    exists (Start i). simpl. rewrite Hc. assert (pool_free threads s = true) as ->; [|by eexists].
    unfold pool_free. destruct threads as [n|]; [|done]. rewrite serving_filter; [by apply Nat.ltb_lt, Hpos|].
    intros j c Hj. apply not_true_is_false. by eapply Hfind'.
  - left. apply list_find_None in Hq. rewrite Forall_lookup in Hq. apply Forall_lookup_2. intros i c Hc.
    specialize (Hfind _ _ Hc). specialize (Hfind' _ _ Hc). specialize (Hq _ _ Hc).
    unfold waiting in Hfind. unfold serving in Hfind'. destruct (c_stage c) as [| | |r]; try done. by exists r.
Qed.
End spec.

(** ** Every run of the server ends *)

Section ends.
Context `{!SerdeJson Command} {policy : BufWriterPolicy} `{!Wire} (io_msg : IoError → string) (threads : option nat).

(** A connection comes closer to its end. *)
Inductive nearer : Conn → Conn → Prop :=
| nearer_accept stream job : nearer (mkConn stream (Queued job)) (mkConn stream Incoming)
| nearer_start stream job : nearer (mkConn stream (Serving job)) (mkConn stream (Queued job))
| nearer_run stream stream' f st st' job' : f st = Some (st', job') →
    nearer (mkConn stream' (Serving job')) (mkConn stream (Serving (Act f)))
| nearer_finish stream r : nearer (mkConn stream (Closed r)) (mkConn stream (Serving (Done r))).

Lemma nearer_wf c : Acc nearer c.
Proof.
  assert (∀ stream r, Acc nearer (mkConn stream (Closed r))) as Hclosed.
  { constructor. intros c'. by inversion 1. }
  assert (∀ job stream, Acc nearer (mkConn stream (Serving job))) as Hserving.
  { intros job. induction job as [r|f IH] using prog_ind; intros stream; constructor; intros c'; inversion 1; subst; [apply Hclosed|by eapply IH]. }
  assert (∀ stream job, Acc nearer (mkConn stream (Queued job))) as Hqueued.
  { constructor. intros c'. inversion 1; subst. apply Hserving. }
  destruct c as [stream [|job|job|r]]; [|apply Hqueued|apply Hserving|apply Hclosed].
  constructor. intros c'. inversion 1; subst. apply Hqueued.
Qed.

Definition server_next (s' s : Server) : Prop := ∃ a, server_act io_msg threads a s = Some s'.

Lemma server_act_nearer a s s' : server_act io_msg threads a s = Some s' → one_less nearer (conns s') (conns s).
Proof.
  intros Ha. destruct a as [|i|i|i]; simpl in Ha.
  - destruct (list_find _ (conns s)) as [[i [stream stage]]|] eqn:Hf; [|done]. injection Ha as <-.
    apply list_find_Some in Hf as (Hc & Hw & _). destruct stage; try done. eexists i, _, _. split_and!; [exact Hc|constructor|done].
  - destruct (conns s !! i) as [[stream [|job|job|r]]|] eqn:Hc; try done. destruct (pool_free threads s); [|done]. injection Ha as <-.
    eexists i, _, _. split_and!; [exact Hc|constructor|done].
  - destruct (conns s !! i) as [[[sock|e] [| |[r|f]|]]|] eqn:Hc; try done.
    destruct (f (store s, sock)) as [[[w' sock'] job']|] eqn:Hf; [|done]. injection Ha as <-.
    eexists i, _, _. split_and!; [exact Hc|by econstructor|done].
  - destruct (conns s !! i) as [[stream [| |[r|f]|]]|] eqn:Hc; try done. injection Ha as <-.
    eexists i, _, _. split_and!; [exact Hc|constructor|done].
Qed.

Lemma server_next_wf s : Acc server_next s.
Proof.
  remember (conns s) as l eqn:Hl. revert s Hl. induction (one_less_wf nearer nearer_wf l) as [l _ IH]. intros s ->.
  constructor. intros s' [a Ha]. eapply IH; [by eapply server_act_nearer|done].
Qed.
End ends.
