(* ===== verification/ConcServerTheorems.v ===== *)
(** * Properties of the server of project-4

    Any number of connections served at the same time over the store of project-4, which
    was opened on a directory of logs; a witness runs two connections on a pool with two
    threads. *)

From S2P Require Import Prelude Fs Command Json KvsEngine LogTheory KvStore KvStoreSpec KvTheorems Conc ConcStore ConcStoreSpec ConcTheorems Net Codec NetSpec Lin LinOps ConcHist ConcRuns ConcInv ConcThread ConcLin ClientTheorems ConcServer ConcServerSpec.

Section theorems.
Context `{!SerdeJson Command} `{!SerdeLaws Command} `{!SerdeCut Command} {policy : BufWriterPolicy}.
Context `{!Wire} `{!WireLaws} (io_msg : IoError → string) (threads : option nat).

(** Any run of the server, with the clients of the store that do the same. *)
Lemma server4_run d C plans : disk_ok d C → enough C (plan_ops <$> plans) → Forall sent_well plans → ∃ w d', open d = (Ok w, d') ∧
  ∀ acts s, server_acts io_msg threads acts (listening w (stream_of <$> plans)) = Some s →
    ∃ cs ds times G ths pts, sim io_msg plans s cs ds times ∧
      sys_ok (meaning C) (kw_gen (w_writer w)) None reply_ok never never (λ i, Some (S i)) (length (plan_ops <$> plans)) G ths pts cs.
Proof.
  intros Hd Hn Hp. destruct (readers_run 1 d C (plan_ops <$> plans) Hd Hn) as (w & d' & Hopen & Hok).
  exists w, d'. split; [done|]. intros acts s Hs.
  destruct (sim_acts io_msg threads plans acts _ _ _ _ s (sim_start io_msg w plans Hp)) as (sched & cs & ds & times & Hcs & Hsim); [|done|].
  { intros sched cs Hcs i os o t b r Hcl. destruct (Hok _ _ Hcs) as (G & ths & pts & Hsys). by eapply sys_no_panic. }
  destruct (Hok _ _ Hcs) as (G & ths & pts & Hsys). by exists cs, ds, times, G, ths, pts.
Qed.

(** C3: the server of project-4 is linearizable as its clients see it. Whatever the
    interleaving of the jobs of the connections on the threads of the pool: when all
    connections have been served, each was closed without an error of the job, every
    request that came over it was answered, in the order of the requests, and the requests
    and responses of all connections, in the order in which the server read and wrote them,
    are a linearizable history of the map of the directory, but for two kinds of replies to a
    [get]: it may be the error of its read when a compaction has begun; and the reply that
    there is no such key, between the request and the response of which an operation that
    writes, and so may compact, was in progress, is left open ([known]). Every other reply
    is the one of the map. *)
Theorem server4_linearizable d C plans : disk_ok d C → enough C (plan_ops <$> plans) → Forall sent_well plans →
  ∃ w d', open d = (Ok w, d') ∧
    ∀ acts s, server_acts io_msg threads acts (listening w (stream_of <$> plans)) = Some s → all_served s →
      (∀ i os g, plans !! i = Some (inl (os, g)) → ∃ xs, xs.*1 = os ∧ over i (trace s) = mjoin (exchange io_msg <$> xs) ∧
        conns s !! i = Some (mkConn (inl (mkSocket g (mjoin ((λ x, response io_msg x.1 x.2) <$> xs)) None)) (Closed (Ok tt)))) ∧
      ∃ hist, served io_msg (trace s) hist ∧ ops_linearizable (Model0 := MapModel reply_ok (meaning C)) (known true hist) ∧
        (kw_gen (w_writer (store s)) = kw_gen (w_writer w) → ops_linearizable (Model0 := MapModel exact (meaning C)) (known false hist)).
Proof.
  intros Hd Hn Hp. destruct (server4_run d C plans Hd Hn Hp) as (w & d' & Hopen & Hrun). exists w, d'. split; [done|].
  intros acts s Hs Hall. destruct (Hrun _ _ Hs) as (cs & ds & times & G & ths & pts & Hsim & Hsys).
  pose proof (sim_finished _ _ _ _ _ _ Hsim Hall) as Hf. pose proof (sm_traced _ _ _ _ _ _ Hsim) as Ht. split.
  - intros i os g Hi. destruct (lookup_lt_is_Some_2 (conns s) i) as [c Hc].
    { rewrite (sm_conns _ _ _ _ _ _ Hsim). by eapply lookup_lt_Some. }
    destruct (Forall_lookup_1 _ _ _ _ Hall Hc) as [r Hr].
    destruct (sim_closed _ _ _ _ _ _ _ _ _ _ Hsim Hi Hc Hr) as (-> & _ & xs & Hxs & Hover & Hstream).
    exists xs. split_and!; [done|done|]. rewrite Hc. destruct c as [stream stage]. cbn in Hr, Hstream. by subst.
  - exists (retime (rank times) <$> history cs). split_and!.
    + eapply traced_served; [exact Ht| |by eapply so_hist_calls].
      intros i. unfold current. destruct (clients cs !! i) as [cl|] eqn:Hcl; [|done].
      destruct (Forall_lookup_1 _ _ _ _ Hf Hcl) as [_ Hr]. destruct cl as [os run]. cbn in Hr. by subst.
    + eapply traced_linearizable; [exact Ht|]. by eapply (sys_linearizable _ _ _ reply_ok).
    + intros Hg. eapply traced_linearizable; [exact Ht|]. eapply sys_linearizable; [done..| |].
      { rewrite (sys_no_compaction _ _ _ _ _ _ _ _ _ _ _ _ Hsys); [done|]. by rewrite (sm_world _ _ _ _ _ _ Hsim). }
      intros a r0 Ha. apply reply_ok_exact. eapply sys_uncompacted; [done| |done]. by rewrite (sm_world _ _ _ _ _ _ Hsim).
Qed.

(** C8: the server of project-4 is never stuck, when its pool has a thread: at each moment
    of each run no job has failed or panicked, all connections have been served or something
    can happen, and when no more connections come no run goes on forever. *)
Theorem server4_finishes d C plans : disk_ok d C → enough C (plan_ops <$> plans) → Forall sent_well plans →
  (∀ n, threads = Some n → 0 < n) →
  ∃ w d', open d = (Ok w, d') ∧
    ∀ acts s, server_acts io_msg threads acts (listening w (stream_of <$> plans)) = Some s →
      (∀ i stream r, conns s !! i = Some (mkConn stream (Closed r)) → r = Ok tt) ∧
      (all_served s ∨ ∃ a s', server_act io_msg threads a s = Some s') ∧
      Acc (server_next io_msg threads) s.
Proof.
  intros Hd Hn Hp Hpos. destruct (server4_run d C plans Hd Hn Hp) as (w & d' & Hopen & Hrun). exists w, d'. split; [done|].
  intros acts s Hs. destruct (Hrun _ _ Hs) as (cs & ds & times & G & ths & pts & Hsim & Hsys). split_and!.
  - intros i stream r Hc. destruct (lookup_lt_is_Some_2 plans i) as [p Hi].
    { rewrite <-(sm_conns _ _ _ _ _ _ Hsim). by eapply lookup_lt_Some. }
    by destruct (sim_closed _ _ _ _ _ _ _ _ _ _ Hsim Hi Hc eq_refl).
  - eapply sim_progress; [exact Hsim| | |exact Hpos].
    + intros i os o t b r Hcl. by eapply sys_no_panic.
    + intros i os o t p Hcl. by eapply (sys_busy_step _ _ _ None).
  - apply server_next_wf.
Qed.
End theorems.

(** ** A run with two connections

    One sets a key while the other reads it twice; between them an [accept] failed. The
    pool has two threads. *)

#[local] Instance default_policy : BufWriterPolicy := λ b, if (8192 <? blen b)%N then length b else 0.

Definition ex_msg (e : IoError) : string := match e with NotFound => "not found" | _ => "error" end.
Definition ex_plans : list (list Op * bytes + IoError) := [inl ([OpSet "a" "2"], []); inr NotFound; inl ([OpGet "a"; OpGet "a"], [])].
Definition ex_listening : Server := listening ex4 (stream_of <$> ex_plans).

#[local] Abbreviation ex_act := (server_act ex_msg (Some 2)).

Definition ex_acts : list action := Eval vm_compute in
  in_turn ex_act 200 [Run 0; Run 2; Accept; Start 0; Start 1; Start 2; Finish 0; Finish 1; Finish 2] ex_listening.

Definition ex_trace : list (nat * Wired) := [
  (0, Read (to_writer (Request_Set "a" "2"))); (2, Read (to_writer (Request_Get "a")));
  (2, Wrote (to_writer (GetResponse_Ok (Some "1")))); (2, Read (to_writer (Request_Get "a")));
  (0, Wrote (to_writer SetResponse_Ok)); (2, Wrote (to_writer (GetResponse_Ok (Some "2"))))
].

#[export] Instance Wired_eq_dec : EqDecision Wired.
Proof. solve_decision. Defined.

Lemma ex_served : match server_acts ex_msg (Some 2) ex_acts ex_listening with
                  | Some s => forallb (λ c, match c_stage c with Closed _ => true | _ => false end) (conns s) &&
                      bool_decide (trace s = ex_trace) && (kw_gen (w_writer (store s)) =? kw_gen (w_writer ex4))%N
                  | None => false
                  end = true.
Proof. vm_compute. reflexivity. Qed.

Lemma ex_server_run : ∃ s, server_acts ex_msg (Some 2) ex_acts ex_listening = Some s ∧ all_served s ∧ trace s = ex_trace ∧
  kw_gen (w_writer (store s)) = kw_gen (w_writer ex4).
Proof.
  pose proof ex_served as H. destruct (server_acts ex_msg (Some 2) ex_acts ex_listening) as [s|]; [|done].
  rewrite !andb_true_iff, bool_decide_eq_true, N.eqb_eq in H. destruct H as [[Hf Ht] Hg]. exists s.
  split; [reflexivity|]. split; [|split; [exact Ht|exact Hg]]. apply Forall_forall. intros c Hc.
  rewrite forallb_forall in Hf. specialize (Hf c (proj1 (list_elem_of_In _ _) Hc)). clear Ht Hg.
  destruct (c_stage c) as [| | |r]; [discriminate Hf..|by exists r].
Qed.

Lemma ex_plans_enough : enough ex1_cmds (plan_ops <$> ex_plans).
Proof. vm_compute. discriminate. Qed.

Lemma ex_plans_well : Forall sent_well ex_plans.
Proof. repeat constructor. Qed.

Lemma server4_linearizable_witness :
  server_acts ex_msg (Some 2) ex_acts ex_listening ≠ None ∧
  ∃ hist, served ex_msg ex_trace hist ∧ ops_linearizable (Model0 := MapModel exact (meaning ex1_cmds)) (known false hist).
Proof.
  destruct (server4_linearizable ex_msg (Some 2) _ _ ex_plans ex1_disk ex_plans_enough ex_plans_well) as (w & d' & Hopen & H).
  destruct (ex_open _ _ Hopen). destruct ex_server_run as (s & Hs & Hf & Ht & Hg). split; [rewrite Hs; discriminate|].
  destruct (H _ _ Hs Hf) as (_ & hist & Hserved & _ & Hlin). rewrite Ht in Hserved. exists hist.
  split; [exact Hserved|exact (Hlin Hg)].
Defined.

Lemma server4_finishes_witness : Acc (server_next ex_msg (Some 2)) ex_listening ∧
  (all_served ex_listening ∨ ∃ a s', ex_act a ex_listening = Some s').
Proof.
  destruct (server4_finishes ex_msg (Some 2) _ _ ex_plans ex1_disk ex_plans_enough ex_plans_well) as (w & d' & Hopen & H).
  { intros n [= <-]. lia. }
  destruct (ex_open _ _ Hopen). destruct (H [] ex_listening eq_refl) as (_ & Hp & Ha). split; [exact Ha|exact Hp].
Defined.
