(* ===== verification/Rpc.v ===== *)
(** * The simulated network of the labs ([dss/labrpc])

    [network.rs], [server.rs], [client.rs], [macros.rs] and [error.rs]. Clients put
    requests in one channel; a task of the network takes them out and starts, for
    each, a task that finds the server, dispatches the request and sends the reply
    through the oneshot channel of the call. Everything behind an [Arc] lives in a
    [World] that all threads share: the endpoints with their mutex, the cores of the
    servers, the hooks of the clients, the oneshot channels, and [app], the state of
    the services. What a thread does between two accesses to it is one action of a
    [prog].

    Not under [src/], and so parameters: the codec ([prost]), the random numbers
    ([Draws]) and the order in which [select!] polls its branches (a schedule). A
    [Delay] takes one action and is recorded, in milliseconds, in [timers]. *)

From S2P Require Import Prelude Conc.

(** ** [error.rs] *)

Inductive Error (EncodeError DecodeError : Type) : Type :=
| Unimplemented (msg : string)
| Encode (e : EncodeError)
| Decode (e : DecodeError)
| Recv
| Timeout
| Stopped
| Other (msg : string).
Arguments Unimplemented {_ _} msg.
Arguments Encode {_ _} e.
Arguments Decode {_ _} e.
Arguments Recv {_ _}.
Arguments Timeout {_ _}.
Arguments Stopped {_ _}.
Arguments Other {_ _} msg.

(** ** Futures *)

(** A future that stays pending. *)
Definition pending {E S A} : prog E S A := Act (λ _, None).

(** [select!] of two futures: [sched] tells which one is polled next. It is over when
    one of them is; the other is dropped where it stands. A poll of a future that
    cannot go on has no effect. *)
Fixpoint select {E S A B} (sched : list bool) (p : prog E S A) (q : prog E S B) : prog E S (A + B) :=
  match p, q with
  | Done o, _ => cont (λ a, mret (inl a)) o
  | _, Done o => cont (λ b, mret (inr b)) o
  | Act f, Act g =>
      match sched with
      | [] => pending
      | true :: sched' =>
          Act (λ s, match f s with
                    | Some (s', p') => Some (s', select sched' p' q)
                    | None => Some (s, select sched' p q)
                    end)
      | false :: sched' =>
          Act (λ s, match g s with
                    | Some (s', q') => Some (s', select sched' p q')
                    | None => Some (s, select sched' p q)
                    end)
      end
  end.

(** [str::split('.')]: always at least one piece. *)
Fixpoint split_dot (s : string) : list string :=
  match s with
  | EmptyString => [""]
  | String c s' =>
      if decide (c = "."%char) then "" :: split_dot s'
      else match split_dot s' with
           | x :: xs => String c x :: xs
           | [] => [String c EmptyString]
           end
  end.

(** [AtomicUsize::fetch_add(1)] wraps around. *)
Definition USIZE : N := 2 ^ 64.
Definition fetch_add_1 (n : N) : N := ((n + 1) mod USIZE)%N.

(** ** The state *)

(** [server.rs]: the core of a server. A [Server] is an [Arc] to one of them. *)
Record ServerCore (Factory : Type) := mkServerCore {
  core_name : string;
  core_id : N;
  services : gmap string Factory;
  core_count : N;
}.
Arguments mkServerCore {_} _ _ _ _.
Arguments core_name {_} _.
Arguments core_id {_} _.
Arguments services {_} _.
Arguments core_count {_} _.

Abbreviation Server := nat.

Record Endpoints := mkEndpoints {
  enabled : gmap string bool;
  servers : gmap string (option Server);
  connections : gmap string (option string);
}.

(** [NetworkCore]; [poisoned] is the flag of the mutex of the endpoints. *)
Record NetworkCore := mkNetworkCore {
  reliable : bool;
  long_delays : bool;
  long_reordering : bool;
  endpoints : Endpoints;
  poisoned : bool;
  net_count : N;
}.

Record EndInfo := mkEndInfo {
  ei_enabled : bool;
  ei_reliable : bool;
  ei_long_reordering : bool;
  ei_server : option Server;
}.

(** [client.rs]: a request. [resp] and [hooks] point to the oneshot channel of the
    call and to the hooks of the client. *)
Record Rpc := mkRpc {
  client_name : string;
  fq_name : string;
  req : option bytes;
  resp : option nat;
  hooks : nat;
}.

Record Client := mkClient {
  cl_name : string;
  cl_hooks : nat;
}.

(** A oneshot channel: no message yet, a message, or its sender was dropped. *)
Inductive oneshot (R : Type) := Waiting | Sent (r : R) | Dropped.
Arguments Waiting {R}.
Arguments Sent {R} r.
Arguments Dropped {R}.

(** The hooks of a client and the poison flag of their mutex. *)
Record HookCell (Hooks : Type) := mkHookCell {
  installed : option Hooks;
  hook_poisoned : bool;
}.
Arguments mkHookCell {_} _ _.
Arguments installed {_} _.
Arguments hook_poisoned {_} _.

(** What a request draws from [thread_rng], and the polls of its [select!]. *)
Record Draws := mkDraws {
  d_short : N;
  d_drop_request : N;
  d_drop_reply : N;
  d_reorder : N;
  d_upper : N;
  d_long : N;
  d_wait : N;
  d_sched : list bool;
}.

Section net.
Context {EncodeError DecodeError Factory Hooks App : Type}.

Abbreviation E := (Error EncodeError DecodeError).
Abbreviation Answer := (E + bytes)%type.

(** All that the threads share. [incoming] are the requests in the channel of the
    network and [receiver] tells whether its receiver still exists; [id_alloc] is
    [ID_ALLOC]. *)
Record World := mkWorld {
  core : NetworkCore;
  incoming : list Rpc;
  receiver : bool;
  cores : list (ServerCore Factory);
  id_alloc : N;
  cells : list (HookCell Hooks);
  oneshots : list (oneshot Answer);
  app : App;
  timers : list N;
}.

Definition with_core (f : NetworkCore → NetworkCore) (w : World) : World :=
  mkWorld (f (core w)) (incoming w) (receiver w) (cores w) (id_alloc w) (cells w) (oneshots w) (app w) (timers w).
Definition with_incoming (q : list Rpc) (b : bool) (w : World) : World :=
  mkWorld (core w) q b (cores w) (id_alloc w) (cells w) (oneshots w) (app w) (timers w).
Definition with_cores (cs : list (ServerCore Factory)) (w : World) : World :=
  mkWorld (core w) (incoming w) (receiver w) cs (id_alloc w) (cells w) (oneshots w) (app w) (timers w).
Definition with_cells (cs : list (HookCell Hooks)) (w : World) : World :=
  mkWorld (core w) (incoming w) (receiver w) (cores w) (id_alloc w) cs (oneshots w) (app w) (timers w).
Definition with_oneshots (os : list (oneshot Answer)) (w : World) : World :=
  mkWorld (core w) (incoming w) (receiver w) (cores w) (id_alloc w) (cells w) os (app w) (timers w).
Definition with_app (a : App) (w : World) : World :=
  mkWorld (core w) (incoming w) (receiver w) (cores w) (id_alloc w) (cells w) (oneshots w) a (timers w).
Definition with_timer (ms : N) (w : World) : World :=
  mkWorld (core w) (incoming w) (receiver w) (cores w) (id_alloc w) (cells w) (oneshots w) (app w) (timers w ++ [ms]).

Definition with_endpoints (eps : Endpoints) (w : World) : World :=
  with_core (λ c, mkNetworkCore (reliable c) (long_delays c) (long_reordering c) eps (poisoned c) (net_count c)) w.
Definition poison (w : World) : World :=
  with_core (λ c, mkNetworkCore (reliable c) (long_delays c) (long_reordering c) (endpoints c) true (net_count c)) w.

Abbreviation Mn := (M E World).
Abbreviation future := (prog E World).

(** [endpoints.lock().unwrap()]: a panic while the guard lives poisons the mutex. *)
Definition locked {A} (m : Mn A) : Mn A := λ w,
  if poisoned (core w) then (Panic, w)
  else match m w with
       | (Panic, w') => (Panic, poison w')
       | r => r
       end.

Definition get_endpoints : Mn Endpoints := gets (λ w, endpoints (core w)).

(** [Delay::new(ms).await]. *)
Definition delay (ms : N) : future unit := atomic (modify (with_timer ms)).

(** ** [server.rs] and [macros.rs] *)

(** [HandlerFactory]: what [handler(name)] does with a request; nothing here but the
    future itself touches the shared state. *)
Class HandlerFactory := handler : Factory → string → bytes → future bytes.

(** One [rpc] of the [service!] macro: the types, their codec, and the method of the
    [Service] trait. *)
Record Method := mkMethod {
  Input : Type;
  Output : Type;
  decode_input : bytes → DecodeError + Input;
  encode_output : Output → EncodeError + bytes;
  method : Input → future Output;
}.

(** The [Factory] of [add_service] in [macros.rs]: the arm of the method's name
    decodes, runs the method and encodes what it returns. [s] is the clone of the
    service that the methods share their state through. *)
Definition service_handler (svc_name : string) (methods : list (string * Method)) (name : string) (buf : bytes) : future bytes :=
  match find (λ m, bool_decide (m.1 = name)) methods with
  | Some (_, me) =>
      match decode_input me buf with
      | inl e => Done (Err (Decode e))
      | inr request =>
          resp ← method me request;
          match encode_output me resp with
          | inl e => Done (Err (Encode e))
          | inr rsp => mret rsp
          end
      end
  | None => Done (Err (Unimplemented ("unknown " +:+ name +:+ " in " +:+ svc_name)))
  end.

Record ServerBuilder := mkServerBuilder {
  sb_name : string;
  sb_services : gmap string Factory;
}.

Definition new_builder (name : string) : ServerBuilder := mkServerBuilder name ∅.

Definition add_service (service_name : string) (factory : Factory) : M E ServerBuilder unit := λ b,
  match sb_services b !! service_name with
  | Some _ => (Err (Other (service_name +:+ " has already registered")), b)
  | None => (Ok tt, mkServerBuilder (sb_name b) (<[service_name := factory]> (sb_services b)))
  end.

Definition build (b : ServerBuilder) : Mn Server := λ w,
  (Ok (length (cores w)),
   mkWorld (core w) (incoming w) (receiver w)
     (cores w ++ [mkServerCore (sb_name b) (id_alloc w) (sb_services b) 0])
     (fetch_add_1 (id_alloc w)) (cells w) (oneshots w) (app w) (timers w)).

(** An [Arc] always points to its core. *)
Definition get_core (srv : Server) : Mn (ServerCore Factory) := λ w, expect (cores w !! srv) w.

Definition server_count (srv : Server) : Mn N := sc ← get_core srv; mret (core_count sc).

Definition bump (sc : ServerCore Factory) : ServerCore Factory :=
  mkServerCore (core_name sc) (core_id sc) (services sc) (fetch_add_1 (core_count sc)).

(** [Server::dispatch] returns the future of the handler. *)
Definition dispatch `{!HandlerFactory} (srv : Server) (fq : string) (buf : bytes) : Mn (future bytes) :=
  modify (λ w, with_cores (alter bump srv (cores w)) w);;
  match split_dot fq with
  | service_name :: method_name :: _ =>
      sc ← get_core srv;
      match services sc !! service_name with
      | Some factory => mret (handler factory method_name buf)
      | None => mret (Done (Err (Unimplemented ("unknown " +:+ fq))))
      end
  | _ => mret (Done (Err (Unimplemented ("unknown " +:+ fq))))
  end.

(** ** [network.rs]: the endpoints *)

Definition add_server (srv : Server) : Mn unit :=
  locked (eps ← get_endpoints; sc ← get_core srv;
          modify (with_endpoints (mkEndpoints (enabled eps) (<[core_name sc := Some srv]> (servers eps)) (connections eps)))).

Definition delete_server (name : string) : Mn unit :=
  locked (eps ← get_endpoints;
          match servers eps !! name with
          | Some _ => modify (with_endpoints (mkEndpoints (enabled eps) (<[name := None]> (servers eps)) (connections eps)))
          | None => mret tt
          end).

Definition create_client (name : string) : Mn Client :=
  locked (eps ← get_endpoints;
          modify (with_endpoints (mkEndpoints (<[name := false]> (enabled eps)) (servers eps) (<[name := None]> (connections eps))));;
          cell ← gets (λ w, length (cells w));
          modify (λ w, with_cells (cells w ++ [mkHookCell None false]) w);;
          mret (mkClient name cell)).

Definition connect (client server : string) : Mn unit :=
  locked (eps ← get_endpoints;
          modify (with_endpoints (mkEndpoints (enabled eps) (servers eps) (<[client := Some server]> (connections eps))))).

Definition enable (client : string) (b : bool) : Mn unit :=
  locked (eps ← get_endpoints;
          modify (with_endpoints (mkEndpoints (<[client := b]> (enabled eps)) (servers eps) (connections eps)))).

Definition set_reliable (yes : bool) : Mn unit :=
  modify (with_core (λ c, mkNetworkCore yes (long_delays c) (long_reordering c) (endpoints c) (poisoned c) (net_count c))).
Definition set_long_reordering (yes : bool) : Mn unit :=
  modify (with_core (λ c, mkNetworkCore (reliable c) (long_delays c) yes (endpoints c) (poisoned c) (net_count c))).
Definition set_long_delays (yes : bool) : Mn unit :=
  modify (with_core (λ c, mkNetworkCore (reliable c) yes (long_reordering c) (endpoints c) (poisoned c) (net_count c))).

(** [Network::count]: [eps.servers[name]] and [unwrap] panic. *)
Definition count (server_name : string) : Mn N :=
  locked (eps ← get_endpoints; o ← expect (servers eps !! server_name); srv ← expect o; server_count srv).

Definition total_count : Mn N := gets (λ w, net_count (core w)).

Definition end_info (client : string) : Mn EndInfo :=
  locked (eps ← get_endpoints;
          server ← match connections eps !! client with
                   | Some (Some server_name) => expect (servers eps !! server_name)
                   | _ => mret None
                   end;
          en ← expect (enabled eps !! client);
          c ← gets core;
          mret (mkEndInfo en (reliable c) (long_reordering c) server)).

Definition is_server_dead (client server_name : string) (server_id : N) : Mn bool :=
  locked (eps ← get_endpoints;
          en ← expect (enabled eps !! client);
          if negb en then mret true
          else match servers eps !! server_name with
               | Some (Some srv) => sc ← get_core srv; mret (bool_decide (core_id sc ≠ server_id))
               | _ => mret true
               end).

(** ** [network.rs]: one request *)

(** The loop of [server_dead], which has no end of its own; each turn of it takes two
    actions, so a [select] with the schedule [sched] never sees more than [length sched]
    turns: any larger bound makes the same program ([server_dead_enough] of [RpcSpec]). *)
Fixpoint server_dead (turns : nat) (interval : N) (client server_name : string) (server_id : N) : future unit :=
  match turns with
  | O => pending
  | S n =>
      delay interval;;
      dead ← atomic (is_server_dead client server_name server_id);
      if (dead : bool) then mret tt else server_dead n interval client server_name server_id
  end.

(** [RpcHooks]. *)
Class RpcHooks := {
  before_dispatch : Hooks → string → bytes → Mn unit;
  after_dispatch : Hooks → string → Answer → Mn bytes;
}.

Definition poison_cell (c : nat) (w : World) : World :=
  with_cells (alter (λ h, mkHookCell (installed h) true) c (cells w)) w.

(** [if let Some(hooks) = hooks.lock().unwrap().as_ref()]: the guard lives until the
    end of the statement. *)
Definition with_hooks {A} (c : nat) (yes : Hooks → Mn A) (no : Mn A) : Mn A := λ w,
  match cells w !! c with
  | Some (mkHookCell _ true) | None => (Panic, w)
  | Some (mkHookCell (Some h) false) =>
      match yes h w with
      | (Panic, w') => (Panic, poison_cell c w')
      | r => r
      end
  | Some (mkHookCell None false) => no w
  end.

Definition of_answer {A} (r : E + A) : Mn A :=
  match r with inl e => throw e | inr a => mret a end.

Definition answer_of (r : Answer + unit) : Answer :=
  match r with inl a => a | inr _ => inl Stopped end.

Context `{!HandlerFactory, !RpcHooks}.

(** The function [process_rpc]. [Duration::from_secs] makes of the short delay, which
    its caller calls [ms], that many seconds. *)
Definition process_rpc (short_delay : option N) (drop_reply : bool) (reordering : option N)
    (sched : list bool) (rpc : Rpc) (server : Server) : future bytes :=
  match short_delay with
  | Some s => delay (1000 * s)
  | None => mret tt
  end;;
  match req rpc with
  | None => Done Panic
  | Some buf =>
      atomic (with_hooks (hooks rpc) (λ h, before_dispatch h (fq_name rpc) buf) (mret tt));;
      sc ← atomic (get_core server);
      fut ← atomic (dispatch server (fq_name rpc) buf);
      resp ← select sched (result fut)
               (server_dead (length sched) 100 (client_name rpc) (core_name sc) (core_id sc));
      resp ← atomic (with_hooks (hooks rpc) (λ h, after_dispatch h (fq_name rpc) (answer_of resp)) (of_answer (answer_of resp)));
      dead ← atomic (is_server_dead (client_name rpc) (core_name sc) (core_id sc));
      if (dead : bool) then Done (Err Stopped)
      else if drop_reply then Done (Err Timeout)
      else match reordering with
           | Some ms => delay ms;; mret resp
           | None => mret resp
           end
  end.

(** The method [Network::process_rpc]. *)
Definition network_process_rpc (d : Draws) (rpc : Rpc) : future bytes :=
  atomic (modify (with_core (λ c, mkNetworkCore (reliable c) (long_delays c) (long_reordering c) (endpoints c) (poisoned c) (fetch_add_1 (net_count c)))));;
  info ← atomic (end_info (client_name rpc));
  match ei_enabled info, ei_server info with
  | true, Some server =>
      let short_delay := if negb (ei_reliable info) then Some (d_short d mod 27)%N else None in
      if negb (ei_reliable info) && (d_drop_request d mod 1000 <? 100)%N then
        match short_delay with
        | Some s => delay (1000 * s);; Done (Err Timeout)
        | None => Done Panic
        end
      else
        let drop_reply := negb (ei_reliable info) && (d_drop_reply d mod 1000 <? 100)%N in
        let reordering := if ei_long_reordering info && (d_reorder d <? 600)%N
                          then Some (200 + d_long d)%N else None in
        process_rpc short_delay drop_reply reordering (d_sched d) rpc server
  | _, _ =>
      long ← atomic (gets (λ w, long_delays (core w)));
      delay (if (long : bool) then d_wait d mod 7000 else d_wait d mod 100)%N;;
      Done (Err Timeout)
  end.

(** [gen_range(lo, hi)] is at least [lo] and less than [hi]. *)
Definition draws_in_range (d : Draws) : Prop :=
  (d_reorder d < 900 ∧ d_upper d < 2000 ∧ d_long d < 1 + d_upper d)%N.

(** ** [client.rs] *)

Definition set_hooks (c : Client) (h : Hooks) : Mn unit := λ w,
  match cells w !! cl_hooks c with
  | Some (mkHookCell _ false) => (Ok tt, with_cells (<[cl_hooks c := mkHookCell (Some h) false]> (cells w)) w)
  | _ => (Panic, w)
  end.

Definition clear_hooks (c : Client) : Mn unit := λ w,
  match cells w !! cl_hooks c with
  | Some (mkHookCell _ false) => (Ok tt, with_cells (<[cl_hooks c := mkHookCell None false]> (cells w)) w)
  | _ => (Panic, w)
  end.

(** The receiving half of a oneshot channel. *)
Definition receive (slot : nat) : future (option Answer) :=
  Act (λ w, match oneshots w !! slot with
            | Some (Sent r) => Some (w, mret (Some r))
            | Some Dropped => Some (w, mret None)
            | _ => None
            end).

(** [Client::call]: sends the request at once and returns the future that waits for the
    reply. When the channel is closed the request is dropped with its sender. *)
Definition call {Req Rsp} (encode : Req → EncodeError + bytes) (decode : bytes → DecodeError + Rsp)
    (c : Client) (fq : string) (request : Req) : Mn (future Rsp) :=
  match encode request with
  | inl e => mret (Done (Err (Encode e)))
  | inr buf =>
      slot ← gets (λ w, length (oneshots w));
      open ← gets receiver;
      if (open : bool) then
        modify (λ w, with_oneshots (oneshots w ++ [Waiting]) w);;
        modify (λ w, with_incoming (incoming w ++ [mkRpc (cl_name c) fq (Some buf) (Some slot) (cl_hooks c)]) true w);;
        mret (res ← receive slot;
              match res with
              | Some (inr rsp) => match decode rsp with
                                  | inr a => mret a
                                  | inl e => Done (Err (Decode e))
                                  end
              | Some (inl e) => Done (Err e)
              | None => Done (Err Recv)
              end)
      else
        modify (λ w, with_oneshots (oneshots w ++ [Dropped]) w);;
        mret (Done (Err Stopped))
  end.

(** A method of the [Client] that the macro makes: the name of the service and of the
    method. *)
Definition service_call {Req Rsp} (encode : Req → EncodeError + bytes) (decode : bytes → DecodeError + Rsp)
    (svc_name method_name : string) (c : Client) (request : Req) : Mn (future Rsp) :=
  call encode decode c (svc_name +:+ "." +:+ method_name) request.

(** ** [Network::start] *)

(** The shared state and the tasks spawned for the requests taken from the channel,
    each with the oneshot channel it answers. *)
Record System := mkSystem {
  world : World;
  tasks : list (nat * future bytes);
}.

Definition new_core : NetworkCore :=
  mkNetworkCore true false false (mkEndpoints ∅ ∅ ∅) false 0.

(** [Network::new], when the services are in the state [a]. *)
Definition new_network (a : App) : System :=
  mkSystem (mkWorld new_core [] true [] 0 [] [] a []) [].

(** [resp.send(res)], or the sender dropped by a panic of the task. *)
Definition send_answer (slot : nat) (o : outcome E bytes) (w : World) : World :=
  let m := match o with
           | Ok b => Sent (inr b)
           | Err e => Sent (inl e)
           | Panic | Diverge => Dropped
           end in
  with_oneshots (<[slot := m]> (oneshots w)) w.

Inductive net_action :=
| Accept (d : Draws)   (* the loop of [start] takes a request and spawns its task *)
| Poll (i : nat)       (* the task [i] takes a step, or ends *)
| Thread (f : World → World). (* an action of another thread *)

Definition net_act (a : net_action) (sys : System) : option System :=
  match a with
  | Accept d =>
      match incoming (world sys) with
      | rpc :: q =>
          match resp rpc with
          | Some slot =>
              Some (mkSystem (with_incoming q (receiver (world sys)) (world sys))
                             (tasks sys ++ [(slot, network_process_rpc d rpc)]))
          | None => None
          end
      | [] => None
      end
  | Poll i =>
      match tasks sys !! i with
      | Some (slot, Done o) => Some (mkSystem (send_answer slot o (world sys)) (delete i (tasks sys)))
      | Some (slot, Act f) =>
          match f (world sys) with
          | Some (w', p') => Some (mkSystem w' (<[i := (slot, p')]> (tasks sys)))
          | None => None
          end
      | None => None
      end
  | Thread f => Some (mkSystem (f (world sys)) (tasks sys))
  end.

Fixpoint net_acts (l : list net_action) (sys : System) : option System :=
  match l with
  | [] => Some sys
  | a :: l' => sys' ← net_act a sys; net_acts l' sys'
  end.
End net.
