(* ===== verification/RpcSpec.v ===== *)
(** * Correctness of the simulated network

    What the operations of [Rpc] do on a healthy and on a poisoned network, what a
    request does alone and in the middle of what other threads do, and the invariant
    of the calls that wait for a reply. *)

From S2P Require Import Prelude Conc Rpc.

Section run.
Context {E S : Type}.

(** The number of actions of a program that runs alone. *)
Fixpoint run_steps {A} (p : prog E S A) (s : S) : nat :=
  match p with
  | Done _ => 0
  | Act f => match f s with
             | Some (s', p') => 1 + run_steps p' s'
             | None => 0
             end
  end.

(** A program that runs while other threads take steps of [R] between its actions. *)
Inductive iexec (R : S → S → Prop) {A} : prog E S A → S → outcome E A → S → Prop :=
| iexec_done o s s' : rtc R s s' → iexec R (Done o) s o s'
| iexec_act f s s1 s2 p' o s' :
    rtc R s s1 → f s1 = Some (s2, p') → iexec R p' s2 o s' → iexec R (Act f) s o s'.

Lemma iexec_wait (R : S → S → Prop) {A} (p : prog E S A) s s1 o s' : rtc R s s1 → iexec R p s1 o s' → iexec R p s o s'.
Proof.
  intros HR H. destruct H; [apply iexec_done|eapply iexec_act; [|done..]]; by etrans.
Qed.

Lemma run_iexec (R : S → S → Prop) {A} (p : prog E S A) s o s' : run p s = Some (o, s') → iexec R p s o s'.
Proof.
  revert s. induction p as [o1|f IH] using prog_ind; intros s; simpl; [intros [= -> ->]; by apply iexec_done|].
  destruct (f s) as [[s1 p1]|] eqn:Hf; [|done]. intros Hr. eapply iexec_act; [done|done|by eapply IH].
Qed.

Lemma iexec_mono (R R' : S → S → Prop) {A} (p : prog E S A) s o s' :
  (∀ s s', R s s' → R' s s') → iexec R p s o s' → iexec R' p s o s'.
Proof.
  intros HR. assert (∀ a b, rtc R a b → rtc R' a b) as Hm.
  { intros a b H. induction H; [done|]. eapply rtc_l; eauto. }
  induction 1; [apply iexec_done|eapply iexec_act]; eauto.
Qed.

(** The result of the first part of a program, and the rest of it. *)
Lemma iexec_bind (R : S → S → Prop) {A B} (p : prog E S A) (k : A → prog E S B) s o s' :
  iexec R (p ≫= k) s o s' → ∃ o1 s1, iexec R p s o1 s1 ∧ iexec R (cont k o1) s1 o s'.
Proof.
  revert s. induction p as [o1|f IH] using prog_ind; intros s H.
  { exists o1, s. split; [by apply iexec_done|done]. }
  inversion H as [|f' ? s1 s2 p' ? ? HR Hf Hp]; subst.
  destruct (f s1) as [[s3 p3]|] eqn:Hf1; [|done]. simplify_eq.
  destruct (IH _ _ _ Hf1 _ Hp) as (o1 & s4 & H1 & H2).
  exists o1, s4. split; [by eapply iexec_act|done].
Qed.

Lemma iexec_bind_ok (R : S → S → Prop) {A B} (p : prog E S A) (k : A → prog E S B) s b s' :
  iexec R (p ≫= k) s (Ok b) s' → ∃ a s1, iexec R p s (Ok a) s1 ∧ iexec R (k a) s1 (Ok b) s'.
Proof.
  intros (o & s1 & Hp & Hk)%iexec_bind.
  destruct o as [a|e| |]; [by eauto|..]; inversion Hk.
Qed.

(** Building executions. *)
Lemma iexec_then (R : S → S → Prop) {A B} (p : prog E S A) (k : A → prog E S B) s a s1 o s' :
  iexec R p s (Ok a) s1 → iexec R (k a) s1 o s' → iexec R (p ≫= k) s o s'.
Proof.
  revert s. induction p as [o1|f IH] using prog_ind; intros s H Hk.
  { inversion H; subst. by eapply iexec_wait. }
  inversion H as [|f' ? s2 s3 p' ? ? HR Hf Hp]; subst.
  apply (iexec_act R _ s s2 s3 (p' ≫= k)); [done| |by eapply IH]. by rewrite Hf.
Qed.

Lemma iexec_now (R : S → S → Prop) {A} (m : M E S A) s o s' : m s = (o, s') → iexec R (atomic m) s o s'.
Proof. intros H. eapply iexec_act; [done|by rewrite H|by apply iexec_done]. Qed.

Lemma iexec_now_then (R : S → S → Prop) {A B} (m : M E S A) (k : A → prog E S B) s a s1 o s' :
  m s = (Ok a, s1) → iexec R (k a) s1 o s' → iexec R (atomic m ≫= k) s o s'.
Proof. intros H. apply iexec_then. by apply iexec_now. Qed.

Lemma iexec_atomic (R : S → S → Prop) {A} (m : M E S A) s o s' :
  iexec R (atomic m) s o s' → ∃ s1 s2, rtc R s s1 ∧ m s1 = (o, s2) ∧ rtc R s2 s'.
Proof.
  inversion 1 as [|f ? s1 s2 p' ? ? HR Hf Hp]; subst.
  destruct (m s1) as [o' s3] eqn:Hm. simplify_eq. inversion Hp; subst. eauto.
Qed.

Lemma iexec_atomic_ok (R : S → S → Prop) {A B} (m : M E S A) (k : A → prog E S B) s b s' :
  iexec R (atomic m ≫= k) s (Ok b) s' →
  ∃ s1 a s2, rtc R s s1 ∧ m s1 = (Ok a, s2) ∧ iexec R (k a) s2 (Ok b) s'.
Proof.
  intros (a & s3 & (s1 & s2 & HR & Hm & HR')%iexec_atomic & Hk)%iexec_bind_ok.
  exists s1, a, s2. split_and!; [done..|]. by eapply iexec_wait.
Qed.

Lemma iexec_result (R : S → S → Prop) {A} (p : prog E S A) s r s' : iexec R (result p) s (Ok r) s' →
  iexec R p s (match r with inl e => Err e | inr a => Ok a end) s'.
Proof.
  revert s. induction p as [o1|f IH] using prog_ind; intros s H.
  { destruct o1; inversion H; subst; by apply iexec_done. }
  inversion H as [|f' ? s1 s2 p' ? ? HR Hf Hp]; subst.
  destruct (f s1) as [[s3 p3]|] eqn:Hf1; [|done]. simplify_eq. eapply iexec_act; eauto.
Qed.

(** When the first branch of a [select!] wins, the second one was a bystander. *)
Lemma iexec_select (R : S → S → Prop) (Q : S → S → Prop) {A B} sched (p : prog E S A) (q : prog E S B) (P : prog E S B → Prop) s a s' :
  P q →
  (∀ f s s' q', P (Act f) → f s = Some (s', q') → Q s s' ∧ P q') →
  iexec R (select sched p q) s (Ok (inl a)) s' → iexec (λ s s', R s s' ∨ Q s s') p s (Ok a) s'.
Proof.
  intros HP HQ. assert (∀ s s', rtc R s s' → rtc (λ s s', R s s' ∨ Q s s') s s') as Hm.
  { intros ?? Hr. induction Hr; [done|]. eapply rtc_l; eauto. }
  revert p q s HP. induction sched as [|b sched IH]; intros p q s HP H.
  - destruct p as [o|f]; destruct q as [o'|g]; simpl in H.
    1,2: destruct o; inversion H; subst; apply iexec_done; auto.
    + destruct o'; inversion H.
    + inversion H; subst. done.
  - destruct p as [o|f]; destruct q as [o'|g]; simpl in H.
    1,2: destruct o; inversion H; subst; apply iexec_done; auto.
    + destruct o'; inversion H.
    + destruct b; inversion H as [|f' ? s1 s2 p' ? ? HR Hf Hp]; subst.
      * destruct (f s1) as [[s3 p3]|] eqn:Hf1; simplify_eq.
        { eapply iexec_act; [by apply Hm|done|]. by eapply IH. }
        eapply iexec_wait; [by apply Hm|]. by eapply IH.
      * destruct (g s1) as [[s3 q3]|] eqn:Hg1; simplify_eq.
        { destruct (HQ _ _ _ _ HP Hg1) as [Hq HP3].
          eapply iexec_wait; [eapply rtc_r; [by apply Hm|by right]|].
          by eapply IH. }
        eapply iexec_wait; [by apply Hm|]. by eapply IH.
Qed.

(** ** The same behaviour *)

(** The same actions, with the same effects and results, in every state. *)
Fixpoint same_prog {A} (p q : prog E S A) : Prop :=
  match p, q with
  | Done o, Done o' => o = o'
  | Act f, Act g => ∀ s, match f s, g s with
                         | Some (s1, p1), Some (s2, q1) => s1 = s2 ∧ same_prog p1 q1
                         | None, None => True
                         | _, _ => False
                         end
  | _, _ => False
  end.

Lemma same_prog_refl {A} (p : prog E S A) : same_prog p p.
Proof.
  induction p as [o|f IH] using prog_ind; [done|]. intros s. destruct (f s) as [[s1 p1]|] eqn:Hf; [|done]. split; [done|by eapply IH].
Qed.

(** The same for so many polls. *)
Fixpoint agree {A} (n : nat) (p q : prog E S A) : Prop :=
  match p, q with
  | Done o, Done o' => o = o'
  | Act f, Act g =>
      match n with
      | O => True
      | Datatypes.S n' => ∀ s, match f s, g s with
                     | Some (s1, p1), Some (s2, q1) => s1 = s2 ∧ agree n' p1 q1
                     | None, None => True
                     | _, _ => False
                     end
      end
  | _, _ => False
  end.

Lemma agree_less {A} n m (p q : prog E S A) : m ≤ n → agree n p q → agree m p q.
Proof.
  revert m p q. induction n as [|n IH]; intros [|m] [o|f] [o'|g] Hm; simpl; try done; [lia|]. intros H s. specialize (H s).
  destruct (f s) as [[s1 p1]|], (g s) as [[s2 q1]|]; try done. destruct H as [-> H]. split; [done|]. apply IH; [lia|done].
Qed.

Lemma select_agree {A B} sched (p : prog E S A) (q q' : prog E S B) : agree (length sched) q q' → same_prog (select sched p q) (select sched p q').
Proof.
  revert p q q'. induction sched as [|b sched IH]; intros [o|f] [o1|g] [o2|g'] Hq; simpl in Hq; subst; try done;
    try (simpl; apply same_prog_refl).
  assert (agree (length sched) (Act g) (Act g')) as Hq' by (apply (agree_less (length (b :: sched))); [simpl; lia|done]).
  destruct b; simpl; intros s.
  - destruct (f s) as [[s1 p1]|]; (split; [done|by apply IH]).
  - specialize (Hq s). destruct (g s) as [[s1 q1]|], (g' s) as [[s2 q2]|]; try done; [destruct Hq as [-> Hq]|]; (split; [done|by apply IH]).
Qed.
End run.

Lemma split_dot_app a b : (∀ c, c ∈ String.list_ascii_of_string a → c ≠ "."%char) →
  split_dot (a +:+ "." +:+ b) = a :: split_dot b.
Proof.
  induction a as [|c a IH]; intros Ha; [done|]. simpl. rewrite decide_False by (apply Ha; by left).
  simpl in IH. rewrite IH; [done|]. intros c' Hc'. apply Ha. by right.
Qed.

Section net.
Context {EncodeError DecodeError Factory Hooks App : Type}.
Abbreviation E := (Error EncodeError DecodeError).
Abbreviation World := (@World EncodeError DecodeError Factory Hooks App).
Abbreviation future := (prog E World).
Implicit Types (w : World).

(** ** The endpoints *)

Lemma end_info_eq c w :
  end_info c w =
  if poisoned (core w) then (Panic, w)
  else match (match connections (endpoints (core w)) !! c with
              | Some (Some n) => servers (endpoints (core w)) !! n
              | _ => Some None
              end), enabled (endpoints (core w)) !! c with
       | Some srv, Some en => (Ok (mkEndInfo en (reliable (core w)) (long_reordering (core w)) srv), w)
       | _, _ => (Panic, poison w)
       end.
Proof.
  unfold end_info, locked, get_endpoints. destruct (poisoned _); [done|].
  mpure. destruct (connections _ !! c) as [[n|]|]; [destruct (servers _ !! n)|..]; try done;
  by destruct (enabled _ !! c).
Qed.

Lemma is_server_dead_eq c n id w :
  is_server_dead c n id w =
  if poisoned (core w) then (Panic, w)
  else match enabled (endpoints (core w)) !! c with
       | None => (Panic, poison w)
       | Some false => (Ok true, w)
       | Some true => match servers (endpoints (core w)) !! n with
                      | Some (Some srv) => match cores w !! srv with
                                           | Some sc => (Ok (bool_decide (core_id sc ≠ id)), w)
                                           | None => (Panic, poison w)
                                           end
                      | _ => (Ok true, w)
                      end
       end.
Proof.
  unfold is_server_dead, locked, get_endpoints, get_core. destruct (poisoned _); [done|].
  mpure. destruct (enabled _ !! c) as [[]|]; try done.
  destruct (servers _ !! n) as [[srv|]|]; try done. cbn.
  by destruct (cores w !! srv) eqn:Hc; unfold mbind, M_bind; cbn; rewrite Hc.
Qed.

(** The client [c] is enabled and connected to the server [srv], which is alive. *)
Record attached (c : string) (srv : Server) (sc : ServerCore Factory) w : Prop := {
  at_lock : poisoned (core w) = false;
  at_enabled : enabled (endpoints (core w)) !! c = Some true;
  at_connected : connections (endpoints (core w)) !! c = Some (Some (core_name sc));
  at_server : servers (endpoints (core w)) !! core_name sc = Some (Some srv);
  at_core : cores w !! srv = Some sc;
}.

Lemma end_info_attached c srv sc w : attached c srv sc w →
  end_info c w = (Ok (mkEndInfo true (reliable (core w)) (long_reordering (core w)) (Some srv)), w).
Proof. intros []. by rewrite end_info_eq, at_lock0, at_connected0, at_server0, at_enabled0. Qed.

Lemma alive_attached c srv (sc sc' : ServerCore Factory) w : attached c srv sc' w → core_name sc' = core_name sc → core_id sc' = core_id sc →
  is_server_dead c (core_name sc) (core_id sc) w = (Ok false, w).
Proof.
  intros [] Hn Hi. rewrite is_server_dead_eq, at_lock0, at_enabled0, <-Hn, at_server0, at_core0, Hi.
  by rewrite bool_decide_false by naive_solver.
Qed.

(** What [is_server_dead] has seen when it says no. *)
Lemma not_dead c n id w w' : is_server_dead c n id w = (Ok false, w') →
  w' = w ∧ enabled (endpoints (core w)) !! c = Some true ∧
  ∃ srv (sc : ServerCore Factory), servers (endpoints (core w)) !! n = Some (Some srv) ∧ cores w !! srv = Some sc ∧ core_id sc = id.
Proof.
  rewrite is_server_dead_eq. destruct (poisoned _); [done|].
  destruct (enabled _ !! c) as [[]|]; try done.
  destruct (servers _ !! n) as [[srv|]|]; try done.
  destruct (cores w !! srv) as [sc|] eqn:Hsc; [|done].
  destruct (bool_decide (core_id sc ≠ id)) eqn:Hb; intros [= <-]. apply bool_decide_eq_false in Hb.
  split_and!; [done..|]. exists srv, sc. split_and!; [done..|]. by apply dec_stable.
Qed.

(** ** Services that only use the state of the application *)

Inductive app_only {A} : future A → Prop :=
| app_done o : app_only (Done o)
| app_act f g :
    (∀ w, f w = match g (app w) with Some (a, p') => Some (with_app a w, p') | None => None end) →
    (∀ a a' p', g a = Some (a', p') → app_only p') →
    app_only (Act f).

Lemma app_only_bind {A B} (p : future A) (k : A → future B) :
  app_only p → (∀ a, app_only (k a)) → app_only (p ≫= k).
Proof.
  intros Hp Hk. induction Hp as [o|f g Hf Hg IH]; [destruct o; simpl; first [apply Hk|constructor]|].
  apply (app_act _ (λ a, match g a with Some (a', p') => Some (a', p' ≫= k) | None => None end)).
  - intros w. simpl. rewrite Hf. by destruct (g (app w)) as [[]|].
  - intros a a' p'. destruct (g a) as [[a1 p1]|] eqn:Hga; [|done]. intros [= <- <-]. by eapply IH.
Qed.

Lemma app_only_result {A} (p : future A) : app_only p → app_only (result p).
Proof.
  induction 1 as [o|f g Hf Hg IH]; [destruct o; constructor|].
  apply (app_act _ (λ a, match g a with Some (a', p') => Some (a', result p') | None => None end)).
  - intros w. simpl. rewrite Hf. by destruct (g (app w)) as [[]|].
  - intros a a' p'. destruct (g a) as [[a1 p1]|] eqn:Hga; [|done]. intros [= <- <-]. by eapply IH.
Qed.

(** It runs the same, whatever the state of the network is. *)
Lemma app_only_run {A} (p : future A) w o w' : app_only p → run p w = Some (o, w') →
  w' = with_app (app w') w ∧
  ∀ w2, app w2 = app w → run p w2 = Some (o, with_app (app w') w2) ∧ run_steps p w2 = run_steps p w.
Proof.
  intros Hp. revert w. induction Hp as [o1|f g Hf Hg IH]; intros w; simpl.
  { intros [= -> ->]. split; [by destruct w'|]. intros w2 <-. split; [by destruct w2|done]. }
  rewrite Hf. destruct (g (app w)) as [[a p1]|] eqn:Hga; [|done]. intros Hrun.
  destruct (IH _ _ _ Hga _ Hrun) as [Hw H2]. split; [by rewrite Hw|].
  intros w2 Hw2. rewrite Hf, Hw2, Hga.
  destruct (H2 (with_app a w2)) as [-> ->]; done.
Qed.

(** What a request leaves behind besides counts: the state of the application and the
    timers that were started. *)
Definition leave (a : App) (ts : list N) w : World :=
  mkWorld (core w) (incoming w) (receiver w) (cores w) (id_alloc w) (cells w) (oneshots w) a (timers w ++ ts).

Lemma leave_leave a b ts us w : leave b us (leave a ts w) = leave b (ts ++ us) w.
Proof. unfold leave; simpl. by rewrite app_assoc. Qed.

Lemma leave_nil w : leave (app w) [] w = w.
Proof. unfold leave. rewrite app_nil_r. by destruct w. Qed.

Lemma attached_leave c srv sc a ts w : attached c srv sc w → attached c srv sc (leave a ts w).
Proof. by intros []. Qed.

(** The two places where [server_dead] can stand between its actions. *)
Inductive watching (c n : string) (id : N) : nat → future unit → Prop :=
| watch_delay m : watching c n id m (server_dead m 100 c n id)
| watch_check m : watching c n id m
    (dead ← atomic (is_server_dead c n id); if (dead : bool) then mret tt else server_dead m 100 c n id).

Lemma watching_step c n id m f w w' q :
  watching c n id m (Act f) → is_server_dead c n id w = (Ok false, w) → f w = Some (w', q) →
  (∃ ts, w' = leave (app w) ts w) ∧ watching c n id (m - 1) q ∨ (∃ ts, w' = leave (app w) ts w) ∧ watching c n id m q.
Proof.
  inversion 1 as [[|k] Heq|k Heq]; subst; intros Hd Hf.
  - simpl in *. simplify_eq.
  - simpl in *. simplify_eq. left. split; [by exists [100%N]|]. rewrite Nat.sub_0_r. constructor.
  - simpl in *. rewrite Hd in Hf. simplify_eq. right. split; [exists []; by rewrite leave_nil|]. constructor.
Qed.

(** [server_dead] with one bound or another, for as many polls. *)
Lemma server_dead_agree k n m interval c name id : k ≤ n → k ≤ m →
  agree k (server_dead n interval c name id : future unit) (server_dead m interval c name id).
Proof.
  revert n m. induction k as [k IH] using lt_wf_ind. intros n m Hn Hm. destruct k as [|k].
  { by destruct n, m. }
  destruct n as [|n], m as [|m]; [lia..|]. intros w. split; [done|]. destruct k as [|k]; [done|]. intros w1. cbn.
  destruct (is_server_dead c name id w1) as [[dead|e| |] w2]; (split; [done|]); simpl; [|by destruct k..].
  destruct dead; [by destruct k|]. apply IH; lia.
Qed.

(** The bound on the turns of [server_dead] cuts nothing off: with any larger one, the
    [select!] does the same. *)
Lemma server_dead_enough {A} sched (p : future A) turns interval c name id : length sched ≤ turns →
  same_prog (select sched p (server_dead turns interval c name id)) (select sched p (server_dead (length sched) interval c name id)).
Proof. intros Hle. apply select_agree, server_dead_agree; [done|done]. Qed.

Fixpoint trues (sched : list bool) : nat :=
  match sched with
  | [] => 0
  | b :: sched' => (if b then 1 else 0) + trues sched'
  end.

(** A handler that is polled often enough wins against [server_dead] when its server
    is alive. *)
Lemma select_alone {A} c srv (sc sc' : ServerCore Factory) sched (p : future A) q m w o w' :
  app_only p → attached c srv sc' w → core_name sc' = core_name sc → core_id sc' = core_id sc →
  watching c (core_name sc) (core_id sc) m q → run p w = Some (o, w') → run_steps p w ≤ trues sched →
  ∃ ts, run (select sched p q) w = run (cont (λ a, mret (inl a)) o) (leave (app w') ts w).
Proof.
  intros Hp Hat Hn Hi. revert p q m w w' Hp Hat.
  induction sched as [|b sched IH]; intros p q m w w' Hp Hat Hq Hrun Hst.
  - destruct Hp as [o1|f g Hf Hg].
    + simpl in *. simplify_eq. exists []. rewrite leave_nil. done.
    + simpl in *. destruct (f w) as [[]|]; [lia|done].
  - destruct Hp as [o1|f g Hf Hg].
    { simpl in *. simplify_eq. exists []. rewrite leave_nil. done. }
    destruct q as [oq|fq]; [inversion Hq as [[]|]|]. simpl. destruct b; simpl.
    + simpl in Hrun, Hst. rewrite Hf in Hrun, Hst |- *. destruct (g (app w)) as [[a1 p1]|] eqn:Hga; [|done].
      assert (with_app a1 w = leave a1 [] w) as Hw1 by (unfold leave; by rewrite app_nil_r).
      rewrite Hw1 in *. destruct (IH p1 (Act fq) m (leave a1 [] w) w') as [ts Hts];
        [by eauto|by apply attached_leave|done..|simpl in Hst; lia|].
      exists ts. by rewrite Hts, leave_leave.
    + pose proof (alive_attached _ _ _ _ _ Hat Hn Hi) as Hd.
      assert (app_only (Act f)) as Hp by by econstructor.
      destruct (fq w) as [[w1 q1]|] eqn:Hfq.
      * assert (∃ ts k, w1 = leave (app w) ts w ∧ watching c (core_name sc) (core_id sc) k q1) as (ts1 & k & -> & Hq1).
        { destruct (watching_step _ _ _ _ _ _ _ _ Hq Hd Hfq) as [[[ts ->] ?]|[[ts ->] ?]]; eauto. }
        destruct (app_only_run _ _ _ _ Hp Hrun) as [_ H2]. destruct (H2 (leave (app w) ts1 w)) as [Hr2 Hs2]; [done|].
        edestruct (IH (Act f) q1 k (leave (app w) ts1 w) (with_app (app w') (leave (app w) ts1 w))) as [ts Hts];
          [done|by apply attached_leave|done|done|by rewrite Hs2|].
        exists (ts1 ++ ts). by rewrite Hts, leave_leave.
      * eapply IH; try done.
Qed.
End net.

Section requests.
Context {EncodeError DecodeError Factory Hooks App : Type}.
Abbreviation E := (Error EncodeError DecodeError).
Abbreviation World := (@World EncodeError DecodeError Factory Hooks App).
Abbreviation future := (prog E World).
Context {HF : @HandlerFactory EncodeError DecodeError Factory Hooks App}.
Context {RH : @RpcHooks EncodeError DecodeError Factory Hooks App}.
Implicit Types (w : World).

(** ** A request that runs alone *)

(** The network has counted the request; the server has counted it, and its handler
    has left the application in the state [a]. *)
Definition counted w : World :=
  with_core (λ c, mkNetworkCore (reliable c) (long_delays c) (long_reordering c) (endpoints c) (poisoned c) (fetch_add_1 (net_count c))) w.
Definition handled (srv : Server) (a : App) (ts : list N) w : World :=
  leave a ts (with_cores (alter bump srv (cores w)) (counted w)).

Definition request_lost (d : Draws) w : bool := negb (reliable (core w)) && (d_drop_request d mod 1000 <? 100)%N.
Definition reply_lost (d : Draws) w : bool := negb (reliable (core w)) && (d_drop_reply d mod 1000 <? 100)%N.

(** A request that will find its handler, which runs to the end with the result [o] and
    leaves the application in the state [a]. *)
Record handles (rpc : Rpc) (srv : Server) (sc : ServerCore Factory) (steps : nat) (o : outcome E bytes) (a : App) w : Prop := {
  ha_attached : attached (client_name rpc) srv sc w;
  ha_hooks : cells w !! hooks rpc = Some (mkHookCell None false);
  ha_handler : ∃ buf svc m rest factory w',
    req rpc = Some buf ∧ split_dot (fq_name rpc) = svc :: m :: rest ∧ services sc !! svc = Some factory ∧
    app_only (handler factory m buf) ∧ run (handler factory m buf) w = Some (o, w') ∧ app w' = a ∧
    run_steps (handler factory m buf) w = steps;
}.

Lemma dispatch_ok (srv : Server) (sc : ServerCore Factory) svc m rest factory fq buf w :
  cores w !! srv = Some sc → split_dot fq = svc :: m :: rest → services sc !! svc = Some factory →
  dispatch srv fq buf w = (Ok (handler factory m buf), with_cores (alter bump srv (cores w)) w).
Proof.
  intros Hsc Hfq Hf. unfold dispatch, get_core. mpure. rewrite Hfq.
  erewrite bind_ok; [|cbn; rewrite list_lookup_alter_eq, Hsc; reflexivity]. simpl. by rewrite Hf.
Qed.

Lemma run_result {A} (p : future A) w o w' : run p w = Some (o, w') →
  run (result p) w = Some (match o with Ok a => Ok (inr a) | Err e => Ok (inl e) | Panic => Panic | Diverge => Diverge end, w')
  ∧ run_steps (result p) w = run_steps p w.
Proof.
  revert w. induction p as [o1|f IH] using prog_ind; intros w; simpl; [intros [= -> ->]; by destruct o|].
  destruct (f w) as [[w1 p1]|] eqn:Hf; [|done]. intros [H1 H2]%(IH _ _ _ Hf). by rewrite H2.
Qed.

Lemma attached_bump c srv (sc : ServerCore Factory) w cs :
  attached c srv sc w → cs = alter bump srv (cores w) → attached c srv (bump sc) (with_cores cs w).
Proof. intros [] ->. split; try done. simpl. by rewrite list_lookup_alter_eq, at_core0. Qed.

(** The same with the hooks of the client: [after] is what they make of an answer. *)
Record hooked (after : E + bytes → outcome E bytes) (rpc : Rpc) (srv : Server) (sc : ServerCore Factory) (steps : nat) (o : outcome E bytes) (a : App) w : Prop := {
  hk_attached : attached (client_name rpc) srv sc w;
  hk_before : ∀ buf w', req rpc = Some buf → cells w' = cells w → app w' = app w →
    with_hooks (hooks rpc) (λ h, before_dispatch h (fq_name rpc) buf) (mret tt) w' = (Ok tt, w');
  hk_after : ∀ r w', cells w' = cells w → app w' = a →
    with_hooks (hooks rpc) (λ h, after_dispatch h (fq_name rpc) r) (of_answer r) w' = (after r, w');
  hk_handler : ∃ buf svc m rest factory w',
    req rpc = Some buf ∧ split_dot (fq_name rpc) = svc :: m :: rest ∧ services sc !! svc = Some factory ∧
    app_only (handler factory m buf) ∧ run (handler factory m buf) w = Some (o, w') ∧ app w' = a ∧
    run_steps (handler factory m buf) w = steps;
}.

Definition outcome_of (r : E + bytes) : outcome E bytes := match r with inr b => Ok b | inl e => Err e end.

Lemma handles_hooked rpc srv sc steps o a w : handles rpc srv sc steps o a w → hooked outcome_of rpc srv sc steps o a w.
Proof.
  intros [Hat Hh Hha]. split; [done| | |done].
  - intros buf w' _ Hc _. unfold with_hooks. by rewrite Hc, Hh.
  - intros r w' Hc _. unfold with_hooks. rewrite Hc, Hh. by destruct r.
Qed.

(** What a request is answered that was handled with the outcome [o]. *)
Definition answered (after : E + bytes → outcome E bytes) (drop : bool) (o : outcome E bytes) : outcome E bytes :=
  match match o with Ok b => after (inr b) | Err e => after (inl e) | Panic => Panic | Diverge => Diverge end with
  | Ok b => if drop then Err Timeout else Ok b
  | o => o
  end.

Lemma process_rpc_hooked after short drop re sched rpc srv sc steps o a w :
  hooked after rpc srv sc steps o a w → steps ≤ trues sched →
  ∃ ts, run (process_rpc short drop re sched rpc srv) w =
    Some (answered after drop o, leave a ts (with_cores (alter bump srv (cores w)) w)).
Proof.
  intros [Hat Hbe Haf (buf & svc & m & rest & factory & w' & Hreq & Hfq & Hsvc & Hao & Hrun & <- & <-)] Hst.
  unfold process_rpc.
  assert (∃ ts0, run (match short with Some s => delay (1000 * s) | None => mret tt end) w = Some (Ok tt, leave (app w) ts0 w)) as [ts0 H0].
  { destruct short as [n|]; [by exists [(1000 * n)%N]|exists []; by rewrite leave_nil]. }
  rewrite (run_bind_ok _ _ _ _ _ H0), Hreq. clear H0. set (w0 := leave (app w) ts0 w).
  assert (attached (client_name rpc) srv sc w0) as Hat0 by by apply attached_leave.
  assert (cores w0 !! srv = Some sc) as Hsc by apply Hat0.
  rewrite (run_atomic_ok _ _ _ _ _ (Hbe buf w0 Hreq eq_refl eq_refl)).
  erewrite run_atomic_ok; [|unfold get_core, expect; by rewrite Hsc].
  rewrite (run_atomic_ok _ _ _ _ _ (dispatch_ok srv sc svc m rest factory (fq_name rpc) buf w0 Hsc Hfq Hsvc)).
  set (w1 := with_cores _ w0).
  assert (attached (client_name rpc) srv (bump sc) w1) as Hat1 by by eapply attached_bump.
  destruct (app_only_run _ _ _ _ Hao Hrun) as [_ H2]. destruct (H2 w1) as [Hrun1 Hst1]; [done|].
  destruct (run_result _ _ _ _ Hrun1) as [Hrun2 Hst2].
  destruct (select_alone (client_name rpc) srv sc (bump sc) sched (result (handler factory m buf))
    (server_dead (length sched) 100 (client_name rpc) (core_name sc) (core_id sc)) (length sched) w1 _ _
    (app_only_result _ Hao) Hat1 eq_refl eq_refl (watch_delay _ _ _ _) Hrun2) as [ts1 Hsel]; [by rewrite Hst2, Hst1|].
  set (w2 := leave (app (with_app (app w') w1)) ts1 w1) in *.
  assert (w2 = leave (app w') (ts0 ++ ts1) (with_cores (alter bump srv (cores w)) w)) as Hw2.
  { unfold w2, w1, w0, leave; simpl. by rewrite app_assoc. }
  assert (is_server_dead (client_name rpc) (core_name sc) (core_id sc) w2 = (Ok false, w2)) as Hd.
  { apply (alive_attached _ srv _ (bump sc)); [by apply attached_leave|done|done]. }
  assert (∀ r, with_hooks (hooks rpc) (λ h, after_dispatch h (fq_name rpc) r) (of_answer r) w2 = (after r, w2)) as Hh2.
  { intros r. by apply Haf. }
  destruct o as [b|e| |]; simpl in Hsel;
    rewrite (run_bind _ _ _ _ _ Hsel); cbn [cont]; try (exists (ts0 ++ ts1); by rewrite <-Hw2);
    (erewrite run_bind; [|rewrite run_atomic, Hh2; reflexivity]); unfold answered; cbn [answer_of];
    match goal with |- context [after ?r] => destruct (after r) as [b'|e'| |] end; cbn [cont];
    try (exists (ts0 ++ ts1); by rewrite <-Hw2);
    (erewrite run_atomic_ok; [|by rewrite Hd]); cbn iota;
    (destruct drop; [exists (ts0 ++ ts1); by rewrite <-Hw2|]);
    (destruct re as [ms|]; [|exists (ts0 ++ ts1); by rewrite <-Hw2]);
    exists ((ts0 ++ ts1) ++ [ms]); rewrite <-(leave_leave (app w')), <-Hw2; unfold delay;
    by erewrite run_atomic_ok; [|reflexivity].
Qed.

(** [handles] only looks at the endpoints, the servers, the hooks and the application. *)
Lemma handles_same rpc srv sc steps o a w w2 : handles rpc srv sc steps o a w →
  endpoints (core w2) = endpoints (core w) → poisoned (core w2) = poisoned (core w) →
  cores w2 = cores w → (∀ c h, cells w !! c = Some h → cells w2 !! c = Some h) → app w2 = app w →
  handles rpc srv sc steps o a w2.
Proof.
  intros [[] Hh (buf & svc & m & rest & factory & w' & Hreq & Hfq & Hsvc & Hao & Hrun & <- & <-)] He Hp Hc Hcl Ha.
  destruct (app_only_run _ _ _ _ Hao Hrun) as [_ H2]. destruct (H2 w2 Ha) as [Hr Hs].
  split; [by split; rewrite ?He, ?Hp, ?Hc|by apply Hcl|].
  eexists buf, svc, m, rest, factory, _. by rewrite <-Hs.
Qed.

Lemma network_process_rpc_hooked after d rpc srv sc steps o a w :
  hooked after rpc srv sc steps o a w → request_lost d w = false → steps ≤ trues (d_sched d) →
  ∃ ts, run (network_process_rpc d rpc) w = Some (answered after (reply_lost d w) o, handled srv a ts w).
Proof.
  intros Hh Hl Hst. unfold network_process_rpc.
  assert (hooked after rpc srv sc steps o a (counted w)) as Hc.
  { destruct Hh as [[] Hbe Haf (buf & svc & m & rest & factory & w' & Hreq & Hfq & Hsvc & Hao & Hrun & <- & <-)].
    destruct (app_only_run _ _ _ _ Hao Hrun) as [_ H2]. destruct (H2 (counted w) eq_refl) as [Hr Hs].
    split; [by split|exact Hbe|exact Haf|]. eexists buf, svc, m, rest, factory, _. by rewrite <-Hs. }
  erewrite run_atomic_ok; [|reflexivity]. fold (counted w).
  erewrite run_atomic_ok; [|apply (end_info_attached _ srv sc), Hc]. cbn [ei_enabled ei_server ei_reliable ei_long_reordering].
  change (reliable (core (counted w))) with (reliable (core w)).
  unfold request_lost in Hl. rewrite Hl. cbn zeta.
  destruct (process_rpc_hooked after (if negb (reliable (core w)) then Some (d_short d mod 27)%N else None) (reply_lost d w)
    (if long_reordering (core w) && (d_reorder d <? 600)%N then Some (200 + d_long d)%N else None)
    (d_sched d) _ _ _ _ _ _ _ Hc Hst) as [ts Hts]. exists ts. exact Hts.
Qed.

Lemma network_process_rpc_served d rpc srv sc steps o a w :
  handles rpc srv sc steps o a w → request_lost d w = false → steps ≤ trues (d_sched d) →
  ∃ ts, run (network_process_rpc d rpc) w =
    Some (match o with Ok b => if reply_lost d w then Err Timeout else Ok b | o => o end, handled srv a ts w).
Proof.
  intros Hh%handles_hooked Hl Hst. destruct (network_process_rpc_hooked _ d _ _ _ _ _ _ _ Hh Hl Hst) as [ts Hts].
  exists ts. rewrite Hts. by destruct o.
Qed.

Lemma network_process_rpc_lost d rpc srv sc steps o a w :
  handles rpc srv sc steps o a w → request_lost d w = true →
  run (network_process_rpc d rpc) w =
    Some (Err Timeout, leave (app w) [1000 * (d_short d mod 27)]%N (counted w)).
Proof.
  intros Hh Hl. unfold network_process_rpc.
  assert (handles rpc srv sc steps o a (counted w)) as Hc by by eapply handles_same.
  erewrite run_atomic_ok; [|reflexivity]. fold (counted w).
  erewrite run_atomic_ok; [|apply (end_info_attached _ srv sc), Hc]. cbn [ei_enabled ei_server ei_reliable ei_long_reordering].
  change (reliable (core (counted w))) with (reliable (core w)).
  unfold request_lost in Hl. rewrite Hl. apply andb_true_iff in Hl as [-> _]. unfold delay.
  by erewrite run_atomic_ok; [|reflexivity].
Qed.

(** The client cannot reach a server: it is disabled or not connected, or the server
    was deleted. *)
Definition unreachable (c : string) w : Prop :=
  poisoned (core w) = false ∧ ∃ en,
    enabled (endpoints (core w)) !! c = Some en ∧
    match connections (endpoints (core w)) !! c with
    | Some (Some n) => ∃ s, servers (endpoints (core w)) !! n = Some s ∧ (en = false ∨ s = None)
    | _ => True
    end.

Lemma network_process_rpc_unreachable d rpc w : unreachable (client_name rpc) w →
  ∃ ms, run (network_process_rpc d rpc) w = Some (Err Timeout, leave (app w) [ms] (counted w)).
Proof.
  intros [Hp (en & Hen & Hc)]. unfold network_process_rpc.
  erewrite run_atomic_ok; [|reflexivity]. fold (counted w).
  assert (∃ i, end_info (client_name rpc) (counted w) = (Ok i, counted w) ∧ (ei_enabled i = false ∨ ei_server i = None)) as (i & Hi & Hne).
  { rewrite end_info_eq. simpl. rewrite Hp, Hen.
    destruct (connections _ !! client_name rpc) as [[n|]|]; [destruct Hc as (s & -> & Hs)|..]; eexists; naive_solver. }
  erewrite run_atomic_ok; [|done]. eexists.
  assert (match ei_enabled i, ei_server i with
          | true, Some _ => False
          | _, _ => True
          end) by (by destruct (ei_enabled i), (ei_server i), Hne).
  destruct (ei_enabled i), (ei_server i); try done.
  all: erewrite run_atomic_ok; [|reflexivity]; unfold delay; by erewrite run_atomic_ok; [|reflexivity].
Qed.

(** ** A request among other threads *)

(** An action of [server_dead], as the others see it. *)
Definition dead_check w w' : Prop := (∃ ms, w' = with_timer ms w) ∨ w' = w ∨ w' = poison w.

Lemma is_server_dead_check c n id w : dead_check w (is_server_dead c n id w).2.
Proof.
  rewrite is_server_dead_eq. unfold dead_check. destruct (poisoned _); [naive_solver|].
  destruct (enabled _ !! c) as [[]|]; [|naive_solver..].
  destruct (servers _ !! n) as [[srv|]|]; [|naive_solver..]. destruct (cores w !! srv); naive_solver.
Qed.

Definition watcher (c n : string) (id : N) (q : future unit) : Prop := (∃ m, watching c n id m q) ∨ ∃ o, q = Done o.

Lemma watcher_step c n id f w w' q : watcher c n id (Act f) → f w = Some (w', q) →
  dead_check w w' ∧ watcher c n id q.
Proof.
  intros [(m & H)|[o H]]; [|done]. inversion H as [[|k] Heq|k Heq]; subst; intros Hf.
  - simpl in *. simplify_eq.
  - simpl in *. simplify_eq. split; [left; eauto|]. left. exists k. constructor.
  - simpl in Hf. pose proof (is_server_dead_check c n id w) as Hd.
    destruct (is_server_dead c n id w) as [o w1]. simplify_eq. split; [done|].
    destruct o as [[]|e| |]; [right; by eexists|left; exists m; constructor|right; by eexists..].
Qed.
End requests.

(** ** Calls that wait *)

Section ensures.
Context {E S : Type} (Q : S → S → Prop).

(** Every action of a program takes the state to one that [Q] relates to it. *)
Inductive ensures {A} : prog E S A → Prop :=
| ensures_done o : ensures (Done o)
| ensures_act f :
    (∀ s s' p', f s = Some (s', p') → Q s s') → (∀ s s' p', f s = Some (s', p') → ensures p') →
    ensures (Act f).

Lemma ensures_inv {A} f s s' (p' : prog E S A) : ensures (Act f) → f s = Some (s', p') → Q s s' ∧ ensures p'.
Proof. inversion 1; subst; eauto. Qed.

Lemma ensures_intro {A} (f : S → option (S * prog E S A)) :
  (∀ s s' p', f s = Some (s', p') → Q s s' ∧ ensures p') → ensures (Act f).
Proof. intros H. constructor; intros s s' p' Hf; by destruct (H _ _ _ Hf). Qed.

Lemma ensures_atomic {A} (m : M E S A) : (∀ s, Q s (m s).2) → ensures (atomic m).
Proof.
  intros Hm. apply ensures_intro. intros s s' p'. specialize (Hm s). destruct (m s) as [o s1].
  intros [= <- <-]. split; [done|constructor].
Qed.

Lemma ensures_bind {A B} (p : prog E S A) (k : A → prog E S B) :
  ensures p → (∀ a, ensures (k a)) → ensures (p ≫= k).
Proof.
  intros Hp Hk. induction p as [o|f IH] using prog_ind; [destruct o; simpl; first [apply Hk|constructor]|].
  apply ensures_intro. intros s s' p'.
  destruct (f s) as [[s1 p1]|] eqn:Hfs; [|done]. intros [= <- <-].
  destruct (ensures_inv _ _ _ _ Hp Hfs). split; [done|]. by eapply IH.
Qed.

Lemma ensures_result {A} (p : prog E S A) : ensures p → ensures (result p).
Proof.
  intros Hp. induction p as [o|f IH] using prog_ind; [destruct o; constructor|].
  apply ensures_intro. intros s s' p'.
  destruct (f s) as [[s1 p1]|] eqn:Hfs; [|done]. intros [= <- <-].
  destruct (ensures_inv _ _ _ _ Hp Hfs). split; [done|]. by eapply IH.
Qed.

Lemma ensures_select {A B} sched (p : prog E S A) (q : prog E S B) :
  (∀ s, Q s s) → ensures p → ensures q → ensures (select sched p q).
Proof.
  intros Hr. revert p q. induction sched as [|b sched IH]; intros p q Hp Hq.
  - destruct p as [o|f]; [destruct q, o; constructor|]. destruct q as [o|g]; [destruct o; constructor|].
    by constructor.
  - destruct p as [o|f]; [destruct q, o; constructor|]. destruct q as [o|g]; [destruct o; constructor|].
    destruct b; apply ensures_intro; intros s s' p'.
    + destruct (f s) as [[s1 p1]|] eqn:Hfs; intros [= <- <-]; [|by auto].
      destruct (ensures_inv _ _ _ _ Hp Hfs). auto.
    + destruct (g s) as [[s1 q1]|] eqn:Hgs; intros [= <- <-]; [|by auto].
      destruct (ensures_inv _ _ _ _ Hq Hgs). auto.
Qed.
End ensures.

Section waiting.
Context {EncodeError DecodeError Factory Hooks App : Type}.
Abbreviation E := (Error EncodeError DecodeError).
Abbreviation World := (@World EncodeError DecodeError Factory Hooks App).
Abbreviation System := (@System EncodeError DecodeError Factory Hooks App).
Abbreviation future := (prog E World).
Context {HF : @HandlerFactory EncodeError DecodeError Factory Hooks App}.
Context {RH : @RpcHooks EncodeError DecodeError Factory Hooks App}.
Implicit Types (w : World).

(** What threads may do to the channels: nothing, or send new requests, each with the
    sender of a new oneshot channel. *)
Record polite_with (new : list Rpc) (os : list (oneshot (E + bytes))) w w' : Prop := {
  pw_incoming : incoming w' = incoming w ++ new;
  pw_oneshots : oneshots w' = oneshots w ++ os;
  pw_some : Forall (λ r, is_Some (resp r)) new;
  pw_nodup : NoDup (omap resp new);
  pw_range : ∀ i, i ∈ omap resp new → length (oneshots w) <= i;
  pw_waiting : ∀ i, os !! i = Some Waiting ↔ length (oneshots w) + i ∈ omap resp new;
}.
Definition polite w w' : Prop := ∃ new os, polite_with new os w w'.

(** What everything but a call does to them. *)
Definition still w w' : Prop := incoming w' = incoming w ∧ oneshots w' = oneshots w.

#[export] Instance still_preorder : PreOrder still.
Proof. split; [done|]. intros ??? [] []. split; congruence. Qed.

Lemma still_polite w w' : still w w' → polite w w'.
Proof.
  intros [Hi Ho]. exists [], []. split; rewrite ?app_nil_r; try done; cbn.
  - constructor.
  - intros i. by rewrite elem_of_nil.
  - intros i. rewrite lookup_nil. set_solver.
Qed.

Lemma polite_refl w : polite w w.
Proof. by apply still_polite. Qed.

(** ** The operations of the network *)

Definition quiet {A} (m : M E World A) : Prop := ∀ w, still w (m w).2.

Lemma quiet_ret {A} (a : A) : quiet (mret a).
Proof. done. Qed.
Lemma quiet_gets {A} (f : World → A) : quiet (gets f).
Proof. done. Qed.
Lemma quiet_expect {A} (o : option A) : quiet (expect o).
Proof. by destruct o. Qed.

Lemma quiet_bind {A B} (m : M E World A) (f : A → M E World B) : quiet m → (∀ a, quiet (f a)) → quiet (m ≫= f).
Proof.
  intros Hm Hf w. specialize (Hm w). unfold mbind, M_bind. destruct (m w) as [[a|e| |] w']; [|done..].
  etrans; [done|apply Hf].
Qed.

Lemma quiet_locked {A} (m : M E World A) : quiet m → quiet (locked m).
Proof.
  intros Hm w. unfold locked. destruct (poisoned _); [done|].
  specialize (Hm w). by destruct (m w) as [[] w'].
Qed.

Lemma quiet_get_core srv : quiet (get_core srv).
Proof. intros w. unfold get_core. apply quiet_expect. Qed.

Lemma quiet_end_info c : quiet (end_info c).
Proof. intros w. rewrite end_info_eq. repeat case_match; done. Qed.

Lemma quiet_is_server_dead c n id : quiet (is_server_dead c n id).
Proof. intros w. rewrite is_server_dead_eq. repeat case_match; done. Qed.

Lemma quiet_dispatch srv fq buf : quiet (dispatch srv fq buf).
Proof.
  apply quiet_bind; [done|]. intros _. destruct (split_dot fq) as [|? []]; [done..|].
  apply quiet_bind; [apply quiet_get_core|]. intros sc. by case_match.
Qed.

Lemma polite_still w w1 w2 : polite w w1 → still w1 w2 → polite w w2.
Proof. intros (new & os & []) [Hi Ho]. exists new, os. split; [congruence|congruence|done..]. Qed.

Create HintDb rpc.

(** ** What the tasks of the network do to the channels

    Nothing, but for the handlers and hooks: if those keep to a relation that allows to
    leave the channels alone, so do the tasks. *)

Section tasks.
Context (Q : World → World → Prop) (Hstill : ∀ w w', still w w' → Q w w') (Hthen : ∀ w w1 w2, Q w w1 → still w1 w2 → Q w w2).

Definition keeps {A} (m : M E World A) : Prop := ∀ w, Q w (m w).2.

Lemma quiet_keeps {A} (m : M E World A) : quiet m → keeps m.
Proof using Hstill. intros Hm w. apply Hstill, Hm. Qed.

Lemma keeps_with_hooks {A} c (yes : Hooks → M E World A) no :
  (∀ h, keeps (yes h)) → keeps no → keeps (with_hooks c yes no).
Proof.
  intros Hy Hn w. unfold with_hooks. destruct (cells w !! c) as [[[h|] []]|]; try first [by apply Hstill|apply Hn].
  specialize (Hy h w). destruct (yes h w) as [[] w']; try done. by eapply Hthen.
Qed.

#[local] Hint Resolve quiet_keeps quiet_end_info quiet_is_server_dead quiet_dispatch quiet_get_core : rpc.

Lemma keeps_act {A} (m : M E World A) : keeps m → ensures Q (atomic m).
Proof. intros Hm. by apply ensures_atomic. Qed.

Lemma keeps_delay ms : ensures Q (delay ms : future unit).
Proof. apply keeps_act, quiet_keeps. by intros w. Qed.

Lemma keeps_watching n interval c sname id : ensures Q (server_dead n interval c sname id : future unit).
Proof.
  induction n as [|n IH]; [by apply ensures_intro|]. apply ensures_bind; [apply keeps_delay|]. intros _.
  apply ensures_bind; [apply keeps_act; auto with rpc|]. intros []; [constructor|done].
Qed.

Context (Hhandler : ∀ f m buf, ensures Q (handler f m buf : future bytes)).
Context (Hbefore : ∀ h fq buf, keeps (before_dispatch h fq buf)).
Context (Hafter : ∀ h fq a, keeps (after_dispatch h fq a)).

Lemma keeps_process_rpc short drop re sched rpc srv :
  ensures Q (process_rpc short drop re sched rpc srv).
Proof using HF RH Hstill Hthen Hhandler Hbefore Hafter.
  apply ensures_bind; [destruct short; [apply keeps_delay|constructor]|]. intros _.
  destruct (req rpc) as [buf|]; [|constructor].
  apply ensures_bind; [apply keeps_act, keeps_with_hooks; [done|by apply quiet_keeps]|]. intros _.
  apply ensures_bind; [apply keeps_act; auto with rpc|]. intros sc.
  assert (∀ fut : future bytes, ensures Q fut → ensures Q
    (resp ← select sched (result fut) (server_dead (length sched) 100 (client_name rpc) (core_name sc) (core_id sc));
     resp ← atomic (with_hooks (hooks rpc) (λ h, after_dispatch h (fq_name rpc) (answer_of resp)) (of_answer (answer_of resp)));
     dead ← atomic (is_server_dead (client_name rpc) (core_name sc) (core_id sc));
     if (dead : bool) then Done (Err Stopped)
     else if drop : bool then Done (Err Timeout)
     else match re with Some ms => delay ms;; mret resp | None => mret resp end)) as Hrest.
  { intros fut Hfut. apply ensures_bind.
    { apply ensures_select; [intros; by apply Hstill|by apply ensures_result|apply keeps_watching]. }
    intros r. apply ensures_bind.
    { apply keeps_act, keeps_with_hooks; [done|]. apply quiet_keeps. by destruct (answer_of r). }
    intros b. apply ensures_bind; [apply keeps_act; auto with rpc|]. intros [|]; [constructor|].
    destruct drop; [constructor|]. destruct re; [|constructor].
    apply ensures_bind; [apply keeps_delay|constructor]. }
  apply ensures_intro. intros w w' p' Hf. cbn in Hf.
  destruct (dispatch srv (fq_name rpc) buf w) as [o w1] eqn:Hd. simplify_eq. split.
  { pose proof (quiet_keeps _ (quiet_dispatch srv (fq_name rpc) buf) w) as Hq. by rewrite Hd in Hq. }
  destruct o as [fut|e| |]; try constructor. apply Hrest.
  revert Hd. unfold dispatch, mbind, M_bind, mret, M_ret. simpl.
  destruct (split_dot (fq_name rpc)) as [|? []]; simpl; [intros; simplify_eq; constructor..|].
  unfold get_core, expect. destruct (_ !! srv) as [sc'|]; simpl; [|done].
  destruct (services sc' !! _); intros; simplify_eq; [apply Hhandler|constructor].
Qed.

Lemma keeps_network d rpc : ensures Q (network_process_rpc d rpc).
Proof using HF RH Hstill Hthen Hhandler Hbefore Hafter.
  apply ensures_bind; [apply keeps_act, quiet_keeps; by intros w|]. intros _.
  apply ensures_bind; [apply keeps_act; auto with rpc|]. intros [[] r l [srv|]]; cbn [ei_enabled ei_server];
    [|apply ensures_bind; [apply keeps_act, quiet_keeps; by intros w|]; intros long;
      apply ensures_bind; [apply keeps_delay|constructor]..].
  cbn [ei_reliable ei_long_reordering].
  destruct (negb r && _); [|apply keeps_process_rpc].
  destruct (negb r); [apply ensures_bind; [apply keeps_delay|]|]; constructor.
Qed.
End tasks.

(** ** Tasks send no requests of their own *)

Definition polite_op {A} (m : M E World A) : Prop := keeps polite m.

Context (Hhandler : ∀ f m buf, ensures polite (handler f m buf : future bytes)).
Context (Hbefore : ∀ h fq buf, polite_op (before_dispatch h fq buf)).
Context (Hafter : ∀ h fq a, polite_op (after_dispatch h fq a)).

Lemma polite_network d rpc : ensures polite (network_process_rpc d rpc).
Proof using HF RH Hhandler Hbefore Hafter. apply keeps_network; try done; [apply still_polite|apply polite_still]. Qed.

(** ** Every call that waits is somewhere *)

Definition owners (sys : System) : list nat := omap resp (incoming (world sys)) ++ (tasks sys).*1.

Record calls_ok (sys : System) : Prop := {
  co_resp : Forall (λ r, is_Some (resp r)) (incoming (world sys));
  co_nodup : NoDup (owners sys);
  co_waiting : ∀ i, oneshots (world sys) !! i = Some Waiting ↔ i ∈ owners sys;
  co_polite : Forall (λ t, ensures polite t.2) (tasks sys);
}.

Lemma calls_ok_polite w w' ts ts' : calls_ok (mkSystem w ts) → polite w w' → ts'.*1 = ts.*1 →
  Forall (λ t, ensures polite t.2) ts' → calls_ok (mkSystem w' ts').
Proof.
  intros [Hr Hn Hw Hp] (new & os & [Hi Ho Hs Hnd Hge Hwt]) Hts Hpo. unfold owners in *. simpl in *.
  assert (∀ i, i ∈ omap resp (incoming w) ++ ts.*1 → i < length (oneshots w)) as Hlt.
  { intros i Hin%Hw. by eapply lookup_lt_Some. }
  assert (omap resp (incoming w') ++ ts'.*1 ≡ₚ omap resp new ++ omap resp (incoming w) ++ ts.*1) as Hperm.
  { rewrite Hi, omap_app, Hts. solve_Permutation. }
  split; simpl; unfold owners; simpl.
  - rewrite Hi. by apply Forall_app.
  - rewrite Hperm. apply NoDup_app. split_and!; [done| |done]. intros i H1 H2.
    apply Hlt in H2. apply Hge in H1. lia.
  - intros i. rewrite Hperm, elem_of_app, Ho. destruct (decide (i < length (oneshots w))) as [Hl|Hl].
    + rewrite lookup_app_l, Hw by done. split; [by right|]. intros [H1%Hge|]; [lia|done].
    + rewrite lookup_app_r, Hwt by lia. replace (length (oneshots w) + (i - length (oneshots w))) with i by lia.
      split; [by left|]. intros [|H1%Hlt]; [done|lia].
  - done.
Qed.

Definition polite_action (a : @net_action EncodeError DecodeError Factory Hooks App) : Prop :=
  match a with Thread f => ∀ w, polite w (f w) | _ => True end.

Lemma calls_ok_act a sys sys' : polite_action a → calls_ok sys → net_act a sys = Some sys' → calls_ok sys'.
Proof using HF RH Hhandler Hbefore Hafter.
  destruct sys as [w ts]. intros Ha Hok. destruct a as [d|i|f]; simpl.
  - destruct Hok as [Hr Hn Hw Hp]. unfold owners in *. simpl in *.
    destruct (incoming w) as [|rpc q] eqn:Hq; [done|]. inversion Hr as [|? ? [slot Hs] Hr']; subst.
    rewrite Hs. intros [= <-]. cbn in Hn, Hw. rewrite Hs in Hn, Hw. split; simpl; unfold owners; simpl.
    + done.
    + rewrite fmap_app, app_assoc, Permutation_app_comm. by cbn.
    + intros j. rewrite Hw, fmap_app. cbn. set_solver.
    + apply Forall_app. split; [done|]. constructor; [|constructor]. apply polite_network.
  - destruct (ts !! i) as [[slot [o|g]]|] eqn:Hi; [..|done].
    + intros [= <-]. destruct Hok as [Hr Hn Hw Hp]. unfold owners in *. simpl in *.
      assert (ts.*1 ≡ₚ slot :: (delete i ts).*1) as Hperm by exact (Permutation_map fst (delete_Permutation ts i _ Hi)).
      rewrite Hperm, <-Permutation_middle in Hn. apply NoDup_cons in Hn as [Hni Hn].
      split; simpl; unfold owners; simpl; [done|done| |].
      * intros j. destruct (decide (j = slot)) as [->|Hj].
        -- split; [|done]. rewrite list_lookup_insert_eq; [by destruct o|].
           eapply lookup_lt_Some, Hw. rewrite Hperm. set_solver.
        -- rewrite list_lookup_insert_ne by done. rewrite Hw, Hperm. set_solver.
      * by apply Forall_delete.
    + destruct (g w) as [[w1 p1]|] eqn:Hg; [|done]. intros [= <-].
      pose proof (co_polite _ Hok) as Hp. simpl in Hp.
      destruct (ensures_inv _ _ _ _ _ (Forall_lookup_1 _ _ _ _ Hp Hi) Hg) as [Hpw Hpp].
      eapply calls_ok_polite; [done..| |by apply Forall_insert].
      rewrite list_fmap_insert. apply list_insert_id. by rewrite list_lookup_fmap, Hi.
  - intros [= <-]. eapply calls_ok_polite; [done|apply Ha|done|apply Hok].
Qed.

Lemma calls_ok_acts l sys sys' : Forall polite_action l → calls_ok sys → net_acts l sys = Some sys' → calls_ok sys'.
Proof using HF RH Hhandler Hbefore Hafter.
  intros Hl. revert sys. induction Hl as [|a l Ha Hl IH]; intros sys Hok; simpl; [by intros [= <-]|].
  destruct (net_act a sys) as [sys1|] eqn:Hs; [|done]. intros H. eapply IH; [|done]. by eapply calls_ok_act.
Qed.

Lemma calls_ok_new a : calls_ok (new_network a).
Proof.
  split; unfold owners; simpl; [constructor|constructor| |constructor]. intros i. cbn.
  rewrite lookup_nil, elem_of_nil. done.
Qed.

Lemma call_polite {Req Rsp} (encode : Req → EncodeError + bytes) (decode : bytes → DecodeError + Rsp) c fq request :
  polite_op (call encode decode c fq request).
Proof using Type. clear Hhandler Hbefore Hafter.
  intros w. unfold call. destruct (encode request) as [e|buf]; [apply polite_refl|]. mpure.
  destruct (receiver w) eqn:Hr; simpl.
  - eexists [_], [Waiting]. split; simpl; try done; cbn; [by repeat constructor|apply NoDup_singleton|set_solver|].
    intros i. rewrite list_elem_of_singleton. destruct i as [|i]; simpl; [|rewrite lookup_nil]; split; try done; lia.
  - exists [], [Dropped]. split; simpl; rewrite ?app_nil_r; try done; cbn; [constructor|set_solver|].
    intros i. rewrite elem_of_nil. destruct i as [|i]; simpl; [|rewrite lookup_nil]; done.
Qed.
End waiting.
