(* ===== verification/RpcTheorems.v ===== *)
(** * Properties of the simulated network *)

From S2P Require Import Prelude Conc Rpc RpcSpec.

Section theorems.
Context {EncodeError DecodeError Factory Hooks App : Type}.
Abbreviation E := (Error EncodeError DecodeError).
Abbreviation World := (@World EncodeError DecodeError Factory Hooks App).
Abbreviation System := (@System EncodeError DecodeError Factory Hooks App).
Abbreviation future := (prog E World).
Context {HF : @HandlerFactory EncodeError DecodeError Factory Hooks App}.
Context {RH : @RpcHooks EncodeError DecodeError Factory Hooks App}.
Implicit Types (w : World).

(** A task of the network that is polled until it ends. *)
Lemma poll_run (ts : list (nat * future bytes)) i slot p w o w' :
  ts !! i = Some (slot, p) → run p w = Some (o, w') →
  net_acts (replicate (S (run_steps p w)) (Poll i)) (mkSystem w ts) =
    Some (mkSystem (send_answer slot o w') (delete i ts)).
Proof.
  revert ts w. induction p as [o1|f IH] using prog_ind; intros ts w Hi; intros Hrun.
  { cbn in Hrun. simplify_eq. cbn. by rewrite Hi. }
  cbn [run] in Hrun. destruct (f w) as [[w1 p1]|] eqn:Hf; [|done].
  cbn [run_steps]. rewrite Hf. change (S (1 + run_steps p1 w1)) with (S (S (run_steps p1 w1))).
  cbn [replicate net_acts].
  assert (net_act (Poll i) (mkSystem w ts) = Some (mkSystem w1 (<[i := (slot, p1)]> ts))) as -> by (cbn; by rewrite Hi, Hf).
  assert (i < length ts) as Hlt by by eapply lookup_lt_Some.
  etrans; [apply (IH _ _ _ Hf (<[i := (slot, p1)]> ts) w1); [by apply list_lookup_insert_eq|done]|]. do 2 f_equal.
  rewrite !delete_take_drop, take_insert_ge, drop_insert_lt by lia. done.
Qed.

(** ** A call over a reliable network *)

(** What [Client::call] makes of the reply to a method that returned [o]. *)
Definition reply {me : @Method EncodeError DecodeError Factory Hooks App} (o : outcome E (Output me)) : outcome E (Output me) :=
  match o with
  | Ok rsp => match encode_output me rsp with inl e => Err (Encode e) | inr _ => Ok rsp end
  | Err e => Err e
  | Panic | Diverge => Err Recv
  end.

Definition encoded {me : @Method EncodeError DecodeError Factory Hooks App} (o : outcome E (Output me)) : outcome E bytes :=
  match o with
  | Ok rsp => match encode_output me rsp with inl e => Err (Encode e) | inr b => Ok b end
  | Err e => Err e
  | Panic => Panic
  | Diverge => Diverge
  end.

Lemma service_handler_run svc methods name (me : @Method EncodeError DecodeError Factory Hooks App) buf request w o w' :
  find (λ m, bool_decide (m.1 = name)) methods = Some (name, me) → decode_input me buf = inr request →
  app_only (method me request) → run (method me request) w = Some (o, w') →
  app_only (service_handler svc methods name buf) ∧
  run (service_handler svc methods name buf) w = Some (encoded o, w').
Proof.
  intros Hm Hd Ha Hr. unfold service_handler. rewrite Hm, Hd. split.
  - apply app_only_bind; [done|]. intros rsp. destruct (encode_output me rsp); constructor.
  - rewrite (run_bind _ _ _ _ _ Hr). destruct o as [rsp|e| |]; simpl; try done. by destruct (encode_output me rsp).
Qed.

(** C17: A call of a method over a reliable network, by an enabled client connected to a
    live server of the service, answers what the method answers: a value comes back
    unchanged through both codecs, an error as it is, and a method that panics is a
    canceled call. The method has run once, on the state of the service; the server and
    the network have each counted one request; the network has no task left of it. This
    holds in whatever order [select!] polls, if it polls the method often enough. *)
Theorem call_answers d svc name methods (me : @Method EncodeError DecodeError Factory Hooks App) factory
    (enc : Input me → EncodeError + bytes) (dec : bytes → DecodeError + Output me)
    c srv sc request buf o (w w0 : World) ts :
  attached (cl_name c) srv sc w → reliable (core w) = true →
  cells w !! cl_hooks c = Some (mkHookCell None false) → receiver w = true → incoming w = [] →
  services sc !! svc = Some factory → (∀ n b, handler factory n b = service_handler svc methods n b) →
  (∀ ch, ch ∈ String.list_ascii_of_string svc ++ String.list_ascii_of_string name → ch ≠ "."%char) →
  find (λ m, bool_decide (m.1 = name)) methods = Some (name, me) →
  enc request = inr buf → decode_input me buf = inr request →
  (∀ rsp b, encode_output me rsp = inr b → dec b = inr rsp) →
  app_only (method me request) → run (method me request) w = Some (o, w0) →
  run_steps (service_handler svc methods name buf) w ≤ trues (d_sched d) →
  ∃ fut w1 n w2,
    service_call enc dec svc name c request w = (Ok fut, w1) ∧
    net_acts (Accept d :: replicate n (Poll (length ts))) (mkSystem w1 ts) = Some (mkSystem w2 ts) ∧
    run fut w2 = Some (reply o, w2) ∧
    app w2 = app w0 ∧ cores w2 = alter bump srv (cores w) ∧ net_count (core w2) = fetch_add_1 (net_count (core w)).
Proof.
  intros Hat Hrel Hh Hrec Hinc Hsvc Hhan Hdot Hfind Henc Hdec Hround Hao Hrun Hst.
  set (fq := svc +:+ "." +:+ name). set (rpc := mkRpc (cl_name c) fq (Some buf) (Some (length (oneshots w))) (cl_hooks c)).
  destruct (service_handler_run svc methods name me buf request w o w0) as [Haos Hruns]; try done.
  destruct (app_only_run _ _ _ _ Haos Hruns) as [_ Hsame].
  set (w1 := with_incoming [rpc] true (with_oneshots (oneshots w ++ [Waiting]) w)).
  assert (split_dot fq = [svc; name]) as Hsplit.
  { unfold fq. rewrite split_dot_app by (intros; apply Hdot; set_solver). f_equal.
    assert (∀ ch, ch ∈ String.list_ascii_of_string name → ch ≠ "."%char) as Hn by (intros; apply Hdot; set_solver).
    clear -Hn. induction name as [|ch s IH]; [done|]. simpl. rewrite decide_False by (apply Hn; by left).
    rewrite IH; [done|]. intros ch' H'. apply Hn. by right. }
  set (w2 := with_incoming [] true w1).
  destruct (Hsame w2) as [Hrun2 Hsteps2]; [done|].
  assert (handles rpc srv sc (run_steps (service_handler svc methods name buf) w) (encoded o) (app w0) w2) as Hha.
  { split; [by destruct Hat|done|]. eexists buf, svc, name, [], factory, _. rewrite !Hhan. done. }
  destruct (network_process_rpc_served d rpc srv sc _ _ _ w2 Hha) as [tms Hserved];
    [unfold request_lost; simpl; by rewrite Hrel|done|].
  eexists _, w1, (S (run_steps (network_process_rpc d rpc) w2)), _. split.
  { unfold service_call, call. rewrite Henc. mpure. rewrite Hrec. mpure. cbn. by rewrite Hinc. }
  split.
  { cbn [net_acts].
    assert (net_act (Accept d) (mkSystem w1 ts) = Some (mkSystem w2 (ts ++ [(length (oneshots w), network_process_rpc d rpc)])))
      as -> by done. cbn [mbind option_bind].
    erewrite (poll_run _ (length ts)); [|by rewrite lookup_app_r, Nat.sub_diag by lia|apply Hserved].
    by rewrite delete_take_drop, take_app_length, drop_ge, app_nil_r by (rewrite length_app; simpl; lia). }
  unfold reply_lost. simpl. rewrite Hrel. simpl.
  split; [|by destruct o].
  rewrite list_lookup_insert_eq by (rewrite length_app; simpl; lia).
  destruct o as [rsp|e| |]; simpl; try done.
  destruct (encode_output me rsp) as [e|b] eqn:Hb; simpl; [done|]. by rewrite (Hround _ _ Hb).
Qed.

(** ** The fate of a request *)

(** What becomes of a request when nothing else runs. It is always counted. When
    its client is disabled or not connected, or its server was deleted, it times out
    and no server sees it. On an unreliable network it may be lost, in one draw of ten:
    it times out after [d_short mod 27] seconds (not milliseconds) and no server sees
    it. Otherwise the handler runs to its end, and its error is the answer, whatever
    the draws; only a value may be lost, again in one draw of ten, after the handler has
    had its effect. *)
Theorem request_alone d rpc srv sc steps o a (w : World) :
  (unreachable (client_name rpc) w →
   ∃ ms, run (network_process_rpc d rpc) w = Some (Err Timeout, leave (app w) [ms] (counted w))) ∧
  (handles rpc srv sc steps o a w → steps ≤ trues (d_sched d) →
   if request_lost d w
   then run (network_process_rpc d rpc) w = Some (Err Timeout, leave (app w) [1000 * (d_short d mod 27)]%N (counted w))
   else ∃ ts, run (network_process_rpc d rpc) w =
     Some (match o with Ok b => if reply_lost d w then Err Timeout else Ok b | o => o end, handled srv a ts w)).
Proof.
  split; [apply network_process_rpc_unreachable|]. intros Hh Hst. destruct (request_lost d w) eqn:Hl.
  - by eapply network_process_rpc_lost.
  - by eapply network_process_rpc_served.
Qed.

(** ** Replies are current *)

(** The client is enabled, and under the name [n] the server with the id [id] is
    registered. *)
Definition serving (c n : string) (id : N) (w : World) : Prop :=
  enabled (endpoints (core w)) !! c = Some true ∧
  ∃ srv (sc : ServerCore Factory), servers (endpoints (core w)) !! n = Some (Some srv) ∧ cores w !! srv = Some sc ∧ core_id sc = id.

Lemma of_answer_ok {A} (r : E + A) (w w' : World) a : of_answer r w = (Ok a, w') → r = inr a ∧ w' = w.
Proof. by destruct r; intros [= <- <-]. Qed.

(** The client is enabled and connected to a name under which the server is registered. *)
Definition found (c : string) (srv : Server) (w : World) : Prop :=
  enabled (endpoints (core w)) !! c = Some true ∧
  ∃ n, connections (endpoints (core w)) !! c = Some (Some n) ∧ servers (endpoints (core w)) !! n = Some (Some srv).

Lemma end_info_found c i srv (w w' : World) : end_info c w = (Ok i, w') → ei_enabled i = true → ei_server i = Some srv →
  w' = w ∧ found c srv w.
Proof.
  rewrite end_info_eq. unfold found. intros Hi He Hs. repeat (case_match; simplify_eq/=); eauto.
Qed.

(** What other threads do while a request waits, perhaps for a timer. *)
Definition waits (R : World → World → Prop) (w w' : World) : Prop :=
  rtc R w w' ∨ ∃ ms s, rtc R w s ∧ rtc R (with_timer ms s) w'.

Lemma waits_delay R (short : option N) (w w' : World) :
  iexec R (match short with Some s => delay (1000 * s) | None => mret tt end : future unit) w (Ok tt) w' → waits R w w'.
Proof.
  destruct short as [s|]; [|intros H; left; by inversion H].
  intros (s1 & s2 & H1 & [= <-] & H2)%iexec_atomic. right. by eexists _, s1.
Qed.

Lemma waits_then R (w w1 w2 : World) : waits R w w1 → rtc R w1 w2 → waits R w w2.
Proof.
  intros [H|(ms & s & H1 & H2)] H'; [left; by etrans|right; exists ms, s; split; [done|by etrans]].
Qed.

(** C15: A reply is never older than the death of its server, whatever the other
    threads do between any two actions of the request ([R]), if the hooks make no
    reply out of an error. When a request that starts in the state [w] is answered with a
    value, these are the states on its way, each reached from the one before by steps of
    the other threads: after the request was counted, there was a moment [w1] when its client
    was enabled and connected to a registered server [srv]; after a delay, the hook saw the
    request; the name and the id of [srv] were read ([w0]); the request was dispatched to
    [srv], and its handler ran to the end with a value; the hook saw the reply; and after
    that there was a moment [w7] when the client was enabled and a server with the id of
    [srv] registered under the name of [srv]. A server that was deleted, or replaced by a new
    one under its name, while it handled a request does not answer it. *)
Theorem reply_is_current (R : World → World → Prop) d rpc (w : World) b w' :
  (∀ h fq e (w1 : World) b1 w2, after_dispatch h fq (inl e) w1 ≠ (Ok b1, w2)) →
  iexec R (network_process_rpc d rpc) w (Ok b) w' →
  ∃ s w1 srv buf h0 h1 w0 (sc : ServerCore Factory) w2 fut w3 r w4 w5 w6 w7,
    rtc R w s ∧ rtc R (counted s) w1 ∧ found (client_name rpc) srv w1 ∧ req rpc = Some buf ∧
    waits R w1 h0 ∧ with_hooks (hooks rpc) (λ h, before_dispatch h (fq_name rpc) buf) (mret tt) h0 = (Ok tt, h1) ∧
    rtc R h1 w0 ∧ cores w0 !! srv = Some sc ∧
    rtc R w0 w2 ∧ dispatch srv (fq_name rpc) buf w2 = (Ok fut, w3) ∧
    iexec (λ s s', R s s' ∨ dead_check s s') fut w3 (Ok r) w4 ∧
    rtc R w4 w5 ∧ (w6 = w5 ∧ r = b ∨ ∃ h, after_dispatch h (fq_name rpc) (inr r) w5 = (Ok b, w6)) ∧
    rtc R w6 w7 ∧ serving (client_name rpc) (core_name sc) (core_id sc) w7 ∧
    waits R w7 w'.
Proof.
  intros Hhk. unfold network_process_rpc. intros (s1 & [] & s2 & Hs1 & Hs2 & H)%iexec_atomic_ok.
  apply iexec_atomic_ok in H as (s3 & i & s4 & Hs3 & Hi & H).
  destruct (ei_enabled i) eqn:Hen, (ei_server i) as [srv|] eqn:Hsrv.
  2-4: apply iexec_atomic_ok in H as (? & ? & ? & _ & _ & H); apply iexec_atomic_ok in H as (? & ? & ? & _ & _ & H);
    inversion H.
  destruct (end_info_found _ _ _ _ _ Hi Hen Hsrv) as [-> Hfound].
  destruct (_ && _); [destruct (if negb (ei_reliable i) then _ else _);
    [apply iexec_atomic_ok in H as (? & ? & ? & _ & _ & H)|]; inversion H|].
  cbn zeta in H. revert H. generalize (if negb (ei_reliable i) then Some (d_short d mod 27)%N else None).
  generalize (negb (ei_reliable i) && (d_drop_reply d mod 1000 <? 100)%N).
  generalize (if ei_long_reordering i && (d_reorder d <? 600)%N then Some (200 + d_long d)%N else None).
  intros re drop short H. unfold process_rpc in H.
  apply iexec_bind_ok in H as ([] & s5 & Hs5%waits_delay & H). destruct (req rpc) as [buf|] eqn:Hreq; [|inversion H].
  apply iexec_atomic_ok in H as (h0 & [] & h1 & Hh0 & Hh1 & H).
  apply iexec_atomic_ok in H as (s7 & sc & s8 & Hs7 & Hcore & H).
  assert (cores s7 !! srv = Some sc ∧ s8 = s7) as [Hsc ->].
  { unfold get_core in Hcore. destruct (cores s7 !! srv); [by injection Hcore as -> ->|discriminate]. }
  apply iexec_atomic_ok in H as (w2 & fut & w3 & Hw2 & Hdisp & H).
  apply iexec_bind_ok in H as (sel & w4 & Hsel & H).
  apply iexec_atomic_ok in H as (w5 & b1 & w6 & Hw45 & Hafter & H).
  apply iexec_atomic_ok in H as (w7 & dead & w7' & Hw67 & Hdead & H).
  destruct dead; [inversion H|]. apply not_dead in Hdead as [-> Hserv].
  destruct drop; [inversion H|].
  assert (b1 = b ∧ waits R w7 w') as [-> Hend].
  { destruct re as [ms|].
    - apply iexec_atomic_ok in H as (w8 & [] & w9 & Hw78 & [= <-] & H). inversion H; subst. split; [done|].
      right. by exists ms, w8.
    - inversion H; subst. split; [done|]. by left. }
  assert (∃ r, answer_of sel = inr r ∧ (w6 = w5 ∧ r = b ∨ ∃ h, after_dispatch h (fq_name rpc) (inr r) w5 = (Ok b, w6))) as (r & Hr & Hb).
  { revert Hafter. unfold with_hooks. destruct (cells w5 !! hooks rpc) as [[[h|] []]|]; [done| |done| |done].
    - destruct (after_dispatch h (fq_name rpc) (answer_of sel) w5) as [[] w9] eqn:Ha; intros; simplify_eq.
      destruct (answer_of sel) as [e|r] eqn:Hsel'; [by apply Hhk in Ha|]. eauto.
    - intros [-> ->]%of_answer_ok. eauto. }
  destruct sel as [[e|r']|[]]; simpl in Hr; simplify_eq.
  exists s1, s3, srv, buf, h0, h1, s7, sc, w2, fut, w3, r, w4, w5, w6, w7. split_and!; try done.
  - injection Hs2 as <-. done.
  - by eapply waits_then.
  - apply (iexec_result _ _ _ (inr r)). eapply (iexec_select _ _ _ _ _ (watcher (client_name rpc) (core_name sc) (core_id sc))); [| |done].
    + left. exists (length (d_sched d)). constructor.
    + intros ???? Hw Hf. by eapply watcher_step.
Qed.

(** ** Calls that wait *)

(** C33: No call is forgotten. Whatever the network and its tasks do, in any order, and
    whatever other threads do that send requests only by calls, each call whose
    oneshot channel is still empty has exactly one request in the channel of the
    network or one task that works on it, and never two. So when the channel is empty
    and all tasks have ended, no call waits: each got a reply, or, when its task
    panicked, was canceled. *)
Theorem no_lost_calls (l : list (@net_action EncodeError DecodeError Factory Hooks App)) a sys :
  (∀ f m buf, ensures polite (handler f m buf : future bytes)) →
  (∀ h fq buf (w : World), polite w (before_dispatch h fq buf w).2) →
  (∀ h fq r (w : World), polite w (after_dispatch h fq r w).2) →
  Forall polite_action l → net_acts l (new_network a) = Some sys →
  NoDup (omap resp (incoming (world sys)) ++ (tasks sys).*1) ∧
  ∀ slot, oneshots (world sys) !! slot = Some Waiting ↔
          slot ∈ omap resp (incoming (world sys)) ++ (tasks sys).*1.
Proof.
  intros Hh Hb Ha Hl Hacts. destruct (calls_ok_acts Hh Hb Ha l _ _ Hl (calls_ok_new a) Hacts) as [_ Hn Hw _].
  done.
Qed.

(** ** A name that no server has *)

(** The mutex of the endpoints is poisoned: all that is done with them panics. *)
Definition out_of_order (w : World) : Prop :=
  (∀ srv, add_server srv w = (Panic, w)) ∧ (∀ n, delete_server n w = (Panic, w)) ∧
  (∀ n, create_client n w = (Panic, w)) ∧ (∀ c n, connect c n w = (Panic, w)) ∧
  (∀ c b, enable c b w = (Panic, w)) ∧ (∀ n, count n w = (Panic, w)) ∧
  ∀ d rpc, run (network_process_rpc d rpc) w = Some (Panic, counted w).

Lemma poisoned_out_of_order (w : World) : poisoned (core w) = true → out_of_order w.
Proof.
  intros Hp. unfold out_of_order, add_server, delete_server, connect, enable, count, locked.
  split_and!; try (intros; by rewrite Hp).
  - intros n. unfold create_client. unfold locked at 1, mbind at 1, M_bind at 1. by rewrite Hp.
  - intros d rpc. unfold network_process_rpc. erewrite run_atomic_ok; [|reflexivity].
    erewrite run_bind; [|rewrite run_atomic, end_info_eq; simpl; by rewrite Hp]. done.
Qed.

(** What can be done with a network, one whole operation at a time. *)
Definition net_op (w w' : World) : Prop :=
  (∃ b, w' = (set_reliable b w).2 ∨ w' = (set_long_delays b w).2 ∨ w' = (set_long_reordering b w).2) ∨
  (∃ srv, w' = (add_server srv w).2) ∨ (∃ n, w' = (delete_server n w).2 ∨ w' = (create_client n w).2 ∨ w' = (count n w).2) ∨
  (∃ c n, w' = (connect c n w).2) ∨ (∃ c b, w' = (enable c b w).2) ∨
  (∃ d rpc o, run (network_process_rpc d rpc) w = Some (o, w')).

Lemma poisoned_for_good (w w' : World) : poisoned (core w) = true → rtc net_op w w' → out_of_order w'.
Proof.
  intros Hp Hr. induction Hr as [w|w w1 w2 Hop Hr IH]; [by apply poisoned_out_of_order|]. apply IH.
  destruct (poisoned_out_of_order w Hp) as (Ha & Hd & Hc & Hco & He & Hcn & Hrun).
  destruct Hop as [(b & [->|[->| ->]])|[(srv & ->)|[(n & [->|[->| ->]])|[(c & n & ->)|[(c & b & ->)|(d & rpc & o & H)]]]]];
    rewrite ?Ha, ?Hd, ?Hc, ?Hco, ?He, ?Hcn; try done.
  rewrite Hrun in H. by simplify_eq.
Qed.

(** One request of a client that is connected to a name no server was added under
    puts the whole network out of order: [end_info] indexes the map of the servers
    while it holds the lock of the endpoints, and its panic poisons it. So does
    [count] of such a name, or of the name of a deleted server. From then on, after any
    number of operations, every operation on the endpoints panics, and so does every
    request of every client. *)
Theorem unknown_server_poisons d rpc (w : World) n :
  poisoned (core w) = false → is_Some (enabled (endpoints (core w)) !! client_name rpc) →
  servers (endpoints (core w)) !! n = None →
  (connections (endpoints (core w)) !! client_name rpc = Some (Some n) →
   ∃ w', run (network_process_rpc d rpc) w = Some (Panic, w') ∧ ∀ w2, rtc net_op w' w2 → out_of_order w2) ∧
  (∀ m, m = n ∨ servers (endpoints (core w)) !! m = Some None → ∃ w', count m w = (Panic, w') ∧ ∀ w2, rtc net_op w' w2 → out_of_order w2).
Proof.
  intros Hp [en Hen] Hn. split.
  - intros Hc. exists (poison (counted w)). split; [|intros w2; by apply poisoned_for_good].
    unfold network_process_rpc. erewrite run_atomic_ok; [|reflexivity].
    erewrite run_bind; [|rewrite run_atomic, end_info_eq; simpl; by rewrite Hp, Hc, Hn]. done.
  - intros m Hm. exists (poison w). split; [|intros w2; by apply poisoned_for_good].
    unfold count, locked, get_endpoints. rewrite Hp. mpure.
    destruct Hm as [->|Hm]; [by rewrite Hn|by rewrite Hm].
Qed.
End theorems.

(** ** Witnesses: the [junk] service, whose [handler2] logs its argument and answers *)

Definition junk_method : @Method unit unit unit unit (list bytes) :=
  mkMethod bytes bytes inr inr
    (λ x, atomic (modify (λ w, with_app (app w ++ [x]) w));; mret (Byte.x2a :: x)).
Definition junk_methods : list (string * @Method unit unit unit unit (list bytes)) := [("handler2", junk_method)].

#[local] Instance junk_factory : @HandlerFactory unit unit unit unit (list bytes) :=
  λ _ name buf, service_handler "junk" junk_methods name buf.
#[local] Instance no_hooks : @RpcHooks unit unit unit unit (list bytes) :=
  {| before_dispatch := λ _ _ _, mret tt; after_dispatch := λ _ _ r, of_answer r |}.

Definition junk_server : @World unit unit unit unit (list bytes) :=
  ((srv ← build (mkServerBuilder "test_server" {["junk" := tt]}); add_server srv;; create_client "test_client";;
    connect "test_client" "test_server";; enable "test_client" true) (world (new_network []))).2.

Definition junk_core : ServerCore unit := mkServerCore "test_server" 0 {["junk" := tt]} 0.
Definition junk_client : Client := mkClient "test_client" 0.
Definition junk_rpc : Rpc := mkRpc "test_client" "junk.handler2" (Some [Byte.x07]) (Some 0) 0.
Definition fair_draws : Draws := mkDraws 30 500 500 700 0 0 0 [false; true; false; false; true].

Lemma junk_attached : attached "test_client" 0 junk_core junk_server.
Proof. by split; vm_compute. Qed.

Lemma junk_app_only buf : app_only (method junk_method buf).
Proof.
  apply app_only_bind; [|intros; constructor].
  apply (app_act _ (λ a, Some (a ++ [buf], Done (Ok tt)))); [done|]. intros a a' p' [= <- <-]. constructor.
Qed.

Lemma junk_handles : handles junk_rpc 0 junk_core 1 (Ok [Byte.x2a; Byte.x07]) [[Byte.x07]] junk_server.
Proof.
  split; [apply junk_attached|done|]. eexists [Byte.x07], "junk", "handler2", [], tt, _.
  split_and!; try done. apply app_only_bind; [apply junk_app_only|intros; constructor].
Qed.

Lemma call_answers_witness :
  ∃ fut w1 n w2,
    service_call (Req:=bytes) (Rsp:=bytes) inr inr "junk" "handler2" junk_client [Byte.x07] junk_server = (Ok fut, w1) ∧
    net_acts (Accept fair_draws :: replicate n (Poll 0)) (mkSystem w1 []) = Some (mkSystem w2 []) ∧
    run fut w2 = Some (Ok [Byte.x2a; Byte.x07], w2) ∧
    app w2 = [[Byte.x07]] ∧ cores w2 = alter bump 0 (cores junk_server) ∧ net_count (core w2) = 1%N.
Proof.
  refine (call_answers fair_draws "junk" "handler2" junk_methods junk_method tt inr inr junk_client 0 junk_core
    [Byte.x07] [Byte.x07] (Ok [Byte.x2a; Byte.x07]) junk_server (with_app [[Byte.x07]] junk_server) [] _ _ _ _ _ _ _ _ _ _ _ _ _ _ _);
    try done; [cbn; set_solver|apply junk_app_only|vm_compute; lia].
Defined.

(** A request lost on an unreliable network, and one that reaches its handler. *)
Lemma request_alone_witness :
  (∃ ms, run (network_process_rpc fair_draws junk_rpc) (enable "test_client" false junk_server).2 =
     Some (Err Timeout, leave [] [ms] (counted (enable "test_client" false junk_server).2))) ∧
  (run (network_process_rpc (mkDraws 30 50 0 0 0 0 0 [true]) junk_rpc) (set_reliable false junk_server).2 =
     Some (Err Timeout, leave [] [3000%N] (counted (set_reliable false junk_server).2))) ∧
  ∃ ts, run (network_process_rpc fair_draws junk_rpc) junk_server =
     Some (Ok [Byte.x2a; Byte.x07], handled 0 [[Byte.x07]] ts junk_server).
Proof.
  split; [|split].
  - apply (proj1 (request_alone fair_draws junk_rpc 0 junk_core 1 (Ok []) [] (enable "test_client" false junk_server).2)).
    split; [done|]. exists false. split; [done|]. vm_compute. eauto.
  - destruct (request_alone (mkDraws 30 50 0 0 0 0 0 [true]) junk_rpc 0 junk_core 1 (Ok [Byte.x2a; Byte.x07]) [[Byte.x07]]
      (set_reliable false junk_server).2) as [_ H].
    apply H; [|cbn; lia]. eapply handles_same; [apply junk_handles|done..].
  - apply (proj2 (request_alone fair_draws junk_rpc 0 junk_core 1 (Ok [Byte.x2a; Byte.x07]) [[Byte.x07]] junk_server));
      [apply junk_handles|cbn; lia].
Defined.

Lemma reply_is_current_witness : ∃ w',
  iexec eq (network_process_rpc fair_draws junk_rpc) junk_server (Ok [Byte.x2a; Byte.x07]) w' ∧
  ∃ w1 srv n id (w7 : @World unit unit unit unit (list bytes)),
    rtc eq (counted junk_server) w1 ∧ found "test_client" srv w1 ∧ serving "test_client" n id w7 ∧ waits eq w7 w'.
Proof.
  destruct (network_process_rpc_served fair_draws junk_rpc 0 junk_core 1 _ _ junk_server junk_handles eq_refl) as [ts Hrun];
    [cbn; lia|].
  assert (H := run_iexec eq _ _ _ _ Hrun). eexists. split; [exact H|].
  destruct (λ Hhk, reply_is_current eq fair_draws junk_rpc junk_server _ _ Hhk H)
    as (s & w1 & srv & buf & h0 & h1 & w0 & sc & w2 & fut & w3 & r & w4 & w5 & w6 & w7 & Hs & H1 & Hf & _ & _ & _ & _ & _ & _ & _ & _ & _ & _ & _ & H7 & Hw);
    [intros; cbn; discriminate|].
  exists w1, srv, (core_name sc), (core_id sc), w7. split; [|split; [exact Hf|split; [exact H7|exact Hw]]].
  clear - Hs H1. induction Hs as [|x y z Hxy Hyz IH]; [exact H1|]. subst. exact (IH H1).
Defined.

Definition junk_actions : list (@net_action unit unit unit unit (list bytes)) :=
  [Thread (λ w, (call inr (inr : bytes → unit + bytes) junk_client "junk.handler2" [Byte.x07] w).2); Accept fair_draws].

Lemma no_lost_calls_witness :
  ∃ sys, net_acts junk_actions (new_network []) = Some sys ∧
  NoDup (omap resp (incoming (world sys)) ++ (tasks sys).*1).
Proof.
  eexists. split; [reflexivity|]. refine (proj1 (no_lost_calls junk_actions [] _ _ _ _ _ eq_refl)).
  - intros [] m buf. unfold handler, junk_factory, service_handler. cbn [find junk_methods].
    destruct (bool_decide _); [|constructor].
    apply ensures_intro. intros w w' p' [= <- <-]. split; [by apply still_polite|constructor].
  - intros h fq buf w. apply polite_refl.
  - intros h fq r w. apply still_polite. by destruct r.
  - constructor; [|repeat constructor]. intros w. apply call_polite.
Defined.

Lemma unknown_server_poisons_witness :
  ∃ w', run (network_process_rpc fair_draws junk_rpc) (connect "test_client" "nowhere" junk_server).2 = Some (Panic, w')
    ∧ out_of_order w'.
Proof.
  destruct (unknown_server_poisons fair_draws junk_rpc (connect "test_client" "nowhere" junk_server).2 "nowhere") as [H _];
    [done|by eexists|done|]. destruct (H eq_refl) as (w' & Hr & Ho). exists w'. split; [exact Hr|]. by apply Ho.
Defined.
