(* ===== verification/LabTests.v ===== *)
(** * The tests of the simulated network

    The module [tests] of [labrpc/src/lib.rs]: the junk service, and the tests that do
    not depend on time or chance, as programs of the threads of a test over the network.
    A failed assertion, [unwrap] or [unwrap_err] is a [Panic] of its thread.

    A thread that a pool runs, or the worker of a client, waits until its closure is
    spawned, which is what [spawned] lists with the values that the closures captured; the
    messages of the [mpsc] channel of the test are in [channel]. The codec is [prost]. *)

From S2P Require Import Prelude Conc Rpc.

(** [format!] of an [i64]. *)
Definition fmt_i64 (x : Z) : string :=
  if (x <? 0)%Z then "-" +:+ fmt_u64 (Z.abs_N x) else fmt_u64 (Z.to_N x).

Definition I64_MIN : Z := - 2 ^ 63.
Definition i64 (x : Z) : Prop := (I64_MIN <= x < 2 ^ 63)%Z.

Record JunkArgs := mkJunkArgs { args_x : Z }.
Record JunkReply := mkJunkReply { reply_x : string }.

#[export] Instance JunkReply_eq_dec : EqDecision JunkReply.
Proof. solve_decision. Defined.

(** The codecs that [prost] derives. *)
Class Messages (EncodeError DecodeError : Type) := {
  encode_args : JunkArgs → EncodeError + bytes;
  decode_args : bytes → DecodeError + JunkArgs;
  encode_reply : JunkReply → EncodeError + bytes;
  decode_reply : bytes → DecodeError + JunkReply;
}.

(** What the threads of a test share beside the network: [JunkInner], the flags of
    [Hooks], the closures that were spawned, and the channel of the test. *)
Record Shared (C T : Type) := mkShared {
  log2 : list Z;
  drop_req : bool;
  drop_resp : bool;
  spawned : list C;
  channel : list T;
}.
Arguments mkShared {_ _} _ _ _ _ _.
Arguments log2 {_ _} _.
Arguments drop_req {_ _} _.
Arguments drop_resp {_ _} _.
Arguments spawned {_ _} _.
Arguments channel {_ _} _.

Section tests.
Context {EncodeError DecodeError : Type} `{!Messages EncodeError DecodeError} {C T : Type}.

#[local] Abbreviation E := (Error EncodeError DecodeError).
#[local] Abbreviation World := (@World EncodeError DecodeError unit unit (Shared C T)).
#[local] Abbreviation Mn := (M E World).
#[local] Abbreviation future := (prog E World).

Definition shared0 : Shared C T := mkShared [] false false [] [].
Definition on_shared (f : Shared C T → Shared C T) : Mn unit := modify (λ w, with_app (f (app w)) w).

(** ** JunkService *)

Definition push_log (x : Z) (a : Shared C T) : Shared C T :=
  mkShared (log2 a ++ [x]) (drop_req a) (drop_resp a) (spawned a) (channel a).

Definition junk_handler2 (args : JunkArgs) : future JunkReply :=
  atomic (on_shared (push_log (args_x args)));;
  mret (mkJunkReply ("handler2-" +:+ fmt_i64 (args_x args))).

(** The negation overflows for one number. *)
Definition junk_handler3 (args : JunkArgs) : future JunkReply :=
  delay 20000;;
  if decide (args_x args = I64_MIN) then Done Panic
  else mret (mkJunkReply ("handler3-" +:+ fmt_i64 (- args_x args))).

Definition junk_handler4 (_ : JunkArgs) : future JunkReply := mret (mkJunkReply "pointer").

(** What [service! { service junk { ... } }] makes of it. *)
Definition junk_rpc_of (f : JunkArgs → future JunkReply) : @Method EncodeError DecodeError unit unit (Shared C T) :=
  mkMethod JunkArgs JunkReply decode_args encode_reply f.

Definition junk_service : list (string * @Method EncodeError DecodeError unit unit (Shared C T)) :=
  [("handler2", junk_rpc_of junk_handler2); ("handler3", junk_rpc_of junk_handler3); ("handler4", junk_rpc_of junk_handler4)].

#[global] Instance junk_factories : @HandlerFactory EncodeError DecodeError unit unit (Shared C T) :=
  λ _ name buf, service_handler "junk" junk_service name buf.

Definition call2 (c : Client) (x : Z) : Mn (future JunkReply) :=
  service_call encode_args decode_reply "junk" "handler2" c (mkJunkArgs x).
Definition call4 (c : Client) (x : Z) : Mn (future JunkReply) :=
  service_call encode_args decode_reply "junk" "handler4" c (mkJunkArgs x).

(** ** Hooks *)

Definition set_drop_req (b : bool) (a : Shared C T) : Shared C T := mkShared (log2 a) b (drop_resp a) (spawned a) (channel a).
Definition set_drop_resp (b : bool) (a : Shared C T) : Shared C T := mkShared (log2 a) (drop_req a) b (spawned a) (channel a).

#[global] Instance drop_hooks : @RpcHooks EncodeError DecodeError unit unit (Shared C T) := {|
  before_dispatch := λ _ _ _, b ← gets (λ w, drop_req (app w)); if (b : bool) then throw (Other "reqhook") else mret tt;
  after_dispatch := λ _ _ resp, b ← gets (λ w, drop_resp (app w)); if (b : bool) then throw (Other "resphook") else of_answer resp;
|}.

(** ** What tests are made of *)

Definition assert (b : bool) : future unit := if b then mret tt else Done Panic.
Definition unwrap {A} (p : future A) : future A := r ← result p; match r with inr a => mret a | inl _ => Done Panic end.
Definition unwrap_err {A} (p : future A) : future E := r ← result p; match r with inl e => mret e | inr _ => Done Panic end.

(** [client.method(args).await]: the request is sent, then the reply awaited. *)
Definition await {A} (m : Mn (future A)) : future A := fut ← atomic m; fut.

(** [pool.spawn_ok] of a closure that captured [c], and the thread that runs the closure
    number [k]. *)
Definition spawn (c : C) : Mn unit :=
  on_shared (λ a, mkShared (log2 a) (drop_req a) (drop_resp a) (spawned a ++ [c]) (channel a)).
Definition taken (k : nat) : future C :=
  Act (λ w, match spawned (app w) !! k with Some c => Some (w, mret c) | None => None end).

(** [tx.send(m).unwrap()] while the receiver lives, and [rx.recv().unwrap()] while some
    sender does. *)
Definition send (m : T) : Mn unit :=
  on_shared (λ a, mkShared (log2 a) (drop_req a) (drop_resp a) (spawned a) (channel a ++ [m])).
Definition recv : future T :=
  Act (λ w, match channel (app w) with
            | m :: ms => Some (with_app (mkShared (log2 (app w)) (drop_req (app w)) (drop_resp (app w)) (spawned (app w)) ms) w, mret m)
            | [] => None
            end).

(** [for a in l]. *)
Fixpoint each {A} (f : A → future unit) (l : list A) : future unit :=
  match l with
  | [] => mret tt
  | a :: l' => f a;; each f l'
  end.

(** ** junk_suit *)

Definition junk_builder (name : string) : outcome E unit * ServerBuilder := add_service "junk" tt (new_builder name).

(** The network is in its first state when a test begins. *)
Definition junk_suit : Mn Server :=
  match junk_builder "test_server" with
  | (Ok _, b) => server ← build b; add_server server;; mret server
  | (_, _) => panic
  end.

(** [server.name()]. *)
Definition name_of (server : Server) : Mn string := sc ← get_core server; mret (core_name sc).
End tests.
Arguments shared0 {C T}.

(** ** Tests with one thread *)

Section alone.
Context {EncodeError DecodeError : Type} `{!Messages EncodeError DecodeError}.
#[local] Abbreviation E := (Error EncodeError DecodeError).
#[local] Abbreviation World := (@World EncodeError DecodeError unit unit (Shared unit unit)).
#[local] Abbreviation future := (prog E World).

Definition test_service_dispatch : future unit :=
  match junk_builder (EncodeError := EncodeError) (DecodeError := DecodeError) "test" with
  | (Ok _, builder) =>
      let prev_len := size (sb_services builder) in
      match add_service (EncodeError := EncodeError) (DecodeError := DecodeError) "junk" tt builder with
      | (Err _, builder) =>
          assert (size (sb_services builder) =? prev_len);;
          server ← atomic (build builder);
          buf ← unwrap (await (dispatch server "junk.handler4" []));
          match decode_reply buf with
          | inr rsp =>
              assert (bool_decide (mkJunkReply "pointer" = rsp));;
              _ ← unwrap_err (await (dispatch server "junk.handler4" (String.list_byte_of_string "bad message")));
              _ ← unwrap_err (await (dispatch server "badjunk.handler4" []));
              _ ← unwrap_err (await (dispatch server "junk.badhandler" []));
              mret tt
          | inl _ => Done Panic
          end
      | (_, _) => Done Panic
      end
  | (_, _) => Done Panic
  end.

Definition test_basic : future unit :=
  _ ← atomic junk_suit;
  client ← atomic (create_client "test_client");
  atomic (connect "test_client" "test_server");;
  atomic (enable "test_client" true);;
  rsp ← unwrap (await (call4 client 0));
  assert (bool_decide (mkJunkReply "pointer" = rsp)).

Definition test_disconnect : future unit :=
  _ ← atomic junk_suit;
  client ← atomic (create_client "test_client");
  atomic (connect "test_client" "test_server");;
  _ ← unwrap_err (await (call4 client 0));
  atomic (enable "test_client" true);;
  rsp ← unwrap (await (call4 client 0));
  assert (bool_decide (mkJunkReply "pointer" = rsp)).

Definition test_count : future unit :=
  _ ← atomic junk_suit;
  client ← atomic (create_client "test_client");
  atomic (connect "test_client" "test_server");;
  atomic (enable "test_client" true);;
  each (λ i, reply ← unwrap (await (call2 client (Z.of_nat i)));
             assert (bool_decide (reply_x reply = "handler2-" +:+ fmt_i64 (Z.of_nat i)))) (seq 0 17);;
  n ← atomic (count "test_server");
  assert (n =? 17)%N.

Definition test_rpc_hooks : future unit :=
  _ ← atomic junk_suit;
  raw_cli ← atomic (create_client "test_client");
  atomic (set_hooks raw_cli tt);;
  atomic (connect "test_client" "test_server");;
  atomic (enable "test_client" true);;
  reply ← unwrap (await (call2 raw_cli 100));
  assert (bool_decide (reply_x reply = "handler2-" +:+ fmt_i64 100));;
  atomic (on_shared (set_drop_req true));;
  e ← unwrap_err (await (call2 raw_cli 100));
  assert (match e with Other msg => bool_decide (msg = "reqhook") | _ => false end);;
  atomic (on_shared (set_drop_req false));;
  atomic (on_shared (set_drop_resp true));;
  e ← unwrap_err (await (call2 raw_cli 100));
  assert (match e with Other msg => bool_decide (msg = "resphook") | _ => false end);;
  atomic (on_shared (set_drop_resp false));;
  _ ← unwrap (await (call2 raw_cli 100));
  assert (bool_decide (reply_x reply = "handler2-" +:+ fmt_i64 100)).
End alone.

(** ** Tests with pools of threads *)

Section pools.
Context {EncodeError DecodeError : Type} `{!Messages EncodeError DecodeError}.

(** A client calls [handler2] with one argument after the other, and counts the calls. *)
Fixpoint rpcs {C T} (client : Client) (xs : list Z) (n : nat) :
    prog (Error EncodeError DecodeError) (@World EncodeError DecodeError unit unit (Shared C T)) nat :=
  match xs with
  | [] => mret n
  | x :: xs' =>
      reply ← unwrap (await (call2 client x));
      assert (bool_decide (reply_x reply = "handler2-" +:+ fmt_i64 x));;
      rpcs client xs' (S n)
  end.

(** [for _ in 0..n { total += rx.recv().unwrap() }]. *)
Fixpoint receive_all {C} (n total : nat) : prog (Error EncodeError DecodeError) (@World EncodeError DecodeError unit unit (Shared C nat)) nat :=
  match n with
  | O => mret total
  | S n' => m ← recv; receive_all n' (total + m)
  end.

Definition client_number (i : nat) : string := "client-" +:+ fmt_u64 (N.of_nat i).

(** *** test_concurrent_many

    The closures capture the name of the server and [i]. The numbers of the clients and of
    their calls, 20 and 10 in the test, are arguments. *)

#[local] Abbreviation E := (Error EncodeError DecodeError).

Definition many_args (nrpcs i : nat) : list Z := (λ j, Z.of_nat (i * 100 + j)) <$> seq 0 nrpcs.

Definition many_thread (nrpcs : nat) (server_name : string) (i : nat) :
    prog E (@World EncodeError DecodeError unit unit (Shared (string * nat) nat)) unit :=
  client ← atomic (create_client (client_number i));
  atomic (enable (client_number i) true);;
  atomic (connect (client_number i) server_name);;
  n ← rpcs client (many_args nrpcs i) 0;
  atomic (send n).

Definition many_worker (nrpcs k : nat) : prog E (@World EncodeError DecodeError unit unit (Shared (string * nat) nat)) unit :=
  c ← taken k; many_thread nrpcs c.1 c.2.

Definition test_concurrent_many (nclients nrpcs : nat) :
    prog E (@World EncodeError DecodeError unit unit (Shared (string * nat) nat)) unit :=
  server ← atomic junk_suit;
  server_name ← atomic (name_of server);
  each (λ i, atomic (spawn (server_name, i))) (seq 0 nclients);;
  total ← receive_all nclients 0;
  assert (total =? nrpcs * nclients);;
  n ← atomic (count server_name);
  assert (n =? N.of_nat total)%N.

(** *** test_concurrent_one

    The closures capture [i] and the client; the 20 clients of the test call once. *)

Definition one_thread (i : nat) (client : Client) : prog E (@World EncodeError DecodeError unit unit (Shared (nat * Client) nat)) unit :=
  n ← rpcs client [Z.of_nat i + 100]%Z 0;
  atomic (send n).

Definition one_worker (k : nat) : prog E (@World EncodeError DecodeError unit unit (Shared (nat * Client) nat)) unit :=
  c ← taken k; one_thread c.1 c.2.

Definition test_concurrent_one (nrpcs : nat) : prog E (@World EncodeError DecodeError unit unit (Shared (nat * Client) nat)) unit :=
  server ← atomic junk_suit;
  server_name ← atomic (name_of server);
  each (λ i, client ← atomic (create_client (client_number i));
             atomic (enable (client_number i) true);;
             atomic (connect (client_number i) server_name);;
             atomic (spawn (i, client))) (seq 0 nrpcs);;
  total ← receive_all nrpcs 0;
  assert (total =? nrpcs);;
  log ← atomic (gets (λ w, log2 (app w)));
  assert (length log =? nrpcs);;
  server_name ← atomic (name_of server);
  n ← atomic (count server_name);
  assert (n =? N.of_nat total)%N.
End pools.

(** ** test_network_client_rpc

    The closures capture the client; what comes through the channel is the result of the
    call. The second channel of the test is made when the first is empty. *)

Section unserved.
Context {EncodeError DecodeError : Type} `{!Messages EncodeError DecodeError}.
#[local] Abbreviation E := (Error EncodeError DecodeError).
#[local] Abbreviation Result := (E + JunkReply)%type.
#[local] Abbreviation World := (@World EncodeError DecodeError unit unit (Shared Client Result)).
#[local] Abbreviation future := (prog E World).

(** [block_on] of [incoming.into_future()], while the network holds a sender. *)
Definition next_request : future Rpc :=
  Act (λ w, match incoming w with
            | rpc :: q => Some (with_incoming q (receiver w) w, mret rpc)
            | [] => None
            end).

(** A request is dropped with its sender. *)
Definition drop_resp_of (rpc : Rpc) (os : list (oneshot (E + bytes))) : list (oneshot (E + bytes)) :=
  match resp rpc with Some slot => <[slot := Dropped]> os | None => os end.
Definition drop_rpc_resp (rpc : Rpc) : M E World unit := modify (λ w, with_oneshots (drop_resp_of rpc (oneshots w)) w).
Definition drop_incoming : M E World unit :=
  modify (λ w, with_incoming [] false (with_oneshots (foldr drop_resp_of (oneshots w) (incoming w)) w)).

Definition caller_worker (k : nat) : future unit :=
  cli ← taken k;
  reply ← result (await (call4 cli 777));
  atomic (send reply).

Definition test_network_client_rpc : future unit :=
  match junk_builder (EncodeError := EncodeError) (DecodeError := DecodeError) "test" with
  | (Ok _, builder) =>
      server ← atomic (build builder);
      atomic (add_server server);;
      client ← atomic (create_client "test_client");
      atomic (spawn client);;
      rpc ← next_request;
      match encode_reply (mkJunkReply "boom!!!"), resp rpc with
      | inr buf, Some slot =>
          atomic (modify (send_answer slot (Ok buf)));;
          assert (bool_decide (client_name rpc = "test_client"));;
          assert (bool_decide (fq_name rpc = "junk.handler4"));;
          assert (match req rpc with Some (_ :: _) => true | _ => false end);;
          m ← recv;
          assert (match m with inr r => bool_decide (r = mkJunkReply "boom!!!") | inl _ => false end);;
          atomic (spawn client);;
          rpc ← next_request;
          atomic (drop_rpc_resp rpc);;
          m ← recv;
          assert (match m with inl Recv => true | _ => false end);;
          atomic drop_incoming;;
          r ← result (await (call4 client 0));
          assert (match r with inl Stopped => true | _ => false end)
      | _, _ => Done Panic
      end
  | (_, _) => Done Panic
  end.
End unserved.

(** ** Runs of a test *)

Section runs.
Context {EncodeError DecodeError : Type} `{!Messages EncodeError DecodeError} {C T : Type}.

#[local] Abbreviation future := (prog (Error EncodeError DecodeError) (@World EncodeError DecodeError unit unit (Shared C T))).

(** The network with its tasks, and the threads of the test. *)
Record Testing := mkTesting {
  network : @System EncodeError DecodeError unit unit (Shared C T);
  threads : list (future unit);
}.

Definition begin (ts : list (future unit)) : Testing := mkTesting (new_network shared0) ts.

Inductive test_action :=
| TakesIn (d : Draws)  (* the network spawns a task for a request *)
| Polls (i : nat)      (* a task of the network takes a step *)
| Runs (j : nat).      (* so does a thread of the test *)

Definition test_act (a : test_action) (t : Testing) : option Testing :=
  match a with
  | TakesIn d => sys ← net_act (Accept d) (network t); Some (mkTesting sys (threads t))
  | Polls i => sys ← net_act (Poll i) (network t); Some (mkTesting sys (threads t))
  | Runs j =>
      match threads t !! j with
      | Some (Act f) =>
          match f (world (network t)) with
          | Some (w', p') => Some (mkTesting (mkSystem w' (tasks (network t))) (<[j := p']> (threads t)))
          | None => None
          end
      | _ => None
      end
  end.

Fixpoint test_acts (l : list test_action) (t : Testing) : option Testing :=
  match l with
  | [] => Some t
  | a :: l' => t' ← test_act a t; test_acts l' t'
  end.

(** [select!] polls the handler of the request. *)
Definition fair (a : test_action) : Prop := match a with TakesIn d => true ∈ d_sched d | _ => True end.

(** The network that [Network::create] returns takes in no request. *)
Definition unserved (a : test_action) : Prop := match a with Runs _ => True | _ => False end.

(** A test passes: whatever the interleaving of its threads and of the tasks of the
    network, no thread panics, and until all are done some thread or task can go on. *)
Definition passes_by (allowed : test_action → Prop) (ts : list (future unit)) : Prop :=
  ∀ l t, Forall allowed l → test_acts l (begin ts) = Some t →
    (∀ j o, threads t !! j = Some (Done o) → o = Ok tt) ∧
    (Forall (λ p, p = Done (Ok tt)) (threads t) ∨ ∃ a t', allowed a ∧ test_act a t = Some t').

Definition passes : list (future unit) → Prop := passes_by fair.

Definition test_next (t' t : Testing) : Prop := ∃ a, test_act a t = Some t'.
End runs.
