(* ===== verification/LabTestsSpec.v ===== *)
(** * Tests of the network that have one thread

    While such a test waits for a reply only the task of its request can go on, so that a
    run of the test is one after the other: what the thread does, and requests that run
    alone. *)

From S2P Require Import Prelude Conc Rpc RpcSpec RpcTheorems LabTests.

(** What is documented of [prost]: messages survive the codec, nothing at all is the message
    with the default values, and "bad message" is not one. *)
Class MessagesLaws {EncodeError DecodeError} `{!Messages EncodeError DecodeError} : Prop := {
  args_round x : i64 x → ∃ b, encode_args (mkJunkArgs x) = inr b ∧ decode_args b = inr (mkJunkArgs x);
  reply_round s : ∃ b, encode_reply (mkJunkReply s) = inr b ∧ decode_reply b = inr (mkJunkReply s);
  args_default : decode_args [] = inr (mkJunkArgs 0);
  args_bad : ∃ e, decode_args (String.list_byte_of_string "bad message") = inl e;
}.

Section junk.
Context {EncodeError DecodeError : Type} `{!Messages EncodeError DecodeError} `{!MessagesLaws} {C T : Type}.
#[local] Abbreviation E := (Error EncodeError DecodeError).
#[local] Abbreviation World := (@World EncodeError DecodeError unit unit (Shared C T)).
#[local] Abbreviation future := (prog E World).
#[local] Abbreviation Mn := (M E World).
#[local] Abbreviation Testing := (@Testing EncodeError DecodeError C T).
Implicit Types (w : World) (t : Testing).

(** ** The tasks leave the channels alone *)

Lemma junk_still f name buf : ensures still (junk_factories f name buf : future bytes).
Proof.
  unfold junk_factories, service_handler. destruct (find _ _) as [[nm me]|] eqn:Hf; [|constructor].
  destruct (decode_input me buf) as [e|a]; [constructor|].
  apply ensures_bind; [|intros o; by destruct (encode_output me o); constructor].
  apply find_some in Hf as [Hin _]. unfold junk_service in Hin.
  destruct Hin as [[= <- <-]|[[= <- <-]|[[= <- <-]|[]]]]; unfold junk_rpc_of, method.
  - apply ensures_bind; [by apply ensures_atomic|intros; constructor].
  - apply ensures_bind; [by apply ensures_atomic|]. intros _. by destruct (decide _); constructor.
  - constructor.
Qed.

Lemma network_still d rpc : ensures still (network_process_rpc d rpc : future bytes).
Proof.
  apply keeps_network; [done|intros ?????; by etrans|intros f m buf; apply junk_still| |].
  - intros h fq buf w. unfold before_dispatch, drop_hooks. mpure. by destruct (drop_req (app w)).
  - intros h fq a w. unfold after_dispatch, drop_hooks. mpure. destruct (drop_resp (app w)); [done|]. by destruct a.
Qed.

(** ** The thread alone *)

Definition task_result d rpc w : option (outcome E bytes * World) :=
  run (network_process_rpc d rpc) (with_incoming [] (receiver w) w).

(** It waits for the reply in the channel [slot]. *)
Definition blocked_on {A} (slot : nat) (f : World → option (World * future A)) : Prop :=
  ∀ w, oneshots w !! slot = Some Waiting → f w = None.

(** A program runs to an end that [Q] holds of, with requests that run alone. *)
Inductive alone {A} (Q : outcome E A → World → Prop) : future A → World → Prop :=
| alone_done o w : Q o w → alone Q (Done o) w
| alone_act f w w' p' : incoming w = [] → f w = Some (w', p') → alone Q p' w' → alone Q (Act f) w
| alone_wait f slot rpc res w :
    incoming w = [rpc] → resp rpc = Some slot → oneshots w !! slot = Some Waiting → blocked_on slot f →
    (∀ d, true ∈ d_sched d → task_result d rpc w = Some (res d)) →
    (∀ d, true ∈ d_sched d → alone Q (Act f) (send_answer slot (res d).1 (res d).2)) →
    alone Q (Act f) w.

Lemma alone_bind {A B} (Q : outcome E B → World → Prop) (p : future A) (k : A → future B) w :
  alone (λ o w', alone Q (cont k o) w') p w → alone Q (p ≫= k) w.
Proof.
  induction 1 as [o w0 Hq|f w0 w' p' Hin Hf Hp IH|f slot rpc res w0 Hin Hr Hw Hb Ht Hp IH]; [done| |].
  - eapply alone_act; [exact Hin|by rewrite Hf|exact IH].
  - eapply alone_wait; [exact Hin|exact Hr|exact Hw|intros w1 Hw1; by rewrite Hb|exact Ht|exact IH].
Qed.

Definition resulting {A} (o : outcome E A) : outcome E (E + A) :=
  match o with Ok a => Ok (inr a) | Err e => Ok (inl e) | Panic => Panic | Diverge => Diverge end.

Lemma alone_result {A} (Q : outcome E (E + A) → World → Prop) (p : future A) w :
  alone (λ o w', Q (resulting o) w') p w → alone Q (result p) w.
Proof.
  induction 1 as [o w0 Hq|f w0 w' p' Hin Hf Hp IH|f slot rpc res w0 Hin Hr Hw Hb Ht Hp IH].
  - by destruct o; constructor.
  - eapply alone_act; [exact Hin|by rewrite Hf|exact IH].
  - eapply alone_wait; [exact Hin|exact Hr|exact Hw|intros w1 Hw1; by rewrite Hb|exact Ht|exact IH].
Qed.

Lemma alone_mono {A} (Q Q' : outcome E A → World → Prop) p w : (∀ o w', Q o w' → Q' o w') → alone Q p w → alone Q' p w.
Proof.
  intros HQ. induction 1 as [o w0 Hq|f w0 w' p' Hin Hf Hp IH|f slot rpc res w0 Hin Hr Hw Hb Ht Hp IH].
  - apply alone_done. by apply HQ.
  - by eapply alone_act.
  - by eapply alone_wait.
Qed.

Lemma alone_atomic {A B} (Q : outcome E B → World → Prop) (m : Mn A) (k : A → future B) w a w' :
  incoming w = [] → m w = (Ok a, w') → alone Q (k a) w' → alone Q (atomic m ≫= k) w.
Proof. intros Hin Hm Hk. eapply alone_act; [exact Hin|by rewrite Hm|exact Hk]. Qed.

Lemma alone_unwrap {A B} (Q : outcome E B → World → Prop) (p : future A) (k : A → future B) w :
  alone (λ o w', ∃ a, o = Ok a ∧ alone Q (k a) w') p w → alone Q (unwrap p ≫= k) w.
Proof.
  intros Hp. apply alone_bind, alone_bind, alone_result. eapply alone_mono; [|exact Hp].
  intros o w' (a & -> & Hk). by apply (alone_done _ (Ok a)).
Qed.

Lemma alone_unwrap_err {A B} (Q : outcome E B → World → Prop) (p : future A) (k : E → future B) w :
  alone (λ o w', ∃ e, o = Err e ∧ alone Q (k e) w') p w → alone Q (unwrap_err p ≫= k) w.
Proof.
  intros Hp. apply alone_bind, alone_bind, alone_result. eapply alone_mono; [|exact Hp].
  intros o w' (a & -> & Hk). by apply (alone_done _ (Ok a)).
Qed.

Lemma alone_assert {B} (Q : outcome E B → World → Prop) b (k : unit → future B) w :
  b = true → alone Q (k tt) w → alone Q (assert b ≫= k) w.
Proof. by intros ->. Qed.

(** ** Calls *)

Definition sent_answer (o : outcome E bytes) : option (E + bytes) :=
  match o with Ok b => Some (inr b) | Err e => Some (inl e) | _ => None end.

(** A call whose request is answered by [res]: its thread goes on with what it makes of
    the answer. *)
Lemma alone_await {A} (Q : outcome E A → World → Prop) (m : Mn (future A)) slot (g : option (E + bytes) → future A) rpc res w w1 :
  incoming w = [] → m w = (Ok (receive slot ≫= g), w1) → incoming w1 = [rpc] → resp rpc = Some slot →
  oneshots w1 !! slot = Some Waiting →
  (∀ d, true ∈ d_sched d → task_result d rpc w1 = Some (res d)) →
  (∀ d, true ∈ d_sched d → incoming (res d).2 = [] ∧ is_Some (oneshots (res d).2 !! slot) ∧
     alone Q (g (sent_answer (res d).1)) (send_answer slot (res d).1 (res d).2)) →
  alone Q (await m) w.
Proof.
  intros Hin Hm Hin1 Hr Hw Ht Hk. eapply alone_atomic; [exact Hin|exact Hm|]. cbn.
  eapply (alone_wait _ _ slot rpc res); [exact Hin1|exact Hr|exact Hw|intros w' Hw'; by rewrite Hw'|exact Ht|].
  intros d Hd. destruct (Hk d Hd) as (Hi & Hs%lookup_lt_is_Some & Hg). eapply alone_act; [exact Hi| |exact Hg].
  unfold send_answer. cbn. rewrite list_lookup_insert_eq by done. by destruct (res d).1.
Qed.

(** ** Runs of a test with one thread *)

Definition passed (o : outcome E unit) w : Prop := o = Ok tt ∧ incoming w = [].

(** The task of the request of the thread runs, or none does. *)
Inductive at_alone : Testing → Prop :=
| at_thread p w : alone passed p w → at_alone (mkTesting (mkSystem w []) [p])
| at_task slot f w q o w2 : incoming w = [] → oneshots w !! slot = Some Waiting → blocked_on slot f → ensures still q →
    run q w = Some (o, w2) → alone passed (Act f) (send_answer slot o w2) →
    at_alone (mkTesting (mkSystem w [(slot, q)]) [Act f]).

Lemma at_alone_act a t t' : fair a → at_alone t → test_act a t = Some t' → at_alone t'.
Proof.
  intros Hfair Hat Hact. destruct Hat as [p w Hp|slot f w q o w2 Hin Hslot Hb Hq Hrun Hp]; destruct a as [d|i|j]; simpl in Hact.
  - inversion Hp as [o w0 [Ho Hin]|f w0 w' p' Hin|f slot rpc res w0 Hin Hr Hw Hb Ht Hp']; subst; rewrite Hin in Hact; try done.
    cbn in Hact. rewrite Hr in Hact. injection Hact as <-.
    eapply at_task; [done|exact Hw|exact Hb|apply network_still|rewrite <-surjective_pairing; by apply Ht|by apply Hp'].
  - done.
  - destruct j as [|j]; [|done]. destruct Hp as [o w Hin|f w w' p' Hin Hf Hp|f slot rpc res w Hin Hr Hw Hb Ht Hp]; simpl in Hact; [done| |].
    + rewrite Hf in Hact. injection Hact as <-. by apply at_thread.
    + by rewrite Hb in Hact.
  - by rewrite Hin in Hact.
  - destruct i as [|i]; [|done]. cbn in Hact. destruct q as [o'|g]; simpl in Hrun.
    + injection Hrun as -> ->. injection Hact as <-. by apply at_thread.
    + destruct (g w) as [[w' q']|] eqn:Hg; [|done]. injection Hact as <-.
      destruct (ensures_inv _ _ _ _ _ Hq Hg) as [[Hi Ho] Hq'].
      eapply at_task; [by rewrite Hi|by rewrite Ho|exact Hb|exact Hq'|exact Hrun|exact Hp].
  - destruct j as [|j]; [|done]. cbn in Hact. by rewrite Hb in Hact.
Qed.

Lemma at_alone_goes_on t : at_alone t → (∀ j o, threads t !! j = Some (Done o) → o = Ok tt) ∧
  (Forall (λ p, p = Done (Ok tt)) (threads t) ∨ ∃ a t', fair a ∧ test_act a t = Some t').
Proof.
  intros Hat. destruct Hat as [p w Hp|slot f w q o w2 Hin Hslot Hb Hq Hrun Hp].
  - destruct Hp as [o w [-> Hin]|f w w' p' Hin Hf Hp|f slot rpc res w Hin Hr Hw Hb Ht Hp]; (split; [by intros [|j] o [= ?]; simplify_eq|]).
    + left. by constructor.
    + right. eexists (Runs 0), _. split; [done|]. simpl. by rewrite Hf.
    + right. eexists (TakesIn (mkDraws 0 0 0 0 0 0 0 [true])), _. split; [by left|]. cbn. by rewrite Hin, Hr.
  - split; [by intros [|j] o' [= ?]|]. right. exists (Polls 0). cbn. destruct q as [o'|g]; [by eexists|].
    simpl in Hrun. destruct (g w) as [[w' q']|]; [by eexists|done].
Qed.

(** A test passes when its thread does in this order. *)
Lemma alone_passes p : alone passed p (world (new_network shared0)) → passes [p].
Proof.
  intros Hp l t Hl Hrun. apply at_alone_goes_on.
  assert (at_alone (begin [p])) as H0 by by apply at_thread.
  revert H0 Hrun. generalize (begin [p]) as t0. induction Hl as [|a l Ha Hl IH]; intros t0 H0; simpl; [by intros [= <-]|].
  destruct (test_act a t0) as [t1|] eqn:Hact; [|done]. apply IH. by eapply at_alone_act.
Qed.

(** ** The runs of a test end *)

Definition moves_on {A} (p' p : future A) : Prop := match p with Act f => ∃ w w', f w = Some (w', p') | Done _ => False end.

Lemma moves_on_wf {A} (p : future A) : Acc moves_on p.
Proof.
  induction p as [o|f IH] using prog_ind; constructor; [by intros p'|]. intros p' (w & w' & Hf). by eapply IH.
Qed.

Definition task_moves_on (k' k : nat * future bytes) : Prop := moves_on k'.2 k.2.

Lemma task_moves_on_wf k : Acc task_moves_on k.
Proof.
  destruct k as [slot p]. revert slot. induction (moves_on_wf p) as [p _ IH]. intros slot.
  constructor. intros [slot' p'] Hp. by apply IH.
Qed.

(** A list whose elements get smaller and go away. *)
Definition shrinks {A} (R : A → A → Prop) (l' l : list A) : Prop := one_less R l' l ∨ ∃ i x, l !! i = Some x ∧ l' = delete i l.

Lemma shrinks_wf {A} (R : A → A → Prop) : (∀ x, Acc R x) → ∀ l, Acc (shrinks R) l.
Proof.
  intros HR l. remember (length l) as n eqn:Hn. revert l Hn. induction n as [n IHn] using lt_wf_ind. intros l.
  induction (one_less_wf R HR l) as [l _ IH]. intros ->. constructor. intros l' [Hl|(i & x & Hi & ->)].
  - apply IH; [done|]. destruct Hl as (i & x & x' & _ & _ & ->). by rewrite length_insert.
  - pose proof (lookup_lt_Some _ _ _ Hi). eapply IHn; [|done]. rewrite length_delete by done. lia.
Qed.

(** The threads of a test take steps; between two of them the network takes in the
    requests there are, and between two of those its tasks end. *)
Lemma test_next_wf t : Forall (λ k, ensures still k.2) (tasks (network t)) → Acc test_next t.
Proof.
  destruct t as [[w ks] ts]. cbn [network tasks]. revert w ks.
  induction (one_less_wf (moves_on (A := unit)) moves_on_wf ts) as [ts _ IHts]. intros w ks.
  remember (length (incoming w)) as n eqn:Hn. revert w ks Hn. induction n as [n IHn] using lt_wf_ind. intros w ks. revert w.
  induction (shrinks_wf task_moves_on task_moves_on_wf ks) as [ks _ IHks].
  intros w Hn Hks. constructor. intros t' [[d|i|j] Ha]; simpl in Ha.
  - destruct (incoming w) as [|rpc q] eqn:Hq; [done|]. destruct (resp rpc) as [slot|]; [|done]. injection Ha as <-.
    eapply IHn; [|done|]; [simpl in Hn |- *; lia|]. apply Forall_app. split; [done|]. constructor; [apply network_still|done].
  - destruct (ks !! i) as [[slot [o|f]]|] eqn:Hi; [| |done].
    + injection Ha as <-. apply IHks; [right; by eexists _, _|done|by apply Forall_delete].
    + destruct (f w) as [[w' p']|] eqn:Hf; [|done]. injection Ha as <-.
      pose proof (Forall_lookup_1 _ _ _ _ Hks Hi) as Hstill. destruct (ensures_inv _ _ _ _ _ Hstill Hf) as [[Hinc _] Hp'].
      apply IHks; [left; eexists i, _, _; split_and!; [done| |done]|by rewrite Hinc|by apply Forall_insert].
      by exists w, w'.
  - destruct (ts !! j) as [[o|f]|] eqn:Hj; [done| |done]. destruct (f w) as [[w' p']|] eqn:Hf; [|done]. injection Ha as <-.
    apply IHts; [|done]. eexists j, _, _. split_and!; [done| |done]. by exists w, w'.
Qed.

(** ** Between two requests *)

Definition suit_core (n : N) : ServerCore unit := mkServerCore "test_server" 0 {["junk" := tt]} n.

(** The network between two requests of its only client: whether the client has hooks and
    is enabled, how many requests the server has counted, and what the threads share. *)
Record at_rest (hk : option unit) (en : bool) (n : N) (a : Shared C T) w : Prop := {
  ar_lock : poisoned (core w) = false;
  ar_reliable : reliable (core w) = true;
  ar_receiver : receiver w = true;
  ar_incoming : incoming w = [];
  ar_enabled : enabled (endpoints (core w)) !! "test_client" = Some en;
  ar_connected : connections (endpoints (core w)) !! "test_client" = Some (Some "test_server");
  ar_server : servers (endpoints (core w)) !! "test_server" = Some (Some 0);
  ar_cores : cores w = [suit_core n];
  ar_cells : cells w = [mkHookCell hk false];
  ar_app : app w = a;
}.

Definition the_client : Client := mkClient "test_client" 0.

Definition reply_result (o : outcome E bytes) : outcome E JunkReply :=
  match o with
  | Ok b => match decode_reply b with inr a => Ok a | inl e => Err (Decode e) end
  | Err e => Err e
  | _ => Err Recv
  end.

Definition junk_request (nm : string) (buf : bytes) (slot : nat) : Rpc := mkRpc "test_client" ("junk." +:+ nm) (Some buf) (Some slot) 0.

Lemma junk_await (Q : outcome E JunkReply → World → Prop) nm x buf hk en n a w o n' a' :
  at_rest hk en n a w → encode_args (mkJunkArgs x) = inr buf →
  (∀ d w1, true ∈ d_sched d → at_rest hk en n a w1 → ∃ w2,
     run (network_process_rpc d (junk_request nm buf (length (oneshots w)))) w1 = Some (o, w2) ∧
     at_rest hk en n' a' w2 ∧ oneshots w2 = oneshots w1) →
  (∀ w', at_rest hk en n' a' w' → Q (reply_result o) w') →
  alone Q (await (service_call encode_args decode_reply "junk" nm the_client (mkJunkArgs x))) w.
Proof.
  intros Hw Henc Hrun HQ. set (slot := length (oneshots w)). set (rpc := junk_request nm buf slot).
  set (w1 := with_incoming [rpc] true (with_oneshots (oneshots w ++ [Waiting]) w)).
  assert (∀ d, true ∈ d_sched d → ∃ w2, task_result d rpc w1 = Some (o, w2) ∧ at_rest hk en n' a' w2 ∧ oneshots w2 = oneshots w ++ [Waiting]) as Hres.
  { intros d Hd. apply (Hrun d (with_incoming [] (receiver w1) w1) Hd). by destruct Hw. }
  eapply (alone_await _ _ slot _ rpc (λ d, default (o, w) (task_result d rpc w1)) w w1); [apply Hw| |done|done| | |].
  - unfold service_call, call. rewrite Henc. mpure. rewrite (ar_receiver _ _ _ _ _ Hw). mpure. cbn.
    rewrite (ar_incoming _ _ _ _ _ Hw). reflexivity.
  - unfold w1. cbn. unfold slot. by rewrite lookup_app_r, Nat.sub_diag.
  - intros d Hd. destruct (Hres d Hd) as (w2 & Hr & _). by rewrite Hr.
  - intros d Hd. destruct (Hres d Hd) as (w2 & Hr & Hat & Hos). rewrite Hr. simpl. split_and!; [apply Hat| |].
    { rewrite Hos. apply lookup_lt_is_Some. rewrite length_app. simpl. unfold slot. lia. }
    assert (at_rest hk en n' a' (send_answer slot o w2)) as Hat' by by destruct Hat.
    assert (alone Q (Done (reply_result o)) (send_answer slot o w2)) as HQ' by (apply alone_done, HQ, Hat').
    destruct o as [b|e| |]; try exact HQ'. unfold reply_result in HQ'. cbn. by destruct (decode_reply b).
Qed.

(** ** What becomes of a request *)

Lemma at_rest_attached hk n a w : at_rest hk true n a w → attached "test_client" 0 (suit_core n) w.
Proof. intros []. split; try done. by rewrite ar_cores0. Qed.

(** What the hooks make of an answer. *)
Definition hooked_answer (hk : option unit) (a : Shared C T) (r : E + bytes) : outcome E bytes :=
  match hk with
  | Some _ => if drop_resp a then Err (Other "resphook") else outcome_of r
  | None => outcome_of r
  end.

Lemma run_steps_end {A B} (p : future A) (k : A → future B) w a w' :
  run p w = Some (Ok a, w') → (match k a with Done _ => True | _ => False end) → run_steps (p ≫= k) w = run_steps p w.
Proof.
  revert w. induction p as [o|f IH] using prog_ind; intros w Hr Hk; simpl in *.
  - injection Hr as -> ->. simpl. by destruct (k a).
  - destruct (f w) as [[w1 p1]|] eqn:Hf; [|done]. f_equal. exact (IH _ _ _ Hf _ Hr Hk).
Qed.

Lemma junk_served nm (me : @Method EncodeError DecodeError unit unit (Shared C T)) buf slot hk n a a' arg (rsp : Output me) b d w :
  at_rest hk true n a w → (hk = None ∨ drop_req a = false) →
  find (λ m, bool_decide (m.1 = nm)) junk_service = Some (nm, me) → split_dot ("junk." +:+ nm) = ["junk"; nm] →
  decode_input me buf = inr arg → app_only (method me arg) →
  (∀ w0, app w0 = a → run (method me arg) w0 = Some (Ok rsp, with_app a' w0) ∧ run_steps (method me arg) w0 ≤ 1) →
  encode_output me rsp = inr b → true ∈ d_sched d →
  ∃ w2, run (network_process_rpc d (junk_request nm buf slot)) w = Some (hooked_answer hk a' (inr b), w2) ∧
    at_rest hk true (fetch_add_1 n) a' w2 ∧ oneshots w2 = oneshots w.
Proof.
  intros Hw Hreq Hfind Hsplit Hdec Hao Hrun Henc Hd. pose proof Hw as [].
  destruct (Hrun w ar_app0) as [Hr Hst].
  destruct (service_handler_run "junk" junk_service nm me buf arg w (Ok rsp) (with_app a' w)) as [Hao' Hr']; [done..|].
  unfold encoded in Hr'. rewrite Henc in Hr'.
  assert (run_steps (service_handler "junk" junk_service nm buf) w = run_steps (method me arg) w) as Hst'.
  { unfold service_handler. rewrite Hfind, Hdec. apply (run_steps_end _ _ _ _ _ Hr). by rewrite Henc. }
  destruct (network_process_rpc_hooked (hooked_answer hk a') d (junk_request nm buf slot) 0 (suit_core n)
    (run_steps (service_handler "junk" junk_service nm buf) w) (Ok b) a' w) as [ts Hts].
  - split; [by eapply at_rest_attached| | |].
    + intros buf' w' _ Hc Ha. unfold with_hooks. cbn [hooks junk_request]. rewrite Hc, ar_cells0. cbn.
      destruct hk as [[]|]; [|done]. unfold gets, mbind, M_bind. rewrite Ha, ar_app0. by destruct Hreq as [ | -> ].
    + intros r w' Hc Ha. unfold with_hooks. cbn [hooks junk_request]. rewrite Hc, ar_cells0. cbn.
      destruct hk as [[]|]; [|by destruct r]. unfold gets, mbind, M_bind. rewrite Ha.
      unfold hooked_answer. by destruct (drop_resp a'), r.
    + exists buf, "junk", nm, [], tt, (with_app a' w). split_and!; try done.
  - unfold request_lost. by rewrite ar_reliable0.
  - rewrite Hst'. etrans; [exact Hst|]. clear -Hd. induction (d_sched d) as [|x l IH]; [by apply not_elem_of_nil in Hd|].
    apply elem_of_cons in Hd. destruct Hd as [<-|Hd]; simpl; [lia|]. specialize (IH Hd). destruct x; lia.
  - exists (handled 0 a' ts w). rewrite Hts. unfold reply_lost. rewrite ar_reliable0. split_and!; [| |done].
    + unfold answered. cbn [negb andb]. by destruct (hooked_answer hk a' (inr b)).
    + split; try done. cbn. by rewrite ar_cores0.
Qed.

Definition reply2 (x : Z) : JunkReply := mkJunkReply ("handler2-" +:+ fmt_i64 x).
Definition reply4 : JunkReply := mkJunkReply "pointer".

Definition hooked_reply (hk : option unit) (a : Shared C T) (r : JunkReply) : outcome E JunkReply :=
  match hk with
  | Some _ => if drop_resp a then Err (Other "resphook") else Ok r
  | None => Ok r
  end.

Lemma hooked_reply_result hk a s b : decode_reply b = inr (mkJunkReply s) →
  reply_result (hooked_answer hk a (inr b)) = hooked_reply hk a (mkJunkReply s).
Proof. intros Hb. unfold hooked_answer, hooked_reply. destruct hk as [[]|]; [destruct (drop_resp a)|]; simpl; by rewrite ?Hb. Qed.

Lemma await_call2 (Q : outcome E JunkReply → World → Prop) hk n a w x : at_rest hk true n a w → i64 x → (hk = None ∨ drop_req a = false) →
  (∀ w', at_rest hk true (fetch_add_1 n) (push_log x a) w' → Q (hooked_reply hk a (reply2 x)) w') →
  alone Q (await (call2 the_client x)) w.
Proof.
  intros Hw Hx Hreq HQ. destruct (args_round x Hx) as (buf & Henc & Hdec), (reply_round ("handler2-" +:+ fmt_i64 x)) as (b & Henc' & Hdec').
  eapply junk_await; [exact Hw|exact Henc| |].
  - intros d w1 Hd Hw1. eapply (junk_served "handler2" (junk_rpc_of junk_handler2) buf _ hk n a (push_log x a) (mkJunkArgs x) (reply2 x));
      [done|done|done|done|exact Hdec| | |exact Henc'|done].
    + apply app_only_bind; [|intros; constructor]. apply (app_act _ (λ a, Some (push_log x a, Done (Ok tt)))); [done|].
      intros a0 a1 p' [= <- <-]. constructor.
    + intros w0 <-. done.
  - intros w' Hw'. rewrite (hooked_reply_result _ _ _ _ Hdec'). by apply HQ.
Qed.

Lemma await_call4 (Q : outcome E JunkReply → World → Prop) hk n a w x : at_rest hk true n a w → i64 x → (hk = None ∨ drop_req a = false) →
  (∀ w', at_rest hk true (fetch_add_1 n) a w' → Q (hooked_reply hk a reply4) w') →
  alone Q (await (call4 the_client x)) w.
Proof.
  intros Hw Hx Hreq HQ. destruct (args_round x Hx) as (buf & Henc & Hdec), (reply_round "pointer") as (b & Henc' & Hdec').
  eapply junk_await; [exact Hw|exact Henc| |].
  - intros d w1 Hd Hw1. eapply (junk_served "handler4" (junk_rpc_of junk_handler4) buf _ hk n a a (mkJunkArgs x) reply4);
      [done|done|done|done|exact Hdec|constructor| |exact Henc'|done].
    intros w0 <-. split; [by destruct w0|]. simpl. lia.
  - intros w' Hw'. rewrite (hooked_reply_result _ _ _ _ Hdec'). by apply HQ.
Qed.

(** The hooks refuse the request. *)
Lemma refused d buf slot n a w : at_rest (Some tt) true n a w → drop_req a = true →
  run (network_process_rpc d (junk_request "handler2" buf slot)) w = Some (Err (Other "reqhook"), counted w).
Proof.
  intros Hw Hreq. unfold network_process_rpc. erewrite run_atomic_ok; [|reflexivity]. fold (counted w).
  erewrite run_atomic_ok; [|apply (end_info_attached _ 0 (suit_core n)), (at_rest_attached (Some tt) n a); by destruct Hw].
  cbn [ei_enabled ei_server ei_reliable ei_long_reordering]. change (reliable (core (counted w))) with (reliable (core w)).
  assert (with_hooks 0 (λ h, before_dispatch h "junk.handler2" buf) (mret tt) (counted w) = (Err (Other "reqhook"), counted w)) as Hbe.
  { unfold with_hooks. change (cells (counted w)) with (cells w). rewrite (ar_cells _ _ _ _ _ Hw). cbn.
    unfold gets, mbind, M_bind. change (app (counted w)) with (app w). by rewrite (ar_app _ _ _ _ _ Hw), Hreq. }
  rewrite (ar_reliable _ _ _ _ _ Hw). cbn [negb andb]. unfold process_rpc. cbn [req junk_request].
  erewrite run_bind_ok; [|reflexivity]. erewrite run_bind; [|rewrite run_atomic; f_equal; exact Hbe]. reflexivity.
Qed.

Lemma await_refused (Q : outcome E JunkReply → World → Prop) n a w x : at_rest (Some tt) true n a w → i64 x → drop_req a = true →
  (∀ w', at_rest (Some tt) true n a w' → Q (Err (Other "reqhook")) w') →
  alone Q (await (call2 the_client x)) w.
Proof.
  intros Hw Hx Hreq HQ. destruct (args_round x Hx) as (buf & Henc & Hdec).
  eapply (junk_await _ _ _ _ _ _ _ _ _ (Err (Other "reqhook"))); [exact Hw|exact Henc| |exact HQ].
  intros d w1 Hd Hw1. exists (counted w1). split; [by eapply refused|]. split; [by destruct Hw1|done].
Qed.

(** The client is not enabled. *)
Lemma await_disabled (Q : outcome E JunkReply → World → Prop) hk n a w x : at_rest hk false n a w → i64 x →
  (∀ w', at_rest hk false n a w' → Q (Err Timeout) w') →
  alone Q (await (call4 the_client x)) w.
Proof.
  intros Hw Hx HQ. destruct (args_round x Hx) as (buf & Henc & Hdec).
  eapply (junk_await _ _ _ _ _ _ _ _ _ (Err Timeout)); [exact Hw|exact Henc| |exact HQ].
  intros d w1 Hd Hw1. destruct (network_process_rpc_unreachable d (junk_request "handler4" buf (length (oneshots w))) w1) as [ms Hms].
  - destruct Hw1. split; [done|]. exists false. split; [done|]. cbn [client_name junk_request]. rewrite ar_connected0.
    exists (Some 0). split; [done|by left].
  - rewrite Hms. eexists. split; [done|]. split; [|done]. destruct Hw1. by split.
Qed.
End junk.

(** ** What a test does between two requests *)

Section rest.
Context {EncodeError DecodeError : Type} {C T : Type}.
#[local] Abbreviation World := (@World EncodeError DecodeError unit unit (Shared C T)).

Definition enabled_client w : World :=
  with_endpoints (mkEndpoints (<["test_client" := true]> (enabled (endpoints (core w)))) (servers (endpoints (core w))) (connections (endpoints (core w)))) w.

Lemma enable_at_rest hk en n a (w : World) : at_rest hk en n a w → enable "test_client" true w = (Ok tt, enabled_client w).
Proof. intros []. unfold enable, locked. by rewrite ar_lock0. Qed.

Lemma enabled_at_rest hk en n a (w : World) : at_rest hk en n a w → at_rest hk true n a (enabled_client w).
Proof. intros []. split; try done. apply lookup_insert_eq. Qed.

Lemma shared_at_rest hk en n a f (w : World) : at_rest hk en n a w → at_rest hk en n (f a) (with_app (f (app w)) w).
Proof. intros []. split; try done. cbn. by rewrite ar_app0. Qed.

Lemma count_at_rest hk en n a (w : World) : at_rest hk en n a w → count "test_server" w = (Ok n, w).
Proof.
  intros []. unfold count, locked, get_endpoints. rewrite ar_lock0. mpure. rewrite ar_server0. mpure.
  unfold server_count, get_core. unfold mbind, M_bind. by rewrite ar_cores0.
Qed.
End rest.

(** ** The tests *)

Section tests.
Context {EncodeError DecodeError : Type} `{!Messages EncodeError DecodeError} `{!MessagesLaws}.
#[local] Abbreviation E := (Error EncodeError DecodeError).
#[local] Abbreviation World := (@World EncodeError DecodeError unit unit (Shared unit unit)).

(** What follows when a test has set the network up. *)
Lemma suit_alone (Q : outcome E unit → World → Prop) (k : Client → prog E World unit) :
  (∀ w, at_rest None false 0 shared0 w → alone Q (k the_client) w) →
  alone Q (_ ← atomic junk_suit; client ← atomic (create_client "test_client");
           atomic (connect "test_client" "test_server");; k client) (world (new_network shared0)).
Proof.
  intros Hk. repeat (eapply alone_atomic; [reflexivity|reflexivity|]). apply Hk. split; vm_compute; reflexivity.
Qed.

Lemma hooked_suit_alone (Q : outcome E unit → World → Prop) (k : Client → prog E World unit) :
  (∀ w, at_rest (Some tt) false 0 shared0 w → alone Q (k the_client) w) →
  alone Q (_ ← atomic junk_suit; client ← atomic (create_client "test_client"); atomic (set_hooks client tt);;
           atomic (connect "test_client" "test_server");; k client) (world (new_network shared0)).
Proof.
  intros Hk. repeat (eapply alone_atomic; [reflexivity|reflexivity|]). apply Hk. split; vm_compute; reflexivity.
Qed.

(** The client is enabled. *)
Lemma enable_alone hk (Q : outcome E unit → World → Prop) (k : unit → prog E World unit) w : at_rest hk false 0 shared0 w →
  (∀ w', at_rest hk true 0 shared0 w' → alone Q (k tt) w') → alone Q (atomic (enable "test_client" true) ≫= k) w.
Proof.
  intros Hw Hk. eapply alone_atomic; [apply Hw|by eapply enable_at_rest|]. apply Hk. by eapply enabled_at_rest.
Qed.

Lemma basic_alone : alone passed test_basic (world (new_network shared0)).
Proof.
  apply suit_alone. intros w0 Hw0. apply (enable_alone None); [done|]. intros w1 Hw1. apply alone_unwrap.
  eapply await_call4; [exact Hw1|by vm_compute|by left|].
  intros w' Hw'. eexists. split; [done|]. apply alone_done. split; [done|apply Hw'].
Qed.

Lemma disconnect_alone : alone passed test_disconnect (world (new_network shared0)).
Proof.
  apply suit_alone. intros w0 Hw0. apply alone_unwrap_err. eapply await_disabled; [exact Hw0|by vm_compute|].
  intros w Hw. eexists. split; [done|]. apply (enable_alone None); [done|]. intros w1 Hw1. apply alone_unwrap.
  eapply await_call4; [exact Hw1|by vm_compute|by left|].
  intros w' Hw'. eexists. split; [done|]. apply alone_done. split; [done|apply Hw'].
Qed.

Lemma count_loop (Q : outcome E unit → World → Prop) m s a w : at_rest None true (N.of_nat s) a w → s + m ≤ 17 →
  (∀ a' w', at_rest None true (N.of_nat (s + m)) a' w' → Q (Ok tt) w') →
  alone Q (each (λ i, reply ← unwrap (await (call2 the_client (Z.of_nat i)));
                      assert (bool_decide (reply_x reply = "handler2-" +:+ fmt_i64 (Z.of_nat i)))) (seq s m)) w.
Proof.
  revert s a w. induction m as [|m IH]; intros s a w Hw Hle HQ; cbn [each seq].
  { apply alone_done. eapply HQ. by rewrite Nat.add_0_r. }
  apply alone_bind, alone_unwrap. eapply await_call2; [exact Hw|unfold i64, I64_MIN; lia|by left|].
  intros w' Hw'. eexists. split; [done|]. unfold reply2. cbn [reply_x]. rewrite bool_decide_eq_true_2 by done.
  apply alone_done. eapply (IH (S s)); [|lia|].
  - unfold fetch_add_1 in Hw'. rewrite N.mod_small in Hw' by (unfold USIZE; lia).
    replace (N.of_nat s + 1)%N with (N.of_nat (S s)) in Hw' by lia. exact Hw'.
  - intros a' w2 Hw2. apply (HQ a'). by rewrite <-Nat.add_succ_comm.
Qed.

Lemma count_alone : alone passed test_count (world (new_network shared0)).
Proof.
  apply suit_alone. intros w0 Hw0. apply (enable_alone None); [done|]. intros w1 Hw1.
  apply alone_bind, (count_loop _ 17 0 shared0); [exact Hw1|lia|].
  intros a' w' Hw'. eapply alone_atomic; [apply Hw'|by apply (count_at_rest None true 17 a')|].
  apply alone_done. split; [done|apply Hw'].
Qed.

Lemma hooks_alone : alone passed test_rpc_hooks (world (new_network shared0)).
Proof.
  apply hooked_suit_alone. intros w Hw. apply (enable_alone (Some tt)); [done|]. intros w0 Hw0. apply alone_unwrap.
  eapply await_call2; [exact Hw0|by vm_compute|by right|].
  intros w1 Hw1. eexists. split; [done|]. apply alone_assert; [by apply bool_decide_eq_true_2|].
  eapply alone_atomic; [apply Hw1|reflexivity|]. apply alone_unwrap_err.
  eapply await_refused; [by apply shared_at_rest|by vm_compute|done|].
  intros w2 Hw2. eexists. split; [done|]. apply alone_assert; [done|].
  do 2 (eapply alone_atomic; [apply Hw2|reflexivity|]). apply alone_unwrap_err.
  eapply await_call2; [by do 2 apply shared_at_rest|by vm_compute|by right|].
  intros w3 Hw3. eexists. split; [done|]. apply alone_assert; [done|].
  eapply alone_atomic; [apply Hw3|reflexivity|]. apply alone_unwrap.
  eapply await_call2; [by apply shared_at_rest|by vm_compute|by right|].
  intros w4 Hw4. eexists. split; [done|]. unfold reply2. cbn [reply_x]. rewrite bool_decide_eq_true_2 by done.
  apply alone_done. split; [done|apply Hw4].
Qed.

(** The server of [test_service_dispatch]. *)
Definition dispatching (w : World) : Prop := incoming w = [] ∧ ∃ n, cores w = [mkServerCore "test" 0 {["junk" := tt]} n].

(** [server.dispatch(..).await], when the handler answers at once. *)
Lemma await_dispatch (Q : outcome E bytes → World → Prop) nm fq buf o w : dispatching w → split_dot fq = ["junk"; nm] →
  service_handler "junk" (junk_service (C := unit) (T := unit)) nm buf = Done o → (∀ w', dispatching w' → Q o w') → alone Q (await (dispatch 0 fq buf)) w.
Proof.
  intros [Hin [n Hn]] Hfq Ho HQ. eapply alone_atomic; [done| |].
  - rewrite (dispatch_ok 0 (mkServerCore "test" 0 {["junk" := tt]} n) "junk" nm [] tt); [|by rewrite Hn|done|done]. reflexivity.
  - unfold handler, junk_factories. rewrite Ho. apply alone_done, HQ. split; [done|]. cbn. rewrite Hn. by eexists.
Qed.

Lemma await_unknown (Q : outcome E bytes → World → Prop) svc nm fq buf w : dispatching w → split_dot fq = [svc; nm] → svc ≠ "junk" →
  (∀ w', dispatching w' → Q (Err (Unimplemented ("unknown " +:+ fq))) w') → alone Q (await (dispatch 0 fq buf)) w.
Proof.
  intros [Hin [n Hn]] Hfq Hsvc HQ. set (w' := with_cores (alter bump 0 (cores w)) w). eapply (alone_atomic _ _ _ _ _ w'); [done| |].
  - unfold dispatch, get_core. mpure. rewrite Hfq. unfold mbind, M_bind. cbn. rewrite Hn. cbn.
    rewrite lookup_singleton_ne by done. cbn. unfold w'. rewrite Hn. reflexivity.
  - apply alone_done, HQ. split; [done|]. cbn. rewrite Hn. by eexists.
Qed.

Lemma dispatch_alone : alone passed test_service_dispatch (world (new_network shared0)).
Proof.
  unfold test_service_dispatch.
  assert (junk_builder (EncodeError := EncodeError) (DecodeError := DecodeError) "test" = (Ok tt, mkServerBuilder "test" {["junk" := tt]})) as -> by done.
  assert (add_service (EncodeError := EncodeError) (DecodeError := DecodeError) "junk" tt (mkServerBuilder "test" {["junk" := tt]}) = (Err (Other "junk has already registered"), mkServerBuilder "test" {["junk" := tt]})) as -> by done.
  cbn zeta. apply alone_assert; [by apply Nat.eqb_eq|].
  eapply alone_atomic; [reflexivity|reflexivity|]. apply alone_unwrap.
  destruct (reply_round "pointer") as (b & Henc & Hdec), args_bad as [e He].
  eapply (await_dispatch _ "handler4" _ _ (Ok b)); [split; [done|by exists 0%N]|done| |].
  { unfold service_handler. change (find _ junk_service) with (Some ("handler4", junk_rpc_of (C := unit) (T := unit) junk_handler4)). cbn.
    rewrite args_default. cbn. by rewrite Henc. }
  intros w1 Hw1. eexists. split; [done|]. rewrite Hdec. apply alone_assert; [by apply bool_decide_eq_true_2|]. apply alone_unwrap_err.
  eapply (await_dispatch _ "handler4" _ _ (Err (Decode e))); [done|done| |].
  { unfold service_handler. change (find _ junk_service) with (Some ("handler4", junk_rpc_of (C := unit) (T := unit) junk_handler4)). cbn -[String.list_byte_of_string]. by rewrite He. }
  intros w2 Hw2. eexists. split; [done|]. apply alone_unwrap_err.
  eapply (await_unknown _ "badjunk" "handler4"); [done|done|done|].
  intros w3 Hw3. eexists. split; [done|]. apply alone_unwrap_err.
  eapply (await_dispatch _ "badhandler"); [done|done|reflexivity|].
  intros w4 Hw4. eexists. split; [done|]. apply alone_done. split; [done|apply Hw4].
Qed.
End tests.

(** ** A test without a network *)

Section lone.
Context {EncodeError DecodeError : Type} `{!Messages EncodeError DecodeError} {C T : Type}.
#[local] Abbreviation E := (Error EncodeError DecodeError).
#[local] Abbreviation World := (@World EncodeError DecodeError unit unit (Shared C T)).
#[local] Abbreviation Testing := (@Testing EncodeError DecodeError C T).

Definition unharmed (p : prog E World unit) : Prop := match p with Act _ | Done (Ok tt) => True | _ => False end.

(** At every point one thread can go on. *)
Inductive lone : Testing → Prop :=
| lone_done t : Forall (λ p, p = Done (Ok tt)) (threads t) → lone t
| lone_step j t t' : Forall unharmed (threads t) → test_act (Runs j) t = Some t' → (∀ i, i ≠ j → test_act (Runs i) t = None) →
    lone t' → lone t.

Lemma lone_act a t t' : unserved a → lone t → test_act a t = Some t' → lone t'.
Proof.
  intros Ha Ht Hact. destruct a as [| |i]; [done..|]. destruct Ht as [t Hf|j t t1 Hun Hj Hi Ht].
  - cbn in Hact. destruct (threads t !! i) as [p|] eqn:Hp; [|done]. by rewrite (Forall_lookup_1 _ _ _ _ Hf Hp) in Hact.
  - destruct (decide (i = j)) as [->|Hne]; [congruence|]. by rewrite Hi in Hact.
Qed.

Lemma lone_passes ts : lone (begin ts) → passes_by unserved ts.
Proof.
  intros H0 l t Hl. revert H0. generalize (begin ts) as t0. induction Hl as [|a l Ha Hl IH]; intros t0 H0; simpl.
  - intros [= <-]. destruct H0 as [t Hf|j t t' Hun Hj _ _].
    + split; [|by left]. intros j o Hj. pose proof (Forall_lookup_1 _ _ _ _ Hf Hj) as Ho. by injection Ho.
    + split; [|right; by exists (Runs j), t']. intros i o Hi. pose proof (Forall_lookup_1 _ _ _ _ Hun Hi) as Ho. by destruct o as [[]| | |].
  - destruct (test_act a t0) as [t1|] eqn:Hact; [|done]. apply IH. by eapply lone_act.
Qed.
End lone.

Section unserved.
Context {EncodeError DecodeError : Type} `{!Messages EncodeError DecodeError} {laws : MessagesLaws}.

Lemma args_not_empty x : i64 x → x ≠ 0%Z → ∃ b bs, encode_args (mkJunkArgs x) = inr (b :: bs).
Proof.
  intros Hx Hne. destruct (args_round x Hx) as ([|b bs] & Henc & Hdec); [|by exists b, bs].
  rewrite args_default in Hdec. by injection Hdec.
Qed.

(** The thread [j] goes on, by the equations [eqs] of the codecs. *)
Ltac lone_by j eqs :=
  eapply (lone_step j);
  [by repeat constructor
  |cbn; unfold call4, service_call, call; rewrite ?eqs; cbn; rewrite ?eqs; cbn; reflexivity
  |by intros [|[|[|i]]]
  |].

Lemma client_rpc_passes : passes_by unserved [test_network_client_rpc; caller_worker 0; caller_worker 1].
Proof.
  destruct (args_not_empty 777) as (b & bs & Henc); [unfold i64, I64_MIN; lia|done|].
  destruct (args_round 0) as (b0 & Henc0 & _); [unfold i64, I64_MIN; lia|].
  destruct (reply_round "boom!!!") as (r & Hr & Hdec).
  apply lone_passes. do 4 lone_by 0 Hr. do 2 lone_by 1 Henc. do 2 lone_by 0 Hr. do 2 lone_by 1 Hdec.
  do 2 lone_by 0 Hr. do 2 lone_by 2 Henc. do 2 lone_by 0 Hr. do 2 lone_by 2 Hdec. do 3 lone_by 0 Henc0.
  apply lone_done. by repeat constructor.
Qed.
End unserved.
