(* ===== verification/LabPools.v ===== *)
(** * Tests of the network that have a pool of threads

    What any number of clients that call [handler2] at the same time and the tasks of the
    network keep true, whatever the interleaving: each request is in the channel of the
    network, or has one task, or its reply; the server has counted those that were
    dispatched, and the service has logged those that were handled. *)

From S2P Require Import Prelude Conc Rpc RpcSpec RpcTheorems LabTests LabTestsSpec.

(** How far a request is: dispatched to the server, handled, and answered. *)
Inductive phase := Fresh | Dispatched | Logged | Answered.

#[export] Instance phase_eq_dec : EqDecision phase.
Proof. solve_decision. Defined.

(** A call of the client number [ca_client]; its reply comes through the oneshot channel
    with the number of the call. *)
Record Call := mkCall { ca_client : nat; ca_x : Z; ca_phase : phase }.

(** A client: how far it is set up, then how many calls it has had replies to. *)
Inductive Caller :=
| Absent
| Created (cell : nat)
| Enabled (cell : nat)
| Idle (cell n : nat)
| Busy (cell n k : nat)
| Finished.

#[export] Instance Caller_eq_dec : EqDecision Caller.
Proof. solve_decision. Defined.

Definition dispatched (c : Call) : Prop := ca_phase c ≠ Fresh.
Definition logged (c : Call) : Prop := ca_phase c = Logged ∨ ca_phase c = Answered.
#[export] Instance dispatched_dec c : Decision (dispatched c).
Proof. unfold dispatched. apply _. Defined.
#[export] Instance logged_dec c : Decision (logged c).
Proof. unfold logged. apply _. Defined.

Lemma client_number_inj i j : (N.of_nat i <= U64_MAX)%N → (N.of_nat j <= U64_MAX)%N → client_number i = client_number j → i = j.
Proof.
  unfold client_number. intros Hi Hj Heq. apply (inj (String.append "client-")) in Heq.
  pose proof (parse_fmt_u64 _ Hi) as H1. rewrite Heq, parse_fmt_u64 in H1 by done. injection H1. lia.
Qed.

(** [n0] clients make [m] calls each, the client [i] with the arguments [xs i]; none of
    the numbers overflows. *)
Class Load (xs : nat → list Z) (n0 m : nat) : Prop := {
  load_length i : length (xs i) = m;
  load_args i : i < n0 → Forall i64 (xs i);
  load_clients : (N.of_nat n0 <= U64_MAX)%N;
  load_calls : (N.of_nat (n0 * m) < USIZE)%N;
}.

Section pools.
Context {EncodeError DecodeError : Type} `{!Messages EncodeError DecodeError} `{!MessagesLaws} {C : Type}.
#[local] Abbreviation E := (Error EncodeError DecodeError).
#[local] Abbreviation World := (@World EncodeError DecodeError unit unit (Shared C nat)).
#[local] Abbreviation System := (@System EncodeError DecodeError unit unit (Shared C nat)).
#[local] Abbreviation future := (prog E World).
#[local] Abbreviation Mn := (M E World).
Implicit Types (w : World).

Definition args_bytes (x : Z) : bytes := match encode_args (mkJunkArgs x) with inr b => b | inl _ => [] end.
Definition reply_bytes (x : Z) : bytes := match encode_reply (reply2 x) with inr b => b | inl _ => [] end.

Lemma args_bytes_ok x : i64 x → encode_args (mkJunkArgs x) = inr (args_bytes x) ∧ decode_args (args_bytes x) = inr (mkJunkArgs x).
Proof. intros Hx. unfold args_bytes. destruct (args_round x Hx) as (b & Hb & Hd). by rewrite Hb. Qed.

Lemma reply_bytes_ok x : encode_reply (reply2 x) = inr (reply_bytes x) ∧ decode_reply (reply_bytes x) = inr (reply2 x).
Proof. unfold reply_bytes. destruct (reply_round ("handler2-" +:+ fmt_i64 x)) as (b & Hb & Hd). unfold reply2. by rewrite Hb. Qed.

(** ** A task *)

(** The server is there, and no client has hooks. *)
Record suit (n : N) w : Prop := {
  su_lock : poisoned (core w) = false;
  su_reliable : reliable (core w) = true;
  su_server : servers (endpoints (core w)) !! "test_server" = Some (Some 0);
  su_cores : cores w = [suit_core n];
  su_cells : ∀ c h, cells w !! c = Some h → h = mkHookCell None false;
}.

(** The client can call. *)
Definition ready (i cell : nat) w : Prop :=
  enabled (endpoints (core w)) !! client_number i = Some true ∧
  connections (endpoints (core w)) !! client_number i = Some (Some "test_server") ∧ is_Some (cells w !! cell).

(** Nothing changes but what is counted of all requests, and timers. *)
Definition same w w' : Prop :=
  endpoints (core w') = endpoints (core w) ∧ poisoned (core w') = poisoned (core w) ∧ reliable (core w') = reliable (core w) ∧
  incoming w' = incoming w ∧ receiver w' = receiver w ∧ cores w' = cores w ∧ cells w' = cells w ∧
  oneshots w' = oneshots w ∧ app w' = app w.

Definition moves (x : Z) (ph : phase) w (ph' : phase) w' : Prop :=
  (ph' = ph ∧ same w w') ∨
  (ph = Fresh ∧ ph' = Dispatched ∧ w' = with_cores (alter bump 0 (cores w)) w) ∨
  (ph = Dispatched ∧ ph' = Logged ∧ w' = with_app (push_log x (app w)) w).

(** A task can always go on, and ends with the reply. *)
Inductive task_ok (i cell : nat) (x : Z) : phase → future bytes → Prop :=
| task_done : task_ok i cell x Logged (Done (Ok (reply_bytes x)))
| task_act ph f :
    (∀ n w, suit n w → ready i cell w → ∃ w' p' ph', f w = Some (w', p') ∧ moves x ph w ph' w' ∧ task_ok i cell x ph' p') →
    task_ok i cell x ph (Act f).

Lemma same_refl w : same w w.
Proof. by unfold same. Qed.

Lemma task_atomic {A} i cell x ph ph' (m : Mn A) (k : A → future bytes) :
  (∀ n w, suit n w → ready i cell w → ∃ a w', m w = (Ok a, w') ∧ moves x ph w ph' w' ∧ task_ok i cell x ph' (k a)) →
  task_ok i cell x ph (atomic m ≫= k).
Proof.
  intros Hm. apply task_act. intros n w Hs Hr. destruct (Hm n w Hs Hr) as (a & w' & Ha & Hmv & Hk).
  exists w', (k a), ph'. split; [|done]. cbn. by rewrite Ha.
Qed.

(** An action that leaves everything as it is. *)
Lemma task_look {A} i cell x ph (m : Mn A) (k : A → future bytes) (P : A → Prop) :
  (∀ n w, suit n w → ready i cell w → ∃ a w', m w = (Ok a, w') ∧ same w w' ∧ P a) → (∀ a, P a → task_ok i cell x ph (k a)) →
  task_ok i cell x ph (atomic m ≫= k).
Proof.
  intros Hm Hk. eapply (task_atomic _ _ _ _ ph). intros n w Hs Hr. destruct (Hm n w Hs Hr) as (a & w' & Ha & Hsame & HP).
  exists a, w'. split_and!; [done|by left|by apply Hk].
Qed.

Lemma ready_attached i cell n w : suit n w → ready i cell w → attached (client_number i) 0 (suit_core n) w.
Proof. intros [] (He & Hc & _). split; try done. by rewrite su_cores0. Qed.

Lemma ready_alive i cell n w : suit n w → ready i cell w → is_server_dead (client_number i) "test_server" 0 w = (Ok false, w).
Proof. intros Hs Hr. by eapply (alive_attached _ _ (suit_core n)); [eapply ready_attached|..]. Qed.

Lemma ready_hooks {A} i cell n w (yes : unit → Mn A) no : suit n w → ready i cell w → with_hooks cell yes no w = no w.
Proof. intros [] (_ & _ & [h Hh]). unfold with_hooks. by rewrite Hh, (su_cells0 _ _ Hh). Qed.

Lemma same_leave ts w : same w (leave (app w) ts w).
Proof. by unfold same. Qed.

(** While the handler runs its server is watched. *)
Lemma task_select i cell x sched m q (g : World → option (World * prog E World (E + bytes))) (rest : (E + bytes) + unit → future bytes) :
  (∀ w, g w = Some (with_app (push_log x (app w)) w, Done (Ok (inr (reply_bytes x))))) →
  true ∈ sched → watching (client_number i) "test_server" 0 m q →
  task_ok i cell x Logged (rest (inl (inr (reply_bytes x)))) →
  task_ok i cell x Dispatched (select sched (Act g) q ≫= rest).
Proof.
  intros Hg. revert m q. induction sched as [|b sched IH]; intros m q Hin Hq Hrest; [by apply not_elem_of_nil in Hin|].
  destruct q as [oq|h]; [inversion Hq as [[]|]|]. destruct b; apply task_act; intros n w Hs Hr.
  - eexists _, _, Logged. split; [cbn; rewrite Hg; reflexivity|]. split; [by right; right|]. by destruct sched.
  - assert (true ∈ sched) as Hin' by (apply elem_of_cons in Hin; by destruct Hin).
    destruct (h w) as [[w' q']|] eqn:Hh.
    + assert (∃ ts k, w' = leave (app w) ts w ∧ watching (client_number i) "test_server" 0 k q') as (ts & k & -> & Hq').
      { destruct (watching_step _ _ _ _ _ _ _ _ Hq (ready_alive _ _ _ _ Hs Hr) Hh) as [[[ts ->] ?]|[[ts ->] ?]]; by eexists _, _. }
      eexists _, _, Dispatched. split; [reflexivity|]. split; [left; split; [done|apply same_leave]|by eapply IH].
    + eexists _, _, Dispatched. split; [reflexivity|]. split; [left; split; [done|apply same_refl]|by eapply IH].
Qed.

Lemma junk2_handler x : i64 x → ∃ g, result (junk_factories tt "handler2" (args_bytes x) : future bytes) = Act g ∧
  ∀ w, g w = Some (with_app (push_log x (app w)) w, Done (Ok (inr (reply_bytes x)))).
Proof.
  intros Hx. unfold junk_factories, service_handler.
  change (find _ junk_service) with (Some ("handler2", junk_rpc_of (C := C) (T := nat) junk_handler2)).
  cbn [decode_input junk_rpc_of]. rewrite (proj2 (args_bytes_ok x Hx)). eexists. split; [reflexivity|].
  intros w. cbn. pose proof (proj1 (reply_bytes_ok x)) as Hb. unfold reply2 in Hb. by rewrite Hb.
Qed.

Definition call_rpc (i cell : nat) (x : Z) (k : nat) : Rpc := mkRpc (client_number i) "junk.handler2" (Some (args_bytes x)) (Some k) cell.

Lemma task_start d i cell x k : i64 x → true ∈ d_sched d → task_ok i cell x Fresh (network_process_rpc d (call_rpc i cell x k)).
Proof.
  intros Hx Hd. unfold network_process_rpc.
  eapply (task_look _ _ _ _ _ _ (λ _, True)); [intros n w Hs Hr; by eexists _, _|]. intros [] _.
  eapply (task_look _ _ _ _ _ _ (λ info, ei_enabled info = true ∧ ei_server info = Some 0 ∧ ei_reliable info = true)).
  { intros n w Hs Hr. eexists _, _. split; [by eapply (end_info_attached _ 0 (suit_core n)), ready_attached|].
    split; [apply same_refl|]. cbn. by rewrite (su_reliable _ _ Hs). }
  intros info (-> & -> & ->). cbn [negb andb]. cbn zeta. unfold process_rpc. cbn [req call_rpc].
  change (task_ok i cell x Fresh (mret tt ≫= ?k)) with (task_ok i cell x Fresh (k tt)). cbn beta.
  eapply (task_look _ _ _ _ _ _ (λ _, True)).
  { intros n w Hs Hr. exists tt, w. split; [by apply (ready_hooks i cell n)|]. split; [apply same_refl|done]. }
  intros [] _.
  eapply (task_look _ _ _ _ _ _ (λ sc, core_name sc = "test_server" ∧ core_id sc = 0%N)).
  { intros n w Hs Hr. exists (suit_core n), w. split; [|split; [apply same_refl|done]]. unfold get_core. by rewrite (su_cores _ _ Hs). }
  intros sc [Hn Hi]. rewrite Hn, Hi. eapply (task_atomic _ _ _ _ Dispatched).
  intros n w Hs Hr. eexists _, _. split; [|split; [by right; left|]].
  { apply (dispatch_ok 0 (suit_core n) "junk" "handler2" [] tt); [by rewrite (su_cores _ _ Hs)|done|done]. }
  destruct (junk2_handler x Hx) as (g & Hg & Hgw). cbn beta.
  change (handler tt "handler2" (args_bytes x)) with (junk_factories (C := C) (T := nat) tt "handler2" (args_bytes x)). rewrite Hg.
  eapply task_select; [exact Hgw|exact Hd|constructor|].
  eapply (task_look _ _ _ _ _ _ (λ b, b = reply_bytes x)).
  { intros n' w' Hs' Hr'. exists (reply_bytes x), w'. split; [|split; [apply same_refl|done]].
    rewrite (ready_hooks i cell n') by done. done. }
  intros b ->. eapply (task_look _ _ _ _ _ _ (λ dead, dead = false)).
  { intros n' w' Hs' Hr'. eexists _, _. split; [by eapply ready_alive|]. split; [apply same_refl|done]. }
  intros dead ->. destruct (ei_long_reordering info && _); [|apply task_done].
  eapply (task_look _ _ _ _ _ _ (λ _, True)); [intros n' w' Hs' Hr'; by eexists _, _|]. intros [] _. apply task_done.
Qed.

(** ** The invariant *)

(** The arguments of the calls of each client; each of the [n0] clients makes [m] calls. *)
Context (xs : nat → list Z) (n0 m : nat).
Context {load : Load xs n0 m}.

Definition cl_ok (i : nat) (cl : Caller) (calls : list Call) w : Prop :=
  match cl with
  | Absent | Finished => True
  | Created cell => is_Some (cells w !! cell)
  | Enabled cell => is_Some (cells w !! cell) ∧ enabled (endpoints (core w)) !! client_number i = Some true
  | Idle cell n => ready i cell w ∧ n ≤ m
  | Busy cell n k => ready i cell w ∧ ∃ x ph, xs i !! n = Some x ∧ calls !! k = Some (mkCall i x ph)
  end.

(** How many calls it has made. *)
Definition made (cl : Caller) : nat :=
  match cl with Idle _ n => n | Busy _ n _ => S n | Finished => m | _ => 0 end.

Definition reply_to (c : Call) : oneshot (E + bytes) :=
  if decide (ca_phase c = Answered) then Sent (inr (reply_bytes (ca_x c))) else Waiting.

Definition logged_x (c : Call) : option Z := if decide (logged c) then Some (ca_x c) else None.

Record inv (cls : list Caller) (calls : list Call) (sys : System) : Prop := {
  in_suit : suit (N.of_nat (length (filter dispatched calls))) (world sys);
  in_receiver : receiver (world sys) = true;
  in_log : log2 (app (world sys)) ≡ₚ omap logged_x calls;
  in_oneshots : oneshots (world sys) = reply_to <$> calls;
  in_owned : calls_ok sys;
  in_requests : ∀ rpc, rpc ∈ incoming (world sys) → ∃ i cell n x k, rpc = call_rpc i cell x k ∧
    calls !! k = Some (mkCall i x Fresh) ∧ cls !! i = Some (Busy cell n k) ∧ i64 x;
  in_tasks : ∀ k p, (k, p) ∈ tasks sys → ∃ i cell n x ph, calls !! k = Some (mkCall i x ph) ∧
    cls !! i = Some (Busy cell n k) ∧ ph ≠ Answered ∧ task_ok i cell x ph p;
  in_callers : ∀ i cl, cls !! i = Some cl → cl_ok i cl calls (world sys);
  in_made : length calls = sum_list (made <$> cls);
  in_number : length cls = n0;
}.

Lemma made_le i cl calls w : cl_ok i cl calls w → made cl ≤ m.
Proof.
  pose proof (load_length i) as Hl. destruct cl as [| | |cell n|cell n k|]; simpl; try lia.
  intros (_ & x & ph & Hx & _). apply lookup_lt_Some in Hx. lia.
Qed.

Lemma inv_bound cls calls sys : inv cls calls sys → length calls ≤ n0 * m.
Proof.
  intros Hi. rewrite (in_made _ _ _ Hi), <-(in_number _ _ _ Hi). pose proof (in_callers _ _ _ Hi) as Hc.
  rewrite <-(length_fmap made cls). apply sum_list_le, Forall_fmap, Forall_lookup_2.
  intros i cl Hcl. by eapply made_le, Hc.
Qed.

Lemma same_number i j (cls : list Caller) cl cl' : length cls = n0 → cls !! i = Some cl → cls !! j = Some cl' → client_number i = client_number j → i = j.
Proof using load. intros Hl Hi%lookup_lt_Some Hj%lookup_lt_Some. pose proof load_clients. apply client_number_inj; lia. Qed.

Lemma polite_junk f name buf : ensures polite (junk_factories f name buf : future bytes).
Proof.
  pose proof (junk_still (C := C) (T := nat) f name buf) as Hs. revert Hs. generalize (junk_factories (C := C) (T := nat) f name buf) as p.
  intros p. induction p as [o|g IH] using prog_ind; intros Hp; [constructor|]. apply ensures_intro. intros w w' p' Hg.
  destruct (ensures_inv _ _ _ _ _ Hp Hg) as [Hq Hp']. split; [by apply still_polite|by eapply IH].
Qed.

Lemma polite_hooks c fq buf : polite_op (before_dispatch c fq buf : Mn unit).
Proof. intros w. apply still_polite. cbn. unfold gets, mbind, M_bind. by destruct (drop_req (app w)). Qed.

Lemma polite_after_hooks c fq a : polite_op (after_dispatch c fq a : Mn bytes).
Proof. intros w. apply still_polite. cbn. unfold gets, mbind, M_bind. destruct (drop_resp (app w)), a; done. Qed.

Lemma owned_act a sys sys' : polite_action a → calls_ok sys → net_act a sys = Some sys' → calls_ok (sys' : System).
Proof.
  apply calls_ok_act; [intros f nm buf; apply polite_junk|intros; apply polite_hooks|intros; apply polite_after_hooks].
Qed.

(** What a client is depends on the network only through the endpoints, and on the phases
    of calls not at all. *)
Lemma cl_ok_same i cl calls calls' w w' : cl_ok i cl calls w →
  endpoints (core w') = endpoints (core w) → cells w `prefix_of` cells w' →
  (∀ k j x ph, calls !! k = Some (mkCall j x ph) → ∃ ph', calls' !! k = Some (mkCall j x ph')) → cl_ok i cl calls' w'.
Proof.
  intros Hc He Hcells Hsub. assert (∀ c, is_Some (cells w !! c) → is_Some (cells w' !! c)) as Hcell.
  { intros c [h Hh]. exists h. by eapply prefix_lookup_Some. }
  destruct cl as [|cell|cell|cell n|cell n k|]; simpl in *; rewrite ?He; try done.
  - by apply Hcell.
  - destruct Hc as [? ?]. split; [by apply Hcell|done].
  - destruct Hc as [(? & ? & ?) ?]. unfold ready. rewrite He. split_and!; try done. by apply Hcell.
  - destruct Hc as [(? & ? & ?) (x & ph & Hx & [ph' Hk]%Hsub)]. unfold ready. rewrite He.
    split_and!; try done; [by apply Hcell|]. by exists x, ph'.
Qed.

(** ** The network *)

(** A call gets on. *)
Lemma phase_calls k i x ph ph' (calls : list Call) : calls !! k = Some (mkCall i x ph) →
  ∀ k0 j x0 ph0, calls !! k0 = Some (mkCall j x0 ph0) → ∃ ph1, <[k := mkCall i x ph']> calls !! k0 = Some (mkCall j x0 ph1).
Proof.
  intros Hk k0 j x0 ph0 H0. destruct (decide (k0 = k)) as [->|Hne].
  - rewrite Hk in H0. injection H0 as <- <- <-. exists ph'. rewrite list_lookup_insert_eq; [done|by eapply lookup_lt_Some].
  - exists ph0. by rewrite list_lookup_insert_ne.
Qed.

(** A task moves on. *)
Lemma inv_move cls calls w ts j k i cell n x ph f w' p' ph' : inv cls calls (mkSystem w ts) →
  ts !! j = Some (k, Act f) → calls !! k = Some (mkCall i x ph) → cls !! i = Some (Busy cell n k) → ph ≠ Answered →
  f w = Some (w', p') → moves x ph w ph' w' → task_ok i cell x ph' p' → calls_ok (mkSystem w' (<[j := (k, p')]> ts)) →
  inv cls (<[k := mkCall i x ph']> calls) (mkSystem w' (<[j := (k, p')]> ts)) ∧ channel (app w') = channel (app w) ∧ spawned (app w') = spawned (app w).
Proof.
  intros Hi Hj Hk Hcl Hph Hf Hm Hp Hown.
  assert (endpoints (core w') = endpoints (core w) ∧ receiver w' = receiver w ∧ incoming w' = incoming w ∧ cells w' = cells w ∧
    oneshots w' = oneshots w ∧ poisoned (core w') = poisoned (core w) ∧ reliable (core w') = reliable (core w) ∧ ph' ≠ Answered ∧
    channel (app w') = channel (app w) ∧ spawned (app w') = spawned (app w)) as (He & Hr & Hinc & Hce & Hos & Hpo & Hre & Hph' & Hch & Hsp).
  { destruct Hm as [[-> (He & Hpo & Hre & Hinc & Hr & _ & Hce & Hos & Ha)]|[(-> & -> & ->)|(-> & -> & ->)]]; [by rewrite Ha|done..]. }
  split; [|done]. pose proof (lookup_lt_Some _ _ _ Hk) as Hlt.
  split; cbn [world tasks].
  - pose proof (length_filter_insert dispatched calls k _ (mkCall i x ph') Hk) as Hlen. pose proof (inv_bound _ _ _ Hi) as Hb. pose proof load_calls as Hload.
    destruct (in_suit _ _ _ Hi) as []. cbn [world] in *. split; rewrite ?He, ?Hce, ?Hpo, ?Hre; try done.
    destruct Hm as [[-> (_ & _ & _ & _ & _ & -> & _)]|[(-> & -> & ->)|(-> & -> & ->)]].
    + rewrite su_cores0. do 2 f_equal. f_equal. lia.
    + rewrite decide_False in Hlen by (intros Hd; by apply Hd). rewrite decide_True in Hlen by done.
      cbn. rewrite su_cores0. unfold bump, suit_core. cbn. do 2 f_equal. unfold fetch_add_1. rewrite N.mod_small; [lia|].
      assert (length (filter dispatched (<[k := mkCall i x Dispatched]> calls)) ≤ length calls); [|lia].
      rewrite <-(length_insert calls k (mkCall i x Dispatched)). apply length_filter.
    + rewrite !decide_True in Hlen by done. cbn. rewrite su_cores0. do 2 f_equal. f_equal. lia.
  - rewrite Hr. apply (in_receiver _ _ _ Hi).
  - destruct (omap_insert_Permutation logged_x calls k _ Hk) as (rest & Hrest & Hins). rewrite Hins.
    pose proof (in_log _ _ _ Hi) as Hlog. cbn [world] in Hlog. rewrite Hrest in Hlog.
    destruct Hm as [[-> (_ & _ & _ & _ & _ & _ & _ & _ & ->)]|[(-> & -> & ->)|(-> & -> & ->)]]; [done|done|].
    cbn. rewrite Hlog. unfold logged_x, logged. cbn. by rewrite Permutation_app_comm.
  - pose proof (in_oneshots _ _ _ Hi) as Ho. cbn [world] in Ho. rewrite Hos, Ho, list_fmap_insert, (list_insert_id (reply_to <$> calls)); [done|].
    rewrite list_lookup_fmap, Hk. cbn. unfold reply_to. cbn. by rewrite !decide_False.
  - exact Hown.
  - intros rpc Hrpc. rewrite Hinc in Hrpc. destruct (in_requests _ _ _ Hi rpc Hrpc) as (i' & cell' & n' & x' & k' & -> & Hk' & Hcl' & Hx').
    exists i', cell', n', x', k'. split_and!; try done. rewrite list_lookup_insert_ne; [done|]. intros <-.
    pose proof (co_nodup _ (in_owned _ _ _ Hi)) as Hnd. unfold owners in Hnd. cbn [world tasks] in Hnd. apply NoDup_app in Hnd as (_ & Hdis & _).
    apply (Hdis k); [apply list_elem_of_omap; by eexists|]. apply list_elem_of_fmap. exists (k, Act f). split; [done|by eapply list_elem_of_lookup_2].
  - intros k' q Hq. pose proof (co_nodup _ (in_owned _ _ _ Hi)) as Hnd. unfold owners in Hnd. cbn [world tasks] in Hnd. apply NoDup_app in Hnd as (_ & _ & Hnd).
    apply list_elem_of_lookup in Hq as [j' Hj']. destruct (decide (j' = j)) as [->|Hne].
    + rewrite list_lookup_insert_eq in Hj' by (by eapply lookup_lt_Some). injection Hj' as <- <-.
      exists i, cell, n, x, ph'. split_and!; try done. by rewrite list_lookup_insert_eq.
    + rewrite list_lookup_insert_ne in Hj' by done. assert (k' ≠ k) as Hkk.
      { intros ->. apply Hne. eapply NoDup_lookup; [exact Hnd|by rewrite list_lookup_fmap, Hj'|by rewrite list_lookup_fmap, Hj]. }
      destruct (in_tasks _ _ _ Hi k' q) as (i' & cell' & n' & x' & ph1 & ? & ? & ? & ?); [by eapply list_elem_of_lookup_2|].
      exists i', cell', n', x', ph1. split_and!; try done. by rewrite list_lookup_insert_ne.
  - intros i' cl' Hcl'. eapply cl_ok_same; [by apply (in_callers _ _ _ Hi)|exact He|by rewrite Hce|by eapply phase_calls].
  - rewrite length_insert. apply (in_made _ _ _ Hi).
  - apply (in_number _ _ _ Hi).
Qed.

Lemma calls_length cls calls sys : inv cls calls sys → length (oneshots (world sys)) = length calls.
Proof. intros Hi. by rewrite (in_oneshots _ _ _ Hi), length_fmap. Qed.

(** A task is over: its reply is sent. *)
Lemma inv_answer cls calls w ts j k p : inv cls calls (mkSystem w ts) → ts !! j = Some (k, p) →
  ∀ o, p = Done o → calls_ok (mkSystem (send_answer k o w) (delete j ts)) →
  ∃ calls', inv cls calls' (mkSystem (send_answer k o w) (delete j ts)).
Proof.
  intros Hi Hj o -> Hown. destruct (in_tasks _ _ _ Hi k (Done o)) as (i & cell & n & x & ph & Hk & Hcl & Hph & Ht); [by eapply list_elem_of_lookup_2|].
  inversion Ht; subst. pose proof (co_nodup _ (in_owned _ _ _ Hi)) as Hnd. unfold owners in Hnd. cbn [world tasks] in Hnd.
  apply NoDup_app in Hnd as (_ & Hdis & Hnd). exists (<[k := mkCall i x Answered]> calls).
  pose proof (lookup_lt_Some _ _ _ Hk) as Hlt. split; cbn [world tasks].
  - pose proof (length_filter_insert dispatched calls k _ (mkCall i x Answered) Hk) as Hlen. rewrite !decide_True in Hlen by done.
    destruct (in_suit _ _ _ Hi). split; try done. cbn [world] in *. cbn. rewrite su_cores0. do 2 f_equal. f_equal. lia.
  - apply (in_receiver _ _ _ Hi).
  - destruct (omap_insert_Permutation logged_x calls k _ Hk) as (rest & Hrest & Hins). rewrite Hins.
    pose proof (in_log _ _ _ Hi) as Hlog. cbn [world] in Hlog. rewrite Hrest in Hlog. exact Hlog.
  - pose proof (in_oneshots _ _ _ Hi) as Ho. cbn [world] in Ho. cbn. by rewrite Ho, list_fmap_insert.
  - exact Hown.
  - intros rpc Hrpc. destruct (in_requests _ _ _ Hi rpc Hrpc) as (i' & cell' & n' & x' & k' & -> & Hk' & Hcl' & Hx').
    exists i', cell', n', x', k'. split_and!; try done. rewrite list_lookup_insert_ne; [done|]. intros <-. congruence.
  - intros k' q Hq. assert (k' ≠ k) as Hkk.
    { intros ->. apply list_elem_of_lookup in Hq as [j' Hj'].
      assert (ts !! (if decide (j' < j) then j' else S j') = Some (k, q)) as Hl.
      { case_decide; [by rewrite list_lookup_delete_lt in Hj'|by rewrite list_lookup_delete_ge in Hj' by lia]. }
      assert (j = if decide (j' < j) then j' else S j'); [|case_decide; lia].
      eapply NoDup_lookup; [exact Hnd|by rewrite list_lookup_fmap, Hj|by rewrite list_lookup_fmap, Hl]. }
    destruct (in_tasks _ _ _ Hi k' q) as (i' & cell' & n' & x' & ph1 & ? & ? & ? & ?).
    { rewrite delete_take_drop in Hq. cbn [tasks]. rewrite <-(take_drop_middle _ _ _ Hj). set_solver. }
    exists i', cell', n', x', ph1. split_and!; try done. by rewrite list_lookup_insert_ne.
  - intros i' cl' Hcl'. eapply cl_ok_same; [by apply (in_callers _ _ _ Hi)|done|done|by eapply phase_calls].
  - rewrite length_insert. apply (in_made _ _ _ Hi).
  - apply (in_number _ _ _ Hi).
Qed.

(** Every action of the network keeps the invariant. *)
Lemma inv_net cls calls sys a sys' : inv cls calls sys → fair a → match a with TakesIn _ | Polls _ => True | Runs _ => False end →
  match a with TakesIn d => net_act (Accept d) sys | Polls j => net_act (Poll j) sys | Runs _ => None end = Some sys' →
  ∃ calls', inv cls calls' sys' ∧ channel (app (world sys')) = channel (app (world sys)) ∧ spawned (app (world sys')) = spawned (app (world sys)).
Proof.
  intros Hi Hfair Ha Hact. destruct sys as [w ts]. destruct a as [d|j|j]; [| |done].
  - pose proof (owned_act (Accept d) _ _ I (in_owned _ _ _ Hi) Hact) as Hown. cbn in Hact. destruct (incoming w) as [|rpc q] eqn:Hq; [done|].
    destruct (in_requests _ _ _ Hi rpc) as (i & cell & n & x & k & -> & Hk & Hcl & Hx); [cbn [world]; rewrite Hq; by left|].
    cbn in Hact. injection Hact as <-. exists calls. split; [|done]. destruct Hi. cbn [world tasks] in *.
    split; cbn [world tasks]; try done.
    + by destruct in_suit0.
    + intros rpc Hrpc. apply in_requests0. cbn in Hrpc. rewrite Hq. by right.
    + intros k' p [Hp|[= -> ->]%list_elem_of_singleton]%elem_of_app; [by apply in_tasks0|].
      exists i, cell, n, x, Fresh. split_and!; try done. by apply task_start.
  - cbn in Hact. destruct (ts !! j) as [[k [o|f]]|] eqn:Hj; [| |done].
    + pose proof (owned_act (Poll j) (mkSystem w ts) sys' I (in_owned _ _ _ Hi)) as Hown. cbn in Hown. rewrite Hj in Hown.
      injection Hact as <-. specialize (Hown eq_refl).
      destruct (inv_answer _ _ _ _ _ _ _ Hi Hj o eq_refl Hown) as [calls' Hi']. by exists calls'.
    + destruct (f w) as [[w' p']|] eqn:Hf; [|done].
      pose proof (owned_act (Poll j) (mkSystem w ts) sys' I (in_owned _ _ _ Hi)) as Hown. cbn in Hown. rewrite Hj, Hf in Hown.
      injection Hact as <-. specialize (Hown eq_refl).
      destruct (in_tasks _ _ _ Hi k (Act f)) as (i & cell & n & x & ph & Hk & Hcl & Hph & Ht); [by eapply list_elem_of_lookup_2|].
      inversion Ht as [|? ? Hstep]; subst.
      assert (ready i cell w) as Hr by (destruct (in_callers _ _ _ Hi _ _ Hcl); done).
      destruct (Hstep _ _ (in_suit _ _ _ Hi) Hr) as (w1 & p1 & ph' & Hf' & Hm & Hp'). cbn [world] in Hf'. rewrite Hf in Hf'. injection Hf' as <- <-.
      exists (<[k := mkCall i x ph']> calls). by eapply inv_move.
Qed.

(** The network can go on unless every call has its reply. *)
Lemma inv_idle cls calls sys : inv cls calls sys →
  (∃ a sys', fair a ∧ match a with TakesIn d => net_act (Accept d) sys | Polls j => net_act (Poll j) sys | Runs _ => None end = Some sys') ∨
  ∀ k c, calls !! k = Some c → ca_phase c = Answered.
Proof.
  intros Hi. destruct sys as [w ts]. destruct (incoming w) as [|rpc q] eqn:Hq.
  - destruct ts as [|[k p] ts].
    + right. intros k c Hk. apply dec_stable. intros Hc. pose proof (co_waiting _ (in_owned _ _ _ Hi) k) as Hw.
      unfold owners in Hw. cbn [world tasks] in Hw. rewrite Hq in Hw. apply (not_elem_of_nil k). apply Hw.
      pose proof (in_oneshots _ _ _ Hi) as Ho. cbn [world] in Ho. rewrite Ho, list_lookup_fmap, Hk. cbn. unfold reply_to. by rewrite decide_False.
    + left. exists (Polls 0). destruct (in_tasks _ _ _ Hi k p) as (i & cell & n & x & ph & Hk & Hcl & Hph & Ht); [by left|].
      destruct Ht as [|ph f Hstep]; [by eexists|].
      assert (ready i cell w) as Hr by (destruct (in_callers _ _ _ Hi _ _ Hcl); done).
      destruct (Hstep _ _ (in_suit _ _ _ Hi) Hr) as (w1 & p1 & ph' & Hf' & _). cbn [world] in Hf'. cbn. rewrite Hf'. by eexists.
  - left. exists (TakesIn (mkDraws 0 0 0 0 0 0 0 [true])).
    destruct (in_requests _ _ _ Hi rpc) as (i & cell & n & x & k & -> & _); [cbn [world]; rewrite Hq; by left|].
    cbn. rewrite Hq. cbn. eexists. split; [by left|done].
Qed.

(** ** The clients *)

Lemma lookup_insert_other {A} (l : list A) i j x y : l !! i = Some x → l !! j = Some y → y ≠ x → <[i := x]> l !! j = l !! j.
Proof. intros Hi Hj Hne. apply list_lookup_insert_ne. congruence. Qed.

(** A client that does not wait for a reply becomes another one. *)
Lemma inv_caller cls calls sys i cl cl' : inv cls calls sys → cls !! i = Some cl →
  (∀ cell n k, cl = Busy cell n k → ∃ x, calls !! k = Some (mkCall i x Answered)) →
  cl_ok i cl' calls (world sys) → made cl' = made cl → inv (<[i := cl']> cls) calls sys.
Proof.
  intros Hi Hcl Hnot Hok Hmade. pose proof (lookup_lt_Some _ _ _ Hcl) as Hlt.
  assert (∀ i' cell n k x ph, cls !! i' = Some (Busy cell n k) → calls !! k = Some (mkCall i' x ph) → ph ≠ Answered → i' ≠ i) as Hne.
  { intros i' cell n k x ph Hb Hk Hph ->. rewrite Hcl in Hb. injection Hb as ->. destruct (Hnot _ _ _ eq_refl) as [x' Hx]. congruence. }
  pose proof Hi as Hi'. destruct Hi. split; try done.
  - intros rpc Hrpc. destruct (in_requests0 rpc Hrpc) as (i' & cell & n & x & k & ? & ? & ? & ?).
    exists i', cell, n, x, k. split_and!; try done. rewrite list_lookup_insert_ne; [done|]. intros <-. by eapply Hne.
  - intros k p Hp. destruct (in_tasks0 k p Hp) as (i' & cell & n & x & ph & ? & ? & ? & ?).
    exists i', cell, n, x, ph. split_and!; try done. rewrite list_lookup_insert_ne; [done|]. intros <-. by eapply Hne.
  - intros i' cl0. destruct (decide (i' = i)) as [->|Hn].
    + rewrite list_lookup_insert_eq by done. by intros [= <-].
    + rewrite list_lookup_insert_ne by done. apply in_callers0.
  - rewrite in_made0, list_fmap_insert. pose proof (sum_list_insert (made <$> cls) i (made cl) (made cl')) as Hs.
    rewrite list_lookup_fmap, Hcl in Hs. specialize (Hs eq_refl). lia.
  - by rewrite length_insert.
Qed.

(** The set-up of the client [i] touches nothing of the others. *)
Record sets_up (i : nat) w w' : Prop := {
  se_lock : poisoned (core w') = poisoned (core w);
  se_reliable : reliable (core w') = reliable (core w);
  se_servers : servers (endpoints (core w')) = servers (endpoints (core w));
  se_enabled : ∀ nm, nm ≠ client_number i → enabled (endpoints (core w')) !! nm = enabled (endpoints (core w)) !! nm;
  se_connected : ∀ nm, nm ≠ client_number i → connections (endpoints (core w')) !! nm = connections (endpoints (core w)) !! nm;
  se_receiver : receiver w' = receiver w;
  se_incoming : incoming w' = incoming w;
  se_cores : cores w' = cores w;
  se_cells : ∃ l, cells w' = cells w ++ l ∧ Forall (λ h, h = mkHookCell None false) l;
  se_oneshots : oneshots w' = oneshots w;
  se_app : app w' = app w;
}.

Lemma inv_sets_up cls calls w ts i cl cl' w' : inv cls calls (mkSystem w ts) → cls !! i = Some cl →
  (cl = Absent ∨ (∃ c, cl = Created c) ∨ ∃ c, cl = Enabled c) → sets_up i w w' →
  cl_ok i cl' calls w' → made cl' = 0 → inv (<[i := cl']> cls) calls (mkSystem w' ts).
Proof.
  intros Hi Hcl Hst Hse Hok Hmade. destruct (se_cells _ _ _ Hse) as (l & Hcells & Hl).
  assert (∀ j cl0, cls !! j = Some cl0 → j ≠ i → cl_ok j cl0 calls w') as Hothers.
  { intros j cl0 Hj Hne. pose proof (in_callers _ _ _ Hi j cl0 Hj) as Hc. cbn [world] in Hc.
    assert (client_number j ≠ client_number i) as Hnm by (intros He; apply Hne; by eapply same_number; [apply (in_number _ _ _ Hi)|..]).
    assert (∀ c, is_Some (cells w !! c) → is_Some (cells w' !! c)) as Hcell.
    { intros c [h Hh]. exists h. rewrite Hcells. by apply lookup_app_l_Some. }
    destruct cl0 as [|c|c|c n|c n k|]; simpl in *; try done; [by apply Hcell| | |]; unfold ready in *;
      rewrite (se_enabled _ _ _ Hse), ?(se_connected _ _ _ Hse) by done; naive_solver. }
  pose proof Hi as Hi0. destruct Hi. cbn [world tasks] in *.
  assert (∀ j cell n k, cls !! j = Some (Busy cell n k) → j ≠ i) as Hne.
  { intros j cell n k Hj ->. rewrite Hcl in Hj. naive_solver. }
  split; cbn [world tasks]; rewrite ?(se_receiver _ _ _ Hse), ?(se_oneshots _ _ _ Hse), ?(se_app _ _ _ Hse); try done.
  - destruct in_suit0. split; rewrite ?(se_lock _ _ _ Hse), ?(se_reliable _ _ _ Hse), ?(se_servers _ _ _ Hse), ?(se_cores _ _ _ Hse); try done.
    intros c h Hh. rewrite Hcells in Hh. apply lookup_app_Some in Hh as [Hh|[_ Hh]]; [by eapply su_cells0|].
    rewrite Forall_forall in Hl. by eapply Hl, list_elem_of_lookup_2.
  - eapply calls_ok_polite; [exact in_owned0| |done|apply in_owned0].
    apply still_polite. split; [apply (se_incoming _ _ _ Hse)|apply (se_oneshots _ _ _ Hse)].
  - intros rpc Hrpc. rewrite (se_incoming _ _ _ Hse) in Hrpc. destruct (in_requests0 rpc Hrpc) as (i' & cell & n & x & k & ? & ? & Hb & ?).
    exists i', cell, n, x, k. split_and!; try done. rewrite list_lookup_insert_ne; [done|]. intros <-. by eapply Hne.
  - intros k p Hp. destruct (in_tasks0 k p Hp) as (i' & cell & n & x & ph & ? & Hb & ? & ?).
    exists i', cell, n, x, ph. split_and!; try done. rewrite list_lookup_insert_ne; [done|]. intros <-. by eapply Hne.
  - intros i' cl0. destruct (decide (i' = i)) as [->|Hn].
    + rewrite list_lookup_insert_eq by (by eapply lookup_lt_Some). by intros [= <-].
    + rewrite list_lookup_insert_ne by done. intros Hj. by apply Hothers.
  - rewrite in_made0, list_fmap_insert. pose proof (sum_list_insert (made <$> cls) i (made cl) (made cl')) as Hs.
    rewrite list_lookup_fmap, Hcl in Hs. specialize (Hs eq_refl).
    assert (made cl = 0) by (destruct Hst as [->|[[c ->]|[c ->]]]; done). lia.
  - by rewrite length_insert.
Qed.

Definition numbered (i cell : nat) : Client := mkClient (client_number i) cell.

Lemma inv_create cls calls w ts i : inv cls calls (mkSystem w ts) → cls !! i = Some Absent →
  ∃ cell w', create_client (client_number i) w = (Ok (numbered i cell), w') ∧ app w' = app w ∧
    inv (<[i := Created cell]> cls) calls (mkSystem w' ts).
Proof.
  intros Hi Hcl. destruct (in_suit _ _ _ Hi) as []. cbn [world] in *.
  exists (length (cells w)). eexists. split; [|split]; [unfold create_client, locked; by rewrite su_lock0|done|].
  eapply inv_sets_up; [exact Hi|exact Hcl|by left| |cbn; by rewrite lookup_app_r, Nat.sub_diag|done].
  split; try done; cbn.
  - intros nm Hnm. by rewrite lookup_insert_ne.
  - intros nm Hnm. by rewrite lookup_insert_ne.
  - eexists. split; [done|by constructor].
Qed.

Lemma inv_enable cls calls w ts i cell : inv cls calls (mkSystem w ts) → cls !! i = Some (Created cell) →
  ∃ w', enable (client_number i) true w = (Ok tt, w') ∧ app w' = app w ∧
    inv (<[i := Enabled cell]> cls) calls (mkSystem w' ts).
Proof.
  intros Hi Hcl. destruct (in_suit _ _ _ Hi) as []. pose proof (in_callers _ _ _ Hi _ _ Hcl) as Hc. cbn [world cl_ok] in *.
  eexists. split; [|split]; [unfold enable, locked; by rewrite su_lock0|done|].
  eapply inv_sets_up; [exact Hi|exact Hcl|right; left; by eexists| |cbn; by rewrite lookup_insert_eq|done].
  split; try done; cbn.
  - intros nm Hnm. by rewrite lookup_insert_ne.
  - exists []. by rewrite app_nil_r.
Qed.

Lemma inv_connect cls calls w ts i cell : inv cls calls (mkSystem w ts) → cls !! i = Some (Enabled cell) →
  ∃ w', connect (client_number i) "test_server" w = (Ok tt, w') ∧ app w' = app w ∧
    inv (<[i := Idle cell 0]> cls) calls (mkSystem w' ts).
Proof.
  intros Hi Hcl. destruct (in_suit _ _ _ Hi) as []. pose proof (in_callers _ _ _ Hi _ _ Hcl) as Hc. cbn [world cl_ok] in *.
  eexists. split; [|split]; [unfold connect, locked; by rewrite su_lock0|done|].
  eapply inv_sets_up; [exact Hi|exact Hcl|right; right; by eexists| | |done].
  - split; try done; cbn.
    + intros nm Hnm. by rewrite lookup_insert_ne.
    + exists []. by rewrite app_nil_r.
  - destruct Hc as [? ?]. split; [|lia]. unfold ready. cbn. by rewrite lookup_insert_eq.
Qed.

(** The future of a call whose reply comes through the channel [k]. *)
Definition reply_future (k : nat) : future JunkReply :=
  res ← receive k;
  match res with
  | Some (inr rsp) => match decode_reply rsp with
                      | inr a => mret a
                      | inl e => Done (Err (Decode e))
                      end
  | Some (inl e) => Done (Err e)
  | None => Done (Err Recv)
  end.

Lemma inv_call cls calls w ts i cell n x : inv cls calls (mkSystem w ts) → cls !! i = Some (Idle cell n) → xs i !! n = Some x →
  ∃ w', call2 (numbered i cell) x w = (Ok (reply_future (length calls)), w') ∧ app w' = app w ∧
    inv (<[i := Busy cell n (length calls)]> cls) (calls ++ [mkCall i x Fresh]) (mkSystem w' ts).
Proof.
  intros Hi Hcl Hx. assert (i64 x) as H64.
  { assert (i < n0) as Hlt by (rewrite <-(in_number _ _ _ Hi); by eapply lookup_lt_Some).
    pose proof (load_args i Hlt) as Hf. rewrite Forall_forall in Hf. by eapply Hf, list_elem_of_lookup_2. }
  pose proof (in_callers _ _ _ Hi _ _ Hcl) as Hc. pose proof (calls_length _ _ _ Hi) as Hlen. cbn [world cl_ok] in *.
  pose proof (call_polite encode_args decode_reply (numbered i cell) "junk.handler2" (mkJunkArgs x) w) as Hpol.
  set (w' := with_incoming (incoming w ++ [call_rpc i cell x (length calls)]) true (with_oneshots (oneshots w ++ [Waiting]) w)).
  assert (call2 (numbered i cell) x w = (Ok (reply_future (length calls)), w')) as Hcall.
  { unfold call2, service_call, call. rewrite (proj1 (args_bytes_ok x H64)). mpure. pose proof (in_receiver _ _ _ Hi) as Hr. cbn [world] in Hr.
    rewrite Hr. mpure. rewrite Hlen. reflexivity. }
  unfold call2, service_call in Hcall. change ("junk" +:+ "." +:+ "handler2") with "junk.handler2" in Hcall. rewrite Hcall in Hpol. cbn [snd] in Hpol.
  exists w'. split; [exact Hcall|]. split; [done|].
  assert (∀ k c, calls !! k = Some c → (calls ++ [mkCall i x Fresh]) !! k = Some c) as Hsub by (intros; by apply lookup_app_l_Some).
  assert (∀ j cell n k, cls !! j = Some (Busy cell n k) → j ≠ i) as Hne by (intros j cell' n' k Hj ->; congruence).
  pose proof Hi as Hi0. destruct Hi. cbn [world tasks] in *. split; cbn [world tasks].
  - rewrite filter_app, length_app, filter_cons_False by (intros Hd; by apply Hd). cbn. rewrite Nat.add_0_r. by destruct in_suit0.
  - done.
  - rewrite omap_app. cbn. by rewrite app_nil_r.
  - rewrite fmap_app. cbn. by rewrite in_oneshots0.
  - eapply calls_ok_polite; [exact in_owned0|exact Hpol|done|apply in_owned0].
  - intros rpc [Hrpc| ->%list_elem_of_singleton]%elem_of_app.
    + destruct (in_requests0 rpc Hrpc) as (i' & cell' & n' & x' & k & ? & ? & Hb & ?).
      exists i', cell', n', x', k. split_and!; try done; [by apply Hsub|]. rewrite list_lookup_insert_ne; [done|]. intros <-. by eapply Hne.
    + exists i, cell, n, x, (length calls). split_and!; try done; [by apply list_lookup_middle|].
      rewrite list_lookup_insert_eq; [done|by eapply lookup_lt_Some].
  - intros k p Hp. destruct (in_tasks0 k p Hp) as (i' & cell' & n' & x' & ph & ? & Hb & ? & ?).
    exists i', cell', n', x', ph. split_and!; try done; [by apply Hsub|]. rewrite list_lookup_insert_ne; [done|]. intros <-. by eapply Hne.
  - intros i' cl0. destruct (decide (i' = i)) as [->|Hn].
    + rewrite list_lookup_insert_eq by (by eapply lookup_lt_Some). intros [= <-]. split; [apply Hc|].
      exists x, Fresh. split; [done|by apply list_lookup_middle].
    + rewrite list_lookup_insert_ne by done. intros Hj. eapply cl_ok_same; [by apply in_callers0|done|done|]. intros k j x' ph Hk.
      exists ph. by apply Hsub.
  - rewrite length_app, in_made0, list_fmap_insert. pose proof (sum_list_insert (made <$> cls) i n (S n)) as Hs.
    rewrite list_lookup_fmap, Hcl in Hs. specialize (Hs eq_refl). simpl in *. lia.
  - by rewrite length_insert.
Qed.

(** The reply is there. *)
Lemma inv_receive cls calls sys i cell n k x : inv cls calls sys → cls !! i = Some (Busy cell n k) → calls !! k = Some (mkCall i x Answered) →
  oneshots (world sys) !! k = Some (Sent (inr (reply_bytes x))) ∧ inv (<[i := Idle cell (S n)]> cls) calls sys.
Proof.
  intros Hi Hcl Hk. split.
  - by rewrite (in_oneshots _ _ _ Hi), list_lookup_fmap, Hk.
  - eapply inv_caller; [done|exact Hcl| | |done].
    + intros ? ? ? [= <- <- <-]. by exists x.
    + destruct (in_callers _ _ _ Hi _ _ Hcl) as [Hr (y & ph & Hy & _)]. split; [done|].
      apply lookup_lt_Some in Hy. pose proof (load_length i). lia.
Qed.

Lemma inv_blocked cls calls sys i cell n k x ph : inv cls calls sys → cls !! i = Some (Busy cell n k) → calls !! k = Some (mkCall i x ph) →
  ph ≠ Answered → oneshots (world sys) !! k = Some Waiting.
Proof.
  intros Hi Hcl Hk Hph. rewrite (in_oneshots _ _ _ Hi), list_lookup_fmap, Hk. cbn. unfold reply_to. by rewrite decide_False.
Qed.

Lemma inv_finish cls calls sys i cell : inv cls calls sys → cls !! i = Some (Idle cell m) → inv (<[i := Finished]> cls) calls sys.
Proof. intros Hi Hcl. by eapply inv_caller. Qed.

(** What the threads share beside the log does not matter to the network. *)
Lemma inv_shared cls calls w ts a : inv cls calls (mkSystem w ts) → log2 a = log2 (app w) → inv cls calls (mkSystem (with_app a w) ts).
Proof.
  intros Hi Ha. destruct Hi. cbn [world tasks] in *. split; cbn [world tasks]; try done.
  - by destruct in_suit0.
  - cbn. by rewrite Ha.
  - eapply calls_ok_polite; [exact in_owned0|by apply still_polite|done|apply in_owned0].
Qed.

(** When all clients are finished the server has counted their calls, and logged them. *)
Lemma inv_finished cls calls sys : inv cls calls sys → Forall (λ cl, cl = Finished) cls →
  count "test_server" (world sys) = (Ok (N.of_nat (n0 * m)), world sys) ∧ length (log2 (app (world sys))) = n0 * m.
Proof.
  intros Hi Hf.
  assert (length calls = n0 * m) as Hlen.
  { rewrite (in_made _ _ _ Hi), <-(in_number _ _ _ Hi). clear -Hf. induction Hf as [|cl cls -> Hf IH]; [done|].
    change (m + sum_list (made <$> cls) = m + length cls * m). lia. }
  assert (∀ k c, calls !! k = Some c → ca_phase c = Answered) as Hans.
  { intros k c Hk. apply dec_stable. intros Hc. pose proof (co_waiting _ (in_owned _ _ _ Hi) k) as Hw.
    assert (k ∈ owners sys) as Ho.
    { apply Hw. rewrite (in_oneshots _ _ _ Hi), list_lookup_fmap, Hk. cbn. unfold reply_to. by rewrite decide_False. }
    assert (∃ i cell n k', cls !! i = Some (Busy cell n k')) as (i & cell & n & k' & Hb).
    { unfold owners in Ho. apply elem_of_app in Ho as [(rpc & Hr & _)%list_elem_of_omap|([k0 p] & _ & Hp)%list_elem_of_fmap].
      - destruct (in_requests _ _ _ Hi rpc Hr) as (i & cell & n & x & k' & _ & _ & Hb & _). by exists i, cell, n, k'.
      - destruct (in_tasks _ _ _ Hi k0 p Hp) as (i & cell & n & x & ph & _ & Hb & _). by exists i, cell, n, k0. }
    rewrite Forall_lookup in Hf. specialize (Hf _ _ Hb). done. }
  assert (Forall (λ c, ca_phase c = Answered) calls) as Hall by by apply Forall_lookup_2.
  split.
  - destruct (in_suit _ _ _ Hi). unfold count, locked, get_endpoints. rewrite su_lock0. mpure. rewrite su_server0. mpure.
    unfold server_count, get_core. unfold mbind, M_bind. rewrite su_cores0. cbn. do 3 f_equal. rewrite <-Hlen.
    clear -Hall. induction Hall as [|c l Hc Hl IH]; [done|]. rewrite filter_cons_True by (unfold dispatched; by rewrite Hc). simpl. by rewrite IH.
  - rewrite (in_log _ _ _ Hi), <-Hlen. clear -Hall. induction Hall as [|c l Hc Hl IH]; [done|]. cbn. unfold logged_x at 1.
    rewrite decide_True by (by right). cbn. by rewrite IH.
Qed.

(** The network after [junk_suit]. *)
Definition suit_world : World := (junk_suit (world (new_network shared0))).2.

Lemma junk_suit_ok : junk_suit (world (new_network shared0)) = (Ok 0, suit_world).
Proof. reflexivity. Qed.

Lemma inv_begins : inv (replicate n0 Absent) [] (mkSystem suit_world []).
Proof.
  split; cbn [world tasks]; try done.
  - eapply (calls_ok_polite (world (new_network shared0)) suit_world [] []); [apply (calls_ok_new shared0)|by apply still_polite|done|constructor].
  - by intros rpc ?%not_elem_of_nil.
  - by intros k p ?%not_elem_of_nil.
  - intros i cl [-> _]%lookup_replicate. done.
  - generalize n0 as n. induction n as [|n IH]; [done|]. exact IH.
  - by rewrite length_replicate.
Qed.
End pools.
