(* ===== verification/LabPoolTests.v ===== *)
(** * The tests with a pool of threads pass

    The points at which the threads of [test_concurrent_many] and [test_concurrent_one]
    can be, over the invariant of [LabPools]. *)

From S2P Require Import Prelude Conc Rpc RpcSpec LabTests LabTestsSpec LabPools.

Section workers.
Context {EncodeError DecodeError : Type} `{!Messages EncodeError DecodeError} {laws : MessagesLaws} {C : Type}.
#[local] Abbreviation E := (Error EncodeError DecodeError).
#[local] Abbreviation World := (@World EncodeError DecodeError unit unit (Shared C nat)).
#[local] Abbreviation System := (@System EncodeError DecodeError unit unit (Shared C nat)).
#[local] Abbreviation future := (prog E World).
Implicit Types (w : World).

Context (xs : nat → list Z) (n0 m : nat).
Context {load : Load xs n0 m}.
#[local] Abbreviation inv := (inv (C := C) xs n0 m).

(** ** A thread that calls *)

(** Between two calls, while it waits for a reply, and when it has sent its number. *)
Inductive calling (i : nat) : Caller → future unit → Prop :=
| calling_idle cell n : n ≤ m →
    calling i (Idle cell n) (rpcs (numbered i cell) (drop n (xs i)) n ≫= λ n, atomic (send n))
| calling_busy cell n k x : xs i !! n = Some x →
    calling i (Busy cell n k)
      ((unwrap (reply_future k) ≫= λ reply,
          assert (bool_decide (reply_x reply = "handler2-" +:+ fmt_i64 x)) ≫= λ _,
          rpcs (numbered i cell) (drop (S n) (xs i)) (S n)) ≫= λ n, atomic (send n))
| calling_done : calling i Finished (Done (Ok tt)).

Lemma calling_end i cl o : calling i cl (Done o) → o = Ok tt ∧ cl = Finished.
Proof.
  intros Hc. inversion Hc as [cell n Hn Hcl Hp|cell n k x Hx Hcl|]; subst; try done.
  exfalso. destruct (drop n (xs i)) as [|x l]; done.
Qed.

(** What the thread does: it calls, takes its reply, or sends its number. *)
Lemma calling_step cls calls w ts i cl f w' p' : inv cls calls (mkSystem w ts) → cls !! i = Some cl → calling i cl (Act f) →
  f w = Some (w', p') → ∃ cl' calls', inv (<[i := cl']> cls) calls' (mkSystem w' ts) ∧ calling i cl' p' ∧ cl ≠ Finished ∧
    spawned (app w') = spawned (app w) ∧
    ((cl' ≠ Finished ∧ channel (app w') = channel (app w)) ∨ (cl' = Finished ∧ channel (app w') = channel (app w) ++ [m])).
Proof.
  intros Hi Hcl Hc Hf. inversion Hc as [cell n Hn Hcl' Hp|cell n k x Hx Hcl'|]; subst.
  - destruct (xs i !! n) as [x|] eqn:Hx.
    + destruct (inv_call _ _ _ cls calls w ts i cell n x Hi Hcl Hx) as (w1 & Hcall & Ha & Hi').
      rewrite (drop_S _ _ _ Hx) in Hp. cbn in Hp. injection Hp as <-. rewrite Hcall in Hf. cbn in Hf. injection Hf as <- <-.
      eexists _, _. split; [exact Hi'|]. split; [by apply (calling_busy i cell n (length calls) x)|]. rewrite Ha. by auto.
    + apply lookup_ge_None in Hx. pose proof (load_length i) as Hl. assert (n = m) as -> by lia.
      rewrite drop_ge in Hp by lia. cbn in Hp. injection Hp as <-. cbn in Hf. injection Hf as <- <-.
      exists Finished, calls. split; [by eapply inv_shared; [eapply inv_finish|]|]. split; [constructor|]. by auto.
  - destruct (in_callers _ _ _ _ _ _ Hi _ _ Hcl) as [_ (y & ph & Hy & Hk)]. rewrite Hx in Hy. injection Hy as <-.
    destruct (decide (ph = Answered)) as [->|Hph].
    + destruct (inv_receive _ _ _ _ _ _ _ _ _ _ _ Hi Hcl Hk) as [Hos Hi']. cbn [world] in Hos.
      cbn in Hf. rewrite Hos in Hf. cbn in Hf. rewrite (proj2 (reply_bytes_ok x)) in Hf. cbn in Hf.
      rewrite bool_decide_eq_true_2 in Hf by done. injection Hf as <- <-.
      eexists _, _. split; [exact Hi'|]. split; [|by auto]. apply (calling_idle i cell (S n)).
      apply lookup_lt_Some in Hx. pose proof (load_length i). lia.
    + pose proof (inv_blocked _ _ _ _ _ _ _ _ _ _ _ _ Hi Hcl Hk Hph) as Hos. cbn [world] in Hos.
      cbn in Hf. by rewrite Hos in Hf.
Qed.

(** It can go on when the network cannot. *)
Lemma calling_goes_on cls calls w ts i cl f : inv cls calls (mkSystem w ts) → cls !! i = Some cl → calling i cl (Act f) →
  (∀ k c, calls !! k = Some c → ca_phase c = Answered) → ∃ w' p', f w = Some (w', p').
Proof.
  intros Hi Hcl Hc Hans. inversion Hc as [cell n Hn Hcl' Hp|cell n k x Hx Hcl'|]; subst.
  - destruct (drop n (xs i)) as [|x l]; cbn in Hp; injection Hp as <-; [by eexists _, _|].
    destruct (call2 (numbered i cell) x w) as [r w']. by eexists _, _.
  - destruct (in_callers _ _ _ _ _ _ Hi _ _ Hcl) as [_ (y & ph & Hy & Hk)]. pose proof (Hans _ _ Hk) as Hph. cbn in Hph. subst ph.
    destruct (inv_receive _ _ _ _ _ _ _ _ _ _ _ Hi Hcl Hk) as [Hos _]. cbn [world] in Hos.
    cbn. rewrite Hos. by eexists _, _.
Qed.

Lemma suit_name n w : suit n w → name_of 0 w = (Ok "test_server", w).
Proof. intros [_ _ _ Hc _]. unfold name_of, get_core, mbind, M_bind. by rewrite Hc. Qed.

(** The program can take an action. *)
Definition can_go {A} (p : future A) w : Prop := ∃ f w' p', p = Act f ∧ f w = Some (w', p').

Lemma can_bind {A B} (p : future A) (k : A → future B) w : can_go p w → can_go (p ≫= k) w.
Proof. intros (f & w' & p' & -> & Hf). eexists _, w', (p' ≫= k). split; [reflexivity|]. cbn. by rewrite Hf. Qed.

Lemma can_op {A} (op : M E World A) w : can_go (atomic op) w.
Proof. destruct (op w) as [o w'] eqn:Ho. eexists _, w', (Done o). split; [reflexivity|]. cbn. by rewrite Ho. Qed.

Lemma can_atomic {A B} (op : M E World A) (k : A → future B) w : can_go (atomic op ≫= k) w.
Proof. apply can_bind, can_op. Qed.

Lemma can_take {A} i (k : C → future A) w c : spawned (app w) !! i = Some c → can_go (taken i ≫= k) w.
Proof. intros Hc. apply can_bind. eexists _, _, _. split; [reflexivity|]. cbn. rewrite Hc. reflexivity. Qed.

(** ** A pool *)

(** The workers and what they sent: the number of the calls of each client that is
    finished, in the channel or received. *)
Record pool_ok (wk : nat → Caller → option C → future unit → Prop) (cls : list Caller) (calls : list Call) (received : nat)
    (ws : list (future unit)) (sys : System) : Prop := {
  po_inv : inv cls calls sys;
  po_length : length ws = n0;
  po_workers : ∀ i cl p, cls !! i = Some cl → ws !! i = Some p → wk i cl (spawned (app (world sys)) !! i) p;
  po_messages : Forall (λ c, c = m) (channel (app (world sys)));
  po_finished : length (channel (app (world sys))) + received = length (filter (λ cl, cl = Finished) cls);
}.

#[local] Abbreviation pool := (list (future unit)).

Lemma pool_finished wk cls calls received (ws : pool) sys : pool_ok wk cls calls received ws sys → received ≤ n0 ∧
  (received = n0 → Forall (λ cl, cl = Finished) cls).
Proof.
  intros Hp. pose proof (po_finished _ _ _ _ _ _ Hp) as Hl. pose proof (in_number _ _ _ _ _ _ (po_inv _ _ _ _ _ _ Hp)) as Hn.
  pose proof (length_filter (λ cl, cl = Finished) cls) as Hle. split; [lia|]. intros ->.
  assert (length (filter (λ cl, cl = Finished) cls) = length cls) as He by lia. clear -He.
  induction cls as [|cl cls IH]; [done|]. rewrite filter_cons in He. case_decide as Hcl.
  - constructor; [done|]. apply IH. simpl in He. lia.
  - pose proof (length_filter (λ cl, cl = Finished) cls). simpl in He. lia.
Qed.

(** A worker takes a step, and perhaps sends its number. *)
Lemma pool_worker wk cls calls received (ws : pool) w ts i cl cl' p' calls' w' : pool_ok wk cls calls received ws (mkSystem w ts) →
  cls !! i = Some cl → cl ≠ Finished → inv (<[i := cl']> cls) calls' (mkSystem w' ts) → spawned (app w') = spawned (app w) →
  ((cl' ≠ Finished ∧ channel (app w') = channel (app w)) ∨ (cl' = Finished ∧ channel (app w') = channel (app w) ++ [m])) →
  wk i cl' (spawned (app w) !! i) p' →
  pool_ok wk (<[i := cl']> cls) calls' received (<[i := p']> ws) (mkSystem w' ts).
Proof.
  intros Hp Hcl Hne Hi Hsp Hch Hwk. pose proof Hp as []. cbn [world] in *. pose proof (lookup_lt_Some _ _ _ Hcl) as Hlt.
  pose proof (in_number _ _ _ _ _ _ po_inv0) as Hn. split; cbn [world]; [exact Hi|by rewrite length_insert| | |].
  - intros j c p Hc Hj. rewrite Hsp. destruct (decide (j = i)) as [->|Hji].
    + rewrite list_lookup_insert_eq in Hc by done. rewrite list_lookup_insert_eq in Hj by lia. by simplify_eq.
    + rewrite list_lookup_insert_ne in Hc by done. rewrite list_lookup_insert_ne in Hj by done. by apply po_workers0.
  - destruct Hch as [[_ ->]|[_ ->]]; [done|]. apply Forall_app. split; [done|]. by constructor.
  - pose proof (length_filter_insert (λ cl, cl = Finished) cls i cl cl' Hcl) as Hl. rewrite (decide_False (P := cl = Finished)) in Hl by done.
    destruct Hch as [[Hf ->]|[-> ->]].
    + rewrite decide_False in Hl by done. lia.
    + rewrite decide_True in Hl by done. rewrite length_app. simpl. lia.
Qed.

(** The main thread sets up a client. *)
Lemma pool_sets_up wk cls calls received (ws : pool) w ts i cl cl' calls' w' : pool_ok wk cls calls received ws (mkSystem w ts) →
  cls !! i = Some cl → cl ≠ Finished → cl' ≠ Finished → inv (<[i := cl']> cls) calls' (mkSystem w' ts) → app w' = app w →
  (∀ p, wk i cl (spawned (app w) !! i) p → wk i cl' (spawned (app w) !! i) p) →
  pool_ok wk (<[i := cl']> cls) calls' received ws (mkSystem w' ts).
Proof.
  intros Hp Hcl Hne Hne' Hi Ha Hwk. destruct (lookup_lt_is_Some_2 ws i) as [p Hws].
  { rewrite (po_length _ _ _ _ _ _ Hp), <-(in_number _ _ _ _ _ _ (po_inv _ _ _ _ _ _ Hp)). by eapply lookup_lt_Some. }
  rewrite <-(list_insert_id ws i p) by done. eapply pool_worker; [exact Hp|exact Hcl|done|exact Hi|by rewrite Ha|left; by rewrite Ha|].
  apply Hwk. by eapply (po_workers _ _ _ _ _ _ Hp).
Qed.

(** So does the network. *)
Lemma pool_net wk cls calls received (ws : pool) sys a sys' : pool_ok wk cls calls received ws sys → fair a →
  match a with TakesIn d => net_act (Accept d) sys | Polls j => net_act (Poll j) sys | Runs _ => None end = Some sys' →
  ∃ calls', pool_ok wk cls calls' received ws sys' ∧ spawned (app (world sys')) = spawned (app (world sys)).
Proof.
  intros [] Hfair Hact. destruct (inv_net _ _ _ _ _ _ _ _ po_inv0 Hfair ltac:(by destruct a) Hact) as (calls' & Hi & Hch & Hsp).
  exists calls'. split; [|done]. split; rewrite ?Hch; try done. intros i cl p. rewrite Hsp. apply po_workers0.
Qed.

(** The main thread changes the channel and what is spawned. *)
Lemma pool_main wk cls calls received (ws : pool) w ts a received' : pool_ok wk cls calls received ws (mkSystem w ts) → log2 a = log2 (app w) →
  Forall (λ c, c = m) (channel a) → length (channel a) + received' = length (channel (app w)) + received →
  (∀ i cl p, cls !! i = Some cl → wk i cl (spawned (app w) !! i) p → wk i cl (spawned a !! i) p) →
  pool_ok wk cls calls received' ws (mkSystem (with_app a w) ts).
Proof.
  intros [] Ha Hm Hl Hwk. cbn [world] in *. split; cbn [world]; try done.
  - by apply inv_shared.
  - intros i cl p Hcl Hp. apply Hwk; [done|]. by apply po_workers0.
  - cbn. lia.
Qed.

(** An action that takes the next message. *)
Definition receives (f : World → option (World * future unit)) (k : nat → future unit) : Prop :=
  ∀ w, f w = match channel (app w) with
             | c :: cs => Some (with_app (mkShared (log2 (app w)) (drop_req (app w)) (drop_resp (app w)) (spawned (app w)) cs) w, k c)
             | [] => None
             end.

Lemma pool_recv wk cls calls received (ws : pool) w ts k f w' p' : pool_ok wk cls calls received ws (mkSystem w ts) →
  receives f k → f w = Some (w', p') → p' = k m ∧ pool_ok wk cls calls (S received) ws (mkSystem w' ts) ∧ spawned (app w') = spawned (app w).
Proof.
  intros Hp Hk Hf. rewrite Hk in Hf. pose proof Hp as []. cbn [world] in *.
  destruct (channel (app w)) as [|c cs] eqn:Hc; [done|]. injection Hf as <- <-. inversion po_messages0 as [|? ? -> Hcs]; subst.
  split; [done|]. split; [|done]. eapply pool_main; [exact Hp|done|done| |done]. rewrite Hc. simpl. lia.
Qed.

(** When all workers are done there is a message for each of them. *)
Lemma pool_message wk cls calls received (ws : pool) w ts : pool_ok wk cls calls received ws (mkSystem w ts) →
  Forall (λ cl, cl = Finished) cls → received < n0 → can_go recv w.
Proof.
  intros Hp Hall Hlt. pose proof (po_finished _ _ _ _ _ _ Hp) as Hl. cbn [world] in Hl.
  assert (length (filter (λ cl, cl = Finished) cls) = n0) as Hfin.
  { rewrite <-(in_number _ _ _ _ _ _ (po_inv _ _ _ _ _ _ Hp)). clear -Hall.
    induction Hall as [|cl cls -> Hf IH]; [done|]. rewrite filter_cons_True by done. simpl. by rewrite IH. }
  destruct (channel (app w)) as [|c cs] eqn:Hc; [simpl in Hl; lia|]. eexists _, _, _. split; [reflexivity|]. cbn. rewrite Hc. reflexivity.
Qed.

(** ** Tests of a pool *)

(** A test: where a worker can be, given its client and whether its closure was spawned,
    and where the main thread can be, given the clients, what was spawned and how many
    messages it received; the program of a worker, and that of the main thread once it has
    its server. The laws say that the threads stay where they can be, end well, and can go
    on when the others cannot. *)
Class PoolTest (wk : nat → Caller → option C → future unit → Prop) (main_at : list Caller → list C → nat → future unit → Prop)
    (worker : nat → future unit) (main : Server → string → future unit) : Prop := {
  pt_start : main_at (replicate n0 Absent) [] 0 (main 0 "test_server");
  pt_workers i : wk i Absent None (worker i);
  pt_waits i w : spawned (app w) = [] → match worker i with Act f => f w = None | Done _ => False end;
  pt_worker_step cls calls r ws w ts p i f w' p' : pool_ok wk cls calls r ws (mkSystem w ts) → main_at cls (spawned (app w)) r p →
    ws !! i = Some (Act f) → f w = Some (w', p') →
    ∃ cls' calls', pool_ok wk cls' calls' r (<[i := p']> ws) (mkSystem w' ts) ∧ main_at cls' (spawned (app w')) r p;
  pt_main_step cls calls r ws w ts f w' p' : pool_ok wk cls calls r ws (mkSystem w ts) → main_at cls (spawned (app w)) r (Act f) →
    f w = Some (w', p') → ∃ cls' calls' r', pool_ok wk cls' calls' r' ws (mkSystem w' ts) ∧ main_at cls' (spawned (app w')) r' p';
  pt_worker_end i cl sp o : wk i cl sp (Done o) → o = Ok tt;
  pt_finished i sp p : wk i Finished sp p → p = Done (Ok tt);
  pt_worker_on cls calls r ws w ts i cl p : pool_ok wk cls calls r ws (mkSystem w ts) → cls !! i = Some cl → ws !! i = Some p →
    (∀ k c, calls !! k = Some c → ca_phase c = Answered) → cl = Finished ∨ can_go p w ∨ spawned (app w) !! i = None;
  pt_main_end cls sp r o : main_at cls sp r (Done o) → o = Ok tt ∧ r = n0;
  pt_main_on cls calls r ws w ts p : pool_ok wk cls calls r ws (mkSystem w ts) → main_at cls (spawned (app w)) r p →
    p = Done (Ok tt) ∨ can_go p w ∨ (length (spawned (app w)) = n0 ∧ ¬ Forall (λ cl, cl = Finished) cls);
}.

Section runs.
Context {wk : nat → Caller → option C → future unit → Prop} {main_at : list Caller → list C → nat → future unit → Prop}.
Context {worker : nat → future unit} {main : Server → string → future unit} {test : PoolTest wk main_at worker main}.
#[local] Abbreviation Testing := (@Testing EncodeError DecodeError C nat).

Definition workers : list (future unit) := worker <$> seq 0 n0.

Inductive at_pool : Testing → Prop :=
| at_pool_begins : at_pool (begin ((server ← atomic junk_suit; server_name ← atomic (name_of server); main server server_name) :: workers))
| at_pool_named : at_pool (mkTesting (mkSystem suit_world []) ((server_name ← atomic (name_of 0); main 0 server_name) :: workers))
| at_pool_runs cls calls r p ws sys : pool_ok wk cls calls r ws sys → main_at cls (spawned (app (world sys))) r p →
    at_pool (mkTesting sys (p :: ws)).

Lemma workers_lookup i p : workers !! i = Some p → p = worker i.
Proof. unfold workers. rewrite list_lookup_fmap. intros (j & [-> _]%lookup_seq & ->)%fmap_Some. done. Qed.

Lemma pool_start : pool_ok wk (replicate n0 Absent) [] 0 workers (mkSystem suit_world []).
Proof using test load.
  split; cbn [world]; [apply inv_begins|unfold workers; by rewrite length_fmap, length_seq| |constructor|].
  - intros i cl p [-> _]%lookup_replicate ->%workers_lookup. apply pt_workers.
  - generalize n0 as n. induction n as [|n IH]; [done|]. exact IH.
Qed.

Lemma worker_waits j f w r : workers !! j = Some (Act f) → spawned (app w) = [] → f w ≠ Some r.
Proof using test. intros Hj%workers_lookup Hs. pose proof (pt_waits j w Hs) as Hw. rewrite <-Hj in Hw. by rewrite Hw. Qed.

Lemma at_pool_act a t t' : fair a → at_pool t → test_act a t = Some t' → at_pool t'.
Proof using test load laws.
  intros Hfair Hat Hact. destruct Hat as [| |cls calls r p ws sys Hp Hmain].
  - destruct a as [d|j|[|j]]; try done.
    + simpl in Hact. injection Hact as <-. apply at_pool_named.
    + simpl in Hact. destruct (workers !! j) as [[o|f]|] eqn:Hj; [done| |done].
      destruct (f _) as [[w' p']|] eqn:Hf in Hact; [|done]. by eapply worker_waits in Hf.
  - destruct a as [d|j|[|j]]; try done.
    + simpl in Hact. injection Hact as <-. eapply at_pool_runs; [apply pool_start|apply pt_start].
    + simpl in Hact. destruct (workers !! j) as [[o|f]|] eqn:Hj; [done| |done].
      destruct (f _) as [[w' p']|] eqn:Hf in Hact; [|done]. by eapply worker_waits in Hf.
  - destruct a as [d|j|[|j]].
    + cbn [test_act network] in Hact. destruct (net_act (Accept d) sys) as [sys'|] eqn:Hn; [|done]. injection Hact as <-.
      destruct (pool_net _ _ _ _ _ _ (TakesIn d) sys' Hp Hfair Hn) as (calls' & Hp' & Hsp). eapply at_pool_runs; [exact Hp'|by rewrite Hsp].
    + cbn [test_act network] in Hact. destruct (net_act (Poll j) sys) as [sys'|] eqn:Hn; [|done]. injection Hact as <-.
      destruct (pool_net _ _ _ _ _ _ (Polls j) sys' Hp Hfair Hn) as (calls' & Hp' & Hsp). eapply at_pool_runs; [exact Hp'|by rewrite Hsp].
    + simpl in Hact. destruct p as [o|f]; [done|]. destruct sys as [w ts]. cbn [world tasks] in *. destruct (f w) as [[w' p']|] eqn:Hf; [|done]. injection Hact as <-.
      destruct (pt_main_step _ _ _ _ _ _ _ _ _ Hp Hmain Hf) as (cls' & calls' & r' & Hp' & Hmain'). by eapply at_pool_runs.
    + simpl in Hact. destruct (ws !! j) as [[o|f]|] eqn:Hj; [done| |done]. destruct sys as [w ts]. cbn [world tasks] in *.
      destruct (f w) as [[w' p']|] eqn:Hf; [|done]. injection Hact as <-.
      destruct (pt_worker_step _ _ _ _ _ _ _ _ _ _ _ Hp Hmain Hj Hf) as (cls' & calls' & Hp' & Hmain'). by eapply at_pool_runs.
Qed.

Lemma pool_caller cls calls r ws sys i p : pool_ok wk cls calls r ws sys → ws !! i = Some p →
  ∃ cl, cls !! i = Some cl ∧ wk i cl (spawned (app (world sys)) !! i) p.
Proof.
  intros Hp Hi. destruct (lookup_lt_is_Some_2 cls i) as [cl Hcl].
  { rewrite (in_number _ _ _ _ _ _ (po_inv _ _ _ _ _ _ Hp)), <-(po_length _ _ _ _ _ _ Hp). by eapply lookup_lt_Some. }
  exists cl. split; [done|]. by eapply po_workers.
Qed.

Lemma pool_runs_on cls calls r p ws sys : pool_ok wk cls calls r ws sys → main_at cls (spawned (app (world sys))) r p →
  Forall (λ p, p = Done (Ok tt)) (p :: ws) ∨ ∃ a t', fair a ∧ test_act a (mkTesting sys (p :: ws)) = Some t'.
Proof using test load laws.
  intros Hp Hmain. pose proof (po_inv _ _ _ _ _ _ Hp) as Hinv.
  destruct (inv_idle _ _ _ _ _ _ Hinv) as [(a & sys' & Hfair & Ha)|Hans].
  { right. exists a. destruct a as [d|j|j]; [| |done]; cbn [test_act network]; rewrite Ha; by eexists. }
  destruct sys as [w ts]. cbn [world] in Hmain.
  destruct (pt_main_on _ _ _ _ _ _ _ Hp Hmain) as [->|[(f & w' & p' & -> & Hf)|[Hs Hnot]]].
  - left. constructor; [done|]. destruct (pt_main_end _ _ _ _ Hmain) as [_ ->].
    pose proof (proj2 (pool_finished _ _ _ _ _ _ Hp) eq_refl) as Hall. rewrite Forall_lookup in Hall.
    apply Forall_lookup_2. intros i q Hi. destruct (pool_caller _ _ _ _ _ _ _ Hp Hi) as (cl & Hcl & Hat).
    rewrite (Hall _ _ Hcl) in Hat. by eapply pt_finished.
  - right. eexists (Runs 0), _. split; [done|]. simpl. by rewrite Hf.
  - right. apply not_Forall_Exists, Exists_exists in Hnot as (cl & [i Hcl]%list_elem_of_lookup & Hne); [|apply _].
    assert (i < n0) as Hlt by (rewrite <-(in_number _ _ _ _ _ _ Hinv); by eapply lookup_lt_Some).
    destruct (lookup_lt_is_Some_2 ws i) as [q Hi]; [by rewrite (po_length _ _ _ _ _ _ Hp)|].
    destruct (pt_worker_on _ _ _ _ _ _ _ _ _ Hp Hcl Hi Hans) as [->|[(f & w' & p' & -> & Hf)|Hn]]; [by destruct Hne| |].
    + eexists (Runs (S i)), _. split; [done|]. simpl. rewrite Hi, Hf. done.
    + exfalso. apply lookup_ge_None in Hn. lia.
Qed.

Lemma pool_passes : passes ((server ← atomic junk_suit; server_name ← atomic (name_of server); main server server_name) :: workers).
Proof using test load laws.
  set (ts := _ :: workers). intros l t Hl Hrun. assert (at_pool t) as Hat.
  { assert (at_pool (begin ts)) as H0 by constructor. revert H0 Hrun. generalize (begin ts) as t0.
    induction Hl as [|a l Ha Hl IH]; intros t0 H0; simpl; [by intros [= <-]|].
    destruct (test_act a t0) as [t1|] eqn:Hact; [|done]. apply IH. by eapply at_pool_act. }
  assert (∀ j o, workers !! j ≠ Some (Done o)) as Hw.
  { intros j o Hj%workers_lookup. pose proof (pt_waits j suit_world eq_refl) as Hw. by rewrite <-Hj in Hw. }
  destruct Hat as [| |cls calls r p ws sys Hp Hmain].
  - split; [intros [|j] o Hj; [done|by apply Hw in Hj]|]. right. by eexists (Runs 0), _.
  - split; [intros [|j] o Hj; [done|by apply Hw in Hj]|]. right. by eexists (Runs 0), _.
  - split; [|by apply pool_runs_on with cls calls r]. intros [|j] o Hj; simpl in Hj.
    + injection Hj as ->. by eapply pt_main_end.
    + destruct (pool_caller _ _ _ _ _ _ _ Hp Hj) as (cl & _ & Hat). by eapply pt_worker_end.
Qed.
End runs.
End workers.

(** ** test_concurrent_many *)

Section many.
Context {EncodeError DecodeError : Type} `{!Messages EncodeError DecodeError} {laws : MessagesLaws}.
#[local] Abbreviation E := (Error EncodeError DecodeError).
#[local] Abbreviation Captured := (string * nat)%type.
#[local] Abbreviation World := (@World EncodeError DecodeError unit unit (Shared Captured nat)).
#[local] Abbreviation future := (prog E World).
#[local] Abbreviation Testing := (@Testing EncodeError DecodeError Captured nat).
Implicit Types (w : World).

Context (nclients nrpcs : nat) {load : Load (many_args nrpcs) nclients nrpcs}.
#[local] Abbreviation args := (many_args nrpcs).
#[local] Abbreviation inv := (inv (C := Captured) args nclients nrpcs).

(** Where a worker can be. *)
Inductive many_at (i : nat) : Caller → option Captured → future unit → Prop :=
| many_waits sp : sp = None ∨ sp = Some ("test_server", i) → many_at i Absent sp (many_worker nrpcs i)
| many_creates sp : many_at i Absent sp (many_thread nrpcs "test_server" i)
| many_enables sp cell : many_at i (Created cell) sp
    (atomic (enable (client_number i) true);; atomic (connect (client_number i) "test_server");;
     n ← rpcs (numbered i cell) (args i) 0; atomic (send n))
| many_connects sp cell : many_at i (Enabled cell) sp
    (atomic (connect (client_number i) "test_server");; n ← rpcs (numbered i cell) (args i) 0; atomic (send n))
| many_calls sp cl p : calling args nrpcs i cl p → many_at i cl sp p.

#[local] Abbreviation pool_ok := (pool_ok args nclients nrpcs many_at).

Lemma many_step cls calls r ws w ts i f w' p' : pool_ok cls calls r ws (mkSystem w ts) → ws !! i = Some (Act f) → f w = Some (w', p') →
  ∃ cls' calls', pool_ok cls' calls' r (<[i := p']> ws) (mkSystem w' ts) ∧ spawned (app w') = spawned (app w).
Proof.
  intros Hp Hi Hf. pose proof (po_inv _ _ _ _ _ _ _ _ _ Hp) as Hinv. destruct (lookup_lt_is_Some_2 cls i) as [cl Hcl].
  { rewrite (in_number _ _ _ _ _ _ Hinv), <-(po_length _ _ _ _ _ _ _ _ _ Hp). by eapply lookup_lt_Some. }
  pose proof (po_workers _ _ _ _ _ _ _ _ _ Hp _ _ _ Hcl Hi) as Hat.
  assert (∀ cl' calls', cl ≠ Finished → inv (<[i := cl']> cls) calls' (mkSystem w' ts) → cl' ≠ Finished → app w' = app w →
    many_at i cl' (spawned (app w) !! i) p' →
    ∃ cls' calls', pool_ok cls' calls' r (<[i := p']> ws) (mkSystem w' ts) ∧ spawned (app w') = spawned (app w)) as Hgo.
  { intros cl' calls' Hne Hinv' Hne' Ha Hat'. eexists _, _. split; [|by rewrite Ha].
    eapply pool_worker; [exact Hp|exact Hcl|done|exact Hinv'|by rewrite Ha|left; by rewrite Ha|exact Hat']. }
  cbn [world] in Hat. inversion Hat as [sp Hsp|sp|sp cell|sp cell|sp cl' p Hc]; subst.
  - cbn in Hf. destruct (spawned (app w) !! i) as [c|] eqn:Hs; [|done]. injection Hf as <- <-.
    destruct Hsp as [|[= ->]]; [done|]. eapply (Hgo Absent); [done| |done|done|constructor]. by rewrite list_insert_id.
  - destruct (inv_create _ _ _ _ _ _ _ _ Hinv Hcl) as (cell & w1 & Hm & Ha & Hinv'). cbn in Hf. rewrite Hm in Hf. cbn in Hf. injection Hf as <- <-.
    by eapply Hgo; [..|constructor].
  - destruct (inv_enable _ _ _ _ _ _ _ _ _ Hinv Hcl) as (w1 & Hm & Ha & Hinv'). cbn in Hf. rewrite Hm in Hf. cbn in Hf. injection Hf as <- <-.
    by eapply Hgo; [..|constructor].
  - destruct (inv_connect _ _ _ _ _ _ _ _ _ Hinv Hcl) as (w1 & Hm & Ha & Hinv'). cbn in Hf. rewrite Hm in Hf. cbn in Hf. injection Hf as <- <-.
    eapply Hgo; [..|apply many_calls, (calling_idle args nrpcs i cell 0)]; try done. lia.
  - destruct (calling_step _ _ _ _ _ _ _ _ _ _ _ _ Hinv Hcl Hc Hf) as (cl' & calls' & Hinv' & Hc' & Hne & Hsp & Hch).
    eexists _, _. split; [|exact Hsp]. eapply pool_worker; [exact Hp|exact Hcl|exact Hne|exact Hinv'|exact Hsp|exact Hch|by constructor].
Qed.

(** A worker is done, or can go on when the network cannot, or its closure was not spawned. *)
Lemma many_goes_on cls calls r ws w ts i cl p : pool_ok cls calls r ws (mkSystem w ts) → cls !! i = Some cl → ws !! i = Some p →
  (∀ k c, calls !! k = Some c → ca_phase c = Answered) →
  cl = Finished ∨ can_go p w ∨ spawned (app w) !! i = None.
Proof.
  intros Hp Hcl Hi Hans. pose proof (po_inv _ _ _ _ _ _ _ _ _ Hp) as Hinv.
  pose proof (po_workers _ _ _ _ _ _ _ _ _ Hp _ _ _ Hcl Hi) as Hat. cbn [world] in Hat.
  inversion Hat as [sp Hsp|sp|sp cell|sp cell|sp cl' p' Hc]; subst.
  - destruct Hsp as [Hsp|Hsp]; [by right; right|]. right; left. by eapply can_take.
  - right; left. apply can_atomic.
  - right; left. apply can_atomic.
  - right; left. apply can_atomic.
  - destruct p as [o|f].
    + left. by destruct (calling_end _ _ _ _ _ Hc).
    + right; left. destruct (calling_goes_on _ _ _ _ _ _ _ _ _ _ Hinv Hcl Hc Hans) as (w' & p' & Hf). by exists f, w', p'.
Qed.

(** *** The main thread *)

Definition many_checks (total : nat) : future unit :=
  assert (total =? nrpcs * nclients);;
  n ← atomic (count "test_server");
  assert (n =? N.of_nat total)%N.

Definition many_spawned (i : nat) : list Captured := (λ j, ("test_server", j)) <$> seq 0 i.

Inductive many_main : list Captured → nat → future unit → Prop :=
| main_spawns i : i < nclients → many_main (many_spawned i) 0
    (each (λ i, atomic (spawn ("test_server", i))) (seq i (nclients - i));;
     total ← receive_all nclients 0; many_checks total)
| main_receives r : r ≤ nclients → many_main (many_spawned nclients) r
    (total ← receive_all (nclients - r) (r * nrpcs); many_checks total)
| main_done : many_main (many_spawned nclients) nclients (Done (Ok tt)).

Lemma main_spawned i : i ≤ nclients → many_main (many_spawned i) 0
    (each (λ i, atomic (spawn ("test_server", i))) (seq i (nclients - i));;
     total ← receive_all nclients 0; many_checks total).
Proof.
  intros Hi. destruct (decide (i = nclients)) as [->|Hne]; [|constructor; lia]. rewrite Nat.sub_diag.
  pose proof (main_receives 0) as Hr. rewrite Nat.sub_0_r in Hr. apply Hr. lia.
Qed.

Lemma many_at_any j cl sp sp' p : sp' = None ∨ sp' = Some ("test_server", j) → many_at j cl sp p → many_at j cl sp' p.
Proof. intros Hsp Hat. inversion Hat; subst; by constructor. Qed.

Lemma many_spawned_lookup i j : many_spawned i !! j = None ∨ many_spawned i !! j = Some ("test_server", j).
Proof.
  unfold many_spawned. rewrite list_lookup_fmap. destruct (decide (j < i)).
  - right. by rewrite lookup_seq_lt.
  - left. by rewrite lookup_seq_ge by lia.
Qed.

(** The main thread takes a step. *)
Lemma many_main_step cls calls r ws w ts f w' p' : pool_ok cls calls r ws (mkSystem w ts) →
  many_main (spawned (app w)) r (Act f) → f w = Some (w', p') →
  ∃ r', pool_ok cls calls r' ws (mkSystem w' ts) ∧ many_main (spawned (app w')) r' p'.
Proof.
  intros Hp Hmain Hf. inversion Hmain as [i Hi Hs Hr Hq|r0 Hr Hs Hr0 Hq|]; subst.
  - assert (nclients - i = S (nclients - S i)) as Hn by lia. rewrite Hn in Hq. cbn in Hq. injection Hq as <-. cbn in Hf. injection Hf as <- <-.
    assert (spawned (app w) ++ [("test_server", i)] = many_spawned (S i)) as Hsp.
    { rewrite <-Hs. unfold many_spawned. by rewrite seq_S, fmap_app. }
    exists 0. cbn [app with_app spawned]. rewrite Hsp. split; [|by apply (main_spawned (S i))].
    eapply pool_main; [exact Hp|done|apply Hp|done|]. intros j cl p Hcl Hat. cbn [spawned].
    eapply many_at_any; [apply many_spawned_lookup|exact Hat].
  - destruct (decide (r = nclients)) as [->|Hne].
    + rewrite Nat.sub_diag in Hq. cbn in Hq. unfold many_checks in Hq. rewrite Nat.mul_comm, Nat.eqb_refl in Hq. cbn in Hq. injection Hq as <-.
      destruct (inv_finished _ _ _ _ _ _ (po_inv _ _ _ _ _ _ _ _ _ Hp)) as [Hcount _]; [by apply (pool_finished _ _ _ _ _ _ _ _ _ Hp)|].
      cbn [world] in Hcount. rewrite Hcount in Hf. cbn in Hf. rewrite (Nat.mul_comm nclients nrpcs), N.eqb_refl in Hf. injection Hf as <- <-.
      exists nclients. split; [done|]. rewrite <-Hs. constructor.
    + assert (nclients - r = S (nclients - S r)) as Hn by lia. rewrite Hn in Hq.
      destruct (pool_recv _ _ _ _ _ _ _ _ _ _ (λ c, total ← receive_all (nclients - S r) (r * nrpcs + c); many_checks total) f w' p' Hp) as (-> & Hp' & Hsp).
      { cbn in Hq. injection Hq as <-. intros w0. by destruct (channel (app w0)). }
      { exact Hf. }
      exists (S r). split; [exact Hp'|]. rewrite Hsp, <-Hs. replace (r * nrpcs + nrpcs) with (S r * nrpcs) by lia. constructor. lia.
Qed.

(** It is done, or can go on when the workers are done. *)
Lemma many_main_on cls calls r ws w ts p : pool_ok cls calls r ws (mkSystem w ts) → many_main (spawned (app w)) r p →
  p = Done (Ok tt) ∨ can_go p w ∨ (spawned (app w) = many_spawned nclients ∧ ¬ Forall (λ cl, cl = Finished) cls).
Proof.
  intros Hp Hmain. inversion Hmain as [i Hi Hs Hr Hq|r0 Hr Hs Hr0 Hq|]; subst; [| |by left].
  - right; left. replace (nclients - i) with (S (nclients - S i)) by lia. apply can_bind, can_atomic.
  - destruct (decide (r = nclients)) as [->|Hne].
    { right; left. rewrite Nat.sub_diag. cbn. unfold many_checks. rewrite Nat.mul_comm, Nat.eqb_refl. apply can_atomic. }
    destruct (decide (Forall (λ cl, cl = Finished) cls)) as [Hall|Hall]; [|by right; right].
    right; left. replace (nclients - r) with (S (nclients - S r)) by lia. apply can_bind, can_bind.
    eapply (pool_message _ _ _ _ _ _ _ _ _ _ Hp); [exact Hall|lia].
Qed.

Lemma many_main_end sp r o : many_main sp r (Done o) → o = Ok tt ∧ r = nclients.
Proof.
  intros Hm. inversion Hm as [i Hi Hs Hr Hq|r0 Hr Hs Hr0 Hq|]; subst; [| |done].
  - assert (nclients - i = S (nclients - S i)) as Hn by lia. rewrite Hn in Hq. discriminate Hq.
  - destruct (decide (r = nclients)) as [->|Hne].
    + rewrite Nat.sub_diag in Hq. cbn in Hq. unfold many_checks in Hq. rewrite Nat.mul_comm, Nat.eqb_refl in Hq. discriminate Hq.
    + assert (nclients - r = S (nclients - S r)) as Hn by lia. rewrite Hn in Hq. discriminate Hq.
Qed.

#[export] Instance many_test : PoolTest args nclients nrpcs many_at (λ _, many_main) (many_worker nrpcs)
  (λ _ server_name, each (λ i, atomic (spawn (server_name, i))) (seq 0 nclients);;
                  total ← receive_all nclients 0;
                  assert (total =? nrpcs * nclients);;
                  n ← atomic (count server_name);
                  assert (n =? N.of_nat total)%N).
Proof.
  split.
  - pose proof (main_spawned 0) as Hm. rewrite Nat.sub_0_r in Hm. apply Hm. lia.
  - intros i. constructor. by left.
  - intros i w Hs. unfold many_worker. cbn. by rewrite Hs.
  - intros cls calls r ws w ts p i f w' p' Hp Hmain Hi Hf. destruct (many_step _ _ _ _ _ _ _ _ _ _ Hp Hi Hf) as (cls' & calls' & Hp' & Hsp).
    exists cls', calls'. by rewrite Hsp.
  - intros cls calls r ws w ts f w' p' Hp Hmain Hf. destruct (many_main_step _ _ _ _ _ _ _ _ _ Hp Hmain Hf) as (r' & Hp' & Hmain').
    by exists cls, calls, r'.
  - intros i cl sp o Hat. inversion Hat as [| | | |sp' cl' p' Hc]; subst. by destruct (calling_end _ _ _ _ _ Hc).
  - intros i sp p Hat. inversion Hat as [| | | |sp' cl' p' Hc]; subst. by inversion Hc.
  - intros cls calls r ws w ts i cl p Hp Hcl Hi Hans. by eapply many_goes_on.
  - intros _. apply many_main_end.
  - intros cls calls r ws w ts p Hp Hmain. destruct (many_main_on _ _ _ _ _ _ _ Hp Hmain) as [|[|[-> ?]]]; [by left|by right; left|right; right].
    split; [|done]. unfold many_spawned. by rewrite length_fmap, length_seq.
Qed.

Lemma many_passes : passes (test_concurrent_many nclients nrpcs :: (many_worker nrpcs <$> seq 0 nclients)).
Proof. exact (pool_passes args nclients nrpcs). Qed.
End many.

(** ** test_concurrent_one *)

Section one.
Context {EncodeError DecodeError : Type} `{!Messages EncodeError DecodeError} {laws : MessagesLaws}.
#[local] Abbreviation E := (Error EncodeError DecodeError).
#[local] Abbreviation Captured := (nat * Client)%type.
#[local] Abbreviation World := (@World EncodeError DecodeError unit unit (Shared Captured nat)).
#[local] Abbreviation future := (prog E World).
Implicit Types (w : World).

Definition one_args (i : nat) : list Z := [Z.of_nat i + 100]%Z.

Context (nrpcs : nat) {load : Load one_args nrpcs 1}.
#[local] Abbreviation inv := (inv (C := Captured) one_args nrpcs 1).

(** Where a worker can be: the main thread sets up its client before it is spawned. *)
Inductive one_at (i : nat) : Caller → option Captured → future unit → Prop :=
| one_waits cl : cl ≠ Finished → one_at i cl None (one_worker i)
| one_takes cell : one_at i (Idle cell 0) (Some (i, numbered i cell)) (one_worker i)
| one_calls cl c p : calling one_args 1 i cl p → one_at i cl (Some c) p.

#[local] Abbreviation pool_ok := (pool_ok one_args nrpcs 1 one_at).

(** *** The main thread *)

Definition one_name : future unit :=
  server_name ← atomic (name_of 0);
  n ← atomic (count server_name);
  assert (n =? N.of_nat nrpcs)%N.

Definition one_checks (total : nat) : future unit :=
  assert (total =? nrpcs);;
  log ← atomic (gets (λ w, log2 (app w)));
  assert (length log =? nrpcs);;
  server_name ← atomic (name_of 0);
  n ← atomic (count server_name);
  assert (n =? N.of_nat total)%N.

Definition one_spawn (i : nat) : future unit :=
  client ← atomic (create_client (client_number i));
  atomic (enable (client_number i) true);;
  atomic (connect (client_number i) "test_server");;
  atomic (spawn (i, client)).

(** After the client [i] is spawned. *)
Definition one_next (i : nat) (p : future unit) : future unit :=
  (p;; each one_spawn (seq (S i) (nrpcs - S i)));; total ← receive_all nrpcs 0; one_checks total.

(** The clients from [i] on are not there. *)
Definition absent (i : nat) (cls : list Caller) : Prop := ∀ j, i ≤ j → j < nrpcs → cls !! j = Some Absent.

(** What is spawned is only counted: [one_at] has what the closures captured. *)
Inductive one_main (cls : list Caller) (sp : list Captured) : nat → future unit → Prop :=
| one_creates : length sp < nrpcs → absent (length sp) cls → one_main cls sp 0 (one_next (length sp) (one_spawn (length sp)))
| one_enables cell : cls !! length sp = Some (Created cell) → absent (S (length sp)) cls →
    one_main cls sp 0 (one_next (length sp)
      (atomic (enable (client_number (length sp)) true);; atomic (connect (client_number (length sp)) "test_server");;
       atomic (spawn (length sp, numbered (length sp) cell))))
| one_connects cell : cls !! length sp = Some (Enabled cell) → absent (S (length sp)) cls →
    one_main cls sp 0 (one_next (length sp)
      (atomic (connect (client_number (length sp)) "test_server");; atomic (spawn (length sp, numbered (length sp) cell))))
| one_spawns cell : cls !! length sp = Some (Idle cell 0) → absent (S (length sp)) cls →
    one_main cls sp 0 (one_next (length sp) (atomic (spawn (length sp, numbered (length sp) cell))))
| one_receives r : length sp = nrpcs → r ≤ nrpcs → one_main cls sp r (total ← receive_all (nrpcs - r) r; one_checks total)
| one_names : length sp = nrpcs → one_main cls sp nrpcs one_name
| one_counts : length sp = nrpcs → one_main cls sp nrpcs (n ← atomic (count "test_server"); assert (n =? N.of_nat nrpcs)%N)
| one_done : one_main cls sp nrpcs (Done (Ok tt)).

(** The main thread looks at clients that are not spawned. *)
Lemma one_main_other cls sp r p i cl : i < length sp → one_main cls sp r p → one_main (<[i := cl]> cls) sp r p.
Proof.
  intros Hi Hm. assert (∀ n, length sp ≤ n → absent n cls → absent n (<[i := cl]> cls)) as Ha.
  { intros n Hn Ha j Hj Hlt. rewrite list_lookup_insert_ne by lia. by apply Ha. }
  destruct Hm; econstructor; try done; try (apply Ha; [lia|done]); by rewrite list_lookup_insert_ne by lia.
Qed.

(** It goes on with the next client, or receives. *)
Lemma one_main_next cls sp : length sp ≤ nrpcs → absent (length sp) cls →
  one_main cls sp 0 (each one_spawn (seq (length sp) (nrpcs - length sp));; total ← receive_all nrpcs 0; one_checks total).
Proof.
  intros Hle Ha. destruct (decide (length sp = nrpcs)) as [He|Hne].
  - rewrite He, Nat.sub_diag. pose proof (one_receives cls sp 0 He) as Hr. rewrite Nat.sub_0_r in Hr. apply Hr. lia.
  - replace (nrpcs - length sp) with (S (nrpcs - S (length sp))) by lia. apply one_creates; [lia|done].
Qed.

Lemma one_step cls calls r ws w ts p i f w' p' : pool_ok cls calls r ws (mkSystem w ts) → one_main cls (spawned (app w)) r p →
  ws !! i = Some (Act f) → f w = Some (w', p') →
  ∃ cls' calls', pool_ok cls' calls' r (<[i := p']> ws) (mkSystem w' ts) ∧ one_main cls' (spawned (app w')) r p.
Proof.
  intros Hp Hmain Hi Hf. pose proof (po_inv _ _ _ _ _ _ _ _ _ Hp) as Hinv. destruct (lookup_lt_is_Some_2 cls i) as [cl Hcl].
  { rewrite (in_number _ _ _ _ _ _ Hinv), <-(po_length _ _ _ _ _ _ _ _ _ Hp). by eapply lookup_lt_Some. }
  pose proof (po_workers _ _ _ _ _ _ _ _ _ Hp _ _ _ Hcl Hi) as Hat. cbn [world] in Hat.
  inversion Hat as [cl' Hne Hc Hs Hq|cell Hc Hs Hq|cl' c p0 Hc Hc' Hs Hq]; subst.
  - cbn in Hf. by rewrite <-Hs in Hf.
  - cbn in Hf. rewrite <-Hs in Hf. injection Hf as <- <-.
    exists (<[i := Idle cell 0]> cls), calls. split; [|apply one_main_other; [by eapply lookup_lt_Some|done]].
    eapply pool_worker; [exact Hp|exact Hcl|done| |done|by left|].
    + by rewrite list_insert_id.
    + rewrite <-Hs. apply one_calls, (calling_idle one_args 1 i cell 0). lia.
  - destruct (calling_step _ _ _ _ _ _ _ _ _ _ _ _ Hinv Hcl Hc Hf) as (cl' & calls' & Hinv' & Hc' & Hne & Hsp & Hch).
    exists (<[i := cl']> cls), calls'. rewrite Hsp. split; [|apply one_main_other; [by eapply lookup_lt_Some|done]].
    eapply pool_worker; [exact Hp|exact Hcl|exact Hne|exact Hinv'|exact Hsp|exact Hch|]. rewrite <-Hs. by constructor.
Qed.

Lemma one_goes_on cls calls r ws w ts i cl p : pool_ok cls calls r ws (mkSystem w ts) → cls !! i = Some cl → ws !! i = Some p →
  (∀ k c, calls !! k = Some c → ca_phase c = Answered) → cl = Finished ∨ can_go p w ∨ spawned (app w) !! i = None.
Proof.
  intros Hp Hcl Hi Hans. pose proof (po_inv _ _ _ _ _ _ _ _ _ Hp) as Hinv.
  pose proof (po_workers _ _ _ _ _ _ _ _ _ Hp _ _ _ Hcl Hi) as Hat. cbn [world] in Hat.
  inversion Hat as [cl' Hne Hc Hs Hq|cell Hc Hs Hq|cl' c p0 Hc Hc' Hs Hq]; subst.
  - by right; right.
  - right; left. by eapply can_take.
  - destruct p as [o|f].
    + left. by destruct (calling_end _ _ _ _ _ Hc).
    + right; left. destruct (calling_goes_on _ _ _ _ _ _ _ _ _ _ Hinv Hcl Hc Hans) as (w' & p' & Hf). by exists f, w', p'.
Qed.

Lemma one_main_step cls calls r ws w ts f w' p' : pool_ok cls calls r ws (mkSystem w ts) →
  one_main cls (spawned (app w)) r (Act f) → f w = Some (w', p') →
  ∃ cls' calls' r', pool_ok cls' calls' r' ws (mkSystem w' ts) ∧ one_main cls' (spawned (app w')) r' p'.
Proof.
  intros Hp Hmain Hf. pose proof (po_inv _ _ _ _ _ _ _ _ _ Hp) as Hinv. pose proof (in_number _ _ _ _ _ _ Hinv) as Hn.
  assert (∀ cl cl' w', cls !! length (spawned (app w)) = Some cl → cl ≠ Finished → cl' ≠ Finished →
    inv (<[length (spawned (app w)) := cl']> cls) calls (mkSystem w' ts) → app w' = app w →
    pool_ok (<[length (spawned (app w)) := cl']> cls) calls r ws (mkSystem w' ts)) as Hset.
  { intros cl cl' w1 Hcl Hne Hne' Hi Ha. eapply pool_sets_up; [exact Hp|exact Hcl|done|done|done|done|].
    intros q Hq. rewrite lookup_ge_None_2 in Hq |- * by lia. inversion Hq; subst. by constructor. }
  assert (∀ i cl, absent i cls → absent (S i) (<[i := cl]> cls)) as Habs.
  { intros i cl Ha j Hj Hlt. rewrite list_lookup_insert_ne by lia. apply Ha; lia. }
  assert (∀ i cl cl', cls !! i = Some cl → absent (S i) cls → absent (S i) (<[i := cl']> cls)) as Habs'.
  { intros i cl cl' _ Ha j Hj Hlt. rewrite list_lookup_insert_ne by lia. by apply Ha. }
  remember (Act f) as q eqn:Hq. destruct Hmain as [Hlt Ha|cell Hcl Ha|cell Hcl Ha|cell Hcl Ha|r Hs Hle|Hs|Hs|].
  - destruct (inv_create _ _ _ _ _ _ _ _ Hinv (Ha _ (le_n _) Hlt)) as (cell & w1 & Hm & Happ & Hinv').
    cbn in Hq. injection Hq as <-. rewrite Hm in Hf. cbn in Hf. injection Hf as <- <-.
    eexists _, _, 0. split; [by eapply Hset; [apply Ha| | |exact Hinv'|]|]. rewrite Happ.
    apply one_enables; [rewrite list_lookup_insert_eq; [done|lia]|by apply Habs].
  - destruct (inv_enable _ _ _ _ _ _ _ _ _ Hinv Hcl) as (w1 & Hm & Happ & Hinv').
    cbn in Hq. injection Hq as <-. rewrite Hm in Hf. cbn in Hf. injection Hf as <- <-.
    eexists _, _, 0. split; [by eapply Hset; [exact Hcl| | |exact Hinv'|]|]. rewrite Happ. apply lookup_lt_Some in Hcl as Hlt.
    apply one_connects; [by rewrite list_lookup_insert_eq|by eapply Habs'].
  - destruct (inv_connect _ _ _ _ _ _ _ _ _ Hinv Hcl) as (w1 & Hm & Happ & Hinv').
    cbn in Hq. injection Hq as <-. rewrite Hm in Hf. cbn in Hf. injection Hf as <- <-.
    eexists _, _, 0. split; [by eapply Hset; [exact Hcl| | |exact Hinv'|]|]. rewrite Happ. apply lookup_lt_Some in Hcl as Hlt.
    apply one_spawns; [by rewrite list_lookup_insert_eq|by eapply Habs'].
  - cbn in Hq. injection Hq as <-. cbn in Hf. injection Hf as <- <-.
    assert (length (spawned (app w) ++ [(length (spawned (app w)), numbered (length (spawned (app w))) cell)]) = S (length (spawned (app w)))) as Hlen.
    { rewrite length_app. simpl. lia. }
    exists cls, calls, 0. split.
    + eapply pool_main; [exact Hp|done|apply Hp|done|]. intros j cl q Hj Hat. cbn [spawned].
      destruct (decide (j < length (spawned (app w)))) as [Hlt|Hge]; [by rewrite lookup_app_l|].
      rewrite lookup_ge_None_2 in Hat by lia. destruct (decide (j = length (spawned (app w)))) as [->|Hne].
      * rewrite list_lookup_middle by done. inversion Hat; subst. rewrite Hcl in Hj. injection Hj as <-. constructor.
      * by rewrite lookup_ge_None_2 by lia.
    + cbn [app with_app spawned]. rewrite <-Hlen. apply one_main_next; rewrite Hlen; [|done].
      apply lookup_lt_Some in Hcl. lia.
  - destruct (decide (r = nrpcs)) as [->|Hne].
    + rewrite Nat.sub_diag in Hq. cbn in Hq. unfold one_checks in Hq. rewrite Nat.eqb_refl in Hq. cbn in Hq. injection Hq as <-.
      destruct (inv_finished _ _ _ _ _ _ Hinv) as [_ Hlog]; [by apply (pool_finished _ _ _ _ _ _ _ _ _ Hp)|].
      cbn [world] in Hlog. rewrite Hlog, Nat.mul_1_r, Nat.eqb_refl in Hf. cbn in Hf. injection Hf as <- <-.
      exists cls, calls, nrpcs. split; [done|by apply one_names].
    + replace (nrpcs - r) with (S (nrpcs - S r)) in Hq by lia.
      destruct (pool_recv _ _ _ _ _ _ _ _ _ _ (λ c, total ← receive_all (nrpcs - S r) (r + c); one_checks total) f w' p' Hp) as (-> & Hp' & Hsp).
      { cbn in Hq. injection Hq as <-. intros w0. by destruct (channel (app w0)). }
      { exact Hf. }
      exists cls, calls, (S r). split; [exact Hp'|]. rewrite Hsp, Nat.add_1_r. by apply one_receives; [|lia].
  - cbn in Hq. injection Hq as <-. pose proof (suit_name _ _ (in_suit _ _ _ _ _ _ Hinv)) as Hname. cbn [world] in Hname.
    rewrite Hname in Hf. cbn in Hf. injection Hf as <- <-.
    exists cls, calls, nrpcs. split; [done|by apply one_counts].
  - cbn in Hq. injection Hq as <-.
    destruct (inv_finished _ _ _ _ _ _ Hinv) as [Hcount _]; [by apply (pool_finished _ _ _ _ _ _ _ _ _ Hp)|].
    cbn [world] in Hcount. rewrite Hcount in Hf. cbn in Hf. rewrite Nat.mul_1_r, N.eqb_refl in Hf. injection Hf as <- <-.
    exists cls, calls, nrpcs. split; [done|apply one_done].
  - discriminate Hq.
Qed.

Lemma one_main_on cls calls r ws w ts p : pool_ok cls calls r ws (mkSystem w ts) → one_main cls (spawned (app w)) r p →
  p = Done (Ok tt) ∨ can_go p w ∨ (length (spawned (app w)) = nrpcs ∧ ¬ Forall (λ cl, cl = Finished) cls).
Proof.
  intros Hp Hmain. pose proof (po_inv _ _ _ _ _ _ _ _ _ Hp) as Hinv.
  destruct Hmain as [Hlt Ha|cell Hcl Ha|cell Hcl Ha|cell Hcl Ha|r Hs Hle|Hs|Hs|]; [right; left..| |right; left|right; left|by left].
  - apply can_bind, can_bind, can_atomic.
  - apply can_bind, can_bind, can_atomic.
  - apply can_bind, can_bind, can_atomic.
  - apply can_bind, can_bind, can_op.
  - destruct (decide (r = nrpcs)) as [->|Hne].
    + right; left. rewrite Nat.sub_diag. cbn. unfold one_checks. rewrite Nat.eqb_refl. apply can_atomic.
    + destruct (decide (Forall (λ cl, cl = Finished) cls)) as [Hall|Hall]; [|by right; right].
      right; left. replace (nrpcs - r) with (S (nrpcs - S r)) by lia. apply can_bind, can_bind.
      eapply (pool_message _ _ _ _ _ _ _ _ _ _ Hp); [exact Hall|lia].
  - apply can_atomic.
  - apply can_atomic.
Qed.

Lemma one_main_end cls sp r o : one_main cls sp r (Done o) → o = Ok tt ∧ r = nrpcs.
Proof.
  remember (Done o) as p eqn:Hp. intros Hm.
  destruct Hm as [Hlt Ha|cell Hcl Ha|cell Hcl Ha|cell Hcl Ha|r Hs Hle|Hs|Hs|]; [discriminate Hp..| |discriminate Hp|discriminate Hp|by injection Hp].
  destruct (decide (r = nrpcs)) as [->|Hne].
  - rewrite Nat.sub_diag in Hp. cbn in Hp. unfold one_checks in Hp. rewrite Nat.eqb_refl in Hp. discriminate Hp.
  - replace (nrpcs - r) with (S (nrpcs - S r)) in Hp by lia. discriminate Hp.
Qed.

#[export] Instance one_test : PoolTest one_args nrpcs 1 one_at one_main one_worker
  (λ server server_name, each (λ i, client ← atomic (create_client (client_number i));
                             atomic (enable (client_number i) true);;
                             atomic (connect (client_number i) server_name);;
                             atomic (spawn (i, client))) (seq 0 nrpcs);;
                  total ← receive_all nrpcs 0;
                  assert (total =? nrpcs);;
                  log ← atomic (gets (λ w, log2 (app w)));
                  assert (length log =? nrpcs);;
                  server_name ← atomic (name_of server);
                  n ← atomic (count server_name);
                  assert (n =? N.of_nat total)%N).
Proof.
  split.
  - pose proof (one_main_next (replicate nrpcs Absent) []) as Hm. simpl length in Hm. rewrite Nat.sub_0_r in Hm. apply Hm; [lia|].
    intros j _ Hj. by rewrite lookup_replicate_2.
  - intros i. by constructor.
  - intros i w Hs. unfold one_worker. cbn. by rewrite Hs.
  - intros cls calls r ws w ts p i f w' p'. apply one_step.
  - intros cls calls r ws w ts f w' p'. apply one_main_step.
  - intros i cl sp o Hat. inversion Hat as [| |cl' c p' Hc]; subst. by destruct (calling_end _ _ _ _ _ Hc).
  - intros i sp p Hat. inversion Hat as [| |cl' c p' Hc]; subst; [done|]. by inversion Hc.
  - intros cls calls r ws w ts i cl p Hp Hcl Hi Hans. by eapply one_goes_on.
  - apply one_main_end.
  - intros cls calls r ws w ts p. apply one_main_on.
Qed.

Lemma one_passes : passes (test_concurrent_one nrpcs :: (one_worker <$> seq 0 nrpcs)).
Proof. exact (pool_passes one_args nrpcs 1). Qed.
End one.
