(* ===== verification/LabTestsTheorems.v ===== *)
(** * Properties of the tests of the simulated network

    That the tests pass, in every interleaving of their threads and of the tasks of the
    network, and that their runs end. *)

From S2P Require Import Prelude Codec Conc Rpc LabTests LabTestsSpec LabPools LabPoolTests.

(** ** The loads of the tests with pools *)

Lemma many_load nclients nrpcs : (Z.of_nat (nclients * 100 + nrpcs) < 2 ^ 63)%Z → (N.of_nat (nclients * nrpcs) < USIZE)%N →
  Load (many_args nrpcs) nclients nrpcs.
Proof.
  intros Hargs Hcalls. split; [|intros i Hi| |done].
  - intros i. unfold many_args. by rewrite length_fmap, length_seq.
  - apply Forall_forall. intros x (j & -> & Hj%elem_of_seq)%list_elem_of_fmap. unfold i64, I64_MIN. lia.
  - unfold U64_MAX. lia.
Qed.

Lemma one_load nrpcs : (Z.of_nat nrpcs + 100 < 2 ^ 63)%Z → Load one_args nrpcs 1.
Proof.
  intros Hargs. split; [done|intros i Hi| |].
  - apply Forall_singleton. unfold i64, I64_MIN. lia.
  - unfold U64_MAX. lia.
  - unfold USIZE. lia.
Qed.

Section theorems.
Context {EncodeError DecodeError : Type} `{!Messages EncodeError DecodeError}.
#[local] Abbreviation World C T := (@World EncodeError DecodeError unit unit (Shared C T)).

(** C18: [test_concurrent_many] passes, for any numbers of clients and of calls that do not
    overflow: whatever the interleaving of the main thread, the pool and the tasks of the
    network, no assertion fails and no [unwrap] panics, in particular every client gets the
    reply to each of its own calls, the server counts each call once, and until all threads
    are done one of them or a task of the network can go on. *)
Theorem concurrent_many_passes `{!MessagesLaws} nclients nrpcs :
  (Z.of_nat (nclients * 100 + nrpcs) < 2 ^ 63)%Z → (N.of_nat (nclients * nrpcs) < USIZE)%N →
  passes (test_concurrent_many nclients nrpcs :: (many_worker nrpcs <$> seq 0 nclients)).
Proof. intros Hargs Hcalls. by apply many_passes, many_load. Qed.

(** C20: [test_concurrent_one] passes, for any number of calls: in every interleaving each
    call gets its own reply, the service has logged and the server has counted each of
    them once, and until all threads are done one of them or a task can go on. *)
Theorem concurrent_one_passes `{!MessagesLaws} nrpcs : (Z.of_nat nrpcs + 100 < 2 ^ 63)%Z →
  passes (test_concurrent_one nrpcs :: (one_worker <$> seq 0 nrpcs)).
Proof. intros Hargs. by apply one_passes, one_load. Qed.

(** C19: the tests with one thread pass in every interleaving with the tasks of the
    network, and [test_network_client_rpc], whose main thread answers the requests itself,
    in every interleaving of its threads. *)
Theorem tests_pass `{!MessagesLaws} :
  (passes [test_service_dispatch] ∧ passes [test_basic] ∧ passes [test_disconnect] ∧ passes [test_count] ∧ passes [test_rpc_hooks]) ∧
  passes_by unserved [test_network_client_rpc; caller_worker 0; caller_worker 1].
Proof.
  split; [split_and!; apply alone_passes|apply client_rpc_passes].
  - apply dispatch_alone.
  - apply basic_alone.
  - apply disconnect_alone.
  - apply count_alone.
  - apply hooks_alone.
Qed.

(** Every run of a test ends: whatever the programs of its threads, there is no
    infinite sequence of steps of the threads, of requests that the network takes in, and
    of steps of its tasks. *)
Theorem runs_of_tests_end {C T} (ts : list (prog (Error EncodeError DecodeError) (World C T) unit)) : Acc test_next (begin ts).
Proof. apply test_next_wf. constructor. Qed.
End theorems.

(** ** A codec *)

(** A message is the digits of its number; that of the arguments by default is empty. *)
Definition write_message {A} `{Countable A} (a : A) : bytes := digits (encode a) ++ [semicolon].
Definition read_message {A} `{Countable A} (b : bytes) : unit + A :=
  match codec_read b with
  | Some (a, []) => inr a
  | _ => inl tt
  end.

#[local] Instance digit_messages : Messages unit unit := {
  encode_args a := inr (if (args_x a =? 0)%Z then [] else write_message (args_x a));
  decode_args b := match b with [] => inr (mkJunkArgs 0) | _ => sum_map id mkJunkArgs (read_message b) end;
  encode_reply r := inr (write_message (reply_x r));
  decode_reply b := sum_map id mkJunkReply (read_message b);
}.

Lemma read_write_message {A} `{Countable A} (a : A) : read_message (write_message a) = inr a.
Proof. unfold read_message, write_message. by rewrite codec_read_app. Qed.

Lemma digit_laws : MessagesLaws.
Proof.
  split; simpl.
  - intros x _. eexists. split; [done|]. destruct (x =? 0)%Z eqn:Hx; [by apply Z.eqb_eq in Hx as ->|].
    rewrite read_write_message. unfold write_message. by destruct (digits (encode x)).
  - intros s. eexists. split; [done|]. by rewrite read_write_message.
  - done.
  - by exists tt.
Qed.

Lemma concurrent_many_passes_witness : passes (test_concurrent_many 20 10 :: (many_worker 10 <$> seq 0 20)).
Proof. apply (@concurrent_many_passes unit unit digit_messages digit_laws 20 10); reflexivity. Defined.

Lemma concurrent_one_passes_witness : passes (test_concurrent_one 20 :: (one_worker <$> seq 0 20)).
Proof. apply (@concurrent_one_passes unit unit digit_messages digit_laws 20); reflexivity. Defined.

Lemma tests_pass_witness : passes [test_count].
Proof. apply (@tests_pass unit unit digit_messages digit_laws). Defined.
