(* ===== verification/Persister.v ===== *)
(** * Where a raft server keeps its state ([dss/raft/src/raft/persister.rs])

    A [SimplePersister] is a pair of buffers behind a mutex, shared by everyone who has
    the [Arc]. Each access takes the mutex on its own. *)

From S2P Require Import Prelude Conc.

(** The [SimplePersister]s that were made; an [Arc] points to one of them. The lock is
    never poisoned: nothing panics while it is held. *)
Abbreviation SimplePersister := nat (only parsing).
Abbreviation Persisters := (list (bytes * bytes)).

Section persister.
Context {E : Type}.
Abbreviation PP := (prog E Persisters).

(** The trait [Persister]. *)
Record Persister := mkPersister {
  raft_state : PP bytes;
  save_raft_state : bytes → PP unit;
  save_state_and_snapshot : bytes → bytes → PP unit;
  snapshot : PP bytes;
}.

(** [SimplePersister::new]. *)
Definition new : M E Persisters SimplePersister := λ ps, (Ok (length ps), ps ++ [([], [])]).

Definition simple_persister (p : SimplePersister) : Persister := {|
  raft_state := st ← atomic (gets (lookup p) ≫= expect); mret (fst st);
  save_raft_state := λ state, atomic (modify (alter (λ st, (state, snd st)) p));
  save_state_and_snapshot := λ state snap,
    atomic (modify (alter (λ st, (state, snd st)) p));;
    atomic (modify (alter (λ st, (fst st, snap)) p));
  snapshot := st ← atomic (gets (lookup p) ≫= expect); mret (snd st);
|}.

(** A [Box] and an [Arc] of a persister are persisters. *)
Definition box_persister (p : Persister) : Persister := {|
  raft_state := raft_state p;
  save_raft_state := save_raft_state p;
  save_state_and_snapshot := save_state_and_snapshot p;
  snapshot := snapshot p;
|}.
Definition arc_persister (p : Persister) : Persister := {|
  raft_state := raft_state p;
  save_raft_state := save_raft_state p;
  save_state_and_snapshot := save_state_and_snapshot p;
  snapshot := snapshot p;
|}.

(** What the two test configurations do when a server crashes or starts: a fresh
    persister with what the old one has. The first leaves the snapshot behind. *)
Definition copy_state (old : SimplePersister) : PP SimplePersister :=
  p ← atomic new;
  state ← raft_state (arc_persister (simple_persister old));
  save_raft_state (simple_persister p) state;;
  mret p.

Definition copy_both (old : SimplePersister) : PP SimplePersister :=
  p ← atomic new;
  state ← raft_state (arc_persister (simple_persister old));
  snap ← snapshot (arc_persister (simple_persister old));
  save_state_and_snapshot (simple_persister p) state snap;;
  mret p.

(** ** Each operation alone *)

Lemma raft_state_run p st ps : ps !! p = Some st → run (raft_state (simple_persister p)) ps = Some (Ok st.1, ps).
Proof. intros H. simpl. unfold gets, mbind, M_bind. by rewrite H. Qed.

Lemma snapshot_run p st ps : ps !! p = Some st → run (snapshot (simple_persister p)) ps = Some (Ok st.2, ps).
Proof. intros H. simpl. unfold gets, mbind, M_bind. by rewrite H. Qed.

Lemma save_run p st ps state snap : ps !! p = Some st →
  run (save_state_and_snapshot (simple_persister p) state snap) ps = Some (Ok tt, <[p := (state, snap)]> ps).
Proof.
  intros H. simpl. do 2 f_equal. apply list_eq. intros i. rewrite list_lookup_insert.
  destruct (decide (p = i)) as [<-|Hne].
  - rewrite !list_lookup_alter_eq, H. simpl. rewrite decide_True; [done|]. split; [done|by eapply lookup_lt_Some].
  - rewrite !list_lookup_alter_ne by done. rewrite decide_False; [done|naive_solver].
Qed.

(** ** Copies made alone *)

Lemma copy_state_run old st ps : ps !! old = Some st →
  run (copy_state old) ps = Some (Ok (length ps), ps ++ [(st.1, [])]).
Proof.
  intros H. unfold copy_state. erewrite run_atomic_ok by reflexivity.
  erewrite run_bind_ok; [|apply raft_state_run; by apply lookup_app_l_Some].
  simpl. by rewrite alter_app_r_alt, Nat.sub_diag by lia.
Qed.

Lemma copy_both_run old st ps : ps !! old = Some st →
  run (copy_both old) ps = Some (Ok (length ps), ps ++ [st]).
Proof.
  intros H. unfold copy_both. erewrite run_atomic_ok by reflexivity.
  assert ((ps ++ [([], [])]) !! old = Some st) as Hold by by apply lookup_app_l_Some.
  erewrite run_bind_ok; [|by apply raft_state_run]. erewrite run_bind_ok; [|by apply snapshot_run].
  erewrite run_bind_ok; [|eapply save_run; rewrite lookup_app_r, Nat.sub_diag by lia; reflexivity].
  simpl. rewrite insert_app_r_alt, Nat.sub_diag by lia. by destruct st.
Qed.

End persister.
