(* ===== verification/Harness.v ===== *)
(** * What the test configurations of the raft labs share

    The mutexes, loops and end names of [dss/raft/src/raft/config.rs] and
    [dss/raft/src/kvraft/config.rs], and what the operations of the network that they use
    do to a network that is in order. *)

From S2P Require Import Prelude Conc Rpc RpcSpec.

(** ** Mutexes *)

(** [std::sync::Mutex]: a panic with the guard alive poisons it. *)
Record Mutex (A : Type) := mkMutex { inside : A; mx_poisoned : bool }.
Arguments mkMutex {A} _ _.
Arguments inside {A} _.
Arguments mx_poisoned {A} _.

Definition with_mutex {E A B} (m : M E A B) : M E (Mutex A) B := λ mx,
  if mx_poisoned mx then (Panic, mx)
  else match m (inside mx) with
       | (Panic, a) => (Panic, mkMutex a true)
       | (o, a) => (o, mkMutex a false)
       end.

Lemma mutex_free {A} (mx : Mutex A) : mx_poisoned mx = false → mkMutex (inside mx) false = mx.
Proof. destruct mx; simpl. by intros ->. Qed.

(** ** Loops *)

(** A loop that collects what its turns give. *)
Fixpoint collect {E S A B} (f : A → M E S B) (l : list A) : M E S (list B) :=
  match l with
  | [] => mret []
  | a :: l' => b ← f a; bs ← collect f l'; mret (b :: bs)
  end.

Definition enumerate {A} (l : list A) : list (nat * A) := imap pair l.

(** Code that only touches one part of the state. *)
Definition part {E C S A} (get : C → S) (set : S → C → C) (m : M E S A) : M E C A := λ c,
  let '(o, s) := m (get c) in (o, set s c).

(** The subtraction of a debug build. *)
Definition checked_sub {E S} (a b : N) : M E S N := if (b <=? a)%N then mret (a - b)%N else panic.

(** ** End names *)

(** [uniqstring], on its counter. *)
Definition uniqstring {E} : M E N string := k ← gets id; modify fetch_add_1;; mret (fmt_u64 k).

(** The name of a server. *)
Definition server_name (i : nat) : string := fmt_u64 (N.of_nat i).

Lemma fmt_name_nonempty k : fmt_u64 k ≠ "".
Proof. apply fmt_u64_nonempty. Qed.

Lemma server_name_inj i j : server_name i = server_name j → i = j.
Proof. unfold server_name. intros ?%fmt_u64_inj. lia. Qed.

(** Names that were never used. *)
Lemma uniqstrings_run {E} k id : (id + N.of_nat k < USIZE)%N →
  collect (E := E) (λ _ : nat, uniqstring) (seq 0 k) id = (Ok ((λ j, fmt_u64 (id + N.of_nat j)%N) <$> seq 0 k), (id + N.of_nat k)%N).
Proof.
  assert (∀ o id, (id + N.of_nat k < USIZE)%N → collect (E := E) (λ _ : nat, uniqstring) (seq o k) id
    = (Ok ((λ j, fmt_u64 (id + N.of_nat j)%N) <$> seq 0 k), (id + N.of_nat k)%N)) as H; [|by apply H].
  clear id. induction k as [|k IH]; intros o id Hlt; simpl.
  { by rewrite N.add_0_r. }
  assert (uniqstring (E := E) id = (Ok (fmt_u64 id), (id + 1)%N)) as Hu.
  { unfold uniqstring. mpure. unfold modify, mbind, M_bind, fetch_add_1. rewrite N.mod_small by lia. done. }
  rewrite (bind_ok _ _ _ _ _ Hu). erewrite bind_ok; [|apply IH; lia]. simpl. rewrite N.add_0_r.
  replace (id + 1 + N.of_nat k)%N with (id + N.pos (Pos.of_succ_nat k))%N by lia.
  unfold mret, M_ret. do 2 f_equal. f_equal. rewrite <-fmap_S_seq, <-list_fmap_compose.
  apply list_fmap_ext. intros ? j _. simpl. f_equal. lia.
Qed.

(** Names for [n] servers, from [id] on. *)
Definition new_names (id : N) (n : nat) : list string := (λ j, fmt_u64 (id + N.of_nat j)%N) <$> seq 0 n.

Lemma lookup_new_names id n j nm : new_names id n !! j = Some nm ↔ j < n ∧ nm = fmt_u64 (id + N.of_nat j)%N.
Proof.
  unfold new_names. rewrite list_lookup_fmap. split.
  - intros H. destruct (seq 0 n !! j) as [k|] eqn:Hk; [|done]. apply lookup_seq in Hk as [-> ?]. by simplify_eq/=.
  - intros [Hj ->]. by rewrite lookup_seq_lt.
Qed.

Lemma elem_of_new_names id n nm : nm ∈ new_names id n ↔ ∃ j, j < n ∧ nm = fmt_u64 (id + N.of_nat j)%N.
Proof. rewrite list_elem_of_lookup. by setoid_rewrite lookup_new_names. Qed.

Lemma NoDup_new_names id n : NoDup (new_names id n).
Proof.
  apply NoDup_alt. intros i j nm Hi%lookup_new_names Hj%lookup_new_names. destruct Hi as [_ ->], Hj as [_ Hj%fmt_u64_inj]. lia.
Qed.

Lemma length_new_names id n : length (new_names id n) = n.
Proof. unfold new_names. by rewrite length_fmap, length_seq. Qed.

Lemma lookup_foldl_insert (b : bool) names m name :
  foldl (λ m nm, <[nm := b]> m) m names !! name = if decide (name ∈ names) then Some b else (m : gmap string bool) !! name.
Proof.
  revert m. induction names as [|nm names IH]; intros m; cbn [foldl]; [by rewrite decide_False by apply not_elem_of_nil|].
  rewrite IH, lookup_insert. destruct (decide (name ∈ names)) as [Hin|Hin].
  - by rewrite decide_True by (by right).
  - destruct (decide (nm = name)) as [->|Hne]; [by rewrite decide_True by left|].
    rewrite decide_False; [done|]. intros [|]%elem_of_cons; congruence.
Qed.

(** The clients in [P] are set to [b], the others are as they were. *)
Definition switched (P : string → Prop) (b : bool) (m m' : gmap string bool) : Prop :=
  ∀ name, (P name → m' !! name = Some b) ∧ (¬ P name → m' !! name = m !! name).

Lemma switched_iff P Q b m m' : (∀ nm, P nm ↔ Q nm) → switched P b m m' → switched Q b m m'.
Proof. intros H Hs nm. specialize (Hs nm). rewrite H in Hs. exact Hs. Qed.

(** ** The network operations *)

Section net.
Context {EncodeError DecodeError Factory Hooks App : Type}.
Abbreviation E := (Error EncodeError DecodeError).
Abbreviation NetWorld := (@Rpc.World EncodeError DecodeError Factory Hooks App).
Implicit Types (w : NetWorld).

Abbreviation eps w := (endpoints (core w)).

(** The ClientEnd of the server for [j]. *)
Definition make_end (jn : nat * string) : M E NetWorld Client :=
  cli ← create_client jn.2;
  Rpc.connect jn.2 (server_name jn.1);;
  mret cli.

Definition with_enabled (m : gmap string bool) w : NetWorld :=
  with_endpoints (mkEndpoints m (servers (eps w)) (connections (eps w))) w.

Lemma enable_run name b w : poisoned (core w) = false →
  enable name b w = (Ok tt, with_enabled (<[name := b]> (enabled (eps w))) w).
Proof. intros H. unfold enable, locked. by rewrite H. Qed.

Lemma delete_server_run name w : poisoned (core w) = false →
  delete_server name w = (Ok tt, match servers (eps w) !! name with
    | Some _ => with_endpoints (mkEndpoints (enabled (eps w)) (<[name := None]> (servers (eps w))) (connections (eps w))) w
    | None => w
    end).
Proof. intros H. unfold delete_server, locked, get_endpoints. rewrite H. mpure. by destruct (servers _ !! name). Qed.

Lemma create_client_run name w : poisoned (core w) = false →
  create_client name w = (Ok (mkClient name (length (cells w))),
    with_cells (cells w ++ [mkHookCell None false])
      (with_endpoints (mkEndpoints (<[name := false]> (enabled (eps w))) (servers (eps w)) (<[name := None]> (connections (eps w)))) w)).
Proof. intros H. unfold create_client, locked, get_endpoints. by rewrite H. Qed.

Lemma connect_run client server w : poisoned (core w) = false →
  Rpc.connect client server w = (Ok tt,
    with_endpoints (mkEndpoints (enabled (eps w)) (servers (eps w)) (<[client := Some server]> (connections (eps w)))) w).
Proof. intros H. unfold Rpc.connect, locked. by rewrite H. Qed.

Lemma add_server_run srv sc w : poisoned (core w) = false → cores w !! srv = Some sc →
  add_server srv w = (Ok tt,
    with_endpoints (mkEndpoints (enabled (eps w)) (<[core_name sc := Some srv]> (servers (eps w))) (connections (eps w))) w).
Proof.
  intros H Hs. unfold add_server, locked, get_endpoints. rewrite H. mpure.
  erewrite bind_ok; [|unfold get_core; rewrite Hs; reflexivity]. done.
Qed.

Lemma with_enabled_same w : with_enabled (enabled (eps w)) w = w.
Proof. destruct w as [[? ? ? [] ? ?] ? ? ? ? ? ? ? ?]. done. Qed.

Lemma with_enabled_twice m m' w : with_enabled m (with_enabled m' w) = with_enabled m w.
Proof. done. Qed.
(** A loop that enables or disables the clients that [name_of] gives. *)
Lemma for_each_switch {A} (f : A → M E NetWorld unit) (name_of : A → option string) b l w : poisoned (core w) = false →
  (∀ a w', a ∈ l → poisoned (core w') = false → f a w' = (Ok tt, match name_of a with Some nm => with_enabled (<[nm := b]> (enabled (eps w'))) w' | None => w' end)) →
  for_each f l w = (Ok tt, with_enabled (foldl (λ m nm, <[nm := b]> m) (enabled (eps w)) (omap name_of l)) w).
Proof.
  revert w. induction l as [|a l IH]; intros w Hs Hf; simpl; [by rewrite with_enabled_same|].
  rewrite (bind_ok _ _ _ _ _ (Hf a w ltac:(by left) Hs)).
  destruct (name_of a) as [nm|]; rewrite IH; try done; intros; by apply Hf; [right|].
Qed.

(** ** Clients of a new instance *)

(** The network after the clients [names], those of a server for the servers from [o] on,
    were made. *)
Record ends_made (o : nat) (names : list string) (w w' : NetWorld) : Prop := {
  em_sound : poisoned (core w') = poisoned (core w);
  em_servers : servers (endpoints (core w')) = servers (endpoints (core w));
  em_cores : cores w' = cores w;
  em_enabled : switched (λ nm, nm ∈ names) false (enabled (endpoints (core w))) (enabled (endpoints (core w')));
  em_connections : ∀ j nm, names !! j = Some nm → connections (endpoints (core w')) !! nm = Some (Some (server_name (o + j)));
  em_others : ∀ nm, nm ∉ names → connections (endpoints (core w')) !! nm = connections (endpoints (core w)) !! nm;
}.

Lemma make_end_run j nm w : poisoned (core w) = false → ∃ cli w', make_end (j, nm) w = (Ok cli, w') ∧ ends_made j [nm] w w' ∧ cl_name cli = nm.
Proof.
  intros Hs. unfold make_end. cbn [fst snd].
  erewrite bind_ok; [|by rewrite create_client_run]. erewrite bind_ok; [|by rewrite connect_run].
  eexists _, _. split; [reflexivity|]. split; [|done]. split; simpl; try done.
  - intros name. simpl. rewrite lookup_insert. split.
    + intros ->%list_elem_of_singleton. by rewrite decide_True.
    + intros Hne. rewrite decide_False; [done|]. intros ->. apply Hne. by left.
  - intros [|k] nm' [= <-]. by rewrite lookup_insert_eq, Nat.add_0_r.
  - intros nm' Hne. rewrite insert_insert_eq, lookup_insert_ne; [done|]. intros ->. apply Hne. by left.
Qed.

Lemma ends_made_cons o nm names w w1 w2 : nm ∉ names → ends_made o [nm] w w1 → ends_made (S o) names w1 w2 →
  ends_made o (nm :: names) w w2.
Proof.
  intros Hnin [] []. split; try congruence.
  - intros name. destruct (em_enabled0 name) as [H1 H2], (em_enabled1 name) as [H3 H4].
    rewrite list_elem_of_singleton in H1, H2. rewrite elem_of_cons. destruct (decide (name ∈ names)); [naive_solver|].
    rewrite H4 by done. destruct (decide (name = nm)); naive_solver.
  - intros [|j] nm'; simpl.
    + intros [= <-]. rewrite em_others1 by done. by apply em_connections0.
    + intros Hj. rewrite (em_connections1 _ _ Hj). do 3 f_equal. lia.
  - intros nm'. rewrite elem_of_cons. intros Hn. rewrite em_others1 by naive_solver. apply em_others0.
    rewrite list_elem_of_singleton. naive_solver.
Qed.

Lemma make_ends_run o names w : poisoned (core w) = false → NoDup names →
  ∃ clis w', collect make_end (imap (λ j nm, (o + j, nm)) names) w = (Ok clis, w')
    ∧ ends_made o names w w' ∧ cl_name <$> clis = names.
Proof.
  revert o w. induction names as [|nm names IH]; intros o w Hs Hd.
  { exists [], w. split; [done|]. split; [|done]. split; try done. intros nm. split; [by intros ?%not_elem_of_nil|done]. }
  apply NoDup_cons in Hd as [Hnin Hd]. destruct (make_end_run o nm w Hs) as (cli & w1 & Hrun & Hw1 & Hcli).
  destruct (IH (S o) w1) as (clis & w2 & Hruns & Hw2 & Hclis); [by rewrite (em_sound _ _ _ _ Hw1)|done|].
  exists (cli :: clis), w2. rewrite imap_cons. cbn [collect]. rewrite Nat.add_0_r, (bind_ok _ _ _ _ _ Hrun).
  assert (imap ((λ j nm, (o + j, nm)) ∘ S) names = imap (λ j nm, (S o + j, nm)) names) as ->
    by (apply imap_ext; intros; simpl; f_equal; lia).
  rewrite (bind_ok _ _ _ _ _ Hruns). split_and!; [done|by eapply ends_made_cons|]. by rewrite fmap_cons, Hcli, Hclis.
Qed.
End net.
