(* ===== verification/RaftConfig.v ===== *)
(** * The test configuration of the raft lab ([dss/raft/src/raft/config.rs])

    A [Config] starts, crashes and connects the servers of a raft cluster on a simulated
    network, collects what they commit, and has the checks that the tests make. Raft
    itself is the exercise and so a parameter ([RaftNode]); it keeps its state in [lib].
    The operations that change the configuration are [M] programs of the thread of the
    test; the checks are [prog]s that wait while everything else goes on. *)

From S2P Require Import Prelude Conc Rpc Persister Harness.

(** ** [raft/mod.rs] *)

Record ApplyMsg := mkApplyMsg { command_valid : bool; command : bytes; command_index : N }.

Record State := mkState { term : N; is_leader : bool }.

(** ** Storage *)

Record Entry := mkEntry { x : N }.
#[export] Instance Entry_eq_dec : EqDecision Entry.
Proof. solve_decision. Defined.

Record Storage := mkStorage {
  logs : list (gmap N Entry);
  max_index : N;
  max_index0 : N;
}.

Section storage.
Context {E : Type}.

(** The loop of [Storage::n_committed]. *)
Fixpoint count_committed {S} (index : N) (ls : list (gmap N Entry)) (count : nat) (cmd : option Entry) : M E S (nat * option Entry) :=
  match ls with
  | [] => mret (count, cmd)
  | log :: ls' =>
      let cmd1 := log !! index in
      if bool_decide (is_Some cmd1) then
        if (0 <? count) && bool_decide (cmd ≠ cmd1) then panic
        else count_committed index ls' (count + 1) cmd1
      else count_committed index ls' count cmd
  end.

Definition Storage_n_committed (index : N) : M E Storage (nat * option Entry) :=
  ls ← gets logs; count_committed index ls 0 None.

(** A command that the server [i] says is committed. *)
Definition apply_entry (i : nat) (index : N) (entry : Entry) : M E Storage unit :=
  ls ← gets logs;
  if existsb (λ log, match log !! index with Some old => bool_decide (old ≠ entry) | None => false end) ls then panic
  else
    log ← expect (ls !! i);
    if (1 <? index)%N && bool_decide (log !! (index - 1)%N = None) then panic
    else
      modify (λ s, mkStorage (<[i := <[index := entry]> log]> (logs s)) (max_index s) (max_index0 s));;
      modify (λ s, mkStorage (logs s) (if (max_index s <? index)%N then index else max_index s) (max_index0 s)).

(** The closure that [start1] gives to [apply_ch.for_each]; [decode] is [labcodec::decode]. *)
Definition apply {DecodeError} (decode : bytes → DecodeError + Entry) (i : nat) (cmd : ApplyMsg) : M E (Mutex Storage) unit :=
  if negb (command_valid cmd) then mret tt
  else match decode (command cmd) with
       | inr entry => with_mutex (apply_entry i (command_index cmd) entry)
       | inl _ => panic
       end.

(** A task of [spawn_poller] takes a message: [for_each] calls the closure for the messages
    of one channel in turn, until it panics, and that ends the task. [pollers] are the
    servers of the channels; the second part of the state are the channels whose tasks
    have ended. *)
Definition poll_apply {DecodeError} (decode : bytes → DecodeError + Entry) (pollers : list nat) (ch : nat) (cmd : ApplyMsg)
    (st : Mutex Storage * list nat) : Mutex Storage * list nat :=
  match pollers !! ch with
  | Some i =>
      if bool_decide (ch ∈ st.2) then st
      else match apply decode i cmd st.1 with
           | (Ok _, s) => (s, st.2)
           | (_, s) => (s, ch :: st.2)
           end
  | None => st
  end.
End storage.

Section config.
Context {EncodeError DecodeError Factory Hooks App Node Lib RaftError : Type}.

Abbreviation E := (Error EncodeError DecodeError).
Abbreviation NetWorld := (@Rpc.World EncodeError DecodeError Factory Hooks App).

(** [raft::Raft] and [raft::Node]; [lib] is the state of all of them. *)
Class RaftNode := {
  node_new : list Client → nat → SimplePersister → nat → Persisters → Lib → Node * Lib;
  node_start : Node → Entry → Lib → (RaftError + N * N) * Lib;
  node_term : Node → Lib → N;
  node_is_leader : Node → Lib → bool;
  node_kill : Node → Lib → Lib;
  raft_factory : Node → Factory;
}.

(** [Config]; after it what the source reaches without it: the counter [ID], the
    persisters, the servers whose committed commands are read from the channels made so
    far, the clock in milliseconds and the state of raft. *)
Record Config := mkConfig {
  net : NetWorld;
  cfg_n : nat;
  rafts : Mutex (list (option Node));
  connected : list bool;
  saved : list SimplePersister;
  endnames : list (list string);
  storage : Mutex Storage;
  cfg_start : N;
  t0 : N;
  rpcs0 : N;
  cmds0 : N;
  ID : N;
  persisters : Persisters;
  pollers : list nat;
  clock : N;
  lib : Lib;
}.

Definition set_net (v : NetWorld) (c : Config) : Config :=
  mkConfig v (cfg_n c) (rafts c) (connected c) (saved c) (endnames c) (storage c) (cfg_start c) (t0 c) (rpcs0 c) (cmds0 c) (ID c) (persisters c) (pollers c) (clock c) (lib c).
Definition set_rafts (v : Mutex (list (option Node))) (c : Config) : Config :=
  mkConfig (net c) (cfg_n c) v (connected c) (saved c) (endnames c) (storage c) (cfg_start c) (t0 c) (rpcs0 c) (cmds0 c) (ID c) (persisters c) (pollers c) (clock c) (lib c).
Definition set_connected (v : list bool) (c : Config) : Config :=
  mkConfig (net c) (cfg_n c) (rafts c) v (saved c) (endnames c) (storage c) (cfg_start c) (t0 c) (rpcs0 c) (cmds0 c) (ID c) (persisters c) (pollers c) (clock c) (lib c).
Definition set_saved (v : list SimplePersister) (c : Config) : Config :=
  mkConfig (net c) (cfg_n c) (rafts c) (connected c) v (endnames c) (storage c) (cfg_start c) (t0 c) (rpcs0 c) (cmds0 c) (ID c) (persisters c) (pollers c) (clock c) (lib c).
Definition set_endnames (v : list (list string)) (c : Config) : Config :=
  mkConfig (net c) (cfg_n c) (rafts c) (connected c) (saved c) v (storage c) (cfg_start c) (t0 c) (rpcs0 c) (cmds0 c) (ID c) (persisters c) (pollers c) (clock c) (lib c).
Definition set_storage (v : Mutex Storage) (c : Config) : Config :=
  mkConfig (net c) (cfg_n c) (rafts c) (connected c) (saved c) (endnames c) v (cfg_start c) (t0 c) (rpcs0 c) (cmds0 c) (ID c) (persisters c) (pollers c) (clock c) (lib c).
Definition set_stats (t r m : N) (c : Config) : Config :=
  mkConfig (net c) (cfg_n c) (rafts c) (connected c) (saved c) (endnames c) (storage c) (cfg_start c) t r m (ID c) (persisters c) (pollers c) (clock c) (lib c).
Definition set_ID (v : N) (c : Config) : Config :=
  mkConfig (net c) (cfg_n c) (rafts c) (connected c) (saved c) (endnames c) (storage c) (cfg_start c) (t0 c) (rpcs0 c) (cmds0 c) v (persisters c) (pollers c) (clock c) (lib c).
Definition set_persisters (v : Persisters) (c : Config) : Config :=
  mkConfig (net c) (cfg_n c) (rafts c) (connected c) (saved c) (endnames c) (storage c) (cfg_start c) (t0 c) (rpcs0 c) (cmds0 c) (ID c) v (pollers c) (clock c) (lib c).
Definition set_pollers (v : list nat) (c : Config) : Config :=
  mkConfig (net c) (cfg_n c) (rafts c) (connected c) (saved c) (endnames c) (storage c) (cfg_start c) (t0 c) (rpcs0 c) (cmds0 c) (ID c) (persisters c) v (clock c) (lib c).
Definition set_clock (v : N) (c : Config) : Config :=
  mkConfig (net c) (cfg_n c) (rafts c) (connected c) (saved c) (endnames c) (storage c) (cfg_start c) (t0 c) (rpcs0 c) (cmds0 c) (ID c) (persisters c) (pollers c) v (lib c).
Definition set_lib (v : Lib) (c : Config) : Config :=
  mkConfig (net c) (cfg_n c) (rafts c) (connected c) (saved c) (endnames c) (storage c) (cfg_start c) (t0 c) (rpcs0 c) (cmds0 c) (ID c) (persisters c) (pollers c) (clock c) v.

Abbreviation CM := (M E Config).
Abbreviation CP := (prog E Config).

Definition on_net {A} (m : M E NetWorld A) : CM A := part net set_net m.
Definition on_rafts {A} (m : M E (list (option Node)) A) : CM A := part rafts set_rafts (with_mutex m).
Definition on_storage {A} (m : M E Storage A) : CM A := part storage set_storage (with_mutex m).
(** Programs of a persister, which no one else uses at that moment. *)
Definition on_persisters {A} (p : prog E Persisters A) : CM A :=
  part persisters set_persisters (λ ps, default (Diverge, ps) (run p ps)).

(** [l[i] = a] *)
Definition store {A} (get : Config → list A) (set : list A → Config → Config) (i : nat) (a : A) : CM unit :=
  l ← gets get; _ ← expect (l !! i); modify (set (<[i := a]> l)).

Definition on_ID {A} (m : M E N A) : CM A := part ID set_ID m.

(** ** Servers on and off the network *)

Definition disconnect (i : nat) : CM unit :=
  store connected set_connected i false;;
  (* outgoing ClientEnds *)
  names ← gets endnames ≫= λ es, expect (es !! i);
  for_each (λ endname, on_net (enable endname false)) names;;
  (* incoming ClientEnds *)
  rows ← gets endnames;
  for_each (λ names, endname ← expect (names !! i); on_net (enable endname false)) rows.

Definition connect (i : nat) : CM unit :=
  store connected set_connected i true;;
  cs ← gets connected;
  (* outgoing ClientEnds *)
  for_each (λ '(j, connected), if (connected : bool) then
    names ← gets endnames ≫= λ es, expect (es !! i); endname ← expect (names !! j); on_net (enable endname true)
    else mret tt) (enumerate cs);;
  (* incoming ClientEnds *)
  for_each (λ '(j, connected), if (connected : bool) then
    names ← gets endnames ≫= λ es, expect (es !! j); endname ← expect (names !! i); on_net (enable endname true)
    else mret tt) (enumerate cs).

Context {raft : RaftNode}.

(** [if let Some(rf) = self.rafts.lock().unwrap()[i].take() { rf.kill(); }] *)
Definition take_raft (i : nat) : M E (list (option Node)) (option Node) :=
  l ← gets id; o ← expect (l !! i); modify (λ _, <[i := None]> l);; mret o.

Definition crash1 (i : nat) : CM unit :=
  disconnect i;;
  on_net (delete_server (server_name i));;
  old ← gets saved ≫= λ l, expect (l !! i);
  p ← on_persisters (copy_state old);
  store saved set_saved i p;;
  o ← on_rafts (take_raft i);
  match o with
  | Some rf => modify (λ c, set_lib (node_kill rf (lib c)) c)
  | None => mret tt
  end.

Definition new_node (clients : list Client) (i : nat) : CM Node :=
  p ← gets saved ≫= λ l, expect (l !! i);
  ch ← gets (λ c, length (pollers c));
  modify (λ c, set_pollers (pollers c ++ [i]) c);;
  c ← gets id;
  let '(node, l) := node_new clients i p ch (persisters c) (lib c) in
  modify (set_lib l);;
  mret node.

(** A server for the node, on the network under the name of [i]. *)
Definition serve_node (node : Node) (i : nat) : CM unit :=
  match add_service (EncodeError := EncodeError) (DecodeError := DecodeError) "raft" (raft_factory node) (new_builder (server_name i)) with
  | (Ok _, builder) => srv ← on_net (build builder); on_net (add_server srv)
  | _ => panic
  end.

Definition start1 (i : nat) : CM unit :=
  crash1 i;;
  n ← gets cfg_n;
  names ← on_ID (collect (λ _, uniqstring) (seq 0 n));
  store endnames set_endnames i names;;
  clients ← on_net (collect make_end (enumerate names));
  node ← new_node clients i;
  on_rafts (l ← gets id; _ ← expect (l !! i); modify (λ _, <[i := Some node]> l));;
  serve_node node i.

(** The [Config] that [new] fills in, and then starts. *)
Definition blank (n : nat) (unreliable : bool) (w : NetWorld) (id now : N) (l : Lib) : Config :=
  mkConfig (set_long_delays true (set_reliable (negb unreliable) w).2).2 n
    (mkMutex (replicate n None) false) (replicate n true) (seq 0 n) (replicate n (replicate n ""))
    (mkMutex (mkStorage (replicate n ∅) 0 0) false) now now 0 0 id (replicate n ([], [])) [] now l.

Definition start_all : CM unit :=
  n ← gets cfg_n;
  for_each start1 (seq 0 n);;
  for_each connect (seq 0 n).

Definition new (n : nat) (unreliable : bool) (a : App) (id now : N) (l : Lib) : outcome E unit * Config :=
  start_all (blank n unreliable (world (new_network a)) id now l).

(** ** Statistics *)

Definition rpc_count (server : nat) : CM N := on_net (count (server_name server)).
Definition rpc_total : CM N := on_net total_count.

Definition check_timeout : CM unit :=
  c ← gets id; if (120000 <? clock c - cfg_start c)%N then panic else mret tt.

Definition begin : CM unit :=
  total ← rpc_total;
  modify (λ c, set_stats (clock c) total 0 c);;
  on_storage (modify (λ s, mkStorage (logs s) (max_index s) (max_index s))).

(** What [end] prints: the time, the peers, the requests and the commands. *)
Definition finish : CM (N * nat * N * N) :=
  check_timeout;;
  c ← gets id;
  total ← rpc_total;
  nrpc ← checked_sub total (rpcs0 c);
  ncmds ← on_storage (s ← gets id; checked_sub (max_index s) (max_index0 s));
  mret ((clock c - t0 c)%N, cfg_n c, nrpc, ncmds).

(** [Drop for Config] when the mutex of [rafts] is free. *)
Definition kill_all : CM unit :=
  rs ← gets rafts;
  (if mx_poisoned rs then mret tt
   else for_each (λ r, match r with Some rf => modify (λ c, set_lib (node_kill rf (lib c)) c) | None => mret tt end) (inside rs));;
  check_timeout.

(** ** The checks *)

Definition sleep (ms : N) : CP unit := atomic (modify (λ c, set_clock (clock c + ms) c)).

Definition n_committed (index : N) : CM (nat * option Entry) := on_storage (Storage_n_committed index).

(** [self.rafts.lock().unwrap()[i].as_ref().unwrap()] *)
Definition raft_at (i : nat) : CM Node := on_rafts (l ← gets id; o ← expect (l !! i); expect o).

(** [Node::get_state] reads the term, then whether the node is a leader. *)
Definition get_state (rf : Node) : CP State :=
  t ← atomic (gets (λ c, node_term rf (lib c)));
  l ← atomic (gets (λ c, node_is_leader rf (lib c)));
  mret (mkState t l).

(** The loop over the connected servers. *)
Fixpoint ask_servers (cs : list (nat * bool)) (leaders : gmap N (list nat)) : CP (gmap N (list nat)) :=
  match cs with
  | [] => mret leaders
  | (i, true) :: cs' =>
      rf ← atomic (raft_at i);
      state ← get_state rf;
      ask_servers cs' (if is_leader state then <[term state := default [] (leaders !! term state) ++ [i]]> leaders else leaders)
  | (i, false) :: cs' => ask_servers cs' leaders
  end.

(** The loop over the map of leaders, in the order [l]. *)
Fixpoint last_term_with_leader (l : list (N * list nat)) (last : N) : CP N :=
  match l with
  | [] => mret last
  | (t, ls) :: l' =>
      if 1 <? length ls then Done Panic
      else last_term_with_leader l' (if (last <? t)%N then t else last)
  end.

(** The turns of [check_one_leader]; [draws] are the random numbers. *)
Fixpoint one_leader_loop (order : list (N * list nat) → list (N * list nat)) (draws : list N) (leaders : gmap N (list nat)) : CP nat :=
  match draws with
  | [] => Done Panic
  | r :: draws' =>
      sleep (450 + r mod 100)%N;;
      cs ← atomic (gets connected);
      leaders ← ask_servers (enumerate cs) leaders;
      last ← last_term_with_leader (order (map_to_list leaders)) 0;
      if bool_decide (leaders = ∅) then one_leader_loop order draws' leaders
      else match leaders !! last with
           | Some (i :: _) => mret i
           | _ => Done Panic
           end
  end.

Definition check_one_leader (order : list (N * list nat) → list (N * list nat)) (rnd : nat → N) : CP nat :=
  one_leader_loop order (rnd <$> seq 0 10) ∅.

Fixpoint check_terms_loop (cs : list (nat * bool)) (t : N) : CP N :=
  match cs with
  | [] => mret t
  | (i, true) :: cs' =>
      rf ← atomic (raft_at i);
      xterm ← atomic (gets (λ c, node_term rf (lib c)));
      if (t =? 0)%N then check_terms_loop cs' xterm
      else if bool_decide (t ≠ xterm) then Done Panic
      else check_terms_loop cs' t
  | (i, false) :: cs' => check_terms_loop cs' t
  end.

Definition check_terms : CP N := cs ← atomic (gets connected); check_terms_loop (enumerate cs) 0.

Fixpoint check_no_leader_loop (cs : list (nat * bool)) : CP unit :=
  match cs with
  | [] => mret tt
  | (i, true) :: cs' =>
      rf ← atomic (raft_at i);
      l ← atomic (gets (λ c, node_is_leader rf (lib c)));
      if (l : bool) then Done Panic else check_no_leader_loop cs'
  | (i, false) :: cs' => check_no_leader_loop cs'
  end.

Definition check_no_leader : CP unit := cs ← atomic (gets connected); check_no_leader_loop (enumerate cs).

(** Whether some raft has a later term. *)
Fixpoint moved_on (start_term : N) (rs : list (option Node)) : CP bool :=
  match rs with
  | [] => mret false
  | Some rf :: rs' =>
      t ← atomic (gets (λ c, node_term rf (lib c)));
      if (start_term <? t)%N then mret true else moved_on start_term rs'
  | None :: rs' => moved_on start_term rs'
  end.

(** The loop of [wait]: whether it was not left by [return]. *)
Fixpoint wait_loop (turns : nat) (index : N) (n : nat) (start_term : option N) (to : N) : CP bool :=
  match turns with
  | 0 => mret true
  | S turns' =>
      nd ← atomic (n_committed index);
      if n <=? nd.1 then mret true
      else
        sleep to;;
        let to := if (to <? 1000)%N then (to * 2)%N else to in
        match start_term with
        | Some t =>
            rs ← atomic (on_rafts (gets id));
            moved ← moved_on t rs;
            if (moved : bool) then mret false else wait_loop turns' index n start_term to
        | None => wait_loop turns' index n start_term to
        end
  end.

Definition wait (index : N) (n : nat) (start_term : option N) : CP (option Entry) :=
  go_on ← wait_loop 30 index n start_term 10;
  if (go_on : bool) then
    '(nd, cmd) ← atomic (n_committed index);
    if nd <? n then Done Panic else mret cmd
  else mret None.

(** ** A whole agreement *)

(** [rf.start(&cmd)] of the raft that is there, if there is one. *)
Definition start_at (i : nat) (cmd : Entry) : CM (option (RaftError + N * N)) :=
  o ← on_rafts (l ← gets id; expect (l !! i));
  match o with
  | Some rf =>
      r ← gets (λ c, node_start rf cmd (lib c));
      modify (set_lib r.2);;
      mret (Some r.1)
  | None => mret None
  end.

(** The loop that tries all the servers, [turns] of them; what it found and where it stopped. *)
Fixpoint try_servers (turns : nat) (cmd : Entry) (starts : nat) : CP (option N * nat) :=
  match turns with
  | 0 => mret (None, starts)
  | S turns' =>
      c ← atomic (gets id);
      let starts := (starts + 1) mod cfg_n c in
      on ← atomic (expect (connected c !! starts));
      if (on : bool) then
        r ← atomic (start_at starts cmd);
        match r with
        | Some (inr (index1, _)) => mret (Some index1, starts)
        | _ => try_servers turns' cmd starts
        end
      else try_servers turns' cmd starts
  end.

(** The loop that waits for agreement for two seconds. *)
Fixpoint agree_loop (fuel : nat) (t1 : N) (index : N) (cmd : Entry) (expected_servers : nat) : CP bool :=
  match fuel with
  | 0 => Done Diverge
  | S fuel' =>
      now ← atomic (gets clock);
      if (now - t1 <? 2000)%N then
        '(nd, cmd1) ← atomic (n_committed index);
        if (0 <? nd) && (expected_servers <=? nd) && bool_decide (cmd1 = Some cmd) then mret true
        else sleep 20;; agree_loop fuel' t1 index cmd expected_servers
      else mret false
  end.

Fixpoint one_loop (fuel : nat) (t0 : N) (cmd : Entry) (expected_servers : nat) (retry : bool) (starts : nat) : CP N :=
  match fuel with
  | 0 => Done Diverge
  | S fuel' =>
      now ← atomic (gets clock);
      if (now - t0 <? 10000)%N then
        n ← atomic (gets cfg_n);
        '(index, starts) ← try_servers n cmd starts;
        match index with
        | Some index =>
            t1 ← atomic (gets clock);
            agreed ← agree_loop 101 t1 index cmd expected_servers;
            if (agreed : bool) then mret index
            else if negb retry then Done Panic
            else one_loop fuel' t0 cmd expected_servers retry starts
        | None => sleep 50;; one_loop fuel' t0 cmd expected_servers retry starts
        end
      else Done Panic
  end.

Definition one (cmd : Entry) (expected_servers : nat) (retry : bool) : CP N :=
  t0 ← atomic (gets clock);
  one_loop 201 t0 cmd expected_servers retry 0.
End config.
