(* ===== verification/RaftConfigSpec.v ===== *)
(** * Correctness of the test configuration of raft

    Which servers of a cluster can talk to each other after any sequence of starts,
    crashes, connections and disconnections; that what the servers commit agrees; and what
    the checks of the tests find out. *)

From S2P Require Import Prelude Conc Rpc RpcSpec Persister Harness RaftConfig.

(** ** Storage *)

(** Two servers that committed at the same index committed the same, and no server skipped
    an index. *)
Record storage_ok (s : Storage) : Prop := {
  sk_agree : ∀ i j li lj idx ei ej, logs s !! i = Some li → logs s !! j = Some lj →
    li !! idx = Some ei → lj !! idx = Some ej → ei = ej;
  sk_gaps : ∀ i l idx, logs s !! i = Some l → is_Some (l !! idx) → (1 < idx)%N → is_Some (l !! (idx - 1)%N);
  sk_max : ∀ i l idx, logs s !! i = Some l → is_Some (l !! idx) → (idx <= max_index s)%N;
}.

(** How many servers have committed at an index. *)
Definition committed (idx : N) (ls : list (gmap N Entry)) : nat := length (filter (λ l, is_Some (l !! idx)) ls).

Section storage.
Context {E : Type}.

Lemma count_committed_ok {S} idx ls (c : S) k cmd : (∀ l l' e e', l ∈ ls → l' ∈ ls → l !! idx = Some e → l' !! idx = Some e' → e = e') →
  (∀ l e, l ∈ ls → 0 < k → l !! idx = Some e → cmd = Some e) →
  ∃ cmd', count_committed (E := E) idx ls k cmd c = (Ok (k + committed idx ls, cmd'), c) ∧
    (committed idx ls = 0 → cmd' = cmd) ∧ (∀ l e, l ∈ ls → l !! idx = Some e → cmd' = Some e).
Proof.
  revert k cmd. induction ls as [|l ls IH]; intros k cmd Hag Hk; cbn [count_committed].
  { exists cmd. rewrite Nat.add_0_r. split_and!; [done|done|]. by intros l e ?%not_elem_of_nil. }
  unfold committed in *. destruct (l !! idx) as [e|] eqn:Hl.
  - rewrite bool_decide_true by eauto. rewrite filter_cons_True by eauto. cbn [length].
    assert ((0 <? k) && bool_decide (cmd ≠ Some e) = false) as ->.
    { apply andb_false_iff. destruct (decide (0 < k)) as [Hk0|]; [right|left; apply Nat.ltb_nlt; lia].
      apply bool_decide_eq_false. intros Hne. apply Hne. eapply Hk; [by left|done|done]. }
    destruct (IH (k + 1) (Some e)) as (cmd' & -> & H1 & H2).
    + intros l1 l2 e1 e2 Hl1 Hl2. apply Hag; by right.
    + intros l' e' Hl' _ He'. f_equal. apply (Hag l l'); [by left|by right|done..].
    + exists cmd'. split_and!; [do 2 f_equal; f_equal; lia|done|].
      intros l' e' [->|Hl']%elem_of_cons He'; [|by eapply H2]. destruct (decide (length (filter (λ l, is_Some (l !! idx)) ls) = 0)) as [H0|H0].
      * rewrite H1 by done. congruence.
      * destruct (filter (λ l, is_Some (l !! idx)) ls) as [|l2 ls2] eqn:Hf; [done|].
        assert (l2 ∈ filter (λ l, is_Some (l !! idx)) ls) as [[e2 He2] Hl2]%list_elem_of_filter by (rewrite Hf; by left).
        rewrite (H2 _ _ Hl2 He2). f_equal. apply (Hag l2 l); [by right|by left|done..].
  - rewrite bool_decide_false by (by intros []). rewrite filter_cons_False by (rewrite Hl; by intros []).
    destruct (IH k cmd) as (cmd' & -> & H1 & H2).
    + intros l1 l2 e1 e2 Hl1 Hl2. apply Hag; by right.
    + intros l' e' Hl'. apply Hk. by right.
    + exists cmd'. split_and!; [done|done|]. intros l' e' [->|Hl']%elem_of_cons He'; [congruence|by eapply H2].
Qed.

(** On a consistent storage the check inside [n_committed] never fails. *)
Lemma n_committed_ok idx s : storage_ok s → ∃ cmd,
  Storage_n_committed (E := E) idx s = (Ok (committed idx (logs s), cmd), s) ∧
  (committed idx (logs s) = 0 → cmd = None) ∧ (∀ l e, l ∈ logs s → l !! idx = Some e → cmd = Some e).
Proof.
  intros Hs. unfold Storage_n_committed. mpure.
  destruct (count_committed_ok idx (logs s) s 0 None) as (cmd & -> & H); [|intros; lia|by exists cmd].
  intros l l' e e' [i Hi]%list_elem_of_lookup [j Hj]%list_elem_of_lookup. by eapply sk_agree.
Qed.

(** A command is taken in, or found out to be inconsistent. *)
Lemma apply_entry_ok i idx e s l : storage_ok s → logs s !! i = Some l →
  match apply_entry (E := E) i idx e s with
  | (Ok _, s') => storage_ok s' ∧ logs s' = <[i := <[idx := e]> l]> (logs s) ∧
      (∀ l' e', l' ∈ logs s → l' !! idx = Some e' → e' = e)
  | (Panic, s') => s' = s ∧ ((∃ l' e', l' ∈ logs s ∧ l' !! idx = Some e' ∧ e' ≠ e) ∨ (1 < idx)%N ∧ l !! (idx - 1)%N = None)
  | _ => False
  end.
Proof.
  intros Hs Hl. unfold apply_entry. mpure.
  destruct (existsb _ (logs s)) eqn:Hex.
  { split; [done|left]. apply existsb_exists in Hex as (l' & Hl'%list_elem_of_In & He).
    destruct (l' !! idx) as [e'|] eqn:He'; [|done]. apply bool_decide_eq_true in He. by exists l', e'. }
  assert (∀ l' e', l' ∈ logs s → l' !! idx = Some e' → e' = e) as Hsame.
  { intros l' e' Hl' He'. destruct (decide (e' = e)) as [|Hne]; [done|].
    assert (existsb (λ log, match log !! idx with Some old => bool_decide (old ≠ e) | None => false end) (logs s) = true); [|congruence].
    apply existsb_exists. exists l'. split; [by apply list_elem_of_In|]. rewrite He'. by apply bool_decide_true. }
  unfold expect. rewrite Hl. mpure. destruct ((1 <? idx)%N && bool_decide (l !! (idx - 1)%N = None)) eqn:Hgap.
  { apply andb_true_iff in Hgap as [?%N.ltb_lt ?%bool_decide_eq_true]. by split; [|right]. }
  mpure. unfold modify. cbn. split; [|done]. split; cbn.
  - intros j k lj lk idx' ej ek. rewrite !list_lookup_insert. intros Hj Hk Hej Hek.
    assert (∀ j lj ej, (if decide (i = j ∧ i < length (logs s)) then Some (<[idx := e]> l) else logs s !! j) = Some lj →
      lj !! idx' = Some ej → (idx' = idx ∧ ej = e) ∨ ∃ j' lj', logs s !! j' = Some lj' ∧ lj' !! idx' = Some ej) as Hc.
    { intros j0 lj0 ej0 H0 He0. case_decide; simplify_eq; [|by eauto]. rewrite lookup_insert in He0. case_decide; simplify_eq; eauto. }
    destruct (Hc _ _ _ Hj Hej) as [[-> ->]|(j1 & l1 & Hj1 & Hl1)], (Hc _ _ _ Hk Hek) as [[? ->]|(k1 & l2 & Hk1 & Hl2)]; subst.
    + done.
    + symmetry. eapply Hsame; [by eapply list_elem_of_lookup_2|done].
    + eapply Hsame; [by eapply list_elem_of_lookup_2|done].
    + by eapply (sk_agree _ Hs j1 k1).
  - intros j lj idx'. rewrite list_lookup_insert. case_decide as Hd; [|by eapply sk_gaps].
    intros [= <-] He' Hlt. rewrite lookup_insert in He' |- *. destruct Hd as [<- _].
    destruct (decide (idx = (idx' - 1)%N)) as [|Hne]; [by eexists|].
    destruct (decide (idx = idx')) as [<-|]; [|by eapply sk_gaps].
    apply andb_false_iff in Hgap as [?%N.ltb_nlt|Hb%bool_decide_eq_false]; [lia|]. by destruct (l !! (idx - 1)%N); [eexists|].
  - intros j lj idx'. rewrite list_lookup_insert. case_decide.
    + intros [= <-]. rewrite lookup_insert. case_decide; [intros _; subst; destruct (N.ltb_spec (max_index s) idx'); lia|].
      intros He'. pose proof (sk_max _ Hs _ _ _ Hl He'). destruct (N.ltb_spec (max_index s) idx); lia.
    + intros Hj He'. pose proof (sk_max _ Hs _ _ _ Hj He'). destruct (N.ltb_spec (max_index s) idx); lia.
Qed.
End storage.

Section config.
Context {EncodeError DecodeError Factory Hooks App Node Lib RaftError : Type}.
Abbreviation E := (Error EncodeError DecodeError).
Abbreviation NetWorld := (@Rpc.World EncodeError DecodeError Factory Hooks App).
Abbreviation Config := (@Config EncodeError DecodeError Factory Hooks App Node Lib).
Abbreviation CM := (M E Config).
Implicit Types (c : Config).

Abbreviation eps c := (endpoints (core (net c))).
Abbreviation sound c := (poisoned (core (net c)) = false).

Definition enables (m : gmap string bool) c : Config := set_net (with_enabled m (net c)) c.

Lemma enables_same c : enables (enabled (eps c)) c = c.
Proof. unfold enables. rewrite with_enabled_same. by destruct c. Qed.

Lemma on_net_enable name b c : sound c →
  on_net (enable name b) c = (Ok tt, enables (<[name := b]> (enabled (eps c))) c).
Proof. intros H. unfold on_net, part. by rewrite enable_run. Qed.

(** A loop that enables or disables the clients that [name_of] gives. *)
Lemma for_each_enable {A} (f : A → CM unit) (name_of : A → option string) b l c : sound c →
  (∀ a m, a ∈ l → f a (enables m c) = (Ok tt, match name_of a with Some nm => enables (<[nm := b]> m) c | None => enables m c end)) →
  for_each f l c = (Ok tt, enables (foldl (λ m nm, <[nm := b]> m) (enabled (eps c)) (omap name_of l)) c).
Proof.
  intros Hs Hf. rewrite <-(enables_same c) at 1. generalize (enabled (eps c)) as m.
  induction l as [|a l IH]; intros m; simpl; [done|].
  rewrite (bind_ok _ _ _ _ _ (Hf a m ltac:(by left))).
  assert (∀ a m, a ∈ l → f a (enables m c) = (Ok tt, match name_of a with Some nm => enables (<[nm := b]> m) c | None => enables m c end)) as Hf'
    by (intros; apply Hf; by right).
  destruct (name_of a) as [nm|]; by apply IH.
Qed.

(** The end name of [i] for [j]. *)
Definition endname c (i j : nat) : option string := names ← endnames c !! i; names !! j.

Record shape c : Prop := {
  sh_connected : length (connected c) = cfg_n c;
  sh_saved : length (saved c) = cfg_n c;
  sh_rafts : length (inside (rafts c)) = cfg_n c;
  sh_endnames : length (endnames c) = cfg_n c;
  sh_rows : ∀ i names, endnames c !! i = Some names → length names = cfg_n c;
}.

Lemma endname_some c i j : shape c → i < cfg_n c → j < cfg_n c → is_Some (endname c i j).
Proof.
  intros Hs Hi Hj. rewrite <-(sh_endnames _ Hs) in Hi. apply lookup_lt_is_Some in Hi as [names Hn].
  unfold endname. rewrite Hn. simpl. apply lookup_lt_is_Some. by rewrite (sh_rows _ Hs _ _ Hn).
Qed.

Lemma store_run {A} (get : Config → list A) set i a c : i < length (get c) →
  store get set i a c = (Ok tt, set (<[i := a]> (get c)) c).
Proof. intros [y Hy]%lookup_lt_is_Some. unfold store. mpure. unfold expect. rewrite Hy. done. Qed.

(** [disconnect] disables every client from and to the server. *)
Lemma disconnect_run i c : shape c → sound c → i < cfg_n c → ∃ m,
  disconnect i c = (Ok tt, enables m (set_connected (<[i := false]> (connected c)) c)) ∧
  switched (λ name, ∃ j, endname c i j = Some name ∨ endname c j i = Some name) false (enabled (eps c)) m.
Proof.
  intros Hsh Hs Hi. unfold disconnect.
  erewrite bind_ok; [|apply store_run; by rewrite (sh_connected _ Hsh)].
  set (c1 := set_connected _ c). destruct (lookup_lt_is_Some_2 (endnames c) i) as [names Hn]; [by rewrite (sh_endnames _ Hsh)|].
  rewrite bind_assoc. erewrite bind_ok; [|reflexivity]. erewrite bind_ok; [|unfold expect; change (endnames c1) with (endnames c); rewrite Hn; reflexivity].
  erewrite bind_ok; [|apply (for_each_enable _ Some false); [done|intros nm m _; by rewrite on_net_enable]].
  erewrite bind_ok; [|reflexivity]. set (c2 := enables _ c1).
  rewrite (for_each_enable _ (λ names, names !! i) false); [|done|].
  2:{ intros row m [k Hk]%list_elem_of_lookup. change (endnames c2) with (endnames c) in Hk.
      destruct (lookup_lt_is_Some_2 row i) as [nm Hnm]; [by rewrite (sh_rows _ Hsh _ _ Hk)|].
      unfold expect. rewrite Hnm. mpure. by rewrite on_net_enable. }
  exists (foldl (λ m nm, <[nm := false]> m) (enabled (eps c2)) (omap (λ names, names !! i) (endnames c2))).
  split; [done|]. intros name. rewrite lookup_foldl_insert.
  change (enabled (eps c2)) with (foldl (λ m nm, <[nm := false]> m) (enabled (eps c)) (omap Some names)).
  rewrite lookup_foldl_insert. change (endnames c2) with (endnames c).
  assert (name ∈ omap (λ names0 : list string, names0 !! i) (endnames c) ↔ ∃ j, endname c j i = Some name) as H1.
  { rewrite list_elem_of_omap. unfold endname. split.
    - intros (row & [j Hj]%list_elem_of_lookup & Hrow). exists j. by rewrite Hj.
    - intros (j & Hj). apply bind_Some in Hj as (row & Hj & Hrow). exists row. split; [by eapply list_elem_of_lookup_2|done]. }
  assert (name ∈ omap Some names ↔ ∃ j, endname c i j = Some name) as H2.
  { rewrite list_elem_of_omap. unfold endname. rewrite Hn. simpl. rewrite <-list_elem_of_lookup. naive_solver. }
  split; intros HP; repeat case_decide; naive_solver.
Qed.

(** [connect] enables the clients between the server and the connected ones, itself
    included. *)
Lemma connect_run_config i c : shape c → sound c → i < cfg_n c →
  let cs := <[i := true]> (connected c) in ∃ m,
  connect i c = (Ok tt, enables m (set_connected cs c)) ∧
  switched (λ name, ∃ j, cs !! j = Some true ∧ (endname c i j = Some name ∨ endname c j i = Some name)) true (enabled (eps c)) m.
Proof.
  intros Hsh Hs Hi cs. unfold connect.
  erewrite bind_ok; [|apply store_run; by rewrite (sh_connected _ Hsh)].
  fold cs. set (c1 := set_connected cs c). erewrite bind_ok; [|reflexivity].
  assert (length cs = cfg_n c) as Hlen by (unfold cs; by rewrite length_insert, (sh_connected _ Hsh)).
  assert (∀ j b, (j, b) ∈ enumerate cs ↔ cs !! j = Some b) as Henum.
  { intros j b. unfold enumerate. rewrite elem_of_lookup_imap. naive_solver. }
  assert (∀ j b, cs !! j = Some b → j < cfg_n c) as Hlt by (intros j b ?%lookup_lt_Some; lia).
  set (go jb (o : option string) := match jb : nat * bool with (_, true) => o | _ => None end).
  erewrite bind_ok; [|apply (for_each_enable _ (λ jb, go jb (endname c i jb.1)) true); [done|]].
  2:{ intros [j []] m Hj%Henum; [|done]. destruct (endname_some c i j Hsh Hi (Hlt _ _ Hj)) as [nm Hnm].
      simpl. rewrite Hnm. unfold endname in Hnm. apply bind_Some in Hnm as (names & Hns & Hnm).
      rewrite bind_assoc. erewrite bind_ok; [|reflexivity]. unfold expect at 1. change (endnames (enables m c1)) with (endnames c).
      rewrite Hns. mpure. unfold expect. rewrite Hnm. mpure. by rewrite on_net_enable. }
  change (connected c1) with cs. set (c2 := enables _ c1).
  rewrite (for_each_enable _ (λ jb, go jb (endname c jb.1 i)) true); [|done|].
  2:{ intros [j []] m Hj%Henum; [|done]. destruct (endname_some c j i Hsh (Hlt _ _ Hj) Hi) as [nm Hnm].
      simpl. rewrite Hnm. unfold endname in Hnm. apply bind_Some in Hnm as (names & Hns & Hnm).
      rewrite bind_assoc. erewrite bind_ok; [|reflexivity]. unfold expect at 1. change (endnames (enables m c2)) with (endnames c).
      rewrite Hns. mpure. unfold expect. rewrite Hnm. mpure. by rewrite on_net_enable. }
  exists (foldl (λ m nm, <[nm := true]> m) (enabled (eps c2)) (omap (λ jb, go jb (endname c jb.1 i)) (enumerate cs))).
  split; [done|]. intros name. rewrite lookup_foldl_insert.
  change (enabled (eps c2)) with (foldl (λ m nm, <[nm := true]> m) (enabled (eps c)) (omap (λ jb, go jb (endname c i jb.1)) (enumerate cs))).
  rewrite lookup_foldl_insert.
  assert (∀ h : nat → option string, name ∈ omap (λ jb, go jb (h jb.1)) (enumerate cs) ↔ ∃ j, cs !! j = Some true ∧ h j = Some name) as H1.
  { intros h. rewrite list_elem_of_omap. split.
    - intros ([j []] & Hj%Henum & Hg); [by exists j|done].
    - intros (j & Hj & Hg). exists (j, true). split; [by apply Henum|done]. }
  pose proof (H1 (endname c i)). pose proof (H1 (λ j, endname c j i)).
  split; intros HP; repeat case_decide; naive_solver.
Qed.

Context {raft : @RaftNode Factory Node Lib RaftError}.

(** The server [i] is on the network with the node of [rafts]. *)
Definition serving c (i : nat) (node : Node) : Prop := ∃ srv sc,
  servers (eps c) !! server_name i = Some (Some srv) ∧ cores (net c) !! srv = Some sc ∧
  core_name sc = server_name i ∧ services sc = {[ "raft" := raft_factory node ]}.

(** [id0] is the value of [ID] when the configuration was made. A server that was not
    started yet has empty end names. *)
Record cfg_ok (id0 : N) c : Prop := {
  co_shape : shape c;
  co_sound : sound c;
  co_rafts : mx_poisoned (rafts c) = false;
  co_saved : ∀ i p, saved c !! i = Some p → p < length (persisters c);
  co_id : (id0 <= ID c)%N;
  co_names : ∀ i j nm, endname c i j = Some nm → nm ≠ "" → ∃ k, nm = fmt_u64 k ∧ (id0 <= k < ID c)%N;
  co_inj : ∀ i j i' j' nm, endname c i j = Some nm → endname c i' j' = Some nm → nm ≠ "" → i = i' ∧ j = j';
  (* a client is enabled when both ends are on the network *)
  co_enabled : ∀ i j nm ci cj, endname c i j = Some nm → nm ≠ "" →
    connected c !! i = Some ci → connected c !! j = Some cj → enabled (eps c) !! nm = Some (ci && cj);
  (* the clients of earlier instances are not *)
  co_old : ∀ k, (id0 <= k < ID c)%N → (∀ i j, endname c i j ≠ Some (fmt_u64 k)) → enabled (eps c) !! fmt_u64 k = Some false;
  co_conn : ∀ i j nm, endname c i j = Some nm → nm ≠ "" → connections (eps c) !! nm = Some (Some (server_name j));
  co_alive : ∀ i node, inside (rafts c) !! i = Some (Some node) → serving c i node;
  co_dead : ∀ i, inside (rafts c) !! i = Some None → default None (servers (eps c) !! server_name i) = None;
  (* a server that was started has its end names *)
  co_named : ∀ i j nm, is_Some (servers (eps c) !! server_name i) → endname c i j = Some nm → nm ≠ "";
}.

Lemma endname_lt c i j nm : shape c → endname c i j = Some nm → i < cfg_n c ∧ j < cfg_n c.
Proof.
  intros Hs H. unfold endname in H. apply bind_Some in H as (names & Hi & Hj). split.
  - rewrite <-(sh_endnames _ Hs). by eapply lookup_lt_Some.
  - rewrite <-(sh_rows _ Hs _ _ Hi). by eapply lookup_lt_Some.
Qed.

Lemma shape_switch i b m c : shape c → shape (enables m (set_connected (<[i := b]> (connected c)) c)).
Proof. intros []. split; simpl; try done. by rewrite length_insert. Qed.

(** [connect] and [disconnect] keep the configuration well-formed. *)
Lemma cfg_ok_switch id0 i b m c : cfg_ok id0 c → i < cfg_n c →
  let cs := <[i := b]> (connected c) in
  switched (λ name, ∃ j, (b = true → cs !! j = Some true) ∧ (endname c i j = Some name ∨ endname c j i = Some name)) b (enabled (eps c)) m →
  cfg_ok id0 (enables m (set_connected cs c)).
Proof.
  intros Hok Hi cs Hsw. pose proof (co_shape _ _ Hok) as Hsh.
  assert (i < length (connected c)) as Hlt by (by rewrite (sh_connected _ Hsh)).
  assert (cs !! i = Some b) as Hcsi by by apply list_lookup_insert_eq.
  assert (∀ j, j ≠ i → cs !! j = connected c !! j) as Hcsj by (intros; by apply list_lookup_insert_ne).
  split; try apply Hok; [by apply shape_switch| |].
  - intros i' j' nm ci cj Hnm Hne Hci Hcj. cbn in *. destruct (Hsw nm) as [Hyes Hno].
    pose proof (λ i2 j2 H, co_inj _ _ Hok i' j' i2 j2 nm Hnm H Hne) as Hinj.
    assert (∀ ci cj, connected c !! i' = Some ci → connected c !! j' = Some cj → enabled (eps c) !! nm = Some (ci && cj)) as Hold
      by (intros; by eapply (co_enabled _ _ Hok i' j')).
    destruct (lookup_lt_is_Some_2 (connected c) i Hlt) as [old Hcio].
    destruct (decide (i' = i)) as [->|Hi'], (decide (j' = i)) as [->|Hj']; simplify_eq.
    + rewrite Hyes by (exists i; split; [by intros ->|by left]). by destruct b.
    + destruct b, cj; simpl; try (rewrite Hyes by (exists j'; split; [done|by left]); done).
      rewrite Hno, (Hold old false); [by rewrite andb_false_r|done|by rewrite <-Hcsj|].
      intros (j & Hj & [[_ ->]%Hinj|[-> ->]%Hinj]); specialize (Hj eq_refl); congruence.
    + rewrite andb_comm. destruct b, ci; simpl; try (rewrite Hyes by (exists i'; split; [done|by right]); done).
      rewrite Hno, (Hold false old); [done|by rewrite <-Hcsj|done|].
      intros (j & Hj & [[-> ->]%Hinj|[-> _]%Hinj]); specialize (Hj eq_refl); congruence.
    + rewrite Hno, (Hold ci cj); [done|by rewrite <-Hcsj|by rewrite <-Hcsj|].
      intros (j & _ & [[? _]%Hinj|[_ ?]%Hinj]); congruence.
  - intros k Hk Hnone. cbn in *. destruct (Hsw (fmt_u64 k)) as [_ Hno]. rewrite Hno; [by apply (co_old _ _ Hok)|].
    intros (j & _ & [H|H]); by eapply Hnone.
Qed.

(** ** Crash and start *)

Lemma on_rafts_run {A} (f : M E (list (option Node)) A) l (a : A) c : mx_poisoned (rafts c) = false →
  f (inside (rafts c)) = (Ok a, l) → on_rafts f c = (Ok a, set_rafts (mkMutex l false) c).
Proof. intros Hp Hf. unfold on_rafts, part, with_mutex. by rewrite Hp, Hf. Qed.

(** What an operation on the server [i] leaves: the network status and the node of [i] are
    [b] and [o], and those of the others are as they were. *)
Record changed (i : nat) (b : bool) (o : option Node) c c' : Prop := {
  cg_n : cfg_n c' = cfg_n c;
  cg_connected : connected c' = <[i := b]> (connected c);
  cg_rafts : inside (rafts c') = <[i := o]> (inside (rafts c));
  cg_known : ∀ j, is_Some (servers (eps c) !! server_name j) → is_Some (servers (eps c') !! server_name j);
}.

Lemma disconnect_ok id0 i c : cfg_ok id0 c → i < cfg_n c → ∃ m,
  disconnect i c = (Ok tt, enables m (set_connected (<[i := false]> (connected c)) c)) ∧
  cfg_ok id0 (enables m (set_connected (<[i := false]> (connected c)) c)).
Proof.
  intros Hok Hi. destruct (disconnect_run i c (co_shape _ _ Hok) (co_sound _ _ Hok) Hi) as (m & Hrun & Hsw).
  exists m. split; [done|]. apply cfg_ok_switch; [done|done|]. eapply switched_iff; [|exact Hsw]. naive_solver.
Qed.

Lemma connect_ok id0 i c : cfg_ok id0 c → i < cfg_n c → ∃ m,
  connect i c = (Ok tt, enables m (set_connected (<[i := true]> (connected c)) c)) ∧
  cfg_ok id0 (enables m (set_connected (<[i := true]> (connected c)) c)).
Proof.
  intros Hok Hi. destruct (connect_run_config i c (co_shape _ _ Hok) (co_sound _ _ Hok) Hi) as (m & Hrun & Hsw).
  exists m. split; [done|]. apply cfg_ok_switch; [done|done|]. eapply switched_iff; [|exact Hsw]. naive_solver.
Qed.

Lemma shape_rafts c l : shape c → length l = cfg_n c → shape (set_rafts (mkMutex l false) c).
Proof. by intros []. Qed.

(** The state of [crash1] after its [disconnect]. *)
Definition crashed (i p : nat) (st : bytes * bytes) c : Config :=
  set_saved (<[i := length (persisters c)]> (saved c))
    (set_persisters (persisters c ++ [(st.1, [])])
      (set_net (delete_server (EncodeError := EncodeError) (DecodeError := DecodeError) (server_name i) (net c)).2 c)).

Lemma crashed_ok id0 i p st c l : cfg_ok id0 c → i < cfg_n c → saved c !! i = Some p → persisters c !! p = Some st →
  let c' := set_lib l (set_rafts (mkMutex (<[i := None]> (inside (rafts c))) false) (crashed i p st c)) in
  cfg_ok id0 c' ∧ ∀ j, is_Some (servers (eps c) !! server_name j) → is_Some (servers (eps c') !! server_name j).
Proof.
  intros Hok Hi Hp Hst c'. pose proof (co_shape _ _ Hok) as Hsh.
  assert (eps c' = match servers (eps c) !! server_name i with
    | Some _ => mkEndpoints (enabled (eps c)) (<[server_name i := None]> (servers (eps c))) (connections (eps c))
    | None => eps c end ∧ poisoned (core (net c')) = false ∧ cores (net c') = cores (net c)) as (He & Hs' & Hcores).
  { unfold c', crashed. cbn. rewrite delete_server_run by apply Hok. cbn.
    pose proof (co_sound _ _ Hok). by destruct (servers _ !! server_name i). }
  assert (∀ j, j ≠ i → servers (eps c') !! server_name j = servers (eps c) !! server_name j) as Hsj.
  { intros j Hj. rewrite He. destruct (servers (eps c) !! server_name i) eqn:Hsi; [|done]. simpl.
    rewrite lookup_insert_ne; [done|]. by intros ?%server_name_inj. }
  assert (default None (servers (eps c') !! server_name i) = None) as Hsi.
  { rewrite He. destruct (servers (eps c) !! server_name i) eqn:Hsi; simpl; [by rewrite lookup_insert_eq|by rewrite Hsi]. }
  assert (enabled (eps c') = enabled (eps c) ∧ connections (eps c') = connections (eps c)) as [Hen Hcn].
  { rewrite He. by destruct (servers (eps c) !! server_name i). }
  split; [split|].
  - destruct Hsh. split; simpl; try done; by rewrite length_insert.
  - done.
  - done.
  - intros j q. cbn. rewrite length_app, list_lookup_insert. simpl. case_decide; [intros; simplify_eq; lia|].
    intros Hq%(co_saved _ _ Hok). lia.
  - apply Hok.
  - apply Hok.
  - apply Hok.
  - intros j j' nm. rewrite Hen. by apply (co_enabled _ _ Hok).
  - intros k. rewrite Hen. by apply (co_old _ _ Hok).
  - intros j j' nm. rewrite Hcn. by apply (co_conn _ _ Hok).
  - intros j node. cbn. rewrite list_lookup_insert. case_decide as Hd; [done|]. intros Hj.
    assert (j ≠ i) as Hne by (intros ->; apply Hd; split; [done|by rewrite (sh_rafts _ Hsh)]).
    destruct (co_alive _ _ Hok _ _ Hj) as (srv & sc & H1 & H2). exists srv, sc. by rewrite Hsj, Hcores.
  - intros j. cbn. rewrite list_lookup_insert. case_decide as Hd; [destruct Hd as [<- _]; by intros|].
    intros Hj. destruct (decide (j = i)) as [->|Hne]; [done|]. rewrite Hsj by done. by apply (co_dead _ _ Hok).
  - intros j j' nm Hj. apply (co_named _ _ Hok j j').
    destruct (decide (j = i)) as [->|Hne]; [|by rewrite <-Hsj]. destruct (servers (eps c) !! server_name i) eqn:Hs0; [by eexists|].
    by rewrite He, Hs0 in Hj.
  - intros j Hj. destruct (decide (j = i)) as [->|Hne]; [|by rewrite Hsj]. rewrite He.
    destruct Hj as [y Hy]. rewrite Hy. simpl. rewrite lookup_insert_eq. by eexists.
Qed.

Lemma take_raft_run i o (l : list (option Node)) : l !! i = Some o →
  take_raft (EncodeError := EncodeError) (DecodeError := DecodeError) i l = (Ok o, <[i := None]> l).
Proof. intros Ho. unfold take_raft, gets, mbind, M_bind, expect, id. by rewrite Ho. Qed.

Lemma crash1_ok id0 i c : cfg_ok id0 c → i < cfg_n c → ∃ c', crash1 i c = (Ok tt, c') ∧ cfg_ok id0 c' ∧
  changed i false None c c' ∧ endnames c' = endnames c ∧ ID c' = ID c.
Proof.
  intros Hok Hi. destruct (disconnect_ok id0 i c Hok Hi) as (m & Hrun & Hok1).
  set (c1 := enables m _) in *. pose proof (co_shape _ _ Hok1) as Hsh.
  destruct (lookup_lt_is_Some_2 (saved c1) i) as [p Hp]; [by rewrite (sh_saved _ Hsh)|].
  destruct (lookup_lt_is_Some_2 (persisters c1) p) as [st Hst]; [by eapply co_saved|].
  destruct (lookup_lt_is_Some_2 (inside (rafts c1)) i) as [o Ho]; [by rewrite (sh_rafts _ Hsh)|].
  pose proof (λ l, crashed_ok id0 i p st c1 l Hok1 Hi Hp Hst) as Hfin. cbv zeta in Hfin.
  assert (∃ l, crash1 i c = (Ok tt, set_lib l (set_rafts (mkMutex (<[i := None]> (inside (rafts c1))) false) (crashed i p st c1)))) as [l Hl].
  { unfold crash1. rewrite (bind_ok _ _ _ _ _ Hrun). unfold crashed.
    erewrite bind_ok; [|unfold on_net, part; rewrite delete_server_run by apply Hok1; reflexivity].
    rewrite delete_server_run by apply Hok1. set (c2 := set_net _ c1).
    rewrite bind_assoc. erewrite bind_ok; [|reflexivity].
    erewrite bind_ok; [|unfold expect; change (saved c2) with (saved c1); rewrite Hp; reflexivity].
    erewrite bind_ok; [|unfold on_persisters, part; change (persisters c2) with (persisters c1); rewrite (copy_state_run _ _ _ Hst); reflexivity].
    erewrite bind_ok; [|apply store_run; change (saved _) with (saved c1); by rewrite (sh_saved _ Hsh)].
    erewrite bind_ok.
    2:{ eapply on_rafts_run; [apply Hok1|]. apply (take_raft_run i o). exact Ho. }
    destruct o as [rf|]; [by eexists|]. exists (lib c). done. }
  rewrite Hl. eexists. split; [done|]. destruct (Hfin l) as [H1 H2]. split_and!; [exact H1| |done|done].
  by split.
Qed.

(** The state of [start1] after its [crash1]: new end names, and the network with the clients
    for them and with a server. *)
Definition started (i : nat) (names : list string) (node : Node) (w : NetWorld) (l : Lib) c : Config :=
  set_net w (set_rafts (mkMutex (<[i := Some node]> (inside (rafts c))) false)
    (set_lib l (set_pollers (pollers c ++ [i]) (set_endnames (<[i := names]> (endnames c))
      (set_ID (ID c + N.of_nat (cfg_n c))%N c))))).

Definition new_core i (node : Node) (id : N) : ServerCore Factory :=
  mkServerCore (server_name i) id {[ "raft" := raft_factory node ]} 0.

(** The network with a new server on it. *)
Record server_made (i : nat) (node : Node) (w w' : NetWorld) : Prop := {
  sm_sound : poisoned (core w') = poisoned (core w);
  sm_enabled : enabled (endpoints (core w')) = enabled (endpoints (core w));
  sm_connections : connections (endpoints (core w')) = connections (endpoints (core w));
  sm_servers : servers (endpoints (core w')) = <[server_name i := Some (length (cores w))]> (servers (endpoints (core w)));
  sm_cores : ∃ id, cores w' = cores w ++ [new_core i node id];
}.

Lemma serve_node_run i node c : sound c → ∃ w', serve_node node i c = (Ok tt, set_net w' c) ∧ server_made i node (net c) w'.
Proof.
  intros Hs. unfold serve_node, add_service, new_builder. cbn [sb_services sb_name]. rewrite lookup_empty.
  erewrite bind_ok; [|unfold on_net, part, build; reflexivity]. cbn [sb_services sb_name].
  set (w1 := mkWorld _ _ _ _ _ _ _ _ _).
  assert (cores w1 !! length (cores (net c)) = Some (new_core i node (id_alloc (net c)))) as Hc.
  { unfold w1, new_core. cbn. by rewrite lookup_app_r, Nat.sub_diag by lia. }
  eexists. split; [unfold on_net, part; cbn [net set_net]; rewrite (add_server_run _ _ w1 Hs Hc); reflexivity|].
  split; try done. by eexists.
Qed.

Abbreviation new_names c := (Harness.new_names (ID c) (cfg_n c)).

Lemma old_not_new id0 c i j nm : cfg_ok id0 c → endname c i j = Some nm → nm ≠ "" → nm ∉ new_names c.
Proof.
  intros Hok Hnm Hne (j' & _ & ->)%elem_of_new_names. destruct (co_names _ _ Hok _ _ _ Hnm Hne) as (k & Hk%fmt_u64_inj & ?). lia.
Qed.

Lemma endname_started i names node w l c i' j : i < cfg_n c → shape c →
  endname (started i names node w l c) i' j = if decide (i' = i) then names !! j else endname c i' j.
Proof.
  intros Hi Hsh. unfold endname. cbn. case_decide as Hd.
  - subst. rewrite list_lookup_insert_eq; [done|]. by rewrite (sh_endnames _ Hsh).
  - by rewrite list_lookup_insert_ne.
Qed.

(** After a crash of [i], all the clients that it had are disabled. *)
Lemma crashed_disabled id0 i c k : cfg_ok id0 c → connected c !! i = Some false → (id0 <= k < ID c)%N →
  (∀ i' j, i' ≠ i → endname c i' j ≠ Some (fmt_u64 k)) → enabled (eps c) !! fmt_u64 k = Some false.
Proof.
  intros Hok Hci Hk Hnone. pose proof (co_shape _ _ Hok) as Hsh.
  destruct (decide (fmt_u64 k ∈ default [] (endnames c !! i))) as [[j Hj]%list_elem_of_lookup|Hnin].
  - assert (endname c i j = Some (fmt_u64 k)) as Hnm by (unfold endname; by destruct (endnames c !! i)).
    destruct (endname_lt _ _ _ _ Hsh Hnm) as [_ Hjn]. rewrite <-(sh_connected _ Hsh) in Hjn.
    apply lookup_lt_is_Some in Hjn as [cj Hcj].
    by rewrite (co_enabled _ _ Hok _ _ _ _ _ Hnm (fmt_name_nonempty k) Hci Hcj).
  - apply (co_old _ _ Hok); [done|]. intros i' j Hnm. destruct (decide (i' = i)) as [->|]; [|by eapply Hnone].
    apply Hnin. unfold endname in Hnm. destruct (endnames c !! i); [|done]. by eapply list_elem_of_lookup_2.
Qed.

Lemma started_shape i node w l c : shape c → i < cfg_n c → shape (started i (new_names c) node w l c).
Proof.
  intros [] Hi. split; simpl; try done; try by rewrite length_insert.
  intros j names. rewrite list_lookup_insert. case_decide; [|by apply sh_rows0].
  intros [= <-]. apply length_new_names.
Qed.

Lemma started_ok id0 i node w1 w2 l c : cfg_ok id0 c → i < cfg_n c →
  connected c !! i = Some false →
  ends_made 0 (new_names c) (net c) w1 → server_made i node w1 w2 →
  let c' := started i (new_names c) node w2 l c in
  cfg_ok id0 c' ∧ serving c' i node ∧ ∀ j, is_Some (servers (eps c) !! server_name j) → is_Some (servers (eps c') !! server_name j).
Proof.
  intros Hok Hi Hci [] [] c'. pose proof (co_shape _ _ Hok) as Hsh.
  pose proof (λ i' j, endname_started i (new_names c) node w2 l c i' j Hi Hsh) as Hnames. fold c' in Hnames.
  destruct sm_cores0 as [id Hcores]. rewrite em_cores in Hcores.
  assert (servers (eps c') = <[server_name i := Some (length (cores (net c)))]> (servers (eps c))) as Hservers
    by (cbn; by rewrite sm_servers0, em_servers, em_cores).
  assert (serving c' i node) as Hserving.
  { exists (length (cores (net c))), (new_core i node id). rewrite Hservers, lookup_insert_eq. cbn.
    by rewrite Hcores, lookup_app_r, Nat.sub_diag by lia. }
  split_and!; [split|done|].
  - by apply started_shape.
  - cbn. rewrite sm_sound0, em_sound. apply Hok.
  - done.
  - apply Hok.
  - pose proof (co_id _ _ Hok). cbn. lia.
  - intros i' j nm. rewrite Hnames. cbn. pose proof (co_id _ _ Hok). case_decide.
    + intros (? & ->)%lookup_new_names _. eexists. split; [done|]. lia.
    + intros Hnm Hne. destruct (co_names _ _ Hok _ _ _ Hnm Hne) as (k & -> & ?). exists k. split; [done|]. lia.
  - intros i1 j1 i2 j2 nm. rewrite !Hnames. do 2 case_decide; subst.
    + intros (? & ->)%lookup_new_names (? & Hk%fmt_u64_inj)%lookup_new_names _. split; [done|lia].
    + intros H1%list_elem_of_lookup_2 H2 Hne. by destruct (old_not_new _ _ _ _ _ Hok H2 Hne).
    + intros H1 H2%list_elem_of_lookup_2 Hne. by destruct (old_not_new _ _ _ _ _ Hok H1 Hne).
    + by apply (co_inj _ _ Hok).
  - intros i' j nm ci cj. rewrite Hnames. cbn. rewrite sm_enabled0. destruct (em_enabled nm) as [Hyes Hno]. case_decide; subst.
    + intros H1%list_elem_of_lookup_2 _ Hi' _. by rewrite Hyes by done; simplify_eq.
    + intros Hnm Hne ??. rewrite Hno by (by eapply old_not_new). by eapply (co_enabled _ _ Hok).
  - intros k Hk Hnone. cbn in *. rewrite sm_enabled0. destruct (em_enabled (fmt_u64 k)) as [Hyes Hno].
    destruct (decide (fmt_u64 k ∈ new_names c)) as [Hin|Hnin]; [by apply Hyes|]. rewrite Hno by done.
    apply (crashed_disabled id0 i); [done|done| |].
    + destruct (N.lt_ge_cases k (ID c)) as [|Hge]; [lia|]. destruct Hnin. apply elem_of_new_names.
      exists (N.to_nat (k - ID c)). split; [lia|]. f_equal. lia.
    + intros i' j Hne Hnm. apply (Hnone i' j). by rewrite Hnames, decide_False.
  - intros i' j nm. rewrite Hnames. cbn. rewrite sm_connections0. case_decide; subst.
    + intros H1 _. by apply em_connections.
    + intros Hnm Hne. rewrite em_others by (by eapply old_not_new). by eapply (co_conn _ _ Hok).
  - intros j node' Hj. cbn in Hj. rewrite list_lookup_insert in Hj. case_decide as Hd; [destruct Hd as [<- _]; by simplify_eq|].
    assert (j ≠ i) as Hne by (intros ->; apply Hd; split; [done|by rewrite (sh_rafts _ Hsh)]).
    destruct (co_alive _ _ Hok _ _ Hj) as (srv & sc & H1 & H2 & H3). exists srv, sc.
    rewrite Hservers, lookup_insert_ne by (by intros ?%server_name_inj). cbn. rewrite Hcores.
    split_and!; [done|by apply lookup_app_l_Some|apply H3|apply H3].
  - intros j Hj. cbn in Hj. rewrite list_lookup_insert in Hj. case_decide as Hd; [done|].
    assert (j ≠ i) as Hne by (intros ->; apply Hd; split; [done|by rewrite (sh_rafts _ Hsh)]).
    rewrite Hservers, lookup_insert_ne by (by intros ?%server_name_inj). by apply (co_dead _ _ Hok).
  - intros j j' nm. rewrite Hservers, Hnames. case_decide as Hd.
    + intros _ [_ ->]%lookup_new_names. apply fmt_name_nonempty.
    + rewrite lookup_insert_ne by (by intros ?%server_name_inj). apply (co_named _ _ Hok).
  - intros j Hj. rewrite Hservers, lookup_insert. case_decide; [by eexists|done].
Qed.

Lemma start1_ok id0 i c : cfg_ok id0 c → i < cfg_n c → (ID c + N.of_nat (cfg_n c) < USIZE)%N →
  ∃ node c', start1 i c = (Ok tt, c') ∧ cfg_ok id0 c' ∧ changed i false (Some node) c c' ∧ serving c' i node ∧
    ID c' = (ID c + N.of_nat (cfg_n c))%N.
Proof.
  intros Hok Hi Hid. destruct (crash1_ok id0 i c Hok Hi) as (c1 & Hrun & Hok1 & [Hn Hcc Hrf Hknown] & Hen & HID).
  pose proof (co_shape _ _ Hok1) as Hsh. rewrite <-Hn in Hi.
  assert (connected c1 !! i = Some false) as Hci.
  { rewrite Hcc. apply list_lookup_insert_eq. rewrite (sh_connected _ (co_shape _ _ Hok)), <-Hn. done. }
  set (c2 := set_endnames (<[i := new_names c1]> (endnames c1)) (set_ID (ID c1 + N.of_nat (cfg_n c1))%N c1)).
  destruct (make_ends_run 0 (new_names c1) (net c2) (co_sound _ _ Hok1) (NoDup_new_names _ _)) as (clis & w1 & Hends & Hw1 & _).
  set (c3 := set_net w1 c2) in *.
  assert (on_net (collect make_end (enumerate (new_names c1))) c2 = (Ok clis, c3)) as Hends'.
  { unfold on_net, part. change (enumerate _) with (imap (λ j nm, (0 + j, nm)) (new_names c1)). by rewrite Hends. }
  assert (∃ node l, new_node clis i c3 = (Ok node, set_lib l (set_pollers (pollers c1 ++ [i]) c3))) as (node & l & Hnode).
  { unfold new_node. destruct (lookup_lt_is_Some_2 (saved c1) i) as [p Hp]; [by rewrite (sh_saved _ Hsh)|].
    rewrite bind_assoc. erewrite bind_ok; [|reflexivity]. erewrite bind_ok; [|unfold expect; change (saved c3) with (saved c1); rewrite Hp; reflexivity].
    mpure. unfold modify, mbind, M_bind, id, gets. cbn. destruct (node_new _ _ _ _ _ _) as [node l]. by exists node, l. }
  set (c4 := set_lib l _) in *. set (c5 := set_rafts (mkMutex (<[i := Some node]> (inside (rafts c1))) false) c4).
  destruct (serve_node_run i node c5) as (w2 & Hserve & Hw2).
  { cbn. rewrite (em_sound _ _ _ _ Hw1). apply Hok1. }
  assert (started i (new_names c1) node w2 l c1 = set_net w2 c5) as Heq by done.
  destruct (started_ok id0 i node w1 w2 l c1 Hok1 Hi Hci Hw1 Hw2) as (Hfin & Hserving & Hkn).
  rewrite Heq in *. exists node, (set_net w2 c5). split.
  - unfold start1. rewrite (bind_ok _ _ _ _ _ Hrun). erewrite bind_ok; [|reflexivity].
    rewrite <-HID, <-Hn in Hid. erewrite bind_ok; [|unfold on_ID, part; rewrite uniqstrings_run by done; reflexivity]. fold (new_names c1).
    erewrite bind_ok; [|apply store_run; change (endnames _) with (endnames c1); by rewrite (sh_endnames _ Hsh)].
    change (set_endnames _ _) with c2. erewrite bind_ok; [|exact Hends']. rewrite (bind_ok _ _ _ _ _ Hnode).
    erewrite bind_ok; [exact Hserve|]. apply on_rafts_run; [apply Hok1|].
    destruct (lookup_lt_is_Some_2 (inside (rafts c1)) i) as [o Ho]; [by rewrite (sh_rafts _ Hsh)|].
    unfold gets, mbind, M_bind, expect, id. change (inside (rafts c4)) with (inside (rafts c1)). by rewrite Ho.
  - split_and!; [done| |done|cbn; by rewrite HID, Hn]. split; [done|done| |].
    + cbn. by rewrite Hrf, list_insert_insert_eq.
    + intros j Hj. by apply Hkn, Hknown.
Qed.

(** ** Sequences of operations *)

Inductive cfg_op := Start (i : nat) | Crash (i : nat) | Connect (i : nat) | Disconnect (i : nat).

Definition cfg_step (o : cfg_op) : CM unit :=
  match o with
  | Start i => start1 i
  | Crash i => crash1 i
  | Connect i => connect i
  | Disconnect i => disconnect i
  end.

Definition target (o : cfg_op) : nat := match o with Start i | Crash i | Connect i | Disconnect i => i end.
Definition is_start (o : cfg_op) : bool := match o with Start _ => true | _ => false end.

(** What the test has asked for: which servers are on the network and which are running. *)
Definition status : Type := list bool * list bool.
Definition status_step (st : status) (o : cfg_op) : status :=
  match o with
  | Start i => (<[i := false]> st.1, <[i := true]> st.2)
  | Crash i => (<[i := false]> st.1, <[i := false]> st.2)
  | Connect i => (<[i := true]> st.1, st.2)
  | Disconnect i => (<[i := false]> st.1, st.2)
  end.

Definition status_of c : status := (connected c, (λ o, bool_decide (is_Some o)) <$> inside (rafts c)).

Definition known c (j : nat) : Prop := is_Some (servers (eps c) !! server_name j).

Lemma changed_status i b o c c' : changed i b o c c' → status_of c' = (<[i := b]> (connected c), <[i := bool_decide (is_Some o)]> (status_of c).2).
Proof. intros [_ Hc Hr _]. unfold status_of. by rewrite Hc, Hr, list_fmap_insert. Qed.

Lemma cfg_step_ok id0 o c : cfg_ok id0 c → target o < cfg_n c → (ID c + (if is_start o then N.of_nat (cfg_n c) else 0) < USIZE)%N →
  ∃ c', cfg_step o c = (Ok tt, c') ∧ cfg_ok id0 c' ∧ cfg_n c' = cfg_n c ∧ status_of c' = status_step (status_of c) o ∧
    ID c' = (ID c + (if is_start o then N.of_nat (cfg_n c) else 0))%N ∧
    (∀ j, known c j → known c' j) ∧ (is_start o = true → known c' (target o)).
Proof.
  intros Hok Hi Hid. destruct o as [i|i|i|i]; cbn [cfg_step target is_start] in *.
  - destruct (start1_ok id0 i c Hok Hi Hid) as (node & c' & Hrun & Hok' & Hch & (srv & sc & Hsrv & _) & HID).
    exists c'. split_and!; [done|done|apply Hch|by rewrite (changed_status _ _ _ _ _ Hch)|done|apply Hch|].
    intros _. unfold known. rewrite Hsrv. by eexists.
  - destruct (crash1_ok id0 i c Hok Hi) as (c' & Hrun & Hok' & Hch & _ & HID).
    exists c'. split_and!; [done|done|apply Hch|by rewrite (changed_status _ _ _ _ _ Hch)|rewrite HID; lia|apply Hch|done].
  - destruct (connect_ok id0 i c Hok Hi) as (m & Hrun & Hok'). eexists. split_and!; [exact Hrun|done|done|done|cbn; lia|done|done].
  - destruct (disconnect_ok id0 i c Hok Hi) as (m & Hrun & Hok'). eexists. split_and!; [exact Hrun|done|done|done|cbn; lia|done|done].
Qed.

Definition starts (os : list cfg_op) : nat := length (filter (λ o, is_start o = true) os).

Lemma cfg_steps_ok id0 os c : cfg_ok id0 c → Forall (λ o, target o < cfg_n c) os →
  (ID c + N.of_nat (starts os * cfg_n c) < USIZE)%N →
  ∃ c', for_each cfg_step os c = (Ok tt, c') ∧ cfg_ok id0 c' ∧ cfg_n c' = cfg_n c ∧
    status_of c' = foldl status_step (status_of c) os ∧ ID c' = (ID c + N.of_nat (starts os * cfg_n c))%N ∧
    (∀ j, known c j → known c' j) ∧ (∀ j, Start j ∈ os → known c' j).
Proof.
  revert c. induction os as [|o os IH]; intros c Hok Hall Hid.
  { exists c. split_and!; try done; [simpl; lia|]. by intros j ?%not_elem_of_nil. }
  apply Forall_cons in Hall as [Ho Hall].
  assert (starts (o :: os) = (if is_start o then 1 else 0) + starts os) as Hst.
  { unfold starts. destruct (is_start o) eqn:Hs; [by rewrite filter_cons_True|by rewrite filter_cons_False by (by rewrite Hs)]. }
  rewrite Hst in *. destruct (cfg_step_ok id0 o c Hok Ho) as (c1 & Hrun & Hok1 & Hn & Hstat & HID & Hkn & Hkno); [destruct (is_start o); lia|].
  destruct (IH c1 Hok1) as (c2 & Hruns & Hok2 & Hn2 & Hstat2 & HID2 & Hkn2 & Hkno2); [by rewrite Hn|rewrite Hn, HID; destruct (is_start o); lia|].
  exists c2. cbn [for_each]. rewrite (bind_ok _ _ _ _ _ Hrun). split_and!; [done|done|congruence|simpl; congruence| | |].
  - rewrite HID2, HID, Hn. destruct (is_start o); lia.
  - intros j Hj. by apply Hkn2, Hkn.
  - intros j [<-|Hj]%elem_of_cons; [by apply Hkn2, Hkno|by apply Hkno2].
Qed.

(** ** A new configuration *)

Lemma blank_ok n unreliable (a : App) id0 now l :
  cfg_ok id0 (blank n unreliable (world (new_network a)) id0 now l : Config).
Proof.
  assert (∀ i j nm, endname (blank n unreliable (world (new_network a)) id0 now l : Config) i j = Some nm → nm = "") as Hnm.
  { intros i j nm. unfold endname. cbn. intros (row & [-> _]%lookup_replicate & [-> _]%lookup_replicate)%bind_Some. done. }
  split.
  - split; cbn; rewrite ?length_replicate, ?length_seq; try done.
    intros i names [-> _]%lookup_replicate. by rewrite length_replicate.
  - done.
  - done.
  - intros i p. cbn. rewrite length_replicate. by intros [-> ?]%lookup_seq.
  - done.
  - by intros i j nm ->%Hnm.
  - by intros i j i' j' nm ->%Hnm.
  - by intros i j nm ci cj ->%Hnm.
  - intros k. cbn. lia.
  - by intros i j nm ->%Hnm.
  - intros i node. cbn. by intros [? _]%lookup_replicate.
  - intros i _. cbn. by rewrite lookup_empty.
  - intros i j nm. cbn. rewrite lookup_empty. by intros [].
Qed.

Lemma foldl_insert_all {A} (b : A) (l : list A) : foldl (λ l i, <[i := b]> l) l (seq 0 (length l)) = replicate (length l) b.
Proof.
  assert (∀ k l' (P : list A), length P + k = length l' → foldl (λ l i, <[i := b]> l) l' (seq (length P) k) = take (length P) l' ++ replicate k b) as H.
  { induction k as [|k IH]; intros l' P Hlen; simpl; [by rewrite app_nil_r, take_ge by lia|].
    destruct (lookup_lt_is_Some_2 l' (length P)) as [y Hy]; [lia|].
    pose proof (IH (<[length P := b]> l') (P ++ [b])) as H. rewrite length_app, length_insert in H. simpl in H.
    rewrite Nat.add_1_r in H. rewrite H by lia.
    rewrite (take_S_r _ _ b) by (rewrite list_lookup_insert_eq; [done|lia]). rewrite take_insert_ge by lia. by rewrite <-app_assoc. }
  exact (H (length l) l [] eq_refl).
Qed.

Lemma foldl_starts cs al l : foldl status_step (cs, al) (Start <$> l) = (foldl (λ l i, <[i := false]> l) cs l, foldl (λ l i, <[i := true]> l) al l).
Proof. revert cs al. induction l as [|i l IH]; intros cs al; [done|]. apply IH. Qed.

Lemma foldl_connects cs al l : foldl status_step (cs, al) (Connect <$> l) = (foldl (λ l i, <[i := true]> l) cs l, al).
Proof. revert cs al. induction l as [|i l IH]; intros cs al; [done|]. apply IH. Qed.

(** [Config::new] starts all the servers and connects them. *)
Lemma new_ok n unreliable a id0 now l : (id0 + N.of_nat (n * n) < USIZE)%N →
  ∃ c, new n unreliable a id0 now l = (Ok tt, c) ∧ cfg_ok id0 c ∧ cfg_n c = n ∧
    status_of c = (replicate n true, replicate n true) ∧ ID c = (id0 + N.of_nat (n * n))%N ∧ ∀ j, j < n → known c j.
Proof.
  intros Hid. unfold new. set (c0 := blank n unreliable _ id0 now l).
  assert (starts (Start <$> seq 0 n) = n) as Hst.
  { unfold starts. rewrite filter_all; [by rewrite length_fmap, length_seq|]. by intros o (i & -> & _)%list_elem_of_fmap. }
  assert (starts (Connect <$> seq 0 n) = 0) as Hst2.
  { unfold starts. generalize (seq 0 n). intros l0. induction l0 as [|i l0 IH]; [done|]. by rewrite fmap_cons, filter_cons_False. }
  destruct (cfg_steps_ok id0 (Start <$> seq 0 n) c0 (blank_ok n unreliable a id0 now l)) as (c1 & Hrun1 & Hok1 & Hn1 & Hs1 & HID1 & _ & Hk1).
  { apply Forall_fmap, Forall_forall. intros i Hi%elem_of_seq. cbn. lia. }
  { rewrite Hst. exact Hid. }
  destruct (cfg_steps_ok id0 (Connect <$> seq 0 n) c1 Hok1) as (c2 & Hrun2 & Hok2 & Hn2 & Hs2 & HID2 & Hk2 & _).
  { apply Forall_fmap, Forall_forall. intros i Hi%elem_of_seq. rewrite Hn1. cbn. lia. }
  { rewrite Hst2, HID1, Hst. cbn. lia. }
  rewrite Hst in HID1. rewrite Hst2 in HID2. rewrite for_each_fmap in Hrun1, Hrun2. cbn [cfg_step] in *.
  exists c2. split_and!.
  - unfold start_all. erewrite bind_ok; [|reflexivity]. change (cfg_n c0) with n. by rewrite (bind_ok _ _ _ _ _ Hrun1).
  - done.
  - by rewrite Hn2, Hn1.
  - rewrite Hs2, Hs1. unfold status_of at 1. cbn [connected rafts inside c0 blank].
    rewrite foldl_starts, foldl_connects. pose proof (@foldl_insert_all bool) as H.
    rewrite fmap_replicate. f_equal.
    + pose proof (H false (replicate n true)) as H1. rewrite length_replicate in H1. rewrite H1.
      pose proof (H true (replicate n false)) as H2. rewrite length_replicate in H2. by rewrite H2.
    + pose proof (H true (replicate n (bool_decide (is_Some (@None Node))))) as H1. rewrite length_replicate in H1. by rewrite H1.
  - rewrite HID2, HID1. cbn. lia.
  - intros j Hj. apply Hk2, Hk1, list_elem_of_fmap. exists j. split; [done|]. apply elem_of_seq. lia.
Qed.
End config.
