(* ===== verification/RaftChecks.v ===== *)
(** * The checks of the raft tests while the cluster runs

    The thread of a test waits, asks the servers and counts what they committed, while
    everything else goes on. *)

From stdpp Require Import relations.
From S2P Require Import Prelude Conc Rpc RpcSpec Persister Harness RaftConfig RaftConfigSpec.

(** ** Programs under interference *)

Section ends.
Context {E S : Type} (R : S → S → Prop).

(** However the program ends, [post] holds. *)
Definition ends {A} (p : prog E S A) (s : S) (post : outcome E A → S → Prop) : Prop :=
  ∀ o s', iexec R p s o s' → post o s'.

Lemma ends_done {A} (o : outcome E A) s post : (∀ s', rtc R s s' → post o s') → ends (Done o) s post.
Proof. intros H o' s'. inversion 1; subst. by apply H. Qed.

Lemma ends_bind {A B} (p : prog E S A) (k : A → prog E S B) s post :
  ends p s (λ o s', ends (cont k o) s' post) → ends (p ≫= k) s post.
Proof. intros H o s' (o1 & s1 & H1 & H2)%iexec_bind. by eapply H. Qed.

Lemma ends_mono {A} (p : prog E S A) s (P Q : outcome E A → S → Prop) : ends p s P → (∀ o s', P o s' → Q o s') → ends p s Q.
Proof. intros H HPQ o s' Hi. by apply HPQ, H. Qed.

Lemma ends_atomic {A B} (m : M E S A) (k : A → prog E S B) s post :
  (∀ s1, rtc R s s1 → ends (cont k (m s1).1) (m s1).2 post) → ends (atomic m ≫= k) s post.
Proof.
  intros H. apply ends_bind. intros o s' (s1 & s2 & H1 & Hm & H2)%iexec_atomic. specialize (H s1 H1). rewrite Hm in H.
  intros o' s3 Hk. apply H. by eapply iexec_wait.
Qed.

Lemma ends_gets {A B} (f : S → A) (k : A → prog E S B) s post :
  (∀ s1, rtc R s s1 → ends (k (f s1)) s1 post) → ends (atomic (gets f) ≫= k) s post.
Proof. intros H. by apply ends_atomic. Qed.
End ends.

(** ** What was counted *)

Section counted.
Context {E : Type}.

(** When the loop returns, all that it saw is the same. *)
Lemma count_committed_inv {S} idx ls k cmd (s s' : S) nd cmd' :
  count_committed (E := E) idx ls k cmd s = (Ok (nd, cmd'), s') → (k = 0 ↔ cmd = None) →
  nd = k + committed idx ls ∧ (nd = 0 ↔ cmd' = None) ∧ (k ≠ 0 → cmd' = cmd) ∧ ∀ l e, l ∈ ls → l !! idx = Some e → cmd' = Some e.
Proof.
  revert k cmd. induction ls as [|l ls IH]; intros k cmd; cbn [count_committed].
  { intros [= <- <- _] Hk. split_and!; [unfold committed; simpl; lia|done|done|]. by intros l e ?%not_elem_of_nil. }
  unfold committed. destruct (l !! idx) as [e|] eqn:Hl.
  - rewrite bool_decide_true, filter_cons_True by (rewrite ?Hl; eauto). cbn [length].
    destruct ((0 <? k) && bool_decide (cmd ≠ Some e)) eqn:Hc; [done|]. intros Hrun Hk.
    destruct (IH _ _ Hrun) as (-> & H0 & Hcmd & Hall); [split; [lia|done]|]. specialize (Hcmd ltac:(lia)).
    assert (k ≠ 0 → cmd = Some e) as Hke.
    { intros Hk0. apply andb_false_iff in Hc as [?%Nat.ltb_nlt|Hc%bool_decide_eq_false]; [lia|]. by apply dec_stable. }
    split_and!; [unfold committed; lia|done|intros Hk0; by rewrite Hcmd, Hke|].
    intros l' e' [->|Hl']%elem_of_cons He'; [congruence|by eapply Hall].
  - rewrite bool_decide_false, filter_cons_False by (rewrite ?Hl; by intros []). intros Hrun Hk.
    destruct (IH _ _ Hrun Hk) as (-> & H0 & Hcmd & Hall). split_and!; [done|done|done|].
    intros l' e' [->|Hl']%elem_of_cons He'; [congruence|by eapply Hall].
Qed.

(** It only reads, and returns or panics. *)
Lemma count_committed_ends {S} idx ls k cmd (s s' : S) o : count_committed (E := E) idx ls k cmd s = (o, s') →
  s' = s ∧ match o with Ok _ | Panic => True | _ => False end.
Proof.
  revert k cmd. induction ls as [|l ls IH]; intros k cmd; cbn [count_committed].
  - intros [= <- <-]. done.
  - destruct (bool_decide (is_Some (l !! idx))); [|apply IH]. destruct (_ && _); [by intros [= <- <-]|apply IH].
Qed.

(** How many servers have committed [e] at [idx]. *)
Definition committed_as (idx : N) (e : Entry) (ls : list (gmap N Entry)) : nat := length (filter (λ l, l !! idx = Some e) ls).

Lemma committed_as_all idx e ls : (∀ l e', l ∈ ls → l !! idx = Some e' → e' = e) → committed_as idx e ls = committed idx ls.
Proof.
  unfold committed_as, committed. induction ls as [|l ls IH]; intros H; [done|].
  assert (committed_as idx e ls = committed idx ls) as Heq by (apply IH; intros l' e' Hl' He'; apply (H l' e'); [by right|done]).
  unfold committed_as, committed in Heq. destruct (l !! idx) as [e'|] eqn:Hl.
  - assert (e' = e) as -> by (apply (H l); [by left|done]). rewrite !filter_cons_True by (rewrite ?Hl; eauto). simpl. by rewrite Heq.
  - rewrite filter_cons_False by congruence. by rewrite filter_cons_False by (rewrite Hl; by intros []).
Qed.

(** What was committed stays. *)
Lemma committed_as_grows idx e ls ls' : Forall2 (⊆) ls ls' → committed_as idx e ls ≤ committed_as idx e ls'.
Proof.
  unfold committed_as. induction 1 as [|l l' ls ls' Hl _ IH]; [done|].
  destruct (decide (l !! idx = Some e)) as [He|He].
  - rewrite !filter_cons_True by (done || by eapply lookup_weaken). simpl. lia.
  - rewrite (filter_cons_False _ l) by done. etrans; [exact IH|]. destruct (decide (l' !! idx = Some e)).
    + rewrite filter_cons_True by done. simpl. lia.
    + by rewrite filter_cons_False.
Qed.
End counted.

Section checks.
Context {EncodeError DecodeError Factory Hooks App Node Lib RaftError : Type}.
Abbreviation E := (Error EncodeError DecodeError).
Abbreviation Config := (@Config EncodeError DecodeError Factory Hooks App Node Lib).
Abbreviation CM := (M E Config).
Abbreviation CP := (prog E Config).
Context {raft : @RaftNode Factory Node Lib RaftError}.
Implicit Types (c : Config).

Abbreviation clogs c := (logs (inside (storage c))).

(** What goes on during a check: time passes, the network and the rafts run, and commands
    are committed; the servers stay where they are. *)
Record others c c' : Prop := {
  ot_n : cfg_n c' = cfg_n c;
  ot_connected : connected c' = connected c;
  ot_rafts : rafts c' = rafts c;
  ot_clock : (clock c <= clock c')%N;
  ot_logs : Forall2 (⊆) (clogs c) (clogs c');
}.

#[export] Instance others_preorder : PreOrder others.
Proof.
  split; [by split|]. intros c1 c2 c3 [] []. split; try congruence; [lia|]. by etrans.
Qed.

Lemma others_rtc c c' : rtc others c c' → others c c'.
Proof. induction 1; [done|by etrans]. Qed.

(** What a check itself may change is no more than that. *)
Lemma n_committed_inv idx c o c' : n_committed idx c = (o, c') → others c c' ∧
  match o with
  | Ok (nd, cmd) => nd = committed idx (clogs c') ∧ ∀ e, cmd = Some e → committed_as idx e (clogs c') = nd
  | Panic => True
  | _ => False
  end.
Proof.
  unfold n_committed, on_storage, part, with_mutex, Storage_n_committed.
  destruct (mx_poisoned (storage c)) eqn:Hp; [intros [= <- <-]; split; [by destruct c|done]|].
  unfold gets, mbind, M_bind. destruct (count_committed idx _ 0 None _) as [o' s'] eqn:Hc.
  destruct (count_committed_ends _ _ _ _ _ _ _ Hc) as [-> Hend].
  assert (∀ b, others c (set_storage (mkMutex (inside (storage c)) b) c)) as Ho by (intros b; by split).
  destruct o' as [[nd cmd]|e| |]; intros [= <- <-]; split; try apply Ho.
  - destruct (count_committed_inv _ _ _ _ _ _ _ _ Hc) as (-> & H0 & _ & Hall); [done|]. cbn. split; [done|].
    intros e ->. apply committed_as_all. intros l e' Hl He'. specialize (Hall _ _ Hl He'). congruence.
  - done.
  - done.
  - done.
Qed.

(** ** The loops of [one] *)

Lemma start_at_inv i cmd c o c' : start_at i cmd c = (o, c') → match o with Ok _ => others c c' | Panic => True | _ => False end.
Proof.
  unfold start_at, on_rafts, part, with_mutex, gets, modify, expect, mbind, M_bind, mret, M_ret, id.
  destruct (mx_poisoned (rafts c)) eqn:Hp; [by intros [= <- _]|].
  destruct (inside (rafts c) !! i) as [[rf|]|]; cbn; intros [= <- <-]; try done;
    (split; try done; cbn; by destruct (rafts c); simpl in *; subst).
Qed.

Lemma try_servers_ends turns cmd starts c post :
  (∀ r starts' c', others c c' → post (Ok (r, starts')) c') → (∀ c', post Panic c') →
  ends others (try_servers turns cmd starts) c post.
Proof.
  intros Hok Hpanic. revert starts c Hok. induction turns as [|turns IH]; intros starts c Hok; cbn [try_servers].
  { apply ends_done. intros c' Hc'%others_rtc. by apply Hok. }
  apply ends_gets. intros c1 Hc1%others_rtc. apply ends_atomic. intros c2 Hc2%others_rtc. unfold expect, id.
  destruct (connected c1 !! ((starts + 1) mod cfg_n c1)) as [[]|]; cbn; [| |by apply ends_done].
  - apply ends_atomic. intros c3 Hc3%others_rtc. destruct (start_at _ cmd c3) as [o c4] eqn:Hst.
    pose proof (start_at_inv _ _ _ _ _ Hst) as Ho. assert (others c c3) as Hcc3 by (do 2 (etrans; [eassumption|]); done).
    destruct o as [r|e| |]; [|done|by apply ends_done|done]. cbn.
    assert (others c c4) as Hcc4 by by etrans.
    assert (∀ r starts' c', others c4 c' → post (Ok (r, starts')) c') as Hok4 by (intros; apply Hok; by etrans).
    destruct r as [[e|[index1 t]]|]; [by apply IH| |by apply IH]. apply ends_done. intros c' Hc'%others_rtc. by apply Hok4.
  - apply IH. intros r s' c' Hc'. apply Hok. do 2 (etrans; [eassumption|]). done.
Qed.

(** One look at what was committed, and the rest of the program. *)
Lemma ends_n_committed {A} index (k : nat * option Entry → CP A) c post :
  (∀ nd cmd c', others c c' → nd = committed index (clogs c') → (∀ e, cmd = Some e → committed_as index e (clogs c') = nd) →
     ends others (k (nd, cmd)) c' post) → (∀ c', post Panic c') →
  ends others (atomic (n_committed index) ≫= k) c post.
Proof.
  intros Hk Hpanic. apply ends_atomic. intros c1 Hc1%others_rtc. destruct (n_committed index c1) as [o c2] eqn:Hn.
  destruct (n_committed_inv _ _ _ _ Hn) as [Hc2 Ho]. destruct o as [[nd cmd]|e| |]; [|done|by apply ends_done|done].
  destruct Ho as [Hnd Has]. apply Hk; [by etrans|done|done].
Qed.

Lemma ends_sleep {A} ms (k : unit → CP A) c post :
  (∀ c', others c c' → (clock c + ms <= clock c')%N → ends others (k tt) c' post) → ends others (sleep ms ≫= k) c post.
Proof.
  intros Hk. apply ends_atomic. intros c1 Hc1%others_rtc. cbn. pose proof (ot_clock _ _ Hc1).
  apply Hk; [|cbn; lia]. etrans; [exact Hc1|]. split; try done. cbn. lia.
Qed.

(** [agree_loop] ends after two seconds at the latest; with 101 turns it never runs out. *)
Lemma agree_loop_ends fuel k t1 index cmd n c post : 0 < fuel → fuel + k = 101 → (t1 + 20 * N.of_nat k <= clock c)%N →
  (∀ c', others c c' → 1 `max` n ≤ committed_as index cmd (clogs c') → post (Ok true) c') →
  (∀ c', others c c' → (t1 + 2000 <= clock c')%N → post (Ok false) c') → (∀ c', post Panic c') →
  ends others (agree_loop fuel t1 index cmd n) c post.
Proof.
  intros Hf Hk Hclock Hyes Hno Hpanic. revert k c Hf Hk Hclock Hyes Hno. induction fuel as [|fuel IH]; [lia|].
  intros k c Hf Hk Hclock Hyes Hno. cbn [agree_loop].
  apply ends_gets. intros c1 Hc1%others_rtc. pose proof (ot_clock _ _ Hc1). destruct (N.ltb_spec (clock c1 - t1) 2000) as [Ht|Ht].
  2:{ apply ends_done. intros c' Hc'%others_rtc. pose proof (ot_clock _ _ Hc'). apply Hno; [by etrans|lia]. }
  apply ends_n_committed; [|done]. intros nd cmd1 c2 Hc2 Hnd Has.
  destruct ((0 <? nd) && (n <=? nd) && bool_decide (cmd1 = Some cmd)) eqn:Hcond.
  - apply andb_true_iff in Hcond as [[H1%Nat.ltb_lt H2%Nat.leb_le]%andb_true_iff Heq%bool_decide_eq_true].
    apply ends_done. intros c' Hc'%others_rtc. apply Hyes; [do 2 (etrans; [eassumption|]); done|].
    specialize (Has _ Heq). pose proof (committed_as_grows index cmd _ _ (ot_logs _ _ Hc')). lia.
  - apply ends_sleep. intros c3 Hc3 Ht3. assert (others c c3) as Hc03 by (do 2 (etrans; [eassumption|]); done).
    pose proof (ot_clock _ _ Hc2). apply (IH (S k)); [lia|lia|lia| |].
    + intros c' Hc'. apply Hyes. by etrans.
    + intros c' Hc'. apply Hno. by etrans.
Qed.

(** What [one] promises. *)
Definition agreed (cmd : Entry) (n : nat) (o : outcome E N) c : Prop :=
  match o with
  | Ok index => 1 `max` n ≤ committed_as index cmd (clogs c)
  | Panic => True
  | Err _ | Diverge => False
  end.

Lemma one_loop_ends fuel k t cmd n retry starts c : 0 < fuel → fuel + k = 201 → (t + 50 * N.of_nat k <= clock c)%N →
  ends others (one_loop fuel t cmd n retry starts) c (agreed cmd n).
Proof.
  revert k starts c. induction fuel as [|fuel IH]; [lia|]. intros k starts c Hf Hk Hclock. cbn [one_loop].
  apply ends_gets. intros c1 Hc1%others_rtc. pose proof (ot_clock _ _ Hc1). destruct (N.ltb_spec (clock c1 - t) 10000) as [Ht|Ht].
  2:{ by apply ends_done. }
  apply ends_gets. intros c2 Hc2%others_rtc. pose proof (ot_clock _ _ Hc2). apply ends_bind, try_servers_ends; [|by intros; apply ends_done].
  intros r starts' c3 Hc3. pose proof (ot_clock _ _ Hc3). cbn [cont]. destruct r as [index|].
  - apply ends_gets. intros c4 Hc4%others_rtc. pose proof (ot_clock _ _ Hc4). apply ends_bind.
    apply (agree_loop_ends 101 0); [lia|done|lia| | |by intros; apply ends_done].
    + intros c' Hc' Hcom. apply ends_done. intros c5 Hc5%others_rtc. cbn.
      pose proof (committed_as_grows index cmd _ _ (ot_logs _ _ Hc5)). lia.
    + intros c' Hc' Ht'. cbn. destruct retry; [|by apply ends_done]. apply (IH (S k)); lia.
  - apply ends_sleep. intros c4 Hc4 Ht4. apply (IH (S k)); lia.
Qed.

Lemma one_ends cmd n retry c : ends others (one cmd n retry) c (agreed cmd n).
Proof. unfold one. apply ends_gets. intros c1 _. apply (one_loop_ends 201 0); [lia|done|lia]. Qed.

(** ** What the checks answer when nothing moves *)

Definition node_of c (i : nat) : option Node := mjoin (inside (rafts c) !! i).

(** Each connected server runs. *)
Definition all_there c : Prop := mx_poisoned (rafts c) = false ∧ ∀ i, connected c !! i = Some true → is_Some (node_of c i).

Definition state_of c (rf : Node) : State := mkState (node_term rf (lib c)) (node_is_leader rf (lib c)).

(** The connected servers among [cs], with their states. *)
Definition states c (cs : list (nat * bool)) : list (nat * State) :=
  omap (λ '(i, b), if (b : bool) then (λ rf, (i, state_of c rf)) <$> node_of c i else None) cs.

Definition all_states c : list (nat * State) := states c (enumerate (connected c)).

Lemma raft_at_ok i rf c : mx_poisoned (rafts c) = false → node_of c i = Some rf → raft_at i c = (Ok rf, c).
Proof.
  unfold node_of, raft_at, on_rafts, part, with_mutex, gets, expect, mbind, M_bind, mret, M_ret, id. intros Hp H. rewrite Hp.
  destruct (inside (rafts c) !! i) as [[rf'|]|]; simplify_eq/=. destruct c as [? ? [? ?]]; simpl in *; by subst.
Qed.

(** The servers in [cs] that are connected run. *)
Definition there c (cs : list (nat * bool)) : Prop := mx_poisoned (rafts c) = false ∧ ∀ i, (i, true) ∈ cs → is_Some (node_of c i).

Lemma all_there_there c : all_there c → there c (enumerate (connected c)).
Proof. intros [Hp H]. split; [done|]. intros i (j & b & [= <- <-] & Hb)%elem_of_lookup_imap. by apply H. Qed.

Lemma there_cons c i b cs : there c ((i, b) :: cs) → there c cs ∧ (b = true → ∃ rf, node_of c i = Some rf ∧ raft_at i c = (Ok rf, c)).
Proof.
  intros [Hp H]. split; [split; [done|intros j Hj; apply H; by right]|].
  intros ->. destruct (H i) as [rf Hrf]; [by left|]. exists rf. split; [done|by apply raft_at_ok].
Qed.

Lemma states_cons c i b cs rf : (b = true → node_of c i = Some rf) →
  states c ((i, b) :: cs) = if b then (i, state_of c rf) :: states c cs else states c cs.
Proof. intros H. unfold states. cbn [omap list_omap]. destruct b; [by rewrite H|done]. Qed.

(** [check_terms] skips the servers that are at term 0 until it finds another term, and then
    compares. *)
Fixpoint same_terms (t : N) (ts : list N) : option N :=
  match ts with
  | [] => Some t
  | t' :: ts' => if (t =? 0)%N then same_terms t' ts' else if bool_decide (t = t') then same_terms t ts' else None
  end.

Lemma check_terms_loop_run cs t c : there c cs →
  run (check_terms_loop cs t) c = Some (match same_terms t (term ∘ snd <$> states c cs) with Some t' => Ok t' | None => Panic end, c).
Proof.
  revert t. induction cs as [|[i b] cs IH]; intros t Hc; [done|]. apply there_cons in Hc as [Hc Hi]. cbn [check_terms_loop].
  destruct b; [destruct (Hi eq_refl) as (rf & Hrf & Hat)|].
  - rewrite (states_cons _ _ _ _ rf) by done. rewrite (run_atomic_ok _ _ _ _ _ Hat). rpure. cbn [fmap list_fmap same_terms].
    change ((term ∘ snd) (i, state_of c rf)) with (node_term rf (lib c)).
    destruct (t =? 0)%N; [by apply IH|]. destruct (decide (t = node_term rf (lib c))) as [->|Hne].
    + rewrite bool_decide_false by naive_solver. rewrite bool_decide_true by done. by apply IH.
    + by rewrite bool_decide_true, bool_decide_false by done.
  - unfold states. cbn [omap list_omap]. by apply IH.
Qed.

Lemma check_terms_run c : all_there c →
  run check_terms c = Some (match same_terms 0 (term ∘ snd <$> all_states c) with Some t => Ok t | None => Panic end, c).
Proof. intros Hc%all_there_there. unfold check_terms. rpure. by apply check_terms_loop_run. Qed.

(** *** One leader *)

(** The leaders among [sts] by their terms. *)
Definition add_leader (m : gmap N (list nat)) (st : nat * State) : gmap N (list nat) :=
  if is_leader st.2 then <[term st.2 := default [] (m !! term st.2) ++ [st.1]]> m else m.

Definition leaders_in (t : N) (sts : list (nat * State)) : list nat :=
  fst <$> filter (λ st, is_leader (snd st) = true ∧ term (snd st) = t) sts.

Lemma ask_servers_run cs m c : there c cs → run (ask_servers cs m) c = Some (Ok (foldl add_leader m (states c cs)), c).
Proof.
  revert m. induction cs as [|[i b] cs IH]; intros m Hc; [done|]. apply there_cons in Hc as [Hc Hi]. cbn [ask_servers].
  destruct b; [destruct (Hi eq_refl) as (rf & Hrf & Hat)|].
  - rewrite (states_cons _ _ _ _ rf) by done. rewrite (run_atomic_ok _ _ _ _ _ Hat). unfold get_state. rpure. by apply IH.
  - unfold states. cbn [omap list_omap]. by apply IH.
Qed.

Lemma lookup_leaders sts t : ∀ m, foldl add_leader m sts !! t =
  match m !! t, leaders_in t sts with None, [] => None | o, ls => Some (default [] o ++ ls) end.
Proof.
  unfold leaders_in. induction sts as [|[i st] sts IH]; intros m; cbn [foldl].
  { destruct (m !! t) eqn:Hm; simpl; by rewrite ?app_nil_r, ?Hm. }
  rewrite IH. unfold add_leader. cbn [fst snd]. destruct (decide (is_leader st = true ∧ term st = t)) as [[Hl <-]|Hn].
  - rewrite filter_cons_True by done. rewrite Hl, lookup_insert_eq. cbn. destruct (m !! term st); cbn; by rewrite <-?app_assoc.
  - rewrite filter_cons_False by done. destruct (is_leader st) eqn:Hl; [|done]. rewrite lookup_insert_ne by naive_solver. done.
Qed.

(** The loop over the leaders finds two in a term, or the last term that has one. *)
Lemma last_term_run l last c : run (last_term_with_leader l last) c = Some
  (if existsb (λ x, 1 <? length x.2) l then Panic else Ok (foldl N.max last l.*1), c).
Proof.
  revert last. induction l as [|[t ls] l IH]; intros last; [done|]. simpl. destruct (1 <? length ls); [done|].
  simpl. rewrite IH. destruct (existsb _ l); [done|]. do 4 f_equal. destruct (N.ltb_spec last t); lia.
Qed.

Lemma foldl_max last (l : list N) : (last <= foldl N.max last l)%N ∧ (∀ t, t ∈ l → (t <= foldl N.max last l)%N) ∧
  (foldl N.max last l = last ∨ foldl N.max last l ∈ l).
Proof.
  revert last. induction l as [|t l IH]; intros last; simpl; [split_and!; [done|by intros t ?%not_elem_of_nil|by left]|].
  destruct (IH (N.max last t)) as (H1 & H2 & H3). split_and!; [lia| |].
  - intros t' [->|Ht']%elem_of_cons; [lia|by apply H2].
  - destruct H3 as [H3|H3]; [|right; by right]. rewrite H3. destruct (N.max_spec last t) as [[_ ->]|[_ ->]]; [right; by left|by left].
Qed.

Lemma leaders_lookup sts t ls : foldl add_leader ∅ sts !! t = Some ls ↔ leaders_in t sts = ls ∧ ls ≠ [].
Proof. rewrite lookup_leaders, lookup_empty. destruct (leaders_in t sts); simpl; naive_solver. Qed.

(** What [check_one_leader] finds out. *)
Definition one_leader (sts : list (nat * State)) (o : outcome E nat) : Prop :=
  match o with
  | Ok i => ∃ t, leaders_in t sts = [i] ∧ ∀ t', length (leaders_in t' sts) ≤ 1 ∧ (leaders_in t' sts ≠ [] → (t' <= t)%N)
  | Panic => (∀ t, leaders_in t sts = []) ∨ ∃ t, 1 < length (leaders_in t sts)
  | Err _ | Diverge => False
  end.

(** A turn that found leaders. *)
Lemma some_leader order sts c : (∀ l, order l ≡ₚ l) → foldl add_leader ∅ sts ≠ ∅ →
  let m := foldl add_leader ∅ sts in
  ∃ o, run (last ← last_term_with_leader (order (map_to_list m)) 0;
            match m !! last with Some (i :: _) => mret i | _ => Done Panic end) c = Some (o, c) ∧ one_leader sts o.
Proof.
  intros Ho Hne m. assert (∀ t ls, (t, ls) ∈ order (map_to_list m) ↔ leaders_in t sts = ls ∧ ls ≠ []) as Hin.
  { intros t ls. unfold m. by rewrite Ho, elem_of_map_to_list, leaders_lookup. }
  rewrite (run_bind _ _ _ _ _ (last_term_run _ _ _)). destruct (existsb _ (order (map_to_list m))) eqn:Hex; cbn [cont].
  { exists Panic. split; [done|right]. apply existsb_exists in Hex as ([t ls] & Hl%list_elem_of_In & Hlt%Nat.ltb_lt).
    apply Hin in Hl as [Hl _]. exists t. subst ls. done. }
  assert (∀ t, length (leaders_in t sts) ≤ 1) as Hone.
  { intros t. specialize (Hin t). destruct (leaders_in t sts) as [|i [|j ls]] eqn:Hls; simpl; [lia..|].
    assert (existsb (λ x, 1 <? length x.2) (order (map_to_list m)) = true); [|congruence].
    apply existsb_exists. exists (t, i :: j :: ls). split; [|done]. by apply list_elem_of_In, Hin. }
  destruct (foldl_max 0 (order (map_to_list m)).*1) as (_ & Hmax & Hat). set (last := foldl N.max 0%N _) in *.
  assert (∀ t, leaders_in t sts ≠ [] → (t <= last)%N) as Hle.
  { intros t Ht. apply Hmax, list_elem_of_fmap. exists (t, leaders_in t sts). split; [done|]. by apply Hin. }
  assert (leaders_in last sts ≠ []) as Hlast.
  { destruct Hat as [H0|([t ls] & Ht & [Hl ?]%Hin)%list_elem_of_fmap]; [|cbn in Ht; by rewrite Ht, Hl].
    destruct (map_choose m Hne) as (t & ls & [Hl Hls]%leaders_lookup). rewrite <-Hl in Hls.
    pose proof (Hle _ Hls). rewrite H0 in *. by assert (t = 0%N) as -> by lia. }
  destruct (leaders_in last sts) as [|i [|j ls]] eqn:Hls; [done| |specialize (Hone last); rewrite Hls in Hone; simpl in Hone; lia].
  assert (m !! last = Some [i]) as -> by (apply leaders_lookup; by rewrite Hls).
  exists (Ok i). split; [done|]. exists last. split; [done|]. intros t. split; [apply Hone|apply Hle].
Qed.

Lemma one_leader_loop_run order draws c : (∀ l, order l ≡ₚ l) → all_there c →
  ∃ o now, run (one_leader_loop order draws ∅) c = Some (o, set_clock now c) ∧ (draws ≠ [] → one_leader (all_states c) o).
Proof.
  intros Ho. revert c. induction draws as [|r draws IH]; intros c Hc; [exists Panic, (clock c); split; [by destruct c|done]|].
  cbn [one_leader_loop]. unfold sleep. rpure. set (c1 := set_clock _ c). assert (all_there c1) as Hc1 by done.
  rewrite (run_bind_ok _ _ _ _ _ (ask_servers_run _ _ _ (all_there_there _ Hc1))). fold (all_states c1).
  change (all_states c1) with (all_states c). set (m := foldl add_leader ∅ (all_states c)). destruct (decide (m = ∅)) as [Hm|Hm].
  - assert (∀ t, leaders_in t (all_states c) = []) as Hnone.
    { intros t. destruct (leaders_in t (all_states c)) as [|i ls] eqn:Hls; [done|].
      assert (m !! t = Some (i :: ls)) as Hl by by apply leaders_lookup. by rewrite Hm, lookup_empty in Hl. }
    rewrite Hm, map_to_list_empty. assert (order [] = []) as -> by (apply Permutation_nil; by rewrite Ho).
    destruct (IH c1 Hc1) as (o & now & Hrun & Hone). exists o, now. cbn [last_term_with_leader].
    rewrite bool_decide_true by done. split; [exact Hrun|]. intros _. destruct draws as [|r' draws]; [|by apply Hone].
    simpl in Hrun. injection Hrun as <- _. by left.
  - destruct (some_leader order (all_states c) c1 Ho Hm) as (o & Hrun & Hone). exists o, (clock c1). rewrite bool_decide_false by done.
    split; [exact Hrun|done].
Qed.

Lemma check_one_leader_run order rnd c : (∀ l, order l ≡ₚ l) → all_there c →
  ∃ o now, run (check_one_leader order rnd) c = Some (o, set_clock now c) ∧ one_leader (all_states c) o.
Proof.
  intros Ho Hc. destruct (one_leader_loop_run order (rnd <$> seq 0 10) c Ho Hc) as (o & now & Hrun & Hone).
  exists o, now. split; [done|by apply Hone].
Qed.
End checks.
