(* ===== verification/HarnessTheorems.v ===== *)
(** * Properties of the test configuration of raft

    Which servers can talk to each other after any operations of a test, what the commands
    that they commit come to, what the checks of the tests find out, and what a copy of a
    persister is worth. *)

From S2P Require Import Prelude Conc Rpc RpcSpec Persister Harness RaftConfig RaftConfigSpec RaftChecks.

Section raft.
Context {EncodeError DecodeError Factory Hooks App Node Lib RaftError : Type}.
Abbreviation E := (Error EncodeError DecodeError).
Abbreviation Config := (@Config EncodeError DecodeError Factory Hooks App Node Lib).
Context {raft : @RaftNode Factory Node Lib RaftError}.
Implicit Types (c : Config).

(** ** Connectivity *)

(** What the network says about the client that [i] has for [j]: the client works when both
    are on the network, and a request of it reaches the running instance of [j], if any. *)
Definition link_ok (st : status) c (i j : nat) : Prop := ∃ nm en srv,
  endname c i j = Some nm ∧
  end_info nm (net c) = (Ok (mkEndInfo en (reliable (core (net c))) (long_reordering (core (net c))) srv), net c) ∧
  (en = true ↔ st.1 !! i = Some true ∧ st.1 !! j = Some true) ∧
  match srv with
  | Some s => st.2 !! j = Some true ∧ ∃ node sc, node_of c j = Some node ∧ cores (net c) !! s = Some sc ∧
      core_name sc = server_name j ∧ services sc = {[ "raft" := raft_factory node ]}
  | None => st.2 !! j = Some false
  end.

Lemma link_ok_config id0 c i j : cfg_ok id0 c → i < cfg_n c → j < cfg_n c → known c i → known c j → link_ok (status_of c) c i j.
Proof.
  intros Hok Hi Hj Hki [s Hs]. pose proof (co_shape _ _ Hok) as Hsh.
  destruct (endname_some c i j Hsh Hi Hj) as [nm Hnm]. pose proof (co_named _ _ Hok _ _ _ Hki Hnm) as Hne.
  destruct (lookup_lt_is_Some_2 (connected c) i) as [ci Hci]; [by rewrite (sh_connected _ Hsh)|].
  destruct (lookup_lt_is_Some_2 (connected c) j) as [cj Hcj]; [by rewrite (sh_connected _ Hsh)|].
  destruct (lookup_lt_is_Some_2 (inside (rafts c)) j) as [o Ho]; [by rewrite (sh_rafts _ Hsh)|].
  exists nm, (ci && cj), s. split_and!; [done| | |].
  - rewrite end_info_eq, (co_sound _ _ Hok), (co_conn _ _ Hok _ _ _ Hnm Hne), Hs.
    by rewrite (co_enabled _ _ Hok _ _ _ _ _ Hnm Hne Hci Hcj).
  - cbn. rewrite Hci, Hcj. destruct ci, cj; naive_solver.
  - cbn. rewrite list_lookup_fmap, Ho. destruct o as [node|]; simpl.
    + destruct (co_alive _ _ Hok _ _ Ho) as (srv & sc & H1 & H2 & H3 & H4). simplify_eq. split; [done|].
      exists node, sc. unfold node_of. by rewrite Ho.
    + pose proof (co_dead _ _ Hok _ Ho) as Hd. rewrite Hs in Hd. simpl in Hd. by subst.
Qed.

(** C24: A raft cluster of any size is brought up by [Config::new], and then any sequence of
    starts, crashes, connections and disconnections runs without a panic. Afterwards each
    server's client for each other server works exactly when the sequence has left both of
    them on the network, its requests go to the instance that runs under the name of the
    server and to no older one, and the clients of all earlier instances are disabled for
    good. The only condition is that the counter of end names does not wrap around. *)
Theorem raft_connectivity n unreliable a id0 now l os :
  Forall (λ o, target o < n) os → (id0 + N.of_nat (n * (n + starts os)) < USIZE)%N →
  ∃ c0 c : Config, new n unreliable a id0 now l = (Ok tt, c0) ∧ for_each cfg_step os c0 = (Ok tt, c) ∧
    (∀ i j, i < n → j < n → link_ok (foldl status_step (replicate n true, replicate n true) os) c i j) ∧
    (∀ k, (id0 <= k < ID c)%N → (∀ i j, endname c i j ≠ Some (fmt_u64 k)) →
       enabled (endpoints (core (net c))) !! fmt_u64 k = Some false).
Proof.
  intros Hall Hid. destruct (new_ok (EncodeError := EncodeError) (DecodeError := DecodeError) (Hooks := Hooks) n unreliable a id0 now l) as (c0 & Hnew & Hok & Hn & Hst & HID & Hkn); [nia|].
  destruct (cfg_steps_ok id0 os c0 Hok) as (c & Hrun & Hok' & Hn' & Hst' & _ & Hkn' & _); [by rewrite Hn|rewrite Hn, HID; nia|].
  exists c0, c. split_and!; [done|done| |apply Hok'].
  intros i j Hi Hj. rewrite <-Hst, <-Hst'. rewrite Hn in Hn'. apply (link_ok_config id0); [done|by rewrite Hn'|by rewrite Hn'|by apply Hkn', Hkn|by apply Hkn', Hkn].
Qed.

(** ** Agreement *)

(** C26: However [one] ends, while time passes, the cluster runs and the servers commit
    commands, and whatever term and index the servers answer: an index that it returns is
    one where at least [expected_servers] servers, and at least one, have committed the
    command. It never runs longer than its two time limits allow: it returns or panics. *)
Theorem one_agreement cmd expected_servers retry c o c' :
  iexec others (one cmd expected_servers retry) c o c' →
  match o with
  | Ok index => 1 `max` expected_servers ≤ committed_as index cmd (logs (inside (storage c')))
  | Panic => True
  | Err _ | Diverge => False
  end.
Proof. intros H. exact (one_ends cmd expected_servers retry c o c' H). Qed.

(** ** One leader *)

(** C25: [check_one_leader] on a cluster whose states do not change: it returns a server
    only if it is the leader of the last term that has leaders and no term has two, and it
    panics only if there is no leader at all or some term has two; it always does one of
    the two. The order in which it goes through its map does not matter. *)
Theorem check_one_leader_finds order rnd c : (∀ l, order l ≡ₚ l) → all_there c → ∃ o now,
  run (check_one_leader order rnd) c = Some (o, set_clock now c) ∧
  match o with
  | Ok i => ∃ t, leaders_in t (all_states c) = [i] ∧
      ∀ t', length (leaders_in t' (all_states c)) ≤ 1 ∧ (leaders_in t' (all_states c) ≠ [] → (t' <= t)%N)
  | Panic => (∀ t, leaders_in t (all_states c) = []) ∨ ∃ t, 1 < length (leaders_in t (all_states c))
  | Err _ | Diverge => False
  end.
Proof. apply check_one_leader_run. Qed.

(** ** The same term *)

Lemma same_terms_later t ts : t ≠ 0%N →
  match same_terms t ts with Some t' => t' = t ∧ ts = replicate (length ts) t | None => ∀ m, ts ≠ replicate m t end.
Proof.
  intros Ht. induction ts as [|t' ts IH]; cbn [same_terms length replicate]; [done|].
  rewrite (proj2 (N.eqb_neq t 0)) by done. destruct (decide (t = t')) as [<-|Hne].
  - rewrite bool_decide_true by done. destruct (same_terms t ts); [destruct IH as [-> IH]; split; [done|by rewrite IH at 1]|].
    intros [|m] Hm; [done|]. injection Hm as Hm. by eapply IH.
  - rewrite bool_decide_false by done. intros [|m] Hm; [done|]. by injection Hm.
Qed.

Lemma same_terms_spec ts :
  match same_terms 0 ts with
  | Some t => ∃ k m, ts = replicate k 0%N ++ replicate m t
  | None => ∀ t k m, ts ≠ replicate k 0%N ++ replicate m t
  end.
Proof.
  induction ts as [|t ts IH]; cbn [same_terms]; [by exists 0, 0|]. rewrite N.eqb_refl.
  destruct (decide (t = 0%N)) as [->|Ht].
  - destruct (same_terms 0 ts) as [t|].
    + destruct IH as (k & m & ->). by exists (S k), m.
    + intros t [|k] [|m] Hm; try done; injection Hm; [|intros H; by apply (IH t k 0)|intros H; by apply (IH t k (S m))].
      intros Hts <-. by apply (IH 0%N 0 m).
  - pose proof (same_terms_later t ts Ht) as H. destruct (same_terms t ts) as [t'|].
    + destruct H as [-> H]. exists 0, (S (length ts)). cbn. by rewrite <-H.
    + intros t' [|k] m Hm; [|by injection Hm]. destruct m as [|m]; [done|]. injection Hm as <- Hm. by eapply H.
Qed.

(** [check_terms] on a cluster whose states do not change: it returns [t] exactly when
    the terms of the connected servers, in order, are zeros and then only [t]. It takes a
    zero for a term that it does not know yet, so servers of which the first are at term 0
    and the others at term 5 pass as servers that agree, while the same in the other order
    panics. *)
Theorem check_terms_finds c : all_there c → ∃ o, run check_terms c = Some (o, c) ∧
  match o with
  | Ok t => ∃ k m, term ∘ snd <$> all_states c = replicate k 0%N ++ replicate m t
  | Panic => ∀ t k m, term ∘ snd <$> all_states c ≠ replicate k 0%N ++ replicate m t
  | Err _ | Diverge => False
  end.
Proof.
  intros Hc. rewrite (check_terms_run c Hc). eexists. split; [done|].
  pose proof (same_terms_spec (term ∘ snd <$> all_states c)) as H. by destruct (same_terms 0 _).
Qed.
End raft.

(** ** What was committed *)

Section committed.
Context {E DecodeError : Type} (decode : bytes → DecodeError + Entry).

(** The storage after messages of servers, in the order in which the closures take them. *)
Definition applied (s : Mutex Storage) (msgs : list (nat * ApplyMsg)) : Mutex Storage :=
  foldl (λ s im, (apply (E := E) decode im.1 im.2 s).2) s msgs.

(** The server says that [e] is committed. *)
Definition says (m : ApplyMsg) (e : Entry) : Prop := command_valid m = true ∧ decode (command m) = inr e.

(** A message that is at odds with what came before it: from no server, of another command
    at the same index, or of an index whose predecessor the server left out. *)
Definition at_odds (n : nat) (msgs : list (nat * ApplyMsg)) (i : nat) (m : ApplyMsg) (e : Entry) : Prop :=
  n ≤ i ∨
  (∃ i' m' e', (i', m') ∈ msgs ∧ says m' e' ∧ command_index m' = command_index m ∧ e' ≠ e) ∨
  (1 < command_index m)%N ∧ ∀ m' e', (i, m') ∈ msgs → says m' e' → command_index m' ≠ (command_index m - 1)%N.

Record taken (n : nat) (msgs : list (nat * ApplyMsg)) (s : Mutex Storage) : Prop := {
  tk_ok : storage_ok (inside s);
  tk_len : length (logs (inside s)) = n;
  tk_sound : ∀ i l idx e, logs (inside s) !! i = Some l → l !! idx = Some e → ∃ m, (i, m) ∈ msgs ∧ says m e ∧ command_index m = idx;
  tk_all : mx_poisoned s = false → ∀ i m e, (i, m) ∈ msgs → says m e → ∃ l, logs (inside s) !! i = Some l ∧ l !! command_index m = Some e;
  tk_odd : mx_poisoned s = true → ∃ msgs1 i m e msgs2, msgs = msgs1 ++ (i, m) :: msgs2 ∧ says m e ∧ at_odds n msgs1 i m e;
  tk_even : mx_poisoned s = false → ∀ msgs1 i m e msgs2, msgs = msgs1 ++ (i, m) :: msgs2 → says m e → ¬ at_odds n msgs1 i m e;
}.

Lemma app_snoc_cons {A} (l l1 l2 : list A) x y : l ++ [x] = l1 ++ y :: l2 → (l1 = l ∧ y = x) ∨ ∃ l3, l = l1 ++ y :: l3.
Proof.
  destruct l2 as [|z l2 _] using rev_ind; [intros [-> [= ->]]%app_inj_tail; by left|].
  rewrite app_comm_cons, app_assoc. intros [-> _]%app_inj_tail. right. by exists l2.
Qed.

Lemma says_inj m e e' : says m e → says m e' → e = e'.
Proof. intros [_ H1] [_ H2]. congruence. Qed.

(** A message that changes nothing. *)
Lemma taken_skip n msgs s i m : taken n msgs s → (mx_poisoned s = false → ∀ e, ¬ says m e) → taken n (msgs ++ [(i, m)]) s.
Proof.
  intros [] Hm. split; [done|done| | | |].
  - intros j l idx e Hl He. destruct (tk_sound0 _ _ _ _ Hl He) as (m' & Hin & ?). exists m'. split; [apply elem_of_app; by left|done].
  - intros Hp j m' e [Hin|[= -> ->]%list_elem_of_singleton]%elem_of_app Hs; [by eapply tk_all0|]. by destruct (Hm Hp e).
  - intros (ms1 & j & m' & e & ms2 & -> & ?)%tk_odd0. exists ms1, j, m', e, (ms2 ++ [(i, m)]). by rewrite <-app_assoc.
  - intros Hp ms1 j m' e ms2 [[-> [= -> ->]]|[ms3 ->]]%app_snoc_cons Hs; [by destruct (Hm Hp e)|by eapply tk_even0].
Qed.

(** A message that poisons the mutex. *)
Lemma taken_odd n msgs s i m e : taken n msgs s → says m e → at_odds n msgs i m e →
  taken n (msgs ++ [(i, m)]) (mkMutex (inside s) true).
Proof.
  intros [] Hm Hodd. split; [done|done| |done| |done].
  - intros j l idx e' Hl He. destruct (tk_sound0 _ _ _ _ Hl He) as (m' & Hin & ?). exists m'. split; [apply elem_of_app; by left|done].
  - intros _. by exists msgs, i, m, e, [].
Qed.

(** A message that is taken in. *)
Lemma taken_in n msgs s i m e l s' : taken n msgs s → mx_poisoned s = false → says m e → logs (inside s) !! i = Some l →
  storage_ok s' → logs s' = <[i := <[command_index m := e]> l]> (logs (inside s)) →
  (∀ l' e', l' ∈ logs (inside s) → l' !! command_index m = Some e' → e' = e) →
  taken n (msgs ++ [(i, m)]) (mkMutex s' false).
Proof.
  intros [] Hp Hm Hl Hs' Hlogs Hsame. split; cbn [inside mx_poisoned]; [done|by rewrite Hlogs, length_insert| | |done|].
  - intros j lj idx e'. rewrite Hlogs, list_lookup_insert. setoid_rewrite elem_of_app. case_decide as Hd.
    + destruct Hd as [<- _]. intros [= <-]. rewrite lookup_insert. case_decide; [intros [= <-]; exists m; split; [right; by left|done]|].
      intros He'. destruct (tk_sound0 _ _ _ _ Hl He') as (m' & ? & ?). exists m'. by split; [left|].
    + intros Hj He'. destruct (tk_sound0 _ _ _ _ Hj He') as (m' & ? & ?). exists m'. by split; [left|].
  - intros _ j m' e' [Hin|[= -> ->]%list_elem_of_singleton]%elem_of_app Hs.
    + destruct (tk_all0 Hp _ _ _ Hin Hs) as (lj & Hj & He'). rewrite Hlogs, list_lookup_insert.
      case_decide as Hd; [|by exists lj]. destruct Hd as [<- _]. simplify_eq. eexists. split; [done|]. rewrite lookup_insert. case_decide as Hc; [|done].
      f_equal. symmetry. eapply Hsame; [by eapply list_elem_of_lookup_2|by rewrite Hc].
    + rewrite (says_inj _ _ _ Hs Hm), Hlogs. eexists. rewrite list_lookup_insert_eq by by eapply lookup_lt_Some.
      split; [done|]. by rewrite lookup_insert_eq.
  - intros _ ms1 j m' e' ms2 [[-> [= -> ->]]|[ms3 ->]]%app_snoc_cons Hs; [|by eapply tk_even0].
    rewrite (says_inj _ _ _ Hs Hm). intros [Hle|[(j & m' & e1 & Hin & Hs1 & Hidx & Hne)|[Hlt Hnone]]].
    + apply lookup_lt_Some in Hl. lia.
    + destruct (tk_all0 Hp _ _ _ Hin Hs1) as (l1 & Hl1 & He1). apply Hne. eapply Hsame; [by eapply list_elem_of_lookup_2|by rewrite <-Hidx].
    + assert (logs s' !! i = Some (<[command_index m := e]> l)) as Hi by (rewrite Hlogs; apply list_lookup_insert_eq; by eapply lookup_lt_Some).
      destruct (sk_gaps _ Hs' i _ (command_index m) Hi) as [e1 He1]; [by rewrite lookup_insert_eq|done|].
      rewrite lookup_insert_ne in He1 by lia. destruct (tk_sound0 _ _ _ _ Hl He1) as (m1 & Hin & Hs1 & Hidx). by eapply Hnone.
Qed.

Lemma taken_apply n msgs s i m : taken n msgs s → taken n (msgs ++ [(i, m)]) (apply (E := E) decode i m s).2.
Proof.
  intros Ht. unfold apply. destruct (command_valid m) eqn:Hv; cbn [negb]; [|by apply taken_skip; [|intros _ e []; congruence]].
  destruct (decode (command m)) as [err|e] eqn:Hd; [by apply taken_skip; [|intros _ e []; congruence]|].
  unfold with_mutex. destruct (mx_poisoned s) eqn:Hp; [by apply (taken_skip _ _ s); [|rewrite Hp]|].
  assert (says m e) as Hm by by split. destruct (logs (inside s) !! i) as [l|] eqn:Hl.
  - pose proof (apply_entry_ok (E := E) i (command_index m) e (inside s) l (tk_ok _ _ _ Ht) Hl) as H.
    destruct (apply_entry i (command_index m) e (inside s)) as [[[]|x| |] s']; [|done| |done].
    + destruct H as (? & ? & ?). by eapply taken_in.
    + destruct H as [-> H]. apply (taken_odd _ _ _ _ _ e); [done|done|]. right. destruct H as [(l' & e' & Hl' & He' & Hne)|[Hlt Hnone]].
      * left. apply list_elem_of_lookup in Hl' as [j Hj]. destruct (tk_sound _ _ _ Ht _ _ _ _ Hj He') as (m' & ? & ? & ?). by exists j, m', e'.
      * right. split; [done|]. intros m' e' Hin Hs' Heq. destruct (tk_all _ _ _ Ht Hp _ _ _ Hin Hs') as (l' & ? & ?). simplify_eq. congruence.
  - assert ((apply_entry (E := E) i (command_index m) e (inside s)) = (Panic, inside s)) as ->.
    { unfold apply_entry, expect. mpure. destruct (existsb _ _); [done|]. by rewrite Hl. }
    apply (taken_odd _ _ _ _ _ e); [done|done|]. left. rewrite <-(tk_len _ _ _ Ht). by apply lookup_ge_None.
Qed.

Lemma taken_applied n msgs : taken n msgs (applied (mkMutex (mkStorage (replicate n ∅) 0 0) false) msgs).
Proof.
  induction msgs as [|[i m] msgs IH] using rev_ind.
  - assert (∀ i (l : gmap N Entry), replicate n ∅ !! i = Some l → l = ∅) as H by (by intros i l [-> _]%lookup_replicate).
    split; cbn; [split; cbn| | | |done|by intros _ [] ? ? ? ?].
    + by intros i j li lj idx ei ej ->%H.
    + intros i l idx ->%H. by intros [].
    + intros i l idx ->%H. by intros [].
    + by rewrite length_replicate.
    + by intros i l idx e ->%H.
    + by intros _ i m e ?%not_elem_of_nil.
  - unfold applied. rewrite foldl_app. cbn [foldl]. by apply taken_apply.
Qed.

(** A message that the closure cannot decode. *)
Definition broken (m : ApplyMsg) : bool :=
  command_valid m && match decode (command m) with inl _ => true | inr _ => false end.

(** Channels with the messages that come over them, in the order in which they come. *)
Definition polled (pollers : list nat) (st : Mutex Storage * list nat) (msgs : list (nat * ApplyMsg)) : Mutex Storage * list nat :=
  foldl (λ st cm, poll_apply (E := E) decode pollers cm.1 cm.2 st) st msgs.

(** The messages that a closure is called for, with their servers, when [ended] are the
    channels whose tasks have ended: those that come over a channel up to the first that
    cannot be decoded. *)
Fixpoint heard (pollers ended : list nat) (msgs : list (nat * ApplyMsg)) : list (nat * ApplyMsg) :=
  match msgs with
  | [] => []
  | (ch, m) :: msgs' =>
      match pollers !! ch with
      | Some i => if bool_decide (ch ∈ ended) then heard pollers ended msgs'
                  else (i, m) :: heard pollers (if broken m then ch :: ended else ended) msgs'
      | None => heard pollers ended msgs'
      end
  end.

Lemma elem_heard pollers msgs ended i m : (i, m) ∈ heard pollers ended msgs ↔
  ∃ msgs1 ch msgs2, msgs = msgs1 ++ (ch, m) :: msgs2 ∧ pollers !! ch = Some i ∧ (ch ∉ ended) ∧
    ∀ m', (ch, m') ∈ msgs1 → broken m' = false.
Proof.
  revert ended. induction msgs as [|[ch0 m0] msgs IH]; intros ended; cbn [heard].
  { split; [by intros ?%not_elem_of_nil|]. by intros ([] & ? & ? & [=] & _). }
  assert (∀ ended' : list nat, (∃ msgs1 ch msgs2, msgs = msgs1 ++ (ch, m) :: msgs2 ∧ pollers !! ch = Some i ∧ (ch ∉ ended') ∧
      ∀ m', (ch, m') ∈ msgs1 → broken m' = false) ↔
    ∃ msgs1 ch msgs2, (ch0, m0) :: msgs = (ch0, m0) :: msgs1 ++ (ch, m) :: msgs2 ∧ pollers !! ch = Some i ∧ (ch ∉ ended') ∧
      ∀ m', (ch, m') ∈ msgs1 → broken m' = false) as Hcons.
  { intros ended'. split; intros (msgs1 & ch & msgs2 & H & ?); exists msgs1, ch, msgs2; (split; [congruence|done]). }
  assert (∀ P : list (nat * ApplyMsg) → nat → list (nat * ApplyMsg) → Prop,
    (∃ msgs1 ch msgs2, (ch0, m0) :: msgs = msgs1 ++ (ch, m) :: msgs2 ∧ P msgs1 ch msgs2) ↔
    (m0 = m ∧ P [] ch0 msgs) ∨ ∃ msgs1 ch msgs2, (ch0, m0) :: msgs = (ch0, m0) :: msgs1 ++ (ch, m) :: msgs2 ∧ P ((ch0, m0) :: msgs1) ch msgs2) as Hsplit.
  { intros P. split.
    - intros ([|x msgs1] & ch & msgs2 & [= <- H] & HP); [by left; subst; simplify_eq|right]. exists msgs1, ch, msgs2. by rewrite <-H.
    - intros [[-> HP]|(msgs1 & ch & msgs2 & H & HP)]; [by exists [], ch0, msgs|by exists ((ch0, m0) :: msgs1), ch, msgs2]. }
  rewrite Hsplit. clear Hsplit.
  destruct (pollers !! ch0) as [i0|] eqn:Hi0; [case_bool_decide as Hin|].
  - rewrite IH, Hcons. split.
    + intros (msgs1 & ch & msgs2 & H & Hch & Hend & Hb). right. exists msgs1, ch, msgs2. split_and!; [done..|].
      intros m' [[= -> ->]|?]%elem_of_cons; [done|by apply Hb].
    + intros [(_ & _ & ? & _)|(msgs1 & ch & msgs2 & H & Hch & Hend & Hb)]; [done|]. exists msgs1, ch, msgs2. split_and!; [done..|].
      intros m' ?. apply Hb. by right.
  - rewrite elem_of_cons, IH, Hcons. split.
    + intros [[= -> ->]|(msgs1 & ch & msgs2 & H & Hch & Hend & Hb)]; [left; split_and!; [done..|by intros ? ?%not_elem_of_nil]|right].
      exists msgs1, ch, msgs2. split_and!; [done..|by intros ?; apply Hend; destruct (broken m0); [right|]|].
      intros m' [[= -> ->]|?]%elem_of_cons; [|by apply Hb]. destruct (broken m0); [by destruct Hend; left|done].
    + intros [(-> & Hch & _)|(msgs1 & ch & msgs2 & H & Hch & Hend & Hb)]; [left; congruence|right]. exists msgs1, ch, msgs2. split_and!; [done..| |].
      * destruct (broken m0) eqn:Hm0; [|done]. intros [->|]%elem_of_cons; [|done].
        by rewrite (Hb m0 ltac:(by left)) in Hm0.
      * intros m' ?. apply Hb. by right.
  - rewrite IH, Hcons. split.
    + intros (msgs1 & ch & msgs2 & H & Hch & Hend & Hb). right. exists msgs1, ch, msgs2. split_and!; [done..|].
      intros m' [[= -> ->]|?]%elem_of_cons; [congruence|by apply Hb].
    + intros [(_ & ? & _)|(msgs1 & ch & msgs2 & H & Hch & Hend & Hb)]; [congruence|]. exists msgs1, ch, msgs2. split_and!; [done..|].
      intros m' ?. apply Hb. by right.
Qed.

Lemma apply_refuses i m s : mx_poisoned s = true → (apply (E := E) decode i m s).2 = s.
Proof. intros Hp. unfold apply. destruct (command_valid m); cbn; [|done]. destruct (decode (command m)); [done|]. unfold with_mutex. by rewrite Hp. Qed.

Lemma applied_refuses s msgs : mx_poisoned s = true → applied s msgs = s.
Proof. intros Hp. induction msgs as [|[i m] msgs IH]; [done|]. unfold applied in *. cbn [foldl fst snd]. by rewrite apply_refuses. Qed.

Lemma polled_cons pollers st ch m msgs : polled pollers st ((ch, m) :: msgs) = polled pollers (poll_apply (E := E) decode pollers ch m st) msgs.
Proof. done. Qed.

Lemma applied_cons s i m msgs : applied s ((i, m) :: msgs) = applied (apply (E := E) decode i m s).2 msgs.
Proof. done. Qed.

Lemma polled_refuses pollers s ended msgs : mx_poisoned s = true → (polled pollers (s, ended) msgs).1 = s.
Proof.
  intros Hp. revert ended. induction msgs as [|[ch m] msgs IH]; intros ended; [done|]. rewrite polled_cons.
  unfold poll_apply. destruct (pollers !! ch) as [i|]; [|apply IH]. cbn [fst snd]. case_bool_decide; [apply IH|].
  pose proof (apply_refuses i m s Hp) as H1. destruct (apply decode i m s) as [[] s1]; cbn in H1; subst; apply IH.
Qed.

(** A task ends without poison only by a message that cannot be decoded. *)
Lemma apply_ends i m s o s' : apply (E := E) decode i m s = (o, s') → mx_poisoned s' = false →
  if broken m then o = Panic else o = Ok tt.
Proof.
  unfold apply, broken. destruct (command_valid m); cbn [negb andb]; [|by intros [= <- <-]].
  destruct (decode (command m)) as [err|e]; [by intros [= <- <-]|]. unfold with_mutex, apply_entry, expect. mpure.
  destruct (mx_poisoned s) eqn:Hp; [intros [= <- <-]; congruence|].
  destruct (existsb _ _); [by intros [= <- <-]|]. destruct (logs (inside s) !! i); [|by intros [= <- <-]].
  mpure. destruct (_ && _); by intros [= <- <-].
Qed.

Lemma polled_heard pollers msgs s ended : mx_poisoned s = false →
  let st := polled pollers (s, ended) msgs in
  st.1 = applied s (heard pollers ended msgs) ∧
  (mx_poisoned st.1 = false → ∀ ch, ch ∈ st.2 ↔ ch ∈ ended ∨ is_Some (pollers !! ch) ∧ ∃ m, (ch, m) ∈ msgs ∧ broken m = true).
Proof.
  revert s ended. induction msgs as [|[ch m] msgs IH]; intros s ended Hs; cbn zeta.
  { split; [done|]. intros _ ch. split; [by left|]. by intros [|(_ & m & ?%not_elem_of_nil & _)]. }
  rewrite polled_cons. unfold poll_apply. cbn [heard fst snd].
  assert (∀ P : Prop, (is_Some (pollers !! ch) → broken m = true → P) → ∀ ch', (ch' ∈ ended ∨ is_Some (pollers !! ch') ∧ ∃ m', (ch', m') ∈ (ch, m) :: msgs ∧ broken m' = true) →
    (ch' ∈ ended ∨ is_Some (pollers !! ch') ∧ ∃ m', (ch', m') ∈ msgs ∧ broken m' = true) ∨ (ch' = ch ∧ P)) as Hmore.
  { intros P HP ch' [|(Hi & m' & [[= -> ->]|]%elem_of_cons & Hb)]; eauto 10. }
  assert (∀ ch', (ch' ∈ ended ∨ is_Some (pollers !! ch') ∧ ∃ m', (ch', m') ∈ msgs ∧ broken m' = true) →
    ch' ∈ ended ∨ is_Some (pollers !! ch') ∧ ∃ m', (ch', m') ∈ (ch, m) :: msgs ∧ broken m' = true) as Hless.
  { intros ch' [|(Hi & m' & Hin & Hb)]; [by left|right]. split; [done|]. exists m'. split; [by right|done]. }
  destruct (pollers !! ch) as [i|] eqn:Hi.
  2:{ destruct (IH s ended Hs) as [H1 H2]. split; [exact H1|]. intros Hp ch'. rewrite (H2 Hp ch'). split; [apply Hless|].
      intros [|[_ []]]%(Hmore False); [done|]. by intros []. }
  case_bool_decide as Hin.
  { destruct (IH s ended Hs) as [H1 H2]. split; [exact H1|]. intros Hp ch'. rewrite (H2 Hp ch'). split; [apply Hless|].
    intros [|[-> _]]%(Hmore True); [done|by left|done]. }
  rewrite applied_cons. destruct (apply decode i m s) as [o s1] eqn:Ha. cbn [snd].
  destruct (mx_poisoned s1) eqn:Hp1.
  { rewrite (applied_refuses s1) by done. destruct o; rewrite !polled_refuses by done; (split; [done|congruence]). }
  pose proof (apply_ends _ _ _ _ _ Ha Hp1) as Ho. destruct (broken m) eqn:Hb; subst o.
  - destruct (IH s1 (ch :: ended) Hp1) as [H1 H2]. split; [exact H1|]. intros Hp ch'. rewrite (H2 Hp ch'), elem_of_cons. split.
    + intros [[->|]|]; [right|by left|apply Hless; by right]. split; [by eexists|]. exists m. split; [by left|done].
    + intros [[|]|[-> _]]%(Hmore True); auto.
  - destruct (IH s1 ended Hp1) as [H1 H2]. split; [exact H1|]. intros Hp ch'. rewrite (H2 Hp ch'). split; [apply Hless|].
    by intros [|[_ []]]%(Hmore False).
Qed.

(** C27: The servers send the commands they commit over the channels of their
    instances ([pollers] are the servers of the channels), in any order, with any indices
    and any bytes. A message that is not an entry ends the task of its channel: it and what
    comes over that channel after it is not recorded, and the storage stays. Until a message
    is at odds with an earlier one (another command at the same index, or an index whose
    predecessor its server left out) every other command is recorded under its server and
    index, and [n_committed] answers with the exact number of servers that committed at an
    index and their common command. A message at odds, and nothing else, makes the storage
    refuse everyone from then on: its task panics with the mutex held. *)
Theorem storage_agreement n pollers msgs :
  let st := polled pollers (mkMutex (mkStorage (replicate n ∅) 0 0) false, []) msgs in
  let s := st.1 in
  storage_ok (inside s) ∧
  (mx_poisoned s = true ↔ ∃ heard1 i m e heard2, heard pollers [] msgs = heard1 ++ (i, m) :: heard2 ∧ says m e ∧ at_odds n heard1 i m e) ∧
  (mx_poisoned s = false →
    (∀ ch, ch ∈ st.2 ↔ is_Some (pollers !! ch) ∧ ∃ m, (ch, m) ∈ msgs ∧ broken m = true) ∧
    (∀ i l idx e, logs (inside s) !! i = Some l → l !! idx = Some e ↔
      ∃ msgs1 ch m msgs2, msgs = msgs1 ++ (ch, m) :: msgs2 ∧ pollers !! ch = Some i ∧ says m e ∧ command_index m = idx ∧
        ∀ m', (ch, m') ∈ msgs1 → broken m' = false) ∧
    ∀ idx, ∃ cmd, with_mutex (Storage_n_committed (E := E) idx) s = (Ok (committed idx (logs (inside s)), cmd), s) ∧
      (committed idx (logs (inside s)) = 0 → cmd = None) ∧ ∀ l e, l ∈ logs (inside s) → l !! idx = Some e → cmd = Some e).
Proof.
  intros st s. destruct (polled_heard pollers msgs (mkMutex (mkStorage (replicate n ∅) 0 0) false) [] eq_refl) as [Hheard Hended].
  fold st in Hheard, Hended. fold s in Hheard, Hended.
  pose proof (taken_applied n (heard pollers [] msgs)) as Ht. rewrite <-Hheard in Ht. destruct Ht as [Hok Hlen Hsound Hall Hodd Heven].
  split; [done|]. split; [split; [done|]|].
  - intros (msgs1 & i & m & e & msgs2 & Heq & Hs & Ho). apply not_false_iff_true. intros Hp. by eapply Heven.
  - intros Hp. split; [|split].
    + intros ch. rewrite (Hended Hp). split; [by intros [?%not_elem_of_nil|]|by right].
    + intros i l idx e Hl. split.
      * intros He. destruct (Hsound _ _ _ _ Hl He) as (m & (msgs1 & ch & msgs2 & -> & Hch & _ & Hb)%elem_heard & Hs & Hidx).
        by exists msgs1, ch, m, msgs2.
      * intros (msgs1 & ch & m & msgs2 & Heq & Hch & Hs & <- & Hb). destruct (Hall Hp i m e) as (l' & Hl' & He); [|done|congruence].
        apply elem_heard. exists msgs1, ch, msgs2. split_and!; [done..|apply not_elem_of_nil|done].
    + intros idx. destruct (n_committed_ok (E := E) idx (inside s) Hok) as (cmd & Hrun & H). exists cmd. split; [|done].
      unfold with_mutex. rewrite Hp, Hrun. by rewrite (mutex_free s Hp).
Qed.
End committed.

(** ** Copies of a persister *)

(** When a server crashes or is started, the test configuration of the key-value
    service makes a fresh persister with what the old one has. A copy made alone is exact
    and leaves all the others as they are; the copy that the configuration of raft makes
    lacks the snapshot. But [save_state_and_snapshot] takes the lock
    once for the state and once more for the snapshot, and so does the copy: when the old
    instance saves [st'] over [st] at that moment, the copy that the new instance starts from
    can be the old state with the new snapshot, or the new state with the old snapshot. *)
Theorem persister_copies (E : Type) :
  (∀ (ps : Persisters) old st, ps !! old = Some st →
     run (copy_both (E := E) old) ps = Some (Ok (length ps), ps ++ [st]) ∧
     run (copy_state (E := E) old) ps = Some (Ok (length ps), ps ++ [(st.1, [])])) ∧
  ∀ st st' : bytes * bytes,
  let threads := [copy_both (E := E) 0; save_state_and_snapshot (simple_persister 0) st'.1 st'.2;; mret 0] in
  let copied st1 := ∃ sched c, exec sched (threads, [st]) = Some c ∧ c.1 !! 0 = Some (Done (Ok 1)) ∧ c.2 !! 1 = Some st1 in
  copied (st.1, st'.2) ∧ copied (st'.1, st.2).
Proof.
  split; [intros; split; [by apply copy_both_run|by apply copy_state_run]|]. intros st st' threads copied. split.
  - exists [0; 0; 1; 1; 0; 0; 0]. eexists. by split_and!.
  - exists [0; 1; 0; 0; 1; 0; 0]. eexists. by split_and!.
Qed.

(** ** Witnesses: nodes that are told their state *)

#[local] Instance told : @RaftNode nat nat (list State) unit := {|
  node_new := λ _ me _ _ _ l, (me, l);
  node_start := λ rf _ l, (inr (1, 1)%N, l);
  node_term := λ rf l, default 0%N (term <$> l !! rf);
  node_is_leader := λ rf l, default false (is_leader <$> l !! rf);
  node_kill := λ _ l, l;
  raft_factory := id;
|}.

Definition told_config (l : list State) : @Config unit unit nat unit unit nat (list State) :=
  (new (length l) false tt 100 0 l).2.

Lemma raft_connectivity_witness : ∃ c0 c : @Config unit unit nat unit unit nat (list State),
  new 3 true tt 100 0 [] = (Ok tt, c0) ∧ for_each cfg_step [Crash 1; Disconnect 0; Start 1; Connect 1] c0 = (Ok tt, c) ∧
  link_ok ([false; true; true], [true; true; true]) c 1 2.
Proof.
  destruct (raft_connectivity (EncodeError := unit) (DecodeError := unit) (Hooks := unit) 3 true tt 100 0 [] [Crash 1; Disconnect 0; Start 1; Connect 1])
    as (c0 & c & H1 & H2 & H3 & _); [repeat constructor|done|].
  exists c0, c. split_and!; [done|done|]. apply (H3 1 2); lia.
Defined.

Lemma one_agreement_witness : ∃ c o c', iexec others (one (mkEntry 7) 2 false) c o c' ∧ o = Ok 1%N ∧
  2 ≤ committed_as 1 (mkEntry 7) (logs (inside (storage (c' : @Config unit unit nat unit unit nat (list State))))).
Proof.
  set (c := set_storage (mkMutex (mkStorage [{[1%N := mkEntry 7]}; {[1%N := mkEntry 7]}; ∅] 1 0) false) (told_config [mkState 1 true; mkState 1 false; mkState 1 false])).
  assert (fst <$> run (one (mkEntry 7) 2 false) c = Some (Ok 1%N)) as Hrun by (vm_compute; reflexivity).
  destruct (run (one (mkEntry 7) 2 false) c) as [[o c']|] eqn:Hr; [|done]. injection Hrun as ->.
  assert (iexec others (one (mkEntry 7) 2 false) c (Ok 1%N) c') as H by by apply run_iexec.
  exists c, (Ok 1%N), c'. split_and!; [done|done|]. exact (one_agreement _ _ _ _ _ _ H).
Defined.

(** Two servers that are told their states. *)
Lemma told_two s1 s2 : ∃ c : @Config unit unit nat unit unit nat (list State),
  connected c = [true; true] ∧ rafts c = mkMutex [Some 0; Some 1] false ∧ lib c = [s1; s2].
Proof. exists (told_config [s1; s2]). by split_and!; vm_compute. Qed.

(** An election: the states change, but no term ever has two leaders and terms only grow. *)
Definition elected (c c' : @Config unit unit nat unit unit nat (list State)) : Prop := ∃ l, c' = set_lib l c ∧
  (∀ t, length (leaders_in t (all_states c')) ≤ 1) ∧ Forall2 (λ st st', (term st <= term st')%N) (lib c) l.

Lemma asked (R : relation (@Config unit unit nat unit unit nat (list State))) i cs m c c' o c'' st :
  raft_at i c = (Ok i, c) → rtc R c c' → term st = node_term i (lib c) → is_leader st = node_is_leader i (lib c') →
  iexec R (ask_servers cs (add_leader m (i, st))) c' o c'' → iexec R (ask_servers ((i, true) :: cs) m) c o c''.
Proof.
  intros Hat Hr Ht Hl H. cbn [ask_servers]. eapply iexec_now_then; [exact Hat|].
  eapply (iexec_then _ _ _ _ st); [|exact H]. unfold get_state.
  eapply iexec_now_then; [reflexivity|]. eapply iexec_wait; [exact Hr|]. eapply iexec_now_then; [reflexivity|].
  destruct st as [t b]. cbn in Ht, Hl. subst. by apply iexec_done.
Qed.

Lemma two_leaders_seen (R : relation (@Config unit unit nat unit unit nat (list State))) order r draws m c m' c' :
  iexec R (ask_servers (enumerate (connected c)) m) (set_clock (clock c + (450 + r mod 100)) c) (Ok m') c' →
  existsb (λ x, 1 <? length x.2) (order (map_to_list m')) = true →
  iexec R (one_leader_loop order (r :: draws) m) c Panic c'.
Proof.
  intros H Hex. cbn [one_leader_loop]. eapply iexec_now_then; [reflexivity|]. eapply iexec_now_then; [reflexivity|].
  eapply iexec_then; [exact H|]. apply run_iexec. rewrite (run_bind _ _ _ _ _ (last_term_run _ _ _)), Hex. done.
Qed.

(** [get_state] reads the term of a node and then whether it is a leader. In a cluster
    in which no term ever has two leaders and terms only grow, an election between the two
    reads makes [check_one_leader] take the new leader for a leader of the old term, and
    panic because that term has two. *)
Theorem check_one_leader_misjudges : ∃ c c' : @Config unit unit nat unit unit nat (list State),
  all_there c ∧ (∀ t, length (leaders_in t (all_states c)) ≤ 1) ∧
  iexec elected (check_one_leader id (λ _, 0%N)) c Panic c'.
Proof.
  destruct (told_two (mkState 3 true) (mkState 3 false)) as (c & Hc & Hr & Hl).
  set (c1 := set_clock (clock c + 450) c). set (c2 := set_lib [mkState 4 false; mkState 4 true] c1).
  assert (∀ i (c0 : @Config unit unit nat unit unit nat (list State)), rafts c0 = rafts c → i < 2 → raft_at i c0 = (Ok i, c0)) as Hat.
  { intros [|[|i]] c0 Hc0 Hi; [| |lia]; (apply raft_at_ok; [|unfold node_of]; by rewrite Hc0, Hr). }
  assert (all_states c = [(0, mkState 3 true); (1, mkState 3 false)]) as Hs.
  { unfold all_states, states, node_of, state_of. rewrite Hc, Hr. cbn. by rewrite Hl. }
  assert (all_states c2 = [(0, mkState 4 false); (1, mkState 4 true)]) as Hs2.
  { unfold all_states, states, node_of, state_of, c2, c1. cbn. by rewrite Hc, Hr. }
  exists c, c2. split_and!.
  - split; [by rewrite Hr|]. unfold node_of. rewrite Hc, Hr. intros [|[|i]]; cbn; [by eexists..|done].
  - intros t. rewrite Hs. unfold leaders_in. rewrite length_fmap, filter_cons, (filter_cons_False _ (1, _)) by (by intros []).
    case_decide; simpl; lia.
  - unfold check_one_leader. cbn [fmap list_fmap seq]. apply (two_leaders_seen _ _ _ _ _ _ {[3%N := [0; 1]]}); [|done].
    rewrite Hc. change (450 + 0 mod 100)%N with 450%N. fold c1.
    apply (asked _ _ _ _ _ c1 _ _ (mkState 3 true)); [by apply Hat; [|lia]|done|unfold c1; cbn; by rewrite Hl..|].
    apply (asked _ _ _ _ _ c2 _ _ (mkState 3 true)); [by apply Hat; [|lia]| |unfold c1; cbn; by rewrite Hl|done|by apply iexec_done].
    apply rtc_once. eexists. split_and!; [done| |unfold c1; cbn; rewrite Hl; repeat constructor; simpl; lia].
    intros t. rewrite Hs2. unfold leaders_in. rewrite length_fmap, (filter_cons_False _ (0, _)) by (by intros []).
    rewrite filter_cons. case_decide; simpl; lia.
Qed.

(** Three servers that are told their states. *)
Lemma told_there s1 s2 s3 : let c := told_config [s1; s2; s3] in
  all_there c ∧ all_states c = [(0, s1); (1, s2); (2, s3)].
Proof.
  intros c. assert (connected c = [true; true; true]) as Hc by done.
  assert (rafts c = mkMutex [Some 0; Some 1; Some 2] false) as Hr by (vm_compute; done).
  assert (lib c = [s1; s2; s3]) as Hl by (vm_compute; done). split.
  - split; [by rewrite Hr|]. unfold node_of. rewrite Hc, Hr. intros [|[|[|i]]]; cbn; [by eexists..|done].
  - unfold all_states, states, node_of, state_of. rewrite Hc, Hr. cbn. rewrite Hl. by destruct s1, s2, s3.
Qed.

Lemma check_one_leader_finds_witness : ∃ now, let c := told_config [mkState 4 false; mkState 3 true; mkState 4 true] in
  run (check_one_leader id (λ _, 0%N)) c = Some (Ok 2, set_clock now c).
Proof.
  destruct (told_there (mkState 4 false) (mkState 3 true) (mkState 4 true)) as [Hc Hs].
  destruct (check_one_leader_finds id (λ _, 0%N) _ (λ l, reflexivity l) Hc) as (o & now & Hrun & H).
  exists now. cbv zeta. rewrite Hrun. rewrite Hs in H. clear Hrun Hs Hc. do 2 f_equal. f_equal.
  assert (∀ t, t ≠ 4%N → leaders_in t [(0, mkState 4 false); (1, mkState 3 true); (2, mkState 4 true)] = if decide (t = 3%N) then [1] else []) as Hall.
  { intros t Ht. unfold leaders_in. rewrite (filter_cons_False _ (0, _)) by (by intros []).
    case_decide; [by subst|]. rewrite !filter_cons_False by (intros [_ ?]; cbn in *; congruence). done. }
  destruct o as [i| | |]; [|destruct H| |destruct H].
  - destruct H as (t & H1 & H2). destruct (H2 4%N) as [_ H3]. specialize (H3 ltac:(done)).
    destruct (decide (t = 4%N)) as [->|Hne]; [by injection H1 as <-|]. rewrite Hall in H1 by done. case_decide; [lia|done].
  - destruct H as [H|(t & H)]; [by specialize (H 4%N)|].
    destruct (decide (t = 4%N)) as [->|Hne]; [vm_compute in H; lia|]. rewrite Hall in H by done. case_decide; simpl in H; lia.
Defined.

Lemma check_terms_finds_witness :
  fst <$> run check_terms (told_config [mkState 0 false; mkState 5 false; mkState 5 true]) = Some (Ok 5%N).
Proof.
  destruct (told_there (mkState 0 false) (mkState 5 false) (mkState 5 true)) as [Hc Hs].
  destruct (check_terms_finds _ Hc) as (o & Hrun & H). rewrite Hrun. simpl. f_equal. rewrite Hs in H. clear Hrun Hs Hc.
  destruct o as [t| | |]; [|destruct H| |destruct H].
  - by destruct H as ([|[|k]] & [|[|m]] & H); cbn in H; simplify_eq.
  - by destruct (H 5%N 1 2).
Defined.

Lemma persister_copies_witness : run (copy_both (E := unit) 0) [([Byte.x01], [Byte.x02])] =
  Some (Ok 1, [([Byte.x01], [Byte.x02]); ([Byte.x01], [Byte.x02])]).
Proof. exact (proj1 (proj1 (persister_copies unit) [([Byte.x01], [Byte.x02])] 0 ([Byte.x01], [Byte.x02]) eq_refl)). Defined.

(** Two servers commit the same at index 1 and go on, until one sends what is not an entry;
    one that says otherwise is found out. *)
Definition say (k : N) (b : byte) : ApplyMsg := mkApplyMsg true [b] k.
Definition decode_byte (bs : bytes) : unit + Entry := match bs with [b] => inr (mkEntry (Byte.to_N b)) | _ => inl tt end.

Example storage_agreement_example : let start : Mutex Storage * list nat := (mkMutex (mkStorage (replicate 2 ∅) 0 0) false, []) in
  let st1 := polled (E := unit) decode_byte [0; 1] start
    [(0, say 1 Byte.x07); (1, say 1 Byte.x07); (0, say 2 Byte.x08); (1, mkApplyMsg true [] 2); (1, say 2 Byte.x08)] in
  logs (inside st1.1) = [{[1%N := mkEntry 7; 2%N := mkEntry 8]}; {[1%N := mkEntry 7]}] ∧ st1.2 = [1] ∧
  mx_poisoned (polled (E := unit) decode_byte [0; 1] start [(0, say 1 Byte.x07); (1, say 1 Byte.x09)]).1 = true.
Proof. split_and!; vm_compute; reflexivity. Qed.

(** The task of the second server has ended, and the commands before that are counted. *)
Lemma storage_agreement_witness :
  let st := polled (E := unit) decode_byte [0; 1] (mkMutex (mkStorage (replicate 2 ∅) 0 0) false, [])
    [(0, say 1 Byte.x07); (1, say 1 Byte.x07); (0, say 2 Byte.x08); (1, mkApplyMsg true [] 2); (1, say 2 Byte.x08)] in
  1 ∈ st.2 ∧ ∃ cmd, with_mutex (Storage_n_committed (E := unit) 1) st.1 = (Ok (2, cmd), st.1).
Proof.
  intros st. destruct (storage_agreement (E := unit) decode_byte 2 [0; 1]
    [(0, say 1 Byte.x07); (1, say 1 Byte.x07); (0, say 2 Byte.x08); (1, mkApplyMsg true [] 2); (1, say 2 Byte.x08)]) as (_ & _ & H).
  fold st in H. destruct H as (Hended & _ & Hcount); [vm_compute; reflexivity|]. split.
  - apply Hended. split; [by eexists|]. exists (mkApplyMsg true [] 2). split; [do 3 right; by left|reflexivity].
  - destruct (Hcount 1%N) as (cmd & Hrun & _). exists cmd. rewrite Hrun.
    assert (committed 1 (logs (inside st.1)) = 2) as -> by (vm_compute; reflexivity). reflexivity.
Defined.
