(* ===== verification/KvConfig.v ===== *)
(** * The test configuration of the key-value labs ([dss/raft/src/kvraft/config.rs])

    A [Config] starts and shuts down the servers of a key-value service over raft on a
    simulated network, divides them into partitions, and makes the clerks of the tests.
    The service is the exercise and so a parameter ([KvNode]); it keeps its state in [lib]. *)

From S2P Require Import Prelude Conc Rpc Persister Harness.

(** [kvraft/errors.rs] *)
Inductive KvError := NoLeader.

Section config.
Context {EncodeError DecodeError Factory Hooks App KvServer RfNode Node Clerk Lib : Type}.

Abbreviation E := (Error EncodeError DecodeError).
Abbreviation NetWorld := (@Rpc.World EncodeError DecodeError Factory Hooks App).

(** [server::KvServer], [server::Node] and [client::Clerk]; [lib] is the state of all of
    them. *)
Class KvNode := {
  kvserver_new : list Client → nat → SimplePersister → option N → Persisters → Lib → KvServer * Lib;
  kvserver_rf : KvServer → RfNode;
  node_new : KvServer → Lib → Node * Lib;
  node_is_leader : Node → Lib → bool;
  node_kill : Node → Lib → Lib;
  raft_factory : RfNode → Factory;
  kv_factory : Node → Factory;
  clerk_new : string → list Client → Clerk;
  clerk_name : Clerk → string;
}.

Record Servers := mkServers {
  kvservers : list (option Node);
  saved : list SimplePersister;
  endnames : list (list string);
}.

(** [Config]; after it what the source reaches without it: the counter [ID], the
    persisters, the clock in milliseconds and the state of the servers and clerks. *)
Record Config := mkConfig {
  net : NetWorld;
  cfg_n : nat;
  cfg_servers : Mutex Servers;
  clerks : Mutex (gmap string (list string));
  next_client_id : N;
  maxraftstate : option N;
  cfg_start : N;
  t0 : Mutex N;
  rpcs0 : N;
  ops : N;
  ID : N;
  persisters : Persisters;
  clock : N;
  lib : Lib;
}.

Definition set_net (v : NetWorld) (c : Config) : Config :=
  mkConfig v (cfg_n c) (cfg_servers c) (clerks c) (next_client_id c) (maxraftstate c) (cfg_start c) (t0 c) (rpcs0 c) (ops c) (ID c) (persisters c) (clock c) (lib c).
Definition set_servers (v : Mutex Servers) (c : Config) : Config :=
  mkConfig (net c) (cfg_n c) v (clerks c) (next_client_id c) (maxraftstate c) (cfg_start c) (t0 c) (rpcs0 c) (ops c) (ID c) (persisters c) (clock c) (lib c).
Definition set_clerks (v : Mutex (gmap string (list string))) (c : Config) : Config :=
  mkConfig (net c) (cfg_n c) (cfg_servers c) v (next_client_id c) (maxraftstate c) (cfg_start c) (t0 c) (rpcs0 c) (ops c) (ID c) (persisters c) (clock c) (lib c).
Definition set_next_client_id (v : N) (c : Config) : Config :=
  mkConfig (net c) (cfg_n c) (cfg_servers c) (clerks c) v (maxraftstate c) (cfg_start c) (t0 c) (rpcs0 c) (ops c) (ID c) (persisters c) (clock c) (lib c).
Definition set_stats (t : Mutex N) (r o : N) (c : Config) : Config :=
  mkConfig (net c) (cfg_n c) (cfg_servers c) (clerks c) (next_client_id c) (maxraftstate c) (cfg_start c) t r o (ID c) (persisters c) (clock c) (lib c).
Definition set_ID (v : N) (c : Config) : Config :=
  mkConfig (net c) (cfg_n c) (cfg_servers c) (clerks c) (next_client_id c) (maxraftstate c) (cfg_start c) (t0 c) (rpcs0 c) (ops c) v (persisters c) (clock c) (lib c).
Definition set_persisters (v : Persisters) (c : Config) : Config :=
  mkConfig (net c) (cfg_n c) (cfg_servers c) (clerks c) (next_client_id c) (maxraftstate c) (cfg_start c) (t0 c) (rpcs0 c) (ops c) (ID c) v (clock c) (lib c).
Definition set_lib (v : Lib) (c : Config) : Config :=
  mkConfig (net c) (cfg_n c) (cfg_servers c) (clerks c) (next_client_id c) (maxraftstate c) (cfg_start c) (t0 c) (rpcs0 c) (ops c) (ID c) (persisters c) (clock c) v.

Abbreviation CM := (M E Config).
Abbreviation CP := (prog E Config).

Definition on_net {A} (m : M E NetWorld A) : CM A := part net set_net m.
Definition on_ID {A} (m : M E N A) : CM A := part ID set_ID m.
Definition on_persisters {A} (p : prog E Persisters A) : CM A :=
  part persisters set_persisters (λ ps, default (Diverge, ps) (run p ps)).

(** What is done while the guard of a mutex of the configuration is alive. *)
Definition guarded {B} (mx : Config → Mutex B) (set : Mutex B → Config → Config) {A} (m : CM A) : CM A := λ c,
  if mx_poisoned (mx c) then (Panic, c)
  else match m c with
       | (Panic, c') => (Panic, set (mkMutex (inside (mx c')) true) c')
       | r => r
       end.

Definition with_servers {A} (m : CM A) : CM A := guarded cfg_servers set_servers m.
Definition with_clerks {A} (m : CM A) : CM A := guarded clerks set_clerks m.

(** The servers behind the guard. *)
Definition get_servers : CM Servers := gets (λ c, inside (cfg_servers c)).
Definition on_servers {A} (m : M E Servers A) : CM A :=
  part (λ c, inside (cfg_servers c)) (λ s c, set_servers (mkMutex s (mx_poisoned (cfg_servers c))) c) m.

Definition set_endnames (i : nat) (names : list string) : M E Servers unit :=
  s ← gets id; _ ← expect (endnames s !! i);
  modify (λ s, mkServers (kvservers s) (saved s) (<[i := names]> (endnames s))).
Definition set_saved (i : nat) (p : SimplePersister) : M E Servers unit :=
  s ← gets id; _ ← expect (saved s !! i);
  modify (λ s, mkServers (kvservers s) (<[i := p]> (saved s)) (endnames s)).
Definition set_kvserver (i : nat) (o : option Node) : M E Servers unit :=
  s ← gets id; _ ← expect (kvservers s !! i);
  modify (λ s, mkServers (<[i := o]> (kvservers s)) (saved s) (endnames s)).

(** ** Connections between servers *)

(** The end name of [i] for [j]. *)
Definition end_of (s : Servers) (i j : nat) : M E NetWorld string :=
  names ← expect (endnames s !! i); expect (names !! j).

Definition connect (i : nat) (to : list nat) (s : Servers) : M E NetWorld unit :=
  (* outgoing socket files *)
  for_each (λ j, endname ← end_of s i j; enable endname true) to;;
  (* incoming socket files *)
  for_each (λ j, endname ← end_of s j i; enable endname true) to.

(** [i] has no end names when its list of them is empty. *)
Definition disable_end (s : Servers) (i j : nat) : M E NetWorld unit :=
  names ← expect (endnames s !! i);
  if bool_decide (names = []) then mret tt
  else endname ← end_of s i j; enable endname false.

Definition disconnect (i : nat) (from : list nat) (s : Servers) : M E NetWorld unit :=
  (* outgoing socket files *)
  for_each (λ j, disable_end s i j) from;;
  (* incoming socket files *)
  for_each (λ j, disable_end s j i) from.

Definition all (c : Config) : list nat := seq 0 (cfg_n c).

Definition connect_all : CM unit :=
  with_servers (
    s ← get_servers;
    c ← gets id;
    for_each (λ i, on_net (connect i (all c) s)) (seq 0 (cfg_n c))).

Definition partition (p1 p2 : list nat) : CM unit :=
  with_servers (
    s ← get_servers;
    for_each (λ i, on_net (disconnect i p2 s;; connect i p1 s)) p1;;
    for_each (λ i, on_net (disconnect i p1 s;; connect i p2 s)) p2).

(** ** Clerks *)

Context {kv : KvNode}.

Definition connect_client_by_name (ck_name : string) (to : list nat) : CM unit :=
  with_clerks (
    cks ← gets (λ c, inside (clerks c));
    endnames ← expect (cks !! ck_name);
    for_each (λ j, on_net (s ← expect (endnames !! j); enable s true)) to).

Definition connect_client (ck : Clerk) (to : list nat) : CM unit := connect_client_by_name (clerk_name ck) to.

Definition delete_client (ck : Clerk) : CM unit :=
  with_clerks (modify (λ c, set_clerks (mkMutex (delete (clerk_name ck) (inside (clerks c))) (mx_poisoned (clerks c))) c)).

(** The name and the ClientEnd of a clerk for [j]. *)
Definition clerk_end (j : nat) : CM (string * Client) :=
  name ← on_ID uniqstring;
  cli ← on_net (make_end (j, name));
  mret (name, cli).

(** [shuffle] is the random shuffle of [ends]. *)
Definition make_client (shuffle : list Client → list Client) (to : list nat) : CM Clerk :=
  n ← gets cfg_n;
  ends ← collect clerk_end (seq 0 n);
  ck_name ← on_ID uniqstring;
  let ck := clerk_new ck_name (shuffle ends.*2) in
  with_clerks (modify (λ c, set_clerks (mkMutex (<[ck_name := ends.*1]> (inside (clerks c))) (mx_poisoned (clerks c))) c));;
  modify (λ c, set_next_client_id (fetch_add_1 (next_client_id c)) c);;
  connect_client ck to;;
  mret ck.

(** ** Servers *)

(** A fresh persister for [i] with what the old one has. *)
Definition renew_persister (i : nat) : CM SimplePersister :=
  s ← get_servers;
  old ← expect (saved s !! i);
  p ← on_persisters (copy_both old);
  on_servers (set_saved i p);;
  mret p.

Definition shutdown_server (i : nat) : CM unit :=
  with_servers (
    s ← get_servers;
    c ← gets id;
    on_net (disconnect i (all c) s);;
    (* disable client connections to the server *)
    on_net (delete_server (server_name i));;
    renew_persister i;;
    s ← get_servers;
    o ← expect (kvservers s !! i);
    on_servers (set_kvserver i None);;
    match o with
    | Some kv => modify (λ c, set_lib (node_kill kv (lib c)) c)
    | None => mret tt
    end).

(** [KvServer::new] and [server::Node::new]. *)
Definition new_kvserver (ends : list Client) (i : nat) (p : SimplePersister) : CM KvServer :=
  c ← gets id;
  let '(kv, l) := kvserver_new ends i p (maxraftstate c) (persisters c) (lib c) in
  modify (set_lib l);; mret kv.
Definition new_node (kv : KvServer) : CM Node :=
  c ← gets id; let '(node, l) := node_new kv (lib c) in modify (set_lib l);; mret node.

(** A server for the nodes, on the network under the name of [i]. *)
Definition serve_nodes (rf : RfNode) (node : Node) (i : nat) : M E NetWorld unit :=
  match add_service (EncodeError := EncodeError) (DecodeError := DecodeError) "raft" (raft_factory rf) (new_builder (server_name i)) with
  | (Ok _, builder) =>
      match add_service (EncodeError := EncodeError) (DecodeError := DecodeError) "kv" (kv_factory node) builder with
      | (Ok _, builder) => srv ← build builder; add_server srv
      | _ => panic
      end
  | _ => panic
  end.

Definition start_server (i : nat) : CM unit :=
  with_servers (
    n ← gets cfg_n;
    names ← on_ID (collect (λ _, uniqstring) (seq 0 n));
    on_servers (set_endnames i names);;
    ends ← on_net (collect make_end (enumerate names));
    p ← renew_persister i;
    kv ← new_kvserver ends i p;
    node ← new_node kv;
    on_servers (set_kvserver i (Some node));;
    on_net (serve_nodes (kvserver_rf kv) node i)).

(** [Config::new] *)
Definition blank (n : nat) (maxraftstate : option N) (w : NetWorld) (id now : N) (l : Lib) : Config :=
  mkConfig w n (mkMutex (mkServers (replicate n None) (seq 0 n) (replicate n (replicate n ""))) false)
    (mkMutex ∅ false) (N.of_nat n + 1000) maxraftstate now (mkMutex now false) 0 0 id (replicate n ([], [])) now l.

Definition new (n : nat) (unreliable : bool) (maxraftstate : option N) (a : App) (id now : N) (l : Lib) : outcome E unit * Config :=
  (for_each start_server (seq 0 n);; connect_all;; on_net (set_reliable (negb unreliable)))
    (blank n maxraftstate (world (new_network a)) id now l).

(** ** Leaders *)

(** The guard of the servers lives to the end of the loop. *)
Fixpoint find_leader (kvs : list (nat * option Node)) : CP (KvError + nat) :=
  match kvs with
  | [] => mret (inl NoLeader)
  | (i, Some kv) :: kvs' =>
      l ← atomic (gets (λ c, node_is_leader kv (lib c)));
      if (l : bool) then mret (inr i) else find_leader kvs'
  | (i, None) :: kvs' => find_leader kvs'
  end.

Definition leader : CP (KvError + nat) :=
  s ← atomic (with_servers get_servers); find_leader (enumerate (kvservers s)).

(** The loop of [make_partition]. *)
Fixpoint make_partition_loop (n l : nat) (js : list nat) (p1 p2 : list nat) : list nat * list nat :=
  match js with
  | [] => (p1, p2)
  | j :: js' =>
      if j =? l then make_partition_loop n l js' p1 p2
      else if length p1 <? n / 2 + 1 then make_partition_loop n l js' (p1 ++ [j]) p2
      else make_partition_loop n l js' p1 (p2 ++ [j])
  end.

Definition make_partition : CP (list nat * list nat) :=
  r ← leader;
  n ← atomic (gets cfg_n);
  let l := match r with inr l => l | inl _ => 0 end in
  let '(p1, p2) := make_partition_loop n l (seq 0 n) [] [] in
  mret (p1, p2 ++ [l]).

(** ** Sizes and statistics *)

Definition greater (n size : N) : N := if (size <? n)%N then n else size.

(** The loop over the persisters; [read] is one of their operations. *)
Fixpoint size_loop (read : SimplePersister → prog E Persisters bytes) (ps : list SimplePersister) (size : N) : CM N :=
  match ps with
  | [] => mret size
  | p :: ps' => b ← on_persisters (read p); size_loop read ps' (greater (N.of_nat (length b)) size)
  end.

Definition log_size : CM N :=
  with_servers (s ← get_servers; size_loop (λ p, raft_state (arc_persister (simple_persister p))) (saved s) 0).
Definition snapshot_size : CM N :=
  with_servers (s ← get_servers; size_loop (λ p, snapshot (arc_persister (simple_persister p))) (saved s) 0).

Definition op : CM unit := modify (λ c, set_stats (t0 c) (rpcs0 c) (fetch_add_1 (ops c)) c).

Definition rpc_total : CM N := on_net total_count.

Definition check_timeout : CM unit :=
  c ← gets id; if (120000 <? clock c - cfg_start c)%N then panic else mret tt.

Definition begin : CM unit :=
  c ← gets id;
  part t0 (λ t c, set_stats t (rpcs0 c) (ops c) c) (with_mutex (modify (λ _, clock c)));;
  total ← rpc_total;
  modify (λ c, set_stats (t0 c) total (ops c) c);;
  modify (λ c, set_stats (t0 c) (rpcs0 c) 0 c).

(** What [end] prints: the time, the peers, the requests and the operations. *)
Definition finish : CM (N * nat * N * N) :=
  check_timeout;;
  c ← gets id;
  t ← part t0 (λ t c, set_stats t (rpcs0 c) (ops c) c) (with_mutex (gets id));
  total ← rpc_total;
  nrpc ← checked_sub total (rpcs0 c);
  mret ((clock c - t)%N, cfg_n c, nrpc, ops c).

(** [Drop for Config] *)
Definition kill_all : CM unit :=
  with_servers (
    s ← get_servers;
    for_each (λ o, match o with Some kv => modify (λ c, set_lib (node_kill kv (lib c)) c) | None => mret tt end) (kvservers s)).
End config.
