(* ===== verification/KvConfigSpec.v ===== *)
(** * Correctness of the test configuration of the key-value labs

    Which servers can talk to each other, which servers a clerk can talk to, which servers
    run and what they have persisted, after any sequence of operations of a test. *)

From S2P Require Import Prelude Conc Rpc RpcSpec Persister Harness KvConfig.

(** ** End names *)

(** Who has an end name, a server or a clerk, and for which server. *)
Abbreviation owner := (nat + string)%type.
Abbreviation slot := (owner * nat)%type.
(** Which clients work. *)
Abbreviation links := (owner → nat → bool).

(** The end names [f], of numbers below [id], are known to a network with [en] and [cn]. *)
Record names_ok (f : slot → option string) (id : N) (en : gmap string bool) (cn : gmap string (option string)) (on : links) : Prop := {
  na_used : ∀ sl nm, f sl = Some nm → nm ≠ "" → ∃ k, nm = fmt_u64 k ∧ (k < id)%N;
  na_inj : ∀ sl sl' nm, f sl = Some nm → f sl' = Some nm → nm ≠ "" → sl = sl';
  na_on : ∀ sl nm, f sl = Some nm → nm ≠ "" → en !! nm = Some (on sl.1 sl.2);
  na_conn : ∀ sl nm, f sl = Some nm → nm ≠ "" → cn !! nm = Some (Some (server_name sl.2));
}.

Section names.
Context (f : slot → option string) (id : N) (en : gmap string bool) (cn : gmap string (option string)) (on : links).
Context (Hok : names_ok f id en cn on).

(** Some clients are switched on or off. *)
Lemma names_ok_switch (P : slot → Prop) `{!∀ sl, Decision (P sl)} b en' :
  switched (λ nm, ∃ sl, P sl ∧ f sl = Some nm) b en en' →
  names_ok f id en' cn (λ s j, if decide (P (s, j)) then b else on s j).
Proof using All.
  intros Hsw. destruct Hok. split; [done|done| |done]. intros [s j] nm Hnm Hne. destruct (Hsw nm) as [Hyes Hno]. cbn.
  case_decide as HP; [by apply Hyes; exists (s, j)|]. rewrite Hno; [by apply (na_on0 (s, j))|].
  intros (sl & Hsl & Hnm'). by rewrite (na_inj0 _ _ _ Hnm' Hnm Hne) in Hsl.
Qed.

Lemma names_ok_links on' : (∀ s j nm, f (s, j) = Some nm → on s j = on' s j) → names_ok f id en cn on'.
Proof using All.
  intros H. destruct Hok. split; [done|done| |done]. intros [s j] nm Hnm Hne. cbn. rewrite <-(H _ _ _ Hnm). by apply (na_on0 (s, j)).
Qed.

(** Names are forgotten, and numbers used up. *)
Lemma names_ok_drop f' id' : (∀ sl nm, f' sl = Some nm → f sl = Some nm) → (id <= id')%N → names_ok f' id' en cn on.
Proof using All.
  intros Hf Hid. destruct Hok. split; [|by eauto..].
  intros sl nm Hnm Hne. destruct (na_used0 _ _ (Hf _ _ Hnm) Hne) as (k & -> & ?). exists k. split; [done|lia].
Qed.

(** An owner gets new names. *)
Lemma names_ok_fresh s n f' en' cn' :
  (∀ sl, f' sl = if decide (sl.1 = s) then new_names id n !! sl.2 else f sl) →
  switched (λ nm, nm ∈ new_names id n) false en en' →
  (∀ j nm, new_names id n !! j = Some nm → cn' !! nm = Some (Some (server_name j))) →
  (∀ nm, nm ∉ new_names id n → cn' !! nm = cn !! nm) →
  names_ok f' (id + N.of_nat n) en' cn' (λ s' j, if decide (s' = s) then false else on s' j).
Proof using All.
  intros Hf Hsw Hc Hcn. destruct Hok.
  assert (∀ sl nm, f sl = Some nm → nm ≠ "" → nm ∉ new_names id n) as Hold.
  { intros sl nm Hnm Hne (j & _ & ->)%elem_of_new_names. destruct (na_used0 _ _ Hnm Hne) as (k & Hk%fmt_u64_inj & ?). lia. }
  split.
  - intros sl nm. rewrite Hf. case_decide.
    + intros [? ->]%lookup_new_names _. eexists. split; [done|lia].
    + intros Hnm Hne. destruct (na_used0 _ _ Hnm Hne) as (k & -> & ?). exists k. split; [done|lia].
  - intros [s1 j1] [s2 j2] nm. rewrite !Hf. cbn. do 2 case_decide; subst.
    + intros [? ->]%lookup_new_names [? Hk%fmt_u64_inj]%lookup_new_names _. f_equal. lia.
    + intros H1%list_elem_of_lookup_2 H2 Hne. by destruct (Hold _ _ H2 Hne).
    + intros H1 H2%list_elem_of_lookup_2 Hne. by destruct (Hold _ _ H1 Hne).
    + apply na_inj0.
  - intros [s1 j1] nm. rewrite Hf. cbn. destruct (Hsw nm) as [Hyes Hno]. case_decide.
    + intros H1%list_elem_of_lookup_2 _. by apply Hyes.
    + intros Hnm Hne. rewrite Hno by by eapply Hold. by apply (na_on0 (s1, j1)).
  - intros [s1 j1] nm. rewrite Hf. cbn. case_decide; [intros; by apply Hc|].
    intros Hnm Hne. rewrite Hcn by by eapply Hold. by apply (na_conn0 (s1, j1)).
Qed.
End names.

(** ** Connections between servers *)

Section connections.
Context {EncodeError DecodeError Factory Hooks App Node : Type}.
Abbreviation E := (Error EncodeError DecodeError).
Abbreviation NetWorld := (@Rpc.World EncodeError DecodeError Factory Hooks App).
Abbreviation Servers := (@Servers Node).
Implicit Types (s : Servers) (w : NetWorld).
Abbreviation en w := (enabled (endpoints (core w))).

Definition endname s (i j : nat) : option string := names ← endnames s !! i; names !! j.

Record shape (n : nat) s : Prop := {
  sh_kvservers : length (kvservers s) = n;
  sh_saved : length (saved s) = n;
  sh_endnames : length (endnames s) = n;
  sh_rows : ∀ i names, endnames s !! i = Some names → length names = n;
}.

Lemma end_of_run n s i j w : shape n s → i < n → j < n → ∃ nm, endname s i j = Some nm ∧ end_of s i j w = (Ok nm, w).
Proof.
  intros Hs Hi Hj. destruct (lookup_lt_is_Some_2 (endnames s) i) as [names Hn]; [by rewrite (sh_endnames _ _ Hs)|].
  destruct (lookup_lt_is_Some_2 names j) as [nm Hnm]; [by rewrite (sh_rows _ _ Hs _ _ Hn)|].
  exists nm. unfold endname, end_of, expect. rewrite Hn. split; [done|]. mpure. by rewrite Hnm.
Qed.

Lemma disable_end_run n s i j w : shape n s → i < n → j < n → poisoned (core w) = false → ∃ nm, endname s i j = Some nm ∧
  disable_end s i j w = (Ok tt, with_enabled (<[nm := false]> (en w)) w).
Proof.
  intros Hs Hi Hj Hw. destruct (end_of_run n s i j w Hs Hi Hj) as (nm & Hnm & Hrun). exists nm. split; [done|].
  unfold disable_end. destruct (lookup_lt_is_Some_2 (endnames s) i) as [names Hn]; [by rewrite (sh_endnames _ _ Hs)|].
  erewrite bind_ok; [|unfold expect; rewrite Hn; reflexivity]. rewrite bool_decide_false.
  - rewrite (bind_ok _ _ _ _ _ Hrun). by rewrite enable_run.
  - intros ->. pose proof (sh_rows _ _ Hs _ _ Hn). simpl in *. lia.
Qed.

(** The ends between [i] and the servers [l]. *)
Definition between (i : nat) (l : list nat) (a b : nat) : Prop := (a = i ∧ b ∈ l) ∨ (b = i ∧ a ∈ l).
#[export] Instance between_dec i l a b : Decision (between i l a b).
Proof. unfold between. apply _. Defined.

(** The two loops of [connect] and [disconnect]. *)
Lemma two_loops (b : bool) n s i l (f g : nat → M E NetWorld unit) w : shape n s → i < n → Forall (λ j, j < n) l → poisoned (core w) = false →
  (∀ j w', j < n → poisoned (core w') = false → ∃ nm, endname s i j = Some nm ∧ f j w' = (Ok tt, with_enabled (<[nm := b]> (en w')) w')) →
  (∀ j w', j < n → poisoned (core w') = false → ∃ nm, endname s j i = Some nm ∧ g j w' = (Ok tt, with_enabled (<[nm := b]> (en w')) w')) →
  ∃ m, (for_each f l;; for_each g l) w = (Ok tt, with_enabled m w) ∧
    switched (λ nm, ∃ j j', between i l j j' ∧ endname s j j' = Some nm) b (en w) m.
Proof.
  intros Hs Hi Hl Hw Hf Hg. rewrite Forall_forall in Hl.
  erewrite bind_ok; [|apply (for_each_switch _ (λ j, endname s i j) b); [done|]].
  2:{ intros j w' Hj Hw'. destruct (Hf j w') as (nm & -> & ->); [by apply Hl|done|done]. }
  rewrite (for_each_switch _ (λ j, endname s j i) b); [|done|].
  2:{ intros j w' Hj Hw'. destruct (Hg j w') as (nm & -> & ->); [by apply Hl|done|done]. }
  rewrite with_enabled_twice. eexists. split; [done|]. cbn. intros nm. rewrite !lookup_foldl_insert.
  assert (∀ h : nat → option string, nm ∈ omap h l ↔ ∃ j, j ∈ l ∧ h j = Some nm) as Hin by (intros h; apply list_elem_of_omap).
  pose proof (Hin (λ j, endname s i j)). pose proof (Hin (λ j, endname s j i)). clear Hin Hf Hg.
  unfold between. split; intros HP; repeat case_decide; naive_solver.
Qed.

Lemma ends_connect_ok n s i to w : shape n s → i < n → Forall (λ j, j < n) to → poisoned (core w) = false → ∃ m,
  connect i to s w = (Ok tt, with_enabled m w) ∧
  switched (λ nm, ∃ j j', between i to j j' ∧ endname s j j' = Some nm) true (en w) m.
Proof.
  intros Hs Hi Hto Hw. apply (two_loops true n); [done..| |]; intros j w' Hj Hw'.
  - destruct (end_of_run n s i j w' Hs Hi Hj) as (nm & Hnm & Hrun). exists nm. split; [done|].
    rewrite (bind_ok _ _ _ _ _ Hrun). by rewrite enable_run.
  - destruct (end_of_run n s j i w' Hs Hj Hi) as (nm & Hnm & Hrun). exists nm. split; [done|].
    rewrite (bind_ok _ _ _ _ _ Hrun). by rewrite enable_run.
Qed.

Lemma ends_disconnect_ok n s i from w : shape n s → i < n → Forall (λ j, j < n) from → poisoned (core w) = false → ∃ m,
  disconnect i from s w = (Ok tt, with_enabled m w) ∧
  switched (λ nm, ∃ j j', between i from j j' ∧ endname s j j' = Some nm) false (en w) m.
Proof.
  intros Hs Hi Hl Hw. apply (two_loops false n); [done..| |]; intros j w' Hj Hw'; by apply (disable_end_run n).
Qed.
End connections.

(** ** What a configuration should be *)

(** The links of a network divided in two, and what else a test has asked for: the servers
    that run, what they have persisted, the clerks and the end names given out. *)
Definition split_links (p1 p2 : list nat) (on : links) : links := λ o b,
  match o with
  | inl a =>
      if decide ((a ∈ p1 ∧ b ∈ p1) ∨ (a ∈ p2 ∧ b ∈ p2)) then true
      else if decide ((a ∈ p1 ∧ b ∈ p2) ∨ (a ∈ p2 ∧ b ∈ p1)) then false
      else on o b
  | inr _ => on o b
  end.

(** The links between servers that [P] selects are [b]. *)
Definition server_links (P : nat → nat → Prop) `{!∀ a c, Decision (P a c)} (b : bool) (on : links) : links := λ o c,
  match o with inl a => if decide (P a c) then b else on o c | inr _ => on o c end.

(** The names of the servers in [s] are among the names [f]. *)
Section relink.
Context {EncodeError DecodeError Factory Hooks App Node : Type}.
Abbreviation E := (Error EncodeError DecodeError).
Abbreviation NetWorld := (@Rpc.World EncodeError DecodeError Factory Hooks App).
Context (f : slot → option string) (id : N) (n : nat) (s : @Servers Node).
Context (Hf : ∀ i j, f (inl i, j) = endname s i j) (Hs : shape n s).
Implicit Types (w : NetWorld).

Abbreviation known_to w on := (names_ok f id (enabled (endpoints (core w))) (connections (endpoints (core w))) on).

Lemma server_names_switch w on P `{!∀ a b, Decision (P a b)} b en' : known_to w on →
  switched (λ nm, ∃ j j', P j j' ∧ endname s j j' = Some nm) b (enabled (endpoints (core w))) en' →
  known_to (with_enabled en' w) (server_links P b on).
Proof using Hf.
  intros Hok Hsw.
  pose (Q (sl : slot) := match sl.1 with inl a => P a sl.2 | inr _ => False end).
  assert (∀ sl, Decision (Q sl)) as HQ by (intros [[a|ck] j]; unfold Q; apply _).
  eapply names_ok_links; [apply (names_ok_switch _ _ _ _ _ Hok Q b en')|].
  - eapply switched_iff; [|exact Hsw]. intros nm. unfold Q. split.
    + intros (j & j' & ? & ?). exists (inl j, j'). by rewrite Hf.
    + intros ([[j|ck] j'] & ? & Hnm); [|done]. rewrite Hf in Hnm. by exists j, j'.
  - intros [a|ck] j nm _; unfold server_links, Q; cbn; [by repeat case_decide|]. by case_decide.
Qed.

Lemma connect_links i to w on : i < n → Forall (λ j, j < n) to → poisoned (core w) = false → known_to w on → ∃ en',
  connect i to s w = (Ok tt, with_enabled en' w) ∧ known_to (with_enabled en' w) (server_links (between i to) true on).
Proof using Hf Hs.
  intros Hi Hto Hw Hok. destruct (ends_connect_ok n s i to w Hs Hi Hto Hw) as (en' & Hrun & Hsw). exists en'.
  split; [done|]. by apply server_names_switch.
Qed.

Lemma disconnect_links i from w on : i < n → Forall (λ j, j < n) from → poisoned (core w) = false → known_to w on → ∃ en',
  disconnect i from s w = (Ok tt, with_enabled en' w) ∧ known_to (with_enabled en' w) (server_links (between i from) false on).
Proof using Hf Hs.
  intros Hi Hto Hw Hok. destruct (ends_disconnect_ok n s i from w Hs Hi Hto Hw) as (en' & Hrun & Hsw). exists en'.
  split; [done|]. by apply server_names_switch.
Qed.

Lemma relink_loop (g : nat → M E NetWorld unit) (h : nat → links → links) l w on : Forall (λ j, j < n) l →
  (∀ i w on, i < n → poisoned (core w) = false → known_to w on →
     ∃ en', g i w = (Ok tt, with_enabled en' w) ∧ known_to (with_enabled en' w) (h i on)) →
  poisoned (core w) = false → known_to w on → ∃ en',
  for_each g l w = (Ok tt, with_enabled en' w) ∧ known_to (with_enabled en' w) (foldl (λ on i, h i on) on l).
Proof using Type.
  intros Hl Hg. revert w on. induction Hl as [|i l Hi Hl IH]; intros w on Hw Hok.
  { exists (enabled (endpoints (core w))). by rewrite with_enabled_same. }
  destruct (Hg i w on Hi Hw Hok) as (en1 & Hrun & Hok1). destruct (IH (with_enabled en1 w) (h i on) Hw Hok1) as (en2 & Hruns & Hok2).
  exists en2. cbn [for_each foldl]. by rewrite (bind_ok _ _ _ _ _ Hrun).
Qed.

(** A loop of [partition]. *)
Lemma partition_loop l from to w on : Forall (λ j, j < n) l → Forall (λ j, j < n) from → Forall (λ j, j < n) to →
  poisoned (core w) = false → known_to w on → ∃ en',
  for_each (λ i, disconnect i from s;; connect i to s) l w = (Ok tt, with_enabled en' w) ∧
  known_to (with_enabled en' w) (foldl (λ on i, server_links (between i to) true (server_links (between i from) false on)) on l).
Proof using Hf Hs.
  intros Hl Hfrom Hto. apply (relink_loop _ (λ i on, server_links (between i to) true (server_links (between i from) false on))); [done|].
  intros i w1 on1 Hi Hw Hok. destruct (disconnect_links i from w1 on1) as (en1 & Hrun & Hok1); [done..|].
  destruct (connect_links i to (with_enabled en1 w1) _ Hi Hto Hw Hok1) as (en2 & Hrun2 & Hok2).
  exists en2. by rewrite (bind_ok _ _ _ _ _ Hrun).
Qed.
End relink.

Lemma foldl_client_links {A} (h : A → links → links) l on ck b : (∀ i on, h i on (inr ck) b = on (inr ck) b) →
  foldl (λ on i, h i on) on l (inr ck) b = on (inr ck) b.
Proof. intros Hh. revert on. induction l as [|i l IH]; intros on; [done|]. simpl. by rewrite IH. Qed.

Lemma connect_loop_links l to on a b :
  foldl (λ on i, server_links (between i to) true on) on l (inl a) b = if decide ((a ∈ l ∧ b ∈ to) ∨ (b ∈ l ∧ a ∈ to)) then true else on (inl a) b.
Proof.
  revert on. induction l as [|i l IH]; intros on; [done|]. cbn [foldl].
  rewrite IH. unfold server_links, between. pose proof (elem_of_cons l a i). pose proof (elem_of_cons l b i).
  clear IH. repeat case_decide; naive_solver.
Qed.

Lemma partition_loop_links l from to on a b : (∀ i, i ∈ to → i ∉ from) → (∀ i, i ∈ l → i ∈ to) →
  foldl (λ on i, server_links (between i to) true (server_links (between i from) false on)) on l (inl a) b =
  if decide ((a ∈ l ∧ b ∈ to) ∨ (b ∈ l ∧ a ∈ to)) then true
  else if decide ((a ∈ l ∧ b ∈ from) ∨ (b ∈ l ∧ a ∈ from)) then false else on (inl a) b.
Proof.
  intros Hd. revert on. induction l as [|i l IH]; intros on Hl; [done|]. cbn [foldl].
  rewrite IH by (intros; apply Hl; by right). assert (i ∈ to) as Hi by (apply Hl; by left). pose proof (Hd i Hi).
  unfold server_links, between. pose proof (elem_of_cons l a i). pose proof (elem_of_cons l b i).
  clear IH. repeat case_decide; naive_solver.
Qed.

Lemma partition_links p1 p2 on a b : (∀ i, i ∈ p1 → i ∉ p2) →
  foldl (λ on i, server_links (between i p2) true (server_links (between i p1) false on))
    (foldl (λ on i, server_links (between i p1) true (server_links (between i p2) false on)) on p1) p2 (inl a) b =
  split_links p1 p2 on (inl a) b.
Proof.
  intros Hd. rewrite !partition_loop_links by (done || by intros i ? ?; eapply Hd).
  unfold split_links. pose proof (Hd a). pose proof (Hd b). repeat case_decide; naive_solver.
Qed.

Record spec := mkSpec {
  on : links;
  up : list bool;
  disk : list (bytes * bytes);
  clients : gset string;
  next : N;
}.

Section config.
Context {EncodeError DecodeError Factory Hooks App KvServer RfNode Node Clerk Lib : Type}.
Abbreviation E := (Error EncodeError DecodeError).
Abbreviation NetWorld := (@Rpc.World EncodeError DecodeError Factory Hooks App).
Abbreviation Config := (@Config EncodeError DecodeError Factory Hooks App Node Lib).
Abbreviation CM := (M E Config).
Context {kv : @KvNode Factory KvServer RfNode Node Clerk Lib}.
Implicit Types (c : Config) (st : spec).

Abbreviation eps c := (endpoints (core (net c))).
Abbreviation servs c := (inside (cfg_servers c)).

Definition name_of c (sl : slot) : option string :=
  match sl.1 with
  | inl i => endname (servs c) i sl.2
  | inr ck => names ← inside (clerks c) !! ck; names !! sl.2
  end.

(** The server [i] is on the network with the node and its raft. *)
Definition serving c (i : nat) (node : Node) : Prop := ∃ srv sc rf,
  servers (eps c) !! server_name i = Some (Some srv) ∧ cores (net c) !! srv = Some sc ∧
  core_name sc = server_name i ∧ services sc = <["kv" := kv_factory node]> {["raft" := raft_factory rf]}.

Record kv_ok c st : Prop := {
  ko_shape : shape (cfg_n c) (servs c);
  ko_sound : poisoned (core (net c)) = false;
  ko_free : mx_poisoned (cfg_servers c) = false ∧ mx_poisoned (clerks c) = false;
  ko_disk : Forall2 (λ p d, persisters c !! p = Some d) (saved (servs c)) (disk st);
  ko_saved : NoDup (saved (servs c));
  ko_next : next st = ID c;
  ko_names : names_ok (name_of c) (ID c) (enabled (eps c)) (connections (eps c)) (on st);
  ko_clerks : ∀ ck names, inside (clerks c) !! ck = Some names →
    length names = cfg_n c ∧ Forall (λ nm, nm ≠ "") names ∧ ∃ k, ck = fmt_u64 k ∧ (k < ID c)%N;
  ko_clients : clients st = dom (inside (clerks c));
  ko_up : up st = (λ o, bool_decide (is_Some o)) <$> kvservers (servs c);
  ko_alive : ∀ i node, kvservers (servs c) !! i = Some (Some node) → serving c i node;
  ko_dead : ∀ i, kvservers (servs c) !! i = Some None → default None (servers (eps c) !! server_name i) = None;
  ko_named : ∀ i j nm, is_Some (servers (eps c) !! server_name i) → endname (servs c) i j = Some nm → nm ≠ "";
}.

(** ** Guards and parts *)

Lemma guarded_ok {B A} (mx : Config → Mutex B) set (m : CM A) c a c' : mx_poisoned (mx c) = false →
  m c = (Ok a, c') → guarded mx set m c = (Ok a, c').
Proof. intros Hp Hm. unfold guarded. by rewrite Hp, Hm. Qed.

Lemma on_net_run {A} (m : M E NetWorld A) c a w : m (net c) = (Ok a, w) → on_net m c = (Ok a, set_net w c).
Proof. intros H. unfold on_net, part. by rewrite H. Qed.

(** A loop of operations of the network. *)
Lemma for_each_on_net {A} (f : A → M E NetWorld unit) l c w : for_each f l (net c) = (Ok tt, w) →
  for_each (λ a, on_net (f a)) l c = (Ok tt, set_net w c).
Proof.
  revert c. induction l as [|a l IH]; intros c; simpl; [intros [= <-]; by destruct c|].
  unfold mbind, M_bind, on_net at 1, part. destruct (f a (net c)) as [[[]|e| |] w1]; try done.
  intros Hw. apply (IH (set_net w1 c)). exact Hw.
Qed.

Lemma name_lt c sl nm : shape (cfg_n c) (servs c) →
  (∀ ck names, inside (clerks c) !! ck = Some names → length names = cfg_n c) → name_of c sl = Some nm →
  sl.2 < cfg_n c ∧ match sl.1 with inl i => i < cfg_n c | inr _ => True end.
Proof.
  intros Hs Hck. unfold name_of, endname. destruct sl as [[i|ck] j]; cbn; intros (names & Hi & Hj%lookup_lt_Some)%bind_Some.
  - pose proof (sh_rows _ _ Hs _ _ Hi). pose proof (sh_endnames _ _ Hs). apply lookup_lt_Some in Hi. lia.
  - pose proof (Hck _ _ Hi). lia.
Qed.

Lemma name_lt_ok c st o j nm : kv_ok c st → name_of c (o, j) = Some nm → j < cfg_n c ∧ match o with inl i => i < cfg_n c | inr _ => True end.
Proof. intros Hok. apply (name_lt c (o, j)); [apply Hok|]. intros ck names H. by apply (ko_clerks _ _ Hok) in H as []. Qed.

(** ** Links *)

Definition with_links (on' : links) st : spec := mkSpec on' (up st) (disk st) (clients st) (next st).

(** Only the clients that work have changed. *)
Lemma kv_ok_links c st en' on1 on' : kv_ok c st →
  names_ok (name_of c) (ID c) en' (connections (eps c)) on1 →
  (∀ o j nm, name_of c (o, j) = Some nm → on1 o j = on' o j) →
  kv_ok (set_net (with_enabled en' (net c)) c) (with_links on' st).
Proof. intros Hok H1 H2. pose proof (names_ok_links _ _ _ _ _ H1 on' H2). by destruct Hok. Qed.

Lemma Forall_all c : Forall (λ j, j < cfg_n c) (all c).
Proof. apply Forall_forall. intros j Hj%elem_of_seq. lia. Qed.

Lemma connect_all_ok c st : kv_ok c st → ∃ en', connect_all c = (Ok tt, set_net (with_enabled en' (net c)) c) ∧
  kv_ok (set_net (with_enabled en' (net c)) c) (with_links (server_links (λ _ _, True) true (on st)) st).
Proof.
  intros Hok. destruct (relink_loop (name_of c) (ID c) (cfg_n c) (λ i, connect i (all c) (servs c))
    (λ i on, server_links (between i (all c)) true on) (seq 0 (cfg_n c)) (net c) (on st)) as (en' & Hrun & Hnames).
  - apply Forall_all.
  - intros i w on0 Hi Hw. by apply (connect_links (name_of c) (ID c) (cfg_n c)); [|apply Hok|done|apply Forall_all|].
  - apply Hok.
  - apply Hok.
  - exists en'. split.
    + unfold connect_all, with_servers. apply guarded_ok; [apply Hok|]. mpure. by apply for_each_on_net.
    + eapply kv_ok_links; [done|exact Hnames|].
      intros [a|ck] b nm Hnm.
      * cbn. rewrite connect_loop_links. apply (name_lt_ok c st) in Hnm as [Hb Ha]; [|done]. cbn in *. rewrite !decide_True; [done|done|].
        left. split; apply elem_of_seq; lia.
      * cbn. by apply (foldl_client_links (λ i on, server_links (between i (all c)) true on)).
Qed.

Lemma partition_ok p1 p2 c st : kv_ok c st → Forall (λ j, j < cfg_n c) p1 → Forall (λ j, j < cfg_n c) p2 → (∀ i, i ∈ p1 → i ∉ p2) → ∃ en',
  partition p1 p2 c = (Ok tt, set_net (with_enabled en' (net c)) c) ∧
  kv_ok (set_net (with_enabled en' (net c)) c) (with_links (split_links p1 p2 (on st)) st).
Proof.
  intros Hok H1 H2 Hd.
  destruct (partition_loop (name_of c) (ID c) (cfg_n c) (servs c) (λ _ _, eq_refl) (ko_shape _ _ Hok) p1 p2 p1 (net c) (on st)) as (en1 & Hrun1 & Hn1);
    [done..|apply Hok|apply Hok|].
  destruct (partition_loop (name_of c) (ID c) (cfg_n c) (servs c) (λ _ _, eq_refl) (ko_shape _ _ Hok) p2 p1 p2 (with_enabled en1 (net c)) _
    H2 H1 H2 (ko_sound _ _ Hok) Hn1) as (en2 & Hrun2 & Hn2).
  exists en2. split.
  - unfold partition, with_servers. apply guarded_ok; [apply Hok|]. mpure.
    rewrite (bind_ok _ _ _ _ _ (for_each_on_net _ _ _ _ Hrun1)). by apply (for_each_on_net _ _ (set_net (with_enabled en1 (net c)) c)).
  - eapply kv_ok_links; [done|exact Hn2|].
    intros [a|ck] b nm _; [cbn; by rewrite partition_links|]. cbn.
    set (h1 := λ i on, server_links (between i p1) true (server_links (between i p2) false on)).
    set (h2 := λ i on, server_links (between i p2) true (server_links (between i p1) false on)).
    rewrite (foldl_client_links h2) by done. by rewrite (foldl_client_links h1).
Qed.

(** ** Clerks *)

Definition with_clients (cs : gset string) st : spec := mkSpec (on st) (up st) (disk st) cs (next st).

Definition client_links (ck : string) (to : list nat) (on : links) : links := λ o j,
  if decide (o = inr ck ∧ j ∈ to) then true else on o j.

Lemma connect_client_ok ck to c st : kv_ok c st → ck ∈ clients st → Forall (λ j, j < cfg_n c) to → ∃ en',
  connect_client_by_name ck to c = (Ok tt, set_net (with_enabled en' (net c)) c) ∧
  kv_ok (set_net (with_enabled en' (net c)) c) (with_links (client_links ck to (on st)) st).
Proof.
  intros Hok Hck Hto. rewrite (ko_clients _ _ Hok) in Hck. apply elem_of_dom in Hck as [names Hnames].
  destruct (ko_clerks _ _ Hok _ _ Hnames) as (Hlen & _). rewrite Forall_forall in Hto.
  pose proof (for_each_switch (λ j, s ← expect (names !! j); enable s true) (λ j, names !! j) true to (net c) (ko_sound _ _ Hok)) as Hrun.
  eexists. split.
  - unfold connect_client_by_name, with_clerks. apply guarded_ok; [apply Hok|]. mpure.
    erewrite bind_ok; [|unfold expect; rewrite Hnames; reflexivity]. apply for_each_on_net. apply Hrun.
    intros j w Hj Hw. destruct (lookup_lt_is_Some_2 names j) as [nm Hnm]; [rewrite Hlen; by apply Hto|].
    unfold expect. rewrite Hnm. mpure. by rewrite enable_run.
  - eapply kv_ok_links; [done|eapply (names_ok_switch _ _ _ _ _ (ko_names _ _ Hok) (λ sl, sl.1 = inr ck ∧ sl.2 ∈ to) true)|].
    2:{ intros o j nm _. unfold client_links. cbn. by repeat case_decide. }
    intros nm. rewrite lookup_foldl_insert.
    assert (nm ∈ omap (λ j, names !! j) to ↔ ∃ sl, (sl.1 = inr ck ∧ sl.2 ∈ to) ∧ name_of c sl = Some nm) as Heq.
    { rewrite list_elem_of_omap. unfold name_of. split.
      - intros (j & Hj & Hnm). exists (inr ck, j). cbn. by rewrite Hnames.
      - intros ([o j] & [H1 H2] & Hnm). cbn in *. subst. rewrite Hnames in Hnm. by exists j. }
    clear Hrun. split; intros; case_decide; naive_solver.
Qed.

Lemma delete_client_ok ck c st : kv_ok c st → ∃ c', delete_client ck c = (Ok tt, c') ∧
  kv_ok c' (with_clients (clients st ∖ {[clerk_name ck]}) st) ∧ cfg_n c' = cfg_n c ∧ net c' = net c.
Proof.
  intros Hok. eexists. split; [unfold delete_client, with_clerks; apply guarded_ok; [apply Hok|reflexivity]|].
  split; [|done]. destruct Hok. split; try done; cbn.
  - eapply names_ok_drop; [exact ko_names0| |lia]. intros [[i|ck'] j] nm; [done|]. unfold name_of. cbn.
    rewrite lookup_delete. by case_decide.
  - intros ck' names. rewrite lookup_delete. case_decide; [done|]. apply ko_clerks0.
  - by rewrite dom_delete_L, ko_clients0.
Qed.

Lemma new_names_S id k : new_names id (S k) = fmt_u64 id :: new_names (id + 1) k.
Proof.
  unfold new_names. simpl. rewrite N.add_0_r. f_equal. rewrite <-fmap_S_seq, <-list_fmap_compose.
  apply list_fmap_ext. intros ? j _. simpl. f_equal. lia.
Qed.

Lemma uniqstring_run c : (ID c + 1 < USIZE)%N → on_ID uniqstring c = (Ok (fmt_u64 (ID c)), set_ID (ID c + 1) c).
Proof.
  intros H. unfold on_ID, part, uniqstring. mpure. unfold modify, mbind, M_bind, fetch_add_1. by rewrite N.mod_small by lia.
Qed.

Lemma clerk_ends_run o k c : poisoned (core (net c)) = false → (ID c + N.of_nat k < USIZE)%N → ∃ ends w',
  collect clerk_end (seq o k) c = (Ok ends, set_ID (ID c + N.of_nat k)%N (set_net w' c)) ∧
  ends.*1 = new_names (ID c) k ∧ ends_made o (new_names (ID c) k) (net c) w'.
Proof.
  revert o c. induction k as [|k IH]; intros o c Hs Hid.
  { exists [], (net c). split_and!; [by rewrite N.add_0_r; destruct c|done|].
    change (new_names (ID c) 0) with ([] : list string). split; try done. intros nm. split; [by intros ?%not_elem_of_nil|done]. }
  destruct (make_end_run o (fmt_u64 (ID c)) (net c) Hs) as (cli & w1 & Hrun & Hw1 & _).
  destruct (IH (S o) (set_net w1 (set_ID (ID c + 1) c))) as (ends & w2 & Hruns & Hends & Hw2); [by cbn; rewrite (em_sound _ _ _ _ Hw1)|cbn; lia|].
  exists ((fmt_u64 (ID c), cli) :: ends), w2. rewrite new_names_S. split_and!.
  - cbn [seq collect].
    erewrite bind_ok; [|unfold clerk_end; rewrite (bind_ok _ _ _ _ _ (uniqstring_run c ltac:(lia)));
      rewrite (bind_ok _ _ _ _ _ (on_net_run _ (set_ID (ID c + 1) c) _ _ Hrun)); reflexivity].
    rewrite (bind_ok _ _ _ _ _ Hruns). replace (ID c + N.of_nat (S k))%N with (ID c + 1 + N.of_nat k)%N by lia. done.
  - cbn. by rewrite Hends.
  - eapply ends_made_cons; [|done|done]. intros (j & _ & Hj%fmt_u64_inj)%elem_of_new_names. lia.
Qed.

(** The clients of an owner with new end names. *)
Definition no_links (o : owner) (on : links) : links := λ o' j, if decide (o' = o) then false else on o' j.

Definition new_client st (ck : string) (n : nat) : spec :=
  mkSpec (no_links (inr ck) (on st)) (up st) (disk st) ({[ck]} ∪ clients st) (next st + N.of_nat n + 1).

(** The state of [make_client] before its [connect_client]. *)
Lemma new_client_ok c st w' : kv_ok c st → ends_made 0 (new_names (ID c) (cfg_n c)) (net c) w' →
  let ck := fmt_u64 (ID c + N.of_nat (cfg_n c)) in
  kv_ok (set_next_client_id (fetch_add_1 (next_client_id c))
    (set_clerks (mkMutex (<[ck := new_names (ID c) (cfg_n c)]> (inside (clerks c))) false)
      (set_ID (ID c + N.of_nat (cfg_n c) + 1)%N (set_net w' c)))) (new_client st ck (cfg_n c)).
Proof.
  intros Hok [] ck. destruct Hok. split; try done; cbn in *.
  - by rewrite em_sound.
  - by destruct ko_free0.
  - by rewrite ko_next0.
  - eapply (names_ok_drop _ (ID c + N.of_nat (cfg_n c))%N); [|by intros|lia].
    apply (names_ok_fresh _ _ _ _ _ ko_names0 (inr ck) (cfg_n c)); [|done|done|done].
    intros [[i|ck'] j]; unfold name_of; cbn; [by case_decide|]. rewrite lookup_insert.
    destruct (decide (ck = ck')) as [<-|Hne]; [by rewrite decide_True|]. by rewrite decide_False by congruence.
  - intros ck' names. rewrite lookup_insert. case_decide as Hck.
    + intros [= <-]. rewrite length_new_names. split_and!; [done| |eexists; split; [by rewrite <-Hck|lia]].
      apply Forall_forall. intros nm (j & _ & ->)%elem_of_new_names. apply fmt_name_nonempty.
    + intros H. destruct (ko_clerks0 _ _ H) as (? & ? & k & ? & ?). split_and!; [done..|]. exists k. split; [done|lia].
  - by rewrite dom_insert_L, ko_clients0.
  - intros i node Hi. destruct (ko_alive0 i node Hi) as (srv & sc & rf & H). exists srv, sc, rf. cbn. by rewrite em_servers, em_cores.
  - intros i Hi. rewrite em_servers. by apply ko_dead0.
  - intros i j nm. rewrite em_servers. apply ko_named0.
Qed.

Lemma make_client_ok shuffle to c st : (∀ nm ends, clerk_name (clerk_new nm ends) = nm) → kv_ok c st →
  (ID c + N.of_nat (cfg_n c) + 1 < USIZE)%N → Forall (λ j, j < cfg_n c) to →
  let ck := fmt_u64 (ID c + N.of_nat (cfg_n c)) in ∃ ends c', make_client shuffle to c = (Ok (clerk_new ck ends), c') ∧
  kv_ok c' (with_links (client_links ck to (no_links (inr ck) (on st))) (new_client st ck (cfg_n c))) ∧ cfg_n c' = cfg_n c ∧
  servers (eps c') = servers (eps c).
Proof.
  intros Hck Hok Hid Hto ck.
  destruct (clerk_ends_run 0 (cfg_n c) c) as (ends & w' & Hends & Hfst & Hw'); [apply Hok|lia|].
  pose proof (new_client_ok c st w' Hok Hw') as Hok1. cbv zeta in Hok1. fold ck in Hok1. set (c1 := set_next_client_id _ _) in *.
  destruct (connect_client_ok ck to c1 _ Hok1) as (en' & Hrun & Hok2); [cbn; set_solver|done|].
  eexists (shuffle ends.*2), _. split; [|split; [exact Hok2|split; [done|cbn; by apply Hw']]].
  unfold make_client. erewrite bind_ok; [|reflexivity]. rewrite (bind_ok _ _ _ _ _ Hends).
  erewrite bind_ok; [|apply uniqstring_run; cbn; lia]. cbn [ID set_ID]. fold ck.
  erewrite bind_ok; [|unfold with_clerks; apply guarded_ok; [apply Hok|reflexivity]].
  erewrite bind_ok; [|reflexivity].
  assert (connect_client (clerk_new ck (shuffle ends.*2)) to c1 = (Ok tt, set_net (with_enabled en' (net c1)) c1)) as Hcon
    by (unfold connect_client; by rewrite Hck).
  rewrite Hfst. pose proof (proj2 (ko_free _ _ Hok)) as Hfree.
  erewrite bind_ok; [|rewrite <-Hcon; f_equal; unfold c1, set_next_client_id, set_clerks, set_ID; cbn; by rewrite Hfree]. done.
Qed.

(** ** Persisters *)

Definition with_disk (d : list (bytes * bytes)) st : spec := mkSpec (on st) (up st) d (clients st) (next st).

(** The configuration after [renew_persister]; [d] is what the old persister has. *)
Definition renewed (i : nat) (d : bytes * bytes) c : Config :=
  set_servers (mkMutex (mkServers (kvservers (servs c)) (<[i := length (persisters c)]> (saved (servs c))) (endnames (servs c))) (mx_poisoned (cfg_servers c)))
    (set_persisters (persisters c ++ [d]) c).

Lemma saved_at c st i : kv_ok c st → i < cfg_n c → ∃ p d, saved (servs c) !! i = Some p ∧ disk st !! i = Some d ∧ persisters c !! p = Some d.
Proof.
  intros Hok Hi. destruct (lookup_lt_is_Some_2 (saved (servs c)) i) as [p Hp]; [by rewrite (sh_saved _ _ (ko_shape _ _ Hok))|].
  destruct (Forall2_lookup_l _ _ _ _ _ (ko_disk _ _ Hok) Hp) as (d & ? & ?). by exists p, d.
Qed.

(** [renew_persister] only looks at the persisters. *)
Lemma renew_run i p d c : saved (servs c) !! i = Some p → persisters c !! p = Some d →
  renew_persister i c = (Ok (length (persisters c)), renewed i d c).
Proof.
  intros Hp Hd. unfold renew_persister. erewrite bind_ok; [|reflexivity].
  erewrite bind_ok; [|unfold expect; rewrite Hp; reflexivity].
  erewrite bind_ok; [|unfold on_persisters, part; rewrite (copy_both_run _ _ _ Hd); reflexivity].
  assert (on_servers (set_saved i (length (persisters c))) (set_persisters (persisters c ++ [d]) c) = (Ok tt, renewed i d c)) as Hrun.
  { unfold on_servers, part, set_saved. cbn. mpure. unfold expect. unfold id. rewrite Hp. done. }
  by rewrite (bind_ok _ _ _ _ _ Hrun).
Qed.

Lemma renewed_ok i d c st : kv_ok c st → disk st !! i = Some d → kv_ok (renewed i d c) st.
Proof.
  intros Hok Hd. pose proof (ko_disk _ _ Hok) as Hdisk.
  assert (∀ p, p ∈ saved (servs c) → p < length (persisters c)) as Hlt.
  { intros p [j Hj]%list_elem_of_lookup. destruct (Forall2_lookup_l _ _ _ _ _ Hdisk Hj) as (d' & _ & Hp). by eapply lookup_lt_Some. }
  destruct Hok. split; try done; cbn in *.
  - destruct ko_shape0. split; try done. cbn. by rewrite length_insert.
  - rewrite <-(list_insert_id (disk st) i d Hd). apply Forall2_insert.
    + eapply Forall2_impl; [exact Hdisk|]. cbn. intros p d' Hp. by apply lookup_app_l_Some.
    + by rewrite lookup_app_r, Nat.sub_diag by lia.
  - apply NoDup_alt. intros j k p. rewrite !list_lookup_insert. do 2 case_decide; [by destruct_and!; subst| | |].
    + intros [= <-] Hk%list_elem_of_lookup_2%Hlt. lia.
    + intros Hj%list_elem_of_lookup_2%Hlt [= <-]. lia.
    + rewrite NoDup_alt in ko_saved0. apply ko_saved0.
Qed.

(** What a server persists. *)
Definition save (i : nat) (d : bytes * bytes) : CM unit :=
  s ← get_servers; p ← expect (saved s !! i);
  on_persisters (save_state_and_snapshot (arc_persister (simple_persister p)) d.1 d.2).

Lemma save_ok i d c st : kv_ok c st → i < cfg_n c → ∃ c', save i d c = (Ok tt, c') ∧ kv_ok c' (with_disk (<[i := d]> (disk st)) st) ∧
  cfg_n c' = cfg_n c ∧ net c' = net c.
Proof.
  intros Hok Hi. destruct (saved_at c st i Hok Hi) as (p & d0 & Hp & Hd0 & Hps).
  exists (set_persisters (<[p := d]> (persisters c)) c). split_and!; [| |done|done].
  - unfold save. erewrite bind_ok; [|reflexivity]. erewrite bind_ok; [|unfold expect; rewrite Hp; reflexivity].
    unfold on_persisters, part. change (arc_persister (simple_persister p)) with (simple_persister (E := E) p).
    rewrite (save_run _ _ _ _ _ Hps). by destruct d.
  - destruct Hok. split; try done; cbn.
    apply Forall2_same_length_lookup. split; [rewrite length_insert; by eapply Forall2_length|].
    intros j q d' Hq. rewrite list_lookup_insert. case_decide as Hj.
    + destruct Hj as [<- _]. intros [= <-]. simplify_eq. apply list_lookup_insert_eq. by eapply lookup_lt_Some.
    + intros Hd'. rewrite list_lookup_insert_ne; [exact (Forall2_lookup_lr _ _ _ _ _ _ ko_disk0 Hq Hd')|]. intros ->. apply Hj.
      split; [|by eapply lookup_lt_Some]. rewrite NoDup_alt in ko_saved0. by eapply ko_saved0.
Qed.

(** ** Servers *)

Definition with_up (u : list bool) st : spec := mkSpec (on st) u (disk st) (clients st) (next st).

(** The configuration with another node of [i]. *)
Definition set_node (i : nat) (o : option Node) c : Config :=
  set_servers (mkMutex (mkServers (<[i := o]> (kvservers (servs c))) (saved (servs c)) (endnames (servs c))) (mx_poisoned (cfg_servers c))) c.

Lemma set_node_run i o o' c : kvservers (servs c) !! i = Some o' → on_servers (set_kvserver i o) c = (Ok tt, set_node i o c).
Proof. intros H. unfold on_servers, part, set_kvserver. mpure. unfold expect, id. by rewrite H. Qed.

Lemma up_insert i o c st : up st = (λ o, bool_decide (is_Some o)) <$> kvservers (servs c) →
  <[i := bool_decide (is_Some o)]> (up st) = (λ o, bool_decide (is_Some o)) <$> <[i := o]> (kvservers (servs c)).
Proof. intros ->. by rewrite list_fmap_insert. Qed.

(** The server [i] is taken from the network and its node is dropped. *)
Lemma stopped_ok i l c st : kv_ok c st → i < cfg_n c →
  let w := (delete_server (EncodeError := EncodeError) (DecodeError := DecodeError) (server_name i) (net c)).2 in
  kv_ok (set_lib l (set_node i None (set_net w c))) (with_up (<[i := false]> (up st)) st) ∧
  ∀ j, is_Some (servers (eps c) !! server_name j) → is_Some (servers (endpoints (core w)) !! server_name j).
Proof.
  intros Hok Hi w. unfold w. rewrite delete_server_run by apply Hok. cbn [snd]. clear w.
  destruct (servers (eps c) !! server_name i) as [s|] eqn:Hs; split.
  - pose proof (up_insert i None c st (ko_up _ _ Hok)) as Hup. destruct Hok. split; try done; cbn in *.
    + destruct ko_shape0. split; try done. cbn. by rewrite length_insert.
    + intros j node. rewrite list_lookup_insert. case_decide as Hj; [done|]. intros Hn.
      assert (j ≠ i) as Hne by (intros ->; apply Hj; split; [done|by rewrite (sh_kvservers _ _ ko_shape0)]).
      destruct (ko_alive0 j node Hn) as (srv & sc & rf & H1 & H2). exists srv, sc, rf. cbn.
      rewrite lookup_insert_ne by (by intros ?%server_name_inj). done.
    + intros j. rewrite list_lookup_insert, lookup_insert. case_decide as Hj.
      * destruct Hj as [<- _]. by rewrite decide_True.
      * case_decide; [done|apply ko_dead0].
    + intros j k nm. rewrite lookup_insert. case_decide as Hj; [|apply ko_named0].
      apply server_name_inj in Hj as <-. intros _. apply ko_named0. by rewrite Hs.
  - intros j Hj. cbn. rewrite lookup_insert. by case_decide.
  - pose proof (up_insert i None c st (ko_up _ _ Hok)) as Hup. destruct Hok. split; try done; cbn in *.
    + destruct ko_shape0. split; try done. cbn. by rewrite length_insert.
    + intros j node. rewrite list_lookup_insert. case_decide as Hj; [done|]. apply ko_alive0.
    + intros j. rewrite list_lookup_insert. case_decide as Hj; [destruct Hj as [<- _]; by rewrite Hs|apply ko_dead0].
  - by intros j Hj.
Qed.

Lemma shutdown_ok i c st : kv_ok c st → i < cfg_n c → ∃ c', shutdown_server i c = (Ok tt, c') ∧
  kv_ok c' (with_up (<[i := false]> (up st)) (with_links (server_links (λ a b, a = i ∨ b = i) false (on st)) st)) ∧
  cfg_n c' = cfg_n c ∧ ∀ j, is_Some (servers (eps c) !! server_name j) → is_Some (servers (eps c') !! server_name j).
Proof.
  intros Hok Hi.
  destruct (disconnect_links (name_of c) (ID c) (cfg_n c) (servs c) (λ _ _, eq_refl) (ko_shape _ _ Hok) i (all c) (net c) (on st))
    as (en' & Hrun & Hnames); [done|apply Forall_all|apply Hok|apply Hok|].
  assert (kv_ok (set_net (with_enabled en' (net c)) c) (with_links (server_links (λ a b, a = i ∨ b = i) false (on st)) st)) as Hok1.
  { eapply kv_ok_links; [done|exact Hnames|]. intros [a|ck] b nm Hnm; [|done].
    apply (name_lt_ok c st) in Hnm as [Hb Ha]; [|done]. cbn in Ha, Hb.
    assert (∀ x, x ∈ all c ↔ x < cfg_n c) as Hall by (intros x; unfold all; rewrite elem_of_seq; lia).
    pose proof (Hall a). pose proof (Hall b). unfold server_links, between. repeat case_decide; naive_solver. }
  set (c1 := set_net _ c) in *.
  destruct (saved_at _ _ i Hok1 Hi) as (p & d & Hp & Hd & Hps).
  destruct (lookup_lt_is_Some_2 (kvservers (servs c1)) i) as [o Ho]; [by rewrite (sh_kvservers _ _ (ko_shape _ _ Hok1))|].
  pose proof (renewed_ok i d c1 _ Hok1 Hd) as Hok2. set (w := (delete_server (server_name i) (net c1)).2).
  set (l := match o with Some kv0 => node_kill kv0 (lib c) | None => lib c end).
  exists (set_lib l (set_node i None (set_net w (renewed i d c1)))).
  destruct (stopped_ok i l (renewed i d c1) _ Hok2 Hi) as [Hok3 Hkn]. split_and!; [|exact Hok3|done|exact Hkn].
  unfold shutdown_server, with_servers. apply guarded_ok; [apply Hok|]. mpure.
  rewrite (bind_ok _ _ _ _ _ (on_net_run _ _ _ _ Hrun)). fold c1.
  erewrite bind_ok; [|apply on_net_run; rewrite delete_server_run by apply Hok1; reflexivity].
  assert (match servers (eps c1) !! server_name i with
    | Some _ => with_endpoints (mkEndpoints (enabled (eps c1)) (<[server_name i := None]> (servers (eps c1))) (connections (eps c1))) (net c1)
    | None => net c1 end = w) as -> by (unfold w; by rewrite delete_server_run by apply Hok1).
  erewrite bind_ok; [|apply (renew_run i p d (set_net w c1) Hp Hps)].
  erewrite bind_ok; [|reflexivity]. erewrite bind_ok; [|unfold expect; change (kvservers (servs (renewed i d (set_net w c1)))) with (kvservers (servs c1)); rewrite Ho; reflexivity].
  erewrite bind_ok; [|by apply (set_node_run i None o)].
  by destruct o.
Qed.

(** The network with a server for the nodes on it. *)
Record nodes_served (i : nat) (rf : RfNode) (node : Node) (w w' : NetWorld) : Prop := {
  ns_sound : poisoned (core w') = poisoned (core w);
  ns_enabled : enabled (endpoints (core w')) = enabled (endpoints (core w));
  ns_connections : connections (endpoints (core w')) = connections (endpoints (core w));
  ns_servers : servers (endpoints (core w')) = <[server_name i := Some (length (cores w))]> (servers (endpoints (core w)));
  ns_cores : ∃ id, cores w' = cores w ++ [mkServerCore (server_name i) id (<["kv" := kv_factory node]> {["raft" := raft_factory rf]}) 0];
}.

Lemma serve_nodes_run i rf node (w : NetWorld) : poisoned (core w) = false → ∃ w',
  serve_nodes rf node i w = (Ok tt, w') ∧ nodes_served i rf node w w'.
Proof.
  intros Hs. unfold serve_nodes, add_service, new_builder. cbn [sb_services sb_name]. rewrite lookup_empty. cbn [sb_services sb_name].
  rewrite insert_empty. change ({["raft" := raft_factory rf]} !! "kv") with (@None Factory).
  cbv beta iota. erewrite bind_ok; [|reflexivity]. cbn [sb_services sb_name].
  set (sc := mkServerCore (server_name i) (id_alloc w) (<["kv" := kv_factory node]> {["raft" := raft_factory rf]}) 0).
  set (w1 := mkWorld _ _ _ _ _ _ _ _ _).
  assert (cores w1 !! length (cores w) = Some sc) as Hc.
  { unfold w1, sc. cbn. by rewrite lookup_app_r, Nat.sub_diag by lia. }
  eexists. split; [rewrite (add_server_run _ sc w1 Hs Hc); reflexivity|]. split; try done. by eexists.
Qed.

(** The configuration after [start_server], but for the persister. *)
Definition started (i : nat) (node : Node) (w : NetWorld) (l : Lib) c : Config :=
  set_net w (set_lib l (set_servers (mkMutex (mkServers (<[i := Some node]> (kvservers (servs c))) (saved (servs c))
    (<[i := new_names (ID c) (cfg_n c)]> (endnames (servs c)))) (mx_poisoned (cfg_servers c)))
    (set_ID (ID c + N.of_nat (cfg_n c))%N c))).

Definition new_server st (i n : nat) : spec :=
  mkSpec (no_links (inl i) (on st)) (<[i := true]> (up st)) (disk st) (clients st) (next st + N.of_nat n).

Lemma kv_started_shape i node w l c : shape (cfg_n c) (servs c) → shape (cfg_n c) (servs (started i node w l c)).
Proof.
  intros []. split; cbn; try done; try by rewrite length_insert.
  intros j names. rewrite list_lookup_insert. case_decide; [|by apply sh_rows0]. intros [= <-]. apply length_new_names.
Qed.

Lemma started_name i node w l c sl : shape (cfg_n c) (servs c) → i < cfg_n c →
  name_of (started i node w l c) sl = if decide (sl.1 = inl i) then new_names (ID c) (cfg_n c) !! sl.2 else name_of c sl.
Proof.
  intros Hs Hi. destruct sl as [[j|ck] k]; unfold name_of, endname; cbn; [|by case_decide].
  destruct (decide (j = i)) as [->|Hne].
  - rewrite decide_True by done. rewrite list_lookup_insert_eq; [done|]. by rewrite (sh_endnames _ _ Hs).
  - rewrite decide_False by congruence. by rewrite list_lookup_insert_ne.
Qed.

Lemma kv_started_ok i rf node w1 w2 l c st : kv_ok c st → i < cfg_n c →
  ends_made 0 (new_names (ID c) (cfg_n c)) (net c) w1 → nodes_served i rf node w1 w2 →
  kv_ok (started i node w2 l c) (new_server st i (cfg_n c)) ∧
  (∀ j, is_Some (servers (eps c) !! server_name j) → is_Some (servers (endpoints (core w2)) !! server_name j)) ∧
  is_Some (servers (endpoints (core w2)) !! server_name i).
Proof.
  intros Hok Hi [] []. pose proof (kv_started_shape i node w2 l c (ko_shape _ _ Hok)) as Hsh.
  pose proof (λ sl, started_name i node w2 l c sl (ko_shape _ _ Hok) Hi) as Hname.
  destruct ns_cores0 as [id Hcores]. rewrite em_cores in Hcores.
  assert (servers (endpoints (core w2)) = <[server_name i := Some (length (cores (net c)))]> (servers (eps c))) as Hservers
    by (by rewrite ns_servers0, em_servers, em_cores).
  assert (∀ j, j ≠ i → servers (endpoints (core w2)) !! server_name j = servers (eps c) !! server_name j) as Hsj.
  { intros j Hj. rewrite Hservers, lookup_insert_ne; [done|]. by intros ?%server_name_inj. }
  pose proof (up_insert i (Some node) c st (ko_up _ _ Hok)) as Hup. split_and!.
  - destruct Hok. split; try done; cbn in *.
    + by rewrite ns_sound0, em_sound.
    + by rewrite ko_next0.
    + rewrite ns_enabled0, ns_connections0. apply (names_ok_fresh _ _ _ _ _ ko_names0 (inl i) (cfg_n c)); done.
    + intros ck names H. destruct (ko_clerks0 _ _ H) as (? & ? & k & ? & ?). split_and!; [done..|]. exists k. split; [done|lia].
    + intros j nd. rewrite list_lookup_insert. case_decide as Hj.
      * destruct Hj as [<- _]. intros [= <-]. exists (length (cores (net c))), (mkServerCore (server_name i) id (<["kv" := kv_factory node]> {["raft" := raft_factory rf]}) 0), rf.
        cbn. rewrite Hservers, lookup_insert_eq, Hcores, lookup_app_r, Nat.sub_diag by lia. done.
      * intros Hn. assert (j ≠ i) as Hne by (intros ->; apply Hj; split; [done|by rewrite (sh_kvservers _ _ ko_shape0)]).
        destruct (ko_alive0 j nd Hn) as (srv & sc & rf' & H1 & H2 & H3). exists srv, sc, rf'. cbn. rewrite Hsj by done.
        split_and!; [done|rewrite Hcores; by apply lookup_app_l_Some|apply H3|apply H3].
    + intros j. rewrite list_lookup_insert. case_decide as Hj; [done|]. intros Hn.
      assert (j ≠ i) as Hne by (intros ->; apply Hj; split; [done|by rewrite (sh_kvservers _ _ ko_shape0)]).
      rewrite Hsj by done. by apply ko_dead0.
    + intros j k nm. destruct (decide (j = i)) as [->|Hne].
      * intros _. pose proof (Hname (inl i, k)) as Hn. rewrite decide_True in Hn by done. unfold name_of in Hn. cbn in Hn. rewrite Hn.
        intros [_ ->]%lookup_new_names. apply fmt_name_nonempty.
      * rewrite Hsj by done. pose proof (Hname (inl j, k)) as Hn. rewrite decide_False in Hn by (cbn; congruence). unfold name_of in Hn. cbn in Hn. rewrite Hn.
        apply ko_named0.
  - intros j Hj. destruct (decide (j = i)) as [->|Hne]; [by rewrite Hservers, lookup_insert_eq|by rewrite Hsj].
  - by rewrite Hservers, lookup_insert_eq.
Qed.

Lemma new_kvserver_run ends i p c : ∃ kvs l, new_kvserver ends i p c = (Ok kvs, set_lib l c).
Proof.
  unfold new_kvserver. mpure. unfold modify, mbind, M_bind, gets, id. cbn.
  destruct (kvserver_new _ _ _ _ _ _) as [kvs l]. by exists kvs, l.
Qed.

Lemma new_node_run kvs c : ∃ node l, KvConfig.new_node kvs c = (Ok node, set_lib l c).
Proof.
  unfold KvConfig.new_node. mpure. unfold modify, mbind, M_bind, gets, id. cbn.
  destruct (node_new _ _) as [node l]. by exists node, l.
Qed.

Lemma start_ok i c st : kv_ok c st → i < cfg_n c → (ID c + N.of_nat (cfg_n c) < USIZE)%N → ∃ c', start_server i c = (Ok tt, c') ∧
  kv_ok c' (new_server st i (cfg_n c)) ∧ cfg_n c' = cfg_n c ∧
  (∀ j, is_Some (servers (eps c) !! server_name j) → is_Some (servers (eps c') !! server_name j)) ∧
  is_Some (servers (eps c') !! server_name i).
Proof.
  intros Hok Hi Hid. destruct (saved_at c st i Hok Hi) as (p & d & Hp & Hd & Hps).
  pose proof (renewed_ok i d c st Hok Hd) as Hok1. pose proof (ko_shape _ _ Hok) as Hsh.
  destruct (make_ends_run 0 (new_names (ID c) (cfg_n c)) (net c) (ko_sound _ _ Hok) (NoDup_new_names _ _)) as (ends & w1 & Hends & Hw1 & _).
  set (names := new_names (ID c) (cfg_n c)) in *.
  set (c1 := set_servers (mkMutex (mkServers (kvservers (servs c)) (saved (servs c)) (<[i := names]> (endnames (servs c)))) (mx_poisoned (cfg_servers c)))
    (set_ID (ID c + N.of_nat (cfg_n c))%N c)).
  set (c2 := renewed i d (set_net w1 c1)).
  destruct (new_kvserver_run ends i (length (persisters c)) c2) as (kvs & l1 & Hkvs).
  destruct (new_node_run kvs (set_lib l1 c2)) as (node & l & Hnode).
  set (c3 := set_node i (Some node) (set_lib l (set_lib l1 c2))).
  destruct (serve_nodes_run i (kvserver_rf kvs) node (net c3)) as (w2 & Hserve & Hw2).
  { cbn. rewrite (em_sound _ _ _ _ Hw1). apply Hok. }
  destruct (kv_started_ok i (kvserver_rf kvs) node w1 w2 l (renewed i d c) st Hok1 Hi Hw1 Hw2) as (Hfin & Hkn & Hki).
  exists (set_net w2 c3). split_and!; [|exact Hfin|done|exact Hkn|exact Hki].
  unfold start_server, with_servers. apply guarded_ok; [apply Hok|]. erewrite bind_ok; [|reflexivity].
  erewrite bind_ok; [|unfold on_ID, part; rewrite uniqstrings_run by done; reflexivity].
  change ((λ j, fmt_u64 (ID c + N.of_nat j)) <$> seq 0 (cfg_n c)) with names.
  assert (on_servers (set_endnames i names) (set_ID (ID c + N.of_nat (cfg_n c))%N c) = (Ok tt, c1)) as Hset.
  { unfold on_servers, part, set_endnames. mpure. unfold expect, id. cbn.
    destruct (lookup_lt_is_Some_2 (endnames (servs c)) i) as [row Hrow]; [by rewrite (sh_endnames _ _ Hsh)|]. by rewrite Hrow. }
  rewrite (bind_ok _ _ _ _ _ Hset).
  assert (on_net (collect make_end (enumerate names)) c1 = (Ok ends, set_net w1 c1)) as Hends'.
  { apply on_net_run. change (enumerate names) with (imap (λ j nm, (0 + j, nm)) names). exact Hends. }
  rewrite (bind_ok _ _ _ _ _ Hends'). rewrite (bind_ok _ _ _ _ _ (renew_run i p d (set_net w1 c1) Hp Hps)).
  change (length (persisters (set_net w1 c1))) with (length (persisters c)). fold c2.
  rewrite (bind_ok _ _ _ _ _ Hkvs), (bind_ok _ _ _ _ _ Hnode).
  destruct (lookup_lt_is_Some_2 (kvservers (servs c)) i) as [o Ho]; [by rewrite (sh_kvservers _ _ Hsh)|].
  erewrite bind_ok; [|by apply (set_node_run i (Some node) o)]. fold c3. by apply on_net_run.
Qed.

(** ** Sequences of operations *)

Inductive kv_op :=
| Start (i : nat)
| Shutdown (i : nat)
| ConnectAll
| Partition (p1 p2 : list nat)
| MakeClient (shuffle : list Client → list Client) (to : list nat)
| ConnectClient (ck : Clerk) (to : list nat)
| DeleteClient (ck : Clerk)
| Save (i : nat) (d : bytes * bytes).

Definition kv_step (o : kv_op) : CM unit :=
  match o with
  | Start i => start_server i
  | Shutdown i => shutdown_server i
  | ConnectAll => connect_all
  | Partition p1 p2 => partition p1 p2
  | MakeClient shuffle to => make_client shuffle to;; mret tt
  | ConnectClient ck to => connect_client ck to
  | DeleteClient ck => delete_client ck
  | Save i d => save i d
  end.

(** What the operation asks for, in a configuration of [n] servers. *)
Definition spec_step (n : nat) (st : spec) (o : kv_op) : spec :=
  match o with
  | Start i => new_server st i n
  | Shutdown i => with_up (<[i := false]> (up st)) (with_links (server_links (λ a b, a = i ∨ b = i) false (on st)) st)
  | ConnectAll => with_links (server_links (λ _ _, True) true (on st)) st
  | Partition p1 p2 => with_links (split_links p1 p2 (on st)) st
  | MakeClient _ to => let ck := fmt_u64 (next st + N.of_nat n) in
      with_links (client_links ck to (no_links (inr ck) (on st))) (new_client st ck n)
  | ConnectClient ck to => with_links (client_links (clerk_name ck) to (on st)) st
  | DeleteClient ck => with_clients (clients st ∖ {[clerk_name ck]}) st
  | Save i d => with_disk (<[i := d]> (disk st)) st
  end.

(** When the operation makes sense. *)
Definition allowed (n : nat) (st : spec) (o : kv_op) : Prop :=
  match o with
  | Start i | Shutdown i | Save i _ => i < n
  | ConnectAll | DeleteClient _ => True
  | Partition p1 p2 => Forall (λ j, j < n) p1 ∧ Forall (λ j, j < n) p2 ∧ ∀ i, i ∈ p1 → i ∉ p2
  | MakeClient _ to => Forall (λ j, j < n) to
  | ConnectClient ck to => clerk_name ck ∈ clients st ∧ Forall (λ j, j < n) to
  end.

Fixpoint all_allowed (n : nat) (st : spec) (os : list kv_op) : Prop :=
  match os with
  | [] => True
  | o :: os' => allowed n st o ∧ all_allowed n (spec_step n st o) os'
  end.

Definition spec_steps (n : nat) (st : spec) (os : list kv_op) : spec := foldl (spec_step n) st os.

Lemma next_mono n st o : (next st <= next (spec_step n st o))%N.
Proof. destruct o; cbn; lia. Qed.

Lemma nexts_mono n st os : (next st <= next (spec_steps n st os))%N.
Proof.
  revert st. induction os as [|o os IH]; intros st; cbn; [done|]. etrans; [apply (next_mono n _ o)|apply IH].
Qed.

Definition known c (j : nat) : Prop := is_Some (servers (eps c) !! server_name j).

Context (Hclerk : ∀ nm ends, clerk_name (clerk_new nm ends) = nm).

Lemma kv_step_ok o c st : kv_ok c st → allowed (cfg_n c) st o → (next (spec_step (cfg_n c) st o) < USIZE)%N → ∃ c',
  kv_step o c = (Ok tt, c') ∧ kv_ok c' (spec_step (cfg_n c) st o) ∧ cfg_n c' = cfg_n c ∧
  (∀ j, known c j → known c' j) ∧ ∀ i, o = Start i → known c' i.
Proof using Hclerk.
  intros Hok Hal Hid. pose proof (ko_next _ _ Hok) as Hnext. destruct o; cbn in Hal, Hid |- *.
  - destruct (start_ok i c st Hok Hal) as (c' & ? & ? & ? & ? & ?); [lia|]. exists c'. split_and!; try done. by intros ? [= <-].
  - destruct (shutdown_ok i c st Hok Hal) as (c' & ? & ? & ? & ?). by exists c'.
  - destruct (connect_all_ok c st Hok) as (en' & ? & ?). eexists. by split_and!.
  - destruct Hal as (? & ? & ?). destruct (partition_ok p1 p2 c st Hok) as (en' & ? & ?); [done..|]. eexists. by split_and!.
  - destruct (make_client_ok shuffle to c st Hclerk Hok) as (ends & c' & Hrun & Hok' & Hn & Hsv); [lia|done|]. exists c'.
    rewrite Hnext. split_and!; try done; [by rewrite (bind_ok _ _ _ _ _ Hrun)|]. intros j. unfold known. by rewrite Hsv.
  - destruct Hal as [? ?]. destruct (connect_client_ok (clerk_name ck) to c st Hok) as (en' & ? & ?); [done..|]. eexists. by split_and!.
  - destruct (delete_client_ok ck c st Hok) as (c' & ? & ? & ? & Hnet). exists c'. split_and!; try done. intros j. unfold known. by rewrite Hnet.
  - destruct (save_ok i d c st Hok Hal) as (c' & ? & ? & ? & Hnet). exists c'. split_and!; try done. intros j. unfold known. by rewrite Hnet.
Qed.

Lemma kv_steps_ok os c st : kv_ok c st → all_allowed (cfg_n c) st os → (next (spec_steps (cfg_n c) st os) < USIZE)%N → ∃ c',
  for_each kv_step os c = (Ok tt, c') ∧ kv_ok c' (spec_steps (cfg_n c) st os) ∧ cfg_n c' = cfg_n c ∧
  (∀ j, known c j → known c' j) ∧ ∀ i, Start i ∈ os → known c' i.
Proof using Hclerk.
  revert c st. induction os as [|o os IH]; intros c st Hok Hal Hid.
  { exists c. split_and!; try done. by intros i ?%not_elem_of_nil. }
  destruct Hal as [Ho Hal]. destruct (kv_step_ok o c st Hok Ho) as (c1 & Hrun & Hok1 & Hn & Hk1 & Hs1).
  { eapply N.le_lt_trans; [apply (nexts_mono (cfg_n c) _ os)|exact Hid]. }
  rewrite <-Hn in Hal, Hid. destruct (IH c1 _ Hok1) as (c2 & Hruns & Hok2 & Hn2 & Hk2 & Hs2); [by rewrite Hn in *|by rewrite Hn in *|].
  exists c2. cbn [for_each]. rewrite (bind_ok _ _ _ _ _ Hrun). rewrite Hn in Hok2. split_and!; [done|exact Hok2|congruence|auto|].
  intros i [Hi|Hi]%elem_of_cons; [apply Hk2; by eapply Hs1|by apply Hs2].
Qed.

(** ** A new configuration *)

Definition nothing (n : nat) (id : N) : spec := mkSpec (λ _ _, false) (replicate n false) (replicate n ([], [])) ∅ id.

Lemma kv_blank_ok n m (a : App) id now l : kv_ok (blank n m (world (new_network a)) id now l) (nothing n id).
Proof.
  set (c := blank n m (world (new_network a)) id now l : Config).
  assert (∀ i j nm, endname (servs c) i j = Some nm → nm = "") as Hnm.
  { intros i j nm. unfold endname. cbn. intros (row & [-> _]%lookup_replicate & [-> _]%lookup_replicate)%bind_Some. done. }
  assert (∀ sl nm, name_of c sl = Some nm → nm = "") as Hname.
  { intros [[i|ck] j] nm; [apply Hnm|]. unfold name_of. cbn. by rewrite lookup_empty. }
  split; try done.
  - split; cbn; rewrite ?length_replicate, ?length_seq; try done. intros i names [-> _]%lookup_replicate. by rewrite length_replicate.
  - cbn. apply Forall2_same_length_lookup. rewrite length_seq, length_replicate. split; [done|].
    intros i p d [-> Hi]%lookup_seq [-> _]%lookup_replicate. apply lookup_replicate. split; [done|lia].
  - apply NoDup_seq.
  - split; [by intros sl nm ->%Hname|by intros sl sl' nm ->%Hname|by intros sl nm ->%Hname|by intros sl nm ->%Hname].
  - cbn. by rewrite fmap_replicate.
  - intros i node. cbn. by intros [? _]%lookup_replicate.
  - intros i j nm. cbn. rewrite lookup_empty. by intros [].
Qed.

(** [Config::new] starts all the servers and connects them. *)
Definition started_all (n : nat) (id : N) : spec := spec_steps n (nothing n id) ((Start <$> seq 0 n) ++ [ConnectAll]).

Lemma starts_allowed n id : all_allowed n (nothing n id) (Start <$> seq 0 n) ∧
  next (spec_steps n (nothing n id) (Start <$> seq 0 n)) = (id + N.of_nat (n * n))%N.
Proof.
  assert (∀ st os, (∀ o, o ∈ os → ∃ i, o = Start i ∧ i < n) →
    all_allowed n st os ∧ next (spec_steps n st os) = (next st + N.of_nat (length os * n))%N) as H.
  { intros st os. revert st. induction os as [|o os IH]; intros st Hos; [split; [done|cbn; lia]|].
    destruct (Hos o) as (i & -> & Hi); [by left|]. destruct (IH (spec_step n st (Start i))) as [H1 H2]; [intros; apply Hos; by right|].
    split; [by split|]. change (spec_steps n st (Start i :: os)) with (spec_steps n (spec_step n st (Start i)) os).
    rewrite H2. cbn. lia. }
  destruct (H (nothing n id) (Start <$> seq 0 n)) as [Hal Hnext].
  { intros o (i & -> & Hi%elem_of_seq)%list_elem_of_fmap. exists i. split; [done|lia]. }
  split; [done|]. by rewrite Hnext, length_fmap, length_seq.
Qed.

Lemma started_all_next n id : (id + N.of_nat (n * n) <= next (started_all n id))%N.
Proof. unfold started_all, spec_steps. rewrite foldl_app. cbn. by rewrite <-(proj2 (starts_allowed n id)). Qed.

Lemma kv_new_ok n unreliable m a id now l : (id + N.of_nat (n * n) < USIZE)%N → ∃ c,
  new n unreliable m a id now l = (Ok tt, c) ∧ kv_ok c (started_all n id) ∧ cfg_n c = n ∧ ∀ j, j < n → known c j.
Proof using Hclerk.
  intros Hid. set (c0 := blank n m (world (new_network a)) id now l : Config).
  destruct (starts_allowed n id) as [Hal Hnext].
  destruct (kv_steps_ok (Start <$> seq 0 n) c0 (nothing n id) (kv_blank_ok n m a id now l) Hal) as (c1 & Hrun1 & Hok1 & Hn1 & _ & Hk1).
  { cbn [cfg_n c0 blank]. rewrite Hnext. exact Hid. }
  destruct (connect_all_ok c1 _ Hok1) as (en' & Hrun2 & Hok2). set (c2 := set_net _ c1) in *. rewrite for_each_fmap in Hrun1.
  exists (set_net (set_reliable (negb unreliable) (net c2)).2 c2). split_and!.
  - unfold new. fold c0. rewrite (bind_ok _ _ _ _ _ Hrun1), (bind_ok _ _ _ _ _ Hrun2). done.
  - unfold started_all, spec_steps. rewrite foldl_app. cbn [foldl]. destruct Hok2. by split.
  - done.
  - intros j Hj. apply Hk1, list_elem_of_fmap. exists j. split; [done|]. apply elem_of_seq. lia.
Qed.
End config.
