(* ===== verification/KvHarnessTheorems.v ===== *)
(** * Properties of the test configuration of the key-value labs

    The configuration after any operations of a test is what the test asked for; and how
    [make_partition] divides the servers. *)

From S2P Require Import Prelude Conc Rpc RpcSpec Persister Harness KvConfig KvConfigSpec.

Section kv.
Context {EncodeError DecodeError Factory Hooks App KvServer RfNode Node Clerk Lib : Type}.
Abbreviation Config := (@Config EncodeError DecodeError Factory Hooks App Node Lib).
Context {kv : @KvNode Factory KvServer RfNode Node Clerk Lib}.
Implicit Types (c : Config) (st : spec).

(** ** Refinement *)

(** What the network says about the client of the owner [o] for the server [j]. *)
Definition client_ok st c (o : owner) (j : nat) : Prop := ∃ nm srv,
  name_of c (o, j) = Some nm ∧
  end_info nm (net c) = (Ok (mkEndInfo (on st o j) (reliable (core (net c))) (long_reordering (core (net c))) srv), net c) ∧
  match srv with
  | Some s => up st !! j = Some true ∧ ∃ node sc rf, kvservers (inside (cfg_servers c)) !! j = Some (Some node) ∧
      cores (net c) !! s = Some sc ∧ core_name sc = server_name j ∧ services sc = <["kv" := kv_factory node]> {["raft" := raft_factory rf]}
  | None => up st !! j = Some false
  end.

Lemma kv_config_run n unreliable m a id now l os :
  (∀ nm ends, clerk_name (clerk_new nm ends) = nm) →
  all_allowed n (started_all n id) os → (next (spec_steps n (started_all n id) os) < USIZE)%N →
  ∃ c0 c : Config, new n unreliable m a id now l = (Ok tt, c0) ∧ for_each kv_step os c0 = (Ok tt, c) ∧
    kv_ok c (spec_steps n (started_all n id) os) ∧ cfg_n c = n ∧ ∀ j, j < n → known c j.
Proof.
  intros Hck Hal Hid. destruct (kv_new_ok (EncodeError := EncodeError) (DecodeError := DecodeError) (Hooks := Hooks) Hck n unreliable m a id now l) as (c0 & Hnew & Hok & Hn & Hkn).
  { eapply N.le_lt_trans; [|exact Hid]. etrans; [|apply nexts_mono]. apply started_all_next. }
  destruct (kv_steps_ok Hck os c0 _ Hok) as (c & Hrun & Hok' & Hn' & Hkn' & _); [by rewrite Hn|by rewrite Hn|]. rewrite Hn in Hok', Hn'.
  exists c0, c. split_and!; [done..|]. intros j Hj. by apply Hkn', Hkn.
Qed.

Lemma client_ok_config c st o j : kv_ok c st → (∃ nm, name_of c (o, j) = Some nm ∧ nm ≠ "") → j < cfg_n c → known c j → client_ok st c o j.
Proof.
  intros Hok (nm & Hnm & Hne) Hj [s Hs]. pose proof (ko_names _ _ Hok) as Hnames.
  destruct (lookup_lt_is_Some_2 (kvservers (inside (cfg_servers c))) j) as [nd Hnd]; [by rewrite (sh_kvservers _ _ (ko_shape _ _ Hok))|].
  exists nm, s. split_and!; [done| |].
  - rewrite end_info_eq, (ko_sound _ _ Hok), (na_conn _ _ _ _ _ Hnames _ _ Hnm Hne), (na_on _ _ _ _ _ Hnames _ _ Hnm Hne). cbn.
    by rewrite Hs.
  - rewrite (ko_up _ _ Hok), list_lookup_fmap, Hnd. destruct nd as [node|]; simpl.
    + destruct (ko_alive _ _ Hok _ _ Hnd) as (srv & sc & rf & H1 & H2 & H3). simplify_eq. split; [done|]. by exists node, sc, rf.
    + pose proof (ko_dead _ _ Hok _ Hnd) as Hd. rewrite Hs in Hd. simpl in Hd. by subst.
Qed.

(** The size of the largest of [ds]. *)
Definition largest (len : bytes * bytes → nat) (ds : list (bytes * bytes)) : nat := foldr max 0 (len <$> ds).

Lemma size_loop_run read (len : bytes * bytes → nat) ps ds size c :
  (∀ p d, persisters c !! p = Some d → ∃ b, run (read p) (persisters c) = Some (Ok b, persisters c) ∧ length b = len d) →
  Forall2 (λ p d, persisters c !! p = Some d) ps ds →
  size_loop read ps size c = (Ok (N.max size (N.of_nat (largest len ds))), c).
Proof.
  intros Hread H. revert size. induction H as [|p d ps ds Hp _ IH]; intros size; cbn [size_loop].
  { unfold largest. cbn. by rewrite N.max_0_r. }
  destruct (Hread p d Hp) as (b & Hrun & Hlen).
  assert (on_persisters (read p) c = (Ok b, c)) as Hon by (unfold on_persisters, part; rewrite Hrun; by destruct c).
  rewrite (bind_ok _ _ _ _ _ Hon), IH, Hlen. do 2 f_equal. unfold greater, largest. cbn [fmap list_fmap foldr].
  destruct (N.ltb_spec size (N.of_nat (len d))); lia.
Qed.

Lemma sizes_run read (len : bytes * bytes → nat) ps ds c :
  (∀ p d, persisters c !! p = Some d → ∃ b, run (read p) (persisters c) = Some (Ok b, persisters c) ∧ length b = len d) →
  Forall2 (λ p d, persisters c !! p = Some d) ps ds →
  size_loop read ps 0 c = (Ok (N.of_nat (largest len ds)), c).
Proof. intros Hread H. by rewrite (size_loop_run read len ps ds 0 c Hread H), N.max_0_l. Qed.

(** C22: A service of any number of servers is brought up by [Config::new], and then any
    sequence of starts, shutdowns, partitions, connections, new and deleted clerks and
    writes to the persisters runs without a panic. Afterwards the network is the one that
    the operations asked for, as the specification adds them up: the client of a server or
    of a clerk for a server works exactly when it was connected last, its requests go to
    the running instance of the server if there is one, and the state of a server has
    survived all its restarts ([log_size] and [snapshot_size] measure the latest). *)
Theorem kv_config_refines n unreliable m a id now l os :
  (∀ nm ends, clerk_name (clerk_new nm ends) = nm) →
  all_allowed n (started_all n id) os → (next (spec_steps n (started_all n id) os) < USIZE)%N →
  ∃ c0 c : Config, new n unreliable m a id now l = (Ok tt, c0) ∧ for_each kv_step os c0 = (Ok tt, c) ∧
  let st := spec_steps n (started_all n id) os in
  (∀ i j, i < n → j < n → client_ok st c (inl i) j) ∧
  (∀ ck j, ck ∈ clients st → j < n → client_ok st c (inr ck) j) ∧
  log_size c = (Ok (N.of_nat (largest (λ d, length d.1) (disk st))), c) ∧
  snapshot_size c = (Ok (N.of_nat (largest (λ d, length d.2) (disk st))), c).
Proof.
  intros Hck Hal Hid.
  destruct (kv_config_run n unreliable m a id now l os Hck Hal Hid) as (c0 & c & Hnew & Hrun & Hok' & Hn' & Hk).
  exists c0, c. split; [done|]. split; [done|]. intros st. fold st in Hok'. split_and!.
  - intros i j Hi Hj. apply client_ok_config; [done| |by rewrite Hn'|by apply Hk].
    destruct (end_of_run n (inside (cfg_servers c)) i j (net c)) as (nm & Hnm & _); [rewrite <-Hn'; apply Hok'|done|done|].
    exists nm. split; [done|]. apply (ko_named _ _ Hok' i j); [by apply Hk|exact Hnm].
  - intros ck j Hc Hj. apply client_ok_config; [done| |by rewrite Hn'|by apply Hk].
    rewrite (ko_clients _ _ Hok') in Hc. apply elem_of_dom in Hc as [names Hnames].
    destruct (ko_clerks _ _ Hok' _ _ Hnames) as (Hlen & Hne & _). rewrite Hn' in Hlen.
    destruct (lookup_lt_is_Some_2 names j) as [nm Hnm]; [by rewrite Hlen|]. exists nm. unfold name_of. cbn. rewrite Hnames. split; [done|].
    rewrite Forall_forall in Hne. by eapply Hne, list_elem_of_lookup_2.
  - unfold log_size, with_servers. apply guarded_ok; [apply Hok'|]. mpure.
    apply sizes_run; [|apply Hok']. intros p d Hp. eexists. split; [by apply raft_state_run|done].
  - unfold snapshot_size, with_servers. apply guarded_ok; [apply Hok'|]. mpure.
    apply sizes_run; [|apply Hok']. intros p d Hp. eexists. split; [by apply snapshot_run|done].
Qed.

(** ** Requests in a test *)

Context {HF : @HandlerFactory EncodeError DecodeError Factory Hooks App}.
Context {RH : @RpcHooks EncodeError DecodeError Factory Hooks App}.

(** A client that is off, or whose server is down, reaches no one. *)
Lemma client_unreachable st c o j nm : kv_ok c st → name_of c (o, j) = Some nm → nm ≠ "" → known c j →
  on st o j = false ∨ kvservers (inside (cfg_servers c)) !! j = Some None → unreachable nm (net c).
Proof.
  intros Hok Hnm Hne [s Hs] Hoff. pose proof (ko_names _ _ Hok) as Hnames. split; [apply Hok|].
  exists (on st o j). split; [exact (na_on _ _ _ _ _ Hnames _ _ Hnm Hne)|].
  rewrite (na_conn _ _ _ _ _ Hnames _ _ Hnm Hne). exists s. split; [done|]. destruct Hoff as [|Hd]; [by left|right].
  pose proof (ko_dead _ _ Hok _ Hd) as H. cbn in Hs. rewrite Hs in H. done.
Qed.

(** A client that is on is attached to the running instance of its server. *)
Lemma client_attached st c o j nm node : kv_ok c st → name_of c (o, j) = Some nm → nm ≠ "" →
  on st o j = true → kvservers (inside (cfg_servers c)) !! j = Some (Some node) →
  ∃ srv sc rf, attached nm srv sc (net c) ∧ services sc = <["kv" := kv_factory node]> {["raft" := raft_factory rf]}.
Proof.
  intros Hok Hnm Hne Hon Hup. pose proof (ko_names _ _ Hok) as Hnames.
  destruct (ko_alive _ _ Hok _ _ Hup) as (srv & sc & rf & H1 & H2 & H3 & H4). exists srv, sc, rf. split; [|done].
  split; [apply Hok| | |by rewrite H3|done].
  - rewrite (na_on _ _ _ _ _ Hnames _ _ Hnm Hne). cbn. by rewrite Hon.
  - by rewrite (na_conn _ _ _ _ _ Hnames _ _ Hnm Hne), H3.
Qed.

(** C23: Requests of the key-value service after any operations of a test, by a server or
    by a clerk [o] to the server [j], when nothing else runs. When the two are not
    connected or [j] is down, the request times out and no server sees it. Otherwise it
    runs the handler of the instance of [j] that was started last: on a network that loses
    neither it nor its reply, the answer is what the handler of that instance answers and
    what the handler did is all that was done. *)
Theorem kv_requests n unreliable m a id now l os c0 c d rpc o j :
  (∀ nm ends, clerk_name (clerk_new nm ends) = nm) →
  all_allowed n (started_all n id) os → (next (spec_steps n (started_all n id) os) < USIZE)%N →
  new n unreliable m a id now l = (Ok tt, c0) → for_each kv_step os c0 = (Ok tt, c) →
  name_of c (o, j) = Some (client_name rpc) → client_name rpc ≠ "" →
  let st := spec_steps n (started_all n id) os in
  if on st o j && bool_decide (up st !! j = Some true)
  then ∃ node, kvservers (inside (cfg_servers c)) !! j = Some (Some node) ∧
    ∀ buf mtd rest r w', cells (net c) !! hooks rpc = Some (mkHookCell None false) →
      req rpc = Some buf → split_dot (fq_name rpc) = "kv" :: mtd :: rest →
      app_only (handler (kv_factory node) mtd buf) → run (handler (kv_factory node) mtd buf) (net c) = Some (r, w') →
      run_steps (handler (kv_factory node) mtd buf) (net c) ≤ trues (d_sched d) → request_lost d (net c) = false → reply_lost d (net c) = false →
      ∃ srv ts, run (network_process_rpc d rpc) (net c) = Some (r, handled srv (app w') ts (net c))
  else ∃ ms, run (network_process_rpc d rpc) (net c) = Some (Err Timeout, leave (app (net c)) [ms] (counted (net c))).
Proof.
  intros Hck Hal Hid Hnew Hrun Hnm Hne st.
  destruct (kv_config_run n unreliable m a id now l os Hck Hal Hid) as (c0' & c' & Hnew' & Hrun' & Hok & Hn & Hkn). fold st in Hok.
  rewrite Hnew in Hnew'. injection Hnew' as <-. rewrite Hrun in Hrun'. injection Hrun' as <-.
  destruct (name_lt_ok c st o j _ Hok Hnm) as [Hj _]. rewrite Hn in Hj. specialize (Hkn j Hj).
  destruct (lookup_lt_is_Some_2 (kvservers (inside (cfg_servers c))) j) as [nd Hnd]; [by rewrite (sh_kvservers _ _ (ko_shape _ _ Hok)), Hn|].
  assert (up st !! j = Some (bool_decide (is_Some nd))) as Hup by (by rewrite (ko_up _ _ Hok), list_lookup_fmap, Hnd).
  destruct (on st o j) eqn:Hon; [destruct nd as [node|]|]; rewrite ?Hup; cbn [andb].
  - rewrite bool_decide_true by done. exists node. split; [done|]. intros buf mtd rest r w' Hcell Hreq Hfq Happ Hh Hst Hq Hp.
    destruct (client_attached st c o j _ node Hok Hnm Hne Hon Hnd) as (srv & sc & rf & Hat & Hsv).
    assert (handles rpc srv sc (run_steps (handler (kv_factory node) mtd buf) (net c)) r (app w') (net c)) as Hhs.
    { split; [done|done|]. exists buf, "kv", mtd, rest, (kv_factory node), w'. by rewrite Hsv, lookup_insert_eq. }
    destruct (network_process_rpc_served d rpc srv sc _ r (app w') (net c) Hhs Hq Hst) as [ts Hts].
    exists srv, ts. rewrite Hts, Hp. by destruct r.
  - rewrite bool_decide_false by done. eapply network_process_rpc_unreachable, client_unreachable; eauto.
  - eapply network_process_rpc_unreachable, client_unreachable; eauto.
Qed.

(** ** Partitions around the leader *)

(** The node says that it is the leader. *)
Definition leading c (x : nat * option Node) : bool := match x.2 with Some nd => node_is_leader nd (lib c) | None => false end.

(** The first leader, or the server 0. *)
Definition first_leader c : nat :=
  default 0 (fst <$> head (filter (λ x, leading c x = true) (enumerate (kvservers (inside (cfg_servers c)))))).

Lemma find_leader_run kvs c : run (find_leader kvs) c =
  Some (Ok (match head (filter (λ x, leading c x = true) kvs) with Some x => inr x.1 | None => inl NoLeader end), c).
Proof.
  induction kvs as [|[i o] kvs IH]; [done|]. cbn [find_leader]. rewrite filter_cons. destruct o as [nd|].
  - rpure. case_decide as Hd; change (leading c (i, Some nd)) with (node_is_leader nd (lib c)) in Hd; [by rewrite Hd|].
    apply not_true_is_false in Hd. by rewrite Hd.
  - by rewrite decide_False.
Qed.

Lemma first_leader_lt c : first_leader c = 0 ∨ first_leader c < length (kvservers (inside (cfg_servers c))).
Proof.
  unfold first_leader. destruct (filter _ _) as [|[i o] l] eqn:Hf; cbn; [by left|right].
  assert ((i, o) ∈ filter (λ x, leading c x = true) (enumerate (kvservers (inside (cfg_servers c))))) as H by (rewrite Hf; by left).
  apply list_elem_of_filter in H as [_ H]. unfold enumerate in H. apply elem_of_lookup_imap in H as (j & o' & [= -> ->] & Hj).
  by eapply lookup_lt_Some.
Qed.

Lemma make_partition_loop_ok n l js p1 p2 q1 q2 : make_partition_loop n l js p1 p2 = (q1, q2) → length p1 <= n / 2 + 1 →
  q1 ++ q2 ≡ₚ p1 ++ p2 ++ filter (λ j, j ≠ l) js ∧ length q1 = (length p1 + length (filter (λ j, j ≠ l) js)) `min` (n / 2 + 1).
Proof.
  revert p1 p2. induction js as [|j js IH]; intros p1 p2; cbn [make_partition_loop].
  { intros [= <- <-] Hp. change (filter _ []) with (@nil nat). split; [by rewrite app_nil_r|cbn [length]; lia]. }
  rewrite filter_cons. destruct (Nat.eqb_spec j l) as [->|Hj]; [rewrite decide_False by (by intros []); apply IH|].
  rewrite decide_True by done. destruct (Nat.ltb_spec (length p1) (n / 2 + 1)) as [Hlt|Hge].
  - intros Hrun Hp. destruct (IH _ _ Hrun) as [Hperm Hlen]; [rewrite length_app; cbn [length]; lia|]. split.
    + rewrite Hperm, <-!app_assoc. apply Permutation_app_head. cbn. by rewrite Permutation_middle.
    + rewrite Hlen, length_app. cbn [length]. lia.
  - intros Hrun Hp. destruct (IH _ _ Hrun) as [Hperm Hlen]; [done|]. split.
    + rewrite Hperm, <-!app_assoc. done.
    + rewrite Hlen. cbn [length]. lia.
Qed.

Lemma others_seq n l : l < n → filter (λ j, j ≠ l) (seq 0 n) ++ [l] ≡ₚ seq 0 n.
Proof.
  intros Hl. apply NoDup_Permutation; [|apply NoDup_seq|].
  - apply NoDup_app. split_and!; [apply NoDup_filter, NoDup_seq| |apply NoDup_singleton].
    intros j [Hj _]%list_elem_of_filter. by rewrite list_elem_of_singleton.
  - intros j. rewrite elem_of_app, list_elem_of_filter, list_elem_of_singleton, elem_of_seq.
    destruct (decide (j = l)); naive_solver lia.
Qed.

(** [make_partition], when nothing moves: it divides the servers into two groups that
    together are all of them, and puts the first server that says it is the leader (server
    0 when there is none) at the end of the second one. The first group has [n / 2 + 1]
    servers, or all others; so for three servers or more the leader is in the minority. *)
Theorem make_partition_minority c : mx_poisoned (cfg_servers c) = false → 0 < cfg_n c →
  length (kvservers (inside (cfg_servers c))) = cfg_n c → ∃ p1 p2,
  run make_partition c = Some (Ok (p1, p2), c) ∧ p1 ++ p2 ≡ₚ seq 0 (cfg_n c) ∧
  last p2 = Some (first_leader c) ∧ length p1 = (cfg_n c - 1) `min` (cfg_n c / 2 + 1) ∧
  (3 ≤ cfg_n c → length p2 < length p1).
Proof.
  intros Hp Hn Hlen. set (l := first_leader c). assert (l < cfg_n c) as Hl by (destruct (first_leader_lt c); unfold l; lia).
  destruct (make_partition_loop (cfg_n c) l (seq 0 (cfg_n c)) [] []) as [p1 p2] eqn:Hloop.
  destruct (make_partition_loop_ok _ _ _ _ _ _ _ Hloop) as [Hperm Hlen1]; [cbn; lia|]. cbn [app length] in Hperm, Hlen1.
  pose proof (others_seq _ _ Hl) as Hoth. pose proof (Permutation_length Hoth) as Hlo. rewrite length_app, length_seq in Hlo. cbn in Hlo.
  assert (p1 ++ p2 ++ [l] ≡ₚ seq 0 (cfg_n c)) as Hall by (by rewrite app_assoc, Hperm).
  exists p1, (p2 ++ [l]). split_and!.
  - unfold make_partition, leader.
    assert (with_servers get_servers c = (Ok (inside (cfg_servers c)), c)) as Hs by (apply guarded_ok; done).
    rewrite (run_bind_ok _ _ _ _ _ (eq_trans (run_atomic_ok _ _ _ _ _ Hs) (find_leader_run _ c))). rpure.
    assert (match match head (filter (λ x, leading c x = true) (enumerate (kvservers (inside (cfg_servers c))))) with
      Some x => inr x.1 | None => inl NoLeader end with inr l0 => l0 | inl _ => 0 end = l) as ->.
    { unfold l, first_leader. by destruct (head _). }
    by rewrite Hloop.
  - done.
  - by rewrite last_snoc.
  - rewrite Hlen1. lia.
  - intros H3. pose proof (Permutation_length Hall) as Ht. rewrite !length_app, length_seq in Ht. cbn in Ht. rewrite length_app. cbn.
    pose proof (Nat.div_mod_eq (cfg_n c) 2). pose proof (Nat.mod_upper_bound (cfg_n c) 2). lia.
Qed.
End kv.

(** ** Witnesses: servers that lead when their number is [lib] *)

#[local] Instance numbered : @KvNode nat nat nat nat (string * list Client) nat := {|
  kvserver_new := λ _ me _ _ _ l, (me, l);
  kvserver_rf := id;
  KvConfig.node_new := λ me l, (me, l);
  node_is_leader := λ me l, me =? l;
  node_kill := λ _ l, l;
  raft_factory := id;
  kv_factory := id;
  clerk_new := pair;
  clerk_name := fst;
|}.

(** Five servers; the third one is alone and is restarted, and a clerk talks to it. *)
Definition example_ops : list (@kv_op (string * list Client)) :=
  [Partition [0; 1; 3; 4] [2]; Save 2 ([Byte.x01], []); Shutdown 2; Start 2; MakeClient id [2]].

Lemma example_allowed : all_allowed 5 (started_all 5 300000) example_ops.
Proof.
  cbn. split_and!; try done; try lia; try (repeat constructor; lia).
  intros i Hi ->%list_elem_of_singleton. set_solver.
Qed.

Lemma kv_config_refines_witness : ∃ c0 c : @Config unit unit nat unit unit nat nat,
  new 5 false None tt 300000 0 2 = (Ok tt, c0) ∧ for_each kv_step example_ops c0 = (Ok tt, c) ∧
  let st := spec_steps 5 (started_all 5 300000) example_ops in
  client_ok st c (inl 0) 1 ∧ on st (inl 0) 1 = true ∧ on st (inl 0) 2 = false ∧ client_ok st c (inr "300035") 2 ∧ on st (inr "300035") 2 = true ∧
  log_size c = (Ok 1%N, c).
Proof.
  destruct (kv_config_refines (EncodeError := unit) (DecodeError := unit) (Hooks := unit) 5 false None tt 300000 0 2 example_ops)
    as (c0 & c & H1 & H2 & H3 & H4 & H5 & _).
  - done.
  - apply example_allowed.
  - done.
  - exists c0, c. split; [done|]. split; [done|]. intros st. split_and!; [apply H3; lia|done|done|apply H4; [cbn; set_solver|lia]|done|exact H5].
Defined.

Lemma make_partition_minority_witness : let c : @Config unit unit nat unit unit nat nat := (new 5 false None tt 300000 0 2).2 in
  ∃ p1 p2, run make_partition c = Some (Ok (p1, p2), c) ∧ length p1 = 3 ∧ last p2 = Some 2.
Proof.
  intros c. destruct (make_partition_minority c) as (p1 & p2 & H1 & _ & H2 & H3 & _); [done|vm_compute; lia|done|].
  exists p1, p2. by split_and!.
Defined.

(** A handler that answers with the node it belongs to. *)
#[local] Instance numbered_factory : @HandlerFactory unit unit nat unit unit :=
  λ me _ _, mret [default Byte.x00 (Byte.of_nat me)].
#[local] Instance no_kv_hooks : @RpcHooks unit unit nat unit unit :=
  {| before_dispatch := λ _ _ _, mret tt; after_dispatch := λ _ _ r, of_answer r |}.

Definition example_draws : Draws := mkDraws 30 500 500 700 0 0 0 [false; true; true].
(** Two servers that do not hear each other; the second one is restarted. *)
Definition small_ops : list (@kv_op (string * list Client)) := [Partition [0] [1]; Shutdown 1; Start 1; MakeClient id [1]].

Lemma small_allowed : all_allowed 2 (started_all 2 300000) small_ops.
Proof.
  cbn. split_and!; try done; try lia; try (repeat constructor; lia).
  intros i Hi ->%list_elem_of_singleton. set_solver.
Qed.

Definition example_config : @Config unit unit nat unit unit nat nat :=
  (for_each kv_step small_ops (new 2 false None tt 300000 0 2).2).2.

(** The request of the owner [o] for the server [j]. *)
Definition example_request (o : owner) (j : nat) : Rpc :=
  mkRpc (default "" (name_of example_config (o, j))) "kv.get" (Some []) None 0.

(** The restarted server 1 answers the clerk, and no other server. *)
Lemma kv_requests_witness :
  (∃ srv ts, run (network_process_rpc example_draws (example_request (inr "300008") 1)) (net example_config) =
     Some (Ok [Byte.x01], handled srv tt ts (net example_config))) ∧
  ∃ ms, run (network_process_rpc example_draws (example_request (inl 0) 1)) (net example_config) =
     Some (Err Timeout, leave tt [ms] (counted (net example_config))).
Proof.
  split.
  - destruct (kv_requests (EncodeError := unit) (DecodeError := unit) (Hooks := unit) 2 false None tt 300000 0 2 small_ops
      (new 2 false None tt 300000 0 2).2 example_config example_draws (example_request (inr "300008") 1) (inr "300008") 1)
      as (node & Hn & H); [done|apply small_allowed|done|by vm_compute|by vm_compute|by vm_compute|by vm_compute|].
    assert (node = 1) as -> by (vm_compute in Hn; congruence).
    eapply (H [] "get" [] (Ok [Byte.x01]) (net example_config)); [by vm_compute|done|done|constructor|done|vm_compute; lia|done|done].
  - refine (kv_requests (EncodeError := unit) (DecodeError := unit) (Hooks := unit) 2 false None tt 300000 0 2 small_ops
      (new 2 false None tt 300000 0 2).2 example_config example_draws (example_request (inl 0) 1) (inl 0) 1 _ _ _ _ _ _ _);
      [done|apply small_allowed|done|by vm_compute|by vm_compute|by vm_compute|by vm_compute].
Defined.
